(* ===== verification/_CoqProject ===== *)
-Q . S2P
Prelude.v
Bitset.v
Porcupine.v
LinkedList.v
Checker.v
Search.v
Linearizability.v
CheckerProof.v
CheckSingle.v
Entries.v
Parallel.v
KvModel.v
CheckerApi.v
KvSrv.v
KvSrvLin.v
Coordinator.v
MapReduce.v
MapReduceOutput.v
MapReduceJob.v
MapReduceApps.v
MapReduceMain.v
Raft.v
RaftVotes.v
RaftTyping.v
RaftElection.v
RaftRuns.v
RaftLiveness.v
LabGob.v
Persister.v
LabRpc.v
LabRpcProof.v
LabRpcApi.v
LabRpcCalls.v
KvSrvConfig.v
KvNet.v
KvNetLin.v
KvService.v
ShardCtrler.v
ShardKv.v
KvRaft.v
Visualization.v
RaftConfig.v
RaftWiring.v
RaftChecks.v
RaftNet.v
RaftNetSim.v
RaftService.v
RaftNetLive.v
GroupConfig.v
GroupLinks.v
GroupRuns.v
CtrlerConfig.v
ShardKvConfig.v
ShardKvLinks.v
ShardKvRuns.v
ShardKvTests.v
ShardKvService.v
