(* ===== verification/Prelude.v ===== *)
(** * The 6.5840 labs: a verification development

    The repository holds the Go programs of a course on distributed systems:
    a MapReduce library, a key/value server with retrying clerks, leader
    election of Raft, the skeletons of three services to be built on it, and what
    their tests are run with: a simulated network, a linearizability checker, and
    for every lab a tester that starts, crashes and connects the servers.
    The sources are below [src/6.5840/src]; paths in this text are relative to it.

    ** Parts and files

    The checker, [porcupine] and [models]. [Porcupine] has histories, models
    of sequential objects and how a history becomes a list of entries
    ([model.go], [makeEntries] to [convertEntries]); [LinkedList] the entries as
    heap nodes linked in both directions, with [lift] and [unlift]; [Bitset] the
    sets of operations ([bitset.go]); [Checker] the search [checkSingle], one
    definition for an iteration of its loop; [Parallel] the goroutines and the
    [select] of [checkParallel] and the API of [porcupine.go]; [KvModel] the
    key/value model of [models/kv.go]. The proofs are in [Search] (the search
    without the heap), [Linearizability] (the specification), [CheckerProof],
    [CheckSingle], [Entries] and [CheckerApi]. [Visualization] has the functions of
    [visualization.go] that compute what is drawn.

    The key/value server of lab 2, [kvsrv]. [KvSrv] has the handlers of
    [server.go], the loops of [client.go] and a system of any number of clerks
    whose calls may be lost; [KvSrvLin] proves it linearizable, for the
    specification of histories that [Porcupine] and [KvModel] give, so the
    tests, which ask the checker, ask for what is proved. [KvSrvConfig] has its tester,
    [kvsrv/config.go]; [KvNet] puts clerks, network and server together as that
    tester does, on the model of [labrpc] instead of lost calls; [KvNetLin] and
    [KvService] prove that system linearizable.

    MapReduce of lab 1, [mr], [mrapps] and [main/mrsequential.go]. [Coordinator]
    has the handlers of [coordinator.go]; [MapReduce] the workers as processes that
    read, write and rename files one step at a time and can crash in between, and the
    sequential program; [MapReduceOutput] what the buckets and the reduce loop
    compute; [MapReduceJob] that a finished job has the lines of the
    sequential program; [MapReduceApps] the applications that read UTF-8, crash, or
    count calls and processes; [MapReduceMain] the programs [main/mrcoordinator.go]
    and [main/mrworker.go], and that a job can be brought to its end.

    Raft of lab 3, [raft]. [Raft] has the handlers and goroutines of [raft.go] as
    threads of a system of servers with a clock; [RaftVotes], [RaftTyping],
    [RaftElection], [RaftRuns] and [RaftLiveness] its theorems. [Persister] has [persister.go] on
    slices that share arrays, and refines it to byte strings. [RaftConfig] is the
    tester, [raft/config.go]: its record is passed through an error monad whose
    failures are the panics and [Fatalf]s of the code. [RaftWiring] proves what its
    operations on servers and ends do, [RaftChecks] what its checks find out.
    [RaftNet] puts the servers on the model of [labrpc] instead of calls that are
    one delivery, [RaftNetSim] simulates that system by the one of [Raft], with the
    requests whose handler runs after their call has failed, [RaftService] starts it
    from what [make_config] makes, and [RaftNetLive] goes the other way: the system
    can follow the model where no call fails.

    The simulated network, [labrpc] and [labgob]. [LabRpc] has ends, network,
    servers and services of [labrpc.go] as a system of goroutines;
    [LabRpcProof] and [LabRpcApi] what a call over it means, [LabRpcCalls] what a
    service on top of it can rely on. [LabGob] has the
    searches through types and variables of [labgob.go].

    The skeletons, [shardctrler], [shardkv] and [kvraft]. [ShardCtrler], [ShardKv]
    and [KvRaft] have their messages, their clerks and their servers, whose
    handlers are empty in the code. Their testers are more than skeletons.
    [GroupConfig] is [kvraft/config.go], and what [shardctrler/config.go] has in common
    with it: a group of servers whose ends are connected one by one, so that
    the group can be partitioned; [CtrlerConfig] has what the second does otherwise.
    [GroupLinks] and [GroupRuns] prove which server reaches which. [ShardKvConfig] is
    [shardkv/config.go], with several groups, the controllers, and ends that the
    servers and clerks make on demand; [ShardKvLinks] and [ShardKvRuns] have its
    invariant, [ShardKvTests] what the set-up does, and [ShardKvService] the theorems.

    ** How the code is modelled

    A Go struct is a record, a method that runs with its lock held is a
    function on the record, and a goroutine is a thread, process or call of a
    transition system, one step of which is what runs between two places where
    another one can come in. Runs are lists of actions executed by a function
    [exec], so they can be computed. A panic, or an action that cannot happen, is
    [None]; [LabRpc] tells the two apart. Integers have the width Go gives them
    where they can wrap: 64-bit words in [Bitset], 32-bit hashes in
    [MapReduce.ihash], counters and ids; times, terms and numbers of tasks do not
    reach their bounds and are integers. Pointers that matter (the entry list, the
    arrays of [Persister], the servers of [LabRpc], the variables [LabGob]
    decodes into) are locations of a store. Maps are [gmap]s.

    What is not in the repository is an argument: sorting is any function that
    keeps the contract of [sort.Sort] (class [GoSort], which insertion sort
    satisfies), JSON is a class with its round trip ([MapReduce.Json]), gob is
    two functions in [LabGob] and the class [LabRpc.Codec] in [LabRpc], the random
    numbers and the clock are arguments of the actions that read them.

    A loop that need not end has fuel. [Checker.checkSingle] has one unit for an
    iteration, and [CheckerApi] proves that enough exists for every history
    ([checkSingle_decides]); [LabGob.checkType] needs one more than there are
    types, [LabGob.checkDefault1] four; the loops of the clerks in [ShardCtrler]
    and [ShardKv] have one unit for a round, and the theorems say with how much
    they return, or that none is enough.

    ** What is proved

    The checker answers true exactly on linearizable histories, for entries
    ([checkSingle_decides]), for operations and the whole key/value store
    ([CheckOperations_KvModel]) and for events ([CheckEvents_decides]); it ends;
    the partial linearizations it reports are ones ([checkSingle_partials]), and
    the data of the visualization show all of them ([computeVisualizationData_shows]);
    what it builds on is right ([makeEntries_faithful], [renumber_convert_renames],
    [lift_then_unlift], [bitset_operations], [bitset_equality]); and on an empty
    history it never answers ([CheckOperations_empty_hangs]).

    The key/value server executes every operation exactly once
    ([kvsrv_linearizable]) and forgets what it need not remember
    ([kvsrv_forgets_ids]); [clerk_returns] and [repeated_replies] say when a clerk
    returns and with what. The same holds of clerks, network and server together
    ([kvnet_linearizable]) once the tester has set them up ([set_up_connects]), and
    an operation of a clerk can always return ([kvnet_can_return]).

    A MapReduce job ends with the lines of the sequential program
    ([mapreduce_matches_sequential]), for reduce functions that do not look at
    the order of the values, which those of the applications do not
    ([apps_order_blind]), except after a crash at one place
    ([reduce_output_truncated]). [AssignMission_assigns], [coordinator_progress],
    [HandleMapFinish_timestamp] and [HandleMap_buckets] are the parts;
    [mrcoordinator] can end from every state a job gets into otherwise, with the lines
    of [mrsequential] ([mrcoordinator_can_end]). Word count and
    indexer print what one expects ([wc_and_indexer]), and the applications of the
    tests count calls and processes exactly ([jobcount_exact], [nparallel_counts]).

    Every reachable state of Raft is well-formed and none of its goroutines is
    stuck ([raft_type_sound]). In Raft a server votes once in a term
    ([one_vote_per_term]) and terms grow ([terms_grow]); there is at most one leader in a term in runs that count no
    vote of an earlier election ([election_safety]), and there can be two
    otherwise ([two_leaders_in_one_term] is such a run); from every state a server that is not killed
    can be elected when no message is lost ([a_server_can_lead]). Over the simulated
    network, whatever it does, the servers only do what those of the model do
    ([raftnet_refines]), so there, too, one leads a term in runs that count no
    vote of an earlier election ([raftnet_election_safety]). When all are connected a
    server can be elected ([raftnet_can_elect]), and any two of three or more
    servers can be, in the same term ([raftnet_two_leaders]). [old_leader_deposes_new],
    [heartbeat_replies_ignored] and [single_server_never_leads] are about what the
    code does with heartbeats and majorities, [RequestVote_cases] and
    [ticker_elects] about its handlers and timers. The persister keeps what it
    was given ([persister_refines]).

    The tester of Raft enables exactly the ends it should, whatever a test does
    ([harness_reaches]), and a restarted server finds what was saved when it crashed
    ([restart_keeps_saved]). Its check for a leader never reports two leaders that
    are not there ([checkOneLeader_sound]); the log entries it counts are there
    ([agreement_is_committed]); the readers of the apply channels find every
    disagreement ([appliers_check]) and snapshots restore logs ([snapshot_restores]).
    With [Start] as it is no test can agree on a command ([one_never_agrees]).

    The testers of the services lead every end to the server it is for, while and
    only while its link is set or its owner runs ([group_links], [shardkv_links]), a
    partition splits the group ([partition_splits], [make_partition_splits]), and the
    names given to the controller lead to the servers ([joined_names_lead]).
    [Leader_skips_dead] and [groups_of_three] are about the two places where a tester
    panics.

    A call over the network is executed at most once and returns true only
    with the reply of that execution, from a server that is still there
    ([Call_meaning]); while nobody changes the network it has one of the three
    fates [KvSrv] is modelled with ([calls_have_fates]); it can always return
    ([Call_can_return]); it reaches the method it names ([dispatch_routes]).
    labgob passes on what gob answers and warns about what it should, but panics on
    a variable with a field that is not exported ([Encode_complains_once],
    [Decode_warns]).

    A clerk of the sharded service returns what the group of the key answers
    ([Get_returns]), and never returns with the servers as they are
    ([skeleton_never_serves]).

    ** What is not modelled

    The web page that [porcupine/visualization.go] writes the data into, which is a
    program in another language; what is only printed, in the testers and in
    [raft/util.go]; the random strings and seeds of the testers; the tests
    themselves; and the programs of [main] that refer to packages that are not there
    ([lockc.go], [lockd.go], [pbc.go], [pbd.go], [viewd.go], [diskvd.go]). Of the
    applications, that a timing application cannot write or read its directory.
    Raft's log and its persistence are not written in the code. In [KvSrv] the outcome of a call is
    one of three fates; a handler that runs after its call has returned, which
    needs somebody to disconnect the end or delete the server, is only in [LabRpc] and
    [RaftNet]. In [RaftNet] no server is started again; restarts are in [RaftWiring].

    ** This file

    Go's integers, slices, sorting and string order, the automation the other
    files use, and lemmas on lists that several of them share. *)
From Stdlib Require Export ZArith Lia.
From stdpp Require Export prelude gmap strings list sorting relations.

Declare Scope go_scope.
Delimit Scope go_scope with go.

(** ** Go machine integers *)

(** The value a Go unsigned integer of [w] bits holds after an operation whose
    mathematical result is [z]. *)
Definition wrap_u (w : Z) (z : Z) : Z := (z mod 2 ^ w)%Z.

(** The same for a signed (two's complement) integer of [w] bits. *)
Definition wrap_s (w : Z) (z : Z) : Z := ((z + 2 ^ (w - 1)) mod 2 ^ w - 2 ^ (w - 1))%Z.

Definition in_u (w : Z) (z : Z) : Prop := (0 ≤ z < 2 ^ w)%Z.
Definition in_s (w : Z) (z : Z) : Prop := (- 2 ^ (w - 1) ≤ z < 2 ^ (w - 1))%Z.

Lemma wrap_u_in w z : (0 ≤ w)%Z → in_u w (wrap_u w z).
Proof. intros Hw. unfold in_u, wrap_u. apply Z.mod_pos_bound. lia. Qed.

Lemma wrap_u_id w z : in_u w z → wrap_u w z = z.
Proof. apply Z.mod_small. Qed.

Lemma pow2_half w : (0 < w)%Z → (2 ^ w = 2 * 2 ^ (w - 1))%Z.
Proof. intros. rewrite <- Z.pow_succ_r by lia. f_equal. lia. Qed.

Lemma wrap_s_in w z : (0 < w)%Z → in_s w (wrap_s w z).
Proof.
  intros Hw. unfold in_s, wrap_s.
  pose proof (pow2_half w Hw).
  pose proof (Z.mod_pos_bound (z + 2 ^ (w - 1)) (2 ^ w)). lia.
Qed.

Lemma wrap_s_id w z : (0 < w)%Z → in_s w z → wrap_s w z = z.
Proof.
  intros Hw [Hl Hr]. unfold wrap_s. pose proof (pow2_half w Hw).
  rewrite Z.mod_small; lia.
Qed.

(** ** Automation *)

(** Facts about machine integers and slices that close goals on their own. *)
Create HintDb go discriminated.
#[export] Hint Resolve wrap_u_in wrap_s_in wrap_u_id wrap_s_id : go.
#[export] Hint Extern 1 (_ < _)%Z => lia : go.
#[export] Hint Extern 1 (_ <= _)%Z => lia : go.

(** Decide the comparisons of integers in the goal that [lia] can decide. *)
Ltac z_tests :=
  repeat match goal with
  | |- context [Z.leb ?a ?b] => first [rewrite (proj2 (Z.leb_le a b)) by lia | rewrite (proj2 (Z.leb_gt a b)) by lia]
  | |- context [Z.ltb ?a ?b] => first [rewrite (proj2 (Z.ltb_lt a b)) by lia | rewrite (proj2 (Z.ltb_ge a b)) by lia]
  | |- context [Z.eqb ?a ?b] => first [rewrite (proj2 (Z.eqb_eq a b)) by lia | rewrite (proj2 (Z.eqb_neq a b)) by lia]
  end.

(** A computation in the option monad that gave a value: every part of it did. *)
Ltac inv_bind :=
  repeat match goal with
  | H : mbind (M := option) _ ?x = Some _ |- _ =>
      let E := fresh "E" in destruct x eqn:E; [cbn [mbind option_bind] in H | discriminate H]
  | H : (let '(_, _) := ?x in _) = Some _ |- _ => let E := fresh "E" in destruct x eqn:E
  end.

(** ** Slices indexed by a Go [int]

    Reading or writing outside the slice panics, which is [None]. *)
Definition go_index {A} (l : list A) (i : Z) : option A :=
  if (0 <=? i)%Z then l !! Z.to_nat i else None.

Definition go_update {A} (l : list A) (i : Z) (x : A) : option (list A) :=
  if (0 <=? i)%Z && (i <? Z.of_nat (length l))%Z then Some (<[Z.to_nat i := x]> l) else None.

Lemma go_index_nat {A} (l : list A) (i : nat) : go_index l (Z.of_nat i) = l !! i.
Proof. unfold go_index. z_tests. by rewrite Nat2Z.id. Qed.

Lemma go_update_nat {A} (l : list A) (i : nat) x :
  go_update l (Z.of_nat i) x = if decide (i < length l) then Some (<[i := x]> l) else None.
Proof.
  unfold go_update. rewrite Nat2Z.id. case_decide; by z_tests.
Qed.

Lemma go_index_Some {A} (l : list A) (i : Z) x :
  go_index l i = Some x ↔ (0 ≤ i)%Z ∧ l !! Z.to_nat i = Some x.
Proof.
  unfold go_index. destruct (Z.leb_spec 0 i); split; intros; try tauto; try done; lia.
Qed.

Lemma go_index_bound {A} (l : list A) (i : Z) :
  is_Some (go_index l i) ↔ (0 ≤ i < Z.of_nat (length l))%Z.
Proof.
  unfold go_index. destruct (Z.leb_spec 0 i).
  - rewrite lookup_lt_is_Some. lia.
  - split; [by intros [? [=]] | lia].
Qed.

Lemma go_update_Some {A} (l : list A) (i : Z) x l' :
  go_update l i x = Some l' ↔ (0 ≤ i < Z.of_nat (length l))%Z ∧ l' = <[Z.to_nat i := x]> l.
Proof.
  unfold go_update.
  destruct (Z.leb_spec 0 i), (Z.ltb_spec i (Z.of_nat (length l))); simpl;
    (split; [intros [=]; subst; try done; lia || (split; [lia | done]) | intros [? ->]; (done || lia)]).
Qed.

Lemma go_update_in {A} (l : list A) (i : Z) x :
  (0 ≤ i < Z.of_nat (length l))%Z → go_update l i x = Some (<[Z.to_nat i := x]> l).
Proof. intros. by apply go_update_Some. Qed.

(** ** Go's [sort]

    [sort.Sort] and [sort.Strings] order a slice by [less] and promise nothing on
    the relative order of elements neither of which is less than the other
    ([sort.Sort] is not stable). A definition that sorts takes the sorting
    function from this class, so what is proved of it holds for every
    function that keeps the contract. *)
Class GoSort {A} (less : A → A → bool) := {
  gosort : list A → list A;
  gosort_perm l : gosort l ≡ₚ l;
  gosort_sorted l : StronglySorted (λ a b, less b a = false) (gosort l);
}.
Arguments gosort {_} _ {_} _.

(** What [sort.Interface] asks of [Less]: a strict weak order. *)
Class StrictWeak {A} (less : A → A → bool) : Prop := {
  less_asym a b : less a b = true → less b a = false;
  less_negtrans a b c : less b a = false → less c b = false → less c a = false;
}.

(** Insertion sort, what Go runs on short slices, keeps the contract. *)
Section insertion_sort.
Context {A} (less : A → A → bool) `{!StrictWeak less}.

Fixpoint insert_sorted (x : A) (l : list A) : list A :=
  match l with
  | [] => [x]
  | y :: l' => if less y x then y :: insert_sorted x l' else x :: l
  end.

Definition insertion_sort (l : list A) : list A := foldr insert_sorted [] l.

Lemma insert_sorted_perm x l : insert_sorted x l ≡ₚ x :: l.
Proof using Type.
  induction l as [|y l IH]; simpl; [done|]. destruct (less y x); [|done].
  rewrite IH. apply Permutation_swap.
Qed.

Lemma insertion_sort_perm l : insertion_sort l ≡ₚ l.
Proof using Type.
  induction l as [|x l IH]; simpl; [done|]. by rewrite insert_sorted_perm, IH.
Qed.

Lemma insert_sorted_sorted x l :
  StronglySorted (λ a b, less b a = false) l →
  StronglySorted (λ a b, less b a = false) (insert_sorted x l).
Proof.
  induction 1 as [|y l Hs IH Hf]; simpl; [repeat constructor|].
  destruct (less y x) eqn:E.
  - constructor; [done|]. rewrite insert_sorted_perm. constructor; [|done]. by apply less_asym.
  - constructor; [by constructor|]. constructor; [done|].
    eapply Forall_impl; [done|]. intros z Hz. eapply less_negtrans; eauto.
Qed.

#[global] Instance insertion_GoSort : GoSort less | 100.
Proof.
  refine {| gosort := insertion_sort |}.
  - apply insertion_sort_perm.
  - intros l. induction l; simpl; [constructor|]. by apply insert_sorted_sorted.
Defined.
End insertion_sort.

(** ** Sorted lists *)

Lemma StronglySorted_filter {A} (R : relation A) (P : A → Prop) `{!∀ x, Decision (P x)} l :
  StronglySorted R l → StronglySorted R (filter P l).
Proof.
  induction 1 as [|x l Hs IH Hf]; [constructor|]. rewrite filter_cons.
  case_decide; [|done]. constructor; [done|].
  rewrite Forall_forall in *. intros y [_ Hy]%list_elem_of_filter. by apply Hf.
Qed.

Lemma sorted_gt_NoDup (l : list nat) : StronglySorted gt l → NoDup l.
Proof.
  induction 1 as [|x l Hs IH Hf]; constructor; [|done].
  intros Hx. rewrite Forall_forall in Hf. apply Hf in Hx. lia.
Qed.

(** A decreasing list is determined by its elements. *)
Lemma sorted_gt_ext (l1 l2 : list nat) :
  StronglySorted gt l1 → StronglySorted gt l2 → (∀ x, x ∈ l1 ↔ x ∈ l2) → l1 = l2.
Proof.
  intros H1 H2 Hx. assert (AntiSymm eq gt) by (intros ?; lia).
  apply (StronglySorted_unique gt); [done|done|].
  apply NoDup_Permutation; auto using sorted_gt_NoDup.
Qed.

(** Two elements of a decreasing list, the larger one comes first. *)
Lemma sorted_gt_split (l : list nat) x y :
  StronglySorted gt l → x ∈ l → y ∈ l → y < x →
  ∃ l1 l2 l3, l = l1 ++ x :: l2 ++ y :: l3.
Proof.
  intros Hs (l1 & l2 & ->)%list_elem_of_split Hy Hlt.
  apply elem_of_app in Hy as [Hy|Hy].
  - assert (x < y); [|lia]. eapply (StronglySorted_app_1_elem_of gt) in Hs; [apply Hs|done|]. set_solver.
  - apply elem_of_cons in Hy as [->|(l3 & l4 & ->)%list_elem_of_split]; [lia|]. eauto.
Qed.

Lemma StronglySorted_lookup {A} (R : relation A) l i j x y :
  StronglySorted R l → (i < j)%nat → l !! i = Some x → l !! j = Some y → R x y.
Proof.
  intros Hs. revert i j. induction Hs as [|z l Hs IH Hf]; intros i j Hij Hi Hj; [done|].
  destruct j as [|j]; [lia|]. destruct i as [|i]; simpl in *; simplify_eq.
  - rewrite Forall_forall in Hf. apply Hf. by eapply list_elem_of_lookup_2.
  - eapply IH; [|done|done]. lia.
Qed.

Lemma StronglySorted_alt {A} (R : relation A) (l : list A) :
  (∀ i j x y, (i < j)%nat → l !! i = Some x → l !! j = Some y → R x y) → StronglySorted R l.
Proof.
  induction l as [|z l IH]; intros H; constructor.
  - apply IH. intros i j x y Hij Hi Hj. apply (H (S i) (S j)); [lia|done|done].
  - apply Forall_forall. intros y (j & Hj)%list_elem_of_lookup. apply (H 0%nat (S j)); [lia|done|done].
Qed.

(** ** Go strings

    A Go string is a sequence of bytes, [<] compares them byte by byte. *)
Fixpoint str_ltb (a b : string) : bool :=
  match a, b with
  | _, EmptyString => false
  | EmptyString, String _ _ => true
  | String x a, String y b =>
      (Ascii.N_of_ascii x <? Ascii.N_of_ascii y)%N || ((Ascii.N_of_ascii x =? Ascii.N_of_ascii y)%N && str_ltb a b)
  end.

#[global] Instance str_ltb_StrictWeak : StrictWeak str_ltb.
Proof.
  split.
  - intros a. induction a as [|x a IH]; intros [|y b]; simpl; try done.
    intros [H|[H1 H2]%andb_true_iff]%orb_true_iff.
    + apply N.ltb_lt in H. rewrite (proj2 (N.ltb_ge _ _)), (proj2 (N.eqb_neq _ _)) by lia. done.
    + apply N.eqb_eq in H1. rewrite H1, N.ltb_irrefl, N.eqb_refl. simpl. by apply IH.
  - intros a. induction a as [|x a IH]; intros [|y b] [|z c]; simpl; try done.
    rewrite !orb_false_iff, !andb_false_iff, !N.ltb_ge, !N.eqb_neq.
    intros [H1 H2] [H3 H4]. split; [lia|].
    destruct (N.eq_dec (Ascii.N_of_ascii z) (Ascii.N_of_ascii x)); [|by left].
    destruct H2 as [?|H2]; [lia|]. destruct H4 as [?|H4]; [lia|]. right. by eapply IH.
Qed.

Lemma str_ltb_total a b : str_ltb a b = false → str_ltb b a = false → a = b.
Proof.
  revert b. induction a as [|x a IH]; intros [|y b]; simpl; try done.
  rewrite !orb_false_iff, !andb_false_iff, !N.ltb_ge, !N.eqb_neq. intros [H1 H2] [H3 H4].
  assert (E : Ascii.N_of_ascii x = Ascii.N_of_ascii y) by lia.
  destruct H2 as [?|H2]; [lia|]. destruct H4 as [?|H4]; [lia|].
  f_equal; [|by apply IH]. rewrite <- (Ascii.ascii_N_embedding x), E. apply Ascii.ascii_N_embedding.
Qed.

Lemma str_ltb_irrefl a : str_ltb a a = false.
Proof. destruct (str_ltb a a) eqn:E; [|done]. by rewrite (less_asym a a E) in E. Qed.

(** ** Stable sorting *)
Section stable.
Context {A} (less : A → A → bool) `{!StrictWeak less}.

Lemma insert_sorted_filter (P : A → Prop) `{!∀ x, Decision (P x)} x l :
  StronglySorted (λ a b, less b a = false) l →
  filter P (insert_sorted less x l) = if decide (P x) then insert_sorted less x (filter P l) else filter P l.
Proof.
  induction 1 as [|y l Hs IH Hf]; simpl.
  - rewrite filter_cons. by case_decide.
  - destruct (less y x) eqn:E.
    + rewrite !filter_cons, IH. repeat case_decide; simpl; rewrite ?E; try done.
    + rewrite (filter_cons _ x). case_decide; [|done].
      assert (Hhead : Forall (λ z, less z x = false) (filter P (y :: l))).
      { rewrite Forall_forall in *. intros z [_ [->|Hz]%elem_of_cons]%list_elem_of_filter; [done|].
        apply (less_negtrans x y z); [done|]. by apply Hf. }
      destruct (filter P (y :: l)) as [|z fl]; [done|]. simpl.
      by rewrite (Forall_inv Hhead).
Qed.

Lemma insertion_sort_id l :
  StronglySorted (λ a b, less b a = false) l → insertion_sort less l = l.
Proof using Type.
  induction 1 as [|x l Hs IH Hf]; simpl; [done|]. rewrite IH.
  destruct l as [|y l]; [done|]. simpl. by rewrite (Forall_inv Hf).
Qed.

Lemma insertion_sort_sorted l : StronglySorted (λ a b, less b a = false) (insertion_sort less l).
Proof. induction l; simpl; [constructor|]. by apply insert_sorted_sorted. Qed.

(** Sorting and then selecting is selecting and then sorting. *)
Lemma insertion_sort_filter (P : A → Prop) `{!∀ x, Decision (P x)} l :
  filter P (insertion_sort less l) = insertion_sort less (filter P l).
Proof.
  induction l as [|x l IH]; [done|].
  change (insertion_sort less (x :: l)) with (insert_sorted less x (insertion_sort less l)).
  rewrite insert_sorted_filter by apply insertion_sort_sorted. rewrite filter_cons.
  case_decide; [|done]. by rewrite IH.
Qed.
End stable.

(** Two lists with the same elements for every value of [f] have the same elements. *)
Lemma Permutation_by_filter {A B} `{!EqDecision B} (f : A → B) (l1 l2 : list A) :
  (∀ k, filter (λ x, f x = k) l1 ≡ₚ filter (λ x, f x = k) l2) → l1 ≡ₚ l2.
Proof.
  revert l2. induction l1 as [|x l1 IH]; intros l2 H.
  - destruct l2 as [|y l2]; [done|]. specialize (H (f y)). simpl in H.
    rewrite filter_cons_True in H by done. by apply Permutation_nil_cons in H.
  - assert (Hx : x ∈ l2).
    { assert (x ∈ filter (λ y, f y = f x) l2) as Hx; [|by apply list_elem_of_filter in Hx as [_ ?]].
      rewrite <- H. rewrite filter_cons_True by done. set_solver. }
    apply list_elem_of_split in Hx as (la & lb & ->).
    assert (Hp : la ++ x :: lb ≡ₚ x :: la ++ lb) by (symmetry; apply Permutation_middle).
    rewrite Hp. constructor. apply IH. intros k.
    specialize (H k). rewrite Hp, !filter_cons in H. case_decide; [by apply Permutation_cons_inv in H|done].
Qed.

#[export] Instance str_le_antisymm : AntiSymm (=) (λ a b, str_ltb b a = false).
Proof. intros a b H1 H2. by apply str_ltb_total. Qed.

(** A sorted list of strings is determined by its elements. *)
Lemma sorted_strings_eq (l1 l2 : list string) :
  StronglySorted (λ a b, str_ltb b a = false) l1 → StronglySorted (λ a b, str_ltb b a = false) l2 → l1 ≡ₚ l2 → l1 = l2.
Proof. apply StronglySorted_unique. apply _. Qed.

Lemma StronglySorted_snoc {A} (R : relation A) l x :
  StronglySorted R l → (∀ y, y ∈ l → R y x) → StronglySorted R (l ++ [x]).
Proof.
  induction 1 as [|y l Hs IH Hf]; intros Hx; simpl; [repeat constructor|]. constructor.
  - apply IH. intros z Hz. apply Hx. set_solver.
  - apply Forall_app. split; [done|]. repeat constructor. apply Hx. set_solver.
Qed.

Lemma elem_of_concat {A} (x : A) (ls : list (list A)) : x ∈ concat ls ↔ ∃ l, x ∈ l ∧ l ∈ ls.
Proof.
  induction ls as [|l ls IH]; simpl; [split; [by intros ?%elem_of_nil|by intros (? & _ & ?%elem_of_nil)]|].
  rewrite elem_of_app, IH. set_solver.
Qed.

(** ** Filters *)

Lemma filter_ext_elem {A} (P Q : A → Prop) `{!∀ x, Decision (P x)} `{!∀ x, Decision (Q x)} (l : list A) :
  (∀ x, x ∈ l → P x ↔ Q x) → filter P l = filter Q l.
Proof.
  induction l as [|x l IH]; [done|]. intros Hall. rewrite !filter_cons.
  rewrite (decide_ext (P x) (Q x)) by (apply Hall; set_solver). rewrite IH; [done|]. intros. apply Hall. set_solver.
Qed.

Lemma filter_map {A B} (f : A → B) (P : B → Prop) `{!∀ x, Decision (P x)} (l : list A) :
  filter P (f <$> l) = f <$> filter (λ x, P (f x)) l.
Proof.
  induction l as [|x l IH]; [done|]. rewrite fmap_cons, !filter_cons. case_decide; [by rewrite fmap_cons, IH|done].
Qed.

Lemma filter_all {A} (P : A → Prop) `{!∀ x, Decision (P x)} (l : list A) :
  (∀ x, x ∈ l → P x) → filter P l = l.
Proof.
  induction l as [|x l IH]; [done|]. intros Hall. rewrite filter_cons_True by (apply Hall; set_solver).
  f_equal. apply IH. intros. apply Hall. set_solver.
Qed.

Lemma filter_none {A} (P : A → Prop) `{!∀ x, Decision (P x)} (l : list A) :
  (∀ x, x ∈ l → ¬ P x) → filter P l = [].
Proof.
  induction l as [|x l IH]; [done|]. intros Hall. rewrite filter_cons_False by (apply Hall; set_solver).
  apply IH. intros. apply Hall. set_solver.
Qed.

(** The whole of a string is a part of it. *)
Lemma substring_all (s : string) : String.substring 0 (String.length s) s = s.
Proof. induction s as [|a s IH]; [done|]. exact (f_equal (String a) IH). Qed.

(** ** Values as bytes

    A codec to instantiate the codecs of the program with, which are parameters. *)
Fixpoint bytes_of_pos (p : positive) : list Byte.byte :=
  match p with
  | xH => []
  | xO p => Byte.x00 :: bytes_of_pos p
  | xI p => Byte.x01 :: bytes_of_pos p
  end.

Fixpoint pos_of_bytes (bs : list Byte.byte) : positive :=
  match bs with
  | [] => xH
  | b :: bs => if Byte.eqb b Byte.x00 then xO (pos_of_bytes bs) else xI (pos_of_bytes bs)
  end.

Definition bytes_of_value {A} `{Countable A} (a : A) : list Byte.byte := bytes_of_pos (encode a).
Definition value_of_bytes {A} `{Countable A} (bs : list Byte.byte) : option A := decode (pos_of_bytes bs).

Lemma value_of_bytes_of_value {A} `{Countable A} (a : A) : value_of_bytes (bytes_of_value a) = Some a.
Proof.
  unfold value_of_bytes, bytes_of_value. rewrite <- decode_encode. f_equal.
  induction (encode a) as [p IH|p IH|]; simpl; by rewrite ?IH.
Qed.
