(* ===== verification/Bitset.v ===== *)
(** * The bit sets of the linearizability checker

    [src/6.5840/src/porcupine/bitset.go]: a set of operation ids, 64 to a word.
    A set is the slice of its words; [set] and [clear] write one word of the
    slice in place and return it, here they return the new contents. An index
    outside the slice panics: [None]. *)
From S2P Require Import Prelude.
Local Open Scope Z_scope.

Module Bitset.

(** ** The operations of bitset.go *)

Abbreviation bitset := (list Z).

Definition newBitset (bits : Z) : bitset :=
  let extra := if negb (bits mod 64 =? 0) then 1 else 0 in
  let chunks := bits / 64 + extra in
  replicate (Z.to_nat chunks) 0.

Definition clone (b : bitset) : bitset :=
  let dataCopy := replicate (length b) 0 in
  b ++ drop (length b) dataCopy.

Definition bitsetIndex (pos : Z) : Z * Z := (pos / 64, pos mod 64).

Definition set (b : bitset) (pos : Z) : option bitset :=
  let '(major, minor) := bitsetIndex pos in
  w ← go_index b major;
  go_update b major (Z.lor w (wrap_u 64 (Z.shiftl 1 minor))).

Definition clear (b : bitset) (pos : Z) : option bitset :=
  let '(major, minor) := bitsetIndex pos in
  w ← go_index b major;
  go_update b major (Z.ldiff w (wrap_u 64 (Z.shiftl 1 minor))).

Definition get (b : bitset) (pos : Z) : option bool :=
  let '(major, minor) := bitsetIndex pos in
  w ← go_index b major;
  Some (negb (Z.land w (wrap_u 64 (Z.shiftl 1 minor)) =? 0)).

(** [bits.OnesCount64] of Go's [math/bits]. *)
Definition OnesCount64 (v : Z) : Z :=
  foldr (λ i n, Z.b2z (Z.testbit v (Z.of_nat i)) + n) 0 (seq 0 64).

Definition popcnt (b : bitset) : Z :=
  wrap_u 64 (foldl (λ total v, wrap_s 64 (total + OnesCount64 v)) 0 b).

Definition hash (b : bitset) : Z := foldl Z.lxor (popcnt b) b.

(** The loop [for i := range b { if b[i] != b2[i] { return false } }]. *)
Fixpoint equals_from (b b2 : bitset) : bool :=
  match b, b2 with
  | w :: b, w2 :: b2 => if negb (w =? w2) then false else equals_from b b2
  | _, _ => true
  end.

Definition equals (b b2 : bitset) : bool :=
  if negb (length b =? length b2)%nat then false else equals_from b b2.

(** ** Well-formed sets and membership *)

Definition wf (b : bitset) : Prop := Forall (in_u 64) b.

(** The number of positions a set of these words has. *)
Definition cap (b : bitset) : Z := 64 * Z.of_nat (length b).

(** The abstract set of positions. *)
Definition mem (b : bitset) (pos : Z) : bool :=
  match go_index b (pos / 64) with
  | Some w => Z.testbit w (pos mod 64)
  | None => false
  end.

(** ** Lemmas on one word *)

Lemma mask_minor m : 0 ≤ m < 64 → wrap_u 64 (Z.shiftl 1 m) = 2 ^ m.
Proof.
  intros. rewrite Z.shiftl_1_l. apply wrap_u_id. split; [apply Z.pow_nonneg; lia|].
  apply Z.pow_lt_mono_r; lia.
Qed.

Lemma land_pow2_testbit w m : 0 ≤ m → negb (Z.land w (2 ^ m) =? 0) = Z.testbit w m.
Proof.
  intros Hm. destruct (Z.testbit w m) eqn:E.
  - apply negb_true_iff, Z.eqb_neq. intros H0.
    assert (Ht : Z.testbit (Z.land w (2 ^ m)) m = false) by (rewrite H0; apply Z.bits_0).
    rewrite Z.land_spec, E, Z.pow2_bits_true in Ht by lia. done.
  - apply negb_false_iff, Z.eqb_eq. apply Z.bits_inj'. intros i Hi.
    rewrite Z.land_spec, Z.bits_0, Z.pow2_bits_eqb by lia.
    destruct (Z.eqb_spec m i) as [->|]; [by rewrite E | apply andb_false_r].
Qed.

Lemma in_u_bits w v : 0 ≤ w → 0 ≤ v → in_u w v ↔ ∀ i, w ≤ i → Z.testbit v i = false.
Proof.
  intros Hw Hv. split.
  - intros [_ Hlt] i Hi. destruct (Z.eq_dec v 0) as [->|]; [apply Z.bits_0|].
    apply Z.bits_above_log2; [done|]. apply Z.log2_lt_pow2; [lia|].
    eapply Z.lt_le_trans; [done|]. apply Z.pow_le_mono_r; lia.
  - intros Hb. split; [done|].
    assert (v mod 2 ^ w = v) as <-.
    { apply Z.bits_inj'. intros i Hi.
      destruct (Z.lt_ge_cases i w).
      - by rewrite Z.mod_pow2_bits_low by lia.
      - rewrite Z.mod_pow2_bits_high by lia. by rewrite Hb. }
    apply Z.mod_pos_bound. apply Z.pow_pos_nonneg; lia.
Qed.

Lemma lor_in_u w a b : 0 ≤ w → in_u w a → in_u w b → in_u w (Z.lor a b).
Proof.
  intros Hw Ha Hb. assert (0 ≤ a ∧ 0 ≤ b) as [? ?] by (destruct Ha, Hb; lia).
  apply in_u_bits; [done | by apply Z.lor_nonneg |]. intros i Hi.
  rewrite in_u_bits in Ha, Hb by lia. by rewrite Z.lor_spec, Ha, Hb.
Qed.

Lemma ldiff_in_u w a b : 0 ≤ w → 0 ≤ b → in_u w a → in_u w (Z.ldiff a b).
Proof.
  intros Hw ? Ha. assert (0 ≤ a) by (destruct Ha; lia).
  apply in_u_bits; [done | apply Z.ldiff_nonneg; lia |]. intros i Hi.
  rewrite Z.ldiff_spec. rewrite in_u_bits in Ha by lia. by rewrite Ha.
Qed.

(** ** Positions *)

Lemma split_range b pos :
  0 ≤ pos < cap b → 0 ≤ pos / 64 < Z.of_nat (length b) ∧ 0 ≤ pos mod 64 < 64.
Proof.
  unfold cap. intros. split; [|apply Z.mod_pos_bound; lia].
  split; [apply Z.div_pos; lia | apply Z.div_lt_upper_bound; lia].
Qed.

Lemma word_at b pos : 0 ≤ pos < cap b → ∃ w, go_index b (pos / 64) = Some w.
Proof. intros H. apply split_range in H as [H _]. by apply go_index_bound in H. Qed.

Lemma get_mem b pos : 0 ≤ pos < cap b → get b pos = Some (mem b pos).
Proof.
  intros H. destruct (word_at b pos H) as [w Hw]. apply split_range in H as [_ Hm].
  unfold get, mem, bitsetIndex. rewrite Hw. cbn [mbind option_bind].
  by rewrite mask_minor, land_pow2_testbit by lia.
Qed.

Lemma get_panics b pos : cap b ≤ pos → get b pos = None.
Proof.
  unfold cap. intros H. unfold get, bitsetIndex.
  destruct (go_index b (pos / 64)) eqn:E; [|done].
  assert (is_Some (go_index b (pos / 64))) as Hs by eauto. apply go_index_bound in Hs.
  assert (64 * Z.of_nat (length b) / 64 ≤ pos / 64) by (apply Z.div_le_mono; lia).
  rewrite Z.mul_comm, Z.div_mul in *; lia.
Qed.

(** What [set] and [clear] share: one word is replaced by [f] of itself. *)
Section write_word.
Context (f : Z → Z → Z) (bit : bool).
Context (Hf_in : ∀ w m, in_u 64 w → 0 ≤ m < 64 → in_u 64 (f w (2 ^ m))).
Context (Hf_bit : ∀ w m i, in_u 64 w → 0 ≤ m < 64 → 0 ≤ i →
           Z.testbit (f w (2 ^ m)) i = if bool_decide (i = m) then bit else Z.testbit w i).

Lemma write_word b pos :
  wf b → 0 ≤ pos < cap b →
  ∃ b', (w ← go_index b (pos / 64);
         go_update b (pos / 64) (f w (wrap_u 64 (Z.shiftl 1 (pos mod 64))))) = Some b' ∧
        wf b' ∧ length b' = length b ∧
        ∀ q, 0 ≤ q → mem b' q = if bool_decide (q = pos) then bit else mem b q.
Proof using Type*.
  intros Hwf Hpos. destruct (word_at b pos Hpos) as [w Hw].
  apply split_range in Hpos as [Hd Hm]. rewrite Hw. cbn [mbind option_bind].
  rewrite mask_minor by done.
  pose proof Hw as [_ Hl]%go_index_Some.
  eexists. split; [by apply go_update_Some|]. split_and!.
  - apply Forall_insert; [done|]. apply Hf_in; [|done]. eapply Forall_lookup_1; eauto.
  - apply length_insert.
  - intros q Hq. unfold mem. unfold go_index in *.
    rewrite (proj2 (Z.leb_le 0 (q / 64))) by (apply Z.div_pos; lia).
    assert (0 ≤ q / 64) by (apply Z.div_pos; lia).
    assert (Hqm : 0 ≤ q mod 64 < 64) by (apply Z.mod_pos_bound; lia).
    pose proof (Z.div_mod q 64). pose proof (Z.div_mod pos 64).
    destruct (decide (q / 64 = pos / 64)) as [E|E].
    + rewrite E, list_lookup_insert_eq by lia. rewrite Hl, Hf_bit; [|by eapply Forall_lookup_1|lia..].
      do 2 case_bool_decide; try done; exfalso; lia.
    + rewrite list_lookup_insert_ne by lia. rewrite bool_decide_eq_false_2; [done|].
      intros ->. done.
Qed.
End write_word.

Lemma set_bit w m i :
  in_u 64 w → 0 ≤ m < 64 → 0 ≤ i →
  Z.testbit (Z.lor w (2 ^ m)) i = if bool_decide (i = m) then true else Z.testbit w i.
Proof.
  intros. rewrite Z.lor_spec, Z.pow2_bits_eqb by lia.
  case_bool_decide as E; [subst; by rewrite Z.eqb_refl, orb_true_r|].
  z_tests. apply orb_false_r.
Qed.

Lemma clear_bit w m i :
  in_u 64 w → 0 ≤ m < 64 → 0 ≤ i →
  Z.testbit (Z.ldiff w (2 ^ m)) i = if bool_decide (i = m) then false else Z.testbit w i.
Proof.
  intros. rewrite Z.ldiff_spec, Z.pow2_bits_eqb by lia.
  case_bool_decide as E; [subst; by rewrite Z.eqb_refl, andb_false_r|].
  z_tests. apply andb_true_r.
Qed.

Lemma pow2_in_u m : 0 ≤ m < 64 → in_u 64 (2 ^ m).
Proof. intros. split; [apply Z.pow_nonneg; lia | apply Z.pow_lt_mono_r; lia]. Qed.

Lemma set_ok b pos :
  wf b → 0 ≤ pos < cap b →
  ∃ b', set b pos = Some b' ∧ wf b' ∧ length b' = length b ∧
        ∀ q, 0 ≤ q → mem b' q = if bool_decide (q = pos) then true else mem b q.
Proof.
  apply (write_word Z.lor true).
  - intros. apply lor_in_u; [lia|done|by apply pow2_in_u].
  - intros. by apply set_bit.
Qed.

Lemma clear_ok b pos :
  wf b → 0 ≤ pos < cap b →
  ∃ b', clear b pos = Some b' ∧ wf b' ∧ length b' = length b ∧
        ∀ q, 0 ≤ q → mem b' q = if bool_decide (q = pos) then false else mem b q.
Proof.
  apply (write_word Z.ldiff false).
  - intros. apply ldiff_in_u; [lia| |done]. apply Z.pow_nonneg. lia.
  - intros. by apply clear_bit.
Qed.

Lemma clone_eq b : clone b = b.
Proof. unfold clone. rewrite drop_ge by (by rewrite length_replicate). apply app_nil_r. Qed.

Lemma newBitset_wf n : wf (newBitset n).
Proof.
  apply Forall_replicate. split; [lia|]. by apply Z.pow_pos_nonneg.
Qed.

Lemma newBitset_cap n : 0 ≤ n → n ≤ cap (newBitset n).
Proof.
  intros. unfold cap, newBitset. rewrite length_replicate.
  assert (0 ≤ n / 64) by (apply Z.div_pos; lia).
  pose proof (Z.div_mod n 64). pose proof (Z.mod_pos_bound n 64).
  destruct (Z.eqb_spec (n mod 64) 0); simpl; lia.
Qed.

Lemma newBitset_mem n q : mem (newBitset n) q = false.
Proof.
  unfold mem. destruct (go_index (newBitset n) (q / 64)) as [w|] eqn:E; [|done].
  apply go_index_Some in E as [_ E]. apply lookup_replicate in E as [-> _]. apply Z.bits_0.
Qed.

(** ** Equality *)

Lemma equals_eq b b2 : equals b b2 = true ↔ b = b2.
Proof.
  unfold equals. destruct (Nat.eqb_spec (length b) (length b2)) as [E|E]; simpl;
    [|split; [done|intros ->; done]].
  revert b2 E. induction b as [|w b IH]; intros [|w2 b2] E; simpl in *; try done.
  destruct (Z.eqb_spec w w2) as [->|]; simpl.
  - rewrite IH by lia. split; [by intros ->|by intros [=]].
  - split; [done|by intros [=]].
Qed.

(** Two well-formed sets of the same length with the same members are the same words. *)
Lemma mem_ext b b2 :
  wf b → wf b2 → length b = length b2 →
  (∀ q, 0 ≤ q < cap b → mem b q = mem b2 q) → b = b2.
Proof.
  intros Hb Hb2 Hlen Hm. apply list_eq_same_length with (length b); [done|done|].
  intros i x y Hi Hx Hy. 
  pose proof (Forall_lookup_1 _ _ _ _ Hb Hx) as Hwx. pose proof (Forall_lookup_1 _ _ _ _ Hb2 Hy) as Hwy.
  apply Z.bits_inj'. intros j Hj. destruct (Z.lt_ge_cases j 64).
  - specialize (Hm (64 * Z.of_nat i + j)). unfold mem in Hm.
    assert ((64 * Z.of_nat i + j) / 64 = Z.of_nat i) as Hd
      by (rewrite Z.mul_comm, Z.div_add_l, Z.div_small; lia).
    assert ((64 * Z.of_nat i + j) mod 64 = j) as Hr
      by (rewrite Z.add_comm, Z.mul_comm, Z.mod_add, Z.mod_small; lia).
    rewrite Hd, Hr, !go_index_nat, Hx, Hy in Hm. apply Hm. unfold cap. lia.
  - by rewrite (proj1 (in_u_bits 64 x ltac:(lia) (proj1 Hwx)) Hwx),
      (proj1 (in_u_bits 64 y ltac:(lia) (proj1 Hwy)) Hwy).
Qed.

(** ** The number of members *)

(** The members among the first [n] positions. *)
Definition members (b : bitset) (n : nat) : list nat := filter (λ q, mem b (Z.of_nat q) = true) (seq 0 n).

Lemma OnesCount64_count w :
  OnesCount64 w = Z.of_nat (length (filter (λ i, Z.testbit w (Z.of_nat i) = true) (seq 0 64))).
Proof.
  unfold OnesCount64. induction (seq 0 64) as [|i l IH]; [done|].
  cbn [foldr]. rewrite IH, filter_cons. destruct (Z.testbit w (Z.of_nat i)); simpl; lia.
Qed.

Lemma OnesCount64_bound w : 0 ≤ OnesCount64 w ≤ 64.
Proof.
  rewrite OnesCount64_count. pose proof (length_filter (λ i, Z.testbit w (Z.of_nat i) = true) (seq 0 64)) as H.
  rewrite length_seq in H. lia.
Qed.

Lemma mem_app_l b w q : 0 ≤ q < cap b → mem (b ++ [w]) q = mem b q.
Proof.
  intros Hq. unfold mem. destruct (word_at b q Hq) as [v Hv]. rewrite Hv.
  apply go_index_Some in Hv as [H0 Hv].
  assert (E : go_index (b ++ [w]) (q / 64) = Some v) by (apply go_index_Some; split; [done|by apply lookup_app_l_Some]).
  by rewrite E.
Qed.

Lemma mem_app_r b w i : 0 ≤ i < 64 → mem (b ++ [w]) (cap b + i) = Z.testbit w i.
Proof.
  intros Hi. unfold mem, cap.
  replace ((64 * Z.of_nat (length b) + i) / 64) with (Z.of_nat (length b))
    by (rewrite Z.mul_comm, Z.div_add_l, Z.div_small; lia).
  replace ((64 * Z.of_nat (length b) + i) mod 64) with i
    by (rewrite Z.add_comm, Z.mul_comm, Z.mod_add, Z.mod_small; lia).
  by rewrite go_index_nat, list_lookup_middle.
Qed.

Lemma members_app b w :
  Z.of_nat (length (members (b ++ [w]) (64 * S (length b)))) =
  Z.of_nat (length (members b (64 * length b))) + OnesCount64 w.
Proof.
  unfold members. replace (64 * S (length b))%nat with (64 * length b + 64)%nat by lia.
  rewrite seq_app, filter_app, length_app, OnesCount64_count, Nat2Z.inj_add. f_equal.
  - do 2 f_equal. apply filter_ext_elem. intros q Hq%elem_of_seq.
    rewrite mem_app_l; [done|]. unfold cap. lia.
  - rewrite <- (Nat.add_0_r (0 + 64 * length b)), <- fmap_add_seq, filter_map, length_fmap.
    do 2 f_equal. apply filter_ext_elem. intros i Hi%elem_of_seq.
    rewrite <- (mem_app_r b w) by lia.
    by replace (cap b + Z.of_nat i) with (Z.of_nat (0 + 64 * length b + i)) by (unfold cap; lia).
Qed.

Lemma popcnt_loop b :
  cap b < 2 ^ 63 →
  foldl (λ total v, wrap_s 64 (total + OnesCount64 v)) 0 b = Z.of_nat (length (members b (64 * length b))) ∧
  Z.of_nat (length (members b (64 * length b))) ≤ cap b.
Proof.
  unfold cap. induction b as [|w b IH] using rev_ind; [done|]. intros Hb.
  rewrite length_app in Hb |- *. cbn [length] in Hb. replace (length b + length [w])%nat with (S (length b)) by (simpl; lia).
  rewrite foldl_app, members_app. cbn [foldl]. destruct IH as [-> Hle]; [lia|].
  pose proof (OnesCount64_bound w). set (k := Z.of_nat (length (members _ _))) in *.
  split; [|lia]. apply wrap_s_id; [lia|]. unfold in_s. change (64 - 1) with 63. lia.
Qed.

(** ** The properties *)

(** A new set of [n] bits is empty and has room for positions 0 to n - 1,
    and below the capacity [set], [clear] and [get] do not panic and
    are insertion, removal and membership; [get] beyond the capacity panics. *)
Theorem bitset_operations (b : bitset) (n pos q : Z) :
  wf b → 0 ≤ n → 0 ≤ pos < cap b → 0 ≤ q < cap b →
  (∀ i, 0 ≤ i < n → get (newBitset n) i = Some false) ∧
  (∃ b', set b pos = Some b' ∧ wf b' ∧ cap b' = cap b ∧
         get b' q = if bool_decide (q = pos) then Some true else get b q) ∧
  (∃ b', clear b pos = Some b' ∧ wf b' ∧ cap b' = cap b ∧
         get b' q = if bool_decide (q = pos) then Some false else get b q) ∧
  (∀ i, cap b ≤ i → get b i = None).
Proof.
  intros Hwf Hn Hpos Hq. split_and!.
  - intros i Hi. pose proof (newBitset_cap n Hn). by rewrite get_mem, newBitset_mem by lia.
  - destruct (set_ok b pos Hwf Hpos) as (b' & Hs & Hw & Hl & Hm). exists b'.
    assert (Hc : cap b' = cap b) by (unfold cap; by rewrite Hl). split_and!; [done..|].
    rewrite !get_mem by (by rewrite ?Hc). rewrite Hm by lia. by case_bool_decide.
  - destruct (clear_ok b pos Hwf Hpos) as (b' & Hs & Hw & Hl & Hm). exists b'.
    assert (Hc : cap b' = cap b) by (unfold cap; by rewrite Hl). split_and!; [done..|].
    rewrite !get_mem by (by rewrite ?Hc). rewrite Hm by lia. by case_bool_decide.
  - intros i. apply get_panics.
Qed.

(** [equals] compares the members of two sets of the same length, sets
    with the same members have the same [hash], and [popcnt] counts the
    members. *)
Theorem bitset_equality (b b2 : bitset) :
  wf b → wf b2 → length b = length b2 → cap b < 2 ^ 63 →
  (equals b b2 = true ↔ ∀ q, 0 ≤ q < cap b → get b q = get b2 q) ∧
  (equals b b2 = true → hash b = hash b2) ∧
  popcnt b = Z.of_nat (length (members b (64 * length b))).
Proof.
  intros Hb Hb2 Hlen Hc. split_and!.
  - rewrite equals_eq. split; [by intros ->|]. intros Hm. apply mem_ext; [done..|].
    intros q Hq. specialize (Hm q Hq). rewrite !get_mem in Hm by (unfold cap in *; rewrite <- ?Hlen; done).
    by injection Hm.
  - by intros ->%equals_eq.
  - unfold popcnt. destruct (popcnt_loop b Hc) as [-> Hle]. apply wrap_u_id. split; [lia|].
    etrans; [|apply Z.pow_lt_mono_r with (b := 63)]; lia.
Qed.

Lemma bitset_operations_witness :
  get (newBitset 70) 69 = Some false ∧
  ∃ b', set (newBitset 70) 65 = Some b' ∧ get b' 65 = Some true ∧ get (newBitset 70) 128 = None.
Proof.
  destruct (bitset_operations (newBitset 70) 70 65 65) as (H1 & (b' & H2 & _ & _ & H3) & _ & H4).
  - apply newBitset_wf.
  - lia.
  - vm_compute. split; congruence.
  - vm_compute. split; congruence.
  - split; [apply H1; lia|]. exists b'. split_and!; [done|by rewrite H3|by apply H4].
Defined.

Lemma bitset_equality_witness :
  popcnt [5; 1] = 3 ∧ equals [5; 1] [5; 3] = false.
Proof.
  destruct (bitset_equality [5; 1] [5; 3]) as (H1 & _ & H3).
  - repeat constructor; by vm_compute.
  - repeat constructor; by vm_compute.
  - done.
  - vm_compute. done.
  - split; [by rewrite H3|]. apply not_true_is_false. intros H. rewrite H1 in H.
    specialize (H 65). revert H. vm_compute. intros H. by discriminate H.
Defined.
End Bitset.
