(* ===== verification/Porcupine.v ===== *)
(** * Histories of the linearizability checker

    [src/6.5840/src/porcupine/model.go] and the first part of [checker.go]: operations,
    events, the model of a sequential object, and how a history becomes the
    list of entries the checker works on. A value of Go's type [interface{}]
    is an element of the type parameter [V], a state of the modelled object an
    element of [St]; [None] is a panic. *)
From S2P Require Import Prelude.
Local Open Scope Z_scope.

Module Porcupine.

(** ** model.go *)

Record Operation (V : Type) := MkOperation {
  op_ClientId : Z;
  op_Input : V;
  op_Call : Z;
  op_Output : V;
  op_Return : Z;
}.
Arguments MkOperation {_} _ _ _ _ _.
Arguments op_ClientId {_} _.
Arguments op_Input {_} _.
Arguments op_Call {_} _.
Arguments op_Output {_} _.
Arguments op_Return {_} _.

Definition EventKind : Type := bool.
Definition CallEvent : EventKind := false.
Definition ReturnEvent : EventKind := true.

Record Event (V : Type) := MkEvent {
  ev_ClientId : Z;
  ev_Kind : EventKind;
  ev_Value : V;
  ev_Id : Z;
}.
Arguments MkEvent {_} _ _ _ _.
Arguments ev_ClientId {_} _.
Arguments ev_Kind {_} _.
Arguments ev_Value {_} _.
Arguments ev_Id {_} _.

(** A function field that is nil is [None]. *)
Record Model (V St : Type) := MkModel {
  Partition : option (list (Operation V) → option (list (list (Operation V))));
  PartitionEvent : option (list (Event V) → option (list (list (Event V))));
  Init : St;
  Step : St → V → V → option (bool * St);
  Equal : option (St → St → bool);
  DescribeOperation : option (V → V → option string);
  DescribeState : option (St → option string);
}.
Arguments MkModel {_ _} _ _ _ _ _ _ _.
Arguments Partition {_ _} _.
Arguments PartitionEvent {_ _} _.
Arguments Init {_ _} _.
Arguments Step {_ _} _ _ _ _.
Arguments Equal {_ _} _.
Arguments DescribeOperation {_ _} _.
Arguments DescribeState {_ _} _.

Definition NoPartition {V} (history : list (Operation V)) : list (list (Operation V)) := [history].

Definition NoPartitionEvent {V} (history : list (Event V)) : list (list (Event V)) := [history].

Definition ShallowEqual {St} `{EqDecision St} (state1 state2 : St) : bool :=
  bool_decide (state1 = state2).

Inductive CheckResult := Unknown | Ok | Illegal.

#[global] Instance CheckResult_eq_dec : EqDecision CheckResult.
Proof. solve_decision. Defined.

(** ** Entries *)

Definition entryKind : Type := bool.
Definition callEntry : entryKind := false.
Definition returnEntry : entryKind := true.

Record entry (V : Type) := Entry {
  kind : entryKind;
  value : V;
  id : Z;
  time : Z;
  clientId : Z;
}.
Arguments Entry {_} _ _ _ _ _.
Arguments kind {_} _.
Arguments value {_} _.
Arguments id {_} _.
Arguments time {_} _.
Arguments clientId {_} _.

Section entries.
Context {V : Type}.
Implicit Types (es : list (entry V)) (a b : entry V).

(** [byTime.Less]. *)
Definition Less a b : bool :=
  if negb (time a =? time b) then time a <? time b
  else Bool.eqb (kind a) callEntry && Bool.eqb (kind b) returnEntry.

(** The loop of [makeEntries]. *)
Fixpoint makeEntries_loop (history : list (Operation V)) (i : Z) (entries : list (entry V)) : list (entry V) :=
  match history with
  | [] => entries
  | elem :: rest =>
      let entries := entries ++ [Entry callEntry (op_Input elem) i (op_Call elem) (op_ClientId elem)] in
      let entries := entries ++ [Entry returnEntry (op_Output elem) i (op_Return elem) (op_ClientId elem)] in
      makeEntries_loop rest (i + 1) entries
  end.

Definition makeEntries `{!GoSort Less} (history : list (Operation V)) : list (entry V) :=
  let entries := makeEntries_loop history 0 [] in
  gosort Less entries.

(** The loop of [renumber]: [e] the events renumbered so far, [m] the new
    number of each old one, [i] the next number. *)
Fixpoint renumber_loop (events : list (Event V)) (e : list (Event V)) (m : gmap Z Z) (i : Z) : list (Event V) :=
  match events with
  | [] => e
  | v :: rest =>
      match m !! ev_Id v with
      | Some r => renumber_loop rest (e ++ [MkEvent (ev_ClientId v) (ev_Kind v) (ev_Value v) r]) m i
      | None =>
          renumber_loop rest (e ++ [MkEvent (ev_ClientId v) (ev_Kind v) (ev_Value v) i])
            (<[ev_Id v := i]> m) (i + 1)
      end
  end.

Definition renumber (events : list (Event V)) : list (Event V) := renumber_loop events [] ∅ 0.

Definition convertEntries (events : list (Event V)) : list (entry V) :=
  imap (λ i elem,
    let kind := if Bool.eqb (ev_Kind elem) ReturnEvent then returnEntry else callEntry in
    (* use index as "time" *)
    Entry kind (ev_Value elem) (ev_Id elem) (wrap_s 64 (Z.of_nat i)) (ev_ClientId elem)) events.

(** ** [Less] is a strict weak order, so a sorting function exists *)

#[global] Instance Less_StrictWeak : StrictWeak Less.
Proof.
  assert (K : ∀ k, Bool.eqb k callEntry = negb k) by by intros [].
  assert (K' : ∀ k, Bool.eqb k returnEntry = k) by by intros [].
  split; unfold Less; intros *; rewrite ?K, ?K'.
  - destruct (Z.eqb_spec (time a) (time b)), (Z.eqb_spec (time b) (time a)),
      (Z.ltb_spec (time a) (time b)), (Z.ltb_spec (time b) (time a));
      simpl; try lia; destruct (kind a), (kind b); done.
  - destruct (Z.eqb_spec (time b) (time a)), (Z.eqb_spec (time c) (time b)), (Z.eqb_spec (time c) (time a)),
      (Z.ltb_spec (time b) (time a)), (Z.ltb_spec (time c) (time b)), (Z.ltb_spec (time c) (time a));
      simpl; try lia; try done; destruct (kind a), (kind b), (kind c); done.
Qed.
End entries.
End Porcupine.
