(* ===== verification/LinkedList.v ===== *)
(** * The doubly linked entry list of the checker

    [src/6.5840/src/porcupine/checker.go], [node] to [unlift]: the entries of a history
    as heap nodes linked in both directions, where [lift] unlinks a call and
    its return and [unlift] links them back. The heap is the list of the
    nodes allocated so far, a pointer an index into it or nil ([None]); a nil
    or dangling dereference panics. *)
From S2P Require Import Prelude Porcupine.
Import Porcupine.

Module LinkedList.

Abbreviation loc := nat.
Abbreviation ptr := (option nat).

Record node (V : Type) := Node {
  n_value : V;
  n_match : ptr; (* call if match is nil, otherwise return *)
  n_id : Z;
  n_next : ptr;
  n_prev : ptr;
}.
Arguments Node {_} _ _ _ _ _.
Arguments n_value {_} _.
Arguments n_match {_} _.
Arguments n_id {_} _.
Arguments n_next {_} _.
Arguments n_prev {_} _.

Abbreviation heap V := (list (node V)).

(** A computation on the heap that can panic. *)
Definition M (V A : Type) : Type := heap V → option (A * heap V).

#[global] Instance M_ret V : MRet (M V) := λ A x h, Some (x, h).
#[global] Instance M_bind V : MBind (M V) := λ A B k m h,
  match m h with Some (x, h') => k x h' | None => None end.

Section ops.
Context {V : Type}.

Definition load (p : ptr) : M V (node V) := λ h,
  l ← p; nd ← h !! l; Some (nd, h).

Definition set_next (p v : ptr) : M V unit := λ h,
  l ← p; nd ← h !! l;
  Some (tt, <[l := Node (n_value nd) (n_match nd) (n_id nd) v (n_prev nd)]> h).

Definition set_prev (p v : ptr) : M V unit := λ h,
  l ← p; nd ← h !! l;
  Some (tt, <[l := Node (n_value nd) (n_match nd) (n_id nd) (n_next nd) v]> h).

Definition alloc (nd : node V) : M V ptr := λ h, Some (Some (length h), h ++ [nd]).

(** ** checker.go *)

Definition insertBefore (n mark : ptr) : M V ptr :=
  match mark with
  | Some _ =>
      m ← load mark;
      let beforeMark := n_prev m in
      _ ← set_prev mark n;
      _ ← set_next n mark;
      match beforeMark with
      | Some _ =>
          _ ← set_prev n beforeMark;
          _ ← set_next beforeMark n;
          mret n
      | None => mret n
      end
  | None => mret n
  end.

(** The loop of [length], which follows [next] to nil; [fuel] bounds the steps. *)
Fixpoint list_length (fuel : nat) (h : heap V) (n : ptr) (l : Z) : option Z :=
  match n with
  | None => Some l
  | Some _ =>
      match fuel with
      | O => None
      | S fuel => '(nd, _) ← load n h; list_length fuel h (n_next nd) (l + 1)%Z
      end
  end.

(** The loop of [makeLinkedEntries], from the last entry to the first. *)
Fixpoint makeLinkedEntries_loop (rentries : list (entry V)) (root : ptr) (match_ : gmap Z ptr) : M V ptr :=
  match rentries with
  | [] => mret root
  | elem :: rest =>
      if Bool.eqb (kind elem) returnEntry then
        entry ← alloc (Node (value elem) None (id elem) None None);
        let match_ := <[id elem := entry]> match_ in
        _ ← insertBefore entry root;
        makeLinkedEntries_loop rest entry match_
      else
        entry ← alloc (Node (value elem) (default None (match_ !! id elem)) (id elem) None None);
        _ ← insertBefore entry root;
        makeLinkedEntries_loop rest entry match_
  end.

Definition makeLinkedEntries (entries : list (entry V)) : M V ptr :=
  makeLinkedEntries_loop (rev entries) None ∅.

Definition lift (entry : ptr) : M V unit :=
  e ← load entry;
  _ ← set_next (n_prev e) (n_next e);
  e ← load entry;
  _ ← set_prev (n_next e) (n_prev e);
  e ← load entry;
  let match_ := n_match e in
  m ← load match_;
  _ ← set_next (n_prev m) (n_next m);
  m ← load match_;
  match n_next m with
  | Some _ => set_prev (n_next m) (n_prev m)
  | None => mret tt
  end.

Definition unlift (entry : ptr) : M V unit :=
  e ← load entry;
  let match_ := n_match e in
  m ← load match_;
  _ ← set_next (n_prev m) match_;
  m ← load match_;
  _ ← match n_next m with
      | Some _ => set_prev (n_next m) match_
      | None => mret tt
      end;
  e ← load entry;
  _ ← set_next (n_prev e) entry;
  e ← load entry;
  set_prev (n_next e) entry.


Implicit Types (h : heap V) (p q : ptr) (x : loc).

(** ** Links of a heap

    [dseg h p l q]: the nodes of [l] are linked in that order in both
    directions, the first one's [prev] is [p] and the last one's [next] is [q]. *)
Fixpoint dseg (h : heap V) (p : ptr) (l : list loc) (q : ptr) : Prop :=
  match l with
  | [] => True
  | x :: l' =>
      ∃ nd, h !! x = Some nd ∧ n_prev nd = p ∧
            n_next nd = match l' with [] => q | y :: _ => Some y end ∧
            dseg h (Some x) l' q
  end.

(** A whole list: from [prev] nil to [next] nil, without sharing. *)
Definition dll (h : heap V) (l : list loc) : Prop := NoDup l ∧ dseg h None l None.

(** What the list operations never write: value, match and id of each node. *)
Definition contents (h : heap V) : list (V * ptr * Z) :=
  (λ nd, (n_value nd, n_match nd, n_id nd)) <$> h.

Definition upd_next (v : ptr) (nd : node V) : node V :=
  Node (n_value nd) (n_match nd) (n_id nd) v (n_prev nd).
Definition upd_prev (v : ptr) (nd : node V) : node V :=
  Node (n_value nd) (n_match nd) (n_id nd) (n_next nd) v.

Definition upd_opt (f : node V → node V) (p : ptr) (h : heap V) : heap V :=
  match p with Some x => alter f x h | None => h end.

(** [unlink x]: what one half of [lift] does to the heap, given [x]'s links. *)
Definition unlink (p q : ptr) (h : heap V) : heap V :=
  upd_opt (upd_prev p) q (upd_opt (upd_next q) p h).

Definition relink (x : loc) (p q : ptr) (h : heap V) : heap V :=
  upd_opt (upd_prev (Some x)) q (upd_opt (upd_next (Some x)) p h).

Lemma set_next_alter x v h nd :
  h !! x = Some nd → set_next (Some x) v h = Some (tt, alter (upd_next v) x h).
Proof.
  intros Hx. unfold set_next. cbn [mbind option_bind]. rewrite Hx. cbn [mbind option_bind].
  do 2 f_equal. apply list_eq. intros i. destruct (decide (x = i)) as [<-|].
  - rewrite list_lookup_insert_eq, list_lookup_alter_eq, Hx by by eapply lookup_lt_Some. done.
  - by rewrite list_lookup_insert_ne, list_lookup_alter_ne by done.
Qed.

Lemma set_prev_alter x v h nd :
  h !! x = Some nd → set_prev (Some x) v h = Some (tt, alter (upd_prev v) x h).
Proof.
  intros Hx. unfold set_prev. cbn [mbind option_bind]. rewrite Hx. cbn [mbind option_bind].
  do 2 f_equal. apply list_eq. intros i. destruct (decide (x = i)) as [<-|].
  - rewrite list_lookup_insert_eq, list_lookup_alter_eq, Hx by by eapply lookup_lt_Some. done.
  - by rewrite list_lookup_insert_ne, list_lookup_alter_ne by done.
Qed.

Lemma lookup_alter_node (f : node V → node V) i j h :
  alter f i h !! j = if decide (i = j) then f <$> h !! j else h !! j.
Proof.
  case_decide; subst; [apply list_lookup_alter_eq | by apply list_lookup_alter_ne].
Qed.

Lemma contents_alter (f : node V → node V) i h :
  (∀ nd, (n_value (f nd), n_match (f nd), n_id (f nd)) = (n_value nd, n_match nd, n_id nd)) →
  contents (alter f i h) = contents h.
Proof.
  intros Hf. apply list_eq. intros j. unfold contents.
  rewrite !list_lookup_fmap, lookup_alter_node. case_decide; [|done].
  destruct (h !! j); simpl; [|done]. by rewrite Hf.
Qed.

Lemma contents_lookup h h' x nd :
  contents h = contents h' → h !! x = Some nd →
  ∃ nd', h' !! x = Some nd' ∧ n_value nd' = n_value nd ∧ n_match nd' = n_match nd ∧ n_id nd' = n_id nd.
Proof.
  intros E Hx. assert (H : contents h !! x = contents h' !! x) by by rewrite E.
  unfold contents in H. rewrite !list_lookup_fmap, Hx in H. simpl in H.
  destruct (h' !! x) as [nd'|]; simpl in H; [|done]. injection H as ???. eauto.
Qed.

(** *** Segments *)

Lemma dseg_app h p l1 l2 q :
  dseg h p (l1 ++ l2) q ↔
  dseg h p l1 (match l2 with [] => q | y :: _ => Some y end) ∧
  dseg h (match last l1 with Some x => Some x | None => p end) l2 q.
Proof.
  revert p. induction l1 as [|x l1 IH]; intros p; [simpl; tauto|].
  cbn [app dseg]. setoid_rewrite IH.
  assert (Hl : last (x :: l1) = match last l1 with Some y => Some y | None => Some x end)
    by (destruct l1; [done|]; by destruct (last (n :: l1)) eqn:E; [|apply last_None in E]).
  rewrite Hl.
  assert (E : (match l1 ++ l2 with [] => q | y :: _ => Some y end) =
              (match l1 with [] => match l2 with [] => q | y :: _ => Some y end | y :: _ => Some y end))
    by (by destruct l1). rewrite E.
  destruct (last l1); naive_solver.
Qed.

Lemma dseg_alter f i h p l q :
  i ∉ l → dseg h p l q → dseg (alter f i h) p l q.
Proof.
  revert p. induction l as [|x l IH]; intros p; [done|]. simpl.
  intros Hi (nd & Hx & ? & ? & ?). apply not_elem_of_cons in Hi as [??].
  exists nd. split_and!; try done; [|by apply IH]. by rewrite list_lookup_alter_ne by done.
Qed.

Lemma dseg_In h p l q x : dseg h p l q → x ∈ l → is_Some (h !! x).
Proof.
  revert p. induction l as [|y l IH]; intros p; [by intros _ ?%elem_of_nil|].
  simpl. intros (nd & Hx & _ & _ & Hl) [->|]%elem_of_cons; eauto.
Qed.
Lemma lookup_unlink_ne p q h x :
  Some x ≠ p → Some x ≠ q → unlink p q h !! x = h !! x.
Proof.
  intros. unfold unlink. destruct p, q; simpl; rewrite ?list_lookup_alter_ne by congruence; done.
Qed.

Lemma contents_unlink p q h : contents (unlink p q h) = contents h.
Proof.
  unfold unlink. destruct p, q; simpl; rewrite ?contents_alter by done; done.
Qed.

(** A node in the middle of a list: its links, what unlinking it leaves, and
    that linking it back restores the heap exactly. *)
Lemma dll_unlink h l1 (p : loc) x l2 :
  dll h (l1 ++ p :: x :: l2) →
  (∃ nd, h !! x = Some nd ∧ n_prev nd = Some p ∧ n_next nd = head l2) ∧
  dll (unlink (Some p) (head l2) h) (l1 ++ p :: l2) ∧
  relink x (Some p) (head l2) (unlink (Some p) (head l2) h) = h.
Proof.
  intros [Hnd (H1 & nd_p & Hp & Hpp & Hpn & nd_x & Hx & Hxp & Hxn & H2)%dseg_app].
  assert (x ≠ p ∧ p ∉ l1 ∧ p ∉ l2 ∧ x ∉ l1 ∧ x ∉ l2 ∧ NoDup (l1 ++ p :: l2)) as (? & ? & ? & ? & ? & ?).
  { rewrite NoDup_app, !NoDup_cons in *. set_solver. }
  split; [exists nd_x; by destruct l2|].
  unfold unlink, relink, dll. rewrite dseg_app. simpl.
  destruct l2 as [|q l2]; simpl in *.
  - split; [split; [done|]; split; [by apply dseg_alter|]|].
    + eexists. rewrite list_lookup_alter_eq, Hp. done.
    + apply list_eq. intros i. rewrite !lookup_alter_node.
      case_decide as E; [|done]. rewrite <- E, Hp. simpl. by destruct nd_p; simpl in *; subst.
  - destruct H2 as (nd_q & Hq & Hqp & Hqn & H2).
    assert (p ≠ q ∧ q ∉ l1 ∧ q ∉ l2 ∧ x ≠ q) as (? & ? & ? & ?).
    { rewrite NoDup_app, !NoDup_cons in *. set_solver. }
    split; [split; [done|]; split; [by apply dseg_alter; [|apply dseg_alter]|]|].
    + eexists. rewrite list_lookup_alter_ne, list_lookup_alter_eq, Hp by done.
      split_and!; [done|done|done|].
      eexists. rewrite list_lookup_alter_eq, list_lookup_alter_ne, Hq by done.
      split_and!; [done|done|done|]. apply dseg_alter; [done|]. apply dseg_alter; [|done]. set_solver.
    + apply list_eq. intros i. rewrite !lookup_alter_node.
      do 2 (case_decide; subst); try done; rewrite ?Hp, ?Hq; simpl;
        [by destruct nd_q; simpl in *; subst | by destruct nd_p; simpl in *; subst].
Qed.

(** *** Running the pointer operations *)

Lemma run_bind {A B} (m : M V A) (k : A → M V B) h (a : A) h' r :
  m h = Some (a, h') → k a h' = r → (y ← m; k y) h = r.
Proof. intros Hm Hk. unfold mbind, M_bind. by rewrite Hm. Qed.

Lemma run_load x h nd : h !! x = Some nd → load (Some x) h = Some (nd, h).
Proof. intros Hx. unfold load. cbn [mbind option_bind]. by rewrite Hx. Qed.

Lemma run_set_next x v h :
  is_Some (h !! x) → set_next (Some x) v h = Some (tt, upd_opt (upd_next v) (Some x) h).
Proof. intros [nd Hx]. by apply set_next_alter with nd. Qed.

Lemma run_set_prev x v h :
  is_Some (h !! x) → set_prev (Some x) v h = Some (tt, upd_opt (upd_prev v) (Some x) h).
Proof. intros [nd Hx]. by apply set_prev_alter with nd. Qed.

Lemma alter_is_Some (f : node V → node V) i x h : is_Some (h !! x) → is_Some (alter f i h !! x).
Proof. intros [nd Hx]. rewrite lookup_alter_node, Hx. case_decide; eauto. Qed.

Lemma upd_opt_ne (f : node V → node V) q x h : q ≠ Some x → upd_opt f q h !! x = h !! x.
Proof. intros. destruct q; simpl; [|done]. apply list_lookup_alter_ne. congruence. Qed.

Lemma dll_In h l x : dll h l → x ∈ l → is_Some (h !! x).
Proof. intros [_ H]. by eapply dseg_In. Qed.

Lemma run_set_prev_opt q v h :
  (∀ x, q = Some x → is_Some (h !! x)) →
  (match q with Some _ => set_prev q v | None => mret tt end) h = Some (tt, upd_opt (upd_prev v) q h).
Proof. intros Hq. destruct q; [|done]. apply run_set_prev; eauto. Qed.

(** ** [lift] and [unlift] *)

(** [lift] removes a call and its return from the list, [unlift] restores
    the heap as it was. *)
Lemma lift_unlift h l1 (p e : loc) l2 (r : loc) l3 nd :
  dll h (l1 ++ p :: e :: l2 ++ r :: l3) →
  h !! e = Some nd → n_match nd = Some r →
  ∃ h', lift (Some e) h = Some (tt, h') ∧ dll h' (l1 ++ p :: l2 ++ l3) ∧
        contents h' = contents h ∧ unlift (Some e) h' = Some (tt, h).
Proof.
  intros Hd He Hm. pose proof Hd as [Hnd _].
  assert (Hall : ∀ x, x ∈ l1 ++ p :: e :: l2 ++ r :: l3 → is_Some (h !! x)) by (by intros; eapply dll_In).
  apply dll_unlink in Hd as ((nd' & He' & Hep & Hen) & Hd1 & Hr1).
  simplify_eq/=.
  destruct (head (l2 ++ r :: l3)) as [q|] eqn:Eq; [|by destruct l2].
  assert (Hq : q ∈ l2 ++ r :: l3) by (destruct l2; simplify_eq/=; set_solver).
  destruct (@exists_last _ (l1 ++ p :: l2)) as (l1' & p' & El); [by destruct l1|].
  assert (El' : l1 ++ p :: l2 ++ r :: l3 = l1' ++ p' :: r :: l3)
    by (trans ((l1 ++ p :: l2) ++ r :: l3); [by simplify_list_eq | rewrite El; by simplify_list_eq]).
  assert (Hp' : p' ∈ l1 ++ p :: l2) by (rewrite El; set_solver).
  assert (e ≠ p ∧ e ≠ q ∧ e ≠ r ∧ e ≠ p' ∧ r ≠ p' ∧ e ∉ l3 ∧ r ∉ l3) as (? & ? & ? & ? & ? & ? & ?).
  { rewrite NoDup_app, !NoDup_cons, NoDup_app, NoDup_cons in Hnd. set_solver. }
  rewrite El' in Hd1.
  apply dll_unlink in Hd1 as ((nd_r & Hr & Hrp & Hrn) & Hd2 & Hr2).
  set (h1 := unlink (Some p) (Some q) h) in *.
  set (h2 := unlink (Some p') (head l3) h1) in *.
  assert (Hl3 : ∀ x, head l3 = Some x → x ∈ l3) by (destruct l3; [done|]; intros ? [= ->]; set_solver).
  assert (Hh1e : h1 !! e = Some nd') by (unfold h1; rewrite lookup_unlink_ne; congruence).
  assert (Hh2e : h2 !! e = Some nd').
  { unfold h2. rewrite lookup_unlink_ne; [done|congruence|]. intros E. by apply eq_sym, Hl3 in E. }
  assert (Hh2r : h2 !! r = Some nd_r).
  { unfold h2. rewrite lookup_unlink_ne; [done|congruence|]. intros E. by apply eq_sym, Hl3 in E. }
  assert (Hall1 : ∀ x, x ∈ l1 ++ p :: e :: l2 ++ r :: l3 → is_Some (h1 !! x))
    by (intros x Hx; by apply alter_is_Some, alter_is_Some, Hall).
  assert (Hall2 : ∀ x, x ∈ l1 ++ p :: e :: l2 ++ r :: l3 → is_Some (h2 !! x)).
  { intros x Hx%Hall1. unfold h2, unlink. destruct (head l3); cbn [upd_opt]; [by apply alter_is_Some, alter_is_Some | by apply alter_is_Some]. }
  exists h2. split; [|split; [|split]].
  - unfold lift.
    eapply run_bind; [by apply run_load|]. rewrite Hep, Hen.
    eapply run_bind; [apply run_set_next, Hall; set_solver|].
    eapply run_bind; [apply run_load; rewrite upd_opt_ne by congruence; done|]. rewrite Hep, Hen.
    eapply run_bind; [apply run_set_prev, alter_is_Some, Hall; set_solver|].
    change (upd_opt _ (Some q) _) with h1.
    eapply run_bind; [by apply run_load|]. cbn beta zeta. rewrite Hm.
    eapply run_bind; [by apply run_load|]. rewrite Hrp, Hrn.
    eapply run_bind; [apply run_set_next, Hall1; set_solver|].
    eapply run_bind; [apply run_load; rewrite upd_opt_ne by congruence; done|]. rewrite Hrp, Hrn.
    apply run_set_prev_opt. intros x Hx%Hl3. apply alter_is_Some, Hall1. set_solver.
  - replace (l1 ++ p :: l2 ++ l3) with ((l1 ++ p :: l2) ++ l3) by by simplify_list_eq.
    rewrite El. by simplify_list_eq.
  - unfold h2, h1. by rewrite !contents_unlink.
  - unfold unlift.
    eapply run_bind; [by apply run_load|]. cbn beta zeta. rewrite Hm.
    eapply run_bind; [by apply run_load|]. rewrite Hrp.
    eapply run_bind; [apply run_set_next, Hall2; set_solver|].
    eapply run_bind; [apply run_load; rewrite upd_opt_ne by congruence; done|]. rewrite Hrn.
    eapply run_bind; [apply run_set_prev_opt; intros x Hx%Hl3; apply alter_is_Some, Hall2; set_solver|].
    change (upd_opt _ (head l3) _) with (relink r (Some p') (head l3) h2). rewrite Hr2.
    eapply run_bind; [by apply run_load|]. rewrite Hep.
    eapply run_bind; [apply run_set_next, Hall1; set_solver|].
    eapply run_bind; [apply run_load; rewrite upd_opt_ne by congruence; done|]. rewrite Hen.
    rewrite run_set_prev by (apply alter_is_Some, Hall1; set_solver).
    change (upd_opt _ (Some q) _) with (relink e (Some p) (Some q) h1). by rewrite Hr1.
Qed.
End ops.
End LinkedList.
