(* ===== verification/Checker.v ===== *)
(** * The linearizability search

    [src/6.5840/src/porcupine/checker.go], [checkSingle] and what it calls: the
    depth-first search, with a cache of the configurations seen, for an order
    of the operations of one partition that the model accepts. One
    definition is one iteration of the loop of [checkSingle]; the loop itself
    runs it with a bound on the number of iterations. What the loop reads
    from [kill] in its [k]-th iteration is the argument [kill k]. *)
From S2P Require Import Prelude Bitset Porcupine LinkedList.
Import Porcupine LinkedList.
Local Open Scope Z_scope.

Module Checker.

(** How a Go call ends: with a value, with a panic, or not within the bound. *)
Inductive run (A : Type) :=
| Done (a : A)
| Panicked
| OutOfFuel.
Arguments Done {_} _.
Arguments Panicked {_}.
Arguments OutOfFuel {_}.

(** The conversion [uint(i)]. *)
Definition to_uint (i : Z) : Z := wrap_u 64 i.

Record cacheEntry (St : Type) := CacheEntry {
  ce_linearized : Bitset.bitset;
  ce_state : St;
}.
Arguments CacheEntry {_} _ _.
Arguments ce_linearized {_} _.
Arguments ce_state {_} _.

Record callsEntry (St : Type) := CallsEntry {
  call_entry : ptr;
  call_state : St;
}.
Arguments CallsEntry {_} _ _.
Arguments call_entry {_} _.
Arguments call_state {_} _.

Section check.
Context {V St : Type} (model : Model V St).
Abbreviation cache_map := (gmap Z (list (cacheEntry St))).

(** The loop of [cacheContains] over one bucket. *)
Fixpoint bucketContains (elems : list (cacheEntry St)) (entry : cacheEntry St) : option bool :=
  match elems with
  | [] => Some false
  | elem :: rest =>
      if Bitset.equals (ce_linearized entry) (ce_linearized elem) then
        equal ← Equal model;
        if equal (ce_state entry) (ce_state elem) : bool then Some true
        else bucketContains rest entry
      else bucketContains rest entry
  end.

Definition cacheContains (cache : cache_map) (entry : cacheEntry St) : option bool :=
  bucketContains (default [] (cache !! Bitset.hash (ce_linearized entry))) entry.

(** The local variables of [checkSingle]. [seqs] holds the variables [seq]
    whose address was taken, in the order they were created; an element of
    [longest] is nil or the index of one of them. *)
Record vars := Vars {
  v_heap : heap V;
  v_entry : ptr;
  v_linearized : Bitset.bitset;
  v_cache : cache_map;
  v_calls : list (callsEntry St);
  v_state : St;
  v_longest : list (option nat);
  v_seqs : list (list Z);
}.

Inductive outcome :=
| Next (st : vars)
| Return (ok : bool) (longest : list (option nat)) (seqs : list (list Z)).

(** [for i, v := range calls { seq[i] = v.entry.id }] *)
Definition calls_ids (h : heap V) (calls : list (callsEntry St)) : option (list Z) :=
  mapM (λ v, '(nd, _) ← load (call_entry v) h; Some (n_id nd)) calls.

(** The loop of the [computePartial] block over [vs], what is left of
    [calls]; [seq] is the address of this iteration's variable once it has
    been set. *)
Fixpoint update_longest (h : heap V) (calls vs : list (callsEntry St)) (seq : option nat)
    (longest : list (option nat)) (seqs : list (list Z)) : option (list (option nat) * list (list Z)) :=
  match vs with
  | [] => Some (longest, seqs)
  | v :: vs =>
      '(nd, _) ← load (call_entry v) h;
      old ← go_index longest (n_id nd);
      shorter ← match old with
                | None => Some true
                | Some r => old_seq ← seqs !! r;
                            Some (Z.of_nat (length old_seq) <? Z.of_nat (length calls))
                end;
      if shorter : bool then
        (* create seq lazily *)
        '(r, seqs) ← match seq with
                     | Some r => Some (r, seqs)
                     | None => ids ← calls_ids h calls; Some (length seqs, seqs ++ [ids])
                     end;
        longest ← go_update longest (n_id nd) (Some r);
        update_longest h calls vs (Some r) longest seqs
      else update_longest h calls vs seq longest seqs
  end.

(** The branch for a return entry: give up the last call. *)
Definition backtrack (computePartial : bool) (st : vars) : option outcome :=
  let calls := v_calls st in
  if Z.of_nat (length calls) =? 0 then Some (Return false (v_longest st) (v_seqs st))
  else
    '(longest, seqs) ← if computePartial
                       then update_longest (v_heap st) calls calls None (v_longest st) (v_seqs st)
                       else Some (v_longest st, v_seqs st);
    callsTop ← go_index calls (Z.of_nat (length calls) - 1);
    let entry := call_entry callsTop in
    let state := call_state callsTop in
    '(e, _) ← load entry (v_heap st);
    linearized ← Bitset.clear (v_linearized st) (to_uint (n_id e));
    let calls := take (length calls - 1) calls in
    '(_, h) ← unlift entry (v_heap st);
    '(e, _) ← load entry h;
    Some (Next (Vars h (n_next e) linearized (v_cache st) calls state longest seqs)).

(** The branch for a call entry: linearize it if the model accepts it and
    the configuration it leads to is new. *)
Definition try_call (headEntry : ptr) (e : node V) (st : vars) : option outcome :=
  let entry := v_entry st in
  let skip :=
    Vars (v_heap st) (n_next e) (v_linearized st) (v_cache st) (v_calls st) (v_state st)
         (v_longest st) (v_seqs st) in
  '(matching, _) ← load (n_match e) (v_heap st); (* the return entry *)
  '(ok, newState) ← Step model (v_state st) (n_value e) (n_value matching);
  if ok : bool then
    newLinearized ← Bitset.set (Bitset.clone (v_linearized st)) (to_uint (n_id e));
    let newCacheEntry := CacheEntry newLinearized newState in
    found ← cacheContains (v_cache st) newCacheEntry;
    if negb found then
      let hash := Bitset.hash newLinearized in
      let cache := <[hash := default [] (v_cache st !! hash) ++ [newCacheEntry]]> (v_cache st) in
      let calls := v_calls st ++ [CallsEntry entry (v_state st)] in
      linearized ← Bitset.set (v_linearized st) (to_uint (n_id e));
      '(_, h) ← lift entry (v_heap st);
      '(hd, _) ← load headEntry h;
      Some (Next (Vars h (n_next hd) linearized cache calls newState (v_longest st) (v_seqs st)))
    else Some (Next skip)
  else Some (Next skip).

(** After the loop: every element of [longest] is the complete linearization. *)
Definition finish (n : Z) (st : vars) : option outcome :=
  ids ← calls_ids (v_heap st) (v_calls st);
  let seqs := v_seqs st ++ [ids] in
  let r := length (v_seqs st) in
  Some (Return true (replicate (Z.to_nat n) (Some r) ++ drop (Z.to_nat n) (v_longest st)) seqs).

(** The test of the loop and one execution of its body. *)
Definition iteration (computePartial : bool) (n : Z) (headEntry : ptr) (killed : bool) (st : vars) :
    option outcome :=
  '(hd, _) ← load headEntry (v_heap st);
  match n_next hd with
  | None => finish n st
  | Some _ =>
      if killed then Some (Return false (v_longest st) (v_seqs st))
      else
        '(e, _) ← load (v_entry st) (v_heap st);
        match n_match e with
        | Some _ => try_call headEntry e st
        | None => backtrack computePartial st
        end
  end.

Fixpoint checkLoop (computePartial : bool) (n : Z) (headEntry : ptr) (kill : nat → bool)
    (fuel : nat) (k : nat) (st : vars) : run (bool * list (option nat) * list (list Z)) :=
  match fuel with
  | O => OutOfFuel
  | S fuel =>
      match iteration computePartial n headEntry (kill k) st with
      | None => Panicked
      | Some (Return ok longest seqs) => Done (ok, longest, seqs)
      | Some (Next st) => checkLoop computePartial n headEntry kill fuel (S k) st
      end
  end.

(** What [checkSingle] does before its loop: the variables, [n] and [headEntry]. *)
Definition checkSingle_init (vnil : V) (history : list (entry V)) : option (vars * Z * ptr) :=
  '(entry, h) ← makeLinkedEntries history [];
  len ← list_length (S (length h)) h entry 0;
  let n := Z.quot len 2 in
  let linearized := Bitset.newBitset (to_uint n) in
  let longest := replicate (Z.to_nat n) None in
  let state := Init model in
  '(node0, h) ← alloc (Node vnil None (-1) None None) h;
  '(headEntry, h) ← insertBefore node0 entry h;
  Some (Vars h entry linearized ∅ [] state longest [], n, headEntry).

(** [vnil] is the nil value of type [interface{}]. *)
Definition checkSingle (vnil : V) (kill : nat → bool) (fuel : nat) (history : list (entry V))
    (computePartial : bool) : run (bool * list (option nat) * list (list Z)) :=
  match checkSingle_init vnil history with
  | None => Panicked
  | Some (st, n, headEntry) => checkLoop computePartial n headEntry kill fuel 0 st
  end.

(** More fuel does not change the result. *)
Lemma checkLoop_mono computePartial n headEntry kill fuel fuel' k st r :
  (fuel ≤ fuel')%nat → checkLoop computePartial n headEntry kill fuel k st = Done r →
  checkLoop computePartial n headEntry kill fuel' k st = Done r.
Proof.
  revert fuel' k st. induction fuel as [|fuel IH]; intros [|fuel'] k st Hle; try done; [lia|].
  simpl. destruct (iteration _ _ _ _ _) as [[st'|]|]; try done. apply IH. lia.
Qed.

Lemma checkSingle_mono vnil kill history computePartial r fuel fuel' :
  (fuel ≤ fuel')%nat → checkSingle vnil kill fuel history computePartial = Done r →
  checkSingle vnil kill fuel' history computePartial = Done r.
Proof.
  unfold checkSingle. destruct (checkSingle_init _ _) as [[[st n] hd]|]; [|done]. apply checkLoop_mono.
Qed.

End check.
End Checker.
