(* ===== verification/Search.v ===== *)
(** * Linearizations, abstractly

    The configurations the search of the checker moves between, without the
    heap: the calls and returns still to be linearized, as a decreasing list
    of locations (an entry's location is smaller the later it is in the
    history), and the model's state. *)
From S2P Require Import Prelude Porcupine LinkedList.
Import Porcupine LinkedList.
Local Open Scope Z_scope.

Module Search.

(** What is known of a checked partition: [C] the contents of its nodes,
    [n] the number of its operations. *)
Record wf_contents {V St} (model : Model V St) (C : list (V * ptr * Z)) (n : Z) : Prop := {
  wfc_match e v r i : C !! e = Some (v, Some r, i) → (r < e)%nat ∧ ∃ o, C !! r = Some (o, None, i);
  wfc_call_inj e1 v1 r1 e2 v2 r2 i :
    C !! e1 = Some (v1, Some r1, i) → C !! e2 = Some (v2, Some r2, i) → e1 = e2;
  wfc_ret_inj r1 v1 r2 v2 i :
    C !! r1 = Some (v1, None, i) → C !! r2 = Some (v2, None, i) → r1 = r2;
  wfc_id e v r i : C !! e = Some (v, Some r, i) → 0 ≤ i < n;
  wfc_step e v r o i s :
    C !! e = Some (v, Some r, i) → C !! r = Some (o, None, i) → is_Some (Step model s v o);
}.

Section search.
Context {V St : Type} (model : Model V St) (C : list (V * ptr * Z)) (n : Z).

Definition is_ret (x : loc) : Prop := ∃ o i, C !! x = Some (o, None, i).

(** A list of entries with every call next to its return and conversely. *)
Record closed (L : list loc) : Prop := {
  cl_sorted : StronglySorted gt L;
  cl_dom x : x ∈ L → is_Some (C !! x);
  cl_match e v r i : e ∈ L → C !! e = Some (v, Some r, i) → r ∈ L;
  cl_ret r o i : r ∈ L → C !! r = Some (o, None, i) → ∃ e v, e ∈ L ∧ C !! e = Some (v, Some r, i);
}.

Definition del (e r : loc) (L : list loc) : list loc := filter (λ x, x ≠ e ∧ x ≠ r) L.

(** [lin_path L s seq L' s']: from the entries [L] and state [s] the model
    accepts the calls [seq] in that order, no call before one whose return
    precedes it, leading to the entries [L'] and state [s']. *)
Inductive lin_path : list loc → St → list loc → list loc → St → Prop :=
| lin_done L s : lin_path L s [] L s
| lin_op L s e v r i o s' seq L' s'' :
    e ∈ L → C !! e = Some (v, Some r, i) → C !! r = Some (o, None, i) →
    (∀ x, x ∈ L → is_ret x → (x < e)%nat) →
    Step model s v o = Some (true, s') →
    lin_path (del e r L) s' seq L' s'' →
    lin_path L s (e :: seq) L' s''.

Lemma lin_path_app L s seq L1 s1 seq2 L2 s2 :
  lin_path L s seq L1 s1 → lin_path L1 s1 seq2 L2 s2 → lin_path L s (seq ++ seq2) L2 s2.
Proof. induction 1; simpl; [done|]. intros. eapply lin_op; eauto. Qed.

Lemma lin_path_snoc L s seq L1 s1 e v r i o s2 :
  lin_path L s seq L1 s1 →
  e ∈ L1 → C !! e = Some (v, Some r, i) → C !! r = Some (o, None, i) →
  (∀ x, x ∈ L1 → is_ret x → (x < e)%nat) →
  Step model s1 v o = Some (true, s2) →
  lin_path L s (seq ++ [e]) (del e r L1) s2.
Proof.
  intros. eapply lin_path_app; [done|]. eapply lin_op; eauto. constructor.
Qed.

Lemma del_In e r L x : x ∈ del e r L ↔ x ∈ L ∧ x ≠ e ∧ x ≠ r.
Proof. unfold del. rewrite list_elem_of_filter. tauto. Qed.

Lemma del_split l1 e l2 r l3 :
  NoDup (l1 ++ e :: l2 ++ r :: l3) → del e r (l1 ++ e :: l2 ++ r :: l3) = l1 ++ l2 ++ l3.
Proof.
  intros Hnd. unfold del.
  assert (Hf : ∀ l : list loc, e ∉ l → r ∉ l → filter (λ x, x ≠ e ∧ x ≠ r) l = l).
  { induction l as [|y l IH]; [done|]. intros ??. rewrite filter_cons_True by set_solver.
    f_equal. apply IH; set_solver. }
  rewrite NoDup_app, NoDup_cons, NoDup_app, NoDup_cons in Hnd.
  rewrite filter_app, filter_cons_False by tauto.
  rewrite filter_app, filter_cons_False by tauto. rewrite !Hf; set_solver.
Qed.

Lemma not_call_ret e v r i : C !! e = Some (v, Some r, i) → ¬ is_ret e.
Proof. intros He (o & j & H). congruence. Qed.

Context (HC : wf_contents model C n).

Lemma closed_del e v r i L :
  closed L → e ∈ L → C !! e = Some (v, Some r, i) → closed (del e r L).
Proof.
  intros HL He Hce. destruct (wfc_match _ _ _ HC _ _ _ _ Hce) as (Hlt & o & Hcr).
  split.
  - apply StronglySorted_filter, HL.
  - intros x (Hx & _)%del_In. by apply HL.
  - intros e' v' r' i' (He' & Hne & Hner)%del_In Hce'.
    apply del_In. split; [by eapply HL|]. split.
    + intros ->. destruct (wfc_match _ _ _ HC _ _ _ _ Hce') as (_ & o' & ?). congruence.
    + intros ->. destruct (wfc_match _ _ _ HC _ _ _ _ Hce') as (_ & o' & ?).
      simplify_eq. by eapply Hne, (wfc_call_inj _ _ _ HC).
  - intros r' o' i' (Hr' & Hne & Hner)%del_In Hcr'.
    destruct (cl_ret _ HL _ _ _ Hr' Hcr') as (e' & v' & He' & Hce').
    exists e', v'. split; [|done]. apply del_In. split; [done|]. split; intros ->; congruence.
Qed.

Lemma closed_split L e v r i :
  closed L → e ∈ L → C !! e = Some (v, Some r, i) →
  ∃ l1 l2 l3, L = l1 ++ e :: l2 ++ r :: l3 ∧ del e r L = l1 ++ l2 ++ l3.
Proof.
  intros HL He Hce.
  destruct (sorted_gt_split L e r) as (l1 & l2 & l3 & ->); [apply HL|done|by eapply HL|by eapply wfc_match|].
  exists l1, l2, l3. split; [done|]. apply del_split, sorted_gt_NoDup, HL.
Qed.

Lemma closed_del_length L e v r i :
  closed L → e ∈ L → C !! e = Some (v, Some r, i) → length L = S (S (length (del e r L))).
Proof.
  intros HL He Hce. destruct (closed_split L e v r i) as (l1 & l2 & l3 & HL' & ->); [done..|].
  rewrite HL'. rewrite !length_app. simpl. rewrite !length_app. simpl. lia.
Qed.

(** A nonempty closed list has a return. *)
Lemma closed_has_ret L : closed L → L ≠ [] → ∃ r, r ∈ L ∧ is_ret r.
Proof.
  intros HL Hne. destruct L as [|x L]; [done|].
  destruct (cl_dom _ HL x) as [[[v [r|]] i] Hx]; [set_solver|..].
  - exists r. split; [eapply HL; [|done]; set_solver|].
    destruct (wfc_match _ _ _ HC _ _ _ _ Hx) as (_ & o & ?). by exists o, i.
  - exists x. split; [set_solver|]. by exists v, i.
Qed.

Lemma lin_path_closed L s seq L' s' : lin_path L s seq L' s' → closed L → closed L'.
Proof. induction 1; [done|]. intros. eauto using closed_del. Qed.

(** ** States the model does not distinguish *)
Section equiv.
Context (R : relation St).
Context (HR : ∀ s s' v o t, R s s' → Step model s v o = Some (true, t) →
                            ∃ t', Step model s' v o = Some (true, t') ∧ R t t').

Lemma lin_path_equiv L s seq L' t s' :
  lin_path L s seq L' t → R s s' → ∃ t', lin_path L s' seq L' t' ∧ R t t'.
Proof.
  intros Hl. revert s'. induction Hl as [|??????????? Hin Hc1 Hc2 Hmin Hst Hl IH]; intros s1 HRs.
  - eexists. split; [constructor|done].
  - destruct (HR _ _ _ _ _ HRs Hst) as (t' & Hst' & HRt).
    destruct (IH _ HRt) as (t'' & Hl' & ?). exists t''. split; [|done]. by eapply lin_op.
Qed.
End equiv.
End search.
End Search.
