(* ===== verification/Linearizability.v ===== *)
(** * What the checker promises

    Linearizability of a history of entries: its operations can be put in an
    order that keeps every operation that returned before another was called
    in front of it, and that the sequential model accepts. *)
From S2P Require Import Prelude Porcupine LinkedList Search.
Import Porcupine LinkedList Search.
Local Open Scope Z_scope.

Module Linearizability.

Section spec.
Context {V St : Type} (model : Model V St).

Definition op_ids (es : list (entry V)) : list Z := id <$> filter (λ e, kind e = callEntry) es.

(** [a] returned before [b] was called. *)
Definition precedes (es : list (entry V)) (a b : Z) : Prop :=
  ∃ p q ret call, es !! p = Some ret ∧ kind ret = returnEntry ∧ id ret = a ∧
                  es !! q = Some call ∧ kind call = callEntry ∧ id call = b ∧ (p < q)%nat.

(** The model accepts the operations [ids] one after the other from [s]. *)
Inductive accepts (es : list (entry V)) : St → list Z → Prop :=
| accepts_nil s : accepts es s []
| accepts_cons s i ids call ret s' :
    call ∈ es → kind call = callEntry → id call = i →
    ret ∈ es → kind ret = returnEntry → id ret = i →
    Step model s (value call) (value ret) = Some (true, s') →
    accepts es s' ids → accepts es s (i :: ids).

Definition in_real_time_order (es : list (entry V)) (ids : list Z) : Prop :=
  StronglySorted (λ a b, ¬ precedes es b a) ids.

Definition linearizable (es : list (entry V)) : Prop :=
  ∃ ids, ids ≡ₚ op_ids es ∧ in_real_time_order es ids ∧ accepts es (Init model) ids.

(** The order [ids] of some of the operations is the beginning of a
    linearization: with an operation it has all those that returned before
    the operation was called. *)
Definition partial_linearization (es : list (entry V)) (ids : list Z) : Prop :=
  NoDup ids ∧ in_real_time_order es ids ∧ accepts es (Init model) ids ∧
  ∀ a b, b ∈ ids → precedes es a b → a ∈ ids.

(** Every operation has one call and, later, one return; the ids are 0 to n - 1. *)
Record wf_history (es : list (entry V)) : Prop := {
  wfh_unique p q e f : es !! p = Some e → es !! q = Some f → kind e = kind f → id e = id f → p = q;
  wfh_returned p e : es !! p = Some e → kind e = callEntry →
    ∃ q f, (p < q)%nat ∧ es !! q = Some f ∧ kind f = returnEntry ∧ id f = id e;
  wfh_called q f : es !! q = Some f → kind f = returnEntry →
    ∃ p e, (p < q)%nat ∧ es !! p = Some e ∧ kind e = callEntry ∧ id e = id f;
  wfh_ids i : (∃ e, e ∈ es ∧ id e = i) ↔ 0 ≤ i < Z.of_nat (length es) / 2;
  wfh_even : Z.of_nat (length es) = 2 * (Z.of_nat (length es) / 2);
}.

(** The model answers, without a panic, on the operations of the history. *)
Definition steps_total (es : list (entry V)) : Prop :=
  ∀ s call ret, call ∈ es → ret ∈ es → kind call = callEntry → kind ret = returnEntry → id call = id ret →
  is_Some (Step model s (value call) (value ret)).
End spec.

(** ** The contents of the linked entries *)
Section contents.
Context {V St : Type} (model : Model V St).

(** The location of the first return of operation [i]. *)
Fixpoint ret_loc (es : list (entry V)) (i : Z) : ptr :=
  match es with
  | [] => None
  | e :: es => if Bool.eqb (kind e) returnEntry && (id e =? i) then Some (length es) else ret_loc es i
  end.

Definition node_contents (e : entry V) (es : list (entry V)) : V * ptr * Z :=
  (value e, if Bool.eqb (kind e) returnEntry then None else ret_loc es (id e), id e).

(** Contents by location: the last entry is at location 0. *)
Fixpoint cont (es : list (entry V)) : list (V * ptr * Z) :=
  match es with
  | [] => []
  | e :: es => cont es ++ [node_contents e es]
  end.

Lemma cont_length es : length (cont es) = length es.
Proof. induction es; simpl; [done|]. rewrite length_app. simpl. lia. Qed.

Lemma cont_at es1 e es2 : cont (es1 ++ e :: es2) !! length es2 = Some (node_contents e es2).
Proof.
  induction es1 as [|x es1 IH]; simpl.
  - by rewrite lookup_app_r, cont_length, Nat.sub_diag by (rewrite cont_length; lia).
  - by apply lookup_app_l_Some.
Qed.

Lemma cont_inv es l x :
  cont es !! l = Some x → ∃ es1 e es2, es = es1 ++ e :: es2 ∧ length es2 = l ∧ x = node_contents e es2.
Proof.
  induction es as [|e es IH]; simpl; [done|]. intros [H|[Hl H]]%lookup_app_Some.
  - destruct (IH H) as (es1 & f & es2 & -> & ? & ?). exists (e :: es1), f, es2. done.
  - rewrite cont_length in *. apply list_lookup_singleton_Some in H as [? <-].
    exists [], e, es. split_and!; [done|lia|done].
Qed.

Lemma ret_loc_inv es i r :
  ret_loc es i = Some r →
  ∃ es1 f es2, es = es1 ++ f :: es2 ∧ length es2 = r ∧ kind f = returnEntry ∧ id f = i.
Proof.
  induction es as [|e es IH]; simpl; [done|].
  destruct (Bool.eqb (kind e) returnEntry && (id e =? i)) eqn:E.
  - intros [= <-]. apply andb_true_iff in E as [Ek Ei]. apply eqb_prop in Ek. apply Z.eqb_eq in Ei.
    exists [], e, es. done.
  - intros (es1 & f & es2 & -> & ? & ? & ?)%IH. exists (e :: es1), f, es2. done.
Qed.

Lemma ret_loc_is_Some es f : f ∈ es → kind f = returnEntry → is_Some (ret_loc es (id f)).
Proof.
  induction 1 as [f es|f e es _ IH]; intros Hk; simpl.
  - rewrite Hk, eqb_reflx, Z.eqb_refl. simpl. eauto.
  - destruct (_ && _); eauto.
Qed.

(** Positions and locations. *)
Lemma split_lookup (es es1 es2 : list (entry V)) e : es = es1 ++ e :: es2 → es !! length es1 = Some e.
Proof. intros ->. by apply list_lookup_middle. Qed.

Lemma lookup_split (es : list (entry V)) p e :
  es !! p = Some e → ∃ es1 es2, es = es1 ++ e :: es2 ∧ length es1 = p.
Proof.
  intros H. exists (take p es), (drop (S p) es). split; [by rewrite take_drop_middle|].
  apply length_take_le. apply lookup_lt_Some in H. lia.
Qed.

Lemma kind_cases (e : entry V) : kind e = callEntry ∨ kind e = returnEntry.
Proof. unfold callEntry, returnEntry. destruct (kind e); auto. Qed.

Section wf.
Context (es : list (entry V)) (HW : wf_history es).
Context (x0 : V * ptr * Z) (Hx0 : x0.1.2 = None) (Hx0i : x0.2 = -1).
Abbreviation C := (cont es ++ [x0]).

(** A call and its return as nodes, and as entries. *)
Lemma C_call e v r i :
  C !! e = Some (v, Some r, i) ↔
  ∃ p q call ret, es !! p = Some call ∧ es !! q = Some ret ∧ kind call = callEntry ∧ kind ret = returnEntry ∧
    id call = i ∧ id ret = i ∧ value call = v ∧ (p < q)%nat ∧
    (p + e = length es - 1)%nat ∧ (q + r = length es - 1)%nat.
Proof.
  split.
  - intros [H|[_ H]]%lookup_app_Some.
    + apply cont_inv in H as (es1 & c & es2 & E & Hl & H). unfold node_contents in H.
      destruct (Bool.eqb (kind c) returnEntry) eqn:Ek; [done|]. injection H as Hv Hr Hi.
      symmetry in Hr. apply ret_loc_inv in Hr as (es3 & f & es4 & E' & Hl' & Hk & Hif).
      exists (length es1), (length es1 + S (length es3))%nat, c, f.
      pose proof (split_lookup _ _ _ _ E) as Hp.
      assert (Hq : es !! (length es1 + S (length es3))%nat = Some f).
      { rewrite E, E', lookup_app_r by lia.
        replace (length es1 + S (length es3) - length es1)%nat with (S (length es3)) by lia.
        cbn. by apply list_lookup_middle. }
      assert (kind c = callEntry).
      { destruct (kind_cases c) as [|Hc]; [done|]. by rewrite Hc in Ek. }
      assert (length es = length es1 + S (length es3 + S (length es4)))%nat.
      { rewrite E, E', !length_app. simpl. rewrite length_app. simpl. lia. }
      assert (length es2 = length es3 + S (length es4))%nat by (rewrite E', length_app; simpl; lia).
      split_and!; auto with lia.
    + apply list_lookup_singleton_Some in H as [_ ->]. done.
  - intros (p & q & call & ret & Hp & Hq & Hkc & Hkr & Hic & Hir & Hv & Hlt & He & Hr).
    pose proof (lookup_lt_Some _ _ _ Hp). pose proof (lookup_lt_Some _ _ _ Hq).
    apply lookup_split in Hp as (es1 & es2 & E & Hl1).
    assert (Hle : length es2 = e) by (rewrite E, length_app in He; simpl in He; lia).
    apply lookup_app_l_Some. rewrite <- Hle, E, cont_at. unfold node_contents.
    rewrite Hkc, Hv, Hic. simpl. f_equal.
    assert (Hret : ret ∈ es2).
    { rewrite E, lookup_app_r in Hq by lia.
      destruct (q - length es1)%nat as [|j] eqn:Ej; [lia|]. simpl in Hq. by eapply list_elem_of_lookup_2. }
    destruct (ret_loc_is_Some es2 ret Hret Hkr) as [r' Hr']. rewrite Hir in Hr'. rewrite Hr'.
    repeat f_equal. apply ret_loc_inv in Hr' as (es3 & f & es4 & E' & Hl' & Hkf & Hif).
    assert (Hf : es !! (length es1 + S (length es3))%nat = Some f).
    { rewrite E, E', lookup_app_r by lia.
      replace (length es1 + S (length es3) - length es1)%nat with (S (length es3)) by lia.
      cbn. by apply list_lookup_middle. }
    assert (q = length es1 + S (length es3))%nat as Eq by (eapply (wfh_unique _ HW); eauto; congruence).
    assert (length es = length es1 + S (length es3 + S (length es4)))%nat.
    { rewrite E, E', !length_app. simpl. rewrite length_app. simpl. lia. }
    lia.
Qed.

Lemma C_ret r o i :
  C !! r = Some (o, None, i) ↔
  (∃ q ret, es !! q = Some ret ∧ kind ret = returnEntry ∧ id ret = i ∧ value ret = o ∧ (q + r = length es - 1)%nat) ∨
  (r = length es ∧ x0 = (o, None, i)).
Proof.
  split.
  - intros [H|[Hl H]]%lookup_app_Some.
    + left. apply cont_inv in H as (es1 & f & es2 & E & Hl & H). unfold node_contents in H.
      pose proof (split_lookup _ _ _ _ E) as Hq.
      assert (length es = length es1 + S (length es2))%nat by (rewrite E, length_app; simpl; lia).
      destruct (kind_cases f) as [Hk|Hk]; rewrite Hk in H; simpl in H.
      * injection H as Hv Hr Hi. destruct (wfh_returned _ HW _ _ Hq Hk) as (q & g & Hlt & Hg & Hkg & Hig).
        assert (g ∈ es2) as Hin.
        { rewrite E, lookup_app_r in Hg by lia.
          destruct (q - length es1)%nat as [|j] eqn:Ej; [lia|]. simpl in Hg. by eapply list_elem_of_lookup_2. }
        apply ret_loc_is_Some in Hin as [? Hs]; [|done]. rewrite Hig in Hs. congruence.
      * injection H as Hv Hi. exists (length es1), f. split_and!; auto with lia.
    + right. rewrite cont_length in Hl, H. apply list_lookup_singleton_Some in H as [? ->]. split; [lia|done].
  - intros [(q & ret & Hq & Hk & Hi & Hv & Hr)|[-> ->]].
    + pose proof (lookup_lt_Some _ _ _ Hq). apply lookup_split in Hq as (es1 & es2 & E & Hl1).
      assert (Hle : length es2 = r) by (rewrite E, length_app in Hr; simpl in Hr; lia).
      apply lookup_app_l_Some. rewrite <- Hle, E, cont_at. unfold node_contents. by rewrite Hk, Hv, Hi.
    + by rewrite lookup_app_r, cont_length, Nat.sub_diag by (rewrite cont_length; lia).
Qed.

Abbreviation n := (Z.of_nat (length es) / 2).

Lemma wf_contents_of_history : steps_total model es → wf_contents model C n.
Proof.
  intros HS. split.
  - intros e v r i H. pose proof H as (p & q & call & ret & ? & ? & ? & ? & ? & ? & ? & ? & ? & ?)%C_call.
    split; [lia|]. exists (value ret). apply C_ret. left. exists q, ret. done.
  - intros e1 v1 r1 e2 v2 r2 i (p1 & _ & c1 & _ & Hp1 & _ & Hk1 & _ & Hi1 & _ & _ & _ & He1 & _)%C_call
      (p2 & _ & c2 & _ & Hp2 & _ & Hk2 & _ & Hi2 & _ & _ & _ & He2 & _)%C_call.
    assert (p1 = p2) by (eapply (wfh_unique _ HW); eauto; congruence). lia.
  - intros r1 v1 r2 v2 i H1%C_ret H2%C_ret.
    destruct H1 as [(q1 & f1 & Hq1 & Hk1 & Hi1 & _ & Hl1)|[-> E1]],
      H2 as [(q2 & f2 & Hq2 & Hk2 & Hi2 & _ & Hl2)|[-> E2]]; [|exfalso|exfalso|done].
    + assert (q1 = q2) by (eapply (wfh_unique _ HW); eauto; congruence). lia.
    + assert (0 ≤ i < n) by (apply (wfh_ids _ HW); exists f1; split; [by eapply list_elem_of_lookup_2|done]).
      rewrite E2 in Hx0i. simpl in Hx0i. lia.
    + assert (0 ≤ i < n) by (apply (wfh_ids _ HW); exists f2; split; [by eapply list_elem_of_lookup_2|done]).
      rewrite E1 in Hx0i. simpl in Hx0i. lia.
  - intros e v r i (p & q & call & ret & Hp & _ & _ & _ & Hi & _)%C_call.
    apply (wfh_ids _ HW). exists call. split; [by eapply list_elem_of_lookup_2|done].
  - intros e v r o i s (p & q & call & ret & Hp & Hq & Hk & Hk' & Hi & Hi' & Hv & _ & He & Hr)%C_call
      [(q' & ret' & Hq' & Hkr & Hir & Ho & _)|[-> E]]%C_ret.
    + assert (q = q') as -> by (eapply (wfh_unique _ HW); eauto; congruence). simplify_eq.
      apply HS; eauto using list_elem_of_lookup_2.
    + apply lookup_lt_Some in Hq. lia.
Qed.

Definition all_locs : list loc := rev (seq 0 (length es)).

Lemma all_locs_In x : x ∈ all_locs ↔ (x < length es)%nat.
Proof. unfold all_locs. rewrite list_elem_of_In, <- in_rev, in_seq. lia. Qed.

Lemma all_locs_sorted : StronglySorted gt all_locs.
Proof.
  unfold all_locs. induction (length es) as [|k IH]; [constructor|].
  rewrite seq_S, rev_app_distr. simpl. constructor; [done|].
  apply Forall_forall. intros x Hx%list_elem_of_In. rewrite <- in_rev, in_seq in Hx. lia.
Qed.

Lemma closed_all : closed C all_locs.
Proof.
  split.
  - apply all_locs_sorted.
  - intros x Hx%all_locs_In. apply lookup_lt_is_Some. rewrite length_app, cont_length. lia.
  - intros e v r i _ (p & q & call & ret & ? & ? & ? & ? & ? & ? & ? & ? & ? & ?)%C_call.
    apply all_locs_In. lia.
  - intros r o i Hr%all_locs_In [(q & ret & Hq & Hk & Hi & Ho & Hqr)|[-> _]]%C_ret; [|lia].
    destruct (wfh_called _ HW _ _ Hq Hk) as (p & call & Hlt & Hp & Hkc & Hic).
    pose proof (lookup_lt_Some _ _ _ Hp).
    exists (length es - 1 - p)%nat, (value call). split; [apply all_locs_In; lia|].
    apply C_call. exists p, q, call, ret. split_and!; auto with lia; congruence.
Qed.

(** ** Linearizations of the nodes and of the history *)

Abbreviation cid := (λ e i, ∃ v r, C !! e = Some (v, Some r, i)).

Lemma precedes_loc e1 v1 r1 a e2 v2 r2 b :
  C !! e1 = Some (v1, Some r1, a) → C !! e2 = Some (v2, Some r2, b) →
  precedes es a b ↔ (e2 < r1)%nat.
Proof.
  intros (p1 & q1 & c1 & f1 & Hp1 & Hq1 & Hkc1 & Hkf1 & Hic1 & Hif1 & _ & _ & He1 & Hr1)%C_call
    (p2 & q2 & c2 & f2 & Hp2 & Hq2 & Hkc2 & Hkf2 & Hic2 & Hif2 & _ & _ & He2 & Hr2)%C_call.
  split.
  - intros (p & q & ret & call & Hp & Hk & Hi & Hq & Hk' & Hi' & Hlt).
    assert (p = q1) as -> by (eapply (wfh_unique _ HW); eauto; congruence).
    assert (q = p2) as -> by (eapply (wfh_unique _ HW); eauto; congruence). lia.
  - intros Hlt. exists q1, p2, f1, c2. split_and!; auto with lia.
Qed.

Lemma accepts_of_path L s sq L' s' ids :
  lin_path model C L s sq L' s' → Forall2 cid sq ids → accepts model es s ids.
Proof.
  intros Hl. revert ids.
  induction Hl as [|L s e v r i o s' sq L' s'' He Hc Hcr _ Hst _ IH];
    intros ids H; inversion H as [|? j ? ids' (v' & r' & Hc') H']; subst; [constructor|].
  simplify_eq.
  apply C_call in Hc as (p & q & call & ret & Hp & Hq & Hk & Hk' & Hi & Hi' & Hv & _ & He' & Hr).
  apply C_ret in Hcr as [(q' & ret' & Hq' & Hkr & Hir & Ho & Hqr)|[-> _]];
    [|apply lookup_lt_Some in Hq; lia].
  assert (q' = q) as -> by lia. simplify_eq.
  eapply (accepts_cons _ _ _ _ _ call ret); eauto using list_elem_of_lookup_2.
Qed.

(** Every call of [L] is in the order, once. *)
Lemma path_calls L s sq s' :
  steps_total model es → closed C L → lin_path model C L s sq [] s' →
  NoDup sq ∧ ∀ e, e ∈ sq ↔ e ∈ L ∧ ∃ i, cid e i.
Proof.
  intros HS HL Hl. remember ([] : list loc) as Lend eqn:EL in Hl.
  induction Hl as [|L s e v r i o s' sq L' s'' He Hc Hcr _ Hst Hl IH]; subst.
  - split; [constructor|]. intros e. split; [by intros ?%elem_of_nil|by intros [?%elem_of_nil _]].
  - pose proof (wf_contents_of_history HS) as HWC.
    destruct (IH (closed_del _ _ _ HWC _ _ _ _ _ HL He Hc) eq_refl) as [Hnd Hin].
    split.
    + constructor; [|done]. rewrite Hin, del_In. naive_solver.
    + intros e'. rewrite elem_of_cons, Hin, del_In. split.
      * intros [->|[[? _] ?]]; [|done]. split; [done|]. by exists i, v, r.
      * intros [He' (i' & v' & r' & Hc')]. destruct (decide (e' = e)) as [|Hne]; [by left|].
        right. split; [|by exists i', v', r']. split; [done|]. split; [done|]. intros ->. congruence.
Qed.

Lemma order_of_path L s sq L' s' ids :
  steps_total model es → closed C L → lin_path model C L s sq L' s' → Forall2 cid sq ids →
  in_real_time_order es ids.
Proof.
  intros HS HL Hl. revert ids. pose proof (wf_contents_of_history HS) as HWC.
  assert (Hsub : ∀ L s sq L' s', lin_path model C L s sq L' s' → ∀ e, e ∈ sq → e ∈ L).
  { induction 1 as [|L1 s1 e1 v1 r1 i1 o1 t1 sq1 L1' t1' He1 _ _ _ _ _ IH1]; [by intros ? ?%elem_of_nil|].
    intros e' [->|He']%elem_of_cons; [done|]. by apply IH1, del_In in He' as [? _]. }
  induction Hl as [|L s e v r i o s' sq L' s'' He Hc Hcr Hmin Hst Hl IH];
    intros ids H; inversion H as [|? j ? ids' (v' & r' & Hc') H']; subst; [constructor|].
  simplify_eq. constructor; [by eapply IH; [eapply closed_del| ]|].
  apply Forall_forall. intros b (k & Hk)%list_elem_of_lookup.
  destruct (Forall2_lookup_r _ _ _ _ _ H' Hk) as (e2 & He2 & v2 & r2 & Hc2).
  rewrite precedes_loc by done. intros Hlt.
  apply list_elem_of_lookup_2, (Hsub _ _ _ _ _ Hl), del_In in He2 as [He2 _].
  pose proof (cl_match _ _ HL _ _ _ _ He2 Hc2) as Hr2.
  destruct (wfc_match _ _ _ HWC _ _ _ _ Hc2) as (_ & o2 & Hcr2).
  assert (r2 < e)%nat; [|lia]. apply Hmin; [done|]. by exists o2, b.
Qed.

(** Conversely, an order of the ids gives a path of the calls. *)
Lemma path_of_order ids L s :
  steps_total model es → closed C L → NoDup ids →
  (∀ i, i ∈ ids ↔ ∃ e, e ∈ L ∧ cid e i) →
  in_real_time_order es ids → accepts model es s ids →
  ∃ sq s', lin_path model C L s sq [] s'.
Proof.
  intros HS. pose proof (wf_contents_of_history HS) as HWC.
  revert L s. induction ids as [|i ids IH]; intros L s HL Hnd Hin Hord Hacc.
  - destruct L as [|x L]; [exists [], s; constructor|]. exfalso.
    assert (∃ e i, e ∈ x :: L ∧ cid e i) as (e & i & He & Hi).
    { destruct (cl_dom _ _ HL x) as [[[v [r|]] i] Hx]; [set_solver|..].
      - exists x, i. split; [set_solver|]. by exists v, r.
      - destruct (cl_ret _ _ HL x v i) as (e & v' & ? & ?); [set_solver|done|].
        exists e, i. split; [done|]. by exists v', x. }
    assert (i ∈ []) as H%elem_of_nil; [|done]. apply Hin. eauto.
  - inversion Hacc as [|? ? ? call ret s' Hcall Hkc Hic Hret Hkr Hir Hst Hacc']; subst.
    apply NoDup_cons in Hnd as [Hni Hnd]. apply StronglySorted_cons in Hord as [Hf Hord].
    destruct (proj1 (Hin (id call))) as (e & He & v & r & Hc); [set_solver|].
    destruct (wfc_match _ _ _ HWC _ _ _ _ Hc) as (_ & o & Hcr).
    assert (v = value call ∧ o = value ret) as [-> ->].
    { pose proof Hc as (p & q & c' & f & Hp & Hq & Hk & Hk' & Hi & Hi' & Hv & _ & He' & Hr)%C_call.
      apply list_elem_of_lookup in Hcall as (pc & Hpc). apply list_elem_of_lookup in Hret as (pr & Hpr).
      assert (pc = p) as -> by (eapply (wfh_unique _ HW); eauto; congruence).
      assert (pr = q) as -> by (eapply (wfh_unique _ HW); eauto; congruence).
      simplify_eq. split; [done|].
      apply C_ret in Hcr as [(q' & ret' & Hq' & _ & _ & Ho & Hqr)|[-> _]];
        [|apply lookup_lt_Some in Hpr; lia].
      assert (q' = q) as -> by lia. by simplify_eq. }
    assert (Hmin : ∀ x, x ∈ L → is_ret C x → (x < e)%nat).
    { intros x Hx (ox & ix & Hox).
      destruct (cl_ret _ _ HL _ _ _ Hx Hox) as (e2 & v2 & He2 & Hc2).
      destruct (wfc_match _ _ _ HWC _ _ _ _ Hc2) as (Hlt2 & _).
      assert (ix ∈ id call :: ids) as [->|Hix]%elem_of_cons.
      { apply Hin. exists e2. split; [done|]. by exists v2, x. }
      - by rewrite (wfc_call_inj _ _ _ HWC _ _ _ _ _ _ _ Hc Hc2).
      - rewrite Forall_forall in Hf. specialize (Hf ix Hix).
        rewrite (precedes_loc _ _ _ _ _ _ _ _ Hc2 Hc) in Hf.
        assert (x ≠ e) by (intros ->; congruence). lia. }
    destruct (IH (del e r L) s') as (sq & t & Hl); [by eapply closed_del|done| |done|done|].
    + intros i. split.
      * intros Hi. destruct (proj1 (Hin i)) as (e2 & He2 & v2 & r2 & Hc2); [set_solver|].
        exists e2. split; [|by exists v2, r2]. apply del_In. split; [done|].
        split; intros ->; [|congruence]. simplify_eq. done.
      * intros (e2 & (He2 & Hne & _)%del_In & v2 & r2 & Hc2).
        assert (i ∈ id call :: ids) as [->|Hi]%elem_of_cons; [|by destruct Hne; eapply wfc_call_inj|done].
        apply Hin. exists e2. split; [done|]. by exists v2, r2.
    + exists (e :: sq), t. by eapply lin_op.
Qed.

(** What a path has consumed. *)
Lemma path_consumed L s sq L' s' :
  steps_total model es → closed C L → lin_path model C L s sq L' s' →
  NoDup sq ∧ (∀ e, e ∈ sq → e ∈ L ∧ e ∉ L') ∧
  ∀ e v r i, e ∈ L → e ∉ L' → C !! e = Some (v, Some r, i) → e ∈ sq.
Proof.
  intros HS HL Hl. pose proof (wf_contents_of_history HS) as HWC.
  induction Hl as [|L s e v r i o s' sq L' s'' He Hc Hcr _ Hst Hl IH].
  - split_and!; [constructor|by intros ? ?%elem_of_nil|done].
  - destruct (IH (closed_del _ _ _ HWC _ _ _ _ _ HL He Hc)) as (Hnd & Hsub & Hcov).
    assert (HL' : ∀ x, x ∈ L' → x ∈ del e r L).
    { clear -Hl. induction Hl as [|L1 s1 e1 v1 r1 i1 o1 t1 sq1 L1' t1' _ _ _ _ _ _ IH1]; [done|].
      intros x Hx%IH1. by apply del_In in Hx as [? _]. }
    split_and!.
    + constructor; [|done]. intros (Hin & _)%Hsub. apply del_In in Hin. tauto.
    + intros e' [->|He']%elem_of_cons.
      * split; [done|]. intros Hin%HL'. apply del_In in Hin. tauto.
      * destruct (Hsub e' He') as [Hin ?]. by apply del_In in Hin as [? _].
    + intros e' v' r' i' Hin Hnin Hc'. apply elem_of_cons.
      destruct (decide (e' = e)); [by left|]. right. eapply Hcov; [|done|done].
      apply del_In. split_and!; [done|done|]. intros ->. congruence.
Qed.

(** Nothing that precedes a consumed call is left out. *)
Lemma path_prefix L s sq L' s' e v r a e2 v2 r2 b :
  steps_total model es → closed C L → lin_path model C L s sq L' s' →
  e ∈ L → C !! e = Some (v, Some r, a) → C !! e2 = Some (v2, Some r2, b) → e2 ∈ sq →
  precedes es a b → e ∈ sq.
Proof.
  intros HS HL Hl He Hc Hc2 He2 Hpr%(precedes_loc _ _ _ _ _ _ _ _ Hc Hc2).
  pose proof (wf_contents_of_history HS) as HWC.
  induction Hl as [|L s e' v' r' i' o' s' sq L' s'' He' Hc' Hcr' Hmin Hst Hl IH];
    [by apply elem_of_nil in He2|].
  apply elem_of_cons. destruct (decide (e = e')) as [|Hne]; [by left|right].
  apply elem_of_cons in He2 as [->|He2].
  - destruct (wfc_match _ _ _ HWC _ _ _ _ Hc) as (_ & o & Hcr).
    specialize (Hmin r (cl_match _ _ HL _ _ _ _ He Hc)).
    assert (r < e')%nat; [apply Hmin; by exists o, a|]. lia.
  - apply IH; [by eapply closed_del| |done]. apply del_In. split_and!; [done|done|]. intros ->. congruence.
Qed.

Lemma partial_of_path sq L s ids :
  steps_total model es → lin_path model C all_locs (Init model) sq L s → Forall2 cid sq ids →
  partial_linearization model es ids.
Proof.
  intros HS Hl Hids. pose proof (wf_contents_of_history HS) as HWC.
  destruct (path_consumed _ _ _ _ _ HS closed_all Hl) as (Hnd & Hsub & Hcov).
  split_and!; [|by eapply order_of_path, Hids; [|apply closed_all|]|by eapply accepts_of_path|].
  - apply NoDup_alt. intros j k i Hj Hk.
    destruct (Forall2_lookup_r _ _ _ _ _ Hids Hj) as (e1 & He1 & v1 & r1 & Hc1).
    destruct (Forall2_lookup_r _ _ _ _ _ Hids Hk) as (e2 & He2 & v2 & r2 & Hc2).
    rewrite (wfc_call_inj _ _ _ HWC _ _ _ _ _ _ _ Hc1 Hc2) in He1. eapply NoDup_lookup; eauto.
  - intros a b (j & Hj)%list_elem_of_lookup Hpr.
    destruct (Forall2_lookup_r _ _ _ _ _ Hids Hj) as (e2 & He2 & v2 & r2 & Hc2).
    assert (∃ e v r, C !! e = Some (v, Some r, a)) as (e & v & r & Hc).
    { destruct Hpr as (p & q & ret & call & Hp & Hk & Hi & _).
      destruct (wfh_called _ HW _ _ Hp Hk) as (p' & c' & Hlt & Hp' & Hk' & Hi').
      pose proof (lookup_lt_Some _ _ _ Hp).
      exists (length es - 1 - p')%nat, (value c'), (length es - 1 - p)%nat. apply C_call.
      exists p', p, c', ret. split_and!; auto with lia; congruence. }
    assert (He : e ∈ sq).
    { eapply (path_prefix _ _ _ _ _ e v r a e2 v2 r2 b); [done|apply closed_all|done| |done|done|by eapply list_elem_of_lookup_2|done].
      pose proof Hc as (p & q & _ & _ & _ & _ & _ & _ & _ & _ & _ & ? & ? & ?)%C_call. apply all_locs_In. lia. }
    apply list_elem_of_lookup in He as (k & Hk).
    destruct (Forall2_lookup_l _ _ _ _ _ Hids Hk) as (i & Hi & v' & r' & Hc'). simplify_eq.
    by eapply list_elem_of_lookup_2.
Qed.

Lemma op_ids_In i : i ∈ op_ids es ↔ ∃ e, e ∈ all_locs ∧ cid e i.
Proof.
  unfold op_ids. rewrite list_elem_of_fmap. split.
  - intros (call & -> & [Hk Hcall]%list_elem_of_filter).
    apply list_elem_of_lookup in Hcall as (p & Hp).
    destruct (wfh_returned _ HW _ _ Hp Hk) as (q & ret & Hlt & Hq & Hkr & Hir).
    pose proof (lookup_lt_Some _ _ _ Hq).
    exists (length es - 1 - p)%nat. split; [apply all_locs_In; lia|].
    exists (value call), (length es - 1 - q)%nat. apply C_call.
    exists p, q, call, ret. split_and!; auto with lia.
  - intros (e & _ & v & r & (p & q & call & ret & Hp & _ & Hk & _ & Hi & _)%C_call).
    exists call. split; [done|]. apply list_elem_of_filter. split; [done|]. by eapply list_elem_of_lookup_2.
Qed.

Lemma op_ids_NoDup : NoDup (op_ids es).
Proof.
  unfold op_ids. apply NoDup_fmap_2_strong.
  - intros e f [Hk (p & Hp)%list_elem_of_lookup]%list_elem_of_filter
      [Hk' (q & Hq)%list_elem_of_lookup]%list_elem_of_filter Hid.
    assert (p = q) by (eapply (wfh_unique _ HW); eauto; congruence). congruence.
  - apply NoDup_filter. apply NoDup_alt. intros p q e Hp Hq. by eapply (wfh_unique _ HW).
Qed.

Theorem lin_path_linearizable :
  steps_total model es →
  (∃ sq s', lin_path model C all_locs (Init model) sq [] s') ↔ linearizable model es.
Proof.
  intros HS. pose proof (wf_contents_of_history HS) as HWC. split.
  - intros (sq & s' & Hl).
    destruct (path_calls _ _ _ _ HS closed_all Hl) as [Hnd Hin].
    assert (∃ ids, Forall2 cid sq ids) as [ids Hids].
    { clear Hnd. assert (Hcid : ∀ e, e ∈ sq → ∃ i, cid e i) by (intros e He; by apply Hin in He as [_ ?]).
      clear -Hcid. induction sq as [|e sq IH]; [by exists []|].
      destruct (Hcid e) as [i Hi]; [set_solver|]. destruct IH as [ids ?]; [intros; apply Hcid; set_solver|].
      exists (i :: ids). by constructor. }
    exists ids. split_and!; [|by eapply order_of_path, Hids; [|apply closed_all|]|by eapply accepts_of_path].
    apply NoDup_Permutation; [|apply op_ids_NoDup|].
    + apply NoDup_alt. intros j k i Hj Hk.
      destruct (Forall2_lookup_r _ _ _ _ _ Hids Hj) as (e1 & He1 & v1 & r1 & Hc1).
      destruct (Forall2_lookup_r _ _ _ _ _ Hids Hk) as (e2 & He2 & v2 & r2 & Hc2).
      rewrite (wfc_call_inj _ _ _ HWC _ _ _ _ _ _ _ Hc1 Hc2) in He1.
      eapply NoDup_lookup; eauto.
    + intros i. rewrite op_ids_In. split.
      * intros (j & Hj)%list_elem_of_lookup.
        destruct (Forall2_lookup_r _ _ _ _ _ Hids Hj) as (e & He & Hc).
        exists e. split; [|done]. by apply list_elem_of_lookup_2, Hin in He as [? _].
      * intros (e & He & Hc). assert (e ∈ sq) as (j & Hj)%list_elem_of_lookup by (apply Hin; eauto).
        destruct (Forall2_lookup_l _ _ _ _ _ Hids Hj) as (i' & Hi' & v' & r' & Hc').
        destruct Hc as (v & r & Hc). simplify_eq. by eapply list_elem_of_lookup_2.
  - intros (ids & Hp & Hord & Hacc). eapply (path_of_order ids); [done|apply closed_all| | |done|done].
    + rewrite Hp. apply op_ids_NoDup.
    + intros i. rewrite Hp. apply op_ids_In.
Qed.
End wf.
End contents.
End Linearizability.
