(* ===== verification/CheckerProof.v ===== *)
(** * The search is correct

    The loop of [checkSingle], run on a heap that represents a well-formed
    partition, explores the configurations of [Search]: it ends, and it ends
    with true exactly when the entries it started from have a linearization. *)
From S2P Require Import Prelude Bitset Porcupine LinkedList Checker Search.
Import Porcupine LinkedList Checker Search.
Local Open Scope Z_scope.

Module CheckerProof.

(** ** The hypotheses the search needs on the model's [Equal]

    [R] relates states that no sequence of steps tells apart; [Equal] must not
    equate more than that. *)
Record equal_ok {V St} (model : Model V St) (eqf : St → St → bool) (R : relation St) : Prop := {
  eo_equal : Equal model = Some eqf;
  eo_equiv : Equivalence R;
  eo_sound a b : eqf a b = true → R a b;
  eo_step s s' v o t : R s s' → Step model s v o = Some (true, t) →
                       ∃ t', Step model s' v o = Some (true, t') ∧ R t t';
}.

Section proof.
Context {V St : Type} (model : Model V St) (eqf : St → St → bool) (R : relation St).
Context (HE : equal_ok model eqf R).
Context (C : list (V * ptr * Z)) (n : Z) (HC : wf_contents model C n) (Hn : 0 ≤ n < 2 ^ 63).
Context (hd : loc) (len0 : nat) (Hlen0 : n ≤ 64 * Z.of_nat len0).
Context (L0 : list loc) (s0 : St).
Context (computePartial : bool).

Abbreviation lin_path := (lin_path model C).
Abbreviation closed := (closed C).

Definition call_id (e : loc) (i : Z) : Prop := ∃ v r, C !! e = Some (v, Some r, i).

(** The bit set [b] holds the ids of the calls that [L] no longer has. *)
Definition brep (b : Bitset.bitset) (L : list loc) : Prop :=
  Bitset.wf b ∧ length b = len0 ∧
  ∀ i, 0 ≤ i → Bitset.mem b i = true ↔ i < n ∧ ¬ ∃ e, e ∈ L ∧ call_id e i.

Definition good (ids : list Z) : Prop :=
  ∃ path L s, lin_path L0 s0 path L s ∧ Forall2 call_id path ids.

Definition longest_ok (lg : list (option nat)) (sq : list (list Z)) : Prop :=
  length lg = Z.to_nat n ∧
  (∀ i r, lg !! i = Some (Some r) → ∃ ids, sq !! r = Some ids ∧ Z.of_nat i ∈ ids) ∧
  Forall good sq.

Definition calls_path (calls : list (callsEntry St)) (path : list loc) : Prop :=
  Forall2 (λ c e, call_entry c = Some e) calls path.

Definition in_cache (c : gmap Z (list (cacheEntry St))) (x : cacheEntry St) : Prop :=
  ∃ k l, c !! k = Some l ∧ x ∈ l.

(** No linearization is left from the configuration of a cache entry. *)
Definition dead (x : cacheEntry St) : Prop :=
  ∀ L, closed L → brep (ce_linearized x) L →
  ∀ s seq s', R (ce_state x) s → ¬ lin_path L s seq [] s'.

(** Every entry of the cache is dead or one of the configurations on the way
    to the current one, which has fewer entries left. *)
Definition cache_ok (L : list loc) (c : gmap Z (list (cacheEntry St))) : Prop :=
  ∀ x, in_cache c x →
  dead x ∨ ∃ La, closed La ∧ brep (ce_linearized x) La ∧ (length L ≤ length La)%nat.

(** The variables represent the configuration [L], [s] reached by [path]. *)
Record rep (L : list loc) (h : heap V) (b : Bitset.bitset) (calls : list (callsEntry St))
    (s : St) (lg : list (option nat)) (sq : list (list Z)) : Prop := {
  rep_closed : closed L;
  rep_dll : dll h (hd :: L);
  rep_contents : contents h = C;
  rep_bits : brep b L;
  rep_path : ∃ path, calls_path calls path ∧ lin_path L0 s0 path L s;
  rep_longest : longest_ok lg sq;
}.

Definition rstep (st st' : vars) : Prop :=
  iteration model computePartial n (Some hd) false st = Some (Next st').

(** ** Bit sets *)

Lemma brep_unique b b' L : brep b L → brep b' L → b = b'.
Proof.
  intros (Hw & Hl & Hm) (Hw' & Hl' & Hm'). apply Bitset.mem_ext; [done|done|congruence|].
  intros q Hq. apply eq_true_iff_eq. rewrite Hm, Hm' by lia. done.
Qed.

Lemma brep_L b L1 L2 : closed L1 → closed L2 → brep b L1 → brep b L2 → L1 = L2.
Proof.
  assert (Hsub : ∀ L L', closed L → closed L' → brep b L → brep b L' → ∀ x, x ∈ L → x ∈ L').
  { intros L L' HL HL' (_ & _ & Hm) (_ & _ & Hm').
    assert (Hcall : ∀ e v r i, e ∈ L → C !! e = Some (v, Some r, i) → e ∈ L').
    { intros e v r i He Hc. pose proof (wfc_id _ _ _ HC _ _ _ _ Hc) as Hi.
      destruct (Bitset.mem b i) eqn:E.
      - apply Hm in E as [_ []]; [|lia]. exists e. split; [done|]. by exists v, r.
      - assert (¬ ¬ ∃ e, e ∈ L' ∧ call_id e i) as Hnn.
        { intros H. apply not_true_iff_false in E. apply E, Hm'; [lia|]. split; [lia|done]. }
        destruct (decide (e ∈ L')) as [|Hne]; [done|]. exfalso. apply Hnn.
        intros (e' & He' & v' & r' & Hc').
        by rewrite (wfc_call_inj _ _ _ HC _ _ _ _ _ _ _ Hc Hc') in Hne. }
    intros x Hx. destruct (cl_dom _ _ HL _ Hx) as [[[v [r|]] i] Hc]; [eauto|].
    destruct (cl_ret _ _ HL _ _ _ Hx Hc) as (e & v' & He & Hce). eapply cl_match; eauto. }
  intros HL1 HL2 Hb1 Hb2. apply sorted_gt_ext; [apply HL1|apply HL2|]. split; eauto.
Qed.

Lemma to_uint_id i : 0 ≤ i < n → to_uint i = i.
Proof. intros. apply wrap_u_id. unfold in_u. lia. Qed.

Lemma brep_pos b L i : brep b L → 0 ≤ i < n → 0 ≤ i < Bitset.cap b.
Proof. intros (_ & Hl & _) ?. unfold Bitset.cap. rewrite Hl. lia. Qed.

(** Linearizing the call [e] sets its bit, giving it up clears it. *)
Lemma brep_set b L e v r i :
  closed L → brep b L → e ∈ L → C !! e = Some (v, Some r, i) →
  ∃ b', Bitset.set b (to_uint i) = Some b' ∧ brep b' (del e r L).
Proof.
  intros HL Hb He Hc. pose proof (wfc_id _ _ _ HC _ _ _ _ Hc) as Hi.
  destruct (Bitset.set_ok b i) as (b' & Hs & Hw & Hl & Hm); [apply Hb|by eapply brep_pos|].
  exists b'. rewrite to_uint_id by done. split; [done|]. split; [done|].
  split; [by rewrite Hl; apply Hb|]. intros j Hj. rewrite Hm by done.
  destruct Hb as (_ & _ & Hm0). case_bool_decide as Ej.
  - subst j. split; [|done]. intros _. split; [lia|].
    intros (e' & (He' & Hne & _)%del_In & v' & r' & Hc'). by eapply Hne, (wfc_call_inj _ _ _ HC).
  - rewrite Hm0 by done. split; intros [? Hno]; (split; [done|]); intros (e' & He' & v' & r' & Hc').
    + apply del_In in He' as [He' _]. apply Hno. exists e'. split; [done|]. by exists v', r'.
    + apply Hno. exists e'. split; [|by exists v', r']. apply del_In. split; [done|].
      split; intros ->; [congruence|].
      destruct (wfc_match _ _ _ HC _ _ _ _ Hc) as (_ & o & ?). congruence.
Qed.

Lemma brep_clear b b' L e v r i :
  closed L → brep b L → e ∈ L → C !! e = Some (v, Some r, i) → brep b' (del e r L) →
  Bitset.clear b' (to_uint i) = Some b.
Proof.
  intros HL Hb He Hc Hb'. pose proof (wfc_id _ _ _ HC _ _ _ _ Hc) as Hi.
  destruct (brep_set b L e v r i HL Hb He Hc) as (b1 & Hs & Hb1).
  rewrite (brep_unique _ _ _ Hb1 Hb') in Hs. rewrite to_uint_id in Hs |- * by done.
  destruct (Bitset.set_ok b i) as (b2 & Hs2 & _ & _ & Hm2); [apply Hb|by eapply brep_pos|].
  assert (b2 = b') as -> by congruence.
  destruct (Bitset.clear_ok b' i) as (b3 & -> & Hw3 & Hl3 & Hm3); [apply Hb'|by eapply brep_pos|].
  f_equal. destruct Hb as (Hw & Hl & Hm), Hb' as (_ & Hl' & _).
  apply Bitset.mem_ext; [done|done|congruence|]. intros q Hq. rewrite Hm3, Hm2 by lia.
  case_bool_decide; [|done]. subst q. symmetry. apply not_true_iff_false.
  rewrite Hm by lia. intros [_ []]. exists e. split; [done|]. by exists v, r.
Qed.

Implicit Types (h : heap V) (L : list loc).

(** ** Nodes of a represented list *)

Lemma node_at h L pre x suf v m i :
  dll h (hd :: L) → contents h = C → L = pre ++ x :: suf → C !! x = Some (v, m, i) →
  ∃ nd, h !! x = Some nd ∧ n_value nd = v ∧ n_match nd = m ∧ n_id nd = i ∧ n_next nd = head suf.
Proof.
  intros Hd Hh -> Hx.
  rewrite <- Hh in Hx. unfold contents in Hx. rewrite list_lookup_fmap_Some in Hx.
  destruct Hx as (nd & ? & Hx). simplify_eq. exists nd. split_and!; try done.
  destruct Hd as [_ Hd]. rewrite app_comm_cons in Hd. apply dseg_app in Hd as [_ Hd].
  simpl in Hd. destruct Hd as (nd' & ? & _ & Hn' & _). simplify_eq. by destruct suf.
Qed.

Lemma head_at h L :
  dll h (hd :: L) → ∃ nd, h !! hd = Some nd ∧ n_next nd = head L.
Proof.
  intros [_ (nd & Hh & _ & Hnx & _)]. exists nd. split; [done|]. by destruct L.
Qed.

Lemma call_id_load h e i :
  contents h = C → call_id e i → ∃ nd, load (Some e) h = Some (nd, h) ∧ n_id nd = i.
Proof.
  intros Hh (v & r & Hc). rewrite <- Hh in Hc. unfold contents in Hc. rewrite list_lookup_fmap_Some in Hc.
  destruct Hc as (nd & ? & Hx). simplify_eq. exists nd. by rewrite run_load with (nd := nd).
Qed.

(** ** The cache *)

Lemma bucketContains_spec l x :
  ∃ f, bucketContains model l x = Some f ∧
       (f = true → ∃ y, y ∈ l ∧ ce_linearized y = ce_linearized x ∧ R (ce_state y) (ce_state x)).
Proof.
  pose proof (eo_equiv _ _ _ HE) as Heqv.
  induction l as [|y l (f & IH & Hf)]; [by exists false|]. simpl.
  assert (Hrest : f = true → ∃ z, z ∈ y :: l ∧ ce_linearized z = ce_linearized x ∧ R (ce_state z) (ce_state x)).
  { intros (z & ? & ?)%Hf. exists z. set_solver. }
  destruct (Bitset.equals _ _) eqn:Eb; [|by exists f].
  rewrite (eo_equal _ _ _ HE). cbn [mbind option_bind].
  destruct (eqf _ _) eqn:Es; [|by exists f].
  exists true. split; [done|]. intros _. exists y. apply Bitset.equals_eq in Eb.
  split; [set_solver|]. split; [done|]. symmetry. by eapply eo_sound.
Qed.

Lemma cacheContains_spec c x :
  ∃ f, cacheContains model c x = Some f ∧
       (f = true → ∃ y, in_cache c y ∧ ce_linearized y = ce_linearized x ∧ R (ce_state y) (ce_state x)).
Proof.
  unfold cacheContains. set (k := Bitset.hash _).
  destruct (bucketContains_spec (default [] (c !! k)) x) as (f & -> & Hf). exists f. split; [done|].
  intros (y & Hy & ?)%Hf. exists y. split; [|done]. exists k.
  destruct (c !! k) as [l|]; simpl in Hy; [by exists l | by apply elem_of_nil in Hy].
Qed.

Lemma in_cache_insert c k x y :
  in_cache (<[k := default [] (c !! k) ++ [x]]> c) y → in_cache c y ∨ y = x.
Proof.
  intros (k' & l & Hl & Hy). destruct (decide (k = k')) as [->|].
  - rewrite lookup_insert_eq in Hl. simplify_eq.
    apply elem_of_app in Hy as [Hy|Hy]; [|set_solver]. left.
    destruct (c !! k') as [l|] eqn:E; simpl in Hy; [by exists k', l|by apply elem_of_nil in Hy].
  - rewrite lookup_insert_ne in Hl by done. left. by exists k', l.
Qed.

(** ** The partial linearizations *)

Lemma calls_ids_ok h calls path ids :
  contents h = C → calls_path calls path → Forall2 call_id path ids →
  calls_ids h calls = Some ids.
Proof.
  intros Hh Hp Hi. revert ids Hi. induction Hp as [|c e calls path Hc Hp IH];
    intros ids Hi; inversion Hi as [|? i ? ids' Hid Hi']; subst; [done|].
  unfold calls_ids in *. cbn [mapM]. rewrite Hc.
  destruct (call_id_load h e i) as (nd & -> & Hnid); [done|done|]. cbn [mbind option_bind].
  by rewrite Hnid, (IH _ Hi').
Qed.

Lemma call_id_bound e i : call_id e i → 0 ≤ i < n.
Proof. intros (v & r & Hc). by eapply wfc_id. Qed.

Lemma update_longest_ok h calls path ids vs pathv seq lg sq :
  contents h = C → calls_path calls path → Forall2 call_id path ids → good ids →
  calls_path vs pathv → (∀ e, e ∈ pathv → e ∈ path) →
  (∀ r, seq = Some r → sq !! r = Some ids) → longest_ok lg sq →
  ∃ lg' sq', update_longest h calls vs seq lg sq = Some (lg', sq') ∧ longest_ok lg' sq'.
Proof.
  intros Hh Hp Hi Hg Hv. revert seq lg sq.
  induction Hv as [|c e vs pathv Hc Hv IH]; intros seq lg sq Hsub Hseq Hl; [eauto|].
  assert (∃ i, call_id e i ∧ i ∈ ids) as (i & Hid & Hin).
  { assert (e ∈ path) as (j & Hj)%list_elem_of_lookup by (apply Hsub; set_solver).
    destruct (Forall2_lookup_l _ _ _ _ _ Hi Hj) as (i & Hij & ?). exists i.
    split; [done|]. by eapply list_elem_of_lookup_2. }
  pose proof (call_id_bound _ _ Hid) as Hb.
  cbn [update_longest]. rewrite Hc.
  destruct (call_id_load h e i) as (nd & -> & Hnid); [done|done|]. cbn [mbind option_bind]. rewrite Hnid.
  assert (is_Some (go_index lg i)) as [old Hold].
  { apply go_index_bound. destruct Hl as [-> _]. lia. }
  rewrite Hold. cbn [mbind option_bind].
  assert (Hshort : ∃ f, match old with
                | None => Some true
                | Some r => old_seq ← sq !! r;
                            Some (Z.of_nat (length old_seq) <? Z.of_nat (length calls))
                end = Some f).
  { destruct old as [r|]; [|eauto]. apply go_index_Some in Hold as [_ Hold].
    destruct Hl as (_ & Hr & _). destruct (Hr _ _ Hold) as (old & -> & _). cbn. eauto. }
  destruct Hshort as (f & ->). cbn [mbind option_bind].
  assert (Hsub' : ∀ e, e ∈ pathv → e ∈ path) by (intros; apply Hsub; set_solver).
  destruct f; [|by apply IH].
  assert (Hnew : ∃ r sq', match seq with
                     | Some r => Some (r, sq)
                     | None => ids ← calls_ids h calls; Some (length sq, sq ++ [ids])
                     end = Some (r, sq') ∧ sq' !! r = Some ids ∧ Forall good sq' ∧
                     ∀ r' ids', sq !! r' = Some ids' → sq' !! r' = Some ids').
  { destruct seq as [r|].
    - exists r, sq. split_and!; auto. apply Hl.
    - rewrite (calls_ids_ok _ _ _ _ Hh Hp Hi). cbn [mbind option_bind]. eexists _, _. split; [done|].
      split; [by rewrite lookup_app_r, Nat.sub_diag by lia|].
      split; [apply Forall_app; split; [apply Hl|by constructor]|].
      intros r' ids' Hr'. by apply lookup_app_l_Some. }
  destruct Hnew as (r & sq' & -> & Hr & Hgood & Hext). cbn [mbind option_bind].
  assert (go_update lg i (Some r) = Some (<[Z.to_nat i := Some r]> lg)) as ->.
  { apply go_update_Some. destruct Hl as [-> _]. split; [lia|done]. }
  cbn [mbind option_bind]. apply IH; [done|by intros ? [= ->]|].
  destruct Hl as (Hlen & Hl & _). split; [by rewrite length_insert|]. split; [|done].
  intros j r' Hj. destruct (decide (Z.to_nat i = j)) as [<-|Hne].
  - rewrite list_lookup_insert_eq in Hj by lia. simplify_eq. exists ids.
    split; [done|]. by rewrite Z2Nat.id by lia.
  - rewrite list_lookup_insert_ne in Hj by done. destruct (Hl _ _ Hj) as (ids' & ? & ?). eauto.
Qed.

Lemma lin_path_ids L s seq L' s' : lin_path L s seq L' s' → ∃ ids, Forall2 call_id seq ids.
Proof.
  induction 1 as [|L s e v r i o s' seq L' s'' He Hc _ _ _ _ (ids & IH)]; [by exists []|].
  exists (i :: ids). constructor; [|done]. by exists v, r.
Qed.

(** ** One iteration *)

Lemma iteration_node h b c calls s lg sq L pre x suf v m i :
  rep L h b calls s lg sq → L = pre ++ x :: suf → C !! x = Some (v, m, i) →
  ∃ nd, n_value nd = v ∧ n_match nd = m ∧ n_id nd = i ∧ n_next nd = head suf ∧ h !! x = Some nd ∧
  iteration model computePartial n (Some hd) false (Vars h (Some x) b c calls s lg sq) =
  match m with
  | Some _ => try_call model (Some hd) nd (Vars h (Some x) b c calls s lg sq)
  | None => backtrack computePartial (Vars h (Some x) b c calls s lg sq)
  end.
Proof.
  intros Hr HL Hx.
  destruct (node_at h L pre x suf v m i) as (nd & Hnd & Hv & Hm & Hi & Hnx); [apply Hr|apply Hr|done|done|].
  destruct (head_at h L) as (nh & Hnh & Hhnx); [apply Hr|].
  exists nd. split_and!; try done.
  unfold iteration. cbn [v_heap v_entry]. rewrite (run_load _ _ _ Hnh). cbn [mbind option_bind].
  rewrite Hhnx. assert (∃ y, head L = Some y) as [y ->] by (rewrite HL; destruct pre; simpl; eauto).
  rewrite (run_load _ _ _ Hnd). cbn [mbind option_bind]. by rewrite Hm.
Qed.

(** A call that the model rejects, or that leads to a known configuration, is skipped. *)
Lemma rstep_skip h b c calls s lg sq L pre e suf v r i o ok t :
  rep L h b calls s lg sq → L = pre ++ e :: suf →
  C !! e = Some (v, Some r, i) → C !! r = Some (o, None, i) →
  Step model s v o = Some (ok, t) →
  (ok = true → ∃ b', Bitset.set b (to_uint i) = Some b' ∧
                     cacheContains model c (CacheEntry b' t) = Some true) →
  rstep (Vars h (Some e) b c calls s lg sq) (Vars h (head suf) b c calls s lg sq).
Proof.
  intros Hr HL Hc Hcr Hst Hok. unfold rstep.
  destruct (iteration_node h b c calls s lg sq L pre e suf _ _ _ Hr HL Hc)
    as (nd & Hv & Hm & Hi & Hnx & Hnd & ->).
  assert (∃ pre' suf', L = pre' ++ r :: suf') as (pre' & suf' & HL').
  { apply list_elem_of_split. eapply cl_match; [apply Hr| |done]. rewrite HL. set_solver. }
  destruct (node_at h L pre' r suf' o None i) as (nr & Hnr & Hvr & _ & _ & _); [apply Hr|apply Hr|done..|].
  unfold try_call. cbn [v_heap v_entry v_linearized v_cache v_calls v_state v_longest v_seqs].
  rewrite Hm, (run_load _ _ _ Hnr). cbn [mbind option_bind]. rewrite Hv, Hvr, Hst. cbn [mbind option_bind].
  rewrite Hnx. destruct ok; [|done]. destruct (Hok eq_refl) as (b' & Hb' & Hf).
  rewrite Bitset.clone_eq, Hi, Hb'. cbn [mbind option_bind]. by rewrite Hf.
Qed.

(** A call the model accepts into a new configuration is linearized. *)
Lemma rstep_push h b c calls s lg sq L pre e suf v r i o t :
  rep L h b calls s lg sq → L = pre ++ e :: suf → (∀ x, x ∈ pre → ¬ is_ret C x) →
  C !! e = Some (v, Some r, i) → C !! r = Some (o, None, i) →
  Step model s v o = Some (true, t) →
  ∃ b', Bitset.set b (to_uint i) = Some b' ∧ brep b' (del e r L) ∧
  (cacheContains model c (CacheEntry b' t) = Some false →
   ∃ h' c',
     rstep (Vars h (Some e) b c calls s lg sq)
           (Vars h' (head (del e r L)) b' c' (calls ++ [CallsEntry (Some e) s]) t lg sq) ∧
     rep (del e r L) h' b' (calls ++ [CallsEntry (Some e) s]) t lg sq ∧
     unlift (Some e) h' = Some (tt, h) ∧
     (∀ x, in_cache c' x → in_cache c x ∨ x = CacheEntry b' t)).
Proof.
  intros Hr HL Hpre Hc Hcr Hst.
  assert (He : e ∈ L) by (rewrite HL; set_solver).
  destruct (brep_set b L e v r i) as (b' & Hb' & Hbr); [apply Hr|apply Hr|done|done|].
  exists b'. split; [done|]. split; [done|]. intros Hf.
  destruct (iteration_node h b c calls s lg sq L pre e suf _ _ _ Hr HL Hc)
    as (nd & Hv & Hm & Hi & Hnx & Hnd & Hit).
  destruct (closed_split model C n HC L e v r i) as (l1 & l2 & l3 & HL2 & Hdel); [apply Hr|done|done|].
  destruct (node_at h L (l1 ++ e :: l2) r l3 o None i) as (nr & Hnr & Hvr & _ & _ & _);
    [apply Hr|apply Hr|by rewrite HL2; simplify_list_eq|done|].
  destruct (@exists_last _ (hd :: l1)) as (l0 & p & Hl0); [done|].
  destruct (lift_unlift h l0 p e l2 r l3 nd) as (h' & Hlift & Hd' & Hcont & Hun).
  { replace (l0 ++ p :: e :: l2 ++ r :: l3) with (hd :: L); [apply Hr|].
    rewrite HL2. change (hd :: l1 ++ e :: l2 ++ r :: l3) with ((hd :: l1) ++ e :: l2 ++ r :: l3).
    rewrite Hl0. by simplify_list_eq. }
  { done. } { done. }
  replace (l0 ++ p :: l2 ++ l3) with (hd :: del e r L) in Hd'; last first.
  { rewrite Hdel. change (hd :: l1 ++ l2 ++ l3) with ((hd :: l1) ++ l2 ++ l3). rewrite Hl0. by simplify_list_eq. }
  destruct (head_at h' _ Hd') as (nh & Hnh & Hnhx).
  set (k := Bitset.hash b').
  exists h', (<[k := default [] (c !! k) ++ [CacheEntry b' t]]> c).
  split; [|split; [|split]].
  - unfold rstep. rewrite Hit.
    unfold try_call. cbn [v_heap v_entry v_linearized v_cache v_calls v_state v_longest v_seqs].
    rewrite Hm, (run_load _ _ _ Hnr). cbn [mbind option_bind]. rewrite Hv, Hvr, Hst. cbn [mbind option_bind].
    rewrite Bitset.clone_eq, Hi, Hb'. cbn [mbind option_bind]. rewrite Hf. cbn [mbind option_bind negb].
    rewrite Hlift. cbn [mbind option_bind]. rewrite (run_load _ _ _ Hnh). cbn [mbind option_bind].
    by rewrite Hnhx.
  - destruct Hr as [HLc Hd Hh Hb (path & Hp & Hl) Hlg]. split; [by eapply closed_del|done|congruence|done| |done].
    exists (path ++ [e]). split; [apply Forall2_app; [done|by constructor]|].
    eapply lin_path_snoc; [done|done|done|done| |done].
    intros x Hx Hxr. apply (cl_sorted _ _) in HLc. rewrite HL in HLc, Hx.
    apply elem_of_app in Hx as [Hx|Hx]; [by apply Hpre in Hx|].
    apply elem_of_cons in Hx as [->|Hx]; [by eapply not_call_ret in Hc|].
    apply StronglySorted_app_1_r, StronglySorted_cons in HLc as [HLc _].
    rewrite Forall_forall in HLc. apply HLc in Hx. lia.
  - done.
  - intros x. apply in_cache_insert.
Qed.

(** A return gives up the last call and goes on after it. *)
Lemma rstep_backtrack h h' b b' c calls s t lg sq L pre e suf v r i y :
  rep L h b calls s lg sq → L = pre ++ e :: suf →
  C !! e = Some (v, Some r, i) →
  rep (del e r L) h' b' (calls ++ [CallsEntry (Some e) s]) t lg sq →
  unlift (Some e) h' = Some (tt, h) → y ∈ del e r L → is_ret C y →
  ∃ lg' sq',
    rstep (Vars h' (Some y) b' c (calls ++ [CallsEntry (Some e) s]) t lg sq)
          (Vars h (head suf) b c calls s lg' sq') ∧
    longest_ok lg' sq'.
Proof.
  intros Hr HL Hc Hr' Hun (pre' & suf' & HL')%list_elem_of_split (oy & iy & Hy).
  destruct (iteration_node h b c calls s lg sq L pre e suf _ _ _ Hr HL Hc)
    as (nd & _ & _ & Hi & Hnx & Hnd & _).
  destruct (contents_lookup h h' e nd) as (nd' & Hnd' & _ & _ & Hi');
    [by rewrite (rep_contents _ _ _ _ _ _ _ Hr), (rep_contents _ _ _ _ _ _ _ Hr')|done|].
  destruct (iteration_node h' b' c (calls ++ [CallsEntry (Some e) s]) t lg sq _ pre' y suf' _ _ _ Hr' HL' Hy)
    as (_ & _ & _ & _ & _ & _ & Hit).
  assert (Hlen : length (calls ++ [CallsEntry (Some e) s]) = S (length calls))
    by (rewrite length_app; simpl; lia).
  assert (Hul : ∃ lg' sq', (if computePartial
            then update_longest h' (calls ++ [CallsEntry (Some e) s]) (calls ++ [CallsEntry (Some e) s]) None lg sq
            else Some (lg, sq)) = Some (lg', sq') ∧ longest_ok lg' sq').
  { destruct computePartial; [|exists lg, sq; split; [done|apply Hr]].
    destruct (rep_path _ _ _ _ _ _ _ Hr') as (path & Hp & Hl).
    destruct (lin_path_ids _ _ _ _ _ Hl) as (ids & Hids).
    eapply update_longest_ok; [apply Hr'|done|done| |done|done|done|apply Hr'].
    by exists path, (del e r L), t. }
  destruct Hul as (lg' & sq' & Hul & Hlg). exists lg', sq'. split; [|done].
  unfold rstep. rewrite Hit. unfold backtrack.
  cbn [v_heap v_entry v_linearized v_cache v_calls v_state v_longest v_seqs].
  rewrite Hlen. z_tests. rewrite Hul. cbn [mbind option_bind].
  assert (go_index (calls ++ [CallsEntry (Some e) s]) (Z.of_nat (S (length calls)) - 1)
          = Some (CallsEntry (Some e) s)) as ->.
  { replace (Z.of_nat (S (length calls)) - 1) with (Z.of_nat (length calls)) by lia.
    rewrite go_index_nat, lookup_app_r, Nat.sub_diag by lia. done. }
  cbn [mbind option_bind call_entry call_state]. rewrite (run_load _ _ _ Hnd'). cbn [mbind option_bind].
  rewrite Hi', Hi.
  rewrite (brep_clear b b' L e v r i);
    [|apply Hr|apply Hr|rewrite HL; set_solver|done|apply Hr'].
  cbn [mbind option_bind]. rewrite Hun. cbn [mbind option_bind].
  rewrite (run_load _ _ _ Hnd). cbn [mbind option_bind]. rewrite Hnx.
  replace (S (length calls) - 1)%nat with (length calls) by lia. by rewrite take_app_length.
Qed.

(** ** The whole search from a configuration *)

Definition succeeds (st : vars) : Prop :=
  ∃ h y b c calls t lg sq,
    rtc rstep st (Vars h y b c calls t lg sq) ∧ rep [] h b calls t lg sq.

(** The search reaches a return without having found anything: the variables
    are as they were, but for the cache and the partial linearizations. *)
Definition gives_up (L : list loc) (suf : list loc) (h : heap V) (b : Bitset.bitset)
    (c : gmap Z (list (cacheEntry St))) (calls : list (callsEntry St)) (s : St)
    (st : vars) : Prop :=
  ∃ y c' lg sq,
    rtc rstep st (Vars h (Some y) b c' calls s lg sq) ∧ y ∈ L ∧ is_ret C y ∧ longest_ok lg sq ∧
    (∀ x, in_cache c' x → in_cache c x ∨ dead x) ∧
    ∀ e seq s', e ∈ suf → ¬ lin_path L s (e :: seq) [] s'.

Definition search_ok (L : list loc) : Prop :=
  ∀ suf pre h b c calls s lg sq,
    rep L h b calls s lg sq → L = pre ++ suf → L ≠ [] → (∀ x, x ∈ pre → ¬ is_ret C x) → cache_ok L c →
    let st := Vars h (head suf) b c calls s lg sq in
    succeeds st ∨ gives_up L suf h b c calls s st.

Lemma succeeds_rtc st st' : rtc rstep st st' → succeeds st' → succeeds st.
Proof.
  intros Hst (h & y & b & c & calls & t & lg & sq & Hr & ?).
  exists h, y, b, c, calls, t, lg, sq. split; [by etrans|done].
Qed.

Lemma gives_up_rtc L e suf h b c c1 calls s st st' :
  rtc rstep st st' → (∀ x, in_cache c1 x → in_cache c x ∨ dead x) →
  (∀ seq s', ¬ lin_path L s (e :: seq) [] s') →
  gives_up L suf h b c1 calls s st' → gives_up L (e :: suf) h b c calls s st.
Proof.
  intros Hst Hc He (y & c' & lg & sq & Hr & Hy & Hret & Hlg & Hc' & Hno).
  exists y, c', lg, sq. split_and!; try done; [by etrans|..].
  - intros x [Hx|?]%Hc'; auto.
  - intros e' seq s' [->|?]%elem_of_cons; [done|by apply Hno].
Qed.

(** The model's step on a call decides every linearization that starts with it. *)
Lemma lin_path_inv L s e seq s' v r i o :
  lin_path L s (e :: seq) [] s' → C !! e = Some (v, Some r, i) → C !! r = Some (o, None, i) →
  ∃ t, Step model s v o = Some (true, t) ∧ lin_path (del e r L) t seq [] s'.
Proof. inversion 1; intros; simplify_eq. eauto. Qed.

Lemma cache_ok_ext L c c' :
  cache_ok L c → (∀ x, in_cache c' x → in_cache c x ∨ dead x) → cache_ok L c'.
Proof. intros Hc Hc' x [?|?]%Hc'; auto. Qed.

Lemma dead_no_lin b t L s' : 
  closed L → brep b L → (∀ seq s', ¬ lin_path L t seq [] s') → s' = CacheEntry b t → dead s'.
Proof.
  intros HL Hb Hno -> L' HL' Hb' s seq u HRs Hl. cbn [ce_state ce_linearized] in *.
  rewrite (brep_L _ _ _ HL' HL Hb' Hb) in Hl. pose proof (eo_equiv _ _ _ HE).
  destruct (lin_path_equiv model C R (eo_step _ _ _ HE) _ _ _ _ _ t Hl) as (? & Hl' & _);
    [by symmetry|]. by eapply Hno.
Qed.

(** A call the search tries: either it finds a linearization through it or it
    comes back to the entry after the call. *)
Lemma search_call L suf pre h b c calls s lg sq e v r i :
  (∀ L', (length L' < length L)%nat → search_ok L') →
  rep L h b calls s lg sq → L = pre ++ e :: suf → (∀ x, x ∈ pre → ¬ is_ret C x) → cache_ok L c →
  C !! e = Some (v, Some r, i) →
  let st := Vars h (Some e) b c calls s lg sq in
  succeeds st ∨
  ∃ c' lg' sq',
    rtc rstep st (Vars h (head suf) b c' calls s lg' sq') ∧ longest_ok lg' sq' ∧
    (∀ x, in_cache c' x → in_cache c x ∨ dead x) ∧
    ∀ seq s', ¬ lin_path L s (e :: seq) [] s'.
Proof.
  intros IH Hr HL Hpre Hc Hce st.
  destruct (wfc_match _ _ _ HC _ _ _ _ Hce) as (_ & o & Hcr).
  destruct (wfc_step _ _ _ HC _ _ _ _ _ s Hce Hcr) as [[[] t] Hst]; last first.
  { (* the model rejects the call *)
    right. exists c, lg, sq. split; [|split; [apply Hr|split; [auto|]]].
    - eapply rtc_once, rstep_skip; done.
    - intros seq s' Hl. destruct (lin_path_inv _ _ _ _ _ v r i o Hl) as (t' & ? & _); [done|done|congruence]. }
  assert (He : e ∈ L) by (rewrite HL; set_solver).
  pose proof (closed_del model C n HC e v r i L (rep_closed _ _ _ _ _ _ _ Hr) He Hce) as HdL.
  pose proof (closed_del_length model C n HC L e v r i (rep_closed _ _ _ _ _ _ _ Hr) He Hce) as Hlen.
  destruct (rstep_push h b c calls s lg sq L pre e suf v r i o t) as (b' & Hb' & Hbr & Hpush); [done..|].
  assert (Hdead : (∀ seq s', ¬ lin_path (del e r L) t seq [] s') →
                  ∀ seq s', ¬ lin_path L s (e :: seq) [] s').
  { intros Hno seq s' Hl. destruct (lin_path_inv _ _ _ _ _ v r i o Hl) as (t' & ? & Hl'); [done|done|].
    simplify_eq. by eapply Hno. }
  destruct (cacheContains_spec c (CacheEntry b' t)) as (f & Hf & Hfound). destruct f.
  { (* the configuration is in the cache *)
    right. exists c, lg, sq. split; [|split; [apply Hr|split; [auto|]]].
    - eapply rtc_once, rstep_skip; try done. intros _. eauto.
    - apply Hdead. destruct (Hfound eq_refl) as (x & Hx & Hxb & HxR). simpl in Hxb, HxR.
      destruct (Hc x Hx) as [Hd|(La & HLa & Hbra & Hle)].
      + intros seq s'. eapply Hd; [done|by rewrite Hxb|done].
      + rewrite Hxb in Hbra. rewrite (brep_L _ _ _ HLa HdL Hbra Hbr) in Hle. lia. }
  destruct (Hpush Hf) as (h' & c1 & Hstep & Hr' & Hun & Hc1). clear Hpush Hfound.
  destruct (decide (del e r L = [])) as [Enil|Hne].
  { left. eapply succeeds_rtc; [by apply rtc_once|]. rewrite Enil in *.
    exists h', None, b', c1, (calls ++ [CallsEntry (Some e) s]), t, lg, sq. split; [done|done]. }
  destruct (IH (del e r L) ltac:(lia) (del e r L) [] h' b' c1 (calls ++ [CallsEntry (Some e) s]) t lg sq)
    as [Hsucc|(y & c2 & lg' & sq' & Hrun & Hy & Hyr & Hlg & Hc2 & Hno)]; try done.
  { by intros x ?%elem_of_nil. }
  { intros x [Hx| ->]%Hc1.
    - destruct (Hc x Hx) as [?|(La & ? & ? & ?)]; [by left|]. right. exists La. split_and!; [done|done|lia].
    - right. exists (del e r L). done. }
  - left. eapply succeeds_rtc; [by apply rtc_once|done].
  - right.
    assert (Hr2 : rep (del e r L) h' b' (calls ++ [CallsEntry (Some e) s]) t lg' sq').
    { destruct Hr'. by split. }
    destruct (rstep_backtrack h h' b b' c2 calls s t lg' sq' L pre e suf v r i y)
      as (lg2 & sq2 & Hback & Hlg2); try done.
    { destruct Hr. by split. }
    exists c2, lg2, sq2. split; [|split; [done|]].
    + eapply rtc_l; [done|]. etrans; [done|]. by apply rtc_once.
    + assert (Hnone : ∀ seq s', ¬ lin_path (del e r L) t seq [] s').
      { intros [|e' seq] s' Hl; [by inversion Hl|]. eapply Hno; [|done]. by inversion Hl. }
      split; [|by apply Hdead].
      intros x [Hx|?]%Hc2; [|by right]. apply Hc1 in Hx as [?|Hx]; [by left|]. right. by eapply dead_no_lin.
Qed.

Lemma search_from L : search_ok L.
Proof.
  induction L as [L IH] using (induction_ltof1 _ (@length loc)). unfold ltof in IH.
  intros suf. induction suf as [|x suf IHs]; intros pre h b c calls s lg sq Hr HL Hne Hpre Hc st.
  { exfalso. rewrite app_nil_r in HL. subst pre.
    destruct (closed_has_ret model C n HC L) as (r & Hin & Hret); [apply Hr|done|]. by eapply Hpre. }
  destruct (cl_dom _ _ (rep_closed _ _ _ _ _ _ _ Hr) x) as [[[v [r|]] i] Hx]; [rewrite HL; set_solver|..].
  - destruct (search_call L suf pre h b c calls s lg sq x v r i)
      as [Hsucc|(c' & lg' & sq' & Hrun & Hlg & Hc' & Hno)]; [done..|by left|].
    assert (Hr' : rep L h b calls s lg' sq') by (destruct Hr; by split).
    assert (Hpre' : ∀ z, z ∈ pre ++ [x] → ¬ is_ret C z).
    { intros z [?|Hz]%elem_of_app; [by apply Hpre|]. apply list_elem_of_singleton in Hz as ->.
      by eapply not_call_ret. }
    destruct (IHs (pre ++ [x]) h b c' calls s lg' sq') as [Hsucc|Hgive]; try done.
    { by simplify_list_eq. } { by eapply cache_ok_ext. }
    + left. by eapply succeeds_rtc.
    + right. by eapply gives_up_rtc.
  - right. assert (Hret : is_ret C x) by by exists v, i.
    assert (Hin : x ∈ L) by (rewrite HL; set_solver).
    exists x, c, lg, sq. split_and!; [done|done|done|apply Hr|auto|].
    intros e seq s' He Hl. inversion Hl as [|? ? ? v' r' i' o ? ? ? ? HeL Hce Hcr Hmin]; subst.
    specialize (Hmin x Hin Hret). apply elem_of_cons in He as [->|He]; [lia|].
    pose proof (cl_sorted _ _ (rep_closed _ _ _ _ _ _ _ Hr)) as Hsrt.
    apply StronglySorted_app_1_r, StronglySorted_cons in Hsrt as [Hsrt _].
    rewrite Forall_forall in Hsrt. apply Hsrt in He. lia.
Qed.
End proof.
End CheckerProof.
