(* ===== verification/CheckSingle.v ===== *)
(** * [checkSingle] decides linearizability

    The list [makeLinkedEntries] builds represents the history, so the search
    of [CheckerProof] applies to it; its result is carried over to the
    linearizability of the history. *)
From S2P Require Import Prelude Bitset Porcupine LinkedList Checker Search Linearizability CheckerProof.
Import Porcupine LinkedList Checker Search Linearizability CheckerProof.
Local Open Scope Z_scope.

Module CheckSingle.

Section link.
Context {V : Type}.
Implicit Types (h : heap V) (es : list (entry V)).

Definition locs (k : nat) : list loc := rev (seq 0 k).

Lemma locs_S k : locs (S k) = k :: locs k.
Proof. unfold locs. by rewrite seq_S, rev_app_distr. Qed.

Lemma locs_lt k x : x ∈ locs k → (x < k)%nat.
Proof. unfold locs. rewrite list_elem_of_In, <- in_rev, in_seq. lia. Qed.

Lemma contents_app h nd : contents (h ++ [nd]) = contents h ++ [(n_value nd, n_match nd, n_id nd)].
Proof. unfold contents. by rewrite fmap_app. Qed.

Lemma dseg_app_heap h h' p l q : dseg h p l q → dseg (h ++ h') p l q.
Proof.
  revert p. induction l as [|x l IH]; intros p; simpl; [done|].
  intros (nd & Hx & ? & ? & ?). exists nd. split_and!; auto. by apply lookup_app_l_Some.
Qed.

(** A fresh node put in front of the list. *)
Lemma insertBefore_ok h v m i :
  dll h (locs (length h)) →
  let h1 := h ++ [Node v m i None None] in
  ∃ h2, insertBefore (Some (length h)) (head (locs (length h))) h1 = Some (Some (length h), h2) ∧
        dll h2 (locs (S (length h))) ∧ contents h2 = contents h ++ [(v, m, i)].
Proof.
  intros [Hnd Hd] h1.
  assert (Hnew : h1 !! length h = Some (Node v m i None None)) by by apply list_lookup_middle.
  destruct (length h) as [|k] eqn:E.
  - exists h1. unfold insertBefore. simpl. split; [done|]. split.
    + split; [apply NoDup_singleton|]. simpl. eexists. rewrite Hnew. done.
    + unfold h1. by rewrite contents_app.
  - rewrite locs_S in Hd |- *. simpl in Hd. destruct Hd as (nk & Hk & Hkp & Hkn & Hd).
    assert (Hk1 : h1 !! k = Some nk) by by apply lookup_app_l_Some.
    unfold insertBefore. cbn [head].
    exists (upd_opt (upd_next (Some k)) (Some (S k)) (upd_opt (upd_prev (Some (S k))) (Some k) h1)).
    split; [|split].
    + eapply run_bind; [by apply run_load|]. cbn beta zeta. rewrite Hkp.
      eapply run_bind; [apply run_set_prev; eauto|].
      eapply run_bind; [apply run_set_next, alter_is_Some; eauto|]. done.
    + split.
      * rewrite locs_S, locs_S. constructor; [|by rewrite <- locs_S].
        rewrite <- locs_S. intros ?%locs_lt. lia.
      * rewrite locs_S, locs_S. cbn [upd_opt]. simpl.
        eexists. rewrite list_lookup_alter_eq, list_lookup_alter_ne, Hnew by lia.
        split_and!; [done|done|done|].
        eexists. rewrite list_lookup_alter_ne, list_lookup_alter_eq, Hk1 by lia.
        split_and!; [done|done|done|].
        apply dseg_alter; [intros ?%locs_lt; lia|]. apply dseg_alter; [intros ?%locs_lt; lia|].
        by apply dseg_app_heap.
    + cbn [upd_opt]. rewrite !contents_alter by done. unfold h1. by rewrite contents_app.
Qed.

Definition linked (es : list (entry V)) (h : heap V) (root : ptr) (m : gmap Z ptr) : Prop :=
  length h = length es ∧ contents h = cont es ∧ dll h (locs (length h)) ∧
  root = head (locs (length h)) ∧ ∀ i, default None (m !! i) = ret_loc es i.

Lemma makeLinkedEntries_loop_ok rl es h root m :
  linked es h root m →
  ∃ h' root' m', makeLinkedEntries_loop rl root m h = Some (root', h') ∧ linked (rev rl ++ es) h' root' m'.
Proof.
  revert es h root m. induction rl as [|e rl IH]; intros es h root m HL; [by exists h, root, m|].
  destruct HL as (Hlen & Hc & Hd & -> & Hm).
  assert (Hnext : ∀ mt m', node_contents e es = (value e, mt, id e) →
     (∀ i, default None (m' !! i) = ret_loc (e :: es) i) →
     ∃ h' root' m'', (_ ← insertBefore (Some (length h)) (head (locs (length h)));
        makeLinkedEntries_loop rl (Some (length h)) m') (h ++ [Node (value e) mt (id e) None None])
        = Some (root', h') ∧ linked (rev (e :: rl) ++ es) h' root' m'').
  { intros mt m' Hnc Hm'.
    destruct (insertBefore_ok h (value e) mt (id e) Hd) as (h2 & Hins & Hd2 & Hc2).
    assert (Hlen2 : length h2 = S (length h)).
    { apply (f_equal length) in Hc2. unfold contents in Hc2. rewrite length_app, !length_fmap in Hc2.
      simpl in Hc2. lia. }
    destruct (IH (e :: es) h2 (Some (length h)) m') as (h' & root' & m'' & Hrun & HL').
    { split_and!; [simpl; lia| |by rewrite Hlen2|by rewrite Hlen2, locs_S|done].
      by rewrite Hc2, Hc, <- Hnc. }
    exists h', root', m''. split; [by eapply run_bind|].
    simpl. by rewrite <- app_assoc. }
  cbn [makeLinkedEntries_loop]. unfold node_contents in Hnext.
  destruct (Bool.eqb (kind e) returnEntry) eqn:Ek.
  - destruct (Hnext None (<[id e := Some (length h)]> m)) as (h' & root' & m'' & Hrun & HL'); [done| |].
    { intros i. simpl. rewrite Ek. destruct (Z.eqb_spec (id e) i) as [->|Hne]; simpl.
      - by rewrite lookup_insert_eq, Hlen.
      - by rewrite lookup_insert_ne by done. }
    exists h', root', m''. split; [|done]. eapply run_bind; [done|]. cbn zeta. exact Hrun.
  - destruct (Hnext (ret_loc es (id e)) m) as (h' & root' & m'' & Hrun & HL'); [done| |].
    { intros i. simpl. by rewrite Ek, Hm. }
    exists h', root', m''. split; [|done]. eapply run_bind; [done|]. rewrite Hm. exact Hrun.
Qed.

Lemma makeLinkedEntries_ok es :
  ∃ h, makeLinkedEntries es [] = Some (head (locs (length es)), h) ∧
       length h = length es ∧ contents h = cont es ∧ dll h (locs (length es)).
Proof.
  destruct (makeLinkedEntries_loop_ok (rev es) [] [] None ∅) as (h & root & m & Hrun & HL).
  { split_and!; [done|done|split; [constructor|done]|done|]. intros i. by rewrite lookup_empty. }
  rewrite rev_involutive, app_nil_r in HL. destruct HL as (Hlen & Hc & Hd & -> & _).
  exists h. rewrite Hlen in *. done.
Qed.

Lemma list_length_ok h p l acc fuel :
  dseg h p l None → (length l < fuel)%nat → list_length fuel h (head l) acc = Some (acc + Z.of_nat (length l)).
Proof.
  revert p acc fuel. induction l as [|x l IH]; intros p acc fuel Hd Hf.
  - destruct fuel; simpl; f_equal; lia.
  - destruct fuel as [|fuel]; [simpl in Hf; lia|]. simpl in Hd, Hf. destruct Hd as (nd & Hx & _ & Hn & Hd).
    cbn [list_length head]. rewrite (run_load _ _ _ Hx). cbn [mbind option_bind]. rewrite Hn.
    replace (match l with [] => None | y :: _ => Some y end) with (head l) by by destruct l.
    rewrite (IH (Some x)) by (done || lia). f_equal. simpl. lia.
Qed.
End link.

Section correct.
Context {V St : Type} (model : Model V St) (eqf : St → St → bool) (R : relation St).
Context (HE : equal_ok model eqf R) (vnil : V).
Context (es : list (entry V)) (HW : wf_history es) (HS : steps_total model es).
Context (Hlen : Z.of_nat (length es) < 2 ^ 63).
Context (computePartial : bool) (kill : nat → bool) (Hkill : ∀ k, kill k = false).

Abbreviation n := (Z.of_nat (length es) / 2).
Abbreviation x0 := (vnil, None, -1).
Abbreviation C := (cont es ++ [x0 : V * ptr * Z]).
Abbreviation hd := (length es).
Abbreviation len0 := (length (Bitset.newBitset n)).
Abbreviation rep := (rep model C n hd len0 (all_locs es) (Init model)).
Abbreviation rstep := (rstep model n hd computePartial).
Abbreviation loop := (checkLoop model computePartial n (Some hd) kill).

Lemma n_bound : 0 ≤ n < 2 ^ 63.
Proof. split; [apply Z.div_pos; lia|]. apply Z.div_lt_upper_bound; lia. Qed.

Lemma len0_bound : n ≤ 64 * Z.of_nat len0.
Proof. apply Bitset.newBitset_cap, n_bound. Qed.

Abbreviation b0 := (Bitset.newBitset n).
Abbreviation lg0 := (replicate (Z.to_nat n) None).

Lemma init_ok :
  ∃ h, checkSingle_init model vnil es
         = Some (Vars h (head (all_locs es)) b0 ∅ [] (Init model) lg0 [], n, Some hd) ∧
       rep (all_locs es) h b0 [] (Init model) lg0 [].
Proof.
  pose proof n_bound.
  destruct (makeLinkedEntries_ok es) as (h & Hmk & Hl & Hc & Hd).
  assert (Hd' : dll h (locs (length h))) by by rewrite Hl.
  destruct (insertBefore_ok h vnil None (-1) Hd') as (h2 & Hins & Hd2 & Hc2).
  rewrite Hl in Hins, Hd2.
  assert (Hall : all_locs es = locs (length es)) by done.
  exists h2. split.
  - unfold checkSingle_init. rewrite Hmk. cbn [mbind option_bind].
    rewrite (list_length_ok h None (locs (length es)) 0); [|apply Hd|].
    2:{ unfold locs. rewrite length_rev, length_seq. lia. }
    cbn [mbind option_bind]. unfold alloc. cbn [mbind option_bind]. rewrite Hl, Hins. cbn [mbind option_bind].
    assert (Hq : Z.quot (0 + Z.of_nat (length (locs (length es)))) 2 = n).
    { unfold locs. rewrite length_rev, length_seq. rewrite Z.quot_div_nonneg by lia. done. }
    rewrite Hq. rewrite (wrap_u_id 64 n : _ → to_uint n = n) by (unfold in_u; lia). by rewrite Hall.
  - split.
    + by apply closed_all.
    + rewrite Hall, <- locs_S. done.
    + by rewrite Hc2, Hc.
    + split; [apply Bitset.newBitset_wf|]. split; [done|]. intros i Hi. rewrite Bitset.newBitset_mem.
      split; [done|]. intros [Hlt []].
      assert (i ∈ op_ids es) as Hin.
      { destruct (proj2 (wfh_ids _ HW i)) as (e & He & Hid); [lia|].
        apply list_elem_of_lookup in He as (p & Hp). unfold op_ids. apply list_elem_of_fmap.
        destruct (kind_cases e) as [Hk|Hk].
        - exists e. split; [done|]. apply list_elem_of_filter. split; [done|]. by eapply list_elem_of_lookup_2.
        - destruct (wfh_called _ HW _ _ Hp Hk) as (q & f & _ & Hq & Hkf & Hidf).
          exists f. split; [congruence|]. apply list_elem_of_filter. split; [done|]. by eapply list_elem_of_lookup_2. }
      by eapply (op_ids_In es HW x0 eq_refl eq_refl) in Hin.
    + exists []. split; [constructor|constructor].
    + split; [by rewrite length_replicate|]. split; [|constructor].
      intros j r Hj. by apply lookup_replicate in Hj as [? _].
Qed.

Lemma loop_run st st' ok lg sq :
  rtc rstep st st' → iteration model computePartial n (Some hd) false st' = Some (Return ok lg sq) →
  ∃ f0, ∀ fuel k, (f0 ≤ fuel)%nat → loop fuel k st = Done (ok, lg, sq).
Proof using Hkill.
  intros Hst Hit. induction Hst as [st|st st1 st' Hs _ IH].
  - exists 1%nat. intros [|fuel] k Hf; [lia|]. cbn [checkLoop]. by rewrite Hkill, Hit.
  - destruct (IH Hit) as (f0 & Hf0). exists (S f0). intros [|fuel] k Hf; [lia|].
    cbn [checkLoop]. rewrite Hkill. unfold CheckerProof.rstep in Hs. rewrite Hs. apply Hf0. lia.
Qed.

Definition partials_ok (lg : list (option nat)) (sq : list (list Z)) : Prop :=
  Z.of_nat (length lg) = n ∧
  ∀ i r, lg !! i = Some (Some r) →
         ∃ ids, sq !! r = Some ids ∧ Z.of_nat i ∈ ids ∧ partial_linearization model es ids.

Lemma longest_partials lg sq :
  longest_ok model C n (all_locs es) (Init model) lg sq → partials_ok lg sq.
Proof.
  pose proof n_bound. intros (Hl & Hr & Hg). split; [lia|]. intros i r Hi.
  destruct (Hr _ _ Hi) as (ids & Hids & Hin). exists ids. split_and!; [done|done|].
  rewrite Forall_forall in Hg. destruct (Hg ids) as (path & L & s & Hl' & Hf); [by eapply list_elem_of_lookup_2|].
  eapply (partial_of_path model es HW x0); eauto.
Qed.

Lemma finish_ok h b c calls t lg sq y :
  rep [] h b calls t lg sq →
  linearizable model es ∧
  ∃ lg' sq', iteration model computePartial n (Some hd) false (Vars h y b c calls t lg sq)
             = Some (Return true lg' sq') ∧ longest_ok model C n (all_locs es) (Init model) lg' sq'.
Proof.
  pose proof n_bound. pose proof (wf_contents_of_history model es HW x0 eq_refl eq_refl HS) as HWC.
  intros Hr. destruct (rep_path _ _ _ _ _ _ _ _ _ _ _ _ _ _ Hr) as (path & Hp & Hl).
  assert (Hlin : linearizable model es).
  { apply (lin_path_linearizable model es HW x0 eq_refl eq_refl HS). eauto. }
  split; [done|].
  destruct (lin_path_ids model C _ _ _ _ _ Hl) as (ids & Hids).
  destruct (head_at hd h []) as (nh & Hnh & Hhn); [apply Hr|].
  assert (Hci : calls_ids h calls = Some ids).
  { eapply (calls_ids_ok model C n HWC); [apply Hr|done|done]. }
  unfold iteration. cbn [v_heap]. rewrite (run_load _ _ _ Hnh). cbn [mbind option_bind]. rewrite Hhn.
  unfold finish. cbn [v_heap v_calls v_seqs v_longest head]. rewrite Hci. cbn [mbind option_bind].
  eexists _, _. split; [done|].
  destruct (rep_longest _ _ _ _ _ _ _ _ _ _ _ _ _ _ Hr) as (Hll & _ & Hg).
  rewrite drop_ge by lia. rewrite app_nil_r. split; [by rewrite length_replicate|]. split.
  - intros i r Hi. apply lookup_replicate in Hi as [[= ->] Hlt].
    exists ids. split; [by rewrite lookup_app_r, Nat.sub_diag by lia|].
    destruct (path_calls model es HW x0 eq_refl eq_refl _ _ _ _ HS (closed_all es HW x0 eq_refl eq_refl) Hl) as [_ Hin].
    assert (Z.of_nat i ∈ op_ids es) as Hop.
    { destruct (proj2 (wfh_ids _ HW (Z.of_nat i))) as (e & He & Hid); [lia|].
      apply list_elem_of_lookup in He as (p & Hpe). unfold op_ids. apply list_elem_of_fmap.
      destruct (kind_cases e) as [Hk|Hk].
      - exists e. split; [done|]. apply list_elem_of_filter. split; [done|]. by eapply list_elem_of_lookup_2.
      - destruct (wfh_called _ HW _ _ Hpe Hk) as (q & f & _ & Hq & Hkf & Hidf).
        exists f. split; [congruence|]. apply list_elem_of_filter. split; [done|]. by eapply list_elem_of_lookup_2. }
    apply (op_ids_In es HW x0 eq_refl eq_refl) in Hop as (e & He & Hce).
    assert (e ∈ path) as (j & Hj)%list_elem_of_lookup by (apply Hin; eauto).
    destruct (Forall2_lookup_l _ _ _ _ _ Hids Hj) as (i' & Hi' & v' & r' & Hc').
    destruct Hce as (v & r & Hce). simplify_eq.
    by eapply list_elem_of_lookup_2.
  - apply Forall_app. split; [done|]. constructor; [|constructor]. by exists path, [], t.
Qed.

Lemma checkSingle_run :
  ∃ f0 ok lg sq,
    (∀ fuel, (f0 ≤ fuel)%nat → checkSingle model vnil kill fuel es computePartial = Done (ok, lg, sq)) ∧
    (ok = true ↔ linearizable model es) ∧ partials_ok lg sq.
Proof.
  pose proof n_bound as Hn. pose proof len0_bound as Hl0.
  pose proof (wf_contents_of_history model es HW x0 eq_refl eq_refl HS) as HWC.
  destruct init_ok as (h0 & Hinit & Hrep).
  unfold checkSingle. rewrite Hinit. clear Hinit. cbn beta iota.
  set (st := Vars h0 (head (all_locs es)) b0 ∅ [] (Init model) lg0 []).
  destruct (decide (all_locs es = [])) as [Enil|Hne].
  { assert (Hrep' : rep [] h0 b0 [] (Init model) lg0 []) by (rewrite <- Enil at 1; done).
    destruct (finish_ok _ _ ∅ _ _ _ _ (head (all_locs es)) Hrep') as (Hlin & lg & sq & Hit & Hlg).
    destruct (loop_run st st true lg sq) as (f0 & Hf0); [done|done|].
    exists f0, true, lg, sq. split_and!; [by intros; apply Hf0|done|by apply longest_partials]. }
  destruct (search_from model eqf R HE C n HWC Hn hd len0 Hl0 (all_locs es) (Init model) computePartial
              (all_locs es) (all_locs es) [] _ _ ∅ _ _ _ _ Hrep eq_refl Hne)
    as [(h & y & b & c & calls & t & lg & sq & Hrun & Hr)|(y & c' & lg & sq & Hrun & Hy & Hret & Hlg & _ & Hno)].
  { by intros x ?%elem_of_nil. }
  { intros x (k & l & Hk & _). by rewrite lookup_empty in Hk. }
  - destruct (finish_ok _ _ c _ _ _ _ y Hr) as (Hlin & lg' & sq' & Hit & Hlg).
    destruct (loop_run _ _ _ _ _ Hrun Hit) as (f0 & Hf0).
    exists f0, true, lg', sq'. split_and!; [by intros; apply Hf0|done|by apply longest_partials].
  - assert (Hnolin : ¬ linearizable model es).
    { rewrite <- (lin_path_linearizable model es HW x0 eq_refl eq_refl HS).
      intros ([|e sq'] & s' & Hl); [by inversion Hl|]. eapply Hno; [|done]. by inversion Hl. }
    destruct Hret as (o & i & Hyc). pose proof Hy as (pre & suf & Hsplit)%list_elem_of_split.
    destruct (iteration_node model C n HWC hd len0 (all_locs es) (Init model) computePartial
                h0 b0 c' [] (Init model) lg sq (all_locs es) pre y suf o None i)
      as (nd & _ & _ & _ & _ & _ & Hit); [destruct Hrep; by split|done|done|].
    destruct (loop_run _ _ _ _ _ Hrun Hit) as (f0 & Hf0).
    exists f0, false, lg, sq. split_and!; [by intros; apply Hf0| |by apply longest_partials].
    split; [done|]. intros ?. done.
Qed.
End correct.
End CheckSingle.
