(* ===== verification/Entries.v ===== *)
(** * From operations and events to entries

    [makeEntries], [renumber] and [convertEntries] build well-formed histories, and
    linearizability of the entries [makeEntries] builds is linearizability of
    the operations, stated with their invocation and response times. *)
From S2P Require Import Prelude Porcupine Linearizability.
Import Porcupine Linearizability.
Local Open Scope Z_scope.

Module Entries.

Section ops.
Context {V St : Type} (model : Model V St).
Implicit Types (ops l : list (Operation V)) (o : Operation V).

(** ** Linearizability of operations *)

(** The model accepts the operations [l] one after the other from [s]. *)
Fixpoint runs (s : St) (l : list (Operation V)) : Prop :=
  match l with
  | [] => True
  | o :: l => ∃ s', Step model s (op_Input o) (op_Output o) = Some (true, s') ∧ runs s' l
  end.

(** The operations in an order that the model accepts and that never puts an
    operation after one that was invoked after its response. *)
Definition ops_linearizable (ops : list (Operation V)) : Prop :=
  ∃ l, l ≡ₚ ops ∧ StronglySorted (λ a b, ¬ op_Return b < op_Call a) l ∧ runs (Init model) l.

Definition ops_steps_total (ops : list (Operation V)) : Prop :=
  ∀ s o, o ∈ ops → is_Some (Step model s (op_Input o) (op_Output o)).

(** ** [makeEntries] *)

Definition call_of (i : nat) (o : Operation V) : entry V :=
  Entry callEntry (op_Input o) (Z.of_nat i) (op_Call o) (op_ClientId o).
Definition return_of (i : nat) (o : Operation V) : entry V :=
  Entry returnEntry (op_Output o) (Z.of_nat i) (op_Return o) (op_ClientId o).

Fixpoint raw_entries (ops : list (Operation V)) (i : nat) : list (entry V) :=
  match ops with
  | [] => []
  | o :: ops => call_of i o :: return_of i o :: raw_entries ops (S i)
  end.

Lemma makeEntries_loop_raw ops i acc :
  makeEntries_loop ops (Z.of_nat i) acc = acc ++ raw_entries ops i.
Proof.
  revert i acc. induction ops as [|o ops IH]; intros i acc; simpl; [by rewrite app_nil_r|].
  replace (Z.of_nat i + 1) with (Z.of_nat (S i)) by lia. rewrite IH. by simplify_list_eq.
Qed.

Lemma raw_entries_length ops i : length (raw_entries ops i) = (2 * length ops)%nat.
Proof. revert i. induction ops as [|o ops IH]; intros i; simpl; [done|]. rewrite IH. lia. Qed.

Lemma raw_entries_In ops i e :
  e ∈ raw_entries ops i ↔ ∃ j o, ops !! j = Some o ∧ (e = call_of (i + j) o ∨ e = return_of (i + j) o).
Proof.
  revert i. induction ops as [|o ops IH]; intros i; simpl.
  - split; [by intros ?%elem_of_nil | by intros (j & o & Hj & _)].
  - rewrite !elem_of_cons, IH. split.
    + intros [-> | [-> | (j & o' & Hj & H)]].
      * exists 0%nat, o. rewrite Nat.add_0_r. auto.
      * exists 0%nat, o. rewrite Nat.add_0_r. auto.
      * exists (S j), o'. replace (i + S j)%nat with (S i + j)%nat by lia. auto.
    + intros ([|j] & o' & Hj & H); simpl in Hj.
      * simplify_eq. rewrite Nat.add_0_r in H. tauto.
      * right. right. exists j, o'. replace (S i + j)%nat with (i + S j)%nat by lia. auto.
Qed.

Lemma raw_entries_NoDup ops i : NoDup ((λ e, (kind e, id e)) <$> raw_entries ops i).
Proof.
  revert i. induction ops as [|o ops IH]; intros i; simpl; [constructor|].
  assert (Hfresh : ∀ k, (k, Z.of_nat i) ∉ ((λ e, (kind e, id e)) <$> raw_entries ops (S i))).
  { intros k (e & He & (j & o' & _ & Hj)%raw_entries_In)%list_elem_of_fmap.
    injection He as _ He. destruct Hj as [-> | ->]; simpl in He; lia. }
  constructor; [|constructor; [|done]]; [|apply Hfresh].
  intros [?|?]%elem_of_cons; [done|by eapply Hfresh].
Qed.

Section made.
Context `{!GoSort (Less (V:=V))} (ops : list (Operation V)).
Context (Htimes : ∀ o, o ∈ ops → op_Call o ≤ op_Return o).

Lemma makeEntries_perm : makeEntries ops ≡ₚ raw_entries ops 0.
Proof.
  assert (E : makeEntries_loop ops 0 [] = raw_entries ops 0) by apply (makeEntries_loop_raw ops 0 []).
  unfold makeEntries. by rewrite gosort_perm, E.
Qed.

Lemma makeEntries_length : length (makeEntries ops) = (2 * length ops)%nat.
Proof. by rewrite makeEntries_perm, raw_entries_length. Qed.

Lemma makeEntries_In e :
  e ∈ makeEntries ops ↔ ∃ j o, ops !! j = Some o ∧ (e = call_of j o ∨ e = return_of j o).
Proof. by rewrite makeEntries_perm, raw_entries_In. Qed.

Lemma makeEntries_unique p q e f :
  makeEntries ops !! p = Some e → makeEntries ops !! q = Some f → kind e = kind f → id e = id f → p = q.
Proof.
  intros Hp Hq Hk Hi.
  assert (Hnd : NoDup ((λ e, (kind e, id e)) <$> makeEntries ops)).
  { rewrite makeEntries_perm. apply raw_entries_NoDup. }
  eapply NoDup_lookup; [exact Hnd| |]; rewrite list_lookup_fmap; [by rewrite Hp|].
  rewrite Hq. simpl. by rewrite Hk, Hi.
Qed.

(** Entries at the positions of an earlier and a later time. *)
Lemma makeEntries_order p q e f :
  makeEntries ops !! p = Some e → makeEntries ops !! q = Some f → Less e f = true → (p < q)%nat.
Proof.
  intros Hp Hq Hl. pose proof (gosort_sorted (less:=Less (V:=V)) (makeEntries_loop ops 0 [])) as Hs.
  destruct (Nat.lt_total p q) as [?|[->|Hlt]]; [done| |].
  - simplify_eq. by rewrite (less_asym e e Hl) in Hl.
  - pose proof (StronglySorted_lookup _ _ _ _ _ _ Hs Hlt Hq Hp). congruence.
Qed.

Lemma call_before_return j o :
  o ∈ ops → Less (call_of j o) (return_of j o) = true.
Proof.
  intros Ho. specialize (Htimes o Ho). unfold Less. simpl.
  destruct (Z.eqb_spec (op_Call o) (op_Return o)); simpl; [done|]. apply Z.ltb_lt. lia.
Qed.

Lemma makeEntries_wf : wf_history (makeEntries ops).
Proof.
  split.
  - apply makeEntries_unique.
  - intros p e Hp Hk. pose proof (list_elem_of_lookup_2 _ _ _ Hp) as (j & o & Ho & [-> | ->])%makeEntries_In; [|done].
    assert (return_of j o ∈ makeEntries ops) as (q & Hq)%list_elem_of_lookup by (apply makeEntries_In; eauto).
    exists q, (return_of j o). split_and!; [|done..].
    eapply makeEntries_order; [done|done|]. apply call_before_return. by eapply list_elem_of_lookup_2.
  - intros q f Hq Hk. pose proof (list_elem_of_lookup_2 _ _ _ Hq) as (j & o & Ho & [-> | ->])%makeEntries_In; [done|].
    assert (call_of j o ∈ makeEntries ops) as (p & Hp)%list_elem_of_lookup by (apply makeEntries_In; eauto).
    exists p, (call_of j o). split_and!; [|done..].
    eapply makeEntries_order; [done|done|]. apply call_before_return. by eapply list_elem_of_lookup_2.
  - intros i. rewrite makeEntries_length, Nat2Z.inj_mul, Z.mul_comm, Z.div_mul by lia. split.
    + intros (e & (j & o & Ho & He)%makeEntries_In & <-). apply lookup_lt_Some in Ho.
      destruct He as [-> | ->]; simpl; lia.
    + intros Hi. destruct (lookup_lt_is_Some_2 ops (Z.to_nat i)) as [o Ho]; [lia|].
      exists (call_of (Z.to_nat i) o). split; [apply makeEntries_In; eauto|]. simpl. lia.
  - rewrite makeEntries_length, Nat2Z.inj_mul. change (Z.of_nat 2) with 2.
    rewrite (Z.mul_comm 2 (Z.of_nat _)), Z.div_mul by lia. lia.
Qed.

Lemma makeEntries_steps_total : ops_steps_total ops → steps_total model (makeEntries ops).
Proof.
  intros HS s call ret (j & o & Ho & Hc)%makeEntries_In (k & o' & Ho' & Hr)%makeEntries_In Hkc Hkr Hid.
  destruct Hc as [-> | ->], Hr as [-> | ->]; try done. simpl in Hid.
  assert (j = k) as -> by lia. simplify_eq. apply HS. by eapply list_elem_of_lookup_2.
Qed.

(** [a] returned before [b] was called, in terms of the operations. *)
Lemma makeEntries_precedes a b oa ob :
  ops !! a = Some oa → ops !! b = Some ob →
  precedes (makeEntries ops) (Z.of_nat a) (Z.of_nat b) ↔ op_Return oa < op_Call ob.
Proof.
  intros Ha Hb. split.
  - intros (p & q & ret & call & Hp & Hkr & Hir & Hq & Hkc & Hic & Hlt).
    pose proof (list_elem_of_lookup_2 _ _ _ Hp) as (j & o & Ho & [-> | ->])%makeEntries_In; [done|].
    pose proof (list_elem_of_lookup_2 _ _ _ Hq) as (k & o' & Ho' & [-> | ->])%makeEntries_In; [|done].
    simpl in Hir, Hic. assert (j = a) as -> by lia. assert (k = b) as -> by lia. simplify_eq.
    destruct (Z.lt_ge_cases (op_Return oa) (op_Call ob)) as [|Hge]; [done|].
    assert (Less (call_of b ob) (return_of a oa) = true) as Hl.
    { unfold Less. simpl. destruct (Z.eqb_spec (op_Call ob) (op_Return oa)); simpl; [done|].
      apply Z.ltb_lt. lia. }
    pose proof (makeEntries_order _ _ _ _ Hq Hp Hl). lia.
  - intros Hlt.
    assert (return_of a oa ∈ makeEntries ops) as (p & Hp)%list_elem_of_lookup by (apply makeEntries_In; eauto).
    assert (call_of b ob ∈ makeEntries ops) as (q & Hq)%list_elem_of_lookup by (apply makeEntries_In; eauto).
    exists p, q, (return_of a oa), (call_of b ob). split_and!; try done.
    eapply makeEntries_order; [done|done|]. unfold Less. simpl.
    by z_tests.
Qed.

Lemma makeEntries_op_ids i : i ∈ op_ids (makeEntries ops) ↔ ∃ j, (j < length ops)%nat ∧ i = Z.of_nat j.
Proof.
  unfold op_ids. rewrite list_elem_of_fmap. split.
  - intros (e & -> & [Hk (j & o & Ho & [-> | ->])%makeEntries_In]%list_elem_of_filter); [|done].
    exists j. split; [by eapply lookup_lt_Some|done].
  - intros (j & Hj & ->). destruct (lookup_lt_is_Some_2 ops j Hj) as [o Ho].
    exists (call_of j o). split; [done|]. apply list_elem_of_filter. split; [done|]. apply makeEntries_In. eauto.
Qed.

(** The ids [ids] name the operations [l]. *)
Abbreviation names ids l := (Forall2 (λ i o, ∃ j : nat, i = Z.of_nat j ∧ ops !! j = Some o) ids l).

Lemma runs_accepts ids l s :
  names ids l → accepts model (makeEntries ops) s ids ↔ runs s l.
Proof.
  intros Hn. revert s. induction Hn as [|i o ids l (j & -> & Ho) _ IH]; intros s; simpl.
  { split; [done|constructor]. }
  split.
  - inversion 1 as [|? ? ? call ret s' Hc Hkc Hic Hr Hkr Hir Hst Hacc]; subst. exists s'.
    apply makeEntries_In in Hc as (k & o1 & Ho1 & [-> | ->]); [|done].
    apply makeEntries_In in Hr as (k' & o2 & Ho2 & [-> | ->]); [done|].
    simpl in *. assert (k = j) as -> by lia. assert (k' = j) as -> by lia. simplify_eq.
    split; [done|]. by apply IH.
  - intros (s' & Hst & Hr). apply IH in Hr.
    eapply (accepts_cons _ _ _ _ _ (call_of j o) (return_of j o)); try done; apply makeEntries_In; eauto.
Qed.

Lemma order_times ids l :
  names ids l →
  in_real_time_order (makeEntries ops) ids ↔ StronglySorted (λ a b, ¬ op_Return b < op_Call a) l.
Proof.
  intros Hn. split; intros Hs; apply StronglySorted_alt.
  - intros p q a b Hpq Hp Hq.
    destruct (Forall2_lookup_r _ _ _ _ _ Hn Hp) as (ia & Hia & ja & -> & Ha).
    destruct (Forall2_lookup_r _ _ _ _ _ Hn Hq) as (ib & Hib & jb & -> & Hb).
    pose proof (StronglySorted_lookup _ _ _ _ _ _ Hs Hpq Hia Hib) as H.
    cbv beta in H. by rewrite (makeEntries_precedes _ _ _ _ Hb Ha) in H.
  - intros p q ia ib Hpq Hp Hq.
    destruct (Forall2_lookup_l _ _ _ _ _ Hn Hp) as (a & Hla & ja & -> & Ha).
    destruct (Forall2_lookup_l _ _ _ _ _ Hn Hq) as (b & Hlb & jb & -> & Hb).
    rewrite (makeEntries_precedes _ _ _ _ Hb Ha).
    by apply (StronglySorted_lookup _ _ _ _ _ _ Hs Hpq Hla Hlb).
Qed.

Lemma names_perm ids l :
  names ids l → ids ≡ₚ op_ids (makeEntries ops) ↔ NoDup ids ∧ length ids = length ops.
Proof.
  intros Hn.
  assert (Hnd : NoDup (op_ids (makeEntries ops))).
  { apply op_ids_NoDup, makeEntries_wf. }
  assert (Hlen : length (op_ids (makeEntries ops)) = length ops).
  { assert (op_ids (makeEntries ops) ≡ₚ Z.of_nat <$> seq 0 (length ops)) as ->;
      [|by rewrite length_fmap, length_seq].
    apply NoDup_Permutation; [done|apply NoDup_fmap_2; [intros ??; lia|apply NoDup_seq]|].
    intros i. rewrite makeEntries_op_ids, list_elem_of_fmap.
    setoid_rewrite elem_of_seq. split; intros (j & ? & ?); exists j; auto with lia. }
  split; [intros Hp; rewrite Hp; auto|]. intros [Hndi Hleni].
  apply submseteq_length_Permutation; [|lia].
  apply NoDup_submseteq; [done|]. intros i (p & Hp)%list_elem_of_lookup.
  destruct (Forall2_lookup_l _ _ _ _ _ Hn Hp) as (o & _ & j & -> & Ho).
  apply makeEntries_op_ids. exists j. split; [by eapply lookup_lt_Some|done].
Qed.

Theorem makeEntries_linearizable : linearizable model (makeEntries ops) ↔ ops_linearizable ops.
Proof.
  split.
  - intros (ids & Hp & Hord & Hacc).
    assert (∃ l, names ids l) as [l Hn].
    { assert (Hin : ∀ i, i ∈ ids → ∃ o j, i = Z.of_nat j ∧ ops !! j = Some o).
      { intros i Hi. rewrite Hp, makeEntries_op_ids in Hi. destruct Hi as (j & Hj & ->).
        destruct (lookup_lt_is_Some_2 ops j Hj) as [o Ho]. eauto. }
      clear -Hin. induction ids as [|i ids IH]; [by exists []|].
      destruct (Hin i) as (o & ?); [set_solver|]. destruct IH as [l ?]; [intros; apply Hin; set_solver|].
      exists (o :: l). by constructor. }
    exists l. split_and!; [|by apply (order_times ids)|by apply (runs_accepts ids)].
    pose proof (proj1 (names_perm ids l Hn) Hp) as [Hnd Hlen].
    apply Permutation_inj. split; [by rewrite <- (Forall2_length _ _ _ Hn)|].
    exists (λ p, default p (Z.to_nat <$> ids !! p)).
    assert (Hval : ∀ p, (p < length ids)%nat → ∃ j, ids !! p = Some (Z.of_nat j) ∧ (j < length ops)%nat).
    { intros p Hlt. destruct (lookup_lt_is_Some_2 ids p Hlt) as [i Hi].
      destruct (Forall2_lookup_l _ _ _ _ _ Hn Hi) as (o & _ & j & -> & Ho).
      exists j. split; [done|by eapply lookup_lt_Some]. }
    split.
    + intros p q E. destruct (decide (p < length ids)%nat) as [Hlp|Hlp], (decide (q < length ids)%nat) as [Hlq|Hlq].
      * destruct (Hval p Hlp) as (j & Hj & _), (Hval q Hlq) as (k & Hk & _).
        rewrite Hj, Hk in E. simpl in E. rewrite !Nat2Z.id in E. subst.
        eapply NoDup_lookup; eauto.
      * destruct (Hval p Hlp) as (j & Hj & Hjl). rewrite Hj, (lookup_ge_None_2 ids q) in E by lia.
        simpl in E. lia.
      * destruct (Hval q Hlq) as (k & Hk & Hkl). rewrite Hk, (lookup_ge_None_2 ids p) in E by lia.
        simpl in E. lia.
      * rewrite !lookup_ge_None_2 in E by lia. done.
    + intros p. destruct (decide (p < length ids)%nat) as [Hlt|Hge].
      * destruct (lookup_lt_is_Some_2 ids p Hlt) as [i Hi]. rewrite Hi. simpl.
        destruct (Forall2_lookup_l _ _ _ _ _ Hn Hi) as (o & Ho & j & -> & Hj).
        by rewrite Ho, Nat2Z.id, Hj.
      * rewrite (lookup_ge_None_2 ids) by lia. simpl.
        rewrite !lookup_ge_None_2; [done|lia|]. rewrite <- (Forall2_length _ _ _ Hn). lia.
  - intros (l & Hp & Hs & Hr). apply Permutation_inj in Hp as (Hlen & f & Hinj & Hf).
    set (ids := (λ p, Z.of_nat (f p)) <$> seq 0 (length l)).
    assert (Hn : names ids l).
    { apply Forall2_same_length_lookup. split; [unfold ids; by rewrite length_fmap, length_seq|].
      intros p i o Hi Ho. unfold ids in Hi. rewrite list_lookup_fmap_Some in Hi.
      destruct Hi as (k & -> & [-> _]%lookup_seq). exists (f p). split; [done|]. by rewrite <- Hf. }
    exists ids. split_and!; [|by apply (order_times ids l)|by apply (runs_accepts ids l)].
    apply (names_perm ids l Hn). split; [|unfold ids; by rewrite length_fmap, length_seq].
    apply NoDup_fmap_2; [|apply NoDup_seq]. intros p q E. apply Hinj. lia.
Qed.
End made.
End ops.

(** ** Events *)
Section events.
Context {V : Type}.
Implicit Types (evs : list (Event V)) (ev : Event V).

(** A history of events as [CheckEvents] expects it: every operation has one
    call and, later, one return. *)
Record wf_events evs : Prop := {
  wfe_unique p q e f : evs !! p = Some e → evs !! q = Some f → ev_Kind e = ev_Kind f → ev_Id e = ev_Id f → p = q;
  wfe_returned p e : evs !! p = Some e → ev_Kind e = CallEvent →
    ∃ q f, (p < q)%nat ∧ evs !! q = Some f ∧ ev_Kind f = ReturnEvent ∧ ev_Id f = ev_Id e;
  wfe_called q f : evs !! q = Some f → ev_Kind f = ReturnEvent →
    ∃ p e, (p < q)%nat ∧ evs !! p = Some e ∧ ev_Kind e = CallEvent ∧ ev_Id e = ev_Id f;
}.

(** [m] numbers its ids 0 to i - 1. *)
Definition numbering (m : gmap Z Z) (i : Z) : Prop :=
  0 ≤ i ∧
  (∀ k r, m !! k = Some r → 0 ≤ r < i) ∧
  (∀ k k' r, m !! k = Some r → m !! k' = Some r → k = k') ∧
  (∀ r, 0 ≤ r < i → ∃ k, m !! k = Some r).

Definition rename (m : gmap Z Z) (ev : Event V) : Event V :=
  MkEvent (ev_ClientId ev) (ev_Kind ev) (ev_Value ev) (default 0 (m !! ev_Id ev)).

Lemma numbering_insert m i k :
  numbering m i → m !! k = None → numbering (<[k := i]> m) (i + 1).
Proof.
  intros (Hi & Hr & Hinj & Hall) Hk. split_and!; [lia|..].
  - intros k' r. rewrite lookup_insert. case_decide; [by intros [= <-]; lia|]. intros ?%Hr. lia.
  - intros k1 k2 r. rewrite !lookup_insert. do 2 case_decide; subst; try congruence.
    + intros [= <-] ?%Hr. lia. + intros ?%Hr [= <-]. lia. + apply Hinj.
  - intros r Hri. destruct (decide (r = i)) as [->|].
    + exists k. apply lookup_insert_eq.
    + destruct (Hall r) as [k' Hk']; [lia|]. exists k'. rewrite lookup_insert_ne; [done|congruence].
Qed.

Lemma renumber_loop_ok evs acc m i :
  numbering m i →
  ∃ m' i', renumber_loop evs acc m i = acc ++ (rename m' <$> evs) ∧ numbering m' i' ∧ m ⊆ m' ∧
           ∀ k, is_Some (m' !! k) ↔ is_Some (m !! k) ∨ ∃ ev, ev ∈ evs ∧ ev_Id ev = k.
Proof.
  revert acc m i. induction evs as [|ev evs IH]; intros acc m i Hm.
  { exists m, i. split; [simpl; by rewrite app_nil_r|]. split; [done|]. split; [done|].
    intros k. split; [by left|]. intros [?|(ev & ?%elem_of_nil & _)]; done. }
  cbn [renumber_loop]. destruct (m !! ev_Id ev) as [r|] eqn:E.
  - destruct (IH (acc ++ [MkEvent (ev_ClientId ev) (ev_Kind ev) (ev_Value ev) r]) m i Hm)
      as (m' & i' & -> & Hm' & Hsub & Hdom).
    exists m', i'. split_and!; [|done|done|].
    + rewrite <- app_assoc. cbn. unfold rename at 2. by rewrite (lookup_weaken _ _ _ _ E Hsub).
    + intros k. rewrite Hdom. split.
      * intros [?|(v & ? & ?)]; [by left|]. right. exists v. set_solver.
      * intros [?|(v & [-> | ?]%elem_of_cons & <-)]; [by left|left; by exists r|]. right. by exists v.
  - destruct (IH (acc ++ [MkEvent (ev_ClientId ev) (ev_Kind ev) (ev_Value ev) i]) _ _ (numbering_insert _ _ _ Hm E))
      as (m' & i' & -> & Hm' & Hsub & Hdom).
    assert (Hev : m' !! ev_Id ev = Some i) by (eapply lookup_weaken; [apply lookup_insert_eq|done]).
    exists m', i'. split_and!; [|done| |].
    + rewrite <- app_assoc. cbn. unfold rename at 2. by rewrite Hev.
    + etrans; [|exact Hsub]. by apply insert_subseteq.
    + intros k. rewrite Hdom, lookup_insert_is_Some. split.
      * intros [[<-|[_ ?]]|(v & ? & ?)]; [right; exists ev; set_solver|by left|].
        right. exists v. set_solver.
      * destruct (decide (ev_Id ev = k)) as [->|]; [by intros _; left; left|].
        intros [?|(v & [-> | ?]%elem_of_cons & <-)]; [by left; right|done|]. right. by exists v.
Qed.

Lemma renumber_ok evs :
  ∃ m i, renumber evs = rename m <$> evs ∧ numbering m i ∧
         ∀ k, is_Some (m !! k) ↔ ∃ ev, ev ∈ evs ∧ ev_Id ev = k.
Proof.
  destruct (renumber_loop_ok evs [] ∅ 0) as (m & i & E & Hm & _ & Hdom).
  { split; [done|]. split; [by intros k r; rewrite lookup_empty|]. split; [by intros k k' r; rewrite lookup_empty|]. lia. }
  exists m, i. split_and!; [done|done|]. intros k. rewrite Hdom, lookup_empty. split; [|by right].
  intros [[? [=]]|?]; done.
Qed.

Lemma kind_partition evs :
  length evs = (length (filter (λ ev, ev_Kind ev = CallEvent) evs) +
                length (filter (λ ev, ev_Kind ev = ReturnEvent) evs))%nat.
Proof.
  induction evs as [|ev evs IH]; [done|]. rewrite !filter_cons.
  unfold CallEvent, ReturnEvent in *. destruct (ev_Kind ev); simpl; lia.
Qed.

Lemma kind_ids_NoDup evs k :
  wf_events evs → NoDup (ev_Id <$> filter (λ ev, ev_Kind ev = k) evs).
Proof.
  intros HW. apply NoDup_fmap_2_strong.
  - intros e f [He (p & Hp)%list_elem_of_lookup]%list_elem_of_filter
      [Hf (q & Hq)%list_elem_of_lookup]%list_elem_of_filter Hid.
    assert (p = q) by (eapply (wfe_unique _ HW); eauto; congruence). congruence.
  - apply NoDup_filter, NoDup_alt. intros p q e Hp Hq. by eapply (wfe_unique _ HW).
Qed.

Lemma kind_ids_In evs k x :
  wf_events evs → x ∈ ev_Id <$> filter (λ ev, ev_Kind ev = k) evs ↔ ∃ ev, ev ∈ evs ∧ ev_Id ev = x.
Proof.
  intros HW. rewrite list_elem_of_fmap. split.
  - intros (e & -> & [_ He]%list_elem_of_filter). eauto.
  - intros (e & (p & Hp)%list_elem_of_lookup & <-).
    destruct (decide (ev_Kind e = k)) as [Hk|Hk].
    + exists e. split; [done|]. apply list_elem_of_filter. split; [done|]. by eapply list_elem_of_lookup_2.
    + assert (∃ q f, evs !! q = Some f ∧ ev_Kind f = k ∧ ev_Id f = ev_Id e) as (q & f & Hq & Hkf & Hid).
      { destruct (ev_Kind e) eqn:Ee.
        - destruct (wfe_called _ HW _ _ Hp Ee) as (q & f & _ & ? & Hkf & ?). exists q, f.
          split_and!; [done| |done]. rewrite Hkf. unfold CallEvent. by destruct k.
        - destruct (wfe_returned _ HW _ _ Hp Ee) as (q & f & _ & ? & Hkf & ?). exists q, f.
          split_and!; [done| |done]. rewrite Hkf. unfold ReturnEvent. by destruct k. }
      exists f. split; [done|]. apply list_elem_of_filter. split; [done|]. by eapply list_elem_of_lookup_2.
Qed.

Lemma numbering_length evs m i :
  wf_events evs → numbering m i → (∀ k, is_Some (m !! k) ↔ ∃ ev, ev ∈ evs ∧ ev_Id ev = k) →
  Z.of_nat (length evs) = 2 * i.
Proof.
  intros HW (Hi & Hr & Hinj & Hall) Hdom.
  assert (Hlen : ∀ k, length (filter (λ ev, ev_Kind ev = k) evs) = Z.to_nat i).
  { intros k. rewrite <- (length_fmap ev_Id).
    assert ((λ x, default 0 (m !! x)) <$> (ev_Id <$> filter (λ ev, ev_Kind ev = k) evs)
            ≡ₚ Z.of_nat <$> seq 0 (Z.to_nat i)) as Hp.
    { apply NoDup_Permutation.
      - apply NoDup_fmap_2_strong; [|by apply kind_ids_NoDup].
        intros x y [rx Hx]%(kind_ids_In _ _ _ HW)%Hdom [ry Hy]%(kind_ids_In _ _ _ HW)%Hdom E.
        rewrite Hx, Hy in E. simpl in E. subst. eauto.
      - apply NoDup_fmap_2; [intros ??; lia|apply NoDup_seq].
      - intros r. rewrite !list_elem_of_fmap. setoid_rewrite elem_of_seq. split.
        + intros (x & -> & [rx Hx]%(kind_ids_In _ _ _ HW)%Hdom). rewrite Hx. simpl.
          apply Hr in Hx. exists (Z.to_nat rx). lia.
        + intros (j & -> & Hj). destruct (Hall (Z.of_nat j)) as [x Hx]; [lia|].
          exists x. rewrite Hx. split; [done|]. apply (kind_ids_In _ _ _ HW), Hdom. eauto. }
    apply Permutation_length in Hp. rewrite !length_fmap, length_seq in Hp. by rewrite !length_fmap. }
  rewrite (kind_partition evs), !Hlen. lia.
Qed.

Lemma convertEntries_lookup evs p :
  convertEntries evs !! p = (λ ev, Entry (ev_Kind ev) (ev_Value ev) (ev_Id ev) (wrap_s 64 (Z.of_nat p)) (ev_ClientId ev)) <$> evs !! p.
Proof.
  unfold convertEntries. rewrite list_lookup_imap. destruct (evs !! p) as [ev|]; simpl; [|done].
  by destruct (ev_Kind ev).
Qed.

Lemma renumber_length evs : length (renumber evs) = length evs.
Proof. destruct (renumber_ok evs) as (m & i & -> & _). by rewrite length_fmap. Qed.

Lemma convertEntries_renamed evs m p ev :
  renumber evs = rename m <$> evs → evs !! p = Some ev →
  convertEntries (renumber evs) !! p =
  Some (Entry (ev_Kind ev) (ev_Value ev) (default 0 (m !! ev_Id ev)) (wrap_s 64 (Z.of_nat p)) (ev_ClientId ev)).
Proof. intros -> Hp. by rewrite convertEntries_lookup, list_lookup_fmap, Hp. Qed.

Lemma convert_renumber_wf evs : wf_events evs → wf_history (convertEntries (renumber evs)).
Proof.
  intros HW. destruct (renumber_ok evs) as (m & i & -> & Hm & Hdom).
  pose proof (numbering_length evs m i HW Hm Hdom) as Hlen. destruct Hm as (Hi & Hr & Hinj & Hall).
  assert (Hlk : ∀ p e, convertEntries (rename m <$> evs) !! p = Some e →
    ∃ ev r, evs !! p = Some ev ∧ m !! ev_Id ev = Some r ∧ kind e = ev_Kind ev ∧ id e = r).
  { intros p e. rewrite convertEntries_lookup, list_lookup_fmap.
    destruct (evs !! p) as [ev|] eqn:Ep; [|done]. intros [= <-]. simpl.
    destruct (proj2 (Hdom (ev_Id ev))) as [r Hrm]; [exists ev; split; [by eapply list_elem_of_lookup_2|done]|].
    exists ev, r. by rewrite Hrm. }
  assert (Hmk : ∀ p ev r, evs !! p = Some ev → m !! ev_Id ev = Some r →
    ∃ e, convertEntries (rename m <$> evs) !! p = Some e ∧ kind e = ev_Kind ev ∧ id e = r).
  { intros p ev r Hp Hrm. rewrite convertEntries_lookup, list_lookup_fmap, Hp. simpl.
    eexists. split; [done|]. simpl. by rewrite Hrm. }
  assert (Hlen2 : Z.of_nat (length (convertEntries (rename m <$> evs))) = 2 * i).
  { unfold convertEntries. by rewrite length_imap, length_fmap. }
  assert (Hdiv : Z.of_nat (length (convertEntries (rename m <$> evs))) / 2 = i)
    by (rewrite Hlen2, Z.mul_comm, Z.div_mul; lia).
  split.
  - intros p q e f Hp Hq Hk Hid.
    destruct (Hlk _ _ Hp) as (ep & rp & Hep & Hrp & Hkp & Hidp), (Hlk _ _ Hq) as (eq_ & rq & Heq & Hrq & Hkq & Hidq).
    eapply (wfe_unique _ HW); [done|done|congruence|]. eapply Hinj; [done|]. congruence.
  - intros p e Hp Hk. destruct (Hlk _ _ Hp) as (ev & r & Hev & Hrm & Hke & Hie).
    destruct (wfe_returned _ HW p ev Hev) as (q & fv & Hlt & Hq & Hkf & Hidf); [by rewrite <- Hke|].
    destruct (Hmk q fv r Hq) as (f & Hf & Hkf' & Hif); [by rewrite Hidf|].
    exists q, f. rewrite Hkf', Hif, Hie, Hkf. done.
  - intros q f Hq Hk. destruct (Hlk _ _ Hq) as (fv & r & Hfv & Hrm & Hkf & Hif).
    destruct (wfe_called _ HW q fv Hfv) as (p & ev & Hlt & Hp & Hke & Hide); [by rewrite <- Hkf|].
    destruct (Hmk p ev r Hp) as (e & He & Hke' & Hie); [by rewrite Hide|].
    exists p, e. rewrite Hke', Hie, Hif, Hke. done.
  - intros x. rewrite Hdiv. split.
    + intros (e & (p & Hp)%list_elem_of_lookup & <-).
      destruct (Hlk _ _ Hp) as (ev & r & _ & Hrm & _ & ->). by eapply Hr.
    + intros Hx. destruct (Hall x Hx) as [k Hk]. destruct (proj1 (Hdom k)) as (ev & (p & Hp)%list_elem_of_lookup & <-); [eauto|].
      destruct (Hmk p ev x Hp Hk) as (e & He & _ & ?). exists e. split; [by eapply list_elem_of_lookup_2|done].
  - rewrite Hdiv. done.
Qed.
End events.
End Entries.
