(* ===== verification/Parallel.v ===== *)
(** * Checking the partitions of a history

    [src/6.5840/src/porcupine/checker.go], [fillDefault] to [checkOperations], and the API
    of [porcupine.go]. [checkParallel] starts one goroutine per partition and
    waits in a [select] for their results and for the timeout. What the
    scheduler does is an argument: the order in which the branches of the
    [select] are taken. [kill] is only set when the waiting is over, so a
    result received before that comes from a search that never read it set. *)
From S2P Require Import Prelude Porcupine LinkedList Checker Linearizability CheckerProof CheckSingle Entries.
Import Porcupine Checker Linearizability CheckerProof CheckSingle Entries.
Local Open Scope Z_scope.

Module Parallel.

(** One turn of the [select]: the result of goroutine [i], or the timer. *)
Inductive turn :=
| Result (i : nat)
| TimerFired.

Record linearizationInfo (V : Type) := Info {
  history : list (list (entry V)); (* for each partition, a list of entries *)
  partialLinearizations : list (list (list Z)); (* for each partition, a set of histories *)
}.
Arguments Info {_} _ _.
Arguments history {_} _.
Arguments partialLinearizations {_} _.

Section parallel.
Context {V St : Type} `{!EqDecision St} (model : Model V St) (vnil : V).

(** [fmt.Sprintf] with the verb [%v] on values and on states. *)
Context (sprintf_v : V → string) (sprintf_st : St → string).

Definition DefaultDescribeOperation (input output : V) : string :=
  (sprintf_v input ++ " -> " ++ sprintf_v output)%string.

Definition DefaultDescribeState (state : St) : string := sprintf_st state.

Definition fillDefault (model : Model V St) : Model V St :=
  MkModel
    (match Partition model with None => Some (λ h, Some (NoPartition h)) | f => f end)
    (match PartitionEvent model with None => Some (λ h, Some (NoPartitionEvent h)) | f => f end)
    (Init model) (Step model)
    (match Equal model with None => Some ShallowEqual | f => f end)
    (match DescribeOperation model with None => Some (λ i o, Some (DefaultDescribeOperation i o)) | f => f end)
    (match DescribeState model with None => Some (λ s, Some (DefaultDescribeState s)) | f => f end).

Record wait := Wait {
  w_ok : bool;
  w_timedOut : bool;
  w_count : nat;
  w_got : list nat; (* the goroutines whose result was received *)
}.

(** The loop over [select]. [res i] is the result goroutine [i] sends; a turn
    that cannot happen and a schedule that stops while the loop still waits
    are [None]. *)
Fixpoint select_loop (num : nat) (res : nat → bool) (computeInfo : bool) (timeout : Z)
    (sched : list turn) (w : wait) : option wait :=
  match sched with
  | [] => None
  | Result i :: sched =>
      if decide ((i < num)%nat ∧ i ∉ w_got w) then
        let count := S (w_count w) in
        let ok := w_ok w && res i in
        let w := Wait ok (w_timedOut w) count (w_got w ++ [i]) in
        if negb ok && negb computeInfo then Some w
        else if (num <=? count)%nat then Some w
        else select_loop num res computeInfo timeout sched w
      else None
  | TimerFired :: _ =>
      if 0 <? timeout then Some (Wait (w_ok w) true (w_count w) (w_got w)) else None
  end.

(** The distinct elements of [longest], as the sequences they point to; the
    code lists them in the order a Go map is iterated in, which is unspecified. *)
Definition partials (longest : list (option nat)) (seqs : list (list Z)) : list (list Z) :=
  omap (λ r, seqs !! r) (remove_dups (omap (λ v, v) longest)).

Definition result_of (w : wait) : CheckResult :=
  if negb (w_ok w) then Illegal else if w_timedOut w then Unknown else Ok.

(** [run i kill] is [checkSingle] on partition [i]; [kills i] what the
    goroutines that were not received in time read from [kill]. *)
Definition checkParallel (hist : list (list (entry V))) (computeInfo : bool) (timeout : Z)
    (fuel : nat) (kills : nat → nat → bool) (sched : list turn) :
    option (CheckResult * option (linearizationInfo V)) :=
  let single (kill : nat → bool) (i : nat) :=
    h ← hist !! i;
    match checkSingle model vnil kill fuel h computeInfo with Done r => Some r | _ => None end in
  (* the result of every goroutine the loop may receive *)
  results ← mapM (single (λ _, false)) (seq 0 (length hist));
  w ← select_loop (length hist) (λ i, default false (results.*1.*1 !! i)) computeInfo timeout
        sched (Wait true false 0 []);
  if computeInfo then
    (* wait for the goroutines that are still running *)
    final ← mapM (λ i, if decide (i ∈ w_got w) then single (λ _, false) i else single (kills i) i)
                 (seq 0 (length hist));
    Some (result_of w,
          Some (Info hist ((λ r : bool * list (option nat) * list (list Z), partials r.1.2 r.2) <$> final)))
  else Some (result_of w, None).

End parallel.

Section api.
Context {V St : Type} `{!EqDecision St} (model : Model V St) (vnil : V).
Context (sprintf_v : V → string) (sprintf_st : St → string) `{!GoSort (Less (V:=V))}.
Context (fuel : nat) (kills : nat → nat → bool) (sched : list turn).

Abbreviation fillDefault := (fillDefault sprintf_v sprintf_st).

Definition checkEvents (hist : list (Event V)) (verbose : bool) (timeout : Z) :
    option (CheckResult * option (linearizationInfo V)) :=
  let model := fillDefault model in
  PartitionEvent_ ← PartitionEvent model;
  partitions ← PartitionEvent_ hist;
  let l := (λ subhistory, convertEntries (renumber subhistory)) <$> partitions in
  checkParallel model vnil l verbose timeout fuel kills sched.

Definition checkOperations (hist : list (Operation V)) (verbose : bool) (timeout : Z) :
    option (CheckResult * option (linearizationInfo V)) :=
  let model := fillDefault model in
  Partition_ ← Partition model;
  partitions ← Partition_ hist;
  let l := makeEntries <$> partitions in
  checkParallel model vnil l verbose timeout fuel kills sched.

Definition CheckOperations (hist : list (Operation V)) : option bool :=
  '(res, _) ← checkOperations hist false 0;
  Some (bool_decide (res = Ok)).

Definition CheckOperationsTimeout (hist : list (Operation V)) (timeout : Z) : option CheckResult :=
  '(res, _) ← checkOperations hist false timeout;
  Some res.

Definition CheckOperationsVerbose (hist : list (Operation V)) (timeout : Z) :=
  checkOperations hist true timeout.

Definition CheckEvents (hist : list (Event V)) : option bool :=
  '(res, _) ← checkEvents hist false 0;
  Some (bool_decide (res = Ok)).

Definition CheckEventsTimeout (hist : list (Event V)) (timeout : Z) : option CheckResult :=
  '(res, _) ← checkEvents hist false timeout;
  Some res.

Definition CheckEventsVerbose (hist : list (Event V)) (timeout : Z) :=
  checkEvents hist true timeout.
End api.

(** ** The loop over [select] *)
Section select.
Context (num : nat) (res : nat → bool) (computeInfo : bool) (timeout : Z).

Definition wait_ok (w : wait) : Prop :=
  w_count w = length (w_got w) ∧ NoDup (w_got w) ∧ (∀ i, i ∈ w_got w → (i < num)%nat) ∧
  (w_ok w = true ↔ ∀ i, i ∈ w_got w → res i = true) ∧
  (w_ok w = false → ∃ i, (i < num)%nat ∧ res i = false).

Lemma wait_ok_init : wait_ok (Wait true false 0 []).
Proof.
  split_and!; [done|constructor|by intros ? ?%elem_of_nil| |done].
  split; [by intros _ ? ?%elem_of_nil|done].
Qed.

Lemma wait_ok_result w i :
  wait_ok w → (i < num)%nat → i ∉ w_got w →
  wait_ok (Wait (w_ok w && res i) (w_timedOut w) (S (w_count w)) (w_got w ++ [i])).
Proof.
  intros (Hc & Hnd & Hlt & Hok & Hno) Hi Hni. split_and!; simpl.
  - rewrite length_app. simpl. lia.
  - apply NoDup_app. split_and!; [done| |apply NoDup_singleton]. set_solver.
  - intros j [?|Hj]%elem_of_app; [auto|]. apply list_elem_of_singleton in Hj. by subst.
  - rewrite andb_true_iff, Hok. split.
    + intros [? ?] j [?|Hj]%elem_of_app; [auto|]. apply list_elem_of_singleton in Hj. by subst.
    + intros H. split; [intros j Hj; apply H; set_solver|apply H; set_solver].
  - intros [?|?]%andb_false_iff; [auto|]. by exists i.
Qed.

(** Without a timeout the loop ends with the conjunction of the results, all
    of them if it is true. *)
Lemma select_loop_sound sched w w' :
  wait_ok w → w_timedOut w = false →
  select_loop num res computeInfo timeout sched w = Some w' →
  (w_ok w' = false → ∃ i, (i < num)%nat ∧ res i = false) ∧
  (w_timedOut w' = false → w_ok w' = true → ∀ i, (i < num)%nat → res i = true) ∧
  (w_timedOut w' = true → 0 < timeout).
Proof.
  revert w. induction sched as [|[i|] sched IH]; intros w Hw Ht; [done| |]; cbn [select_loop].
  - case_decide as Hi; [|done]. destruct Hi as [Hi Hni].
    pose proof (wait_ok_result w i Hw Hi Hni) as Hw2.
    set (w2 := Wait _ _ _ _) in *.
    destruct (negb (w_ok w && res i) && negb computeInfo) eqn:E1.
    + intros [= <-]. apply andb_true_iff in E1 as [E1 _]. apply negb_true_iff in E1.
      destruct Hw2 as (_ & _ & _ & _ & Hno). simpl in *.
      split_and!; [by intros; apply Hno|by rewrite E1|by rewrite Ht].
    + destruct (Nat.leb_spec num (S (w_count w))) as [Hle|Hgt].
      * intros [= <-]. destruct Hw2 as (Hc & Hnd & Hlt & Hok & Hno).
        split_and!; [done| |by simpl; rewrite Ht]. intros _ Hall j Hj.
        apply Hok; [done|].
        assert (Hp : w_got w2 ≡ₚ seq 0 num).
        { apply submseteq_length_Permutation.
          - apply NoDup_submseteq; [done|]. intros x Hx%Hlt. apply elem_of_seq. lia.
          - rewrite length_seq. simpl in Hc. simpl. lia. }
        rewrite Hp. apply elem_of_seq. lia.
      * intros Hrun. by apply (IH w2).
  - destruct (Z.ltb_spec 0 timeout); [|done]. intros [= <-]. simpl.
    destruct Hw as (_ & _ & _ & _ & Hno). done.
Qed.

(** Received in any order, the results are enough for the loop to end. *)
Lemma select_loop_ends order w :
  wait_ok w → (0 < length order)%nat → w_got w ++ order ≡ₚ seq 0 num →
  is_Some (select_loop num res computeInfo timeout (Result <$> order) w).
Proof.
  revert w. induction order as [|i order IH]; intros w Hw Hl Hp; [simpl in Hl; lia|].
  cbn [fmap list_fmap select_loop].
  assert (Hi : i ∈ seq 0 num) by (rewrite <- Hp; set_solver). apply elem_of_seq in Hi.
  assert (Hni : i ∉ w_got w).
  { assert (Hnd : NoDup (w_got w ++ i :: order)) by (rewrite Hp; apply NoDup_seq).
    apply NoDup_app in Hnd as (_ & Hnd & _). intros Hin. apply Hnd in Hin. set_solver. }
  rewrite decide_True by (split; [lia|done]).
  destruct (_ && _); [eauto|]. destruct (Nat.leb_spec num (S (w_count w))) as [|Hgt]; [eauto|].
  apply IH.
  - apply wait_ok_result; [done|lia|done].
  - apply Permutation_length in Hp. rewrite length_app, length_seq in Hp. simpl in Hp.
    destruct Hw as (Hc & _). lia.
  - simpl. by rewrite <- app_assoc.
Qed.
End select.

(** ** The answer of [checkParallel] *)
Section correct.
Context {V St : Type} `{!EqDecision St} (model : Model V St) (eqf : St → St → bool) (R : relation St).
Context (HE : equal_ok model eqf R) (vnil : V).

Implicit Types (es : list (entry V)) (hist : list (list (entry V))).

(** A partition the search is correct on. *)
Definition partition_ok (es : list (entry V)) : Prop :=
  wf_history es ∧ steps_total model es ∧ Z.of_nat (length es) < 2 ^ 63.

Lemma checkSingle_all hist computeInfo :
  (∀ es, es ∈ hist → partition_ok es) →
  ∃ f0, ∀ fuel kill i es, (f0 ≤ fuel)%nat → (∀ k, kill k = false) → hist !! i = Some es →
    ∃ ok lg sq, checkSingle model vnil kill fuel es computeInfo = Done (ok, lg, sq) ∧
                (ok = true ↔ linearizable model es).
Proof.
  intros Hall. induction hist as [|es hist IH]; [by exists 0%nat|].
  destruct IH as (f1 & H1); [intros; apply Hall; set_solver|].
  destruct (Hall es) as (HW & HS & Hl); [set_solver|].
  destruct (checkSingle_run model eqf R HE vnil es HW HS Hl computeInfo (λ _, false)) as (f2 & ok & lg & sq & H2 & Hok & _);
    [done|].
  exists (f1 + f2)%nat. intros fuel kill [|i] es' Hf Hk Hi; simpl in Hi; [|by apply (H1 fuel kill i); [lia|..]].
  simplify_eq. destruct (checkSingle_run model eqf R HE vnil es' HW HS Hl computeInfo kill Hk)
    as (f3 & ok' & lg' & sq' & H3 & Hok' & _).
  exists ok, lg, sq. split; [|done].
  rewrite <- (H2 fuel) by lia. unfold checkSingle. destruct (checkSingle_init _ _ _) as [[[st n] hd]|]; [|done].
  clear -Hk. generalize 0%nat st. induction fuel as [|fuel IH]; intros k st'; [done|]. simpl. rewrite Hk.
  destruct (iteration _ _ _ _ _ _) as [[]|]; [apply IH|done|done].
Qed.

Lemma checkParallel_answer hist computeInfo timeout :
  (∀ es, es ∈ hist → partition_ok es) →
  ∃ f0, ∀ fuel kills sched, (f0 ≤ fuel)%nat →
    (∀ r info, checkParallel model vnil hist computeInfo timeout fuel kills sched = Some (r, info) →
      (r = Ok → ∀ es, es ∈ hist → linearizable model es) ∧
      (r = Illegal → ∃ es, es ∈ hist ∧ ¬ linearizable model es) ∧
      (r = Unknown → 0 < timeout)) ∧
    (computeInfo = false → ∀ order, hist ≠ [] → order ≡ₚ seq 0 (length hist) → sched = Result <$> order →
       is_Some (checkParallel model vnil hist computeInfo timeout fuel kills sched)).
Proof.
  intros Hall. destruct (checkSingle_all hist computeInfo Hall) as (f0 & Hf0).
  exists f0. intros fuel kills sched Hf.
  assert (Hres : ∃ results, mapM (λ i, h ← hist !! i;
            match checkSingle model vnil (λ _, false) fuel h computeInfo with Done r => Some r | _ => None end)
            (seq 0 (length hist)) = Some results ∧
          ∀ i es, hist !! i = Some es → (default false (results.*1.*1 !! i) = true ↔ linearizable model es)).
  { assert (is_Some (mapM (λ i, h ← hist !! i;
            match checkSingle model vnil (λ _, false) fuel h computeInfo with Done r => Some r | _ => None end)
            (seq 0 (length hist)))) as [results Hres].
    { apply mapM_is_Some_2, Forall_forall. intros i Hi%elem_of_seq.
      destruct (lookup_lt_is_Some_2 hist i) as [es Hes]; [lia|]. unfold compose. rewrite Hes. cbn [mbind option_bind].
      destruct (Hf0 fuel (λ _, false) i es) as (ok & lg & sq & -> & _); [done|done|done|eauto]. }
    exists results. split; [done|]. intros i es Hi.
    apply mapM_Some in Hres.
    assert (Hseq : seq 0 (length hist) !! i = Some i)
      by (apply lookup_seq; split; [done|by eapply lookup_lt_Some]).
    destruct (Forall2_lookup_l _ _ _ _ _ Hres Hseq) as (r & Hr & Hrun).
    rewrite Hi in Hrun. cbn [mbind option_bind] in Hrun.
    destruct (Hf0 fuel (λ _, false) i es) as (ok & lg & sq & E & Hok); [done|done|done|].
    rewrite E in Hrun. simplify_eq. rewrite !list_lookup_fmap, Hr. done. }
  destruct Hres as (results & Hm & Hlin). unfold checkParallel. rewrite Hm. cbn [mbind option_bind].
  set (res := λ i, default false (results.*1.*1 !! i)) in *. split.
  - intros r info Hrun.
    destruct (select_loop _ res _ _ _ _) as [w|] eqn:E; [|done]. cbn [mbind option_bind] in Hrun.
    assert (r = result_of w) as ->.
    { destruct computeInfo; [|by simplify_eq].
      destruct (mapM _ _) as [final|] in Hrun; cbn [mbind option_bind] in Hrun; congruence. }
    clear Hrun. apply select_loop_sound in E as (Hno & Hyes & Hto); [|apply wait_ok_init|done].
    unfold result_of. destruct (w_ok w) eqn:Ew; simpl.
    + destruct (w_timedOut w) eqn:Et; split_and!; try done; intros _; [by apply Hto|].
      intros es (i & Hi)%list_elem_of_lookup. apply (Hlin i es Hi). apply Hyes; try done. by eapply lookup_lt_Some.
    + split_and!; try done. intros _. destruct (Hno eq_refl) as (i & Hi & Hf').
      destruct (lookup_lt_is_Some_2 hist i Hi) as [es Hes]. exists es.
      split; [by eapply list_elem_of_lookup_2|]. intros Hl. apply (Hlin i es Hes) in Hl.
      change (res i = true) in Hl. congruence.
  - intros -> order Hne Hp ->.
    destruct (select_loop_ends (length hist) res false timeout order (Wait true false 0 [])) as [w ->];
      [apply wait_ok_init| |done|by eexists].
    apply Permutation_length in Hp. rewrite length_seq in Hp. destruct hist; simpl in *; [done|lia].
Qed.
End correct.
End Parallel.
