(* ===== verification/KvModel.v ===== *)
(** * The key/value model of the tests

    [src/6.5840/src/models/kv.go]: the sequential key/value store the linearizability
    tests of the services are checked against. It models one key; its
    [Partition] splits a history by key, which is shown to lose nothing: the
    whole history is linearizable for the whole store exactly when every
    partition is for its key. *)
From S2P Require Import Prelude Porcupine Entries CheckerProof Parallel.
Import Porcupine Entries CheckerProof Parallel.
Local Open Scope Z_scope.

Module KvModel.

Record KvInput := MkKvInput {
  Op : Z; (* 0 => get, 1 => put, 2 => append *)
  in_Key : string;
  in_Value : string;
}.

Record KvOutput := MkKvOutput { out_Value : string }.

(** The dynamic values a history of this model can hold. *)
Inductive iface :=
| IKvInput (i : KvInput)
| IKvOutput (o : KvOutput)
| INil.

(** The type assertions [input.(KvInput)] and [output.(KvOutput)]: a panic on another type. *)
Definition as_KvInput (v : iface) : option KvInput :=
  match v with IKvInput i => Some i | _ => None end.
Definition as_KvOutput (v : iface) : option KvOutput :=
  match v with IKvOutput o => Some o | _ => None end.

(** The first loop of [Partition]: the operations of each key, in order. *)
Fixpoint partition_loop (history : list (Operation iface)) (m : gmap string (list (Operation iface))) :
    option (gmap string (list (Operation iface))) :=
  match history with
  | [] => Some m
  | v :: rest =>
      inp ← as_KvInput (op_Input v);
      let key := in_Key inp in
      partition_loop rest (<[key := default [] (m !! key) ++ [v]]> m)
  end.

Definition KvModel_Partition `{!GoSort str_ltb} (history : list (Operation iface)) :
    option (list (list (Operation iface))) :=
  m ← partition_loop history ∅;
  let keys := (map_to_list m).*1 in
  let keys := gosort str_ltb keys in
  Some ((λ k, default [] (m !! k)) <$> keys).

Definition KvModel_Init : string := "".

Definition KvModel_Step (state : string) (input output : iface) : option (bool * string) :=
  inp ← as_KvInput input;
  out ← as_KvOutput output;
  let st := state in
  if Op inp =? 0 then
    (* get *)
    Some (String.eqb (out_Value out) st, state)
  else if Op inp =? 1 then
    (* put *)
    Some (true, in_Value inp)
  else if Op inp =? 2 then
    (* append *)
    Some (true, (st ++ in_Value inp)%string)
  else
    (* append with return value *)
    Some (String.eqb (out_Value out) st, (st ++ in_Value inp)%string).

Definition KvModel_DescribeOperation (input output : iface) : option string :=
  inp ← as_KvInput input;
  out ← as_KvOutput output;
  Some (if (Op inp =? 0)%Z then "get('" ++ in_Key inp ++ "') -> '" ++ out_Value out ++ "'"
        else if (Op inp =? 1)%Z then "put('" ++ in_Key inp ++ "', '" ++ in_Value inp ++ "')"
        else if (Op inp =? 2)%Z then "append('" ++ in_Key inp ++ "', '" ++ in_Value inp ++ "')"
        else "<invalid>")%string.

Definition KvModel `{!GoSort str_ltb} : Model iface string :=
  MkModel (Some KvModel_Partition) None KvModel_Init KvModel_Step None
          (Some KvModel_DescribeOperation) None.

(** ** The store as a whole *)

(** The specification [Partition] is justified by: every key has its own value. *)
Definition store_Step (store : gmap string string) (input output : iface) : option (bool * gmap string string) :=
  inp ← as_KvInput input;
  '(ok, v) ← KvModel_Step (default "" (store !! in_Key inp)) input output;
  Some (ok, <[in_Key inp := v]> store).

Definition StoreModel : Model iface (gmap string string) :=
  MkModel None None ∅ store_Step None None None.

Definition well_typed (o : Operation iface) : Prop :=
  is_Some (as_KvInput (op_Input o)) ∧ is_Some (as_KvOutput (op_Output o)).

Definition key_of (o : Operation iface) : string :=
  match op_Input o with IKvInput i => in_Key i | _ => "" end.

Section locality.
Context `{!GoSort str_ltb}.
Implicit Types (ops l : list (Operation iface)) (o : Operation iface) (k : string).

Lemma KvModel_equal_ok sv ss : equal_ok (fillDefault (St:=string) sv ss KvModel) ShallowEqual eq.
Proof.
  constructor.
  - done.
  - apply _.
  - intros a b H. by apply bool_decide_eq_true in H.
  - intros s s' v o t -> Hst. eauto.
Qed.

Lemma KvModel_steps_total ops :
  (∀ o, o ∈ ops → well_typed o) → ops_steps_total KvModel ops.
Proof.
  intros Hw s o Ho. destruct (Hw o Ho) as [[i Hi] [u Hu]].
  simpl. unfold KvModel_Step. rewrite Hi, Hu. cbn [mbind option_bind].
  repeat (destruct (_ =? _); [eauto|]). eauto.
Qed.

(** ** [Partition] *)

Lemma partition_loop_ok ops m :
  (∀ o, o ∈ ops → well_typed o) →
  ∃ m', partition_loop ops m = Some m' ∧
        ∀ k, m' !! k = match filter (λ o, key_of o = k) ops with
                       | [] => m !! k
                       | l => Some (default [] (m !! k) ++ l)
                       end.
Proof.
  revert m. induction ops as [|o ops IH]; intros m Hw; [by exists m|].
  destruct (Hw o) as [[i Hi] _]; [set_solver|]. cbn [partition_loop]. rewrite Hi. cbn [mbind option_bind].
  assert (Hk : in_Key i = key_of o).
  { unfold key_of. destruct (op_Input o); simpl in Hi; simplify_eq; done. }
  destruct (IH (<[in_Key i := default [] (m !! in_Key i) ++ [o]]> m)) as (m' & -> & Hm'); [intros; apply Hw; set_solver|].
  exists m'. split; [done|]. intros k. rewrite Hm', Hk, filter_cons, lookup_insert.
  destruct (decide (key_of o = k)) as [<-|]; [|done].
  destruct (filter _ ops) as [|o' l]; simpl; [done|]. by rewrite <- app_assoc.
Qed.

Lemma KvModel_Partition_ok ops :
  (∀ o, o ∈ ops → well_typed o) →
  ∃ parts, KvModel_Partition ops = Some parts ∧
           ∀ p, p ∈ parts ↔ ∃ k, p = filter (λ o, key_of o = k) ops ∧ p ≠ [].
Proof.
  intros Hw. destruct (partition_loop_ok ops ∅ Hw) as (m & Hm & Hlk).
  unfold KvModel_Partition. rewrite Hm. cbn [mbind option_bind]. eexists. split; [done|].
  assert (Hlk' : ∀ k, m !! k = match filter (λ o, key_of o = k) ops with [] => None | l => Some l end).
  { intros k. rewrite Hlk, lookup_empty. by destruct (filter _ ops). }
  intros p. rewrite list_elem_of_fmap. setoid_rewrite gosort_perm. setoid_rewrite list_elem_of_fmap. split.
  - intros (k & -> & [k' l] & -> & Hin%elem_of_map_to_list). simpl. rewrite Hin. simpl.
    rewrite Hlk' in Hin. exists k'. destruct (filter _ ops); simplify_eq. done.
  - intros (k & -> & Hne). specialize (Hlk' k).
    assert (Hmk : m !! k = Some (filter (λ o, key_of o = k) ops)) by by destruct (filter _ ops).
    exists k. rewrite Hmk. split; [done|]. exists (k, filter (λ o, key_of o = k) ops).
    split; [done|]. by apply elem_of_map_to_list.
Qed.

(** ** A run of the store is a run of every key *)

Lemma runs_store l store :
  (∀ o, o ∈ l → well_typed o) →
  runs StoreModel store l ↔
  ∀ k, runs KvModel (default "" (store !! k)) (filter (λ o, key_of o = k) l).
Proof.
  revert store. induction l as [|o l IH]; intros store Hw; [by split|].
  destruct (Hw o) as [[i Hi] _]; [set_solver|].
  assert (Hk : in_Key i = key_of o).
  { unfold key_of. destruct (op_Input o); simpl in Hi; simplify_eq; done. }
  assert (Hw' : ∀ o, o ∈ l → well_typed o) by (intros; apply Hw; set_solver).
  cbn [runs StoreModel Step]. unfold store_Step. rewrite Hi. cbn [mbind option_bind]. rewrite Hk. split.
  - intros (st' & Hst & Hr) k. rewrite filter_cons. specialize (IH st' Hw').
    destruct (KvModel_Step _ _ _) as [[ok v]|] eqn:E in Hst; cbn in Hst; [|done]. simplify_eq.
    rewrite IH in Hr. specialize (Hr k). rewrite lookup_insert in Hr.
    destruct (decide (key_of o = k)) as [<-|]; [|done]. simpl. exists v. done.
  - intros H. pose proof (H (key_of o)) as Ho. rewrite filter_cons_True in Ho by done.
    cbn [runs KvModel Step] in Ho. destruct Ho as (v & Hst & Hr).
    exists (<[key_of o := v]> store). rewrite Hst. cbn [mbind option_bind]. split; [done|].
    apply IH; [done|]. intros k. rewrite lookup_insert. case_decide as E; [by subst|].
    specialize (H k). by rewrite filter_cons_False in H by congruence.
Qed.

(** ** Merging the linearizations of the keys

    Every operation of a linearization gets a point in time between its
    invocation and its response, increasing along the linearization; sorting
    all operations by their points keeps the order of each key and the order
    of real time. *)
Definition point_less (a b : Z * Operation iface) : bool := a.1 <? b.1.

#[local] Instance point_less_StrictWeak : StrictWeak point_less.
Proof.
  split; unfold point_less.
  - intros a b ?%Z.ltb_lt. apply Z.ltb_ge. lia.
  - intros a b c ?%Z.ltb_ge ?%Z.ltb_ge. apply Z.ltb_ge. lia.
Qed.

Fixpoint points (t : Z) (l : list (Operation iface)) : list (Z * Operation iface) :=
  match l with
  | [] => []
  | o :: l => let t := Z.max t (op_Call o) in (t, o) :: points t l
  end.

Abbreviation in_order l := (StronglySorted (λ a b, ¬ op_Return b < op_Call a) l).

Lemma points_snd t l : (points t l).*2 = l.
Proof. revert t. induction l as [|o l IH]; intros t; simpl; [done|]. by rewrite IH. Qed.

Lemma points_ge t l x : x ∈ points t l → t ≤ x.1.
Proof.
  revert t. induction l as [|o l IH]; intros t; simpl; [by intros ?%elem_of_nil|].
  intros [-> | Hx%IH]%elem_of_cons; simpl; lia.
Qed.

Lemma points_sorted t l : StronglySorted (λ a b, point_less b a = false) (points t l).
Proof.
  revert t. induction l as [|o l IH]; intros t; simpl; constructor; [done|].
  apply Forall_forall. intros x Hx%points_ge. unfold point_less. simpl. apply Z.ltb_ge. lia.
Qed.

Lemma points_between t l x :
  (∀ o, o ∈ l → op_Call o ≤ op_Return o ∧ t ≤ op_Return o) → in_order l →
  x ∈ points t l → op_Call x.2 ≤ x.1 ≤ op_Return x.2.
Proof.
  intros Ht Hs. revert t Ht. induction Hs as [|o l Hs IH Hf]; intros t Ht; simpl; [by intros ?%elem_of_nil|].
  intros [-> | Hx]%elem_of_cons; simpl.
  - specialize (Ht o). set_unfold in Ht. destruct Ht; [by left|lia].
  - eapply IH; [|done]. intros o' Ho'. rewrite Forall_forall in Hf. specialize (Hf o' Ho').
    destruct (Ht o') as [??]; [set_solver|]. lia.
Qed.

Lemma linearization_points l :
  (∀ o, o ∈ l → op_Call o ≤ op_Return o) → in_order l →
  ∃ pl, pl.*2 = l ∧ StronglySorted (λ a b, point_less b a = false) pl ∧
        ∀ x, x ∈ pl → op_Call x.2 ≤ x.1 ≤ op_Return x.2.
Proof.
  intros Ht Hs. destruct l as [|o l]; [exists []; split_and!; [done|constructor|by intros ? ?%elem_of_nil]|].
  exists (points (op_Call o) (o :: l)). split_and!; [apply points_snd|apply points_sorted|].
  intros x. apply points_between; [|done]. intros o' Ho'. split; [by apply Ht|].
  apply elem_of_cons in Ho' as [-> | Ho']; [apply Ht; set_solver|].
  apply StronglySorted_cons in Hs as [Hf _]. rewrite Forall_forall in Hf. specialize (Hf o' Ho'). lia.
Qed.

(** The points of all keys of [ks], one key after the other. *)
Lemma collect_points ops ks :
  NoDup ks → (∀ o, o ∈ ops → op_Call o ≤ op_Return o) →
  (∀ k, k ∈ ks → ops_linearizable KvModel (filter (λ o, key_of o = k) ops)) →
  ∃ pl, (∀ x, x ∈ pl → key_of x.2 ∈ ks ∧ op_Call x.2 ≤ x.1 ≤ op_Return x.2) ∧
    ∀ k, k ∈ ks →
      let plk := filter (λ x, key_of x.2 = k) pl in
      plk.*2 ≡ₚ filter (λ o, key_of o = k) ops ∧
      StronglySorted (λ a b, point_less b a = false) plk ∧ runs KvModel "" (plk.*2).
Proof.
  intros Hnd Ht. induction Hnd as [|k ks Hk Hnd IH]; intros Hlin.
  { exists []. split; [by intros ? ?%elem_of_nil|by intros ? ?%elem_of_nil]. }
  destruct IH as (pl & Hin & Hpl); [intros; apply Hlin; set_solver|].
  destruct (Hlin k) as (l & Hp & Hs & Hr); [set_solver|].
  assert (Hl : ∀ o, o ∈ l → o ∈ ops ∧ key_of o = k).
  { intros o. rewrite Hp, list_elem_of_filter. tauto. }
  destruct (linearization_points l) as (plk & Hsnd & Hsk & Hbk); [intros o [? _]%Hl; by apply Ht|done|].
  assert (Hkey : ∀ x, x ∈ plk → key_of x.2 = k).
  { intros x Hx. apply Hl. rewrite <- Hsnd. apply list_elem_of_fmap. eauto. }
  exists (plk ++ pl). split.
  - intros x [Hx|Hx]%elem_of_app; [rewrite (Hkey x Hx); split; [set_solver|by apply Hbk]|].
    destruct (Hin x Hx). split; [set_solver|done].
  - intros k' Hk'. cbn zeta. rewrite filter_app.
    destruct (decide (k' = k)) as [->|Hne].
    + rewrite (filter_all _ plk) by done. rewrite (filter_none _ pl), app_nil_r, Hsnd; [done|].
      intros x [Hx _]%Hin <-. done.
    + rewrite (filter_none _ plk) by (intros x Hx; rewrite (Hkey x Hx); congruence). simpl.
      apply Hpl. set_solver.
Qed.

Theorem store_linearizable ops parts :
  (∀ o, o ∈ ops → well_typed o ∧ op_Call o ≤ op_Return o) → KvModel_Partition ops = Some parts →
  ops_linearizable StoreModel ops ↔ ∀ p, p ∈ parts → ops_linearizable KvModel p.
Proof.
  intros Hops Hparts.
  destruct (KvModel_Partition_ok ops) as (parts' & Hparts' & Hin); [apply Hops|]. simplify_eq.
  split.
  - intros (l & Hp & Hs & Hr) p (k & -> & _)%Hin.
    exists (filter (λ o, key_of o = k) l). split_and!; [by rewrite Hp|by apply StronglySorted_filter|].
    apply runs_store with (k := k) in Hr; [|intros o; rewrite Hp; apply Hops].
    cbn [Init StoreModel] in Hr. by rewrite lookup_empty in Hr.
  - intros Hlin.
    destruct (collect_points ops (remove_dups (key_of <$> ops))) as (pl & Hpl & Hk).
    { apply NoDup_remove_dups. } { apply Hops. }
    { intros k (o & -> & Ho)%elem_of_remove_dups%list_elem_of_fmap. apply Hlin, Hin. exists (key_of o). split; [done|].
      intros E. assert (o ∈ filter (λ o', key_of o' = key_of o) ops) as Hf by (by apply list_elem_of_filter).
      rewrite E in Hf. by apply elem_of_nil in Hf. }
    assert (Hkeys : ∀ k, k ∉ remove_dups (key_of <$> ops) → filter (λ o, key_of o = k) ops = []).
    { intros k Hnk. apply filter_none. intros o Ho <-. apply Hnk, elem_of_remove_dups, list_elem_of_fmap. eauto. }
    set (srt := insertion_sort point_less pl).
    assert (Hsrt : ∀ k, filter (λ o, key_of o = k) (srt.*2) ≡ₚ filter (λ o, key_of o = k) ops ∧
                        runs KvModel "" (filter (λ o, key_of o = k) (srt.*2))).
    { intros k. rewrite filter_map. unfold srt. rewrite (insertion_sort_filter point_less).
      destruct (decide (k ∈ remove_dups (key_of <$> ops))) as [Hin'|Hnin].
      - destruct (Hk k Hin') as (Hp & Hs & Hr). rewrite insertion_sort_id by done. done.
      - rewrite (filter_none (λ x, key_of x.2 = k) pl), (Hkeys k Hnin); [done|].
        intros x [Hx _]%Hpl <-. done. }
    assert (Hperm : srt.*2 ≡ₚ ops) by (apply (Permutation_by_filter key_of); intros k; apply Hsrt).
    exists (srt.*2). split_and!; [done| |].
    + apply StronglySorted_alt. intros i j a b Hij Hi Hj.
      rewrite list_lookup_fmap_Some in Hi, Hj. destruct Hi as (xa & -> & Hi), Hj as (xb & -> & Hj).
      pose proof (StronglySorted_lookup _ _ _ _ _ _ (insertion_sort_sorted point_less pl) Hij Hi Hj) as Hle.
      unfold point_less in Hle. apply Z.ltb_ge in Hle.
      assert (Hpt : ∀ x, x ∈ srt → op_Call x.2 ≤ x.1 ≤ op_Return x.2).
      { intros x. unfold srt. rewrite insertion_sort_perm. by intros [_ ?]%Hpl. }
      pose proof (Hpt xa (list_elem_of_lookup_2 _ _ _ Hi)). pose proof (Hpt xb (list_elem_of_lookup_2 _ _ _ Hj)). lia.
    + apply runs_store; [intros o; rewrite Hperm; apply Hops|]. intros k. simpl. rewrite lookup_empty. apply Hsrt.
Qed.
End locality.
End KvModel.
