(* ===== verification/CheckerApi.v ===== *)
(** * What the API of the checker promises

    The theorems on [checkSingle], on [CheckOperations] and [CheckEvents] of
    [src/6.5840/src/porcupine], and on checking a history of the key/value
    services against [models.KvModel]. *)
From S2P Require Import Prelude Bitset Porcupine LinkedList Checker Linearizability CheckerProof CheckSingle Entries Parallel KvModel.
Import Porcupine LinkedList Checker Linearizability CheckerProof CheckSingle Entries Parallel KvModel.
Local Open Scope Z_scope.

Module CheckerApi.

(** The partitions [checkOperations] checks. *)
Definition partition_of {V St} (model : Model V St) (hist : list (Operation V)) : option (list (list (Operation V))) :=
  match Partition model with None => Some (NoPartition hist) | Some f => f hist end.

Section operations.
Context {V St : Type} `{!EqDecision St} (model : Model V St) (eqf : St → St → bool) (R : relation St).
Context (vnil : V) (sprintf_v : V → string) (sprintf_st : St → string) `{!GoSort (Less (V:=V))}.
Context (HE : equal_ok (fillDefault sprintf_v sprintf_st model) eqf R).
Implicit Types (hist p : list (Operation V)) (parts : list (list (Operation V))) (o : Operation V).

(** A partition with times that make sense, short enough for its entries to
    be counted in an [int], on whose operations the model does not panic. *)
Definition ops_ok p : Prop :=
  ops_steps_total model p ∧ (∀ o, o ∈ p → op_Call o ≤ op_Return o) ∧ Z.of_nat (length p) < 2 ^ 62.

Lemma ops_ok_partition p : ops_ok p → partition_ok (fillDefault sprintf_v sprintf_st model) (makeEntries p).
Proof using Type.
  intros (Hs & Ht & Hl). split_and!; [by apply makeEntries_wf|by apply makeEntries_steps_total|].
  rewrite makeEntries_length. lia.
Qed.

Lemma checkOperations_parts fuel kills sched hist parts verbose timeout :
  partition_of model hist = Some parts →
  checkOperations model vnil sprintf_v sprintf_st fuel kills sched hist verbose timeout =
  checkParallel (fillDefault sprintf_v sprintf_st model) vnil (makeEntries <$> parts) verbose timeout fuel kills sched.
Proof using Type.
  unfold partition_of, checkOperations. cbn [fillDefault Partition mbind option_bind].
  destruct (Partition model) as [f|]; cbn [mbind option_bind]; [by intros ->|by intros [= <-]].
Qed.

Lemma checkOperations_answer hist parts timeout verbose :
  partition_of model hist = Some parts → (∀ p, p ∈ parts → ops_ok p) →
  ∃ f0, ∀ fuel kills sched, (f0 ≤ fuel)%nat →
    (∀ r info,
      checkOperations model vnil sprintf_v sprintf_st fuel kills sched hist verbose timeout = Some (r, info) →
      (r = Ok → ∀ p, p ∈ parts → ops_linearizable model p) ∧
      (r = Illegal → ∃ p, p ∈ parts ∧ ¬ ops_linearizable model p) ∧ (r = Unknown → 0 < timeout)) ∧
    (verbose = false → ∀ order, parts ≠ [] → order ≡ₚ seq 0 (length parts) → sched = Result <$> order →
       is_Some (checkOperations model vnil sprintf_v sprintf_st fuel kills sched hist verbose timeout)).
Proof using HE.
  intros Hp Hok.
  destruct (checkParallel_answer _ eqf R HE vnil (makeEntries <$> parts) verbose timeout) as [f0 Hf0].
  { intros es (p & -> & Hin)%list_elem_of_fmap. by apply ops_ok_partition, Hok. }
  assert (Hlin : ∀ p, p ∈ parts →
     linearizable (fillDefault sprintf_v sprintf_st model) (makeEntries p) ↔ ops_linearizable model p).
  { intros p Hin. destruct (Hok p Hin) as (_ & Ht & _).
    by apply (makeEntries_linearizable (fillDefault sprintf_v sprintf_st model)). }
  exists f0. intros fuel kills sched Hf. destruct (Hf0 fuel kills sched Hf) as [Hans Hends].
  rewrite (checkOperations_parts fuel kills sched hist parts verbose timeout Hp). split.
  - intros r info Hr. destruct (Hans r info Hr) as (Hk & Hi & Hu). split_and!; [..|done].
    + intros Er p Hin. apply Hlin; [done|]. apply Hk; [done|]. by apply list_elem_of_fmap_2.
    + intros Er. destruct (Hi Er) as (es & (p & -> & Hin)%list_elem_of_fmap & Hn).
      exists p. split; [done|]. by rewrite <- Hlin.
  - intros -> order Hne Ho ->. apply (Hends eq_refl order); [|by rewrite length_fmap|done].
    by intros ?%fmap_nil_inv.
Qed.

Lemma CheckOperations_bool hist parts :
  partition_of model hist = Some parts → (∀ p, p ∈ parts → ops_ok p) →
  ∃ f0, ∀ fuel kills sched, (f0 ≤ fuel)%nat →
    (∀ b, CheckOperations model vnil sprintf_v sprintf_st fuel kills sched hist = Some b →
          b = true ↔ ∀ p, p ∈ parts → ops_linearizable model p) ∧
    (∀ order, parts ≠ [] → order ≡ₚ seq 0 (length parts) → sched = Result <$> order →
       is_Some (CheckOperations model vnil sprintf_v sprintf_st fuel kills sched hist)).
Proof using HE.
  intros Hp Hok. destruct (checkOperations_answer hist parts 0 false Hp Hok) as [f0 Hf0].
  exists f0. intros fuel kills sched Hf. destruct (Hf0 fuel kills sched Hf) as [Hans Hends].
  unfold CheckOperations. split.
  - intros b Hb. destruct (checkOperations _ _ _ _ _ _ _ _ _ _) as [[r info]|]; [|done].
    cbn [mbind option_bind] in Hb. injection Hb as <-.
    destruct (Hans r info eq_refl) as (Hk & Hi & Hu). destruct r; simpl.
    + specialize (Hu eq_refl). lia.
    + split; [|done]. intros _. by apply Hk.
    + split; [done|]. intros Hall. destruct (Hi eq_refl) as (p & Hin & Hn). by destruct Hn; apply Hall.
  - intros order Hne Ho ->. destruct (Hends eq_refl order Hne Ho eq_refl) as [[r info] ->].
    by eexists.
Qed.
End operations.

(** ** The properties *)

Section single.
Context {V St : Type} (model : Model V St) (eqf : St → St → bool) (R : relation St).

(** C14: on a well-formed history, with a model that answers every step and an
    [Equal] that only identifies states the model cannot tell apart,
    [checkSingle] ends without a panic after finitely many iterations of its
    loop, and answers true exactly when the history is linearizable. *)
Theorem checkSingle_decides (vnil : V) (es : list (entry V)) (computePartial : bool) (kill : nat → bool) :
  equal_ok model eqf R → wf_history es → steps_total model es → Z.of_nat (length es) < 2 ^ 63 →
  (∀ k, kill k = false) →
  ∃ f0 ok longest seqs,
    (∀ fuel, (f0 ≤ fuel)%nat → checkSingle model vnil kill fuel es computePartial = Done (ok, longest, seqs)) ∧
    (ok = true ↔ linearizable model es).
Proof.
  intros HE HW HS Hl Hk.
  destruct (checkSingle_run model eqf R HE vnil es HW HS Hl computePartial kill Hk) as (f0 & ok & lg & sq & H1 & H2 & _).
  by exists f0, ok, lg, sq.
Qed.

(** C36: what [checkSingle] returns in [longest] has one element per operation,
    and every one of them that is not nil points to a sequence of operation
    ids that is the beginning of a linearization and contains the operation. *)
Theorem checkSingle_partials (vnil : V) (es : list (entry V)) (computePartial : bool) (fuel : nat)
    (ok : bool) (longest : list (option nat)) (seqs : list (list Z)) :
  equal_ok model eqf R → wf_history es → steps_total model es → Z.of_nat (length es) < 2 ^ 63 →
  checkSingle model vnil (λ _, false) fuel es computePartial = Done (ok, longest, seqs) →
  Z.of_nat (length longest) = Z.of_nat (length es) / 2 ∧
  ∀ i r, longest !! i = Some (Some r) →
    ∃ ids, seqs !! r = Some ids ∧ Z.of_nat i ∈ ids ∧ partial_linearization model es ids.
Proof.
  intros HE HW HS Hl Hrun.
  destruct (checkSingle_run model eqf R HE vnil es HW HS Hl computePartial (λ _, false))
    as (f0 & ok' & lg & sq & H1 & _ & Hp); [done|].
  apply (checkSingle_mono model vnil _ _ _ _ fuel (f0 + fuel)%nat) in Hrun; [|lia].
  rewrite H1 in Hrun by lia. injection Hrun as -> -> ->. exact Hp.
Qed.
End single.

Section events.
Context {V St : Type} `{!EqDecision St} (model : Model V St) (eqf : St → St → bool) (R : relation St).
Context (vnil : V) (sprintf_v : V → string) (sprintf_st : St → string).

(** On a history of events in which every operation has a call and, later,
    a return, with a model that does not split it, [CheckEvents] with enough
    fuel answers true exactly when the history is linearizable, and it
    answers when the result of its only goroutine arrives. *)
Theorem CheckEvents_decides (evs : list (Event V)) :
  equal_ok (fillDefault sprintf_v sprintf_st model) eqf R → PartitionEvent model = None →
  wf_events evs → steps_total model (convertEntries (renumber evs)) → Z.of_nat (length evs) < 2 ^ 63 →
  ∃ f0, ∀ fuel kills sched, (f0 ≤ fuel)%nat →
    let answer := CheckEvents model vnil sprintf_v sprintf_st fuel kills sched evs in
    (∀ b, answer = Some b →
       b = true ↔ linearizable (fillDefault sprintf_v sprintf_st model) (convertEntries (renumber evs))) ∧
    (sched = [Result 0] → is_Some answer).
Proof.
  intros HE HP HW HS Hl.
  destruct (checkParallel_answer _ eqf R HE vnil [convertEntries (renumber evs)] false 0) as [f0 Hf0].
  { intros es ->%list_elem_of_singleton. split_and!; [by apply convert_renumber_wf|done|].
    unfold convertEntries. rewrite length_imap, renumber_length. lia. }
  exists f0. intros fuel kills sched Hf. destruct (Hf0 fuel kills sched Hf) as [Hans Hends].
  assert (E : checkEvents model vnil sprintf_v sprintf_st fuel kills sched evs false 0 =
              checkParallel (fillDefault sprintf_v sprintf_st model) vnil [convertEntries (renumber evs)]
                false 0 fuel kills sched).
  { unfold checkEvents. cbn [fillDefault PartitionEvent]. by rewrite HP. }
  unfold CheckEvents. rewrite E. split.
  - intros b Hb. destruct (checkParallel _ _ _ _ _ _ _ _) as [[r info]|]; [|done].
    cbn [mbind option_bind] in Hb. injection Hb as <-.
    destruct (Hans r info eq_refl) as (Hk & Hi & Hu). destruct r; simpl.
    + specialize (Hu eq_refl). lia.
    + split; [|done]. intros _. apply Hk; [done|]. by apply list_elem_of_singleton.
    + split; [done|]. destruct (Hi eq_refl) as (es & ->%list_elem_of_singleton & Hn). done.
  - intros ->. by destruct (Hends eq_refl [0%nat]) as [[r info] ->].
Qed.
End events.

(** C31: [lift] takes a call and its return out of the list of entries and
    changes nothing else of them; [unlift] puts both back where they were, so
    that the memory is again what it was. *)
Theorem lift_then_unlift {V} (h : heap V) (l1 : list loc) (p e : loc) (l2 : list loc) (r : loc) (l3 : list loc) nd :
  dll h (l1 ++ p :: e :: l2 ++ r :: l3) → h !! e = Some nd → n_match nd = Some r →
  ∃ h', lift (Some e) h = Some (tt, h') ∧ dll h' (l1 ++ p :: l2 ++ l3) ∧ contents h' = contents h ∧
        unlift (Some e) h' = Some (tt, h).
Proof. apply lift_unlift. Qed.

(** C35: [makeEntries] keeps every operation: when no response is before its
    invocation, its entries are a well-formed history, sorted by [byTime],
    and linearizable exactly when the operations are, whatever sorting
    function keeps the contract of [sort.Sort]. *)
Theorem makeEntries_faithful {V St} (model : Model V St) `{!GoSort (Less (V:=V))} (ops : list (Operation V)) :
  (∀ o, o ∈ ops → op_Call o ≤ op_Return o) →
  wf_history (makeEntries ops) ∧ StronglySorted (λ a b, Less b a = false) (makeEntries ops) ∧
  (linearizable model (makeEntries ops) ↔ ops_linearizable model ops).
Proof.
  intros Ht. split_and!; [by apply makeEntries_wf|apply gosort_sorted|by apply makeEntries_linearizable].
Qed.

(** [renumber] followed by [convertEntries] is a renaming of the operations:
    the entries are in the order of the events, with their values, clients and
    kinds, two of them have the same id exactly when the events had, and they are a
    well-formed history, with ids from 0. *)
Theorem renumber_convert_renames {V} (evs : list (Event V)) :
  wf_events evs →
  wf_history (convertEntries (renumber evs)) ∧ length (convertEntries (renumber evs)) = length evs ∧
  (∀ p ev en, evs !! p = Some ev → convertEntries (renumber evs) !! p = Some en →
     value en = ev_Value ev ∧ clientId en = ev_ClientId ev ∧ (kind en = callEntry ↔ ev_Kind ev = CallEvent)) ∧
  (∀ p q ev ev' en en', evs !! p = Some ev → evs !! q = Some ev' →
     convertEntries (renumber evs) !! p = Some en → convertEntries (renumber evs) !! q = Some en' →
     id en = id en' ↔ ev_Id ev = ev_Id ev').
Proof.
  intros HW. destruct (renumber_ok evs) as (m & i & Hren & Hnum & Hdom). split_and!.
  - by apply convert_renumber_wf.
  - unfold convertEntries. by rewrite length_imap, renumber_length.
  - intros p ev en Hp. rewrite (convertEntries_renamed evs m p ev Hren Hp). intros [= <-]. simpl.
    by destruct (ev_Kind ev).
  - intros p q ev ev' en en' Hp Hq.
    rewrite (convertEntries_renamed evs m p ev Hren Hp), (convertEntries_renamed evs m q ev' Hren Hq).
    intros [= <-] [= <-]. simpl. split; [|by intros ->].
    destruct (Hdom (ev_Id ev)) as [_ [r Hr]]; [by exists ev; split; [eapply list_elem_of_lookup_2|]|].
    destruct (Hdom (ev_Id ev')) as [_ [r' Hr']]; [by exists ev'; split; [eapply list_elem_of_lookup_2|]|].
    rewrite Hr, Hr'. simpl. intros ->. destruct Hnum as (_ & _ & Hinj & _). by eapply Hinj.
Qed.

Section kv.
Context `{!GoSort str_ltb} `{!GoSort (Less (V:=iface))} (sprintf_v : iface → string) (sprintf_st : string → string).
Implicit Types (hist : list (Operation iface)).

Lemma parts_ok hist parts :
  (∀ o, o ∈ hist → well_typed o ∧ op_Call o ≤ op_Return o) → Z.of_nat (length hist) < 2 ^ 62 →
  KvModel_Partition hist = Some parts → ∀ p, p ∈ parts → ops_ok KvModel p.
Proof using Type.
  intros Hops Hl Hparts p Hp. destruct (KvModel_Partition_ok hist) as (parts' & E & Hin); [apply Hops|].
  simplify_eq. apply Hin in Hp as (k & -> & _). split_and!.
  - apply KvModel_steps_total. intros o [_ Ho]%list_elem_of_filter. by apply Hops.
  - intros o [_ Ho]%list_elem_of_filter. by apply Hops.
  - pose proof (length_filter (λ o, key_of o = k) hist). lia.
Qed.

(** C1: [CheckOperations] with [models.KvModel] decides, for every history
    whose values are those of the model, that is not empty and in which no
    response is before its invocation, whether the history is linearizable
    for the whole key/value store: whatever the scheduler does an answer it
    gives is the right one, and it gives one whenever the results of all
    partitions arrive, in any order. *)
Theorem CheckOperations_KvModel hist :
  hist ≠ [] → (∀ o, o ∈ hist → well_typed o ∧ op_Call o ≤ op_Return o) → Z.of_nat (length hist) < 2 ^ 62 →
  ∃ f0 parts, KvModel_Partition hist = Some parts ∧
    ∀ fuel kills sched, (f0 ≤ fuel)%nat →
      let answer := CheckOperations KvModel INil sprintf_v sprintf_st fuel kills sched hist in
      (∀ b, answer = Some b → b = true ↔ ops_linearizable StoreModel hist) ∧
      (∀ order, order ≡ₚ seq 0 (length parts) → sched = Result <$> order → is_Some answer).
Proof.
  intros Hne Hops Hl. destruct (KvModel_Partition_ok hist) as (parts & Hparts & Hin); [apply Hops|].
  destruct (CheckOperations_bool KvModel _ _ INil sprintf_v sprintf_st
              (KvModel_equal_ok sprintf_v sprintf_st) hist parts Hparts) as [f0 Hf0].
  { by apply (parts_ok hist). }
  exists f0, parts. split; [done|]. intros fuel kills sched Hf. cbn zeta.
  destruct (Hf0 fuel kills sched Hf) as [Hans Hends]. split.
  - intros b Hb. rewrite (Hans b Hb). symmetry. by apply store_linearizable.
  - intros order. apply Hends. intros ->. destruct hist as [|o hist]; [done|].
    apply (not_elem_of_nil (filter (λ o', key_of o' = key_of o) (o :: hist))).
    apply Hin. exists (key_of o). split; [done|]. by rewrite filter_cons_True.
Qed.

(** On an empty history [KvModel] has no partition, so no goroutine ever
    sends a result, and without a timeout [CheckOperations] waits forever,
    whatever the scheduler does. *)
Theorem CheckOperations_empty_hangs fuel kills sched :
  CheckOperations KvModel INil sprintf_v sprintf_st fuel kills sched [] = None.
Proof.
  unfold CheckOperations, checkOperations, checkParallel.
  cbn [fillDefault Partition KvModel mbind option_bind].
  assert (E : KvModel_Partition [] = Some []).
  { unfold KvModel_Partition. simpl. rewrite map_to_list_empty. simpl.
    by rewrite (proj1 (Permutation_nil_r _) (gosort_perm (less:=str_ltb) [])). }
  rewrite E. cbn. destruct sched as [|[i|] sched]; cbn; [done| |done]. case_decide; [lia|done].
Qed.
End kv.

(** ** The properties at concrete histories *)

(** A put and, overlapping it, a get that already sees it. *)
Definition example_ops : list (Operation iface) :=
  [MkOperation 0 (IKvInput (MkKvInput 1 "a" "1")) 0 (IKvOutput (MkKvOutput "")) 30;
   MkOperation 1 (IKvInput (MkKvInput 0 "a" "")) 20 (IKvOutput (MkKvOutput "1")) 50].

Definition example_events : list (Event iface) :=
  [MkEvent 0 CallEvent (IKvInput (MkKvInput 1 "a" "1")) 7; MkEvent 1 CallEvent (IKvInput (MkKvInput 0 "a" "")) 3;
   MkEvent 0 ReturnEvent (IKvOutput (MkKvOutput "")) 7; MkEvent 1 ReturnEvent (IKvOutput (MkKvOutput "1")) 3].

Definition no_text {A} (_ : A) : string := "".

Lemma example_ops_ok o : o ∈ example_ops → well_typed o ∧ op_Call o ≤ op_Return o.
Proof.
  unfold example_ops. rewrite !elem_of_cons, elem_of_nil.
  intros [-> | [-> | []]]; (split; [split; eauto|simpl; lia]).
Qed.

Lemma example_wf : wf_history (makeEntries example_ops).
Proof. apply makeEntries_wf. intros o Ho. by apply example_ops_ok. Qed.

Lemma example_steps (es := makeEntries example_ops) : steps_total (fillDefault no_text no_text KvModel) es.
Proof.
  apply (makeEntries_steps_total (fillDefault no_text no_text KvModel)), KvModel_steps_total.
  intros o Ho. by apply example_ops_ok.
Qed.

Lemma example_events_wf : wf_events example_events.
Proof.
  split.
  - intros [|[|[|[|p]]]] [|[|[|[|q]]]] e f; simpl; intros; simplify_eq; done.
  - intros [|[|[|[|p]]]] e; simpl; intros; simplify_eq; try done.
    + eexists 2%nat, _. split_and!; [lia|done..].
    + eexists 3%nat, _. split_and!; [lia|done..].
  - intros [|[|[|[|p]]]] e; simpl; intros; simplify_eq; try done.
    + eexists 0%nat, _. split_and!; [lia|done..].
    + eexists 1%nat, _. split_and!; [lia|done..].
Qed.

Lemma CheckOperations_KvModel_witness :
  ∃ f0, ∀ fuel kills, (f0 ≤ fuel)%nat →
    CheckOperations KvModel INil no_text no_text fuel kills [Result 0] example_ops = Some true.
Proof.
  destruct (CheckOperations_KvModel no_text no_text example_ops) as (f0 & parts & Hp & H).
  - done.
  - apply example_ops_ok.
  - vm_compute. done.
  - exists f0. intros fuel kills Hf. destruct (H fuel kills [Result 0] Hf) as [Hans Hends].
    destruct (Hends [0%nat]) as [b Hb]; [vm_compute in Hp; injection Hp as <-; done|done|].
    rewrite Hb. f_equal. apply (Hans b Hb).
    exists example_ops. split_and!; [done| |].
    + repeat constructor; simpl; lia.
    + eexists. split; [vm_compute; done|]. eexists. split; [vm_compute; done|done].
Defined.

Lemma checkSingle_decides_witness :
  ∃ f0 ok longest seqs,
    (∀ fuel, (f0 ≤ fuel)%nat →
       checkSingle (fillDefault no_text no_text KvModel) INil (λ _, false) fuel (makeEntries example_ops) true =
       Done (ok, longest, seqs)) ∧
    (ok = true ↔ linearizable (fillDefault no_text no_text KvModel) (makeEntries example_ops)).
Proof.
  apply (checkSingle_decides _ ShallowEqual eq INil (makeEntries example_ops) true (λ _, false)).
  - apply KvModel_equal_ok.
  - exact example_wf.
  - exact example_steps.
  - vm_compute. done.
  - done.
Defined.

(** The run of [checkSingle] on the example, computed. *)
Lemma checkSingle_partials_witness :
  checkSingle (fillDefault no_text no_text KvModel) INil (λ _, false) 20 (makeEntries example_ops) true =
    Done (true, [Some 0%nat; Some 0%nat], [[0; 1]]) ∧
  partial_linearization (fillDefault no_text no_text KvModel) (makeEntries example_ops) [0; 1].
Proof.
  assert (E : checkSingle (fillDefault no_text no_text KvModel) INil (λ _, false) 20 (makeEntries example_ops) true =
    Done (true, [Some 0%nat; Some 0%nat], [[0; 1]])) by (vm_compute; reflexivity).
  split; [exact E|].
  destruct (checkSingle_partials _ ShallowEqual eq INil (makeEntries example_ops) true 20 _ _ _
              (KvModel_equal_ok _ _) example_wf example_steps eq_refl E) as [_ H].
  destruct (H 0%nat 0%nat eq_refl) as (ids & Hids & _ & Hp). injection Hids as <-. exact Hp.
Defined.

Lemma CheckEvents_decides_witness :
  ∃ f0, ∀ fuel kills, (f0 ≤ fuel)%nat →
    ∃ b, CheckEvents KvModel INil no_text no_text fuel kills [Result 0] example_events = Some b ∧
         (b = true ↔ linearizable (fillDefault no_text no_text KvModel) (convertEntries (renumber example_events))).
Proof.
  destruct (CheckEvents_decides KvModel ShallowEqual eq INil no_text no_text example_events) as [f0 H].
  - apply KvModel_equal_ok.
  - done.
  - exact example_events_wf.
  - intros st call ret Hc Hr. revert Hc Hr. vm_compute (convertEntries _). rewrite !elem_of_cons, !elem_of_nil.
    intros [-> | [-> | [-> | [-> | []]]]] [-> | [-> | [-> | [-> | []]]]]; try done; intros; vm_compute; eauto.
  - vm_compute. done.
  - exists f0. intros fuel kills Hf. destruct (H fuel kills [Result 0%nat] Hf) as [Hans Hends].
    destruct (Hends eq_refl) as [b Hb]. exists b. split; [exact Hb|by apply Hans].
Defined.

Lemma lift_then_unlift_witness :
  ∃ st n hd, checkSingle_init KvModel INil (makeEntries example_ops) = Some (st, n, hd) ∧
  ∃ h', lift (Some 3%nat) (v_heap st) = Some (tt, h') ∧ unlift (Some 3%nat) h' = Some (tt, v_heap st).
Proof.
  eexists _, _, _. split; [vm_compute; reflexivity|]. cbn [v_heap].
  edestruct (lift_then_unlift (V:=iface)) with (l1 := @nil loc) (p := 4%nat) (e := 3%nat) (l2 := [2%nat]) (r := 1%nat)
    (l3 := [0%nat]) as (h' & H1 & _ & _ & H2); cycle 3.
  - exists h'. split; [exact H1|exact H2].
  - split; [by apply (bool_decide_unpack _); vm_compute|].
    repeat (eexists; split_and!; [reflexivity|reflexivity|reflexivity|]). reflexivity.
  - reflexivity.
  - reflexivity.
Defined.

Lemma makeEntries_faithful_witness :
  wf_history (makeEntries example_ops) ∧ ops_linearizable KvModel example_ops ∧
  linearizable KvModel (makeEntries example_ops).
Proof.
  destruct (makeEntries_faithful KvModel example_ops) as (H1 & _ & H3).
  - intros o Ho. by apply example_ops_ok.
  - assert (Hl : ops_linearizable KvModel example_ops).
    { exists example_ops. split_and!; [done|repeat constructor; simpl; lia|].
      eexists. split; [vm_compute; done|]. eexists. split; [vm_compute; done|done]. }
    split_and!; [exact H1|exact Hl|by apply H3].
Defined.

Lemma renumber_convert_renames_witness :
  wf_history (convertEntries (renumber example_events)) ∧
  (id <$> convertEntries (renumber example_events)) = [0; 1; 0; 1].
Proof.
  destruct (renumber_convert_renames example_events) as (H1 & _); [exact example_events_wf|].
  split; [exact H1|vm_compute; reflexivity].
Defined.
End CheckerApi.
