(* ===== verification/KvSrv.v ===== *)
(** * The key/value server and its clerks

    [src/6.5840/src/kvsrv]: the handlers of [server.go], the retry loops of
    [client.go] and the arguments and replies of [common.go]. A handler runs
    with the server's lock held, so it is one function on the server's state.
    A clerk is the point its loop is at; one iteration of a loop makes one
    [Call], whose outcome is an argument. The system runs any number of clerks
    against one server and records the operations they complete, with their
    times, the way the tests of the package do. *)
From S2P Require Import Prelude Porcupine KvModel.
Import Porcupine KvModel.
Local Open Scope Z_scope.

Module KvSrv.

(** ** common.go *)

Inductive AppendState := Modify | Ack.

#[global] Instance AppendState_eq_dec : EqDecision AppendState.
Proof. solve_decision. Defined.

Record PutAppendArgs := MkPutAppendArgs {
  pa_Key : string;
  pa_Value : string;
  pa_ID : Z;
  pa_State : AppendState;
}.

Record PutAppendReply := MkPutAppendReply { par_Value : string }.

Record GetArgs := MkGetArgs { ga_Key : string }.

Record GetReply := MkGetReply { gr_Value : string }.

(** ** server.go *)

Record KVServer := MkKVServer {
  StoreMap : gmap string string;
  IDMap : gmap Z string;
}.

(** Reading a Go map gives the zero value of a key it does not have. *)
Definition map_get `{Countable K} (m : gmap K string) (k : K) : string := default "" (m !! k).

Definition Get (kv : KVServer) (args : GetArgs) : KVServer * GetReply :=
  match StoreMap kv !! ga_Key args with
  | Some value => (kv, MkGetReply value)
  | None => (kv, MkGetReply "")
  end.

Definition CheckIfNeedChange (kv : KVServer) (args : PutAppendArgs) : KVServer * bool :=
  if decide (pa_State args = Ack) then (MkKVServer (StoreMap kv) (delete (pa_ID args) (IDMap kv)), false)
  else match IDMap kv !! pa_ID args with
       | Some _ => (kv, false)
       | None => (kv, true)
       end.

Definition Put (kv : KVServer) (args : PutAppendArgs) : KVServer * PutAppendReply :=
  let '(kv, ok) := CheckIfNeedChange kv args in
  if negb ok then (kv, MkPutAppendReply (map_get (IDMap kv) (pa_ID args)))
  else
    let reply := MkPutAppendReply (map_get (StoreMap kv) (pa_Key args)) in
    let kv := MkKVServer (<[pa_Key args := pa_Value args]> (StoreMap kv)) (IDMap kv) in
    let kv := MkKVServer (StoreMap kv) (<[pa_ID args := pa_Value args]> (IDMap kv)) in
    (kv, reply).

Definition Append (kv : KVServer) (args : PutAppendArgs) : KVServer * PutAppendReply :=
  let '(kv, ok) := CheckIfNeedChange kv args in
  if negb ok then (kv, MkPutAppendReply (map_get (IDMap kv) (pa_ID args)))
  else
    let reply := MkPutAppendReply (map_get (StoreMap kv) (pa_Key args)) in
    let kv :=
      match StoreMap kv !! pa_Key args with
      | None => MkKVServer (<[pa_Key args := pa_Value args]> (StoreMap kv)) (IDMap kv)
      | Some _ => MkKVServer (<[pa_Key args := (par_Value reply ++ pa_Value args)%string]> (StoreMap kv)) (IDMap kv)
      end in
    let kv := MkKVServer (StoreMap kv) (<[pa_ID args := par_Value reply]> (IDMap kv)) in
    (kv, reply).

Definition StartKVServer : KVServer := MkKVServer ∅ ∅.

(** ** client.go *)

(** What becomes of one [Call]: the request is lost, the handler runs but the
    reply is lost, or the reply arrives. [Call] returns true only in the last case. *)
Inductive fate := RequestLost | ReplyLost | Replied.

#[global] Instance fate_eq_dec : EqDecision fate.
Proof. solve_decision. Defined.

Definition Call {Args Reply} (handler : KVServer → Args → KVServer * Reply)
    (f : fate) (kv : KVServer) (args : Args) (reply : Reply) : KVServer * Reply * bool :=
  match f with
  | RequestLost => (kv, reply, false)
  | ReplyLost => ((handler kv args).1, reply, false)
  | Replied => (handler kv args, true)
  end.

(** [nrand]: [bigx] is what [crypto/rand] returned. *)
Definition nrand (bigx : Z) : Z := wrap_s 64 bigx.

(** Where a method of the clerk is: in the loop of [Get], in the first or in
    the second loop of [PutAppend], or at its return. *)
Inductive clerk :=
| Getting (getargs : GetArgs) (getreply : GetReply)
| Modifying (op : string) (args : PutAppendArgs) (reply : PutAppendReply)
| Acking (op : string) (args : PutAppendArgs) (reply : PutAppendReply) (reslt : string)
| Returned (result : string).

Definition Clerk_Get (key : string) : clerk := Getting (MkGetArgs key) (MkGetReply "").

Definition PutAppend (id : Z) (key value op : string) : clerk :=
  Modifying op (MkPutAppendArgs key value id Modify) (MkPutAppendReply "").

(** The handler the clerk calls: ["KVServer.Put"] or ["KVServer.Append"]. *)
Definition handler_of (op : string) : KVServer → PutAppendArgs → KVServer * PutAppendReply :=
  if String.eqb op "Put" then Put else Append.

(** One iteration of the loop the clerk is in. *)
Definition clerk_iter (kv : KVServer) (c : clerk) (f : fate) : KVServer * clerk :=
  match c with
  | Getting getargs getreply =>
      let '(kv, getreply, ok) := Call Get f kv getargs getreply in
      if ok : bool then (kv, Returned (gr_Value getreply)) else (kv, Getting getargs getreply)
  | Modifying op args reply =>
      let '(kv, reply, ok) := Call (handler_of op) f kv args reply in
      if ok : bool then
        let reslt := par_Value reply in
        let args := MkPutAppendArgs (pa_Key args) (pa_Value args) (pa_ID args) Ack in
        (kv, Acking op args (MkPutAppendReply "") reslt)
      else (kv, Modifying op args reply)
  | Acking op args reply reslt =>
      let '(kv, reply, ok) := Call (handler_of op) f kv args reply in
      if ok : bool then (kv, Returned reslt) else (kv, Acking op args reply reslt)
  | Returned result => (kv, Returned result)
  end.

(** A method of the clerk alone with the server, one outcome per call it makes. *)
Definition clerk_run (kv : KVServer) (c : clerk) (fates : list fate) : KVServer * clerk :=
  foldl (λ s f, clerk_iter s.1 s.2 f) (kv, c) fates.

(** ** Clerks and their histories *)

(** An operation a client starts, with the number [crypto/rand] draws for it. *)
Inductive kvop :=
| OGet (key : string)
| OPut (key value : string) (bigx : Z)
| OAppend (key value : string) (bigx : Z).

Definition start (o : kvop) : clerk :=
  match o with
  | OGet key => Clerk_Get key
  | OPut key value bigx => PutAppend (nrand bigx) key value "Put"
  | OAppend key value bigx => PutAppend (nrand bigx) key value "Append"
  end.

Definition op_id (o : kvop) : option Z :=
  match o with OGet _ => None | OPut _ _ bigx | OAppend _ _ bigx => Some (nrand bigx) end.

(** How the tests record an operation and what it returned. *)
Definition input_of (o : kvop) : KvInput :=
  match o with
  | OGet key => MkKvInput 0 key ""
  | OPut key value _ => MkKvInput 1 key value
  | OAppend key value _ => MkKvInput 3 key value
  end.

Definition output_of (o : kvop) (result : string) : KvOutput :=
  match o with OPut _ _ _ => MkKvOutput "" | _ => MkKvOutput result end.

Record running := Running {
  r_op : kvop;
  r_clerk : clerk;
  r_call : Z;
}.

Record system := System {
  s_kv : KVServer;
  s_clerks : gmap nat running;
  s_hist : list (Operation iface);
  s_now : Z;
}.

Definition init : system := System StartKVServer ∅ [] 0.

Inductive action :=
| Invoke (c : nat) (o : kvop)
| Rpc (c : nat) (f : fate).

(** [None]: the action cannot happen. *)
Definition step (s : system) (a : action) : option system :=
  let now := s_now s + 1 in
  match a with
  | Invoke c o =>
      match s_clerks s !! c with
      | Some _ => None
      | None => Some (System (s_kv s) (<[c := Running o (start o) (s_now s)]> (s_clerks s)) (s_hist s) now)
      end
  | Rpc c f =>
      r ← s_clerks s !! c;
      let '(kv, cl) := clerk_iter (s_kv s) (r_clerk r) f in
      match cl with
      | Returned v =>
          let o := MkOperation (Z.of_nat c) (IKvInput (input_of (r_op r))) (r_call r)
                     (IKvOutput (output_of (r_op r) v)) (s_now s) in
          Some (System kv (delete c (s_clerks s)) (s_hist s ++ [o]) now)
      | _ => Some (System kv (<[c := Running (r_op r) cl (r_call r)]> (s_clerks s)) (s_hist s) now)
      end
  end.

Fixpoint exec (s : system) (acts : list action) : option system :=
  match acts with
  | [] => Some s
  | a :: acts => s ← step s a; exec s acts
  end.

(** The ids drawn in a run. *)
Definition ids (acts : list action) : list Z :=
  omap (λ a, match a with Invoke _ o => op_id o | _ => None end) acts.

End KvSrv.
