(* ===== verification/KvSrvLin.v ===== *)
(** * The key/value server executes every operation once

    The invariant of the system of [KvSrv]: a log of the operations that have
    taken effect, each at one point in time between its invocation and its
    response, whose replay on the empty store gives the server's store. *)
From S2P Require Import Prelude Porcupine Entries KvModel KvSrv.
Import Porcupine Entries KvModel KvSrv.
Local Open Scope Z_scope.

Module KvSrvLin.

(** ** The log *)

(** An operation that has taken effect at [e_pt]; [e_ret] is when it returned. *)
Record effect := Effect {
  e_cli : nat;
  e_call : Z;
  e_in : KvInput;
  e_out : KvOutput;
  e_pt : Z;
  e_ret : option Z;
}.

Definition opened (c : nat) (e : effect) : Prop := e_cli e = c ∧ e_ret e = None.

#[global] Instance opened_dec c e : Decision (opened c e).
Proof. unfold opened. apply _. Defined.

Definition set_ret (e : effect) (r : Z) : effect :=
  Effect (e_cli e) (e_call e) (e_in e) (e_out e) (e_pt e) (Some r).

Definition open (c : nat) (log : list effect) : list effect := filter (opened c) log.

Definition close (c : nat) (r : Z) (log : list effect) : list effect :=
  (λ e, if decide (opened c e) then set_ret e r else e) <$> log.

Definition operation_of (e : effect) : option (Operation iface) :=
  r ← e_ret e; Some (MkOperation (Z.of_nat (e_cli e)) (IKvInput (e_in e)) (e_call e) (IKvOutput (e_out e)) r).

Definition done_of (log : list effect) : list (Operation iface) := omap operation_of log.

(** The store after the log, if the model accepts it. *)
Fixpoint replay (st : gmap string string) (log : list effect) : option (gmap string string) :=
  match log with
  | [] => Some st
  | e :: log =>
      match store_Step st (IKvInput (e_in e)) (IKvOutput (e_out e)) with
      | Some (true, st) => replay st log
      | _ => None
      end
  end.

Definition agree (st m : gmap string string) : Prop := ∀ k, map_get st k = map_get m k.

Implicit Types (log : list effect) (e : effect) (c : nat) (kv : KVServer).

Lemma open_snoc c log e : open c (log ++ [e]) = open c log ++ (if decide (opened c e) then [e] else []).
Proof. unfold open. rewrite filter_app, filter_cons. by case_decide. Qed.

Lemma open_close c c' r log : open c' (close c r log) = if decide (c' = c) then [] else open c' log.
Proof.
  unfold open, close. induction log as [|e log IH]; [by case_decide|].
  rewrite fmap_cons, !filter_cons, IH. unfold opened, set_ret.
  repeat case_decide; simpl in *; destruct_and?; subst; try done; tauto.
Qed.

Lemma replay_snoc st log e :
  replay st (log ++ [e]) = st' ← replay st log; replay st' [e].
Proof.
  revert st. induction log as [|e' log IH]; intros st; [done|]. simpl.
  destruct (store_Step _ _ _) as [[[] st']|]; [by rewrite IH|done|done].
Qed.

Lemma replay_close st c r log : replay st (close c r log) = replay st log.
Proof.
  revert st. induction log as [|e log IH]; intros st; [done|]. cbn [close fmap list_fmap replay].
  fold (close c r log). case_decide; simpl; destruct (store_Step _ _ _) as [[[] ?]|]; done.
Qed.

Lemma done_snoc log e : done_of (log ++ [e]) = done_of log ++ from_option (λ o, [o]) [] (operation_of e).
Proof. unfold done_of. rewrite omap_app. simpl. by destruct (operation_of e). Qed.

Lemma done_close c r log e :
  open c log = [e] → done_of (close c r log) ≡ₚ done_of log ++ from_option (λ o, [o]) [] (operation_of (set_ret e r)).
Proof.
  revert e. induction log as [|e' log IH]; intros e; [done|].
  unfold open. rewrite filter_cons. cbn [close fmap list_fmap]. fold (close c r log). fold (open c log).
  case_decide as Hd.
  - intros [= -> Hnil]. assert (E : close c r log = log).
    { clear IH. unfold close. revert Hnil. unfold open. induction log as [|x log IH]; [done|].
      rewrite filter_cons, fmap_cons. case_decide; [done|]. intros H'. by rewrite IH. }
    rewrite E. unfold done_of. simpl. destruct Hd as [Hc Hr]. unfold operation_of at 2. rewrite Hr. simpl.
    by rewrite Permutation_cons_append.
  - intros Ho. unfold done_of. simpl. destruct (operation_of e'); simpl; by rewrite <- (IH e Ho).
Qed.

(** ** What a handler does to the store *)

(** The name of the handler, the key, the value and the id of an update. *)
Definition update_of (o : kvop) : option (string * string * string * Z) :=
  match o with
  | OGet _ => None
  | OPut key value bigx => Some ("Put", key, value, nrand bigx)
  | OAppend key value bigx => Some ("Append", key, value, nrand bigx)
  end.

Definition updates (o : kvop) (op : string) (args : PutAppendArgs) : Prop :=
  update_of o = Some (op, pa_Key args, pa_Value args, pa_ID args).

Lemma map_get_insert (m : gmap string string) k v k' :
  map_get (<[k := v]> m) k' = if decide (k = k') then v else map_get m k'.
Proof. unfold map_get. rewrite lookup_insert. by case_decide. Qed.

(** A first request takes effect and is remembered, a repeated one only reads
    what was remembered. *)
Lemma handler_modify o op args kv kv' reply :
  updates o op args → pa_State args = Modify → handler_of op kv args = (kv', reply) →
  (IDMap kv !! pa_ID args = Some (par_Value reply) ∧ kv' = kv) ∨
  (IDMap kv !! pa_ID args = None ∧
   ∃ v, IDMap kv' = <[pa_ID args := v]> (IDMap kv) ∧ output_of o v = output_of o (par_Value reply) ∧
        ∀ st, agree st (StoreMap kv) →
          ∃ st', store_Step st (IKvInput (input_of o)) (IKvOutput (output_of o v)) = Some (true, st') ∧
                 agree st' (StoreMap kv')).
Proof.
  unfold updates. intros Hu Hs. unfold handler_of.
  destruct o as [|key value bigx|key value bigx]; simpl in Hu; [done| |]; injection Hu as <- Hk Hv Hid; simpl;
    unfold Put, Append, CheckIfNeedChange; rewrite decide_False by congruence;
    destruct (IDMap kv !! pa_ID args) as [v|] eqn:E; simpl.
  - intros [= <- <-]. left. unfold map_get. by rewrite E.
  - intros [= <- <-]. right. split; [done|]. exists (pa_Value args). split_and!; [done|done|].
    intros st Hst. eexists. split; [done|]. simpl. intros k. rewrite !map_get_insert, <- Hk, <- Hv.
    case_decide; [done|apply Hst].
  - intros [= <- <-]. left. unfold map_get. by rewrite E.
  - intros H. right. split; [done|]. exists (map_get (StoreMap kv) key). rewrite <- Hk, <- Hv in H.
    destruct (StoreMap kv !! key) as [old|] eqn:Eo; injection H as <- <-; simpl; (split_and!; [done|done|]);
      intros st Hst; (eexists; split; [unfold store_Step; simpl; fold (map_get st key); rewrite (Hst key);
        by rewrite String.eqb_refl|]); intros k; rewrite !map_get_insert; (case_decide; [|apply Hst]).
    + done.
    + unfold map_get. by rewrite Eo.
Qed.

Lemma handler_ack op args kv :
  pa_State args = Ack → (handler_of op kv args).1 = MkKVServer (StoreMap kv) (delete (pa_ID args) (IDMap kv)).
Proof.
  intros Hs. unfold handler_of.
  destruct (String.eqb op "Put"); unfold Put, Append, CheckIfNeedChange; by rewrite decide_True.
Qed.

(** ** The invariant *)

(** The effect of the running operation [r], whose result is [v]. *)
Definition effect_for (r : running) (v : string) (e : effect) : Prop :=
  e_call e = r_call r ∧ e_in e = input_of (r_op r) ∧ e_out e = output_of (r_op r) v.

(** How far the operation of client [c] has come. *)
Definition client_ok (idmap : gmap Z string) log c (r : running) : Prop :=
  match r_clerk r with
  | Getting args _ => r_op r = OGet (ga_Key args) ∧ open c log = []
  | Modifying op args _ =>
      updates (r_op r) op args ∧ pa_State args = Modify ∧
      match idmap !! pa_ID args with
      | None => open c log = []
      | Some v => ∃ e, open c log = [e] ∧ effect_for r v e
      end
  | Acking op args _ reslt =>
      updates (r_op r) op args ∧ pa_State args = Ack ∧ ∃ e, open c log = [e] ∧ effect_for r reslt e
  | Returned _ => False
  end.

Record Inv (used : list Z) (s : system) log : Prop := {
  inv_store : ∃ st, replay ∅ log = Some st ∧ agree st (StoreMap (s_kv s));
  inv_sorted : StronglySorted (λ a b, e_pt a < e_pt b) log;
  inv_times e : e ∈ log → e_call e ≤ e_pt e < s_now s ∧ ∀ r, e_ret e = Some r → e_pt e ≤ r;
  inv_done : done_of log ≡ₚ s_hist s;
  inv_client c r : s_clerks s !! c = Some r → client_ok (IDMap (s_kv s)) log c r ∧ r_call r < s_now s;
  inv_idle c : s_clerks s !! c = None → open c log = [];
  inv_ids id : is_Some (IDMap (s_kv s) !! id) → ∃ c r, s_clerks s !! c = Some r ∧ op_id (r_op r) = Some id;
  inv_distinct c c' r r' id : s_clerks s !! c = Some r → s_clerks s !! c' = Some r' →
    op_id (r_op r) = Some id → op_id (r_op r') = Some id → c = c';
  inv_used c r id : s_clerks s !! c = Some r → op_id (r_op r) = Some id → id ∈ used;
}.

Lemma updates_id o op args : updates o op args → op_id o = Some (pa_ID args).
Proof. unfold updates. destruct o; simpl; [done| |]; by intros [= _ _ _ ->]. Qed.

(** What client [c] sees of the ids and of the log. *)
Lemma client_ok_frame idmap idmap' log log' c r :
  open c log' = open c log → (∀ id, op_id (r_op r) = Some id → idmap' !! id = idmap !! id) →
  client_ok idmap log c r → client_ok idmap' log' c r.
Proof.
  unfold client_ok. intros -> Hid. destruct (r_clerk r); [done| |done|done].
  intros (Hu & Hs & H). split_and!; [done..|]. by rewrite (Hid _ (updates_id _ _ _ Hu)).
Qed.

Section steps.
Context (used : list Z).
Implicit Types (s : system) (r : running).

Lemma Inv_tick kv clerks hist now now' log :
  now ≤ now' → Inv used (System kv clerks hist now) log → Inv used (System kv clerks hist now') log.
Proof.
  intros Hle [?? Ht ? Hc]. split; simpl in *; try done.
  - intros e He. destruct (Ht e He). split; [lia|done].
  - intros c r Hr. destruct (Hc c r Hr). split; [done|lia].
Qed.

(** The clerk of [c] goes from one point of its method to another. *)
Lemma Inv_move s log c r cl :
  Inv used s log → s_clerks s !! c = Some r →
  client_ok (IDMap (s_kv s)) log c (Running (r_op r) cl (r_call r)) →
  Inv used (System (s_kv s) (<[c := Running (r_op r) cl (r_call r)]> (s_clerks s)) (s_hist s) (s_now s)) log.
Proof.
  intros [????? Hidle Hids Hdist Hused] Hr Hok. split; simpl; try done.
  - intros c' r'. rewrite lookup_insert. case_decide as E; [|auto]. subst c'. intros [= <-].
    split; [done|]. simpl. by apply (inv_client0 c r).
  - intros c'. rewrite lookup_insert. case_decide; [done|auto].
  - intros id Hid. destruct (Hids id Hid) as (c' & r' & Hr' & Ho).
    destruct (decide (c = c')) as [<-|].
    + eexists c, _. rewrite lookup_insert_eq. split; [done|]. by simplify_eq.
    + exists c', r'. by rewrite lookup_insert_ne.
  - intros c1 c2 r1 r2 id. rewrite !lookup_insert. intros H1 H2 Hi1 Hi2.
    apply (Hdist c1 c2 (if decide (c = c1) then r else r1) (if decide (c = c2) then r else r2) id);
      repeat case_decide; simplify_eq; done.
  - intros c' r' id. rewrite lookup_insert. case_decide; [intros [= <-]; simpl|]; eauto.
Qed.

Lemma replay_agree log st m e m' :
  replay ∅ log = Some st → agree st m →
  (∀ st, agree st m → ∃ st', store_Step st (IKvInput (e_in e)) (IKvOutput (e_out e)) = Some (true, st') ∧ agree st' m') →
  ∃ st', replay ∅ (log ++ [e]) = Some st' ∧ agree st' m'.
Proof.
  intros Hr Ha H. destruct (H st Ha) as (st2 & Hs & Ha2). exists st2. split; [|done].
  rewrite replay_snoc, Hr. simpl. by rewrite Hs.
Qed.

(** The operation of client [c] takes effect now. *)
Lemma Inv_apply s log c r op args reply0 kv' reply :
  Inv used s log → s_clerks s !! c = Some r → r_clerk r = Modifying op args reply0 →
  IDMap (s_kv s) !! pa_ID args = None → handler_of op (s_kv s) args = (kv', reply) →
  ∃ log', Inv used (System kv' (s_clerks s) (s_hist s) (s_now s + 1)) log'.
Proof.
  intros HI Hr Hcl Hnone Hh. pose proof (inv_client _ _ _ HI c r Hr) as [Hc Hcall].
  unfold client_ok in Hc. rewrite Hcl in Hc. destruct Hc as (Hu & Hs & Hopen). rewrite Hnone in Hopen.
  destruct (handler_modify _ _ _ _ _ _ Hu Hs Hh) as [[E _]|(_ & v & Hids' & _ & Hstep)]; [congruence|].
  exists (log ++ [Effect c (r_call r) (input_of (r_op r)) (output_of (r_op r) v) (s_now s) None]).
  set (e := Effect _ _ _ _ _ _). destruct HI as [(st & Hrep & Hag) Hsort Htimes Hdone Hclient Hidle Hids Hdist Hused].
  split; simpl; [..|done|done].
  - by apply (replay_agree log st (StoreMap (s_kv s)) e).
  - apply StronglySorted_snoc; [done|]. intros a Ha. apply Htimes in Ha. simpl. lia.
  - intros e' [He|He]%elem_of_app; [apply Htimes in He; split; [lia|tauto]|].
    apply list_elem_of_singleton in He as ->. split; [simpl; lia|done].
  - rewrite done_snoc. by rewrite app_nil_r.
  - intros c' r' Hr'. destruct (Hclient c' r' Hr') as [Hc' Hcall']. split; [|lia].
    destruct (decide (c' = c)) as [->|Hne].
    + simplify_eq. unfold client_ok. rewrite Hcl, Hids', lookup_insert_eq. split_and!; [done..|].
      exists e. rewrite open_snoc, Hopen, decide_True by done. split; [done|]. split_and!; done.
    + apply (client_ok_frame (IDMap (s_kv s)) _ log); [|..|done].
      * rewrite open_snoc, decide_False, app_nil_r; [done|]. by intros [? _].
      * intros id Hid. rewrite Hids', lookup_insert_ne; [done|]. intros <-. apply Hne.
        by apply (Hdist c' c r' r (pa_ID args)); [..|apply updates_id in Hu].
  - intros c' Hc'. rewrite open_snoc, decide_False, app_nil_r; [by apply Hidle|]. intros [E _]. simpl in E. congruence.
  - intros id. rewrite Hids'. intros [<-|[_ H]]%lookup_insert_is_Some; [|by apply Hids].
    exists c, r. split; [done|]. by apply updates_id in Hu.
Qed.

(** The server forgets the id of the operation of [c], which is acknowledged. *)
Lemma Inv_forget s log c r op args reply0 reslt :
  Inv used s log → s_clerks s !! c = Some r → r_clerk r = Acking op args reply0 reslt →
  Inv used (System (MkKVServer (StoreMap (s_kv s)) (delete (pa_ID args) (IDMap (s_kv s))))
                   (s_clerks s) (s_hist s) (s_now s)) log.
Proof.
  intros HI Hr Hcl. pose proof (inv_client _ _ _ HI c r Hr) as [Hc Hcall].
  unfold client_ok in Hc. rewrite Hcl in Hc. destruct Hc as (Hu & Hs & Hopen).
  destruct HI as [Hst Hsort Htimes Hdone Hclient Hidle Hids Hdist Hused]. split; simpl; try done.
  - intros c' r' Hr'. destruct (Hclient c' r' Hr') as [Hc' Hcall']. split; [|done].
    destruct (decide (c' = c)) as [->|Hne]; [simplify_eq; unfold client_ok; by rewrite Hcl|].
    eapply client_ok_frame; [done| |done]. intros id Hid. rewrite lookup_delete_ne; [done|]. intros <-. apply Hne.
    by apply (Hdist c' c r' r (pa_ID args)); [..|apply updates_id in Hu].
  - intros id [v Hv]. apply lookup_delete_Some in Hv as [_ Hv]. apply Hids. eauto.
Qed.

(** The operation of [c] returns: its effect is closed. *)
Lemma Inv_return s log c r v e :
  Inv used s log → s_clerks s !! c = Some r → open c log = [e] → effect_for r v e →
  (∀ id, op_id (r_op r) = Some id → IDMap (s_kv s) !! id = None) →
  Inv used (System (s_kv s) (delete c (s_clerks s))
     (s_hist s ++ [MkOperation (Z.of_nat c) (IKvInput (input_of (r_op r))) (r_call r)
                               (IKvOutput (output_of (r_op r) v)) (s_now s)]) (s_now s))
    (close c (s_now s) log).
Proof.
  intros [Hst Hsort Htimes Hdone Hclient Hidle Hids Hdist Hused] Hr Ho (Hca & Hin & Hout) Hnid.
  assert (He : opened c e ∧ e ∈ log).
  { apply (list_elem_of_filter (opened c)). change (filter _ log) with (open c log). rewrite Ho. set_solver. }
  split; simpl.
  - by rewrite replay_close.
  - unfold close. clear -Hsort. induction Hsort as [|x l Hs IH Hf]; [constructor|]. rewrite fmap_cons.
    constructor; [done|]. apply Forall_fmap. eapply Forall_impl; [done|]. intros y Hy. simpl.
    repeat case_decide; done.
  - intros e'. unfold close. rewrite list_elem_of_fmap. intros (e0 & -> & H0). destruct (Htimes e0 H0) as [Ht Hr0].
    case_decide; [|done]. simpl. split; [done|]. intros r0 [= <-]. lia.
  - rewrite (done_close c (s_now s) log e Ho), Hdone. simpl. f_equiv. rewrite Hca, Hin, Hout.
    by destruct He as [[-> _] _].
  - intros c' r' [Hne Hr']%lookup_delete_Some. destruct (Hclient c' r' Hr') as [Hc' Hcall']. split; [|done].
    eapply client_ok_frame; [|done|done]. rewrite open_close, decide_False; [done|congruence].
  - intros c'. rewrite open_close. case_decide; [done|]. intros [->|?]%lookup_delete_None; [done|]. by apply Hidle.
  - intros id Hid. destruct (Hids id Hid) as (c' & r' & Hr' & Hi). exists c', r'. split; [|done].
    rewrite lookup_delete_ne; [done|]. intros <-. simplify_eq. specialize (Hnid id Hi). by destruct Hid; congruence.
  - intros c1 c2 r1 r2 id [_ H1]%lookup_delete_Some [_ H2]%lookup_delete_Some. eauto.
  - intros c' r' id [_ H']%lookup_delete_Some. eauto.
Qed.

(** A get takes effect and returns. *)
Lemma Inv_get s log c r args reply0 :
  Inv used s log → s_clerks s !! c = Some r → r_clerk r = Getting args reply0 →
  ∃ log', Inv used (System (s_kv s) (delete c (s_clerks s))
     (s_hist s ++ [MkOperation (Z.of_nat c) (IKvInput (input_of (r_op r))) (r_call r)
                     (IKvOutput (output_of (r_op r) (map_get (StoreMap (s_kv s)) (ga_Key args)))) (s_now s)])
     (s_now s + 1)) log'.
Proof.
  intros [(st & Hrep & Hag) Hsort Htimes Hdone Hclient Hidle Hids Hdist Hused] Hr Hcl.
  destruct (Hclient c r Hr) as [Hc Hcall]. unfold client_ok in Hc. rewrite Hcl in Hc. destruct Hc as [Hop Hopen].
  set (v := map_get _ _).
  exists (log ++ [Effect c (r_call r) (input_of (r_op r)) (output_of (r_op r) v) (s_now s) (Some (s_now s))]).
  set (e := Effect _ _ _ _ _ _).
  assert (Hframe : ∀ c', open c' (log ++ [e]) = open c' log).
  { intros c'. rewrite open_snoc, decide_False, app_nil_r; [done|]. by intros [_ ?]. }
  split; simpl.
  - apply (replay_agree log st (StoreMap (s_kv s)) e); [done|done|]. intros st' Hst'. simpl. rewrite Hop. simpl.
    unfold store_Step. simpl. fold (map_get st' (ga_Key args)). rewrite (Hst' (ga_Key args)). fold v.
    rewrite String.eqb_refl. eexists. split; [done|]. intros k. rewrite map_get_insert. case_decide; [by subst|apply Hst'].
  - apply StronglySorted_snoc; [done|]. intros a Ha. apply Htimes in Ha. simpl. lia.
  - intros e' [He|He]%elem_of_app; [apply Htimes in He; split; [lia|tauto]|].
    apply list_elem_of_singleton in He as ->. split; [simpl; lia|]. simpl. intros r' [= <-]. lia.
  - rewrite done_snoc. by f_equiv.
  - intros c' r' [Hne Hr']%lookup_delete_Some. destruct (Hclient c' r' Hr') as [Hc' Hcall']. split; [|lia].
    by apply (client_ok_frame (IDMap (s_kv s)) _ log).
  - intros c'. rewrite Hframe. intros [<-|?]%lookup_delete_None; [done|by apply Hidle].
  - intros id Hid. destruct (Hids id Hid) as (c' & r' & Hr' & Hi). exists c', r'. split; [|done].
    rewrite lookup_delete_ne; [done|]. intros <-. simplify_eq. by rewrite Hop in Hi.
  - intros c1 c2 r1 r2 id [_ H1]%lookup_delete_Some [_ H2]%lookup_delete_Some. by apply Hdist.
  - intros c' r' id [_ H']%lookup_delete_Some. eauto.
Qed.
End steps.

(** A client starts an operation with an id no operation had. *)
Lemma Inv_invoke used s log c o :
  Inv used s log → s_clerks s !! c = None → (∀ id, op_id o = Some id → id ∉ used) →
  Inv (option_list (op_id o) ++ used)
      (System (s_kv s) (<[c := Running o (start o) (s_now s)]> (s_clerks s)) (s_hist s) (s_now s + 1)) log.
Proof.
  intros [Hst Hsort Htimes Hdone Hclient Hidle Hids Hdist Hused] Hc Hfresh.
  assert (Hnew : ∀ c' r' id, s_clerks s !! c' = Some r' → op_id (r_op r') = Some id → op_id o ≠ Some id).
  { intros c' r' id Hr' Hi Ho. by eapply Hfresh, Hused. }
  split; simpl; try done.
  - intros e He. destruct (Htimes e He). split; [lia|done].
  - intros c' r'. rewrite lookup_insert. case_decide as E.
    + subst c'. intros [= <-]. simpl. split; [|lia].
      assert (Hno : ∀ id, op_id o = Some id → IDMap (s_kv s) !! id = None).
      { intros id Hi. apply eq_None_not_Some. intros Hs. destruct (Hids id Hs) as (c' & r' & Hr' & Hi').
        by apply (Hnew c' r' id). }
      unfold client_ok. destruct o; simpl in *; (split_and!; [done| |] || split; [done|]); try done;
        try (rewrite Hno by done); by apply Hidle.
    + intros Hr'. destruct (Hclient c' r' Hr'). split; [done|lia].
  - intros c'. rewrite lookup_insert. case_decide; [done|]. apply Hidle.
  - intros id Hid. destruct (Hids id Hid) as (c' & r' & Hr' & Hi). exists c', r'.
    rewrite lookup_insert_ne; [done|]. congruence.
  - intros c1 c2 r1 r2 id. rewrite !lookup_insert. do 2 case_decide; subst; intros; simplify_eq; simpl in *; try done.
    + by exfalso; eapply Hnew. + by exfalso; eapply Hnew. + by eapply Hdist.
  - intros c' r' id. rewrite lookup_insert, elem_of_app. case_decide.
    + intros [= <-]. simpl. intros ->. left. set_solver.
    + intros ??. right. eauto.
Qed.

Lemma Inv_Rpc used s log c f s' :
  Inv used s log → step s (Rpc c f) = Some s' → ∃ log', Inv used s' log'.
Proof.
  intros HI. simpl. destruct (s_clerks s !! c) as [r|] eqn:Hr; [|done]. cbn [mbind option_bind].
  destruct (inv_client _ _ _ HI c r Hr) as [Hc _].
  assert (Hstay : ∀ log' kv' cl, Inv used (System kv' (s_clerks s) (s_hist s) (s_now s + 1)) log' →
     client_ok (IDMap kv') log' c (Running (r_op r) cl (r_call r)) →
     ∃ log', Inv used (System kv' (<[c := Running (r_op r) cl (r_call r)]> (s_clerks s)) (s_hist s) (s_now s + 1)) log').
  { intros log' kv' cl HI' Hok. exists log'. by apply (Inv_move used (System kv' (s_clerks s) (s_hist s) (s_now s + 1)) log' c r). }
  assert (Htick : Inv used (System (s_kv s) (s_clerks s) (s_hist s) (s_now s + 1)) log)
    by (apply (Inv_tick used _ _ _ (s_now s)); [lia|by destruct s]).
  assert (Hsame : ∀ cl, r_clerk r = cl → client_ok (IDMap (s_kv s)) log c (Running (r_op r) cl (r_call r)))
    by (intros cl <-; by destruct r).
  destruct (r_clerk r) as [args reply0|op args reply0|op args reply0 reslt|] eqn:Hcl; [..|by unfold client_ok in Hc; rewrite Hcl in Hc].
  - assert (HGet : Get (s_kv s) args = (s_kv s, MkGetReply (map_get (StoreMap (s_kv s)) (ga_Key args)))).
    { unfold Get, map_get. by destruct (StoreMap (s_kv s) !! ga_Key args). }
    destruct f; simpl; rewrite ?HGet; intros [= <-]; [by apply (Hstay log), Hsame..|].
    by apply (Inv_get used s log c r args reply0).
  - unfold client_ok in Hc. rewrite Hcl in Hc. destruct Hc as (Hu & Hs & Hopen).
    destruct (handler_of op (s_kv s) args) as [kv' reply] eqn:Hh.
    assert (Happ : ∃ log', Inv used (System kv' (s_clerks s) (s_hist s) (s_now s + 1)) log' ∧
              client_ok (IDMap kv') log' c r ∧ ∃ v, IDMap kv' !! pa_ID args = Some v ∧
              output_of (r_op r) v = output_of (r_op r) (par_Value reply)).
    { destruct (handler_modify _ _ _ _ _ _ Hu Hs Hh) as [[E ->]|(E & v & Hids' & Hout & _)].
      - exists log. split_and!; [done|by unfold client_ok; rewrite Hcl|]. eauto.
      - destruct (Inv_apply used s log c r op args reply0 kv' reply HI Hr Hcl E Hh) as [log' HI'].
        exists log'. split_and!; [done|by apply (inv_client _ _ _ HI')|]. exists v. by rewrite Hids', lookup_insert_eq. }
    destruct Happ as (log' & HI' & Hok & v & Hv & Hout).
    destruct f; simpl; rewrite ?Hh; intros [= <-].
    + apply (Hstay log); [done|by apply Hsame].
    + apply (Hstay log'); [done|]. unfold client_ok in *. by rewrite Hcl in Hok.
    + apply (Hstay log'); [done|]. unfold client_ok in *. rewrite Hcl, Hv in Hok. simpl.
      destruct Hok as (_ & _ & e & He & (? & ? & ?)). split_and!; [done..|]. exists e. split; [done|].
      split_and!; [done|done|]. simpl. by rewrite <- Hout.
  - pose proof (Inv_forget used s log c r op args reply0 reslt HI Hr Hcl) as HI'.
    unfold client_ok in Hc. rewrite Hcl in Hc. destruct Hc as (Hu & Hs & e & He & Heff).
    pose proof (handler_ack op args (s_kv s) Hs) as Hh.
    destruct (handler_of op (s_kv s) args) as [kv' reply] eqn:Hh2. simpl in Hh. subst kv'.
    destruct f; simpl; rewrite ?Hh2; intros [= <-].
    + apply (Hstay log); [done|by apply Hsame].
    + apply (Hstay log); [by apply (Inv_tick used _ _ _ (s_now s)); [lia|]|]. unfold client_ok. simpl.
      split_and!; [done..|]. by exists e.
    + exists (close c (s_now s) log). apply (Inv_tick used _ _ _ (s_now s)); [lia|].
      apply (Inv_return used _ log c r reslt e HI'); [done|done|done|]. intros id Hid. simpl.
      rewrite (updates_id _ _ _ Hu) in Hid. injection Hid as <-. apply lookup_delete_eq.
Qed.

Lemma Inv_exec acts used s log s' :
  Inv used s log → exec s acts = Some s' → NoDup (ids acts) → (∀ id, id ∈ ids acts → id ∉ used) →
  ∃ used' log', Inv used' s' log'.
Proof.
  revert used s log. induction acts as [|a acts IH]; intros used s log HI; simpl; [intros [= <-]; eauto|].
  destruct (step s a) as [s1|] eqn:E; [|done]. cbn [mbind option_bind]. intros Hex Hnd Hfr.
  destruct a as [c o|c f]; cbn [ids omap list_omap] in Hnd, Hfr; fold (ids acts) in Hnd, Hfr.
  - simpl in E. destruct (s_clerks s !! c) eqn:Hc; [done|]. injection E as <-.
    assert (Hnd' : NoDup (ids acts) ∧ ∀ id, op_id o = Some id → id ∉ ids acts ∧ id ∉ used).
    { destruct (op_id o) as [id|]; simpl in *; [|done]. apply NoDup_cons in Hnd as [Hnin Hnd].
      split; [done|]. intros ? [= <-]. split; [done|]. apply Hfr. set_solver. }
    destruct Hnd' as [Hnd' Hid].
    eapply IH; [by apply Inv_invoke; [..|intros id Hi; apply (Hid id Hi)]|done|done|].
    intros id Hin [Ho|Hu]%elem_of_app.
    + destruct (op_id o) as [id'|] eqn:Eo; simpl in Ho; [|set_solver]. apply list_elem_of_singleton in Ho as ->.
      by destruct (Hid id' eq_refl).
    + revert Hu. apply Hfr. destruct (op_id o); simpl; set_solver.
  - destruct (Inv_Rpc used s log c f s1 HI E) as [log1 HI1]. by apply (IH used s1 log1).
Qed.

Lemma Inv_init : Inv [] init [].
Proof.
  split; simpl; try done.
  - by exists ∅.
  - constructor.
  - intros e He. by apply elem_of_nil in He.
  - by intros id [? [=]].
Qed.

(** ** The log as a linearization *)

Lemma done_cons e log : done_of (e :: log) = from_option (λ o, [o]) [] (operation_of e) ++ done_of log.
Proof. unfold done_of. simpl. by destruct (operation_of e). Qed.

Lemma done_length log : (∀ e, e ∈ log → is_Some (e_ret e)) → length (done_of log) = length log.
Proof.
  induction log as [|e log IH]; [done|]. intros Hr. rewrite done_cons. unfold operation_of.
  destruct (Hr e) as [r ->]; [set_solver|]. simpl. rewrite IH; [done|]. intros. apply Hr. set_solver.
Qed.

Lemma replay_runs log st st' :
  (∀ e, e ∈ log → is_Some (e_ret e)) → replay st log = Some st' → runs StoreModel st (done_of log).
Proof.
  revert st. induction log as [|e log IH]; intros st Hr; [done|]. rewrite done_cons. cbn [replay].
  destruct (store_Step _ _ _) as [[[] st1]|] eqn:E; [|done|done]. intros Hrep.
  unfold operation_of. destruct (Hr e) as [r ->]; [set_solver|]. simpl.
  exists st1. split; [done|]. apply IH; [|done]. intros. apply Hr. set_solver.
Qed.

Lemma log_linearization log st :
  (∀ e, e ∈ log → is_Some (e_ret e)) → replay ∅ log = Some st →
  StronglySorted (λ a b, e_pt a < e_pt b) log →
  (∀ e, e ∈ log → e_call e ≤ e_pt e ∧ ∀ r, e_ret e = Some r → e_pt e ≤ r) →
  StronglySorted (λ a b, ¬ op_Return b < op_Call a) (done_of log) ∧ runs StoreModel ∅ (done_of log).
Proof.
  intros Hret Hrep Hsort Htimes. split; [|by eapply replay_runs].
  clear Hret Hrep. induction Hsort as [|e log Hs IH Hf]; [constructor|].
  rewrite done_cons. destruct (operation_of e) as [o|] eqn:Eo; [|apply IH; set_solver].
  simpl. constructor; [apply IH; set_solver|]. apply Forall_forall. intros o' Ho'.
  apply list_elem_of_omap in Ho' as (e' & He' & Eo'). rewrite Forall_forall in Hf. specialize (Hf e' He').
  unfold operation_of in Eo, Eo'. destruct (e_ret e) as [r|] eqn:Er, (e_ret e') as [r'|] eqn:Er'; cbn in Eo, Eo'; simplify_eq.
  simpl. destruct (Htimes e) as [Hc _]; [set_solver|]. destruct (Htimes e') as [_ Hr']; [set_solver|].
  specialize (Hr' r' Er'). cbn beta in Hf. lia.
Qed.

(** ** Alone with the server *)

Lemma clerk_run_returned kv v fates : clerk_run kv (Returned v) fates = (kv, Returned v).
Proof. induction fates; [done|]. by simpl. Qed.

(** How many replies a clerk still waits for. *)
Definition waits (c : clerk) : nat :=
  match c with Getting _ _ => 1 | Modifying _ _ _ => 2 | Acking _ _ _ _ => 1 | Returned _ => 0 end.

Definition replies (fates : list fate) : nat := length (filter (λ f, f = Replied) fates).

Lemma clerk_iter_waits kv (c : clerk) f :
  waits (clerk_iter kv c f).2 = (waits c - match f with Replied => 1 | _ => 0 end)%nat.
Proof.
  destruct c as [args ?|op args ?|op args ? ?|], f; simpl; try done;
    first [by destruct (Get kv args)|by destruct (handler_of op kv args)].
Qed.

Lemma clerk_run_waits kv (c : clerk) fates : waits (clerk_run kv c fates).2 = (waits c - replies fates)%nat.
Proof.
  revert kv c. induction fates as [|f fates IH]; intros kv c; [unfold replies; simpl; lia|].
  unfold clerk_run in *. simpl. pose proof (clerk_iter_waits kv c f) as Hw.
  destruct (clerk_iter kv c f) as [kv' c']. rewrite IH. simpl in *. rewrite Hw.
  unfold replies. rewrite filter_cons. destruct f; simpl; lia.
Qed.

(** When all have returned, the log is a linearization of their history. *)
Lemma Inv_linearizable used s log :
  Inv used s log → s_clerks s = ∅ →
  ops_linearizable StoreModel (s_hist s) ∧
  ∃ log st, done_of log ≡ₚ s_hist s ∧ length log = length (s_hist s) ∧
            replay ∅ log = Some st ∧ ∀ k, map_get st k = map_get (StoreMap (s_kv s)) k.
Proof.
  intros [(st & Hrep & Hag) Hsort Htimes Hdone Hclient Hopen _ _ _] Hidle.
  assert (Hret : ∀ e, e ∈ log → is_Some (e_ret e)).
  { intros e He. destruct (e_ret e) eqn:E; [eauto|]. exfalso.
    assert (Ho : e ∈ open (e_cli e) log) by (by apply list_elem_of_filter).
    rewrite Hopen in Ho by (by rewrite Hidle). by apply elem_of_nil in Ho. }
  split.
  - exists (done_of log). split; [done|]. apply (log_linearization log st); try done.
    intros e He. destruct (Htimes e He). split; [lia|done].
  - exists log, st. split_and!; [done|..|done|done]. rewrite <- Hdone. symmetry. by apply done_length.
Qed.

(** The ids the server remembers when all have returned: none. *)
Lemma Inv_forgotten used s log : Inv used s log → s_clerks s = ∅ → IDMap (s_kv s) = ∅.
Proof.
  intros HI Hidle. apply map_empty. intros id. apply eq_None_not_Some. intros Hs.
  destruct (inv_ids _ _ _ HI id Hs) as (c & r & Hr & _). by rewrite Hidle in Hr.
Qed.

(** ** The properties *)

(** C7: any number of clerks, whatever requests and replies are lost and
    however their calls interleave: if the ids drawn are distinct, then when
    every operation has returned, the operations, with the results their clerks
    returned, can be put in an order that respects real time, in which every
    operation takes effect once on the key/value store, and which ends in
    the store of the server. *)
Theorem kvsrv_linearizable (acts : list action) (s : system) :
  exec init acts = Some s → NoDup (ids acts) → s_clerks s = ∅ →
  ops_linearizable StoreModel (s_hist s) ∧
  ∃ log st, done_of log ≡ₚ s_hist s ∧ length log = length (s_hist s) ∧
            replay ∅ log = Some st ∧ ∀ k, map_get st k = map_get (StoreMap (s_kv s)) k.
Proof.
  intros Hex Hnd Hidle. destruct (Inv_exec acts [] init [] s Inv_init Hex Hnd) as (used & log & HI); [set_solver|].
  by apply (Inv_linearizable used s log).
Qed.

(** The server remembers the id of an operation only while its clerk has
    not returned: in every state of the system an id in [IDMap] belongs to a
    running operation, and when all have returned [IDMap] is empty. *)
Theorem kvsrv_forgets_ids (acts : list action) (s : system) :
  exec init acts = Some s → NoDup (ids acts) →
  (∀ id, is_Some (IDMap (s_kv s) !! id) → ∃ c r, s_clerks s !! c = Some r ∧ op_id (r_op r) = Some id) ∧
  (s_clerks s = ∅ → IDMap (s_kv s) = ∅).
Proof.
  intros Hex Hnd. destruct (Inv_exec acts [] init [] s Inv_init Hex Hnd) as (used & log & HI); [set_solver|].
  split; [apply (inv_ids _ _ _ HI)|by apply (Inv_forgotten used s log)].
Qed.

(** A method of the clerk returns exactly when the calls it needs have
    been answered: one for [Get], two (the update and the acknowledgement) for
    [Put] and [Append]; lost requests and lost replies in between only make it
    try again. *)
Theorem clerk_returns (kv : KVServer) (o : kvop) (fates : list fate) :
  (∃ v, (clerk_run kv (start o) fates).2 = Returned v) ↔
  (match o with OGet _ => 1 | _ => 2 end ≤ replies fates)%nat.
Proof.
  pose proof (clerk_run_waits kv (start o) fates) as Hw.
  assert (Hs : waits (start o) = match o with OGet _ => 1%nat | _ => 2%nat end) by by destruct o.
  rewrite Hs in Hw. split.
  - intros [v E]. rewrite E in Hw. simpl in Hw. lia.
  - intros Hle. destruct ((clerk_run kv (start o) fates).2) as [| | |v]; simpl in Hw; [lia..|]. by exists v.
Qed.

(** The reply to a repeated request. [Append] answers every repetition
    with the value the key had before the operation; [Put] answers the first
    request with that value, but a repetition with the value it has put. *)
Theorem repeated_replies (kv : KVServer) (args : PutAppendArgs) :
  pa_State args = Modify → IDMap kv !! pa_ID args = None →
  let old := map_get (StoreMap kv) (pa_Key args) in
  (let '(kv1, reply1) := Append kv args in
   Append kv1 args = (kv1, reply1) ∧ par_Value reply1 = old) ∧
  (let '(kv1, reply1) := Put kv args in
   Put kv1 args = (kv1, MkPutAppendReply (pa_Value args)) ∧ par_Value reply1 = old).
Proof.
  intros Hs Hid. cbn zeta.
  assert (Hdec : ∀ A (x y : A), (if decide (pa_State args = Ack) then x else y) = y)
    by (intros; apply decide_False; congruence).
  split.
  - unfold Append, CheckIfNeedChange. rewrite Hdec, Hid. simpl.
    destruct (StoreMap kv !! pa_Key args) eqn:E; cbn; rewrite Hdec, lookup_insert_eq; cbn;
      unfold map_get; by rewrite lookup_insert_eq, E.
  - unfold Put, CheckIfNeedChange. rewrite Hdec, Hid. cbn. rewrite Hdec, lookup_insert_eq. cbn.
    unfold map_get. by rewrite lookup_insert_eq.
Qed.

(** Two clients, a request and two replies lost, a repeated append. *)
Definition example_run : list action :=
  [Invoke 0 (OPut "x" "a" 5); Rpc 0 ReplyLost; Invoke 1 (OAppend "x" "b" 9); Rpc 1 ReplyLost; Rpc 0 Replied;
   Rpc 1 RequestLost; Rpc 1 Replied; Rpc 0 Replied; Rpc 1 ReplyLost; Rpc 1 Replied; Invoke 0 (OGet "x"); Rpc 0 Replied].

Lemma kvsrv_linearizable_witness :
  ∃ s, exec init example_run = Some s ∧ map_get (StoreMap (s_kv s)) "x" = "ab" ∧
       (op_Output <$> s_hist s) = [IKvOutput (MkKvOutput ""); IKvOutput (MkKvOutput "a"); IKvOutput (MkKvOutput "ab")] ∧
       ops_linearizable StoreModel (s_hist s).
Proof.
  eexists. split; [vm_compute; reflexivity|]. split_and!; [vm_compute; reflexivity|vm_compute; reflexivity|].
  apply (kvsrv_linearizable example_run).
  - vm_compute. reflexivity.
  - apply (bool_decide_unpack _). vm_compute. exact I.
  - reflexivity.
Defined.

Lemma kvsrv_forgets_ids_witness :
  ∃ s, exec init example_run = Some s ∧ IDMap (s_kv s) = ∅.
Proof.
  eexists. split; [vm_compute; reflexivity|].
  apply (kvsrv_forgets_ids example_run).
  - vm_compute. reflexivity.
  - apply (bool_decide_unpack _). vm_compute. exact I.
  - reflexivity.
Defined.

Lemma repeated_replies_witness :
  let kv := MkKVServer {["x" := "old"]} ∅ in
  let args := MkPutAppendArgs "x" "new" 1 Modify in
  let '(kv1, reply1) := Put kv args in
  Put kv1 args = (kv1, MkPutAppendReply "new") ∧ par_Value reply1 = "old".
Proof. intros kv args. exact (proj2 (repeated_replies kv args eq_refl eq_refl)). Defined.
End KvSrvLin.
