(* ===== verification/Coordinator.v ===== *)
(** * The MapReduce coordinator

    [src/6.5840/src/mr/coordinator.go] and [rpc.go]. Every handler runs with the lock of
    the coordinator held, so it is one function on its state. A time is the
    number of nanoseconds since the Unix epoch; what [time.Now] returns is an
    argument of the handler that calls it. *)
From S2P Require Import Prelude.
From stdpp Require Export pretty.
Local Open Scope Z_scope.

Module Coordinator.

(** ** rpc.go *)

Inductive MissionState := Ready | Running | Done.

Inductive WorkType := Map | Reduce | Waiting.

#[global] Instance MissionState_eq_dec : EqDecision MissionState.
Proof. solve_decision. Defined.

#[global] Instance WorkType_eq_dec : EqDecision WorkType.
Proof. solve_decision. Defined.

Record Task := MkTask {
  Worktype : WorkType;
  Missionstate : MissionState;
  Index : Z;
  Timestamp : Z;
  Mapfile : string;
  Reducefiles : list string;
}.

(** The zero [time.Time], the first of January of the year 1. *)
Definition zero_time : Z := -62135596800 * 10 ^ 9.

Definition zero_Task : Task := MkTask Map Ready 0 zero_time "" [].

Inductive WorkerMessageType := RequestTask | ReturnTask.

Record CallArgs := MkCallArgs {
  CallType : WorkerMessageType;
  a_Task : Task;
}.

Record TaskReply := MkTaskReply {
  r_Task : Task;
  NReduce : Z;
}.

Definition zero_CallArgs : CallArgs := MkCallArgs RequestTask zero_Task.
Definition zero_TaskReply : TaskReply := MkTaskReply zero_Task 0.

(** ** coordinator.go *)

Record Coordinator := MkCoordinator {
  filename : list string;
  nreduce : Z;
  maptask : list Task;
  reducetask : list Task;
  maptaskfinish : bool;
  reducetaskfinish : bool;
}.

Definition Example_ (reply : TaskReply) : TaskReply :=
  MkTaskReply (MkTask Map Ready 99 zero_time "" []) (NReduce reply).

Definition set_Missionstate (t : Task) (m : MissionState) : Task :=
  MkTask (Worktype t) m (Index t) (Timestamp t) (Mapfile t) (Reducefiles t).

(** What [HandleMapFinish] and [HandleReduceFinish] do to their tasks: the
    task is done if the time stamp is the one of its last assignment. An index
    out of range panics. *)
Definition finish (tasks : list Task) (args : CallArgs) : option (list Task) :=
  t ← go_index tasks (Index (a_Task args));
  if Timestamp (a_Task args) =? Timestamp t then go_update tasks (Index (a_Task args)) (set_Missionstate t Done)
  else Some tasks.

Definition HandleMapFinish (c : Coordinator) (args : CallArgs) : option Coordinator :=
  tasks ← finish (maptask c) args;
  Some (MkCoordinator (filename c) (nreduce c) tasks (reducetask c) (maptaskfinish c) (reducetaskfinish c)).

Definition HandleReduceFinish (c : Coordinator) (args : CallArgs) : option Coordinator :=
  tasks ← finish (reducetask c) args;
  Some (MkCoordinator (filename c) (nreduce c) (maptask c) tasks (maptaskfinish c) (reducetaskfinish c)).

(** [currenttime.Sub(t.Timestamp).Seconds() > 40]. *)
Definition overtime (currenttime : Z) (t : Task) : bool := 40 * 10 ^ 9 <? currenttime - Timestamp t.

Definition is_state (t : Task) (m : MissionState) : bool := bool_decide (Missionstate t = m).

Definition start_map (now : Z) (t : Task) : Task :=
  MkTask (Worktype t) Running (Index t) now (Mapfile t) (Reducefiles t).

Definition start_reduce (now : Z) (t : Task) : Task :=
  MkTask Reduce Running (Index t) now (Mapfile t) (Reducefiles t).

(** The loop over the tasks: the task it starts, if it finds one, the tasks
    after it, and [tmpCheckAllFinish]. *)
Fixpoint assign_loop (currenttime : Z) (start : Task → Task) (tasks : list Task) (tmpCheckAllFinish : bool) :
    option Task * list Task * bool :=
  match tasks with
  | [] => (None, [], tmpCheckAllFinish)
  | t :: rest =>
      if is_state t Ready || (is_state t Running && overtime currenttime t) then
        (Some (start t), start t :: rest, tmpCheckAllFinish)
      else
        let tmpCheckAllFinish := if is_state t Running then false else tmpCheckAllFinish in
        let '(r, rest, fin) := assign_loop currenttime start rest tmpCheckAllFinish in
        (r, t :: rest, fin)
  end.

Definition wait_reply (reply : TaskReply) : TaskReply :=
  let t := r_Task reply in
  MkTaskReply (MkTask Waiting (Missionstate t) (Index t) (Timestamp t) (Mapfile t) (Reducefiles t)) (NReduce reply).

(** [currenttime] is what the first [time.Now] returns, [now] the second one. *)
Definition AssignMission (c : Coordinator) (reply : TaskReply) (currenttime now : Z) : Coordinator * TaskReply :=
  let tmpCheckAllFinish := true in
  let reply := MkTaskReply (r_Task reply) (nreduce c) in
  if negb (maptaskfinish c) then
    match assign_loop currenttime (start_map currenttime) (maptask c) tmpCheckAllFinish with
    | (Some t, tasks, _) =>
        (MkCoordinator (filename c) (nreduce c) tasks (reducetask c) false (reducetaskfinish c),
         MkTaskReply t (NReduce reply))
    | (None, tasks, fin) =>
        (MkCoordinator (filename c) (nreduce c) tasks (reducetask c) fin (reducetaskfinish c), wait_reply reply)
    end
  else
    match assign_loop currenttime (start_reduce now) (reducetask c) tmpCheckAllFinish with
    | (Some t, tasks, _) =>
        (MkCoordinator (filename c) (nreduce c) (maptask c) tasks (maptaskfinish c) false,
         MkTaskReply t (NReduce reply))
    | (None, tasks, fin) =>
        (MkCoordinator (filename c) (nreduce c) (maptask c) tasks (maptaskfinish c) fin, wait_reply reply)
    end.

Definition Done_ (c : Coordinator) : bool := maptaskfinish c && reducetaskfinish c.

(** [fmt.Sprintf] of the names of the intermediate files. *)
Definition mr_name (index i : Z) : string := "mr-" +:+ pretty index +:+ "-" +:+ pretty i.

Definition make_maptask (i : nat) (filename : string) : Task :=
  MkTask Map Ready (Z.of_nat i) zero_time filename [].

Definition make_reducetask (files : list string) (i : Z) : Task :=
  MkTask Reduce Ready i zero_time "" (imap (λ index _, mr_name (Z.of_nat index) i) files).

(** [glob] is [filepath.Glob]: the files that match a pattern, or an error,
    for which [MakeCoordinator] returns nil. *)
Definition MakeCoordinator (glob : string → option (list string)) (files : list string) (nReduce : Z) :
    option Coordinator :=
  names ← mapM glob files;
  let filename := concat names in
  Some (MkCoordinator filename nReduce (imap make_maptask filename)
          (make_reducetask filename <$> seqZ 0 nReduce) false false).

(** ** The loop over the tasks *)

Implicit Types (t : Task) (c : Coordinator).

Definition startable (currenttime : Z) t : bool :=
  is_state t Ready || (is_state t Running && overtime currenttime t).

Lemma is_state_eq t m : is_state t m = true ↔ Missionstate t = m.
Proof. apply bool_decide_eq_true. Qed.

(** It starts the first task that can be started, and otherwise it finds out
    whether all tasks are done. *)
Lemma assign_loop_ok currenttime start tasks fin :
  match assign_loop currenttime start tasks fin with
  | (Some t', tasks', _) =>
      ∃ l1 t l2, tasks = l1 ++ t :: l2 ∧ startable currenttime t = true ∧ t' = start t ∧
                 tasks' = l1 ++ start t :: l2 ∧ (∀ t, t ∈ l1 → startable currenttime t = false)
  | (None, tasks', fin') =>
      tasks' = tasks ∧ (∀ t, t ∈ tasks → startable currenttime t = false) ∧
      (fin' = true ↔ fin = true ∧ ∀ t, t ∈ tasks → Missionstate t = Done)
  end.
Proof.
  revert fin. induction tasks as [|t tasks IH]; intros fin; simpl.
  { split_and!; [done|set_solver|]. split; [intros; split; [done|set_solver]|tauto]. }
  fold (startable currenttime t). destruct (startable currenttime t) eqn:E.
  { exists [], t, tasks. split_and!; [done..|set_solver]. }
  specialize (IH (if is_state t Running then false else fin)).
  destruct (assign_loop _ _ _ _) as [[[t'|] tasks'] fin'].
  - destruct IH as (l1 & t1 & l2 & -> & Hst & -> & -> & Hl1).
    exists (t :: l1), t1, l2. split_and!; [done..|]. intros x [->|]%elem_of_cons; auto.
  - destruct IH as (-> & Hall & Hfin). split_and!; [done|intros x [->|]%elem_of_cons; auto|].
    rewrite Hfin. unfold startable in E. apply orb_false_iff in E as [E1 _].
    assert (Hr : Missionstate t ≠ Ready) by (intros ?%is_state_eq; congruence).
    destruct (is_state t Running) eqn:E2.
    + apply is_state_eq in E2. split; [by intros [? _]|]. intros [_ H]. specialize (H t). rewrite E2 in H. set_solver.
    + assert (Missionstate t = Done).
      { destruct (Missionstate t) eqn:Em; [done| |done]. apply is_state_eq in Em. congruence. }
      set_solver.
Qed.

(** What the handlers keep of a task. *)
Definition same_task t t' : Prop :=
  Index t' = Index t ∧ Mapfile t' = Mapfile t ∧ Reducefiles t' = Reducefiles t ∧ Worktype t' = Worktype t.

Lemma finish_cases tasks args tasks' :
  finish tasks args = Some tasks' →
  tasks' = tasks ∨
  ∃ l1 t l2, tasks = l1 ++ t :: l2 ∧ tasks' = l1 ++ set_Missionstate t Done :: l2 ∧
             Z.of_nat (length l1) = Index (a_Task args) ∧ Timestamp (a_Task args) = Timestamp t.
Proof.
  unfold finish. destruct (go_index tasks _) as [t|] eqn:E; [|done]. cbn [mbind option_bind].
  destruct (Z.eqb_spec (Timestamp (a_Task args)) (Timestamp t)) as [Ht|]; [|by intros [= ->]; left].
  intros [Hi ->]%go_update_Some. right. apply go_index_Some in E as [_ E].
  destruct (list_elem_of_split_length tasks _ t E) as (l1 & l2 & -> & Hl).
  exists l1, t, l2. split_and!; [done| |lia|done]. rewrite Hl, insert_app_r_alt, Nat.sub_diag by lia. done.
Qed.

(** An index in range does not panic. *)
Lemma finish_is_Some tasks args :
  0 ≤ Index (a_Task args) < Z.of_nat (length tasks) → is_Some (finish tasks args).
Proof.
  intros Hi. unfold finish. destruct (proj2 (go_index_bound tasks _) Hi) as [t ->]. cbn [mbind option_bind].
  destruct (_ =? _); [|eauto]. eexists. apply go_update_Some. split; [done|]. reflexivity.
Qed.

(** ** Well-formed coordinators *)

Definition indexed (tasks : list Task) : Prop := ∀ i t, tasks !! i = Some t → Index t = Z.of_nat i.

(** Task [i] of [tasks'] is task [i] of [tasks], further on: its identity is
    the same and if it was done it is done. *)
Definition later t t' : Prop :=
  Index t' = Index t ∧ Mapfile t' = Mapfile t ∧ Reducefiles t' = Reducefiles t ∧
  (Missionstate t = Done → Missionstate t' = Done).

Record wf c : Prop := {
  wf_map : indexed (maptask c);
  wf_reduce : indexed (reducetask c);
  wf_maptype t : t ∈ maptask c → Worktype t = Map;
  wf_mapfinish : maptaskfinish c = true → ∀ t, t ∈ maptask c → Missionstate t = Done;
  wf_reducefinish : reducetaskfinish c = true →
    maptaskfinish c = true ∧ ∀ t, t ∈ reducetask c → Missionstate t = Done;
}.

(** Coordinator [c'] is [c], further on. *)
Record grows c c' : Prop := {
  gr_filename : filename c' = filename c;
  gr_nreduce : nreduce c' = nreduce c;
  gr_map : Forall2 later (maptask c) (maptask c');
  gr_reduce : Forall2 later (reducetask c) (reducetask c');
  gr_mapfinish : maptaskfinish c = true → maptaskfinish c' = true;
}.

Lemma later_refl t : later t t.
Proof. done. Qed.

#[export] Hint Resolve later_refl : core.

Lemma Forall2_later_refl tasks : Forall2 later tasks tasks.
Proof. by apply Forall_Forall2_diag, Forall_forall. Qed.

#[export] Hint Resolve Forall2_later_refl : core.

Lemma Forall2_later_one l1 t t' l2 : later t t' → Forall2 later (l1 ++ t :: l2) (l1 ++ t' :: l2).
Proof. intros. apply Forall2_app; [done|]. by constructor. Qed.

Lemma indexed_later tasks tasks' : Forall2 later tasks tasks' → indexed tasks → indexed tasks'.
Proof.
  intros HF Hi i t' Ht'. destruct (Forall2_lookup_r _ _ _ _ _ HF Ht') as (t & Ht & -> & _). by apply Hi.
Qed.

Lemma done_later tasks tasks' :
  Forall2 later tasks tasks' → (∀ t, t ∈ tasks → Missionstate t = Done) → ∀ t, t ∈ tasks' → Missionstate t = Done.
Proof.
  intros HF Hd t' (i & Ht')%list_elem_of_lookup. destruct (Forall2_lookup_r _ _ _ _ _ HF Ht') as (t & Ht & _ & _ & _ & H).
  apply H, Hd. by eapply list_elem_of_lookup_2.
Qed.

Lemma startable_not_done now t : startable now t = true → Missionstate t ≠ Done.
Proof. unfold startable, is_state. intros H E. rewrite E in H. done. Qed.

Lemma finish_later tasks args tasks' : finish tasks args = Some tasks' → Forall2 later tasks tasks'.
Proof.
  intros [->|(l1 & t & l2 & -> & -> & _)]%finish_cases; [done|]. apply Forall2_later_one. done.
Qed.

Lemma make_wf glob files nReduce c : MakeCoordinator glob files nReduce = Some c → wf c.
Proof.
  unfold MakeCoordinator. destruct (mapM glob files) as [names|]; [|done]. cbn [mbind option_bind].
  intros [= <-]. split; simpl; try done.
  - intros i t. rewrite list_lookup_imap. intros (f & _ & ->)%fmap_Some. done.
  - intros i t. rewrite list_lookup_fmap. intros (j & Hj & ->)%fmap_Some. apply lookup_seqZ in Hj as [-> _]. done.
  - intros t (i & Hi)%list_elem_of_lookup. rewrite list_lookup_imap in Hi. apply fmap_Some in Hi as (f & _ & ->). done.
Qed.

Lemma make_fields glob files nReduce c :
  MakeCoordinator glob files nReduce = Some c →
  nreduce c = nReduce ∧ maptask c = imap make_maptask (filename c) ∧
  reducetask c = make_reducetask (filename c) <$> seqZ 0 nReduce.
Proof.
  unfold MakeCoordinator. destruct (mapM glob files) as [names|]; [|done]. cbn [mbind option_bind]. by intros [= <-].
Qed.

(** ** What [AssignMission] does *)

Lemma AssignMission_cases c reply currenttime now :
  wf c →
  match AssignMission c reply currenttime now with
  | (c', reply') =>
      NReduce reply' = nreduce c ∧ wf c' ∧ grows c c' ∧
      ((∃ l1 t l2, maptaskfinish c = false ∧ maptask c = l1 ++ t :: l2 ∧ startable currenttime t = true ∧
          (∀ t, t ∈ l1 → startable currenttime t = false) ∧ r_Task reply' = start_map currenttime t ∧
          maptask c' = l1 ++ start_map currenttime t :: l2 ∧ reducetask c' = reducetask c) ∨
       (∃ l1 t l2, maptaskfinish c = true ∧ reducetask c = l1 ++ t :: l2 ∧ startable currenttime t = true ∧
          (∀ t, t ∈ l1 → startable currenttime t = false) ∧ r_Task reply' = start_reduce now t ∧
          reducetask c' = l1 ++ start_reduce now t :: l2 ∧ maptask c' = maptask c) ∨
       (Worktype (r_Task reply') = Waiting ∧ maptask c' = maptask c ∧ reducetask c' = reducetask c ∧
          if maptaskfinish c then
            (∀ t, t ∈ reducetask c → startable currenttime t = false) ∧
            (reducetaskfinish c' = true ↔ ∀ t, t ∈ reducetask c → Missionstate t = Done)
          else
            (∀ t, t ∈ maptask c → startable currenttime t = false) ∧
            (maptaskfinish c' = true ↔ ∀ t, t ∈ maptask c → Missionstate t = Done)))
  end.
Proof.
  intros [Hm Hr Hty Hmf Hrf]. unfold AssignMission.
  destruct (maptaskfinish c) eqn:Ef; simpl.
  - pose proof (assign_loop_ok currenttime (start_reduce now) (reducetask c) true) as Hl.
    destruct (assign_loop _ _ _ _) as [[[t'|] tasks] fin].
    + destruct Hl as (l1 & t & l2 & E & Hst & -> & -> & Hl1).
      assert (HF : Forall2 later (reducetask c) (l1 ++ start_reduce now t :: l2)).
      { rewrite E. apply Forall2_later_one. split_and!; try done. by intros ?%(startable_not_done currenttime t). }
      split; [done|]. split; [split; simpl; auto; [by eapply indexed_later|done]|].
      split; [by split|]. right. left. exists l1, t, l2. done.
    + destruct Hl as (-> & Hall & Hfin). split; [done|].
      split; [split; simpl; auto; intros Hf; split; [done|]; by apply Hfin|].
      split; [by split|]. right. right. split_and!; [done..|]. rewrite Hfin. tauto.
  - assert (Hrf' : reducetaskfinish c = false).
    { destruct (reducetaskfinish c); [|done]. by destruct Hrf. }
    pose proof (assign_loop_ok currenttime (start_map currenttime) (maptask c) true) as Hl.
    destruct (assign_loop _ _ _ _) as [[[t'|] tasks] fin].
    + destruct Hl as (l1 & t & l2 & E & Hst & -> & -> & Hl1).
      assert (HF : Forall2 later (maptask c) (l1 ++ start_map currenttime t :: l2)).
      { rewrite E. apply Forall2_later_one. split_and!; try done. by intros ?%(startable_not_done currenttime t). }
      split; [done|]. split; [split; simpl; auto; try done; [by eapply indexed_later|]|].
      { intros x. rewrite E in Hty. set_unfold. intros [?|[->|?]]; [auto| |auto]. simpl. auto. }
      split; [split; simpl; try done; congruence|]. left. exists l1, t, l2. done.
    + destruct Hl as (-> & Hall & Hfin). split; [done|].
      split; [split; simpl; auto; [intros Hf; by apply Hfin|by rewrite Hrf']|].
      split; [split; simpl; try done; congruence|]. right. right. split_and!; [done..|]. rewrite Hfin. tauto.
Qed.

(** ** Runs of the coordinator *)

Inductive event :=
| EAssign (reply : TaskReply) (currenttime now : Z)
| EMapFinish (args : CallArgs)
| EReduceFinish (args : CallArgs).

Definition handle c (e : event) : option Coordinator :=
  match e with
  | EAssign reply currenttime now => Some (AssignMission c reply currenttime now).1
  | EMapFinish args => HandleMapFinish c args
  | EReduceFinish args => HandleReduceFinish c args
  end.

Lemma handle_ok c e c' : wf c → handle c e = Some c' → wf c' ∧ grows c c'.
Proof.
  intros HW. destruct e as [reply ct now|args|args]; simpl.
  - intros [= <-]. pose proof (AssignMission_cases c reply ct now HW) as H.
    destruct (AssignMission c reply ct now) as [c' r]. by destruct H as (_ & ? & ? & _).
  - unfold HandleMapFinish. destruct (finish _ _) as [tasks|] eqn:E; [|done]. cbn [mbind option_bind]. intros [= <-].
    pose proof (finish_later _ _ _ E) as HF. destruct HW as [Hm Hr Hty Hmf Hrf]. split; [|by split].
    split; simpl; auto; [by eapply indexed_later| |intros H; by eapply done_later, Hmf].
    apply finish_cases in E as [->|(l1 & t & l2 & E & -> & _)]; [done|]. rewrite E in Hty. set_unfold.
    intros x [?|[->|?]]; [auto| |auto]. simpl. auto.
  - unfold HandleReduceFinish. destruct (finish _ _) as [tasks|] eqn:E; [|done]. cbn [mbind option_bind]. intros [= <-].
    pose proof (finish_later _ _ _ E) as HF. destruct HW as [Hm Hr Hty Hmf Hrf]. split; [|by split].
    split; simpl; auto; [by eapply indexed_later|].
    intros H. destruct (Hrf H) as [? Hd]. split; [done|]. by eapply done_later.
Qed.

Fixpoint handles c (es : list event) : option Coordinator :=
  match es with
  | [] => Some c
  | e :: es => c' ← handle c e; handles c' es
  end.

#[export] Instance later_trans : Transitive later.
Proof. intros t1 t2 t3. intros (? & ? & ? & ?) (? & ? & ? & ?). split_and!; [congruence..|auto]. Qed.

Lemma grows_refl c : grows c c.
Proof. by split. Qed.

Lemma grows_trans c1 c2 c3 : grows c1 c2 → grows c2 c3 → grows c1 c3.
Proof.
  intros [E1 E2 Hm Hr Hf] [E1' E2' Hm' Hr' Hf']. split; [congruence|congruence|..|auto];
    (etrans; [done|done]).
Qed.

Lemma done_stable c e c' : wf c → handle c e = Some c' → Done_ c = true → Done_ c' = true.
Proof.
  intros HW. unfold Done_. rewrite !andb_true_iff. intros He [Hmf Hrf].
  split; [by apply (gr_mapfinish _ _ (proj2 (handle_ok _ _ _ HW He)))|].
  destruct e as [reply ct now|args|args]; simpl in He.
  - injection He as <-. pose proof (AssignMission_cases c reply ct now HW) as H.
    destruct (AssignMission c reply ct now) as [c' r]. simpl.
    destruct (wf_reducefinish _ HW Hrf) as [_ Hd].
    destruct H as (_ & _ & _ & [(l1 & t & l2 & E & _)|[(l1 & t & l2 & _ & E & Hst & _)|(_ & _ & _ & H)]]).
    + congruence.
    + destruct (startable_not_done ct t Hst). apply Hd. rewrite E. set_solver.
    + rewrite Hmf in H. by apply H.
  - unfold HandleMapFinish in He. destruct (finish _ _); [|done]. cbn in He. by injection He as <-.
  - unfold HandleReduceFinish in He. destruct (finish _ _); [|done]. cbn in He. by injection He as <-.
Qed.

(** ** The properties *)

(** C30: [AssignMission] hands out the first map task that is ready or has been
    running for more than 40 seconds, as running since now; reduce tasks are
    handed out, by the same rule, only when every map task is done; and it
    answers that the worker has to wait only when no task can be started. *)
Theorem AssignMission_assigns c reply currenttime now :
  wf c →
  let '(c', reply') := AssignMission c reply currenttime now in
  (Worktype (r_Task reply') = Map → ∃ i t, maptask c !! i = Some t ∧ startable currenttime t = true ∧
     (∀ j u, (j < i)%nat → maptask c !! j = Some u → startable currenttime u = false) ∧
     r_Task reply' = start_map currenttime t ∧ maptask c' = <[i := start_map currenttime t]> (maptask c)) ∧
  (Worktype (r_Task reply') = Reduce → (∀ t, t ∈ maptask c → Missionstate t = Done) ∧
     ∃ i t, reducetask c !! i = Some t ∧ startable currenttime t = true ∧
     (∀ j u, (j < i)%nat → reducetask c !! j = Some u → startable currenttime u = false) ∧
     r_Task reply' = start_reduce now t ∧ reducetask c' = <[i := start_reduce now t]> (reducetask c)) ∧
  (Worktype (r_Task reply') = Waiting →
     maptask c' = maptask c ∧ reducetask c' = reducetask c ∧
     ∀ t, t ∈ (if maptaskfinish c then reducetask c else maptask c) → startable currenttime t = false).
Proof.
  intros HW. pose proof (AssignMission_cases c reply currenttime now HW) as H.
  destruct (AssignMission c reply currenttime now) as [c' reply'].
  assert (Hat : ∀ l1 (t t' : Task) l2, (l1 ++ t :: l2) !! length l1 = Some t ∧
      <[length l1 := t']> (l1 ++ t :: l2) = l1 ++ t' :: l2 ∧
      ∀ j u, (j < length l1)%nat → (l1 ++ t :: l2) !! j = Some u → u ∈ l1).
  { intros l1 t t' l2. split_and!; [by apply list_lookup_middle|by rewrite insert_app_r_alt, Nat.sub_diag by lia|].
    intros j u Hj Hu. rewrite lookup_app_l in Hu by done. by eapply list_elem_of_lookup_2. }
  destruct H as (_ & _ & _ & [(l1 & t & l2 & Ef & E & Hst & Hl1 & Hr & E' & _)|
    [(l1 & t & l2 & Ef & E & Hst & Hl1 & Hr & E' & _)|(Hw & E1 & E2 & H)]]).
  - assert (Ht : Worktype (r_Task reply') = Map).
    { rewrite Hr. simpl. apply (wf_maptype _ HW). rewrite E. set_solver. }
    rewrite Ht. split_and!; try done. intros _. destruct (Hat l1 t (start_map currenttime t) l2) as (H1 & H2 & H3).
    exists (length l1), t. rewrite E, E', H2. split_and!; eauto.
  - rewrite Hr. simpl. split_and!; try done. intros _. split; [by apply (wf_mapfinish _ HW)|].
    destruct (Hat l1 t (start_reduce now t) l2) as (H1 & H2 & H3).
    exists (length l1), t. rewrite E, E', H2. split_and!; eauto.
  - rewrite Hw. split_and!; try done. intros _. split_and!; [done|done|]. by destruct (maptaskfinish c), H.
Qed.

(** C29: progress is never lost: along any sequence of calls from the workers,
    whatever they send, the tasks keep their identity, a task that is done
    stays done, the map phase never reopens, and once [Done] answers true it
    answers true for ever, with every task done. *)
Theorem coordinator_progress c es c' :
  wf c → handles c es = Some c' →
  wf c' ∧ grows c c' ∧ (Done_ c = true → Done_ c' = true) ∧
  (Done_ c' = true → ∀ t, t ∈ maptask c' ++ reducetask c' → Missionstate t = Done).
Proof.
  intros HW Hes.
  assert (H : wf c' ∧ grows c c' ∧ (Done_ c = true → Done_ c' = true)).
  { revert c HW Hes. induction es as [|e es IH]; intros c HW; simpl.
    - intros [= <-]. by split_and!; [|apply grows_refl|].
    - destruct (handle c e) as [c1|] eqn:E; [|done]. cbn [mbind option_bind]. intros Hes.
      destruct (handle_ok _ _ _ HW E) as [HW1 Hg1]. destruct (IH c1 HW1 Hes) as (HW' & Hg & Hd).
      split_and!; [done|by eapply grows_trans|]. intros Hc. apply Hd. by apply (done_stable c e c1). }
  destruct H as (HW' & Hg & Hd). split_and!; [done..|].
  unfold Done_. rewrite andb_true_iff. intros [Hm Hr] t [Ht|Ht]%elem_of_app.
  - by apply (wf_mapfinish _ HW').
  - by apply (wf_reducefinish _ HW').
Qed.

(** [HandleMapFinish] marks the task done exactly when the call carries the
    time stamp of its last assignment, so the result of a worker that was too
    slow is not counted; it changes no other task, and panics exactly when the
    index is out of range. *)
Theorem HandleMapFinish_timestamp c args :
  match HandleMapFinish c args with
  | None => ¬ 0 ≤ Index (a_Task args) < Z.of_nat (length (maptask c))
  | Some c' =>
      ∃ i t, Z.of_nat i = Index (a_Task args) ∧ maptask c !! i = Some t ∧
        maptask c' = (if Timestamp (a_Task args) =? Timestamp t
                      then <[i := set_Missionstate t Done]> (maptask c) else maptask c) ∧
        reducetask c' = reducetask c ∧ Done_ c' = Done_ c
  end.
Proof.
  unfold HandleMapFinish, finish. destruct (go_index (maptask c) (Index (a_Task args))) as [t|] eqn:E.
  - pose proof E as [Hi Ht]%go_index_Some. cbn [mbind option_bind].
    assert (Hb : 0 ≤ Index (a_Task args) < Z.of_nat (length (maptask c))) by (apply go_index_bound; eauto).
    destruct (Timestamp (a_Task args) =? Timestamp t) eqn:Et.
    + rewrite (proj2 (go_update_Some _ _ _ _) (conj Hb eq_refl)). cbn [mbind option_bind].
      exists (Z.to_nat (Index (a_Task args))), t. rewrite Et. split_and!; [lia|done..].
    + exists (Z.to_nat (Index (a_Task args))), t. rewrite Et. split_and!; [lia|done..].
  - simpl. intros Hb%go_index_bound. rewrite E in Hb. by destruct Hb.
Qed.

Definition example_glob (pattern : string) : option (list string) := Some [pattern].

Definition example_coordinator : Coordinator :=
  default (MkCoordinator [] 0 [] [] false false) (MakeCoordinator example_glob ["a"; "b"] 2).

Lemma example_coordinator_wf : wf example_coordinator.
Proof. apply (make_wf example_glob ["a"; "b"] 2). reflexivity. Qed.

Lemma AssignMission_assigns_witness :
  ∃ c' reply', AssignMission example_coordinator zero_TaskReply 100 100 = (c', reply') ∧
    ∃ i t, maptask example_coordinator !! i = Some t ∧ r_Task reply' = start_map 100 t.
Proof.
  eexists _, _. split; [vm_compute; reflexivity|].
  destruct (AssignMission_assigns example_coordinator zero_TaskReply 100 100 example_coordinator_wf) as (H & _).
  destruct (H eq_refl) as (i & t & H1 & _ & _ & H2 & _). exists i, t. split; [exact H1|exact H2].
Defined.

Definition example_calls : list event :=
  [EAssign zero_TaskReply 5 5; EMapFinish (MkCallArgs ReturnTask (MkTask Map Ready 0 5 "" []))].

Lemma coordinator_progress_witness :
  ∃ c', handles example_coordinator example_calls = Some c' ∧
        grows example_coordinator c' ∧ (Missionstate <$> maptask c') = [Done; Ready].
Proof.
  eexists. split; [vm_compute; reflexivity|]. split; [|vm_compute; reflexivity].
  apply (coordinator_progress example_coordinator example_calls); [exact example_coordinator_wf|vm_compute; reflexivity].
Defined.
End Coordinator.
