(* ===== verification/MapReduce.v ===== *)
(** * The MapReduce worker and the sequential program

    [src/6.5840/src/mr/worker.go], [main/mrsequential.go] and the functions of
    [mrapps] whose [Map] needs no Unicode tables. The file system maps names to
    contents. A worker that runs a task is a process between two of its
    visible actions; one step of it reads one file, renames one file, or calls
    the coordinator, and it can crash between any two of them. *)
From S2P Require Import Prelude Coordinator.
Import Coordinator.
Local Open Scope Z_scope.

Module MapReduce.

Record KeyValue := MkKeyValue {
  Key : string;
  Value : string;
}.

#[global] Instance KeyValue_eq_dec : EqDecision KeyValue.
Proof. solve_decision. Defined.

(** [ByKey.Less]. *)
Definition ByKey_Less (a b : KeyValue) : bool := str_ltb (Key a) (Key b).

#[global] Instance ByKey_StrictWeak : StrictWeak ByKey_Less.
Proof. split; unfold ByKey_Less; intros *; [apply less_asym|apply less_negtrans]. Qed.

(** [hash/fnv]: the 32-bit FNV-1a hash of the bytes of a string. *)
Fixpoint fnv32a_from (hash : Z) (s : string) : Z :=
  match s with
  | EmptyString => hash
  | String a s => fnv32a_from (wrap_u 32 (Z.lxor hash (Z.of_N (Ascii.N_of_ascii a)) * 16777619)) s
  end.

Definition fnv32a (s : string) : Z := fnv32a_from 2166136261 s.

Definition ihash (key : string) : Z := Z.land (fnv32a key) 2147483647.

(** [encoding/json]: what [Encode] writes for a pair, and the pairs a loop of
    [Decode] reads until its first error. Go's encoder replaces bytes that are
    not UTF-8; of the pairs it keeps, [json_clean], decoding a stream gives
    what was encoded. *)
Class Json := {
  json_Encode : KeyValue → string;
  json_DecodeAll : string → list KeyValue;
  json_clean : KeyValue → Prop;
  json_roundtrip kvs : Forall json_clean kvs → json_DecodeAll (String.concat "" (json_Encode <$> kvs)) = kvs;
}.

Section worker.
Context `{!Json} `{!GoSort ByKey_Less}.
Context (mapf : string → string → list KeyValue) (reducef : string → list string → string).
Abbreviation filesystem := (gmap string string).

(** ** The loops of worker.go *)

(** The loop of [HandleMap] over the pairs: pair by pair into the temporary
    file of its bucket. Dividing by zero and indexing out of range panic. *)
Fixpoint encode_loop (NReduce : Z) (kva : list KeyValue) (tmpfiles : list string) : option (list string) :=
  match kva with
  | [] => Some tmpfiles
  | onekv :: kva =>
      if NReduce =? 0 then None
      else
        let ReduceBucketNum := Z.rem (ihash (Key onekv)) NReduce in
        f ← go_index tmpfiles ReduceBucketNum;
        tmpfiles ← go_update tmpfiles ReduceBucketNum (f +:+ json_Encode onekv);
        encode_loop NReduce kva tmpfiles
  end.

(** The contents of the temporary files of [HandleMap]. *)
Definition map_files (filename content : string) (NReduce : Z) : option (list string) :=
  let kva := mapf filename content in
  encode_loop NReduce kva (replicate (Z.to_nat NReduce) "").

(** The values of the run of pairs with key [key] at the front, and the rest. *)
Fixpoint take_key (key : string) (kva : list KeyValue) : list string * list KeyValue :=
  match kva with
  | [] => ([], [])
  | kv :: rest =>
      if String.eqb (Key kv) key then let '(values, rest) := take_key key rest in (Value kv :: values, rest)
      else ([], kv :: rest)
  end.

(** ["%v %v\n"] *)
Definition output_line (key output : string) : string :=
  key +:+ " " +:+ output +:+ String (Ascii.ascii_of_nat 10) "".

(** The loop [for i < len(kva)]: the lines it prints. *)
Fixpoint reduce_loop (fuel : nat) (kva : list KeyValue) : list string :=
  match fuel, kva with
  | S fuel, kv :: rest =>
      let '(values, rest) := take_key (Key kv) rest in
      let output := reducef (Key kv) (Value kv :: values) in
      output_line (Key kv) output :: reduce_loop fuel rest
  | _, _ => []
  end.

Definition reduce_lines (kva : list KeyValue) : list string :=
  let kva := gosort ByKey_Less kva in
  reduce_loop (length kva) kva.

(** The name of the file of [HandleReduce]. *)
Definition out_name (index : Z) : string := "mr-out-" +:+ pretty index.

(** ** Processes of worker.go *)

Inductive proc :=
| Assigned (reply : TaskReply)
| Renaming (reply : TaskReply) (tmpfiles : list string) (i : nat)
| Reading (reply : TaskReply) (filelist : list string) (kva : list KeyValue)
| Output (reply : TaskReply) (content : string)
| Reporting (reply : TaskReply).

(** The arguments of the final call. *)
Definition finish_args (reply : TaskReply) : CallArgs :=
  MkCallArgs ReturnTask (MkTask Map Ready (Index (r_Task reply)) (Timestamp (r_Task reply)) "" []).

(** One step of a process: the process after it ([None]: it has finished or
    died), the files, and the coordinator ([None]: its handler panics). *)
Definition proc_step (p : proc) (fs : filesystem) (c : Coordinator) : option proc * filesystem * option Coordinator :=
  match p with
  | Assigned reply =>
      match Worktype (r_Task reply) with
      | Map =>
          let filename := Mapfile (r_Task reply) in
          match fs !! filename with
          | None => (None, fs, Some c) (* cannot open *)
          | Some content =>
              match map_files filename content (NReduce reply) with
              | None => (None, fs, Some c) (* panic *)
              | Some tmpfiles => (Some (Renaming reply tmpfiles 0), fs, Some c)
              end
          end
      | Reduce => (Some (Reading reply (Reducefiles (r_Task reply)) []), fs, Some c)
      | Waiting => (None, fs, Some c)
      end
  | Renaming reply tmpfiles i =>
      match tmpfiles !! i with
      | Some content =>
          let outputfilename := mr_name (Index (r_Task reply)) (Z.of_nat i) in
          (Some (Renaming reply tmpfiles (S i)), <[outputfilename := content]> fs, Some c)
      | None => (Some (Reporting reply), fs, Some c)
      end
  | Reading reply (filename :: filelist) kva =>
      match fs !! filename with
      | None => (None, fs, Some c) (* cannot open *)
      | Some content => (Some (Reading reply filelist (kva ++ json_DecodeAll content)), fs, Some c)
      end
  | Reading reply [] kva =>
      (* os.Create empties the output file *)
      let oname := out_name (Index (r_Task reply)) in
      (Some (Output reply (String.concat "" (reduce_lines kva))), <[oname := ""]> fs, Some c)
  | Output reply content =>
      (Some (Reporting reply), <[out_name (Index (r_Task reply)) := content]> fs, Some c)
  | Reporting reply =>
      (None, fs, match Worktype (r_Task reply) with
                 | Map => HandleMapFinish c (finish_args reply)
                 | _ => HandleReduceFinish c (finish_args reply)
                 end)
  end.

(** ** The job: a coordinator, any number of workers, and their files *)

Record job := Job {
  j_coord : Coordinator;
  j_fs : filesystem;
  j_procs : gmap nat proc;
}.

Inductive action :=
| Ask (w : nat) (currenttime now : Z) (* an idle worker calls for a task *)
| Step (w : nat)
| Crash (w : nat).

(** [None]: the action cannot happen, or the coordinator panics. *)
Definition step (s : job) (a : action) : option job :=
  match a with
  | Ask w currenttime now =>
      match j_procs s !! w with
      | Some _ => None
      | None =>
          let '(c, reply) := AssignMission (j_coord s) zero_TaskReply currenttime now in
          match Worktype (r_Task reply) with
          | Waiting => Some (Job c (j_fs s) (j_procs s))
          | _ => Some (Job c (j_fs s) (<[w := Assigned reply]> (j_procs s)))
          end
      end
  | Step w =>
      p ← j_procs s !! w;
      let '(p, fs, c) := proc_step p (j_fs s) (j_coord s) in
      c ← c;
      Some (Job c fs (partial_alter (λ _, p) w (j_procs s)))
  | Crash w => Some (Job (j_coord s) (j_fs s) (delete w (j_procs s)))
  end.

Fixpoint exec (s : job) (acts : list action) : option job :=
  match acts with
  | [] => Some s
  | a :: acts => s ← step s a; exec s acts
  end.

(** ** main/mrsequential.go *)

(** The lines it prints into [mr-out-0]; [None]: it cannot open a file. *)
Definition mrsequential (fs : filesystem) (files : list string) : option (list string) :=
  kvas ← mapM (λ filename, content ← fs !! filename; Some (mapf filename content)) files;
  let intermediate := concat kvas in
  let intermediate := gosort ByKey_Less intermediate in
  Some (reduce_loop (length intermediate) intermediate).
End worker.

(** ** mrapps *)

(** [mrapps/wc.go]. *)
Definition wc_Reduce (key : string) (values : list string) : string := pretty (Z.of_nat (length values)).

(** [strings.Join]. *)
Definition Join (l : list string) (sep : string) : string := String.concat sep l.

(** [mrapps/indexer.go]. *)
Definition indexer_Reduce `{!GoSort str_ltb} (key : string) (values : list string) : string :=
  let values := gosort str_ltb values in
  pretty (Z.of_nat (length values)) +:+ " " +:+ Join values ",".

(** [mrapps/early_exit.go], whose [Reduce] also sleeps on some keys. *)
Definition early_exit_Map (filename contents : string) : list KeyValue := [MkKeyValue filename "1"].
Definition early_exit_Reduce (key : string) (values : list string) : string := pretty (Z.of_nat (length values)).

(** [mrapps/nocrash.go], and [crash.go] when it does not crash. *)
Definition nocrash_Map (filename contents : string) : list KeyValue :=
  [MkKeyValue "a" filename;
   MkKeyValue "b" (pretty (Z.of_nat (String.length filename)));
   MkKeyValue "c" (pretty (Z.of_nat (String.length contents)));
   MkKeyValue "d" "xyzzy"].

Definition nocrash_Reduce `{!GoSort str_ltb} (key : string) (values : list string) : string :=
  let vv := gosort str_ltb values in
  Join vv " ".

End MapReduce.
