(* ===== verification/MapReduceOutput.v ===== *)
(** * What a MapReduce job computes

    The reduce loop prints one line per distinct key, for the values of that
    key; splitting the pairs into buckets by their key and reducing every
    bucket prints the same lines as reducing all pairs at once. *)
From S2P Require Import Prelude Coordinator MapReduce.
Import Coordinator MapReduce.
Local Open Scope Z_scope.

Module MapReduceOutput.

(** ** The names of the files *)

Fixpoint str_all (P : Ascii.ascii → bool) (s : string) : bool :=
  match s with EmptyString => true | String a s => P a && str_all P s end.

Definition is_digit (a : Ascii.ascii) : bool :=
  ((48 <=? Ascii.N_of_ascii a) && (Ascii.N_of_ascii a <=? 57))%N.

Lemma pretty_N_char_digit n : is_digit (pretty_N_char n) = true.
Proof. do 4 (try (destruct n as [|n]; [done|])); repeat (destruct n as [n|n|]; try done). Qed.

Lemma pretty_N_go_digits n s : str_all is_digit s = true → str_all is_digit (pretty_N_go n s) = true.
Proof.
  revert s. induction (N.lt_wf_0 n) as [n _ IH]. intros s Hs.
  destruct (decide (n = 0%N)) as [->|Hn]; [by rewrite pretty_N_go_0|].
  rewrite pretty_N_go_step by lia. apply IH; [apply N.div_lt; lia|]. simpl. by rewrite pretty_N_char_digit.
Qed.

Lemma pretty_digits z : 0 ≤ z → str_all is_digit (pretty z) = true.
Proof.
  intros Hz. assert (HN : ∀ n : N, str_all is_digit (pretty n) = true).
  { intros n. unfold pretty, pretty_N. case_decide; [done|]. by apply pretty_N_go_digits. }
  destruct z as [|p|p]; [done|apply (HN (N.pos p))|lia].
Qed.

(** A string without the separator in front of it is determined. *)
Lemma split_digits a b x y (sep : Ascii.ascii) :
  is_digit sep = false → str_all is_digit a = true → str_all is_digit b = true →
  a +:+ String sep x = b +:+ String sep y → a = b ∧ x = y.
Proof.
  intros Hsep. revert b. induction a as [|c a IH]; intros [|d b]; simpl; intros Ha Hb.
  - by intros [= ->].
  - intros [= <- _]. by rewrite Hsep in Hb.
  - intros [= -> _]. by rewrite Hsep in Ha.
  - apply andb_true_iff in Ha as [_ Ha], Hb as [_ Hb]. intros [= -> E]. destruct (IH b Ha Hb E) as [-> ->]. done.
Qed.

Lemma mr_name_inj i j i' j' :
  0 ≤ i → 0 ≤ i' → mr_name i j = mr_name i' j' → i = i' ∧ j = j'.
Proof.
  intros Hi Hi'. unfold mr_name. intros [= H]. apply split_digits in H as [H1 H2].
  - split; [by apply (inj pretty)|by apply (inj pretty)].
  - done.
  - by apply pretty_digits.
  - by apply pretty_digits.
Qed.

Lemma out_name_inj j j' : out_name j = out_name j' → j = j'.
Proof. unfold out_name. intros [= H]. by apply (inj pretty). Qed.

Lemma out_name_mr_name i j k : 0 ≤ i → out_name k ≠ mr_name i j.
Proof.
  intros Hi. unfold out_name, mr_name. intros [= H]. pose proof (pretty_digits i Hi) as Hd.
  destruct (pretty i) as [|a s]; simpl in H; [done|]. injection H as <- _. done.
Qed.

(** ** [ihash] *)

Lemma fnv32a_in s : in_u 32 (fnv32a s).
Proof.
  assert (H : ∀ h, in_u 32 h → in_u 32 (fnv32a_from h s)); [|by apply H].
  induction s as [|a s IH]; intros h Hh; simpl; [done|]. apply IH. by apply wrap_u_in.
Qed.

Lemma ihash_range key : 0 ≤ ihash key < 2 ^ 31.
Proof.
  unfold ihash. change 2147483647 with (Z.ones 31). rewrite Z.land_ones by lia. by apply Z.mod_pos_bound.
Qed.

Definition bucket (n : Z) (kv : KeyValue) : Z := Z.rem (ihash (Key kv)) n.

Lemma bucket_range n kv : 0 < n → 0 ≤ bucket n kv < n.
Proof. intros Hn. pose proof (ihash_range (Key kv)). apply Z.rem_bound_pos; lia. Qed.

(** ** The encoder of [HandleMap] *)

Lemma append_nil_r (s : string) : s +:+ "" = s.
Proof. induction s as [|a s IH]; [done|]. exact (f_equal (String a) IH). Qed.

Lemma append_assoc (s1 s2 s3 : string) : (s1 +:+ s2) +:+ s3 = s1 +:+ s2 +:+ s3.
Proof. induction s1 as [|a s IH]; [done|]. exact (f_equal (String a) IH). Qed.

Lemma concat_cons x l : String.concat "" (x :: l) = x +:+ String.concat "" l.
Proof. destruct l; [symmetry; apply append_nil_r|done]. Qed.

Section output.
Context `{!Json} `{!GoSort ByKey_Less}.
Implicit Types (kva l : list KeyValue) (kv : KeyValue) (k : string).

Lemma encode_loop_ok n kva files :
  0 < n → Z.of_nat (length files) = n →
  ∃ files', encode_loop n kva files = Some files' ∧ length files' = length files ∧
    ∀ j f, files !! j = Some f →
      files' !! j = Some (f +:+ String.concat "" (json_Encode <$> filter (λ kv, bucket n kv = Z.of_nat j) kva)).
Proof using Type.
  intros Hn. revert files. induction kva as [|kv kva IH]; intros files Hl; cbn [encode_loop].
  { exists files. split_and!; [done|done|]. intros j f ->. simpl. by rewrite append_nil_r. }
  z_tests. fold (bucket n kv).
  pose proof (bucket_range n kv Hn) as Hb.
  destruct (proj2 (go_index_bound files (bucket n kv))) as [f0 Hf0]; [lia|]. rewrite Hf0. cbn [mbind option_bind].
  rewrite go_update_in by lia.
  cbn [mbind option_bind]. apply go_index_Some in Hf0 as [_ Hf0].
  destruct (IH (<[Z.to_nat (bucket n kv) := f0 +:+ json_Encode kv]> files)) as (files' & Hrun & Hlen & Hfiles).
  { by rewrite length_insert. }
  exists files'. rewrite length_insert in Hlen. split_and!; [done|done|]. intros j f Hj. rewrite filter_cons.
  destruct (decide (bucket n kv = Z.of_nat j)) as [Ej|Ej].
  - rewrite (Hfiles j (f +:+ json_Encode kv)).
    + rewrite fmap_cons, concat_cons. by rewrite append_assoc.
    + rewrite Ej, Nat2Z.id in *. rewrite list_lookup_insert_eq; [congruence|by eapply lookup_lt_Some].
  - apply Hfiles. rewrite list_lookup_insert_ne; [done|lia].
Qed.

Lemma map_files_ok mapf filename content n :
  0 < n → ∃ files, map_files mapf filename content n = Some files ∧ Z.of_nat (length files) = n ∧
    ∀ j, Z.of_nat j < n → files !! j =
      Some (String.concat "" (json_Encode <$> filter (λ kv, bucket n kv = Z.of_nat j) (mapf filename content))).
Proof using Type.
  intros Hn. unfold map_files.
  destruct (encode_loop_ok n (mapf filename content) (replicate (Z.to_nat n) "")) as (files & Hrun & Hl & Hf);
    [done|rewrite length_replicate; lia|].
  rewrite length_replicate in Hl. exists files. split_and!; [done|lia|]. intros j Hj.
  rewrite (Hf j ""); [done|]. apply lookup_replicate. split; [done|lia].
Qed.

(** ** The reduce loop *)

Abbreviation sorted := (StronglySorted (λ a b, ByKey_Less b a = false)).

Definition values_of k l : list string := Value <$> filter (λ kv, Key kv = k) l.

Definition keys_of l : list string := remove_dups (Key <$> l).

Lemma take_key_sorted k l :
  sorted l → (∀ kv, kv ∈ l → str_ltb (Key kv) k = false) →
  take_key k l = (values_of k l, filter (λ kv, Key kv ≠ k) l).
Proof using Type.
  unfold values_of. induction 1 as [|kv l Hs IH Hf]; intros Hk; [done|]. cbn [take_key]. rewrite !filter_cons.
  destruct (String.eqb_spec (Key kv) k) as [->|Hne].
  - rewrite IH by (intros; apply Hk; set_solver).
    rewrite decide_True, decide_False by (by auto). done.
  - rewrite decide_False, decide_True by done.
    assert (Hno : ∀ x, x ∈ l → Key x ≠ k).
    { intros x Hx E. rewrite Forall_forall in Hf. specialize (Hf x Hx). unfold ByKey_Less in Hf. rewrite E in Hf.
      apply Hne. apply str_ltb_total; [apply Hk; set_solver|done]. }
    rewrite (filter_none _ l) by done. rewrite filter_all by done. done.
Qed.

Lemma values_of_other k k' l : k ≠ k' → values_of k (filter (λ kv, Key kv ≠ k') l) = values_of k l.
Proof using Type.
  intros Hne. unfold values_of. f_equal. rewrite list_filter_filter. apply filter_ext_elem. intros kv _. naive_solver.
Qed.

Lemma keys_of_cons kv l : keys_of (kv :: l) ≡ₚ Key kv :: keys_of (filter (λ x, Key x ≠ Key kv) l).
Proof using Type.
  unfold keys_of. apply NoDup_Permutation; [apply NoDup_remove_dups|..].
  - constructor; [|apply NoDup_remove_dups]. rewrite elem_of_remove_dups, list_elem_of_fmap.
    intros (x & E & [Hx _]%list_elem_of_filter). congruence.
  - intros k. rewrite elem_of_cons, !elem_of_remove_dups, !list_elem_of_fmap. setoid_rewrite elem_of_cons.
    setoid_rewrite list_elem_of_filter. split.
    + intros (x & -> & [->|Hx]); [by left|]. destruct (decide (Key x = Key kv)); [by left|right; eauto].
    + intros [->|(x & -> & _ & Hx)]; eauto.
Qed.

(** The line of key [k]. *)
Definition line_of (reducef : string → list string → string) l k : string := output_line k (reducef k (values_of k l)).

Lemma reduce_loop_ok reducef l fuel :
  sorted l → (length l ≤ fuel)%nat → reduce_loop reducef fuel l ≡ₚ line_of reducef l <$> keys_of l.
Proof using Type.
  revert l. induction fuel as [|fuel IH]; intros [|kv l] Hs Hl; simpl in Hl; [done|lia|done|].
  apply StronglySorted_cons in Hs as [Hf Hs]. rewrite Forall_forall in Hf. cbn [reduce_loop].
  rewrite take_key_sorted by done.
  pose proof (length_filter (λ x, Key x ≠ Key kv) l).
  rewrite IH by (by apply StronglySorted_filter || lia). rewrite keys_of_cons, fmap_cons. f_equiv.
  - unfold line_of, values_of. by rewrite filter_cons_True.
  - apply Permutation_refl'. apply list_fmap_ext. intros i k Hk. unfold line_of. f_equal. f_equal.
    apply list_elem_of_lookup_2, elem_of_remove_dups, list_elem_of_fmap in Hk as (x & -> & [Hx _]%list_elem_of_filter).
    rewrite values_of_other by done. unfold values_of. by rewrite filter_cons_False.
Qed.

(** [reducef] must not depend on the order of the values of a key, which the
    sort leaves open. *)
Definition order_blind (reducef : string → list string → string) : Prop :=
  ∀ k vs vs', vs ≡ₚ vs' → reducef k vs = reducef k vs'.

Lemma reduce_lines_ok reducef l :
  order_blind reducef → reduce_lines reducef l ≡ₚ line_of reducef l <$> keys_of l.
Proof using Type.
  intros Hblind. unfold reduce_lines. rewrite reduce_loop_ok; [|apply gosort_sorted|done].
  assert (Hp : gosort ByKey_Less l ≡ₚ l) by apply gosort_perm.
  assert (Hk : keys_of (gosort ByKey_Less l) ≡ₚ keys_of l).
  { unfold keys_of. apply NoDup_Permutation; [apply NoDup_remove_dups..|].
    intros k. rewrite !elem_of_remove_dups. by rewrite Hp. }
  rewrite Hk. apply Permutation_refl'. apply list_fmap_ext. intros i k _. unfold line_of. f_equal.
  apply Hblind. unfold values_of. by rewrite Hp.
Qed.

(** Reducing every bucket gives the lines of reducing everything. *)
Lemma reduce_buckets reducef l n :
  order_blind reducef → 0 < n →
  concat ((λ j, reduce_lines reducef (filter (λ kv, bucket n kv = j) l)) <$> seqZ 0 n) ≡ₚ reduce_lines reducef l.
Proof using Type.
  intros Hblind Hn. rewrite (reduce_lines_ok reducef l Hblind).
  assert (Hlines : ∀ j, reduce_lines reducef (filter (λ kv, bucket n kv = j) l) ≡ₚ
                   line_of reducef l <$> keys_of (filter (λ kv, bucket n kv = j) l)).
  { intros j. rewrite reduce_lines_ok by done. apply Permutation_refl'. apply list_fmap_ext.
    intros i k Hk. unfold line_of. do 2 f_equal. unfold values_of. f_equal. rewrite list_filter_filter.
    apply list_elem_of_lookup_2, elem_of_remove_dups, list_elem_of_fmap in Hk as (x & -> & [Hx _]%list_elem_of_filter).
    apply filter_ext_elem. intros kv _. split; [by intros [? _]|]. intros E. split; [done|].
    rewrite <- Hx. unfold bucket. by rewrite E. }
  assert (Hc : ∀ js, concat ((λ j, reduce_lines reducef (filter (λ kv, bucket n kv = j) l)) <$> js) ≡ₚ
     line_of reducef l <$> concat ((λ j, keys_of (filter (λ kv, bucket n kv = j) l)) <$> js)).
  { induction js as [|j js IH]; [done|]. cbn. rewrite fmap_app. by rewrite (Hlines j), IH. }
  rewrite Hc. f_equiv. apply NoDup_Permutation; [|apply NoDup_remove_dups|].
  - assert (Hnd : NoDup (seqZ 0 n)) by apply NoDup_seqZ. induction Hnd as [|j js Hj Hnd IH]; [constructor|].
    cbn. apply NoDup_app. split_and!; [apply NoDup_remove_dups| |done].
    intros k Hk (x & Hx & (j' & -> & Hj')%list_elem_of_fmap)%elem_of_concat.
    unfold keys_of in Hk, Hx. rewrite elem_of_remove_dups, list_elem_of_fmap in Hk, Hx.
    destruct Hk as (kv & -> & [Hb _]%list_elem_of_filter), Hx as (kv' & E & [Hb' _]%list_elem_of_filter).
    apply Hj. rewrite <- Hb in *. unfold bucket in *. rewrite E. rewrite Hb'. done.
  - intros k. rewrite elem_of_concat. unfold keys_of at 2. rewrite elem_of_remove_dups, list_elem_of_fmap. split.
    + intros (x & Hx & (j & -> & _)%list_elem_of_fmap). unfold keys_of in Hx.
      rewrite elem_of_remove_dups, list_elem_of_fmap in Hx.
      destruct Hx as (kv & -> & [_ Hkv]%list_elem_of_filter). eauto.
    + intros (kv & -> & Hkv). exists (keys_of (filter (λ x, bucket n x = bucket n kv) l)). split.
      * unfold keys_of. rewrite elem_of_remove_dups, list_elem_of_fmap. exists kv. split; [done|].
        by apply list_elem_of_filter.
      * apply list_elem_of_fmap. exists (bucket n kv). split; [done|]. apply elem_of_seqZ.
        pose proof (bucket_range n kv Hn). lia.
Qed.
End output.

(** ** The property *)

(** C39: [ihash] is a non-negative 31-bit number, the hash of its key alone, and
    with at least one reduce task the loop of [HandleMap] never panics: it writes
    every pair into the file of the bucket [ihash(key) % nReduce], in order, and
    into no other. *)
Theorem HandleMap_buckets `{!Json} (kva : list KeyValue) (n : Z) :
  0 < n →
  (∀ kv, kv ∈ kva → 0 ≤ ihash (Key kv) < 2 ^ 31 ∧ 0 ≤ bucket n kv < n) ∧
  ∃ files, encode_loop n kva (replicate (Z.to_nat n) "") = Some files ∧ Z.of_nat (length files) = n ∧
    ∀ j, Z.of_nat j < n → files !! j =
      Some (String.concat "" (json_Encode <$> filter (λ kv, bucket n kv = Z.of_nat j) kva)).
Proof.
  intros Hn. split; [intros kv _; split; [apply ihash_range|by apply bucket_range]|].
  exact (map_files_ok (λ _ _, kva) "" "" n Hn).
Qed.
End MapReduceOutput.
