(* ===== verification/MapReduceJob.v ===== *)
(** * A MapReduce job gives the result of the sequential program

    The invariant of a job: intermediate files of finished map tasks hold what
    [mapf] gives for their bucket, and the output of a finished reduce task is
    complete, except while a second worker runs the task again and has
    emptied the file. *)
From Stdlib Require Import Ascii.
From S2P Require Import Prelude Coordinator MapReduce MapReduceOutput.
Import Coordinator MapReduce MapReduceOutput.
Local Open Scope Z_scope.

Module MapReduceJob.

Section job.
Context `{!Json} `{!GoSort ByKey_Less}.
Context (mapf : string → string → list KeyValue) (reducef : string → list string → string).

(** The files of the job, the number of reduce tasks, the coordinator before
    the first call, and the file system at that time. *)
Context (names : list string) (n : Z) (c0 : Coordinator) (fs0 : gmap string string).

Implicit Types (s : job) (c : Coordinator) (p : proc) (r : TaskReply).

(** ** What the files should hold *)

Definition pairs_of (f : string) : list KeyValue := default [] (mapf f <$> fs0 !! f).

Definition part_of (f : string) (j : Z) : list KeyValue := filter (λ kv, bucket n kv = j) (pairs_of f).

Definition file_of (f : string) (j : Z) : string := String.concat "" (json_Encode <$> part_of f j).

Definition all_pairs : list KeyValue := concat (pairs_of <$> names).

Definition lines_of (j : Z) : list string := reduce_lines reducef (concat ((λ f, part_of f j) <$> names)).

(** ** The invariant *)

Definition mapped (fs : gmap string string) (i : nat) : Prop :=
  ∃ f, names !! i = Some f ∧ is_Some (fs0 !! f) ∧
       ∀ j, 0 ≤ j < n → fs !! mr_name (Z.of_nat i) j = Some (file_of f j).

Definition written s (j : Z) : Prop :=
  j_fs s !! out_name j = Some (String.concat "" (lines_of j)) ∨
  ∃ w r content, j_procs s !! w = Some (Output r content) ∧ Index (r_Task r) = j.

Definition map_task r (i : nat) (f : string) : Prop :=
  Worktype (r_Task r) = Map ∧ NReduce r = n ∧ Index (r_Task r) = Z.of_nat i ∧
  names !! i = Some f ∧ Mapfile (r_Task r) = f.

Definition reduce_task c r (j : Z) : Prop :=
  Worktype (r_Task r) = Reduce ∧ Index (r_Task r) = j ∧ 0 ≤ j < n ∧
  Reducefiles (r_Task r) = imap (λ i _, mr_name (Z.of_nat i) j) names ∧ maptaskfinish c = true.

Definition proc_ok s p : Prop :=
  match p with
  | Assigned r => (∃ i f, map_task r i f) ∨ (∃ j, reduce_task (j_coord s) r j)
  | Renaming r tmpfiles k =>
      ∃ i f, map_task r i f ∧ is_Some (fs0 !! f) ∧ Z.of_nat (length tmpfiles) = n ∧ (k ≤ length tmpfiles)%nat ∧
        ∀ j content, tmpfiles !! j = Some content → content = file_of f (Z.of_nat j) ∧
          ((j < k)%nat → j_fs s !! mr_name (Z.of_nat i) (Z.of_nat j) = Some content)
  | Reading r filelist kva =>
      ∃ j k, reduce_task (j_coord s) r j ∧ filelist = drop k (Reducefiles (r_Task r)) ∧
        kva = concat ((λ f, part_of f j) <$> take k names) ∧ (k ≤ length names)%nat
  | Output r content => ∃ j, reduce_task (j_coord s) r j ∧ content = String.concat "" (lines_of j)
  | Reporting r => (∃ i f, map_task r i f ∧ mapped (j_fs s) i) ∨ (∃ j, reduce_task (j_coord s) r j ∧ written s j)
  end.

Record Inv s : Prop := {
  inv_wf : wf (j_coord s);
  inv_grows : grows c0 (j_coord s);
  inv_inputs f : f ∈ names → j_fs s !! f = fs0 !! f;
  inv_map i t : maptask (j_coord s) !! i = Some t → Missionstate t = Done → mapped (j_fs s) i;
  inv_reduce j t : reducetask (j_coord s) !! j = Some t → Missionstate t = Done → written s (Z.of_nat j);
  inv_procs w p : j_procs s !! w = Some p → proc_ok s p;
}.

(** What a step must not destroy. *)
Record frame s s' : Prop := {
  fr_finish : maptaskfinish (j_coord s) = true → maptaskfinish (j_coord s') = true;
  fr_files i f j : names !! i = Some f → 0 ≤ j < n → j_fs s !! mr_name (Z.of_nat i) j = Some (file_of f j) →
    j_fs s' !! mr_name (Z.of_nat i) j = Some (file_of f j);
  fr_written j : written s j → written s' j;
}.

Lemma mapped_frame s s' i : frame s s' → mapped (j_fs s) i → mapped (j_fs s') i.
Proof using Type. intros HF (f & Hf & Hs & Hj). exists f. split_and!; [done|done|]. intros j Hr. eapply fr_files; eauto. Qed.

Lemma reduce_task_frame s s' r j : frame s s' → reduce_task (j_coord s) r j → reduce_task (j_coord s') r j.
Proof using Type. intros HF (H1 & H2 & H3 & H4 & H5). exact (conj H1 (conj H2 (conj H3 (conj H4 (fr_finish _ _ HF H5))))). Qed.

Lemma proc_ok_frame s s' p : frame s s' → proc_ok s p → proc_ok s' p.
Proof using Type.
  intros HF. pose proof (reduce_task_frame s s') as HR. pose proof (mapped_frame s s') as HM.
  destruct p as [r|r tmp k|r fl kva|r content|r]; simpl.
  - intros [?|(j & ?)]; [by left|right; eauto].
  - intros (i & f & Ht & Hs & Hl & Hk & Hfiles). exists i, f. split_and!; [done..|].
    intros j content Hj. destruct (Hfiles j content Hj) as [-> Hlt]. split; [done|]. intros Hjk.
    destruct Ht as (_ & _ & _ & Hf & _). apply (fr_files s s' HF i f); [done| |by apply Hlt].
    apply lookup_lt_Some in Hj. lia.
  - intros (j & k & Ht & ? & ?). exists j, k. eauto.
  - intros (j & Ht & ?). exists j. eauto.
  - intros [(i & f & ? & ?)|(j & ? & Hw)]; [left; eauto 6|right]. exists j. split; [eauto|by eapply fr_written].
Qed.

Lemma Inv_next s s' :
  Inv s → frame s s' → wf (j_coord s') → grows (j_coord s) (j_coord s') →
  (∀ f, f ∈ names → j_fs s' !! f = j_fs s !! f) →
  (∀ i t', maptask (j_coord s') !! i = Some t' → Missionstate t' = Done →
     (∃ t, maptask (j_coord s) !! i = Some t ∧ Missionstate t = Done) ∨ mapped (j_fs s') i) →
  (∀ j t', reducetask (j_coord s') !! j = Some t' → Missionstate t' = Done →
     (∃ t, reducetask (j_coord s) !! j = Some t ∧ Missionstate t = Done) ∨ written s' (Z.of_nat j)) →
  (∀ w p, j_procs s' !! w = Some p → j_procs s !! w = Some p ∨ proc_ok s' p) →
  Inv s'.
Proof using Type.
  intros [Hwf Hg Hin Hmap Hred Hp] HF Hwf' Hg' Hin' Hmap' Hred' Hp'. split; [done|by eapply grows_trans|..].
  - intros f Hf. by rewrite Hin', Hin.
  - intros i t' Ht Hd. destruct (Hmap' i t' Ht Hd) as [(t & Ht0 & Hd0)|]; [|done]. eapply mapped_frame; eauto.
  - intros j t' Ht Hd. destruct (Hred' j t' Ht Hd) as [(t & Ht0 & Hd0)|]; [|done]. eapply fr_written; eauto.
  - intros w p Hw. destruct (Hp' w p Hw) as [Hw0|]; [|done]. eapply proc_ok_frame; eauto.
Qed.

(** ** Steps that leave the tasks alone *)

(** The processes of [s'] that empty an output file include those of [s]. *)
Definition keeps_output s s' : Prop :=
  ∀ w r content, j_procs s !! w = Some (Output r content) → j_procs s' !! w = Some (Output r content).

Lemma frame_procs s c procs :
  (maptaskfinish (j_coord s) = true → maptaskfinish c = true) →
  (∀ w r content, j_procs s !! w = Some (Output r content) → procs !! w = Some (Output r content)) →
  frame s (Job c (j_fs s) procs).
Proof using Type.
  intros Hf Hp. split; simpl; [done|done|]. intros j [?|(w & r & content & Hw & Hi)]; [by left|].
  right. exists w, r, content. split; [by apply Hp|done].
Qed.

Lemma Inv_procs s procs :
  Inv s → (∀ w r content, j_procs s !! w = Some (Output r content) → procs !! w = Some (Output r content)) →
  (∀ w p, procs !! w = Some p → j_procs s !! w = Some p ∨ proc_ok (Job (j_coord s) (j_fs s) procs) p) →
  Inv (Job (j_coord s) (j_fs s) procs).
Proof using Type.
  intros HI Hout Hp. apply (Inv_next s); simpl; eauto using grows_refl, inv_wf. by apply frame_procs.
Qed.

(** A process that has the output file of no task open makes a step, or ends. *)
Lemma Inv_proc s w p po :
  Inv s → j_procs s !! w = Some p → (∀ r content, p ≠ Output r content) →
  (∀ p', po = Some p' → proc_ok (Job (j_coord s) (j_fs s) (partial_alter (λ _, po) w (j_procs s))) p') →
  Inv (Job (j_coord s) (j_fs s) (partial_alter (λ _, po) w (j_procs s))).
Proof using Type.
  intros HI Hw Hno Hp. apply Inv_procs; [done|..].
  - intros w' r content Hw'. rewrite lookup_partial_alter_ne; [done|]. intros ->. simplify_eq. by destruct (Hno r content).
  - intros w' p' Hw'. destruct (decide (w = w')) as [->|Hne].
    + rewrite lookup_partial_alter_eq in Hw'. right. by apply Hp.
    + rewrite lookup_partial_alter_ne in Hw' by done. by left.
Qed.

(** ** The steps *)

(** The pairs of the inputs survive the encoding, no input has the name of an
    intermediate or an output file, and there is a reduce task. *)
Context (Hclean : ∀ f, f ∈ names → Forall json_clean (pairs_of f)).
Context (Hnames : ∀ f, f ∈ names → (∀ i j, 0 ≤ i → f ≠ mr_name i j) ∧ (∀ j, f ≠ out_name j)).
Context (Hn : 0 < n).

(** The tasks [MakeCoordinator] makes. *)
Context (Hc0 : nreduce c0 = n ∧ maptask c0 = imap make_maptask names ∧ reducetask c0 = make_reducetask names <$> seqZ 0 n).

Lemma map_at s i t : Inv s → maptask (j_coord s) !! i = Some t → names !! i = Some (Mapfile t).
Proof using Hc0.
  intros HI Ht. pose proof (gr_map _ _ (inv_grows _ HI)) as HF. destruct (Forall2_lookup_r _ _ _ _ _ HF Ht) as (t0 & H0 & _ & -> & _).
  destruct Hc0 as (_ & E & _). rewrite E, list_lookup_imap in H0. by apply fmap_Some in H0 as (f & -> & ->).
Qed.

Lemma map_exists s i f : Inv s → names !! i = Some f → ∃ t, maptask (j_coord s) !! i = Some t.
Proof using Hc0.
  intros HI Hf. pose proof (gr_map _ _ (inv_grows _ HI)) as HF. destruct Hc0 as (_ & E & _).
  assert (H0 : maptask c0 !! i = Some (make_maptask i f)) by (by rewrite E, list_lookup_imap, Hf).
  destruct (Forall2_lookup_l _ _ _ _ _ HF H0) as (t & ? & _). eauto.
Qed.

Lemma reduce_at s j t :
  Inv s → reducetask (j_coord s) !! j = Some t →
  Z.of_nat j < n ∧ Reducefiles t = imap (λ i _, mr_name (Z.of_nat i) (Z.of_nat j)) names.
Proof using Hc0.
  intros HI Ht. pose proof (gr_reduce _ _ (inv_grows _ HI)) as HF.
  destruct (Forall2_lookup_r _ _ _ _ _ HF Ht) as (t0 & H0 & _ & _ & -> & _).
  destruct Hc0 as (_ & _ & E). rewrite E, list_lookup_fmap in H0. apply fmap_Some in H0 as (z & Hz & ->).
  apply lookup_seqZ in Hz as [-> ?]. split; [lia|done].
Qed.

(** All map tasks are done once the phase is. *)
Lemma all_mapped s i f : Inv s → maptaskfinish (j_coord s) = true → names !! i = Some f → mapped (j_fs s) i.
Proof using Hc0.
  intros HI Hf Hi. destruct (map_exists s i f HI Hi) as [t Ht]. apply (inv_map _ HI i t Ht).
  apply (wf_mapfinish _ (inv_wf _ HI) Hf). by eapply list_elem_of_lookup_2.
Qed.

Lemma done_replaced (l1 l2 : list Task) t t1 i t' :
  (l1 ++ t1 :: l2) !! i = Some t' → Missionstate t' = Done → Missionstate t1 ≠ Done →
  ∃ u, (l1 ++ t :: l2) !! i = Some u ∧ Missionstate u = Done.
Proof using Type.
  intros Hi Hd Hnd. destruct (decide (i = length l1)) as [->|Hne].
  - rewrite list_lookup_middle in Hi by done. congruence.
  - exists t'. split; [|done]. rewrite <- Hi. destruct (decide (i < length l1)%nat).
    + by rewrite !lookup_app_l by done.
    + rewrite !lookup_app_r by lia. destruct (i - length l1)%nat eqn:E; [lia|done].
Qed.

Lemma Inv_ask s w currenttime now s' :
  Inv s → step mapf reducef s (Ask w currenttime now) = Some s' → Inv s'.
Proof using Hc0.
  intros HI. simpl. destruct (j_procs s !! w) eqn:Hw; [done|].
  pose proof (AssignMission_cases (j_coord s) zero_TaskReply currenttime now (inv_wf _ HI)) as HA.
  destruct (AssignMission _ _ _ _) as [c reply] eqn:EA. destruct HA as (Hnr & Hwf & Hg & HA).
  assert (Hred : nreduce (j_coord s) = n).
  { rewrite (gr_nreduce _ _ (inv_grows _ HI)). apply Hc0. }
  assert (Hnext : ∀ procs, (∀ w' p, procs !! w' = Some p → j_procs s !! w' = Some p ∨ proc_ok (Job c (j_fs s) procs) p) →
    (∀ w' r content, j_procs s !! w' = Some (Output r content) → procs !! w' = Some (Output r content)) →
    (∀ i t', maptask c !! i = Some t' → Missionstate t' = Done → ∃ t, maptask (j_coord s) !! i = Some t ∧ Missionstate t = Done) →
    (∀ i t', reducetask c !! i = Some t' → Missionstate t' = Done → ∃ t, reducetask (j_coord s) !! i = Some t ∧ Missionstate t = Done) →
    Inv (Job c (j_fs s) procs)).
  { intros procs Hp Ho Hm Hr. apply (Inv_next s); simpl; eauto. apply frame_procs; [apply Hg|done]. }
  assert (Hins : ∀ w' r content, j_procs s !! w' = Some (Output r content) →
     <[w := Assigned reply]> (j_procs s) !! w' = Some (Output r content)).
  { intros w' r content Hw'. rewrite lookup_insert_ne; [done|]. congruence. }
  destruct HA as [(l1 & t & l2 & Ef & E & Hst & _ & Hr & Em & Er)|
    [(l1 & t & l2 & Ef & E & Hst & _ & Hr & Er & Em)|(Hwt & Em & Er & _)]].
  - assert (Ht : maptask (j_coord s) !! length l1 = Some t) by (rewrite E; by apply list_lookup_middle).
    rewrite Hr. simpl. rewrite (wf_maptype _ (inv_wf _ HI) t) by (by eapply list_elem_of_lookup_2). intros [= <-].
    apply Hnext; [| done | |by rewrite Er; eauto].
    + intros w' p. rewrite lookup_insert. case_decide; [|by left]. intros [= <-]. right. left.
      exists (length l1), (Mapfile t). unfold map_task. rewrite Hr, Hnr, Hred. simpl.
      split_and!; [by apply (wf_maptype _ (inv_wf _ HI)); eapply list_elem_of_lookup_2|done| |by eapply map_at|done].
      by apply (wf_map _ (inv_wf _ HI)).
    + intros i t'. rewrite Em, E. intros Hi Hd. by apply (done_replaced l1 l2 t _ i t' Hi Hd).
  - assert (Ht : reducetask (j_coord s) !! length l1 = Some t) by (rewrite E; by apply list_lookup_middle).
    rewrite Hr. simpl. intros [= <-]. destruct (reduce_at s _ _ HI Ht) as [Hlt Hfiles].
    apply Hnext; [|done|by rewrite Em; eauto|].
    + intros w' p. rewrite lookup_insert. case_decide; [|by left]. intros [= <-]. right. right.
      exists (Z.of_nat (length l1)). unfold reduce_task. rewrite Hr. simpl.
      split_and!; [done| |lia|done|done|by apply Hg]. by apply (wf_reduce _ (inv_wf _ HI)).
    + intros i t'. rewrite Er, E. intros Hi Hd. by apply (done_replaced l1 l2 t _ i t' Hi Hd).
  - rewrite Hwt. intros [= <-]. apply Hnext; [by left|done|by rewrite Em; eauto|by rewrite Er; eauto].
Qed.

(** A file is written: an intermediate file of [Renaming]. *)
Lemma Inv_rename s w r tmpfiles k content :
  Inv s → j_procs s !! w = Some (Renaming r tmpfiles k) → tmpfiles !! k = Some content →
  Inv (Job (j_coord s) (<[mr_name (Index (r_Task r)) (Z.of_nat k) := content]> (j_fs s))
           (partial_alter (λ _, Some (Renaming r tmpfiles (S k))) w (j_procs s))).
Proof using Hnames.
  intros HI Hw Hk. destruct (inv_procs _ HI w _ Hw) as (i & f & Ht & Hs & Hl & Hkl & Hfiles).
  pose proof Ht as (_ & _ & Hi & Hf & _). rewrite Hi. destruct (Hfiles k content Hk) as [-> _].
  assert (HF : frame s (Job (j_coord s) (<[mr_name (Z.of_nat i) (Z.of_nat k) := file_of f (Z.of_nat k)]> (j_fs s))
           (partial_alter (λ _, Some (Renaming r tmpfiles (S k))) w (j_procs s)))).
  { split; simpl; [done|..].
    - intros i' f' j Hf' Hj Hold. rewrite lookup_insert. case_decide as E; [|done].
      apply mr_name_inj in E as [? <-]; [|lia..]. assert (i = i') as <- by lia. by simplify_eq.
    - intros j [Hj|(w' & r' & content & Hw' & Hj)].
      + left. simpl. rewrite lookup_insert_ne; [done|]. intros E. symmetry in E. apply out_name_mr_name in E; [done|lia].
      + right. exists w', r', content. simpl. rewrite lookup_partial_alter_ne; [done|]. congruence. }
  apply (Inv_next s); simpl; eauto using grows_refl, inv_wf.
  - intros g Hg. rewrite lookup_insert_ne; [done|]. intros <-. by apply (proj1 (Hnames _ Hg) (Z.of_nat i) (Z.of_nat k)); [lia|].
  - intros w' p' Hw'. destruct (decide (w = w')) as [->|]; [|rewrite lookup_partial_alter_ne in Hw' by done; by left].
    rewrite lookup_partial_alter_eq in Hw'. injection Hw' as <-. right. exists i, f. simpl.
    apply lookup_lt_Some in Hk as Hk'. split_and!; [done..|lia|]. intros j content Hj.
    destruct (Hfiles j content Hj) as [-> Hold]. split; [done|]. intros Hjk. rewrite lookup_insert.
    case_decide as E; [apply mr_name_inj in E as [_ E]; [by rewrite E|lia..]|].
    apply Hold. destruct (decide (j = k)) as [->|]; [done|lia].
Qed.

(** The output file of a reduce task is written, by a process that has it open
    or opens it. *)
Lemma Inv_output s w r j p p' content :
  Inv s → j_procs s !! w = Some p → reduce_task (j_coord s) r j →
  (∀ r' content', p = Output r' content' → Index (r_Task r') = j) →
  let s' := Job (j_coord s) (<[out_name j := content]> (j_fs s)) (partial_alter (λ _, Some p') w (j_procs s)) in
  written s' j → proc_ok s' p' → Inv s'.
Proof using Hnames.
  intros HI Hw Ht Hp s' Hwr Hok.
  assert (HF : frame s s').
  { split; simpl; [done|..].
    - intros i f j' Hf Hj Hold. rewrite lookup_insert_ne; [done|]. apply out_name_mr_name. lia.
    - intros j'. destruct (decide (j' = j)) as [->|Hne]; [done|].
      intros [Hj'|(w' & r' & content' & Hw' & Hj')].
      + left. simpl. rewrite lookup_insert_ne; [done|]. by intros ?%out_name_inj.
      + right. exists w', r', content'. split; [|done]. simpl. rewrite lookup_partial_alter_ne; [done|].
        intros ->. simplify_eq. by rewrite (Hp r' content') in Hne. }
  apply (Inv_next s); simpl; eauto using grows_refl, inv_wf.
  - intros g Hg. rewrite lookup_insert_ne; [done|]. intros <-. by apply (proj2 (Hnames _ Hg) j).
  - intros w' p1 Hw'. destruct (decide (w = w')) as [->|]; [|rewrite lookup_partial_alter_ne in Hw' by done; by left].
    rewrite lookup_partial_alter_eq in Hw'. injection Hw' as <-. by right.
Qed.

(** A finishing call: the task it names may become done. *)
Lemma Inv_finish s w r c :
  Inv s → j_procs s !! w = Some (Reporting r) →
  match Worktype (r_Task r) with Map => HandleMapFinish (j_coord s) (finish_args r)
                               | _ => HandleReduceFinish (j_coord s) (finish_args r) end = Some c →
  Inv (Job c (j_fs s) (partial_alter (λ _, None) w (j_procs s))).
Proof using Type.
  intros HI Hw. pose proof (inv_procs _ HI w _ Hw) as Hok. simpl in Hok.
  assert (Hdel : ∀ w' r content, j_procs s !! w' = Some (Output r content) →
     partial_alter (λ _, None) w (j_procs s) !! w' = Some (Output r content)).
  { intros w' r' content Hw'. rewrite lookup_partial_alter_ne; [done|]. congruence. }
  assert (Hsame : ∀ w' p', partial_alter (λ _, None) w (j_procs s) !! w' = Some p' → j_procs s !! w' = Some p').
  { intros w' p'. destruct (decide (w = w')) as [->|]; [by rewrite lookup_partial_alter_eq|by rewrite lookup_partial_alter_ne]. }
  destruct Hok as [(i & f & Ht & Hm)|(j & Ht & Hwr)]; pose proof Ht as (Hty & Hrest); rewrite Hty; intros Hh.
  - destruct (handle_ok (j_coord s) (EMapFinish (finish_args r)) c (inv_wf _ HI) Hh) as [Hwf Hg].
    unfold HandleMapFinish in Hh. destruct (finish _ _) as [tasks|] eqn:Ef; [|done]. injection Hh as <-.
    apply (Inv_next s); simpl; eauto; [by apply frame_procs|].
    intros i' t' Ht' Hd. apply finish_cases in Ef as [->|(l1 & t & l2 & E & -> & Hl & _)]; [left; eauto|].
    destruct Hrest as (_ & Hi & _). unfold finish_args in Hl. simpl in Hl.
    destruct (decide (i' = length l1)) as [->|Hne].
    + right. replace (length l1) with i by lia. done.
    + left. exists t'. split; [|done]. rewrite E, <- Ht'. destruct (decide (i' < length l1)%nat).
      * by rewrite !lookup_app_l by done.
      * rewrite !lookup_app_r by lia. destruct (i' - length l1)%nat eqn:?; [lia|done].
  - destruct (handle_ok (j_coord s) (EReduceFinish (finish_args r)) c (inv_wf _ HI) Hh) as [Hwf Hg].
    unfold HandleReduceFinish in Hh. destruct (finish _ _) as [tasks|] eqn:Ef; [|done]. injection Hh as <-.
    set (s' := Job _ _ _). assert (HF : frame s s') by by apply frame_procs.
    apply (Inv_next s); simpl; eauto.
    intros i' t' Ht' Hd. apply finish_cases in Ef as [->|(l1 & t & l2 & E & -> & Hl & _)]; [left; eauto|].
    destruct Hrest as (Hi & _). unfold finish_args in Hl. simpl in Hl.
    destruct (decide (i' = length l1)) as [->|Hne].
    + right. rewrite Hl, Hi. by apply (fr_written _ _ HF).
    + left. exists t'. split; [|done]. rewrite E, <- Ht'. destruct (decide (i' < length l1)%nat).
      * by rewrite !lookup_app_l by done.
      * rewrite !lookup_app_r by lia. destruct (i' - length l1)%nat eqn:?; [lia|done].
Qed.

Lemma input_kept s f : Inv s → f ∈ names → j_fs s !! f = fs0 !! f.
Proof using Type. intros HI. apply HI. Qed.

(** A step of a process that neither has an output file open nor opens one. *)
Lemma Inv_local s w p po fs c :
  Inv s → j_procs s !! w = Some p → proc_step mapf reducef p (j_fs s) (j_coord s) = (po, fs, Some c) →
  match p with Assigned _ => True | Reading _ (_ :: _) _ => True | Renaming _ tmp k => tmp !! k = None | _ => False end →
  Inv (Job c fs (partial_alter (λ _, po) w (j_procs s))).
Proof using Hc0 Hclean Hn.
  intros HI Hw Hstep Hloc. pose proof (inv_procs _ HI w _ Hw) as Hok.
  destruct p as [r|r tmp k|r [|g fl] kva|r content|r]; try done; simpl in Hok, Hstep.
  - destruct Hok as [(i & f & Ht)|(j & Ht)]; pose proof Ht as (Hty & Hrest); rewrite Hty in Hstep.
    + destruct Hrest as (Hnr & Hi & Hf & Hfile). rewrite Hfile, Hnr, (input_kept s f HI) in Hstep
        by (by eapply list_elem_of_lookup_2).
      destruct (fs0 !! f) as [content|] eqn:Ec; [|injection Hstep as <- <- <-; by eapply Inv_proc].
      destruct (map_files_ok mapf f content n Hn) as (files & Hfs & Hl & Hfl). rewrite Hfs in Hstep.
      injection Hstep as <- <- <-. eapply Inv_proc; [done|done|done|]. intros p' [= <-]. exists i, f. simpl.
      split_and!; [done|eauto|done|lia|]. intros j content' Hj.
      rewrite Hfl in Hj by (apply lookup_lt_Some in Hj; lia). injection Hj as <-. split; [|lia].
      unfold file_of, part_of, pairs_of. by rewrite Ec.
    + injection Hstep as <- <- <-. eapply Inv_proc; [done|done|done|]. intros p' [= <-]. exists j, 0%nat. simpl.
      split_and!; [done|by rewrite drop_0|done|lia].
  - rewrite Hloc in Hstep. injection Hstep as <- <- <-. destruct Hok as (i & f & Ht & Hs & Hl & Hk & Hfiles).
    apply lookup_ge_None in Hloc. eapply Inv_proc; [done|done|done|]. intros p' [= <-]. left. exists i, f. simpl.
    split; [done|]. exists f. split_and!; [apply Ht|done|]. intros j Hj.
    destruct (lookup_lt_is_Some_2 tmp (Z.to_nat j)) as [content Hc]; [lia|].
    destruct (Hfiles _ _ Hc) as [-> Hold]. rewrite Z2Nat.id in Hold by lia. apply Hold. lia.
  - destruct Hok as (j & k & Ht & Hfl & -> & Hk). pose proof Ht as (_ & _ & Hj & Hfiles & Hfin).
    assert (Hg : Reducefiles (r_Task r) !! k = Some g) by (by rewrite <- (Nat.add_0_r k), <- lookup_drop, <- Hfl).
    rewrite Hfiles, list_lookup_imap in Hg. apply fmap_Some in Hg as (f & Hf & ->).
    destruct (all_mapped s k f HI Hfin Hf) as (f' & Hf' & _ & Hm). simplify_eq. rewrite (Hm j Hj) in Hstep.
    injection Hstep as <- <- <-. eapply Inv_proc; [done|done|done|]. intros p' [= <-]. exists j, (S k).
    apply lookup_lt_Some in Hf as Hlt. split_and!; [done| | |lia].
    + by rewrite <- Nat.add_1_r, <- drop_drop, <- Hfl.
    + rewrite (take_S_r _ _ f) by done. rewrite fmap_app, concat_app. f_equal. simpl. rewrite app_nil_r.
      unfold file_of. apply json_roundtrip. apply Forall_forall. intros kv [_ Hkv]%list_elem_of_filter.
      specialize (Hclean f). rewrite Forall_forall in Hclean. apply Hclean; [|done]. by eapply list_elem_of_lookup_2.
Qed.

Lemma Inv_step s w s' : Inv s → step mapf reducef s (Step w) = Some s' → Inv s'.
Proof using Hc0 Hclean Hn Hnames.
  intros HI. simpl. destruct (j_procs s !! w) as [p|] eqn:Hw; [|done]. cbn [mbind option_bind].
  destruct (proc_step mapf reducef p (j_fs s) (j_coord s)) as [[po fs] [c|]] eqn:Hstep; [|done].
  cbn [mbind option_bind]. intros [= <-]. pose proof (inv_procs _ HI w _ Hw) as Hok.
  destruct p as [r|r tmp k|r [|g fl] kva|r content|r]; try by eapply Inv_local.
  - destruct (tmp !! k) as [content|] eqn:Ek; [|by eapply Inv_local]. simpl in Hstep. rewrite Ek in Hstep.
    injection Hstep as <- <- <-. by apply Inv_rename.
  - destruct Hok as (j & k & Ht & Hfl & -> & Hk). simpl in Hstep. injection Hstep as <- <- <-.
    pose proof Ht as (_ & -> & Hj & Hfiles & _).
    assert (Hkl : take k names = names).
    { apply take_ge. symmetry in Hfl. apply (f_equal length) in Hfl. rewrite length_drop, Hfiles, length_imap in Hfl.
      simpl in Hfl. lia. }
    rewrite Hkl. apply (Inv_output s w r j _ _ "" HI Hw Ht); [done| |].
    + right. eexists w, r, _. simpl. rewrite lookup_partial_alter_eq. split; [done|apply Ht].
    + exists j. split; [done|]. done.
  - destruct Hok as (j & Ht & ->). simpl in Hstep. injection Hstep as <- <- <-. pose proof Ht as (_ & -> & _).
    apply (Inv_output s w r j _ _ _ HI Hw Ht).
    + intros r' content' [= <- _]. apply Ht.
    + left. simpl. by rewrite lookup_insert_eq.
    + right. exists j. split; [done|]. left. simpl. by rewrite lookup_insert_eq.
  - simpl in Hstep. injection Hstep as <- <- Hh. by apply (Inv_finish s w r c HI Hw).
Qed.

(** The crashes the job survives: not those of a worker that has emptied an
    output file and has not yet renamed the new one over it. *)
Definition safe s (a : action) : bool :=
  match a with
  | Crash w => match j_procs s !! w with Some (Output _ _) => false | _ => true end
  | _ => true
  end.

Fixpoint safe_run s (acts : list action) : bool :=
  match acts with
  | [] => true
  | a :: acts => safe s a && match step mapf reducef s a with Some s' => safe_run s' acts | None => true end
  end.

Lemma Inv_crash s w : Inv s → safe s (Crash w) = true → Inv (Job (j_coord s) (j_fs s) (delete w (j_procs s))).
Proof using Type.
  intros HI Hs. apply Inv_procs; [done|..].
  - intros w' r content Hw'. rewrite lookup_delete_ne; [done|]. intros ->. simpl in Hs. by rewrite Hw' in Hs.
  - intros w' p [_ Hp]%lookup_delete_Some. by left.
Qed.

Lemma job_exec acts s s' : Inv s → safe_run s acts = true → exec mapf reducef s acts = Some s' → Inv s'.
Proof using Hc0 Hclean Hn Hnames.
  revert s. induction acts as [|a acts IH]; intros s HI; simpl; [by intros _ [= <-]|]. intros [Hs Hr]%andb_true_iff.
  destruct (step mapf reducef s a) as [s1|] eqn:E; [|done]. cbn [mbind option_bind]. apply IH; [|done].
  destruct a as [w ct now|w|w]; [by eapply Inv_ask|by eapply Inv_step|]. injection E as <-. by apply Inv_crash.
Qed.

Lemma Inv_start : wf c0 → Inv (Job c0 fs0 ∅).
Proof using Hc0.
  intros Hwf. destruct Hc0 as (_ & Em & Er). split; simpl; try done.
  - intros i t Hi. rewrite Em, list_lookup_imap in Hi. apply fmap_Some in Hi as (f & _ & ->). done.
  - intros j t Hj. rewrite Er, list_lookup_fmap in Hj. apply fmap_Some in Hj as (z & _ & ->). done.
Qed.

(** ** The end of a job *)

Lemma filter_concat (P : KeyValue → Prop) `{!∀ x, Decision (P x)} (ls : list (list KeyValue)) :
  filter P (concat ls) = concat ((λ l, filter P l) <$> ls).
Proof using Type. induction ls as [|l ls IH]; [done|]. cbn. by rewrite filter_app, IH. Qed.

Lemma lines_all : order_blind reducef → concat (lines_of <$> seqZ 0 n) ≡ₚ reduce_lines reducef all_pairs.
Proof using Hn.
  intros Hb. rewrite <- (reduce_buckets reducef all_pairs n Hb Hn). apply Permutation_refl'. f_equal.
  apply list_fmap_ext. intros i j _. unfold lines_of. f_equal. unfold all_pairs. rewrite filter_concat. f_equal.
  by rewrite <- list_fmap_compose.
Qed.

Lemma mrsequential_ok :
  (∀ f, f ∈ names → is_Some (fs0 !! f)) → mrsequential mapf reducef fs0 names = Some (reduce_lines reducef all_pairs).
Proof using Type.
  intros Hin. unfold mrsequential.
  assert (E : mapM (λ filename, content ← fs0 !! filename; Some (mapf filename content)) names = Some (pairs_of <$> names)).
  { apply mapM_Some, Forall2_fmap_r, Forall_Forall2_diag, Forall_forall. intros f Hf. destruct (Hin f Hf) as [content Hc].
    unfold compose, pairs_of. by rewrite Hc. }
  rewrite E. done.
Qed.

Lemma job_end s :
  Inv s → Done_ (j_coord s) = true → (∀ w r content, j_procs s !! w ≠ Some (Output r content)) →
  (∀ f, f ∈ names → is_Some (fs0 !! f)) ∧
  ∀ j, 0 ≤ j < n → j_fs s !! out_name j = Some (String.concat "" (lines_of j)).
Proof using Hc0.
  intros HI Hd Hno. unfold Done_ in Hd. apply andb_true_iff in Hd as [Hmf Hrf]. split.
  - intros f (i & Hi)%list_elem_of_lookup. destruct (all_mapped s i f HI Hmf Hi) as (f' & Hf' & Hs & _). by simplify_eq.
  - intros j Hj. pose proof (gr_reduce _ _ (inv_grows _ HI)) as HF. destruct Hc0 as (_ & _ & Er).
    destruct (Forall2_lookup_l _ _ _ (Z.to_nat j) (make_reducetask names j) HF) as (t & Ht & _).
    { rewrite Er, list_lookup_fmap, lookup_seqZ_lt by lia. simpl. do 2 f_equal. lia. }
    destruct (inv_reduce _ HI _ _ Ht) as [Hw|(w & r & content & Hw & _)].
    + apply (wf_reducefinish _ (inv_wf _ HI) Hrf). by eapply list_elem_of_lookup_2.
    + by rewrite Z2Nat.id in Hw by lia.
    + by destruct (Hno w r content).
Qed.
End job.

(** ** The properties *)

(** C10: whatever the workers do and in whatever order, however often tasks are
    handed out again and workers crash, except between emptying an output
    file and renaming the new one over it: when [Done] answers true and no
    worker is in that place, the output files of the reduce tasks
    hold, taken together, exactly the lines that the sequential program prints
    for the same files. The reduce function must not look at the order of its values,
    JSON must give back the pairs, and the inputs must not have the names of
    intermediate or output files. *)
Theorem mapreduce_matches_sequential `{!Json} `{!GoSort ByKey_Less}
    (mapf : string → string → list KeyValue) (reducef : string → list string → string)
    (glob : string → option (list string)) (files : list string) (n : Z) (c0 : Coordinator)
    (fs0 : gmap string string) (acts : list action) (s : job) :
  MakeCoordinator glob files n = Some c0 → 0 < n → order_blind reducef →
  (∀ f, f ∈ filename c0 → Forall json_clean (pairs_of mapf fs0 f)) →
  (∀ f, f ∈ filename c0 → (∀ i j, 0 ≤ i → f ≠ mr_name i j) ∧ (∀ j, f ≠ out_name j)) →
  exec mapf reducef (Job c0 fs0 ∅) acts = Some s → safe_run mapf reducef (Job c0 fs0 ∅) acts = true →
  Done_ (j_coord s) = true → (∀ w r content, j_procs s !! w ≠ Some (Output r content)) →
  ∃ lines seq_lines,
    (∀ j, 0 ≤ j < n → j_fs s !! out_name j = Some (String.concat "" (lines j))) ∧
    mrsequential mapf reducef fs0 (filename c0) = Some seq_lines ∧
    concat (lines <$> seqZ 0 n) ≡ₚ seq_lines.
Proof.
  intros Hmake Hn Hblind Hclean Hnames Hex Hsafe Hdone Hno.
  pose proof (make_wf _ _ _ _ Hmake) as Hwf. pose proof (make_fields _ _ _ _ Hmake) as Hc0.
  destruct (job_end mapf reducef (filename c0) n c0 fs0 Hc0 s) as [Hin Hout]; [|done|done|].
  { apply (job_exec mapf reducef (filename c0) n c0 fs0 Hclean Hnames Hn Hc0 acts (Job c0 fs0 ∅)); [|done|done].
    by apply Inv_start. }
  exists (lines_of mapf reducef (filename c0) n fs0), (reduce_lines reducef (all_pairs mapf (filename c0) fs0)).
  split_and!; [done|by apply mrsequential_ok|by apply lines_all].
Qed.

(** *** A run of a job *)

(** A codec that keeps every pair: not Go's, but one with its law. *)
Fixpoint toy_str (s : string) : string :=
  match s with EmptyString => "." | String a s => String "x"%char (String a (toy_str s)) end.

Definition toy_Encode (kv : KeyValue) : string := toy_str (Key kv) +:+ toy_str (Value kv).

Fixpoint toy_Decode (s : string) (key : option string) (cur : string) : list KeyValue :=
  match s with
  | String "x"%char (String a s) => toy_Decode s key (cur +:+ String a "")
  | String "."%char s =>
      match key with
      | None => toy_Decode s (Some cur) ""
      | Some k => MkKeyValue k cur :: toy_Decode s None ""
      end
  | _ => []
  end.

Lemma toy_Decode_str v rest key cur :
  toy_Decode (toy_str v +:+ rest) key cur = toy_Decode ("." +:+ rest) key (cur +:+ v).
Proof.
  revert cur. induction v as [|a v IH]; intros cur; [by rewrite append_nil_r|].
  change (toy_Decode (toy_str v +:+ rest) key (cur +:+ String a "") = toy_Decode ("." +:+ rest) key (cur +:+ String a v)).
  rewrite IH. f_equal. by rewrite append_assoc.
Qed.

Lemma toy_roundtrip kvs : toy_Decode (String.concat "" (toy_Encode <$> kvs)) None "" = kvs.
Proof.
  induction kvs as [|[k v] kvs IH]; [done|]. rewrite fmap_cons, concat_cons.
  unfold toy_Encode at 1. simpl. rewrite append_assoc, toy_Decode_str.
  change (toy_Decode (toy_str v +:+ String.concat "" (toy_Encode <$> kvs)) (Some k) "" = MkKeyValue k v :: kvs).
  rewrite toy_Decode_str. change (MkKeyValue k v :: toy_Decode (String.concat "" (toy_Encode <$> kvs)) None "" =
    MkKeyValue k v :: kvs). by rewrite IH.
Qed.

#[local] Instance toy_Json : Json := {|
  json_Encode := toy_Encode;
  json_DecodeAll s := toy_Decode s None "";
  json_clean _ := True;
  json_roundtrip kvs _ := toy_roundtrip kvs;
|}.

Definition steps (w k : nat) : list action := replicate k (Step w).

Definition example_fs : gmap string string := list_to_map [("in1", "hello"); ("in2", "hi")].

Definition example_start : job :=
  Job (default (MkCoordinator [] 0 [] [] false false) (MakeCoordinator example_glob ["in1"; "in2"] 2)) example_fs ∅.

(** Worker 0 crashes after it has renamed one of its files; its task is handed
    out again 41 seconds later. *)
Definition example_acts : list action :=
  [Ask 0 100 100; Ask 1 200 200] ++ steps 0 2 ++ [Crash 0] ++ steps 1 5 ++
  [Ask 2 (200 + 41 * 10 ^ 9) 0] ++ steps 2 5 ++ [Ask 0 0 0; Ask 0 300 300; Ask 1 400 400] ++ steps 0 6 ++ steps 1 6 ++
  [Ask 0 500 500].

(** Worker 0 is slow with reduce task 0, which worker 1 does meanwhile; when
    all tasks are done worker 0 opens the output file and crashes. *)
Definition truncating_acts : list action :=
  [Ask 0 100 100] ++ steps 0 5 ++ [Ask 0 200 200] ++ steps 0 5 ++ [Ask 0 0 0; Ask 0 300 300; Ask 1 300 300] ++
  steps 1 6 ++ [Ask 1 (300 + 41 * 10 ^ 9) (300 + 41 * 10 ^ 9)] ++ steps 1 6 ++ [Ask 1 0 0] ++ steps 0 4 ++ [Crash 0].

(** A worker that is late can destroy a finished output: [HandleReduce]
    opens the final name with [os.Create], which empties the file that another
    worker has completed, before it renames its own over it. In this run every task
    is done, [Done] answers true, no worker is left, and the output of task 0
    is empty although its lines are not. *)
Theorem reduce_output_truncated :
  ∃ s, exec nocrash_Map nocrash_Reduce example_start truncating_acts = Some s ∧
       Done_ (j_coord s) = true ∧ j_procs s = ∅ ∧ j_fs s !! out_name 0 = Some "" ∧
       lines_of nocrash_Map nocrash_Reduce ["in1"; "in2"] 2 example_fs 0 ≠ [].
Proof.
  eexists. split; [vm_compute; reflexivity|]. split_and!; vm_compute; done.
Qed.

Lemma gosort_strings_perm `{!GoSort str_ltb} vs vs' : vs ≡ₚ vs' → gosort str_ltb vs = gosort str_ltb vs'.
Proof. intros Hp. apply sorted_strings_eq; [apply gosort_sorted..|]. by rewrite !gosort_perm. Qed.

Lemma nocrash_order_blind `{!GoSort str_ltb} : order_blind nocrash_Reduce.
Proof. intros k vs vs' Hp. unfold nocrash_Reduce. by rewrite (gosort_strings_perm _ _ Hp). Qed.

(** The reduce functions of the word count, the indexer, and the two crash
    and exit tests give the same output for the values of a key in any order,
    so the order in which the sort leaves them does not matter. *)
Theorem apps_order_blind `{!GoSort str_ltb} :
  order_blind wc_Reduce ∧ order_blind indexer_Reduce ∧ order_blind nocrash_Reduce ∧ order_blind early_exit_Reduce.
Proof.
  split_and!; [| |apply nocrash_order_blind|]; intros k vs vs' Hp.
  - unfold wc_Reduce. by rewrite Hp.
  - unfold indexer_Reduce. by rewrite (gosort_strings_perm _ _ Hp).
  - unfold early_exit_Reduce. by rewrite Hp.
Qed.

Lemma example_names f : f ∈ ["in1"; "in2"] → (∀ i j, 0 ≤ i → f ≠ mr_name i j) ∧ (∀ j, f ≠ out_name j).
Proof. rewrite !elem_of_cons, elem_of_nil. by intros [-> | [-> | []]]. Qed.

Definition example_end : job :=
  default example_start (exec nocrash_Map nocrash_Reduce example_start example_acts).

Lemma mapreduce_matches_sequential_witness :
  ∃ lines seq_lines, exec nocrash_Map nocrash_Reduce example_start example_acts = Some example_end ∧
    j_fs example_end !! out_name 0 = Some (String.concat "" (lines 0)) ∧ length (concat (lines <$> [0; 1])) = 4%nat ∧
    mrsequential nocrash_Map nocrash_Reduce example_fs ["in1"; "in2"] = Some seq_lines ∧
    concat (lines <$> [0; 1]) ≡ₚ seq_lines.
Proof.
  destruct (mapreduce_matches_sequential nocrash_Map nocrash_Reduce example_glob ["in1"; "in2"] 2
    (j_coord example_start) example_fs example_acts example_end eq_refl eq_refl nocrash_order_blind) as (lines & sl & H1 & H2 & H3).
  - intros f _. by apply Forall_forall.
  - apply example_names.
  - vm_compute. reflexivity.
  - vm_compute. reflexivity.
  - vm_compute. reflexivity.
  - intros w r content. assert (E : j_procs example_end = ∅) by (vm_compute; reflexivity).
    rewrite E, lookup_empty. discriminate.
  - exists lines, sl. split; [vm_compute; reflexivity|]. split; [by apply H1|].
    split; [|split; [exact H2|exact H3]].
    change [0; 1] with (seqZ 0 2). rewrite (Permutation_length H3). vm_compute in H2. injection H2 as <-. reflexivity.
Defined.

Lemma HandleMap_buckets_witness :
  ∃ files, encode_loop 3 (nocrash_Map "in1" "hello") ["" ; ""; ""] = Some files ∧ length files = 3%nat ∧
           (ihash "a", ihash "d") = (1678518572, 1628185715).
Proof.
  destruct (HandleMap_buckets (nocrash_Map "in1" "hello") 3 eq_refl) as (_ & files & H1 & H2 & _).
  exists files. split; [exact H1|]. split; [lia|vm_compute; reflexivity].
Defined.
End MapReduceJob.
