(* ===== verification/MapReduceApps.v ===== *)
(** * The applications of MapReduce

    [src/6.5840/src/mrapps]: word count, the indexer, and the applications the test
    script measures the library with. A string is a sequence of bytes; [range] over
    it and [strings.FieldsFunc] go by the runes of its UTF-8. What the word count and
    the indexer print is said for the sequential program, which a distributed job
    agrees with. Process numbers, the files of the directory, who is alive and what
    is drawn are arguments; that a timing application fails to write its file is left out. *)
From S2P Require Import Prelude Coordinator MapReduce MapReduceOutput MapReduceJob.
Import MapReduce MapReduceOutput MapReduceJob.
Local Open Scope Z_scope.

Module MapReduceApps.

(** ** Runes *)

Definition byte_of (a : Ascii.ascii) : Z := Z.of_N (Ascii.N_of_ascii a).

Definition RuneError : Z := 65533.

(** A byte of the form [10xxxxxx] between two bounds, and its six bits. *)
Definition cont (lo hi : Z) (s : string) : option (Z * string) :=
  match s with
  | String a s => if (lo <=? byte_of a) && (byte_of a <=? hi) then Some (Z.land (byte_of a) 63, s) else None
  | EmptyString => None
  end.

(** The bounds of the second byte, as in the table of [unicode/utf8]. *)
Definition second_bounds (b : Z) : Z * Z :=
  if b =? 224 then (160, 191) else if b =? 237 then (128, 159) else if b =? 240 then (144, 191) else if b =? 244 then (128, 143)
  else (128, 191).

(** The rune that starts with byte [b] and how many of the bytes [s] after it belong
    to it; a byte that starts none is [RuneError] by itself. *)
Definition decode_rune (b : Z) (s : string) : Z * nat :=
  let '(lo, hi) := second_bounds b in
  let res :=
    if b <? 128 then Some (b, 0%nat)
    else if (194 <=? b) && (b <=? 223) then
      '(x, _) ← cont lo hi s; Some (Z.lor (Z.shiftl (Z.land b 31) 6) x, 1%nat)
    else if (224 <=? b) && (b <=? 239) then
      '(x, s) ← cont lo hi s; '(y, _) ← cont 128 191 s;
      Some (Z.lor (Z.shiftl (Z.land b 15) 12) (Z.lor (Z.shiftl x 6) y), 2%nat)
    else if (240 <=? b) && (b <=? 244) then
      '(x, s) ← cont lo hi s; '(y, s) ← cont 128 191 s; '(z, _) ← cont 128 191 s;
      Some (Z.lor (Z.shiftl (Z.land b 7) 18) (Z.lor (Z.shiftl x 12) (Z.lor (Z.shiftl y 6) z)), 3%nat)
    else None in
  default (RuneError, 0%nat) res.

Fixpoint take_bytes (k : nat) (s : string) : string * string :=
  match k, s with
  | S k, String a s => let '(x, y) := take_bytes k s in (String a x, y)
  | _, _ => ("", s)
  end.

(** The runes of a string, each with its bytes; [fuel] is the number of bytes. *)
Fixpoint runes_of (fuel : nat) (s : string) : list (Z * string) :=
  match fuel, s with
  | S fuel, String a s =>
      let '(r, k) := decode_rune (byte_of a) s in
      let '(x, rest) := take_bytes k s in
      (r, String a x) :: runes_of fuel rest
  | _, _ => []
  end.

Definition runes (s : string) : list (Z * string) := runes_of (String.length s) s.

(** [strings.FieldsFunc]: [word] is the field that has begun. *)
Fixpoint fields_loop (f : Z → bool) (rs : list (Z * string)) (word : option string) : list string :=
  match rs with
  | [] => match word with Some w => [w] | None => [] end
  | (r, x) :: rs =>
      if f r then match word with Some w => w :: fields_loop f rs None | None => fields_loop f rs None end
      else fields_loop f rs (Some (default "" word +:+ x))
  end.

Definition FieldsFunc (s : string) (f : Z → bool) : list string := fields_loop f (runes s) None.

(** ** Word count and indexer *)

(** [range] over the keys of a map: in an order that is not specified. *)
Class RangeKeys := {
  range_keys : gset string → list string;
  range_keys_perm m : range_keys m ≡ₚ elements m;
}.

#[global] Instance elements_RangeKeys : RangeKeys | 100 := {| range_keys := elements; range_keys_perm m := Permutation_refl _ |}.

Section letters.
(** [unicode.IsLetter]. *)
Context (IsLetter : Z → bool).

Definition words (contents : string) : list string := FieldsFunc contents (λ r, negb (IsLetter r)).

(** [mrapps/wc.go]. *)
Definition wc_Map (filename contents : string) : list KeyValue :=
  foldl (λ kva w, kva ++ [MkKeyValue w "1"]) [] (words contents).

(** [mrapps/indexer.go]. *)
Definition indexer_Map `{!RangeKeys} (document value : string) : list KeyValue :=
  let m := foldl (λ m w, {[w]} ∪ m) ∅ (words value) in
  foldl (λ res w, res ++ [MkKeyValue w document]) [] (range_keys m).

End letters.

(** ** The applications of the tests *)

(** [mrapps/crash.go]: [rr] and [ms] are the numbers drawn. [None]: the process
    exits; otherwise how long it sleeps, in milliseconds. *)
Definition maybeCrash (rr ms : Z) : option Z :=
  if rr <? 330 then None else if rr <? 660 then Some ms else Some 0.

Definition crash_Map (rr ms : Z) (filename contents : string) : option (list KeyValue) :=
  _ ← maybeCrash rr ms; Some (nocrash_Map filename contents).

Definition crash_Reduce `{!GoSort str_ltb} (rr ms : Z) (key : string) (values : list string) : option string :=
  _ ← maybeCrash rr ms;
  let vv := gosort str_ltb values in
  Some (Join vv " ").

(** [mrapps/nocrash.go]: the same without crashes. *)
Definition nocrash_maybeCrash (rr : Z) : option () := if false && (rr <? 500) then None else Some ().

(** [mrapps/jobcount.go]. The world is the names of the files of the directory and
    the counter of every process. *)
Record jobs := Jobs { dir : gset string; counts : gmap Z Z }.

Definition jobcount_prefix : string := "mr-worker-jobcount".

Definition jobcount_file (pid count : Z) : string := jobcount_prefix +:+ "-" +:+ pretty pid +:+ "-" +:+ pretty count.

(** [Map] in process [me]; [ok] is whether the file can be written. *)
Definition jobcount_Map (me : Z) (ok : bool) (s : jobs) : option (jobs * list KeyValue) :=
  let count := default 0 (counts s !! me) in
  let f := jobcount_file me count in
  if ok then Some (Jobs ({[f]} ∪ dir s) (<[me := wrap_s 64 (count + 1)]> (counts s)), [MkKeyValue "a" "x"]) else None.

(** [ok] is whether the directory can be read. *)
Definition jobcount_Reduce (ok : bool) (s : jobs) : option string :=
  if ok then
    let invocations := foldl (λ n f, if String.prefix jobcount_prefix f then n + 1 else n) 0 (elements (dir s)) in
    Some (pretty invocations)
  else None.

Section timing.
(** Whether [syscall.Kill(pid, 0)] succeeds, and what [%d] of [fmt.Sscanf] reads from
    the front of a string. *)
Context (alive : Z → bool) (scan_d : string → option Z).

Definition timing_file (phase : string) (pid : Z) : string := "mr-worker-" +:+ phase +:+ "-" +:+ pretty pid.

(** [fmt.Sscanf(name, "mr-worker-<phase>-%d", &xpid)]. *)
Definition scan_name (phase name : string) : option Z :=
  let pat := "mr-worker-" +:+ phase +:+ "-" in
  if String.prefix pat name then scan_d (String.substring (String.length pat) (String.length name - String.length pat) name) else None.

(** The loop of [nparallel] over the names of the directory. *)
Definition count_alive (phase : string) (names : list string) : Z :=
  foldl (λ ret name, match scan_name phase name with Some xpid => if alive xpid then ret + 1 else ret | None => ret end) 0 names.

(** [nparallel] up to its sleep: the directory with its own file, and the number. The
    directory is read in one call of at most a million names. *)
Definition nparallel_begin (phase : string) (pid : Z) (d : gset string) : gset string * Z :=
  let myfilename := timing_file phase pid in
  let d := {[myfilename]} ∪ d in
  let names := take (Z.to_nat 1000000) (elements d) in
  (d, count_alive phase names).

(** After the sleep; removing a file that is not there panics. *)
Definition nparallel_end (phase : string) (pid : Z) (d : gset string) : option (gset string) :=
  let myfilename := timing_file phase pid in
  if decide (myfilename ∈ d) then Some (d ∖ {[myfilename]}) else None.

(** [mrapps/mtiming.go]: the pairs of [Map] in process [pid], when [nparallel] gave [n];
    [ts] is the time as [%.1f] prints it. *)
Definition mtiming_pairs (pid n : Z) (ts : string) : list KeyValue :=
  [MkKeyValue ("times-" +:+ pretty pid) ts; MkKeyValue ("parallel-" +:+ pretty pid) (pretty n)].

Definition mtiming_Reduce `{!GoSort str_ltb} (key : string) (values : list string) : string :=
  let vv := gosort str_ltb values in
  Join vv " ".

(** [mrapps/rtiming.go]. *)
Definition rtiming_Map (filename contents : string) : list KeyValue :=
  (λ k, MkKeyValue k "1") <$> ["a"; "b"; "c"; "d"; "e"; "f"; "g"; "h"; "i"; "j"].

(** [Reduce], when [nparallel] gave [n]. *)
Definition rtiming_Reduce (n : Z) (key : string) (values : list string) : string := pretty n.

End timing.

(** ** Facts about runes *)

Lemma take_bytes_app k s : (take_bytes k s).1 +:+ (take_bytes k s).2 = s.
Proof.
  revert s. induction k as [|k IH]; intros [|a s]; [done..|]. simpl. specialize (IH s). destruct (take_bytes k s) as [x y]. simpl in *.
  exact (f_equal (String a) IH).
Qed.

Lemma length_append (s t : string) : String.length (s +:+ t) = (String.length s + String.length t)%nat.
Proof. induction s as [|a s IH]; [done|]. exact (f_equal S IH). Qed.

Lemma runes_of_concat fuel s : (String.length s ≤ fuel)%nat → String.concat "" (runes_of fuel s).*2 = s.
Proof.
  revert s. induction fuel as [|fuel IH]; intros [|a s] Hl; simpl in Hl; [done|lia|done|]. cbn [runes_of].
  destruct (decode_rune (byte_of a) s) as [r k]. pose proof (take_bytes_app k s) as E. destruct (take_bytes k s) as [x rest]. simpl in E.
  rewrite fmap_cons, concat_cons, IH; [exact (f_equal (String a) E)|]. rewrite <- E, length_append in Hl. lia.
Qed.

(** The runes of a string have its bytes. *)
Lemma runes_concat s : String.concat "" (runes s).*2 = s.
Proof. by apply runes_of_concat. Qed.

Lemma runes_of_nonempty fuel s r x : (r, x) ∈ runes_of fuel s → x ≠ "".
Proof.
  revert s. induction fuel as [|fuel IH]; intros [|a s]; cbn [runes_of]; try by intros ?%elem_of_nil.
  destruct (decode_rune (byte_of a) s) as [r' k]. destruct (take_bytes k s) as [y rest].
  intros [[= -> ->]|Hin]%elem_of_cons; [done|by eapply IH].
Qed.

(** ** Fields *)

Definition bytes (w : list (Z * string)) : string := String.concat "" w.*2.

Lemma bytes_snoc w r x : bytes (w ++ [(r, x)]) = bytes w +:+ x.
Proof.
  unfold bytes. rewrite fmap_app. induction w as [|[r' y] w IH]; [done|].
  cbn [fmap list_fmap app] in *. rewrite !concat_cons, append_assoc. by rewrite IH.
Qed.

(** The maximal runs of runes without [f]. *)
Inductive split_fields (f : Z → bool) : list (Z * string) → list (list (Z * string)) → Prop :=
| sf_end sp : Forall (λ x, f x.1 = true) sp → split_fields f sp []
| sf_field sp w rest ws : Forall (λ x, f x.1 = true) sp → w ≠ [] → Forall (λ x, f x.1 = false) w →
    (∀ x, head rest = Some x → f x.1 = true) → split_fields f rest ws → split_fields f (sp ++ w ++ rest) (w :: ws).

Lemma split_fields_sep f x rs ws : f x.1 = true → split_fields f rs ws → split_fields f (x :: rs) ws.
Proof.
  intros Hx. destruct 1 as [sp Hsp|sp w rest ws Hsp Hne Hw Hh Hr]; [apply sf_end; by constructor|].
  apply (sf_field f (x :: sp)); [by constructor|done..].
Qed.

Lemma fields_loop_ok f rs :
  (∃ ws, split_fields f rs ws ∧ fields_loop f rs None = bytes <$> ws) ∧
  ∀ c, ∃ w rest ws, rs = w ++ rest ∧ Forall (λ x, f x.1 = false) w ∧ (∀ x, head rest = Some x → f x.1 = true) ∧
    split_fields f rest ws ∧ fields_loop f rs (Some (bytes c)) = bytes (c ++ w) :: (bytes <$> ws).
Proof.
  induction rs as [|[r x] rs [(ws & Hs & E) IHB]].
  { split; [exists []; split; [by apply sf_end|done]|]. intros c. exists [], [], []. rewrite (app_nil_r c). split_and!; [done..|by apply sf_end|done]. }
  cbn [fields_loop]. destruct (f r) eqn:Er.
  - pose proof (split_fields_sep f (r, x) rs ws Er Hs) as Hs'. split; [by exists ws|]. intros c. exists [], ((r, x) :: rs), ws.
    rewrite (app_nil_r c), E. split_and!; [done..| |done|done]. by intros y [= <-].
  - split.
    + destruct (IHB [(r, x)]) as (w & rest & ws' & -> & Hw & Hh & Hs' & E'). exists (((r, x) :: w) :: ws'). split; [|exact E'].
      apply (sf_field f [] ((r, x) :: w) rest ws'); [done|done|by constructor|done|done].
    + intros c. destruct (IHB (c ++ [(r, x)])) as (w & rest & ws' & -> & Hw & Hh & Hs' & E'). exists ((r, x) :: w), rest, ws'.
      rewrite bytes_snoc in E'. cbn [default from_option]. unfold id. rewrite E', <- app_assoc. split_and!; [done|by constructor|done..].
Qed.

Lemma foldl_snoc {A B} (g : A → B) l acc : foldl (λ acc x, acc ++ [g x]) acc l = acc ++ (g <$> l).
Proof. revert acc. induction l as [|x l IH]; intros acc; simpl; [by rewrite app_nil_r|]. by rewrite IH, <- app_assoc. Qed.

(** ** What word count and indexer print *)

Section meaning.
Context `{!Json, !GoSort ByKey_Less, !GoSort str_ltb, !RangeKeys} (IsLetter : Z → bool).
Implicit Types (fs : gmap string string) (files : list string) (w : string).

Definition words_in fs (file : string) : list string := default [] (words IsLetter <$> fs !! file).

Definition all_words fs files : list string := concat (words_in fs <$> files).

Lemma wc_Map_eq filename contents : wc_Map IsLetter filename contents = (λ w, MkKeyValue w "1") <$> words IsLetter contents.
Proof. unfold wc_Map. by rewrite (foldl_snoc (λ w, MkKeyValue w "1")). Qed.

Lemma indexer_Map_eq document value :
  indexer_Map IsLetter document value ≡ₚ (λ w, MkKeyValue w document) <$> remove_dups (words IsLetter value).
Proof.
  unfold indexer_Map. rewrite (foldl_snoc (λ w, MkKeyValue w document)). simpl. apply fmap_Permutation. rewrite range_keys_perm.
  apply NoDup_Permutation; [apply NoDup_elements|apply NoDup_remove_dups|]. intros w. rewrite elem_of_elements, elem_of_remove_dups.
  assert (Hf : ∀ l (m : gset string), w ∈ foldl (λ m w, {[w]} ∪ m) m l ↔ w ∈ l ∨ w ∈ m).
  { induction l as [|x l IH]; intros m; simpl; [set_solver|]. rewrite IH. set_solver. }
  rewrite Hf. set_solver.
Qed.

Lemma pairs_of_eq mapf fs f content : fs !! f = Some content → pairs_of mapf fs f = mapf f content.
Proof. unfold pairs_of. by intros ->. Qed.

Lemma words_in_eq fs f content : fs !! f = Some content → words_in fs f = words IsLetter content.
Proof. unfold words_in. by intros ->. Qed.

(** The pairs with a given key. *)
Lemma values_of_concat k (ls : list (list KeyValue)) : values_of k (concat ls) = concat (values_of k <$> ls).
Proof. induction ls as [|l ls IH]; [done|]. cbn [concat fmap list_fmap]. rewrite <- IH. unfold values_of. by rewrite filter_app, fmap_app. Qed.

Lemma values_of_word k (g : string → string) l : values_of k ((λ w, MkKeyValue w (g w)) <$> l) = g <$> filter (λ w, w = k) l.
Proof. unfold values_of. induction l as [|w l IH]; [done|]. cbn [fmap list_fmap]. rewrite !filter_cons. simpl. case_decide; cbn [fmap list_fmap]; [f_equal|]; exact IH. Qed.

Lemma keys_of_words (mapf : string → string → list KeyValue) fs files :
  (∀ f content, fs !! f = Some content → ∀ w, w ∈ Key <$> mapf f content ↔ w ∈ words IsLetter content) →
  (∀ f, f ∈ files → is_Some (fs !! f)) → keys_of (concat (pairs_of mapf fs <$> files)) ≡ₚ remove_dups (all_words fs files).
Proof.
  intros Hm Hin. unfold keys_of. apply NoDup_Permutation; [apply NoDup_remove_dups..|]. intros w. rewrite !elem_of_remove_dups. unfold all_words.
  induction files as [|f files IH]; [done|]. cbn [fmap list_fmap concat]. rewrite fmap_app, !elem_of_app, IH by (intros; apply Hin; by right).
  destruct (Hin f) as [content Hc]; [by left|]. rewrite (words_in_eq fs f content Hc), (pairs_of_eq mapf fs f content Hc).
  by rewrite (Hm f content Hc).
Qed.

Lemma sequential_lines (mapf : string → string → list KeyValue) reducef fs files :
  (∀ f content, fs !! f = Some content → ∀ w, w ∈ Key <$> mapf f content ↔ w ∈ words IsLetter content) →
  (∀ f, f ∈ files → is_Some (fs !! f)) → order_blind reducef →
  ∃ lines, mrsequential mapf reducef fs files = Some lines ∧
    lines ≡ₚ (λ w, output_line w (reducef w (concat ((λ f, values_of w (pairs_of mapf fs f)) <$> files)))) <$> remove_dups (all_words fs files).
Proof.
  intros Hm Hin Hb. eexists. split; [by apply mrsequential_ok|]. rewrite reduce_lines_ok by done. unfold all_pairs.
  rewrite (keys_of_words mapf fs files Hm Hin). apply Permutation_refl'. apply list_fmap_ext. intros i w _. unfold line_of.
  by rewrite values_of_concat, <- list_fmap_compose.
Qed.

Lemma wc_order_blind : order_blind wc_Reduce.
Proof using Type. intros k vs vs' Hp. unfold wc_Reduce. by rewrite Hp. Qed.

Lemma indexer_order_blind : order_blind indexer_Reduce.
Proof using Type. intros k vs vs' Hp. unfold indexer_Reduce. by rewrite (gosort_strings_perm _ _ Hp). Qed.

Lemma counted_words fs files w :
  length (concat ((λ f, values_of w (pairs_of (wc_Map IsLetter) fs f)) <$> files)) = length (filter (λ x, x = w) (all_words fs files)).
Proof.
  unfold all_words. induction files as [|f files IH]; [done|]. cbn [fmap list_fmap concat]. rewrite filter_app, !length_app. f_equal; [|exact IH].
  unfold pairs_of, words_in. destruct (fs !! f) as [content|]; [|done]. simpl. by rewrite wc_Map_eq, values_of_word, length_fmap.
Qed.

Lemma indexed_words fs files w : (∀ f, f ∈ files → is_Some (fs !! f)) →
  concat ((λ f, values_of w (pairs_of (indexer_Map IsLetter) fs f)) <$> files) ≡ₚ filter (λ f, w ∈ words_in fs f) files.
Proof.
  intros Hin. induction files as [|f files IH]; [done|]. cbn [fmap list_fmap concat]. rewrite filter_cons, IH by (intros; apply Hin; by right).
  destruct (Hin f) as [content Hc]; [by left|]. rewrite (words_in_eq fs f content Hc), (pairs_of_eq _ fs f content Hc).
  assert (Hv : values_of w (indexer_Map IsLetter f content) ≡ₚ (λ _, f) <$> filter (λ x, x = w) (remove_dups (words IsLetter content))).
  { rewrite <- (values_of_word w (λ _, f)). unfold values_of. by rewrite indexer_Map_eq. }
  rewrite Hv. clear Hv.
  assert (Hone : ∀ l : list string, NoDup l → (λ _, f) <$> filter (λ x, x = w) l = if decide (w ∈ l) then [f] else []).
  { clear. induction 1 as [|x l Hx Hl IH]; [by rewrite decide_False by apply not_elem_of_nil|]. rewrite filter_cons. destruct (decide (x = w)) as [->|Hne].
    - cbn [fmap list_fmap]. rewrite IH, decide_False, decide_True by (done || by left). done.
    - rewrite IH. destruct (decide (w ∈ l)) as [Hw|Hw], (decide (w ∈ x :: l)) as [Hw'|Hw']; try done; [by destruct Hw'; right|].
      apply elem_of_cons in Hw' as [->|?]; done. }
  rewrite (Hone _ (NoDup_remove_dups _)). destruct (decide (w ∈ words IsLetter content)) as [Hw|Hw].
  - rewrite decide_True by by apply elem_of_remove_dups. done.
  - rewrite decide_False by by rewrite elem_of_remove_dups. done.
Qed.

(** What a user expects of the two programs. *)
Definition word_count fs files w : Z := Z.of_nat (length (filter (λ x, x = w) (all_words fs files))).

Definition documents fs files w : list string := filter (λ f, w ∈ words_in fs f) files.

(** C12: In files that exist the word count prints for every word of the files, that is for every
    maximal run of letters, how often it occurs in them; the indexer prints in how
    many files it occurs and their names in order. *)
Theorem wc_and_indexer fs files : (∀ f, f ∈ files → is_Some (fs !! f)) →
  (∀ contents, ∃ ws, split_fields (λ r, negb (IsLetter r)) (runes contents) ws ∧ words IsLetter contents = bytes <$> ws) ∧
  (∃ lines, mrsequential (wc_Map IsLetter) wc_Reduce fs files = Some lines ∧
     lines ≡ₚ (λ w, output_line w (pretty (word_count fs files w))) <$> remove_dups (all_words fs files)) ∧
  (∃ lines, mrsequential (indexer_Map IsLetter) indexer_Reduce fs files = Some lines ∧
     lines ≡ₚ (λ w, output_line w (pretty (Z.of_nat (length (documents fs files w))) +:+ " " +:+
                                   Join (gosort str_ltb (documents fs files w)) ",")) <$> remove_dups (all_words fs files)).
Proof.
  intros Hin. split; [intros contents; apply fields_loop_ok|]. split.
  - destruct (sequential_lines (wc_Map IsLetter) wc_Reduce fs files) as (lines & E & Hl); [|done|apply wc_order_blind|].
    + intros f content _ w. rewrite wc_Map_eq, <- list_fmap_compose. by rewrite list_fmap_id.
    + exists lines. split; [done|]. rewrite Hl. apply Permutation_refl', list_fmap_ext. intros i w _. unfold wc_Reduce, word_count. do 3 f_equal.
      by rewrite (counted_words fs files w).
  - destruct (sequential_lines (indexer_Map IsLetter) indexer_Reduce fs files) as (lines & E & Hl); [|done|apply indexer_order_blind|].
    + intros f content _ w. rewrite indexer_Map_eq, <- list_fmap_compose, list_fmap_id. apply elem_of_remove_dups.
    + exists lines. split; [done|]. rewrite Hl. apply Permutation_refl', list_fmap_ext. intros i w _.
      rewrite (indexer_order_blind w _ _ (indexed_words fs files w Hin)). unfold indexer_Reduce, documents.
      by rewrite (Permutation_length (gosort_perm (less:=str_ltb) _)).
Qed.

End meaning.

(** ** What the other applications measure *)

(** A loop that counts. *)
Lemma foldl_count {A} (P : A → Prop) `{!∀ x, Decision (P x)} (body : Z → A → Z) l acc :
  (∀ n x, body n x = if decide (P x) then n + 1 else n) → foldl body acc l = acc + Z.of_nat (length (filter P l)).
Proof.
  intros Hb. revert acc. induction l as [|x l IH]; intros acc; [simpl; lia|]. cbn [foldl]. rewrite IH, Hb, filter_cons. case_decide; simpl; lia.
Qed.

Lemma prefix_append p x : String.prefix p (p +:+ x) = true.
Proof. induction p as [|a p IH]; [by destruct x|]. simpl. by destruct (Ascii.ascii_dec a a). Qed.

Lemma jobcount_file_inj p c p' c' : 0 ≤ p → 0 ≤ p' → jobcount_file p c = jobcount_file p' c' → p = p' ∧ c = c'.
Proof.
  intros Hp Hp'. unfold jobcount_file. simpl. intros [= E]. apply split_digits in E as [E1 E2]; [|done|by apply pretty_digits..].
  split; by apply (inj pretty).
Qed.

Definition counted (f : string) : Prop := String.prefix jobcount_prefix f = true.

#[global] Instance counted_dec f : Decision (counted f) := decide (_ = _).

(** The files of the calls so far, and no more, have the prefix; [k] calls were made. *)
Record counting (k : nat) (s : jobs) : Prop := Counting {
  ct_files f : f ∈ dir s → counted f → ∃ p c, 0 ≤ p ∧ f = jobcount_file p c ∧ 0 ≤ c < default 0 (counts s !! p);
  ct_counts p : 0 ≤ default 0 (counts s !! p) ≤ Z.of_nat k;
  ct_size : length (filter counted (elements (dir s))) = k;
}.

Lemma jobcount_Map_ok k s me : counting k s → 0 ≤ me → Z.of_nat k + 1 < 2 ^ 63 →
  ∃ s', jobcount_Map me true s = Some (s', [MkKeyValue "a" "x"]) ∧ counting (S k) s'.
Proof.
  intros [Hf Hc Hs] Hme Hk. unfold jobcount_Map. set (c := default 0 (counts s !! me)). set (f := jobcount_file me c).
  pose proof (Hc me) as Hcm. fold c in Hcm. rewrite wrap_s_id by (unfold in_s; lia). eexists. split; [done|].
  assert (Hpre : counted f) by apply prefix_append.
  assert (Hnew : f ∉ dir s).
  { intros Hin. destruct (Hf f Hin Hpre) as (p & c' & Hp & E & Hc'). apply jobcount_file_inj in E as [<- <-]; [|done|done]. fold c in Hc'. lia. }
  split; cbn [dir counts].
  - intros g [->%elem_of_singleton|Hg]%elem_of_union Hgp.
    + exists me, c. rewrite lookup_insert_eq. simpl. split_and!; [done|done|lia|lia].
    + destruct (Hf g Hg Hgp) as (p & c' & Hp & -> & Hc'). exists p, c'. split_and!; [done|done|lia|]. rewrite lookup_insert.
      case_decide as E; [subst; simpl; fold c in Hc'; lia|lia].
  - intros p. rewrite lookup_insert. case_decide; simpl; [lia|]. specialize (Hc p). lia.
  - rewrite elements_union_singleton by done. rewrite filter_cons_True by done. simpl. by rewrite Hs.
Qed.

Fixpoint jobcount_Maps (pids : list Z) (s : jobs) : option jobs :=
  match pids with
  | [] => Some s
  | me :: pids => '(s, _) ← jobcount_Map me true s; jobcount_Maps pids s
  end.

Lemma jobcount_Maps_ok pids : ∀ k s, counting k s → Forall (λ p, 0 ≤ p) pids → Z.of_nat (k + length pids) < 2 ^ 63 →
  ∃ s', jobcount_Maps pids s = Some s' ∧ counting (k + length pids) s'.
Proof.
  induction pids as [|me pids IH]; intros k s Hs Hp Hk; [exists s; by rewrite Nat.add_0_r|]. apply Forall_cons in Hp as [Hme Hp].
  simpl in Hk. destruct (jobcount_Map_ok k s me Hs Hme) as (s1 & E & Hs1); [lia|]. cbn [jobcount_Maps]. rewrite E. cbn [mbind option_bind].
  destruct (IH (S k) s1 Hs1 Hp) as (s' & E' & Hs'); [lia|]. exists s'. split; [done|]. simpl. by rewrite Nat.add_succ_r.
Qed.

(** C13: The job counter is exact: in a directory without files of that name, after
    any number of calls of [Map] in any processes, [Reduce] answers how many there
    were. *)
Theorem jobcount_exact (d : gset string) (pids : list Z) :
  (∀ f, f ∈ d → ¬ counted f) → Forall (λ p, 0 ≤ p) pids → Z.of_nat (length pids) < 2 ^ 63 →
  ∃ s, jobcount_Maps pids (Jobs d ∅) = Some s ∧ jobcount_Reduce true s = Some (pretty (Z.of_nat (length pids))).
Proof.
  intros Hd Hp Hk. destruct (jobcount_Maps_ok pids 0 (Jobs d ∅)) as (s & E & [_ _ Hs]); [|done|done|].
  - split; simpl; [intros f Hf Hc; by destruct (Hd f Hf)|intros p; rewrite lookup_empty; simpl; lia|].
    apply length_zero_iff_nil, filter_none. intros f Hf%elem_of_elements. by apply Hd.
  - exists s. split; [done|]. unfold jobcount_Reduce. f_equal. f_equal. rewrite (foldl_count counted), Hs; [done|]. intros n x. case_decide as Hc; unfold counted in Hc; [by rewrite Hc|].
    by destruct (String.prefix _ _).
Qed.

Section parallel.
Context (alive : Z → bool) (scan_d : string → option Z).
(** [%d] reads what it printed. *)
Context (Hscan : ∀ z, 0 ≤ z → scan_d (pretty z) = Some z).

Lemma substring_append p x : String.substring (String.length p) (String.length (p +:+ x) - String.length p) (p +:+ x) = x.
Proof. rewrite length_append, Nat.add_comm, Nat.add_sub. induction p as [|a p IH]; [apply substring_all|]. exact IH. Qed.

Lemma scan_timing_file phase pid : 0 ≤ pid → scan_name scan_d phase (timing_file phase pid) = Some pid.
Proof using Hscan.
  intros Hp. unfold scan_name, timing_file. set (pat := "mr-worker-" +:+ phase +:+ "-").
  replace ("mr-worker-" +:+ phase +:+ "-" +:+ pretty pid) with (pat +:+ pretty pid) by (unfold pat; by rewrite !append_assoc).
  rewrite prefix_append, substring_append. by apply Hscan.
Qed.

Definition scanned (phase name : string) : Prop := ∃ pid, scan_name scan_d phase name = Some pid ∧ alive pid = true.

#[local] Instance scanned_dec phase name : Decision (scanned phase name).
Proof.
  unfold scanned. destruct (scan_name scan_d phase name) as [p|]; [destruct (alive p) eqn:E|].
  - left. by exists p.
  - right. intros (q & [= <-] & Eq). congruence.
  - right. by intros (q & ? & _).
Defined.

Lemma count_alive_eq phase names : count_alive alive scan_d phase names = Z.of_nat (length (filter (scanned phase) names)).
Proof using Type.
  unfold count_alive. rewrite (foldl_count (scanned phase)); [done|]. intros n x. unfold scanned. case_decide as Hd.
  - destruct Hd as (p & -> & ->). done.
  - destruct (scan_name scan_d phase x) as [p|]; [|done]. destruct (alive p) eqn:E; [|done]. destruct Hd. by exists p.
Qed.

(** The files of the processes [ps]. *)
Lemma filter_files phase ps : NoDup ps → Forall (λ p, 0 ≤ p) ps →
  filter (scanned phase) (timing_file phase <$> ps) = timing_file phase <$> filter (λ p, alive p = true) ps.
Proof using Hscan.
  intros _ Hp. induction Hp as [|p ps Hp0 Hp IH]; [done|]. cbn [fmap list_fmap]. rewrite !filter_cons, IH.
  destruct (decide (alive p = true)) as [Ha|Ha].
  - rewrite decide_True by (exists p; split; [by apply scan_timing_file|done]). done.
  - rewrite decide_False; [done|]. intros (q & E & Hq). rewrite scan_timing_file in E by done. congruence.
Qed.

(** [nparallel] of the timing applications counts the processes of its phase
    that run: those that have a file in the directory and are alive, itself
    included; files that belong to no process do not matter, and the file is gone
    afterwards. *)
Theorem nparallel_counts phase pid (ps : list Z) (others : gset string) :
  NoDup ps → Forall (λ p, 0 ≤ p) ps → 0 ≤ pid → pid ∉ ps → alive pid = true →
  (∀ f, f ∈ others → scan_name scan_d phase f = None) → (length ps + size others < Z.to_nat 1000000)%nat →
  let d := list_to_set (timing_file phase <$> ps) ∪ others in
  let '(d', n) := nparallel_begin alive scan_d phase pid d in
  n = Z.of_nat (S (length (filter (λ p, alive p = true) ps))) ∧ nparallel_end phase pid d' = Some d.
Proof using Hscan.
  intros Hnd Hps Hpid Hni Ha Ho Hsz d. unfold nparallel_begin.
  assert (Hinj : ∀ p q, 0 ≤ p → 0 ≤ q → timing_file phase p = timing_file phase q → p = q).
  { intros p q Hp Hq E. pose proof (scan_timing_file phase p Hp) as E1. rewrite E, scan_timing_file in E1 by done. congruence. }
  assert (Hel : elements ({[timing_file phase pid]} ∪ d) ≡ₚ (timing_file phase <$> pid :: ps) ++ elements others).
  { apply NoDup_Permutation; [apply NoDup_elements|apply NoDup_app; split_and!; [|..|apply NoDup_elements]|].
    - assert (Hall : Forall (λ p, 0 ≤ p) (pid :: ps)) by (by constructor). assert (Hnd' : NoDup (pid :: ps)) by (by constructor).
      revert Hall. generalize (pid :: ps) as qs, Hnd'. clear -Hinj. induction 1 as [|q qs Hq Hnd IH]; intros Hall; [constructor|].
      apply Forall_cons in Hall as [Hq0 Hqs]. cbn [fmap list_fmap]. constructor; [|by apply IH]. intros (q' & E & Hq')%list_elem_of_fmap.
      rewrite Forall_forall in Hqs. apply Hinj in E as ->; [done|done|by apply Hqs].
    - intros f (p & -> & Hp)%list_elem_of_fmap Hf%elem_of_elements. specialize (Ho _ Hf). rewrite scan_timing_file in Ho; [done|].
      apply elem_of_cons in Hp as [->|Hp]; [done|]. rewrite Forall_forall in Hps. by apply Hps.
    - intros f. unfold d. rewrite elem_of_elements, elem_of_app, elem_of_elements. cbn [fmap list_fmap]. set_solver. }
  rewrite take_ge.
  2: { rewrite Hel. rewrite length_app, length_fmap. simpl. unfold size, set_size in Hsz. simpl in Hsz. lia. }
  split.
  - rewrite count_alive_eq. f_equal. rewrite Hel, filter_app, length_app, (filter_files phase (pid :: ps)) by (by constructor).
    rewrite filter_cons_True, length_fmap by done. rewrite (filter_none _ (elements others)); [simpl; lia|].
    intros f Hf%elem_of_elements (q & E & _). by rewrite Ho in E.
  - unfold nparallel_end. rewrite decide_True by set_solver. f_equal. apply set_eq. intros f.
    assert (Hn : timing_file phase pid ∉ d).
    { unfold d. rewrite elem_of_union, elem_of_list_to_set. intros [(p & E & Hp)%list_elem_of_fmap|Hf].
      - rewrite Forall_forall in Hps. apply Hinj in E as <-; [done|done|by apply Hps].
      - specialize (Ho _ Hf). by rewrite scan_timing_file in Ho. }
    set_solver.
Qed.

End parallel.

(** ** Examples *)

Definition small_letter (r : Z) : bool := (97 <=? r) && (r <=? 122).

Definition two_files : gmap string string := {["in1" := "ab b"; "in2" := "b, ab! c"]}.

Lemma wc_and_indexer_witness :
  (∀ f, f ∈ ["in1"; "in2"] → is_Some (two_files !! f)) ∧
  ∃ lines lines', mrsequential (wc_Map small_letter) wc_Reduce two_files ["in1"; "in2"] = Some lines ∧
    mrsequential (indexer_Map small_letter) indexer_Reduce two_files ["in1"; "in2"] = Some lines' ∧
    lines ≡ₚ (λ w, output_line w (pretty (word_count small_letter two_files ["in1"; "in2"] w))) <$> ["b"; "ab"; "c"] ∧
    length lines' = 3%nat ∧ word_count small_letter two_files ["in1"; "in2"] "b" = 2.
Proof.
  assert (Hin : ∀ f, f ∈ ["in1"; "in2"] → is_Some (two_files !! f)).
  { intros f [->|[->|[]%not_elem_of_nil]%elem_of_cons]%elem_of_cons; eexists; reflexivity. }
  split; [exact Hin|]. destruct (wc_and_indexer small_letter two_files ["in1"; "in2"] Hin) as (_ & (l & E & P) & (l' & E' & P')).
  exists l, l'. split; [exact E|]. split; [exact E'|]. split; [exact P|]. split; [|vm_compute; reflexivity].
  rewrite P'. rewrite length_fmap. vm_compute. reflexivity.
Defined.

Lemma jobcount_exact_witness :
  ∃ s, jobcount_Maps [7; 8; 7] (Jobs {["mr-in"]} ∅) = Some s ∧ jobcount_Reduce true s = Some "3".
Proof.
  apply (jobcount_exact {["mr-in"]} [7; 8; 7]).
  - intros f ->%elem_of_singleton. vm_compute. discriminate.
  - repeat constructor; discriminate.
  - reflexivity.
Defined.

End MapReduceApps.
