(* ===== verification/MapReduceMain.v ===== *)
(** * The programs of MapReduce

    [main/mrcoordinator.go], [main/mrworker.go] and the start of
    [main/mrsequential.go]: their arguments, the loading of a plugin, and the loop that
    polls [Done]. A plugin is its symbols; [plugin.Open], [filepath.Glob] and what the
    workers do while the coordinator sleeps are arguments. The coordinator can end
    from every state its job gets into without the crash that [MapReduceJob] excludes. *)
From S2P Require Import Prelude Coordinator MapReduce MapReduceOutput MapReduceJob.
Import Coordinator MapReduce MapReduceOutput MapReduceJob.
Local Open Scope Z_scope.

Module MapReduceMain.

(** ** Plugins *)

(** What a symbol of a plugin is, by the type assertions of the code. *)
Inductive symbol :=
| MapFunc (mapf : string → string → list KeyValue)
| ReduceFunc (reducef : string → list string → string)
| OtherSymbol.

(** How a program fails: the usage message and [os.Exit(1)], [log.Fatalf], or a panic. *)
Inductive failed := Usage | Fatal | Panic.

Section programs.
Context `{!Json} `{!GoSort ByKey_Less}.
Context (Open : string → option (gmap string symbol)) (glob : string → option (list string)).

Definition loadPlugin (filename : string) :
    failed + ((string → string → list KeyValue) * (string → list string → string)) :=
  match Open filename with
  | None => inl Fatal
  | Some p =>
      match p !! "Map" with
      | None => inl Fatal
      | Some (MapFunc mapf) =>
          match p !! "Reduce" with
          | None => inl Fatal
          | Some (ReduceFunc reducef) => inr (mapf, reducef)
          | Some _ => inl Panic
          end
      | Some _ => inl Panic
      end
  end.

(** [main] of mrworker.go, up to the call of [Worker]: the functions it is given. *)
Definition mrworker_main (Args : list string) :
    failed + ((string → string → list KeyValue) * (string → list string → string)) :=
  if negb (length Args =? 2)%nat then inl Usage else loadPlugin (default "" (Args !! 1%nat)).

(** [main] of mrsequential.go: the files it leaves. *)
Definition mrsequential_main (Args : list string) (fs : gmap string string) : failed + gmap string string :=
  if (length Args <? 3)%nat then inl Usage
  else
    match loadPlugin (default "" (Args !! 1%nat)) with
    | inl e => inl e
    | inr (mapf, reducef) =>
        match mrsequential mapf reducef fs (drop 2 Args) with
        | None => inl Fatal
        | Some lines => inr (<["mr-out-0" := String.concat "" lines]> fs)
        end
    end.

(** ** mrcoordinator.go *)

Section coordinator.
Context (mapf : string → string → list KeyValue) (reducef : string → list string → string).

(** The loop over [Done]. An element of [sleeps] is what happens during a sleep;
    [inl]: the loop goes on, [inr]: it has ended. [None]: an action that cannot
    happen. *)
Fixpoint poll (s : job) (sleeps : list (list action)) : option (job + job) :=
  if Done_ (j_coord s) then Some (inr s)
  else match sleeps with
       | [] => Some (inl s)
       | acts :: sleeps => s ← exec mapf reducef s acts; poll s sleeps
       end.

Inductive coordinator_state := Failed (e : failed) | Polling (s : job) | Ended (s : job).

(** [main], with what happens in the sleeps of the loop that there have been, and in
    the sleep after it. For a pattern that is malformed [MakeCoordinator]
    returns nil, on which [Done] panics. *)
Definition mrcoordinator_main (Args : list string) (fs : gmap string string) (sleeps : list (list action))
    (last : list action) : option coordinator_state :=
  if (length Args <? 2)%nat then Some (Failed Usage)
  else
    match MakeCoordinator glob (drop 1 Args) 10 with
    | None => Some (Failed Panic)
    | Some m =>
        r ← poll (Job m fs ∅) sleeps;
        match r with
        | inl s => Some (Polling s)
        | inr s => s ← exec mapf reducef s last; Some (Ended s)
        end
    end.

End coordinator.
End programs.

(** ** A worker by itself *)

Lemma insert_alter {A} (m : gmap nat A) w p : partial_alter (λ _, Some p) w m = <[w := p]> m.
Proof. done. Qed.

Section progress.
Context `{!Json} `{!GoSort ByKey_Less}.
Context (mapf : string → string → list KeyValue) (reducef : string → list string → string).
Context (names : list string) (n : Z) (c0 : Coordinator) (fs0 : gmap string string).
Context (Hclean : ∀ f, f ∈ names → Forall json_clean (pairs_of mapf fs0 f)).
Context (Hnames : ∀ f, f ∈ names → (∀ i j, 0 ≤ i → f ≠ mr_name i j) ∧ (∀ j, f ≠ out_name j)).
Context (Hn : 0 < n).
Context (Hc0 : nreduce c0 = n ∧ maptask c0 = imap make_maptask names ∧ reducetask c0 = make_reducetask names <$> seqZ 0 n).
(** The files of the job are there. *)
Context (Hin : ∀ f, f ∈ names → is_Some (fs0 !! f)).

Abbreviation Inv := (Inv mapf reducef names n c0 fs0).
Abbreviation step := (step mapf reducef).
Abbreviation exec := (exec mapf reducef).
Implicit Types (s : job) (c : Coordinator) (p : proc) (r : TaskReply) (t : Task).

Definition reply_of p : TaskReply :=
  match p with Assigned r | Renaming r _ _ | Reading r _ _ | Output r _ | Reporting r => r end.

(** The steps a process has at most before it reports. *)
Definition left_of p : nat :=
  match p with
  | Assigned r => Z.to_nat n + length (Reducefiles (r_Task r)) + 3
  | Renaming _ tmpfiles k => S (length tmpfiles - k)
  | Reading _ filelist _ => S (S (length filelist))
  | Output _ _ => 1
  | Reporting _ => 0
  end.

(** In a job that goes well no process dies before it reports. *)
Lemma proc_advances s w p : Inv s → j_procs s !! w = Some p → (0 < left_of p)%nat →
  ∃ p' fs', proc_step mapf reducef p (j_fs s) (j_coord s) = (Some p', fs', Some (j_coord s)) ∧
            (left_of p' < left_of p)%nat ∧ reply_of p' = reply_of p.
Proof using Hc0 Hn Hin.
  intros HI Hw Hl. pose proof (inv_procs _ _ _ _ _ _ _ HI w p Hw) as Hok.
  destruct p as [r|r tmp k|r [|g fl] kva|r content|r]; cbn [proc_ok] in Hok; cbn [proc_step].
  - destruct Hok as [(i & f & Hty & Hnr & _ & Hf & Hfile)|(j & Hty & _)]; rewrite Hty.
    + assert (Hfn : f ∈ names) by by eapply list_elem_of_lookup_2.
      destruct (Hin f Hfn) as [content Hc]. rewrite Hfile, (inv_inputs _ _ _ _ _ _ _ HI f Hfn), Hc, Hnr.
      destruct (map_files_ok mapf f content n Hn) as (files & -> & Hlen & _). eexists _, _. split; [done|]. simpl. split; [lia|done].
    + eexists _, _. split; [done|]. simpl. split; [lia|done].
  - destruct Hok as (i & f & _ & _ & _ & Hk & _). destruct (tmp !! k) as [content|] eqn:E; eexists _, _; (split; [done|]); simpl.
    + apply lookup_lt_Some in E. split; [lia|done].
    + split; [lia|done].
  - eexists _, _. split; [done|]. simpl. split; [lia|done].
  - destruct Hok as (j & k & Ht & Hfl & _ & _). destruct Ht as (_ & _ & Hj & Hfiles & Hfin).
    assert (Hg : Reducefiles (r_Task r) !! k = Some g) by (by rewrite <- (Nat.add_0_r k), <- lookup_drop, <- Hfl).
    rewrite Hfiles, list_lookup_imap in Hg. apply fmap_Some in Hg as (f & Hf & ->).
    destruct (all_mapped _ _ _ _ _ _ Hc0 s k f HI Hfin Hf) as (f' & _ & _ & Hm). rewrite (Hm j Hj).
    eexists _, _. split; [done|]. simpl. split; [lia|done].
  - eexists _, _. split; [done|]. simpl. split; [lia|done].
  - simpl in Hl. lia.
Qed.

(** Left alone, a process gets to its report. *)
Lemma solo k : ∀ s w p, Inv s → j_procs s !! w = Some p → (left_of p ≤ k)%nat →
  ∃ acts s', exec s acts = Some s' ∧ Forall (λ a, a = Step w) acts ∧ Inv s' ∧ j_coord s' = j_coord s ∧
             j_procs s' = <[w := Reporting (reply_of p)]> (j_procs s).
Proof using Hc0 Hclean Hn Hnames Hin.
  induction k as [|k IH]; intros s w p HI Hw Hk.
  - exists [], s. split_and!; [done|done|done|done|]. destruct p; simpl in Hk; try lia. by rewrite insert_id.
  - destruct (decide (left_of p = 0%nat)) as [H0|H0]; [apply (IH s w p HI Hw); lia|].
    destruct (proc_advances s w p HI Hw) as (p' & fs' & E & Hl & Hr); [lia|].
    set (s1 := Job (j_coord s) fs' (<[w := p']> (j_procs s))).
    assert (E1 : step s (Step w) = Some s1) by (simpl; rewrite Hw; cbn [mbind option_bind]; by rewrite E).
    destruct (IH s1 w p') as (acts & s' & Ex & Ha & HI' & Hc & Hp).
    + by apply (Inv_step mapf reducef names n c0 fs0 Hclean Hnames Hn Hc0 s w).
    + apply lookup_insert_eq.
    + lia.
    + exists (Step w :: acts), s'. split_and!; [cbn [MapReduce.exec]; by rewrite E1|by constructor|done|done|].
      rewrite Hp, Hr. apply insert_insert_eq.
Qed.

(** ** One round: a task is done, or a phase ends *)

Lemma finish_at (l1 l2 : list Task) t args : Index (a_Task args) = Z.of_nat (length l1) → Timestamp (a_Task args) = Timestamp t →
  finish (l1 ++ t :: l2) args = Some (l1 ++ set_Missionstate t Done :: l2).
Proof using Type.
  clear Hc0 Hn. intros Hi Ht. unfold finish. rewrite Hi.
  assert (E : go_index (l1 ++ t :: l2) (Z.of_nat (length l1)) = Some t).
  { apply go_index_Some. split; [lia|]. rewrite Nat2Z.id. by apply list_lookup_middle. }
  rewrite E. cbn [mbind option_bind]. rewrite Ht, Z.eqb_refl. apply go_update_Some. rewrite length_app. simpl. split; [lia|].
  by rewrite Nat2Z.id, insert_app_r_alt, Nat.sub_diag by lia.
Qed.

Definition undone (tasks : list Task) : nat := length (filter (λ t, Missionstate t ≠ Done) tasks).

Definition todo c : nat :=
  undone (maptask c) + undone (reducetask c) + (if maptaskfinish c then 0 else 1) + (if reducetaskfinish c then 0 else 1).

Lemma undone_replaced l1 l2 t t' : Missionstate t ≠ Done → Missionstate t' = Done →
  (undone (l1 ++ t' :: l2) < undone (l1 ++ t :: l2))%nat.
Proof using Type.
  clear Hc0 Hn. intros Ht Ht'. unfold undone. rewrite !filter_app, !length_app, (filter_cons_False _ t'), (filter_cons_True _ t) by tauto.
  simpl. lia.
Qed.

(** A time when every task that runs is overdue. *)
Definition late (tasks : list Task) : Z := foldr (λ t m, Z.max (Timestamp t + 40 * 10 ^ 9 + 1) m) 0 tasks.

Lemma late_startable tasks t now : t ∈ tasks → late tasks ≤ now → startable now t = false → Missionstate t = Done.
Proof using Type.
  clear Hc0 Hn. intros Ht Hl Hs. assert (Ho : overtime now t = true).
  { unfold overtime. apply Z.ltb_lt. revert Hl. induction Ht as [u tasks|u v tasks _ IH]; cbn [late foldr]; fold (late tasks).
    - lia.
    - intros. apply IH; [done|lia]. }
  unfold startable in Hs. rewrite Ho, andb_true_r in Hs. apply orb_false_iff in Hs as [H1 H2].
  destruct (Missionstate t) eqn:E; [|exfalso..|done]; unfold is_state in *; rewrite E in *; done.
Qed.

Lemma job_exec_app acts acts' s : exec s (acts ++ acts') = s ← exec s acts; exec s acts'.
Proof using Type.
  revert s. induction acts as [|a acts IH]; intros s; [done|]. cbn [app MapReduce.exec]. destruct (step s a); [apply IH|done].
Qed.

Lemma safe_solo w acts : Forall (λ a, a = Step w) acts → ∀ s, safe_run mapf reducef s acts = true.
Proof using Type.
  induction 1 as [|a acts -> _ IH]; intros s; [done|]. cbn [safe_run safe]. destruct (step s (Step w)); [apply IH|done].
Qed.

(** From [s] the job gets to [s'] without a crash. *)
Definition gets s s' : Prop := ∃ acts, exec s acts = Some s' ∧ Forall (λ a, ∀ v, a ≠ Crash v) acts ∧ Inv s'.

Lemma gets_trans s1 s2 s3 : gets s1 s2 → gets s2 s3 → gets s1 s3.
Proof using Type.
  intros (a1 & E1 & N1 & _) (a2 & E2 & N2 & HI). exists (a1 ++ a2). rewrite job_exec_app, E1. split_and!; [done|by apply Forall_app|done].
Qed.

Lemma gets_steps w acts s s' : exec s acts = Some s' → Forall (λ a, a = Step w) acts → Inv s' → gets s s'.
Proof using Type. intros E Ha HI. exists acts. split_and!; [done| |done]. eapply Forall_impl; [exact Ha|]. by intros a ->. Qed.

(** A worker that was assigned a task finishes it. *)
Lemma solo_finish s w r c : Inv s → j_procs s !! w = Some (Assigned r) →
  match Worktype (r_Task r) with Map => HandleMapFinish (j_coord s) (finish_args r)
                               | _ => HandleReduceFinish (j_coord s) (finish_args r) end = Some c →
  ∃ s', gets s s' ∧ j_coord s' = c ∧ j_procs s' = delete w (j_procs s).
Proof using Hc0 Hclean Hn Hnames Hin.
  intros HI Hw Hf. destruct (solo _ s w _ HI Hw (le_n _)) as (acts & s1 & Ex & Ha & HI1 & Hc & Hp).
  set (s2 := Job c (j_fs s1) (delete w (j_procs s1))).
  assert (E : step s1 (Step w) = Some s2).
  { simpl. rewrite Hp, lookup_insert_eq. cbn [mbind option_bind proc_step reply_of]. rewrite Hc, Hf. unfold s2. by rewrite Hp. }
  assert (HI2 : Inv s2) by by apply (Inv_step mapf reducef names n c0 fs0 Hclean Hnames Hn Hc0 s1 w).
  exists s2. split_and!; [|done|simpl; rewrite Hp; apply delete_insert_eq].
  apply (gets_trans _ s1); [by apply (gets_steps w acts)|]. apply (gets_steps w [Step w]); [|by repeat constructor|done].
  cbn [MapReduce.exec]. by rewrite E.
Qed.

(** The task a worker is given is done when it has finished it. *)
Lemma ask_finish s w now c reply c' : Inv s → j_procs s !! w = None →
  AssignMission (j_coord s) zero_TaskReply now now = (c, reply) → Worktype (r_Task reply) ≠ Waiting →
  match Worktype (r_Task reply) with Map => HandleMapFinish c (finish_args reply)
                                   | _ => HandleReduceFinish c (finish_args reply) end = Some c' →
  ∃ s', gets s s' ∧ j_coord s' = c' ∧ j_procs s' = j_procs s.
Proof using Hc0 Hclean Hn Hnames Hin.
  intros HI Hw EA Hty Hf. set (s1 := Job c (j_fs s) (<[w := Assigned reply]> (j_procs s))).
  assert (E : step s (Ask w now now) = Some s1) by (simpl; rewrite Hw, EA; by destruct (Worktype (r_Task reply))).
  assert (HI1 : Inv s1) by by apply (Inv_ask mapf reducef names n c0 fs0 Hc0 s w now now).
  destruct (solo_finish s1 w reply c' HI1 (lookup_insert_eq _ _ _) Hf) as (s' & Hg & Hc & Hp). exists s'. split_and!; [|done|].
  - apply (gets_trans _ s1); [|done]. exists [Ask w now now]. cbn [MapReduce.exec]. rewrite E. split_and!; [done|by repeat constructor|done].
  - rewrite Hp. simpl. by apply delete_insert_id.
Qed.

Lemma todo_flags c : wf c →
  (maptaskfinish c = false → reducetaskfinish c = false) ∧
  ((∃ t, t ∈ reducetask c ∧ Missionstate t ≠ Done) → reducetaskfinish c = false).
Proof using Type.
  intros Hwf. split.
  - intros Hm. destruct (reducetaskfinish c) eqn:E; [|done]. destruct (wf_reducefinish _ Hwf E). congruence.
  - intros (t & Ht & Hnd). destruct (reducetaskfinish c) eqn:E; [|done]. destruct (wf_reducefinish _ Hwf E) as [_ Hd]. by destruct Hnd; apply Hd.
Qed.

Lemma round s w : Inv s → j_procs s !! w = None → Done_ (j_coord s) = false →
  ∃ s', gets s s' ∧ j_procs s' = j_procs s ∧ (todo (j_coord s') < todo (j_coord s))%nat.
Proof using Hc0 Hclean Hn Hnames Hin.
  intros HI Hw Hnd. pose proof (inv_wf _ _ _ _ _ _ _ HI) as Hwf. destruct (todo_flags _ Hwf) as [Hf1 Hf2].
  set (now := late (maptask (j_coord s) ++ reducetask (j_coord s))).
  pose proof (AssignMission_cases (j_coord s) zero_TaskReply now now Hwf) as HA.
  destruct (AssignMission (j_coord s) zero_TaskReply now now) as [c reply] eqn:EA. destruct HA as (_ & Hwf' & Hg & HA).
  assert (Hlate : ∀ t, t ∈ maptask (j_coord s) ∨ t ∈ reducetask (j_coord s) → startable now t = false → Missionstate t = Done).
  { intros t Ht. apply (late_startable (maptask (j_coord s) ++ reducetask (j_coord s))); [by apply elem_of_app|unfold now; lia]. }
  destruct HA as [(l1 & t & l2 & Ef & E & Hst & _ & Hr & Em & Er)|
    [(l1 & t & l2 & Ef & E & Hst & _ & Hr & Er & Em)|(Hty & Em & Er & Hfin)]].
  - assert (Ht : maptask (j_coord s) !! length l1 = Some t) by (rewrite E; by apply list_lookup_middle).
    assert (Hty : Worktype (r_Task reply) = Map) by (rewrite Hr; simpl; apply (wf_maptype _ Hwf); by eapply list_elem_of_lookup_2).
    assert (Hfi : finish (maptask c) (finish_args reply) = Some (l1 ++ set_Missionstate (start_map now t) Done :: l2)).
    { rewrite Em. apply finish_at; simpl; rewrite Hr; [|done]. exact (wf_map _ Hwf _ _ Ht). }
    edestruct (ask_finish s w now c reply) as (s' & Hget & Hc & Hp); [done|done|done|by rewrite Hty| |].
    { rewrite Hty. unfold HandleMapFinish. by rewrite Hfi. }
    exists s'. split_and!; [done|done|]. rewrite Hc. unfold todo. cbn [maptask reducetask maptaskfinish reducetaskfinish].
    rewrite Er, E, Ef, Hf1 by done. apply startable_not_done in Hst.
    pose proof (undone_replaced l1 l2 t (set_Missionstate (start_map now t) Done) Hst eq_refl).
    destruct (maptaskfinish c), (reducetaskfinish c); lia.
  - assert (Ht : reducetask (j_coord s) !! length l1 = Some t) by (rewrite E; by apply list_lookup_middle).
    assert (Hty : Worktype (r_Task reply) = Reduce) by by rewrite Hr.
    assert (Hfi : finish (reducetask c) (finish_args reply) = Some (l1 ++ set_Missionstate (start_reduce now t) Done :: l2)).
    { rewrite Er. apply finish_at; simpl; rewrite Hr; [|done]. exact (wf_reduce _ Hwf _ _ Ht). }
    edestruct (ask_finish s w now c reply) as (s' & Hget & Hc & Hp); [done|done|done|by rewrite Hty| |].
    { rewrite Hty. unfold HandleReduceFinish. by rewrite Hfi. }
    exists s'. split_and!; [done|done|]. rewrite Hc. unfold todo. cbn [maptask reducetask maptaskfinish reducetaskfinish].
    apply startable_not_done in Hst. rewrite Hf2 by (exists t; split; [by eapply list_elem_of_lookup_2|done]).
    rewrite Em, E, Ef, (gr_mapfinish _ _ Hg Ef).
    pose proof (undone_replaced l1 l2 t (set_Missionstate (start_reduce now t) Done) Hst eq_refl).
    destruct (reducetaskfinish c); lia.
  - set (s1 := Job c (j_fs s) (j_procs s)).
    assert (E : step s (Ask w now now) = Some s1) by (simpl; rewrite Hw, EA; by rewrite Hty).
    exists s1. split_and!; [|done|].
    + exists [Ask w now now]. cbn [MapReduce.exec]. rewrite E. split_and!; [done|by repeat constructor|].
      by apply (Inv_ask mapf reducef names n c0 fs0 Hc0 s w now now).
    + unfold todo, s1. simpl. rewrite Em, Er. destruct (maptaskfinish (j_coord s)) eqn:Ef.
      * destruct Hfin as [Hall Hfin]. rewrite (gr_mapfinish _ _ Hg Ef). unfold Done_ in Hnd. rewrite Ef in Hnd. simpl in Hnd.
        rewrite Hnd, (proj2 Hfin) by auto. lia.
      * destruct Hfin as [Hall Hfin]. rewrite (proj2 Hfin), Hf1 by auto. destruct (reducetaskfinish c); lia.
Qed.

(** ** The job can be brought to its end *)

Lemma gets_refl s : Inv s → gets s s.
Proof using Type. intros HI. by exists []. Qed.

Lemma can_finish w k : ∀ s, Inv s → j_procs s !! w = None → (todo (j_coord s) ≤ k)%nat →
  ∃ s', gets s s' ∧ j_procs s' = j_procs s ∧ Done_ (j_coord s') = true.
Proof using Hc0 Hclean Hn Hnames Hin.
  induction k as [|k IH]; intros s HI Hw Hk; destruct (Done_ (j_coord s)) eqn:E; [by exists s; auto using gets_refl| |
    by exists s; auto using gets_refl|]; destruct (round s w HI Hw E) as (s1 & Hg & Hp & Ht); [lia|].
  pose proof Hg as (_ & _ & _ & HI1). destruct (IH s1 HI1) as (s2 & Hg2 & Hp2 & Hd); [by rewrite Hp|lia|].
  exists s2. split_and!; [by eapply gets_trans|congruence|done].
Qed.

(** The processes that have emptied an output file. *)
Definition is_output p : Prop := match p with Output _ _ => True | _ => False end.

#[local] Instance is_output_dec p : Decision (is_output p).
Proof. destruct p; simpl; apply _. Defined.

Definition outputs s : gmap nat proc := filter (λ wp, is_output wp.2) (j_procs s).

Lemma can_drain k : ∀ s, Inv s → size (outputs s) = k →
  ∃ s', gets s s' ∧ ∀ w r content, j_procs s' !! w ≠ Some (Output r content).
Proof using Hc0 Hclean Hn Hnames Hin.
  induction k as [|k IH]; intros s HI Hk.
  - exists s. split; [by apply gets_refl|]. intros w r content Hw. apply map_size_empty_inv in Hk.
    assert (Ho : outputs s !! w = Some (Output r content)) by by apply map_lookup_filter_Some. by rewrite Hk, lookup_empty in Ho.
  - destruct (decide (outputs s = ∅)) as [E|E]; [rewrite E, map_size_empty in Hk; lia|].
    apply map_choose in E as (w & p & Hwp). pose proof Hwp as [Hw Hp]%map_lookup_filter_Some. simpl in Hp.
    destruct p as [| | |r content|]; try done.
    set (s1 := Job (j_coord s) (<[out_name (Index (r_Task r)) := content]> (j_fs s)) (<[w := Reporting r]> (j_procs s))).
    assert (E1 : step s (Step w) = Some s1) by (simpl; by rewrite Hw).
    assert (HI1 : Inv s1) by by apply (Inv_step mapf reducef names n c0 fs0 Hclean Hnames Hn Hc0 s w).
    destruct (IH s1 HI1) as (s2 & Hg & Ho).
    { unfold outputs, s1. cbn [j_procs]. rewrite map_filter_insert_False, map_filter_delete by (simpl; tauto). fold (outputs s).
      rewrite map_size_delete_Some by eauto. lia. }
    exists s2. split; [|done]. apply (gets_trans _ s1); [|done]. apply (gets_steps w [Step w]); [|by repeat constructor|done].
    cbn [MapReduce.exec]. by rewrite E1.
Qed.

Lemma can_end s : Inv s →
  ∃ s', gets s s' ∧ Done_ (j_coord s') = true ∧ ∀ j, 0 ≤ j < n → j_fs s' !! out_name j = Some (String.concat "" (lines_of mapf reducef names n fs0 j)).
Proof using Hc0 Hclean Hn Hnames Hin.
  intros HI. destruct (can_drain _ s HI eq_refl) as (s1 & Hg1 & Ho). pose proof Hg1 as (_ & _ & _ & HI1).
  destruct (can_finish (fresh (dom (j_procs s1))) (todo (j_coord s1)) s1 HI1) as (s2 & Hg2 & Hp & Hd); [|done|].
  { apply not_elem_of_dom, is_fresh. }
  pose proof Hg2 as (_ & _ & _ & HI2). exists s2. split_and!; [by eapply gets_trans|done|].
  destruct (job_end mapf reducef names n c0 fs0 Hc0 s2 HI2 Hd) as [_ Hout]; [by rewrite Hp|done].
Qed.

End progress.

(** ** The loop over [Done] *)

Section polling.
Context `{!Json} `{!GoSort ByKey_Less} (mapf : string → string → list KeyValue) (reducef : string → list string → string).

Lemma poll_inl sleeps : ∀ s s', poll mapf reducef s sleeps = Some (inl s') → exec mapf reducef s (concat sleeps) = Some s'.
Proof using Type.
  induction sleeps as [|acts sleeps IH]; intros s s'; simpl; destruct (Done_ (j_coord s)); try done; [by intros [= ->]|].
  rewrite job_exec_app. destruct (exec mapf reducef s acts); [apply IH|done].
Qed.

Lemma poll_more acts s2 sleeps : ∀ s s1, poll mapf reducef s sleeps = Some (inl s1) → exec mapf reducef s1 acts = Some s2 →
  Done_ (j_coord s2) = true → poll mapf reducef s (sleeps ++ [acts]) = Some (inr s2).
Proof using Type.
  induction sleeps as [|acts' sleeps IH]; intros s s1; simpl; destruct (Done_ (j_coord s)) eqn:Ed; try done.
  - intros [= ->] -> Hd. cbn [mbind option_bind]. by rewrite Hd.
  - destruct (exec mapf reducef s acts') as [s0|]; [|done]. cbn [mbind option_bind]. apply IH.
Qed.

End polling.

(** ** The programs *)

(** A malformed pattern is not reported: [Done] is called on nil. *)
Lemma malformed_pattern_panics `{!Json, !GoSort ByKey_Less} glob mapf reducef prog pattern args fs sleeps last :
  glob pattern = None → mrcoordinator_main glob mapf reducef (prog :: pattern :: args) fs sleeps last = Some (Failed Panic).
Proof. intros E. unfold mrcoordinator_main, MakeCoordinator. simpl. by rewrite E. Qed.

(** C11: As long as [mrcoordinator] polls, whatever the workers have done and
    wherever they crashed, except between emptying an output file and renaming the
    new one over it, it can still end, without another crash; and then the ten
    output files hold, taken together, the lines that [mrsequential] writes
    with the same plugin for the files that match the patterns. There is such a file,
    they can be read and do not have the names of the job's own files, JSON gives back
    their pairs, and the reduce function does not look at the order of its values. *)
Theorem mrcoordinator_can_end `{!Json, !GoSort ByKey_Less} Open glob (plugin prog : string) args
    (mapf : string → string → list KeyValue) (reducef : string → list string → string) fs (m : Coordinator) sleeps s :
  loadPlugin Open plugin = inr (mapf, reducef) → order_blind reducef →
  MakeCoordinator glob args 10 = Some m → filename m ≠ [] →
  (∀ f, f ∈ filename m → is_Some (fs !! f)) →
  (∀ f, f ∈ filename m → Forall json_clean (pairs_of mapf fs f)) →
  (∀ f, f ∈ filename m → (∀ i j, 0 ≤ i → f ≠ mr_name i j) ∧ (∀ j, f ≠ out_name j)) →
  mrcoordinator_main glob mapf reducef (prog :: args) fs sleeps [] = Some (Polling s) →
  safe_run mapf reducef (Job m fs ∅) (concat sleeps) = true →
  ∃ acts s' (lines : Z → list string) (seq_lines : list string),
    Forall (λ a, ∀ w, a ≠ Crash w) acts ∧
    mrcoordinator_main glob mapf reducef (prog :: args) fs (sleeps ++ [acts]) [] = Some (Ended s') ∧
    (∀ j, 0 ≤ j < 10 → j_fs s' !! out_name j = Some (String.concat "" (lines j))) ∧
    mrsequential_main Open (prog :: plugin :: filename m) fs = inr (<["mr-out-0" := String.concat "" seq_lines]> fs) ∧
    concat (lines <$> seqZ 0 10) ≡ₚ seq_lines.
Proof.
  intros Hload Hblind Hmake Hne Hin Hclean Hnames Hpoll Hsafe. assert (Hn : 0 < 10) by done.
  pose proof (make_fields _ _ _ _ Hmake) as Hc0. 
  assert (Hmain : ∀ sl, mrcoordinator_main glob mapf reducef (prog :: args) fs sl [] =
    if (length (prog :: args) <? 2)%nat then Some (Failed Usage)
    else r ← poll mapf reducef (Job m fs ∅) sl; Some match r with inl s => Polling s | inr s => Ended s end).
  { intros sl. unfold mrcoordinator_main. change (drop 1 (prog :: args)) with args. rewrite Hmake.
    destruct (_ <? _)%nat; [done|]. by destruct (poll _ _ _ sl) as [[]|]. }
  set (b := (length (prog :: args) <? 2)%nat) in Hmain. clearbody b. rewrite Hmain in Hpoll. destruct b; [done|].
  destruct (poll mapf reducef (Job m fs ∅) sleeps) as [[s0|s0]|] eqn:Ep; try done. injection Hpoll as ->.
  assert (HI : Inv mapf reducef (filename m) 10 m fs s).
  { eapply (job_exec mapf reducef (filename m) 10 m fs Hclean Hnames Hn Hc0); [|exact Hsafe|by apply poll_inl].
    apply Inv_start; [done|by eapply make_wf]. }
  destruct (can_end mapf reducef (filename m) 10 m fs Hclean Hnames Hn Hc0 Hin s HI) as (s' & (acts & Ex & Ha & _) & Hd & Hout).
  exists acts, s', (lines_of mapf reducef (filename m) 10 fs), (reduce_lines reducef (all_pairs mapf (filename m) fs)).
  split_and!; [done| |done| |by apply lines_all].
  - rewrite Hmain. by rewrite (poll_more _ _ acts s' sleeps _ s).
  - assert (El : (length (prog :: plugin :: filename m) <? 3)%nat = false) by (by destruct (filename m)).
    unfold mrsequential_main. rewrite El. cbn [lookup list_lookup default from_option]. unfold id. rewrite Hload.
    change (drop 2 (prog :: plugin :: filename m)) with (filename m). by rewrite mrsequential_ok.
Qed.

(** *** An example *)

#[local] Existing Instance toy_Json.

Definition example_open (filename : string) : option (gmap string symbol) :=
  if String.eqb filename "nocrash.so"
  then Some {["Map" := MapFunc nocrash_Map; "Reduce" := ReduceFunc nocrash_Reduce]}
  else None.

Definition example_m : Coordinator :=
  default (MkCoordinator [] 0 [] [] false false) (MakeCoordinator example_glob ["in1"; "in2"] 10).

(** Worker 0 crashes in its first map task. *)
Definition example_sleeps : list (list action) := [[Ask 0 100 100; Ask 1 200 200]; [Step 0; Step 1; Step 0; Crash 0]].

Definition example_state : job :=
  default (Job example_m example_fs ∅) (exec nocrash_Map nocrash_Reduce (Job example_m example_fs ∅) (concat example_sleeps)).

Lemma mrcoordinator_can_end_witness :
  mrcoordinator_main example_glob nocrash_Map nocrash_Reduce ["mrcoordinator"; "in1"; "in2"] example_fs example_sleeps []
    = Some (Polling example_state) ∧
  ∃ acts s', mrcoordinator_main example_glob nocrash_Map nocrash_Reduce ["mrcoordinator"; "in1"; "in2"] example_fs
    (example_sleeps ++ [acts]) [] = Some (Ended s').
Proof.
  assert (E : mrcoordinator_main example_glob nocrash_Map nocrash_Reduce ["mrcoordinator"; "in1"; "in2"] example_fs example_sleeps []
    = Some (Polling example_state)) by (vm_compute; reflexivity).
  split; [exact E|].
  destruct (mrcoordinator_can_end example_open example_glob "nocrash.so" "mrcoordinator" ["in1"; "in2"] nocrash_Map nocrash_Reduce
    example_fs example_m example_sleeps example_state) as (acts & s' & _ & _ & _ & H & _).
  - reflexivity.
  - apply nocrash_order_blind.
  - vm_compute. reflexivity.
  - discriminate.
  - intros f [->|[->|[]%not_elem_of_nil]%elem_of_cons]%elem_of_cons; eexists; reflexivity.
  - intros f _. by apply Forall_forall.
  - apply example_names.
  - exact E.
  - vm_compute. reflexivity.
  - exists acts, s'. exact H.
Defined.

End MapReduceMain.
