(* ===== verification/Raft.v ===== *)
(** * Raft leader election

    [src/6.5840/src/raft/raft.go]. A server is one record; every block of code that
    runs with its lock held is one function on it. The goroutines are threads
    of a system of servers: one step of a thread is one such block, one
    delivery of a request, or one return of a call. A time is a number of
    nanoseconds. Terms do not wrap: a server would need 2^63 elections. *)
From S2P Require Import Prelude.
Local Open Scope Z_scope.

Module Raft.

Inductive ServerState := Follower | Candidate | Leader.

#[global] Instance ServerState_eq_dec : EqDecision ServerState.
Proof. solve_decision. Defined.

(** Of [peers] only the number is used; the persister is not used, since
    nothing is persisted. *)
Record Raft := MkRaft {
  peers : nat;
  me : Z;
  dead : Z;
  state : ServerState;
  currentTerm : Z;
  votedFor : Z;
  votednumber : Z;
  lastTimeReceiveRPC : Z;
}.

Record AppendEntries := MkAppendEntries {
  ae_Term : Z;
  ae_LeaderID : Z;
  PrevlogIndex : Z;
  PrevlogTerm : Z;
}.

Record RequestVoteArgs := MkRequestVoteArgs {
  rv_Term : Z;
  CandidateId : Z;
  LastLogIndex : Z;
  LastLogTerm : Z;
}.

Record RequestVoteReply := MkRequestVoteReply {
  rvr_Term : Z;
  VoteGranted : bool;
}.

Record HeartbeatReply := MkHeartbeatReply {
  hb_Term : Z;
  Success : bool;
}.

Definition set_rpc_time (rf : Raft) (t : Z) : Raft :=
  MkRaft (peers rf) (me rf) (dead rf) (state rf) (currentTerm rf) (votedFor rf) (votednumber rf) t.

Definition set_state (rf : Raft) (st : ServerState) : Raft :=
  MkRaft (peers rf) (me rf) (dead rf) st (currentTerm rf) (votedFor rf) (votednumber rf) (lastTimeReceiveRPC rf).

Definition set_votedFor (rf : Raft) (c : Z) : Raft :=
  MkRaft (peers rf) (me rf) (dead rf) (state rf) (currentTerm rf) c (votednumber rf) (lastTimeReceiveRPC rf).

Definition GetState (rf : Raft) : Z * bool := (currentTerm rf, bool_decide (state rf = Leader)).

(** [persist] and [Snapshot] have no body yet, and [readPersist] none after its guard. *)
Definition persist (rf : Raft) : Raft := rf.
Definition readPersist (rf : Raft) (data : list Z) : Raft := if bool_decide (length data < 1)%nat then rf else rf.
Definition Snapshot (rf : Raft) (index : Z) (snapshot : list Z) : Raft := rf.

(** The handler of a vote request; [now] is [time.Now()]. *)
Definition RequestVote (now : Z) (rf : Raft) (args : RequestVoteArgs) : Raft * RequestVoteReply :=
  let reply_Term := currentTerm rf in
  let '(rf, granted) :=
    if rv_Term args <? reply_Term then (rf, false)
    else
      let rf :=
        if currentTerm rf <? rv_Term args then
          MkRaft (peers rf) (me rf) (dead rf) Follower (rv_Term args) (-1) (votednumber rf) (lastTimeReceiveRPC rf)
        else rf in
      if (votedFor rf =? -1) || (votedFor rf =? CandidateId args) then (set_votedFor rf (CandidateId args), true)
      else (rf, false) in
  (set_rpc_time rf now, MkRequestVoteReply reply_Term granted).

(** Agreement on log entries is not written yet. *)
Definition Start {V} (rf : Raft) (command : V) : Z * Z * bool :=
  let index := -1 in
  let term := -1 in
  let isLeader := true in
  (index, term, isLeader).

Definition Kill (rf : Raft) : Raft :=
  MkRaft (peers rf) (me rf) 1 (state rf) (currentTerm rf) (votedFor rf) (votednumber rf) (lastTimeReceiveRPC rf).

Definition killed (rf : Raft) : bool := dead rf =? 1.

(** The wait of [ticker], in nanoseconds; [rnd] is [rand.Int63()]. *)
Definition ticker_wait (rnd : Z) : Z := (300 + rnd mod 200) * 10 ^ 6.

(** What [ticker] does after its wait, and whether it starts an election. *)
Definition ticker_check (rf : Raft) (startWaitTime : Z) : Raft * bool :=
  let elect :=
    if lastTimeReceiveRPC rf <? startWaitTime then negb (bool_decide (state rf = Leader)) else false in
  (set_rpc_time rf startWaitTime, elect).

(** The locked part of [emitElection]. *)
Definition emitElection (rf : Raft) : Raft * RequestVoteArgs :=
  let rf := MkRaft (peers rf) (me rf) (dead rf) Candidate (currentTerm rf + 1) (me rf) 1 (lastTimeReceiveRPC rf) in
  (rf, MkRequestVoteArgs (currentTerm rf) (me rf) 0 0).

(** The locked part of the goroutine that asked for a vote, when the call
    returned true and the vote is granted; whether [LeaderOperation] is called. *)
Definition count_vote (rf : Raft) : Raft * bool :=
  let rf := MkRaft (peers rf) (me rf) (dead rf) (state rf) (currentTerm rf) (votedFor rf) (votednumber rf + 1)
                   (lastTimeReceiveRPC rf) in
  if bool_decide (state rf = Candidate) && (Z.quot (Z.of_nat (peers rf)) 2 <? votednumber rf)
  then (set_state rf Leader, true) else (rf, false).

(** The entries a round of [sendHeartBeat] sends. *)
Definition heartbeat_args (rf : Raft) : AppendEntries := MkAppendEntries (currentTerm rf) (me rf) 0 0.

(** The locked part of the goroutine that sent a heartbeat, after the call. *)
Definition heartbeat_answer (rf : Raft) (heartbeatreply : HeartbeatReply) : Raft :=
  if currentTerm rf <? hb_Term heartbeatreply then set_state rf Follower else rf.

(** The handler of a heartbeat: it sets only [Success] of the reply. *)
Definition GetHeartbeat (now : Z) (rf : Raft) (args : AppendEntries) (reply : HeartbeatReply) : Raft * HeartbeatReply :=
  if ae_Term args <? currentTerm rf then (rf, MkHeartbeatReply (hb_Term reply) false)
  else
    (MkRaft (peers rf) (me rf) (dead rf) Follower (ae_Term args) (votedFor rf) (votednumber rf) now,
     MkHeartbeatReply (hb_Term reply) true).

(** The zero [time.Time], the first of January of the year 1. *)
Definition zero_time : Z := -62135596800 * 10 ^ 9.

Definition Make (peers : nat) (me : Z) : Raft :=
  let rf := MkRaft peers me 0 Follower 0 (-1) 0 zero_time in
  readPersist rf [].

(** ** The system *)

(** The goroutines, each where it waits. *)
Inductive thread :=
| Emit (i : nat) (* emitElection *)
| AskVote (i j : nat) (args : RequestVoteArgs) (* calls RequestVote of j *)
| GotVote (i j : nat) (args : RequestVoteArgs) (reply : RequestVoteReply) (* the reply arrives *)
| Beat (i : nat) (* sendHeartBeat, before its lock *)
| BeatLoop (i : nat) (args : AppendEntries) (j : nat) (* in its loop, at peer j *)
| BeatCheck (i : nat) (* after its loop *)
| SendBeat (i j : nat) (args : AppendEntries) (* calls GetHeartbeat of j *)
| BeatReply (i j : nat) (reply : HeartbeatReply). (* after the call *)

(** A vote: who voted, in which term, for whom. *)
Definition vote : Type := nat * Z * Z.

(** [s_votes] records the votes cast, for the proofs only: no step reads it.
    A ticker is the time its wait started, or [None] when it has ended. *)
Record system := System {
  s_servers : list Raft;
  s_tickers : list (option Z);
  s_threads : list thread;
  s_now : Z;
  s_votes : list vote;
}.

Inductive action :=
| Advance (d : Z) (* time passes *)
| Wake (i : nat) (rnd : Z) (* the wait of ticker i is over *)
| Run (k : nat) (* thread k goes on *)
| Lose (k : nat) (* the call of thread k fails *)
| KillServer (i : nat).

(** The peers server [i] sends to. *)
Definition others (n i : nat) : list nat := filter (λ j, j ≠ i) (seq 0 n).

(** One step of a thread: the servers after it, the threads it leaves, and the
    votes it casts. [None]: the thread refers to a server that does not exist. *)
Definition run_thread (n : nat) (now : Z) (servers : list Raft) (t : thread) :
    option (list Raft * list thread * list vote) :=
  match t with
  | Emit i =>
      rf ← servers !! i;
      let '(rf, args) := emitElection rf in
      Some (<[i := rf]> servers, (λ j, AskVote i j args) <$> others n i, [(i, currentTerm rf, me rf)])
  | AskVote i j args =>
      rf ← servers !! j;
      let '(rf, reply) := RequestVote now rf args in
      Some (<[j := rf]> servers, [GotVote i j args reply],
            if VoteGranted reply then [(j, rv_Term args, CandidateId args)] else [])
  | GotVote i j args reply =>
      if VoteGranted reply then
        rf ← servers !! i;
        let '(rf, leader) := count_vote rf in
        Some (<[i := rf]> servers, if leader : bool then [Beat i] else [], [])
      else Some (servers, [], [])
  | Beat i => rf ← servers !! i; Some (servers, [BeatLoop i (heartbeat_args rf) 0], [])
  | BeatLoop i args j =>
      rf ← servers !! i;
      if (n <=? j)%nat then Some (servers, [BeatCheck i], [])
      else if (i =? j)%nat then Some (servers, [BeatLoop i args (S j)], [])
      else if bool_decide (state rf = Leader) then Some (servers, [SendBeat i j args; BeatLoop i args (S j)], [])
      else Some (servers, [SendBeat i j args; BeatCheck i], [])
  | BeatCheck i =>
      rf ← servers !! i;
      Some (servers, if bool_decide (state rf = Leader) then [Beat i] else [], [])
  | SendBeat i j args =>
      rf ← servers !! j;
      let '(rf, reply) := GetHeartbeat now rf args (MkHeartbeatReply 0 false) in
      Some (<[j := rf]> servers, [BeatReply i j reply], [])
  | BeatReply i j reply =>
      rf ← servers !! i;
      Some (<[i := heartbeat_answer rf reply]> servers, [], [])
  end.

(** Whether the thread waits for a call, which can fail. *)
Definition calling (t : thread) : bool :=
  match t with AskVote _ _ _ | GotVote _ _ _ _ | SendBeat _ _ _ | BeatReply _ _ _ => true | _ => false end.

(** [None]: the action cannot happen. *)
Definition step (s : system) (a : action) : option system :=
  match a with
  | Advance d =>
      if 0 <=? d then Some (System (s_servers s) (s_tickers s) (s_threads s) (s_now s + d) (s_votes s)) else None
  | Wake i rnd =>
      rf ← s_servers s !! i;
      tk ← s_tickers s !! i;
      startWaitTime ← tk;
      if (0 <=? rnd) && (startWaitTime + ticker_wait rnd <=? s_now s) then
        let '(rf, elect) := ticker_check rf startWaitTime in
        let ticker := if killed rf then None else Some (s_now s) in
        Some (System (<[i := rf]> (s_servers s)) (<[i := ticker]> (s_tickers s))
                     (s_threads s ++ if elect : bool then [Emit i] else []) (s_now s) (s_votes s))
      else None
  | Run k =>
      t ← s_threads s !! k;
      '(servers, ts, votes) ← run_thread (length (s_servers s)) (s_now s) (s_servers s) t;
      Some (System servers (s_tickers s) (delete k (s_threads s) ++ ts) (s_now s) (s_votes s ++ votes))
  | Lose k =>
      t ← s_threads s !! k;
      if calling t then Some (System (s_servers s) (s_tickers s) (delete k (s_threads s)) (s_now s) (s_votes s)) else None
  | KillServer i =>
      rf ← s_servers s !! i;
      Some (System (<[i := Kill rf]> (s_servers s)) (s_tickers s) (s_threads s) (s_now s) (s_votes s))
  end.

Fixpoint exec (s : system) (acts : list action) : option system :=
  match acts with
  | [] => Some s
  | a :: acts => s ← step s a; exec s acts
  end.

(** [n] servers that [Make] has just made, at time [now]. *)
Definition init (n : nat) (now : Z) : system :=
  System ((λ i, Make n (Z.of_nat i)) <$> seq 0 n) (replicate n (Some now)) [] now [].

End Raft.
