(* ===== verification/RaftVotes.v ===== *)
(** * Votes in the Raft election

    In every state of the system terms have only grown, and a server has
    voted for at most one candidate in a term, whatever messages are lost or
    late. *)
From S2P Require Import Prelude Raft.
Import Raft.
Local Open Scope Z_scope.

Module RaftVotes.

Implicit Types (s : system) (rf : Raft) (t : thread) (i j v : nat) (T c : Z).

(** ** What every block of code does to a server *)

Record evolves rf rf' : Prop := {
  ev_me : me rf' = me rf;
  ev_peers : peers rf' = peers rf;
  ev_term : currentTerm rf ≤ currentTerm rf';
  ev_vote : currentTerm rf' = currentTerm rf → votedFor rf' = votedFor rf ∨ votedFor rf = -1;
}.

Lemma RequestVote_evolves now rf args : evolves rf (RequestVote now rf args).1.
Proof.
  unfold RequestVote. destruct (Z.ltb_spec (rv_Term args) (currentTerm rf)); [split; simpl; auto; lia|].
  destruct (Z.ltb_spec (currentTerm rf) (rv_Term args)); simpl; [split; simpl; auto; lia|].
  destruct (Z.eqb_spec (votedFor rf) (-1)), (Z.eqb_spec (votedFor rf) (CandidateId args)); simpl;
    split; simpl; auto; lia.
Qed.

Lemma RequestVote_granted now rf args :
  VoteGranted (RequestVote now rf args).2 = true →
  currentTerm (RequestVote now rf args).1 = rv_Term args ∧ votedFor (RequestVote now rf args).1 = CandidateId args.
Proof.
  unfold RequestVote. destruct (Z.ltb_spec (rv_Term args) (currentTerm rf)); [done|].
  destruct (Z.ltb_spec (currentTerm rf) (rv_Term args)); simpl; [done|].
  destruct (_ || _); simpl; [|done]. intros _. split; [lia|done].
Qed.

Lemma GetHeartbeat_evolves now rf args reply : evolves rf (GetHeartbeat now rf args reply).1.
Proof. unfold GetHeartbeat. destruct (Z.ltb_spec (ae_Term args) (currentTerm rf)); split; simpl; auto; lia. Qed.

Lemma emitElection_evolves rf : evolves rf (emitElection rf).1.
Proof. split; simpl; auto; lia. Qed.

Lemma count_vote_evolves rf : evolves rf (count_vote rf).1.
Proof. unfold count_vote. simpl. destruct (_ && _); split; simpl; auto; lia. Qed.

Lemma answer_evolves rf reply : evolves rf (heartbeat_answer rf reply).
Proof. unfold heartbeat_answer. destruct (_ <? _); split; simpl; auto; lia. Qed.

Lemma evolves_refl rf : evolves rf rf.
Proof. split; auto; lia. Qed.

Lemma Kill_evolves rf : evolves rf (Kill rf).
Proof. split; simpl; auto; lia. Qed.

Lemma ticker_evolves rf start : evolves rf (ticker_check rf start).1.
Proof. split; simpl; auto; lia. Qed.

#[export] Hint Resolve RequestVote_evolves GetHeartbeat_evolves emitElection_evolves count_vote_evolves
  answer_evolves evolves_refl Kill_evolves ticker_evolves : raft.

(** ** The invariant *)

(** The candidate a thread asks for votes for. *)
Definition thread_ok (n : nat) t : Prop :=
  match t with
  | AskVote i j args => (i < n)%nat ∧ CandidateId args = Z.of_nat i
  | _ => True
  end.

Record Inv s : Prop := {
  inv_me i rf : s_servers s !! i = Some rf → me rf = Z.of_nat i ∧ peers rf = length (s_servers s);
  inv_threads t : t ∈ s_threads s → thread_ok (length (s_servers s)) t;
  inv_votes v T c : (v, T, c) ∈ s_votes s →
    0 ≤ c ∧ ∃ rf, s_servers s !! v = Some rf ∧ T ≤ currentTerm rf ∧ (T = currentTerm rf → votedFor rf = c);
  inv_once v T c c' : (v, T, c) ∈ s_votes s → (v, T, c') ∈ s_votes s → c = c';
}.

(** A step of one server, which casts at most its vote of its new term. *)
Lemma Inv_update s j rf rf' votes tickers threads now :
  Inv s → s_servers s !! j = Some rf → evolves rf rf' →
  (∀ x, x ∈ votes → x = (j, currentTerm rf', votedFor rf') ∧ 0 ≤ votedFor rf') →
  (∀ t, t ∈ threads → thread_ok (length (s_servers s)) t) →
  Inv (System (<[j := rf']> (s_servers s)) tickers threads now (s_votes s ++ votes)).
Proof.
  intros [Hme Hth Hv Honce] Hj [E1 E2 E3 E4] Hnew Hths.
  assert (Hold : ∀ v T c, (v, T, c) ∈ s_votes s → 0 ≤ c ∧
     ∃ rf, <[j := rf']> (s_servers s) !! v = Some rf ∧ T ≤ currentTerm rf ∧ (T = currentTerm rf → votedFor rf = c)).
  { intros v T c Hin. destruct (Hv v T c Hin) as (Hc & rf0 & Hrf0 & HT & Hvf). split; [done|].
    destruct (decide (j = v)) as [->|Hne]; [|exists rf0; by rewrite list_lookup_insert_ne].
    simplify_eq. exists rf'. rewrite list_lookup_insert_eq by (by eapply lookup_lt_Some).
    split_and!; [done|lia|]. intros ->. specialize (Hvf ltac:(lia)). destruct E4; [lia| |]; lia. }
  split; simpl.
  - intros i rf0. rewrite length_insert. destruct (decide (j = i)) as [->|Hne].
    + rewrite list_lookup_insert_eq by (by eapply lookup_lt_Some). intros [= <-]. rewrite E1, E2. by apply Hme.
    + rewrite list_lookup_insert_ne by done. apply Hme.
  - rewrite length_insert. done.
  - intros v T c [Hin|Hin]%elem_of_app; [by apply Hold|]. destruct (Hnew _ Hin) as [[= -> -> ->] H0].
    split; [done|]. exists rf'. rewrite list_lookup_insert_eq by (by eapply lookup_lt_Some). split_and!; [done|lia|done].
  - intros v T c c' [H1|H1]%elem_of_app [H2|H2]%elem_of_app; [by eapply Honce|..].
    + destruct (Hnew _ H2) as [[= -> -> ->] _]. destruct (Hold _ _ _ H1) as (_ & rf0 & Hrf0 & _ & Hvf).
      rewrite list_lookup_insert_eq in Hrf0 by (by eapply lookup_lt_Some). simplify_eq. symmetry. by apply Hvf.
    + destruct (Hnew _ H1) as [[= -> -> ->] _]. destruct (Hold _ _ _ H2) as (_ & rf0 & Hrf0 & _ & Hvf).
      rewrite list_lookup_insert_eq in Hrf0 by (by eapply lookup_lt_Some). simplify_eq. by apply Hvf.
    + destruct (Hnew _ H1) as [[= -> -> ->] _], (Hnew _ H2) as [[= ->] _]. done.
Qed.

Lemma Inv_quiet s tickers threads now :
  Inv s → (∀ t, t ∈ threads → thread_ok (length (s_servers s)) t) →
  Inv (System (s_servers s) tickers threads now (s_votes s ++ [])).
Proof. intros [Hme Hth Hv Honce] Hths. rewrite app_nil_r. by split. Qed.

(** The threads a step leaves. *)
Lemma threads_after s k ts :
  Inv s → (∀ t, t ∈ ts → thread_ok (length (s_servers s)) t) →
  ∀ t, t ∈ delete k (s_threads s) ++ ts → thread_ok (length (s_servers s)) t.
Proof.
  intros HI Hts t [Ht|Ht]%elem_of_app; [|by apply Hts]. apply (inv_threads _ HI).
  apply list_elem_of_lookup in Ht as [i Hi]. rewrite list_lookup_delete in Hi. 
  case_decide; by eapply list_elem_of_lookup_2.
Qed.

(** [s'] is a later state than [s]. *)
Definition later s s' : Prop :=
  length (s_servers s') = length (s_servers s) ∧ s_votes s `prefix_of` s_votes s' ∧
  ∀ i rf, s_servers s !! i = Some rf → ∃ rf', s_servers s' !! i = Some rf' ∧ currentTerm rf ≤ currentTerm rf'.

#[export] Instance later_preorder : PreOrder later.
Proof.
  split.
  - intros s. split_and!; [done|done|]. intros i rf Hi. exists rf. split; [done|lia].
  - intros s1 s2 s3 (L1 & V1 & T1) (L2 & V2 & T2). split_and!; [congruence|by etrans|].
    intros i rf (rf2 & H2 & ?)%T1. destruct (T2 i rf2 H2) as (rf3 & H3 & ?). exists rf3. split; [done|lia].
Qed.

Lemma later_update s j rf rf' votes tickers threads now :
  s_servers s !! j = Some rf → currentTerm rf ≤ currentTerm rf' →
  later s (System (<[j := rf']> (s_servers s)) tickers threads now (s_votes s ++ votes)).
Proof.
  intros Hj HT. split_and!; simpl; [by rewrite length_insert|by apply prefix_app_r|].
  intros i rf0 Hi. destruct (decide (j = i)) as [->|Hne].
  - simplify_eq. exists rf'. by rewrite list_lookup_insert_eq by (by eapply lookup_lt_Some).
  - exists rf0. rewrite list_lookup_insert_ne by done. split; [done|lia].
Qed.

Lemma later_quiet s tickers threads now votes : later s (System (s_servers s) tickers threads now (s_votes s ++ votes)).
Proof. split_and!; simpl; [done|by apply prefix_app_r|]. intros i rf Hi. exists rf. split; [done|lia]. Qed.

Lemma run_ok s k t servers ts votes :
  Inv s → s_threads s !! k = Some t → run_thread (length (s_servers s)) (s_now s) (s_servers s) t = Some (servers, ts, votes) →
  let s' := System servers (s_tickers s) (delete k (s_threads s) ++ ts) (s_now s) (s_votes s ++ votes) in
  Inv s' ∧ later s s'.
Proof.
  intros HI Hk. pose proof (inv_threads _ HI t (list_elem_of_lookup_2 _ _ _ Hk)) as Ht.
  assert (Hup : ∀ j rf rf' vs ts0, s_servers s !! j = Some rf → evolves rf rf' →
     (∀ x, x ∈ vs → x = (j, currentTerm rf', votedFor rf') ∧ 0 ≤ votedFor rf') →
     (∀ t, t ∈ ts0 → thread_ok (length (s_servers s)) t) →
     let s' := System (<[j := rf']> (s_servers s)) (s_tickers s) (delete k (s_threads s) ++ ts0) (s_now s) (s_votes s ++ vs) in
     Inv s' ∧ later s s').
  { intros j rf rf' vs ts0 Hj HE Hvs Hts. split; [|by eapply later_update, ev_term].
    eapply Inv_update; [done|done|done|done|]. by apply threads_after. }
  assert (Hquiet : ∀ ts0, (∀ t, t ∈ ts0 → thread_ok (length (s_servers s)) t) →
     let s' := System (s_servers s) (s_tickers s) (delete k (s_threads s) ++ ts0) (s_now s) (s_votes s ++ []) in
     Inv s' ∧ later s s').
  { intros ts0 Hts. split; [|apply later_quiet]. apply Inv_quiet; [done|]. by apply threads_after. }
  destruct t as [i|i j args|i j args reply|i|i args j|i|i j args|i j reply]; cbn [run_thread].
  - destruct (s_servers s !! i) as [rf|] eqn:Hi; [|done]. cbn [mbind option_bind].
    destruct (emitElection rf) as [rf' args] eqn:E. intros [= <- <- <-]. destruct (inv_me _ HI i rf Hi) as [Hm _].
    unfold emitElection in E. injection E as <- <-. apply (Hup i rf); [done|by apply emitElection_evolves|..].
    + simpl. intros x ->%list_elem_of_singleton. rewrite Hm. split; [done|lia].
    + simpl. intros t (j & -> & Hj)%list_elem_of_fmap. simpl. rewrite Hm. split; [by eapply lookup_lt_Some|done].
  - destruct (s_servers s !! j) as [rf|] eqn:Hj; [|done]. cbn [mbind option_bind].
    pose proof (RequestVote_evolves (s_now s) rf args) as HE.
    pose proof (RequestVote_granted (s_now s) rf args) as HG.
    destruct (RequestVote (s_now s) rf args) as [rf' reply]. intros [= <- <- <-]. simpl in HE, HG.
    destruct Ht as [Hi Hcid]. apply (Hup j rf); [done|done| |by intros t ->%list_elem_of_singleton].
    destruct (VoteGranted reply); [|by intros x ?%elem_of_nil]. destruct (HG eq_refl) as [-> ->].
    intros x ->%list_elem_of_singleton. rewrite Hcid. split; [done|lia].
  - destruct (VoteGranted reply); [|intros [= <- <- <-]; apply Hquiet; by intros t ?%elem_of_nil].
    destruct (s_servers s !! i) as [rf|] eqn:Hi; [|done]. cbn [mbind option_bind].
    pose proof (count_vote_evolves rf) as HE. destruct (count_vote rf) as [rf' leader]. intros [= <- <- <-].
    apply (Hup i rf); [done|done|by intros x ?%elem_of_nil|]. destruct leader; [by intros t ->%list_elem_of_singleton|].
    by intros t ?%elem_of_nil.
  - destruct (s_servers s !! i); [|done]. intros [= <- <- <-]. apply Hquiet. by intros t ->%list_elem_of_singleton.
  - destruct (s_servers s !! i) as [rf|]; [|done]. cbn [mbind option_bind].
    repeat case_match; intros [= <- <- <-]; apply Hquiet; set_unfold; naive_solver.
  - destruct (s_servers s !! i) as [rf|]; [|done]. cbn [mbind option_bind]. intros [= <- <- <-]. apply Hquiet.
    case_match; set_unfold; naive_solver.
  - destruct (s_servers s !! j) as [rf|] eqn:Hj; [|done]. cbn [mbind option_bind].
    pose proof (GetHeartbeat_evolves (s_now s) rf args (MkHeartbeatReply 0 false)) as HE.
    destruct (GetHeartbeat _ _ _ _) as [rf' reply]. intros [= <- <- <-].
    apply (Hup j rf); [done|done|by intros x ?%elem_of_nil|by intros t ->%list_elem_of_singleton].
  - destruct (s_servers s !! i) as [rf|] eqn:Hi; [|done]. cbn [mbind option_bind]. intros [= <- <- <-].
    apply (Hup i rf); [done|by apply answer_evolves|by intros x ?%elem_of_nil|by intros t ?%elem_of_nil].
Qed.

Lemma step_ok s a s' : Inv s → step s a = Some s' → Inv s' ∧ later s s'.
Proof.
  intros HI. assert (Hnil : s_votes s = s_votes s ++ []) by by rewrite app_nil_r.
  destruct a as [d|i rnd|k|k|i]; cbn [step].
  - case_match; [|done]. intros [= <-]. rewrite Hnil.
    split; [by apply (Inv_quiet s); [|apply inv_threads]|apply (later_quiet s)].
  - destruct (s_servers s !! i) as [rf|] eqn:Hi; [|done]. cbn [mbind option_bind].
    destruct (s_tickers s !! i) as [[start|]|]; [|done..]. cbn [mbind option_bind]. case_match; [|done].
    pose proof (ticker_evolves rf start) as HE. destruct (ticker_check rf start) as [rf' elect]. intros [= <-].
    rewrite Hnil. split; [|by eapply later_update, ev_term].
    apply (Inv_update s i rf); [done|done|done|by intros x ?%elem_of_nil|].
    intros t [Ht|Ht]%elem_of_app; [by apply (inv_threads _ HI)|]. destruct elect; [|by apply elem_of_nil in Ht].
    by apply list_elem_of_singleton in Ht as ->.
  - destruct (s_threads s !! k) as [t|] eqn:Hk; [|done]. cbn [mbind option_bind].
    destruct (run_thread _ _ _ _) as [[[servers ts] votes]|] eqn:Hr; [|done]. cbn [mbind option_bind].
    intros [= <-]. by eapply run_ok.
  - destruct (s_threads s !! k) as [t|] eqn:Hk; [|done]. cbn [mbind option_bind]. case_match; [|done].
    intros [= <-]. rewrite Hnil. split; [|apply later_quiet]. apply Inv_quiet; [done|].
    rewrite <- (app_nil_r (delete _ _)). apply threads_after; [done|]. by intros t' ?%elem_of_nil.
  - destruct (s_servers s !! i) as [rf|] eqn:Hi; [|done]. cbn [mbind option_bind]. intros [= <-]. rewrite Hnil.
    split; [|by eapply later_update, ev_term, Kill_evolves].
    apply (Inv_update s i rf); [done|done|apply Kill_evolves|by intros x ?%elem_of_nil|apply (inv_threads _ HI)].
Qed.

Lemma exec_ok s acts s' : Inv s → exec s acts = Some s' → Inv s' ∧ later s s'.
Proof.
  revert s. induction acts as [|a acts IH]; intros s HI; simpl; [by intros [= <-]|].
  destruct (step s a) as [s1|] eqn:E; [|done]. cbn [mbind option_bind]. intros Hex.
  destruct (step_ok _ _ _ HI E) as [HI1 HL1]. destruct (IH s1 HI1 Hex) as [HI' HL']. split; [done|by etrans].
Qed.

Lemma init_server n now i rf : s_servers (init n now) !! i = Some rf → rf = Make n (Z.of_nat i) ∧ (i < n)%nat.
Proof.
  simpl. rewrite list_lookup_fmap. intros (j & Hj & ->)%fmap_Some. apply lookup_seq in Hj as [-> ?]. done.
Qed.

Lemma raft_Inv_init n now : Inv (init n now).
Proof.
  split; simpl.
  - intros i rf Hi. destruct (init_server n now i rf Hi) as [-> _]. by rewrite length_fmap, length_seq.
  - by intros t ?%elem_of_nil.
  - by intros v T c ?%elem_of_nil.
  - by intros v T c c' ?%elem_of_nil.
Qed.

(** ** The properties *)

(** C27: a server votes for at most one candidate in a term: in every run of any
    number of servers, with requests, replies and timers in any order and any
    messages lost, two votes a server has cast in the same term are for the
    same candidate. *)
Theorem one_vote_per_term n now acts s v T c c' :
  exec (init n now) acts = Some s → (v, T, c) ∈ s_votes s → (v, T, c') ∈ s_votes s → c = c'.
Proof.
  intros Hex. destruct (exec_ok _ _ _ (raft_Inv_init n now) Hex) as [HI _]. apply HI.
Qed.

(** The term of a server never decreases, and votes that have been cast
    are never for a term the voter has not reached. *)
Theorem terms_grow n now acts1 acts2 s1 s2 :
  exec (init n now) acts1 = Some s1 → exec s1 acts2 = Some s2 →
  (∀ i rf, s_servers s1 !! i = Some rf →
     ∃ rf', s_servers s2 !! i = Some rf' ∧ currentTerm rf ≤ currentTerm rf' ∧ me rf' = me rf) ∧
  (∀ v T c, (v, T, c) ∈ s_votes s2 → ∃ rf, s_servers s2 !! v = Some rf ∧ T ≤ currentTerm rf).
Proof.
  intros H1 H2. destruct (exec_ok _ _ _ (raft_Inv_init n now) H1) as [HI1 _]. destruct (exec_ok _ _ _ HI1 H2) as [HI2 (_ & _ & HT)].
  split.
  - intros i rf Hi. destruct (HT i rf Hi) as (rf' & Hi' & ?). exists rf'. split_and!; [done|done|].
    destruct (inv_me _ HI1 i rf Hi) as [-> _]. by destruct (inv_me _ HI2 i rf' Hi') as [-> _].
  - intros v T c Hv. destruct (inv_votes _ HI2 v T c Hv) as (_ & rf & ? & ? & _). eauto.
Qed.

(** The handler of a vote request. A request with an older term is refused
    and changes no vote; one with a newer term is always granted, and makes
    the server a follower in that term; in the current term the vote goes to
    the first candidate that asks and then only to it. The reply carries the
    term before the call, and in every case the election timer restarts. *)
Theorem RequestVote_cases now rf args :
  let '(rf', reply) := RequestVote now rf args in
  lastTimeReceiveRPC rf' = now ∧ rvr_Term reply = currentTerm rf ∧
  (rv_Term args < currentTerm rf → VoteGranted reply = false ∧ rf' = set_rpc_time rf now) ∧
  (currentTerm rf < rv_Term args → VoteGranted reply = true ∧ state rf' = Follower ∧
     currentTerm rf' = rv_Term args ∧ votedFor rf' = CandidateId args) ∧
  (rv_Term args = currentTerm rf → currentTerm rf' = currentTerm rf ∧ state rf' = state rf ∧
     (VoteGranted reply = true ↔ votedFor rf = -1 ∨ votedFor rf = CandidateId args) ∧
     votedFor rf' = if VoteGranted reply then CandidateId args else votedFor rf).
Proof.
  unfold RequestVote. destruct (Z.ltb_spec (rv_Term args) (currentTerm rf)) as [H1|H1]; simpl.
  { split_and!; intros; try done; lia. }
  destruct (Z.ltb_spec (currentTerm rf) (rv_Term args)) as [H2|H2]; simpl.
  { split_and!; intros; try done; lia. }
  destruct (Z.eqb_spec (votedFor rf) (-1)), (Z.eqb_spec (votedFor rf) (CandidateId args)); simpl;
    split_and!; intros; try split_and!; try done; try tauto; try lia.
Qed.

(** A ticker starts an election exactly when its server is not the leader
    and has received nothing since the wait began, and it leaves the server's
    term and vote alone. *)
Theorem ticker_elects rf startWaitTime :
  let '(rf', elect) := ticker_check rf startWaitTime in
  (elect = true ↔ lastTimeReceiveRPC rf < startWaitTime ∧ state rf ≠ Leader) ∧
  state rf' = state rf ∧ currentTerm rf' = currentTerm rf ∧ votedFor rf' = votedFor rf ∧
  ∀ rnd, 0 ≤ rnd → 300 * 10 ^ 6 ≤ ticker_wait rnd < 500 * 10 ^ 6.
Proof.
  unfold ticker_check. split_and!; try done.
  - destruct (Z.ltb_spec (lastTimeReceiveRPC rf) startWaitTime); [|split; [done|lia]].
    rewrite negb_true_iff, bool_decide_eq_false. tauto.
  - intros rnd _. unfold ticker_wait. pose proof (Z.mod_pos_bound rnd 200). lia.
Qed.
End RaftVotes.
