(* ===== verification/RaftTyping.v ===== *)
(** * Well-formed Raft systems

    A typing of the servers and goroutines of [src/6.5840/src/raft/raft.go]: the ranges
    of the fields and the servers and messages a goroutine holds. Every goroutine of
    a well-formed system can go on, and every run stays well-formed. *)
From S2P Require Import Prelude Raft.
Import Raft.
Local Open Scope Z_scope.

Module RaftTyping.

Section typing.
Context (n : nat).
Implicit Types (rf : Raft) (t : thread) (i j : nat) (servers : list Raft).

(** The number of a server. *)
Definition is_server (c : Z) : Prop := 0 ≤ c < Z.of_nat n.

(** What the fields of server [i] can be: who is not a follower has a term of its
    own and its own vote, and a leader has counted a majority. *)
Record server_ok i rf : Prop := ServerOk {
  so_peers : peers rf = n;
  so_me : me rf = Z.of_nat i;
  so_dead : dead rf = 0 ∨ dead rf = 1;
  so_term : 0 ≤ currentTerm rf;
  so_votedFor : votedFor rf = -1 ∨ is_server (votedFor rf);
  so_votes : 0 ≤ votednumber rf;
  so_running : state rf ≠ Follower → 0 < currentTerm rf ∧ 0 < votednumber rf;
  so_leader : state rf = Leader → Z.quot (Z.of_nat n) 2 < votednumber rf;
}.

Definition request_ok i (args : RequestVoteArgs) : Prop := CandidateId args = Z.of_nat i ∧ 0 < rv_Term args.
Definition beat_ok i (args : AppendEntries) : Prop := ae_LeaderID args = Z.of_nat i ∧ 0 ≤ ae_Term args.

(** Goroutines refer to servers that exist, send their own number, and never to
    themselves; no heartbeat is answered with a term. *)
Definition thread_ok t : Prop :=
  match t with
  | Emit i | Beat i | BeatCheck i => (i < n)%nat
  | AskVote i j args => (i < n)%nat ∧ (j < n)%nat ∧ i ≠ j ∧ request_ok i args
  | GotVote i j args reply => (i < n)%nat ∧ (j < n)%nat ∧ i ≠ j ∧ request_ok i args ∧ 0 ≤ rvr_Term reply
  | BeatLoop i args j => (i < n)%nat ∧ (j ≤ n)%nat ∧ beat_ok i args
  | SendBeat i j args => (i < n)%nat ∧ (j < n)%nat ∧ i ≠ j ∧ beat_ok i args
  | BeatReply i j reply => (i < n)%nat ∧ (j < n)%nat ∧ i ≠ j ∧ hb_Term reply = 0
  end.

Definition servers_ok servers : Prop := length servers = n ∧ ∀ i rf, servers !! i = Some rf → server_ok i rf.

Record system_ok (s : system) : Prop := SystemOk {
  sy_servers : servers_ok (s_servers s);
  sy_tickers : length (s_tickers s) = n;
  sy_threads : Forall thread_ok (s_threads s);
}.

(** ** Blocks of code *)

Lemma server_exists servers i : servers_ok servers → (i < n)%nat → ∃ rf, servers !! i = Some rf ∧ server_ok i rf.
Proof. intros [Hl Hs] Hi. destruct (lookup_lt_is_Some_2 servers i) as [rf Hrf]; [lia|]. eauto. Qed.

Lemma server_lt servers i rf : servers_ok servers → servers !! i = Some rf → (i < n)%nat.
Proof. intros [Hl _] Hrf%lookup_lt_Some. lia. Qed.

Lemma servers_insert servers i rf : servers_ok servers → server_ok i rf → servers_ok (<[i := rf]> servers).
Proof.
  intros [Hl Hs] Hrf. split; [by rewrite length_insert|]. intros j rf'. rewrite list_lookup_insert_Some.
  intros [(-> & <- & _)|[_ Hj]]; [done|by apply Hs].
Qed.

Lemma emitElection_typed i rf : (i < n)%nat → server_ok i rf → server_ok i (emitElection rf).1 ∧ request_ok i (emitElection rf).2.
Proof.
  intros Hi [H1 H2 H3 H4 H5 H6 H7 H8]. unfold emitElection. split; [split|split]; simpl; try done; try lia. right. unfold is_server. lia.
Qed.

Lemma RequestVote_typed now i j rf args : (i < n)%nat → server_ok j rf → request_ok i args →
  server_ok j (RequestVote now rf args).1 ∧ 0 ≤ rvr_Term (RequestVote now rf args).2.
Proof.
  intros Hi [H1 H2 H3 H4 H5 H6 H7 H8] [Hc Ht]. unfold RequestVote.
  assert (is_server (CandidateId args)) by (unfold is_server; lia).
  destruct (Z.ltb_spec (rv_Term args) (currentTerm rf)); simpl; [by split|].
  destruct (Z.ltb_spec (currentTerm rf) (rv_Term args)); simpl.
  - split; [|done]. split; simpl; try done; try lia. by right.
  - destruct (_ || _); simpl; (split; [|done]); split; simpl; try done. by right.
Qed.

Lemma GetHeartbeat_typed now i j rf args : server_ok j rf → beat_ok i args →
  server_ok j (GetHeartbeat now rf args (MkHeartbeatReply 0 false)).1 ∧ hb_Term (GetHeartbeat now rf args (MkHeartbeatReply 0 false)).2 = 0.
Proof.
  intros [H1 H2 H3 H4 H5 H6 H7 H8] [_ Ht]. unfold GetHeartbeat. destruct (_ <? _); simpl; (split; [|done]); by split.
Qed.

Lemma count_vote_typed i rf : server_ok i rf → server_ok i (count_vote rf).1.
Proof.
  intros [H1 H2 H3 H4 H5 H6 H7 H8]. unfold count_vote. simpl.
  destruct (bool_decide_reflect (state rf = Candidate)) as [E|E]; simpl.
  - rewrite E in H7, H8. specialize (H7 ltac:(done)). rewrite H1.
    destruct (Z.ltb_spec (Z.quot (Z.of_nat n) 2) (votednumber rf + 1)); split; simpl; try done; try lia; rewrite E; try done; lia.
  - split; simpl; try done; try lia; [intros Hs; specialize (H7 Hs)|intros Hs; specialize (H8 Hs)]; lia.
Qed.

Lemma answer_typed i rf reply : server_ok i rf → server_ok i (heartbeat_answer rf reply).
Proof. intros [H1 H2 H3 H4 H5 H6 H7 H8]. unfold heartbeat_answer. destruct (_ <? _); by split. Qed.

Lemma ticker_typed i rf start : server_ok i rf → server_ok i (ticker_check rf start).1.
Proof. intros [H1 H2 H3 H4 H5 H6 H7 H8]. by split. Qed.

Lemma Kill_typed i rf : server_ok i rf → server_ok i (Kill rf).
Proof. intros [H1 H2 H3 H4 H5 H6 H7 H8]. split; simpl; try done. by right. Qed.

Lemma Make_typed i : server_ok i (Make n (Z.of_nat i)).
Proof. split; simpl; try done; by left. Qed.

(** ** Progress and preservation *)

(** A goroutine of a well-formed system does not refer to a server that is not
    there, and what it leaves is well-formed. *)
Lemma run_thread_typed now servers t : servers_ok servers → thread_ok t →
  ∃ servers' ts votes, run_thread n now servers t = Some (servers', ts, votes) ∧ servers_ok servers' ∧ Forall thread_ok ts.
Proof.
  intros HS Ht. destruct t as [i|i j args|i j args reply|i|i args j|i|i j args|i j reply]; simpl in Ht |- *.
  - destruct (server_exists servers i HS Ht) as (rf & -> & Hrf). simpl. destruct (emitElection_typed i rf Ht Hrf) as [H1 H2].
    do 3 eexists. split; [done|]. split; [by apply servers_insert|]. apply Forall_fmap, Forall_forall.
    intros j [Hne Hj%elem_of_seq]%list_elem_of_filter. simpl. split_and!; try done; lia.
  - destruct Ht as (Hi & Hj & Hne & Ha). destruct (server_exists servers j HS Hj) as (rf & -> & Hrf). simpl.
    destruct (RequestVote_typed now i j rf args Hi Hrf Ha) as [H1 H2]. destruct (RequestVote now rf args) as [rf' reply].
    do 3 eexists. split; [done|]. split; [by apply servers_insert|]. apply Forall_singleton. by split_and!.
  - destruct Ht as (Hi & Hj & Hne & Ha & Hr). destruct (VoteGranted reply); [|by do 3 eexists].
    destruct (server_exists servers i HS Hi) as (rf & -> & Hrf). simpl. pose proof (count_vote_typed i rf Hrf) as H1.
    destruct (count_vote rf) as [rf' leader]. do 3 eexists. split; [done|]. split; [by apply servers_insert|].
    destruct leader; [by apply Forall_singleton|done].
  - destruct (server_exists servers i HS Ht) as (rf & -> & Hrf). simpl. do 3 eexists. split; [done|]. split; [done|].
    apply Forall_singleton. simpl. split_and!; [done|lia|]. unfold beat_ok. simpl. destruct Hrf. by split.
  - destruct Ht as (Hi & Hj & Ha). destruct (server_exists servers i HS Hi) as (rf & -> & Hrf). simpl.
    destruct (Nat.leb_spec n j) as [Hnj|Hnj]; [|destruct (Nat.eqb_spec i j) as [->|Hne]; [|case_bool_decide]];
      (do 3 eexists; split; [done|]; split; [done|]); rewrite ?Forall_cons, Forall_nil; simpl; split_and!; try done; try lia; try apply Ha.
  - destruct (server_exists servers i HS Ht) as (rf & -> & Hrf). simpl. do 3 eexists. split; [done|]. split; [done|].
    case_bool_decide; [by apply Forall_singleton|done].
  - destruct Ht as (Hi & Hj & Hne & Ha). destruct (server_exists servers j HS Hj) as (rf & -> & Hrf). simpl.
    destruct (GetHeartbeat_typed now i j rf args Hrf Ha) as [H1 H2]. destruct (GetHeartbeat _ _ _ _) as [rf' reply].
    do 3 eexists. split; [done|]. split; [by apply servers_insert|]. apply Forall_singleton. by split_and!.
  - destruct Ht as (Hi & Hj & Hne & Hr). destruct (server_exists servers i HS Hi) as (rf & -> & Hrf). simpl.
    do 3 eexists. split; [done|]. split; [|done]. apply servers_insert; [done|]. by apply answer_typed.
Qed.

Lemma step_typed s a s' : system_ok s → step s a = Some s' → system_ok s'.
Proof.
  intros [HS Ht Hth]. pose proof (proj1 HS) as Hl. destruct a as [d|i rnd|k|k|i]; simpl.
  - destruct (_ <=? _); [|done]. by intros [= <-].
  - destruct (s_servers s !! i) as [rf|] eqn:Erf; [|done]. simpl. destruct (s_tickers s !! i) as [[st|]|]; [|done..]. simpl.
    destruct (_ && _); [|done]. pose proof (server_lt _ _ _ HS Erf) as Hi. intros [= <-]. split; simpl.
    + apply servers_insert; [done|]. apply (ticker_typed i rf st). by apply HS.
    + by rewrite length_insert.
    + apply Forall_app. split; [done|]. destruct (if _ <? _ then _ else _); [by apply Forall_singleton|done].
  - destruct (s_threads s !! k) as [t|] eqn:Et; [|done]. simpl.
    destruct (run_thread_typed (s_now s) (s_servers s) t HS) as (sv & ts & vs & Er & HS' & Hts); [by eapply Forall_lookup_1|].
    rewrite Hl, Er. intros [= <-]. split; simpl; [done|done|]. apply Forall_app. split; [by apply Forall_delete|done].
  - destruct (s_threads s !! k) as [t|]; [|done]. simpl. destruct (calling t); [|done]. intros [= <-]. split; simpl; [done|done|by apply Forall_delete].
  - destruct (s_servers s !! i) as [rf|] eqn:Erf; [|done]. intros [= <-]. split; simpl; [|done|done].
    apply servers_insert; [done|]. by apply Kill_typed, HS.
Qed.

Lemma exec_typed s acts s' : system_ok s → exec s acts = Some s' → system_ok s'.
Proof.
  revert s. induction acts as [|a acts IH]; intros s HS; simpl; [by intros [= <-]|].
  destruct (step s a) as [s1|] eqn:E; [|done]. apply IH. by eapply step_typed.
Qed.

Lemma init_typed now : system_ok (init n now).
Proof.
  split; simpl; [|by rewrite length_replicate|done]. split; [by rewrite length_fmap, length_seq|].
  intros i rf (k & -> & [-> _]%lookup_seq)%list_lookup_fmap_Some. apply Make_typed.
Qed.

End typing.

(** C18: every state a run can reach is well-formed, and no goroutine is stuck in it:
    each has a next step, and after it the state is well-formed again. *)
Theorem raft_type_sound n now acts s : exec (init n now) acts = Some s →
  system_ok n s ∧ ∀ k, (k < length (s_threads s))%nat → ∃ s', step s (Run k) = Some s' ∧ system_ok n s'.
Proof.
  intros He. pose proof (exec_typed n _ acts s (init_typed n now) He) as Hs. split; [done|]. intros k Hk.
  destruct (lookup_lt_is_Some_2 _ _ Hk) as [t Ht]. pose proof Hs as [HS _ Hth].
  destruct (run_thread_typed n (s_now s) (s_servers s) t HS) as (sv & ts & vs & Er & _ & _); [by eapply Forall_lookup_1|].
  assert (Hst : ∃ s', step s (Run k) = Some s'). { eexists. simpl. rewrite Ht. cbn [mbind option_bind]. rewrite (proj1 HS), Er. done. }
  destruct Hst as [s' Hs']. exists s'. split; [done|]. by eapply step_typed.
Qed.

(** Three servers; the first starts an election. *)
Definition demo_acts : list action := [Advance (10 ^ 9); Wake 0 0; Run 0; Run 0].

Lemma raft_type_sound_witness : ∃ s, exec (init 3 0) demo_acts = Some s ∧ system_ok 3 s ∧ length (s_threads s) = 2%nat.
Proof.
  destruct (exec (init 3 0) demo_acts) as [s|] eqn:E; [|vm_compute in E; discriminate E]. exists s. split; [done|].
  split; [by apply (raft_type_sound 3 0 demo_acts s)|]. vm_compute in E. by injection E as <-.
Defined.

End RaftTyping.
