(* ===== verification/RaftElection.v ===== *)
(** * At most one leader in a term?

    The votes a candidate counts are granted replies to its requests, but the
    code does not compare the term of the request with its current term. When
    no vote of an earlier election is counted there is at most one leader in
    a term; when one is, there can be two. *)
From S2P Require Import Prelude Raft RaftVotes.
Import Raft RaftVotes.
Local Open Scope Z_scope.

Module RaftElection.

Implicit Types (s : system) (rf : Raft) (t : thread) (i j v : nat) (T c : Z).

(** ** Votes on their way *)

(** The request a thread has made: candidate, voter, term. *)
Definition request (t : thread) : option (nat * nat * Z) :=
  match t with
  | AskVote i j args | GotVote i j args _ => Some (i, j, rv_Term args)
  | _ => None
  end.

Definition requests (ts : list thread) : list (nat * nat * Z) := omap request ts.

(** What a thread of candidate [i] knows, given the servers and the votes. *)
Definition vote_thread_ok s t : Prop :=
  match t with
  | Emit i | Beat i => True
  | AskVote i j args =>
      i ≠ j ∧ CandidateId args = Z.of_nat i ∧ ∃ rf, s_servers s !! i = Some rf ∧ rv_Term args ≤ currentTerm rf
  | GotVote i j args reply =>
      i ≠ j ∧ CandidateId args = Z.of_nat i ∧ (∃ rf, s_servers s !! i = Some rf ∧ rv_Term args ≤ currentTerm rf) ∧
      (VoteGranted reply = true → (j, rv_Term args, Z.of_nat i) ∈ s_votes s)
  | _ => True
  end.

(** The votes server [i] has counted in its term: from distinct voters, none of
    which it is still waiting for. *)
Definition counted s i rf (vs : list nat) : Prop :=
  NoDup vs ∧ Z.of_nat (length vs) = votednumber rf ∧
  ∀ v, v ∈ vs → (v, currentTerm rf, Z.of_nat i) ∈ s_votes s ∧ (i, v, currentTerm rf) ∉ requests (s_threads s).

Record Counts s : Prop := {
  ct_inv : Inv s;
  ct_threads t : t ∈ s_threads s → vote_thread_ok s t;
  ct_requests : NoDup (requests (s_threads s));
  ct_counted i rf : s_servers s !! i = Some rf → state rf ≠ Follower → ∃ vs, counted s i rf vs;
  ct_leader i rf : s_servers s !! i = Some rf → state rf = Leader →
    Z.of_nat (length (s_servers s)) / 2 < votednumber rf;
}.

(** What a block of code other than an election or the counting of a vote
    does to a server. *)
Definition passive rf rf' : Prop :=
  evolves rf rf' ∧
  (state rf' ≠ Follower →
     state rf' = state rf ∧ currentTerm rf' = currentTerm rf ∧ votednumber rf' = votednumber rf).

Lemma RequestVote_passive now rf args : passive rf (RequestVote now rf args).1.
Proof.
  split; [apply RequestVote_evolves|]. unfold RequestVote.
  destruct (Z.ltb_spec (rv_Term args) (currentTerm rf)); [done|].
  destruct (Z.ltb_spec (currentTerm rf) (rv_Term args)); simpl; [done|]. by destruct (_ || _).
Qed.

Lemma GetHeartbeat_passive now rf args reply : passive rf (GetHeartbeat now rf args reply).1.
Proof. split; [apply GetHeartbeat_evolves|]. unfold GetHeartbeat. by destruct (_ <? _). Qed.

Lemma answer_passive rf reply : passive rf (heartbeat_answer rf reply).
Proof. split; [apply answer_evolves|]. unfold heartbeat_answer. by destruct (_ <? _). Qed.

Lemma Kill_passive rf : passive rf (Kill rf).
Proof. split; [apply Kill_evolves|done]. Qed.

Lemma ticker_passive rf start : passive rf (ticker_check rf start).1.
Proof. split; [apply ticker_evolves|done]. Qed.

Lemma passive_refl rf : passive rf rf.
Proof. split; [apply evolves_refl|done]. Qed.

(** A thread knows at a later time what it knew. *)
Lemma vote_thread_later s s' t : later s s' → vote_thread_ok s t → vote_thread_ok s' t.
Proof.
  intros (_ & HV & HT). destruct t; try done; simpl.
  - intros (? & ? & rf & Hi & ?). split_and!; [done|done|]. destruct (HT _ _ Hi) as (rf' & ? & ?). exists rf'. split; [done|lia].
  - intros (? & ? & (rf & Hi & ?) & Hv). split_and!; [done|done| |].
    + destruct (HT _ _ Hi) as (rf' & ? & ?). exists rf'. split; [done|lia].
    + intros Hg. eapply elem_of_prefix; [by apply Hv|done].
Qed.

(** A step of server [j] that is passive, by a thread whose request it keeps or drops. *)
Lemma Counts_passive s s' j rf rf' :
  Counts s → Inv s' → later s s' → s_servers s !! j = Some rf → s_servers s' = <[j := rf']> (s_servers s) →
  passive rf rf' → requests (s_threads s') ⊆+ requests (s_threads s) →
  (∀ t, t ∈ s_threads s' → t ∈ s_threads s ∨ vote_thread_ok s' t) → Counts s'.
Proof.
  intros [HI Hth Hreq Hcnt Hld] HI' HL Hj Hs' [HE HP] Hsub Hths.
  pose proof HL as (Hlen & HV & HT).
  assert (Hkeep : ∀ i rf0 vs, counted s i rf0 vs → counted s' i rf0 vs).
  { intros i rf0 vs (Hnd & Hl & Hv). split_and!; [done|done|]. intros v Hin. destruct (Hv v Hin) as [H1 H2].
    split; [by eapply elem_of_prefix|]. intros H3. apply H2. by eapply elem_of_submseteq. }
  split; [done|..].
  - intros t Ht. destruct (Hths t Ht) as [Hold|]; [|done]. eapply vote_thread_later; [done|by apply Hth].
  - apply submseteq_Permutation in Hsub as [l Hl]. rewrite Hl in Hreq. by apply NoDup_app in Hreq as [? _].
  - intros i rf0. rewrite Hs'. destruct (decide (j = i)) as [->|Hne].
    + rewrite list_lookup_insert_eq by (by eapply lookup_lt_Some). intros [= <-] Hst.
      destruct (HP Hst) as (E1 & E2 & E3). destruct (Hcnt i rf Hj) as [vs Hvs]; [congruence|].
      exists vs. apply Hkeep in Hvs as (Hnd & Hl & Hv). split_and!; [done|lia|]. by rewrite E2.
    + rewrite list_lookup_insert_ne by done. intros Hi Hst. destruct (Hcnt i rf0 Hi Hst) as [vs Hvs]. eauto.
  - intros i rf0. rewrite Hs', length_insert. destruct (decide (j = i)) as [->|Hne].
    + rewrite list_lookup_insert_eq by (by eapply lookup_lt_Some). intros [= <-] Hst.
      destruct HP as (E1 & _ & ->); [congruence|]. apply (Hld i rf); [done|congruence].
    + rewrite list_lookup_insert_ne by done. apply Hld.
Qed.

(** ** An election and a vote *)

Lemma requests_app ts ts' : requests (ts ++ ts') = requests ts ++ requests ts'.
Proof. apply omap_app. Qed.

Lemma requests_delete k ts t :
  ts !! k = Some t → requests ts ≡ₚ option_list (request t) ++ requests (delete k ts).
Proof.
  intros Hk. unfold requests. rewrite (delete_Permutation ts k t Hk) at 1. simpl. by destruct (request t).
Qed.

Lemma requests_emit i n args :
  requests ((λ j, AskVote i j args) <$> others n i) = (λ j, (i, j, rv_Term args)) <$> others n i.
Proof. induction (others n i) as [|j l IH]; [done|]. rewrite !fmap_cons. cbn. f_equal. exact IH. Qed.

Lemma others_NoDup n i : NoDup (others n i).
Proof. apply NoDup_filter, NoDup_seq. Qed.

Lemma delete_elem k (ts : list thread) t : t ∈ delete k ts → t ∈ ts.
Proof.
  intros [i Hi]%list_elem_of_lookup. rewrite list_lookup_delete in Hi. case_decide; by eapply list_elem_of_lookup_2.
Qed.

(** Server [i] starts an election. *)
Lemma Counts_emit s s' k i rf :
  Counts s → Inv s' → later s s' → s_threads s !! k = Some (Emit i) → s_servers s !! i = Some rf →
  s_servers s' = <[i := (emitElection rf).1]> (s_servers s) →
  s_threads s' = delete k (s_threads s) ++ ((λ j, AskVote i j (emitElection rf).2) <$> others (length (s_servers s)) i) →
  s_votes s' = s_votes s ++ [(i, currentTerm rf + 1, me rf)] → Counts s'.
Proof.
  intros [HI Hth Hreq Hcnt Hld] HI' HL Hk Hi Hs' Ht' Hv'.
  destruct (inv_me _ HI i rf Hi) as [Hme _].
  assert (Hi' : s_servers s' !! i = Some (emitElection rf).1)
    by (rewrite Hs'; apply list_lookup_insert_eq; by eapply lookup_lt_Some).
  assert (Hr : requests (s_threads s') = requests (delete k (s_threads s)) ++
               ((λ j, (i, j, currentTerm rf + 1)) <$> others (length (s_servers s)) i)).
  { by rewrite Ht', requests_app, requests_emit. }
  assert (Hrd : requests (s_threads s) ≡ₚ requests (delete k (s_threads s))) by (by rewrite (requests_delete k _ _ Hk)).
  assert (Hold : ∀ i' v T, (i', v, T) ∈ requests (s_threads s) → ∃ rf', s_servers s !! i' = Some rf' ∧ T ≤ currentTerm rf').
  { intros i' v T (t & Ht & E)%list_elem_of_omap. specialize (Hth t Ht).
    destruct t; simpl in *; simplify_eq; naive_solver. }
  split; [done|..].
  - intros t. rewrite Ht'. intros [Ht%delete_elem|(j & -> & [Hj _]%list_elem_of_filter)%list_elem_of_fmap]%elem_of_app.
    + eapply vote_thread_later; [done|by apply Hth].
    + simpl. split_and!; [done|done|]. exists (emitElection rf).1. split; [done|simpl; lia].
  - rewrite Hr. apply NoDup_app. split_and!.
    + by rewrite <- Hrd.
    + intros [[i' v] T] Hin (j & [= -> -> ->] & _)%list_elem_of_fmap. rewrite <- Hrd in Hin.
      destruct (Hold _ _ _ Hin) as (rf' & ? & ?). simplify_eq. lia.
    + apply NoDup_fmap_2; [|apply others_NoDup]. by intros j j' [= ->].
  - intros i' rf0. destruct (decide (i = i')) as [<-|Hne].
    + rewrite Hi'. intros [= <-] _. exists [i]. split_and!; [apply NoDup_singleton|done|].
      intros v ->%list_elem_of_singleton. simpl. rewrite Hv', <- Hme, Hr. split; [set_solver|].
      intros [Hin|(j & [= ->] & [Hj _]%list_elem_of_filter)%list_elem_of_fmap]%elem_of_app; [|done].
      rewrite <- Hrd in Hin. destruct (Hold _ _ _ Hin) as (rf' & ? & ?). simplify_eq. lia.
    + rewrite Hs', list_lookup_insert_ne by done. intros Hi0 Hst. destruct (Hcnt i' rf0 Hi0 Hst) as (vs & Hnd & Hl & Hvs).
      exists vs. split_and!; [done|done|]. intros v Hin. destruct (Hvs v Hin) as [H1 H2]. rewrite Hv', Hr, Hrd in *.
      split; [set_solver|]. intros [H3|(j & [= -> _ _] & _)%list_elem_of_fmap]%elem_of_app; [|done]. by apply H2.
  - intros i' rf0. rewrite Hs', length_insert. destruct (decide (i = i')) as [<-|Hne].
    + rewrite list_lookup_insert_eq by (by eapply lookup_lt_Some). by intros [= <-].
    + rewrite list_lookup_insert_ne by done. apply Hld.
Qed.

(** Server [i] counts a vote of its current term. *)
Lemma Counts_count s s' k i j args reply rf :
  Counts s → Inv s' → later s s' → s_threads s !! k = Some (GotVote i j args reply) → VoteGranted reply = true →
  s_servers s !! i = Some rf → rv_Term args = currentTerm rf →
  s_servers s' = <[i := (count_vote rf).1]> (s_servers s) →
  s_threads s' = delete k (s_threads s) ++ (if (count_vote rf).2 then [Beat i] else []) →
  s_votes s' = s_votes s → Counts s'.
Proof.
  intros [HI Hth Hreq Hcnt Hld] HI' HL Hk Hgr Hi HT Hs' Ht' Hv'.
  destruct (inv_me _ HI i rf Hi) as [Hme Hpeers].
  pose proof (Hth _ (list_elem_of_lookup_2 _ _ _ Hk)) as (_ & _ & _ & Hvote). specialize (Hvote Hgr).
  assert (Hr : requests (s_threads s) ≡ₚ (i, j, currentTerm rf) :: requests (s_threads s')).
  { rewrite (requests_delete k _ _ Hk), Ht', requests_app. simpl. rewrite HT.
    replace (requests (if (count_vote rf).2 then [Beat i] else [])) with (@nil (nat * nat * Z)) by (by destruct (_).2).
    by rewrite app_nil_r. }
  assert (Hcv : currentTerm (count_vote rf).1 = currentTerm rf ∧ votednumber (count_vote rf).1 = votednumber rf + 1 ∧
     (state (count_vote rf).1 ≠ Follower → state rf ≠ Follower) ∧
     (state (count_vote rf).1 = Leader → state rf = Leader ∨ Z.of_nat (peers rf) / 2 < votednumber rf + 1)).
  { unfold count_vote. simpl. case_bool_decide as Ec; simpl; [|by split_and!; auto].
    destruct (Z.ltb_spec (Z.quot (Z.of_nat (peers rf)) 2) (votednumber rf + 1)) as [Hq|Hq]; simpl.
    - rewrite Z.quot_div_nonneg in Hq by lia. split_and!; auto. congruence.
    - split_and!; auto. }
  destruct Hcv as (Ec1 & Ec2 & Ec3 & Ec4).
  split; [done|..].
  - intros t. rewrite Ht'. intros [Ht%delete_elem|Ht]%elem_of_app; [eapply vote_thread_later; [done|by apply Hth]|].
    destruct (_).2; [|by apply elem_of_nil in Ht]. by apply list_elem_of_singleton in Ht as ->.
  - rewrite Hr in Hreq. by apply NoDup_cons in Hreq as [_ ?].
  - intros i' rf0. rewrite Hs'. destruct (decide (i = i')) as [<-|Hne].
    + rewrite list_lookup_insert_eq by (by eapply lookup_lt_Some). intros [= <-] Hst.
      destruct (Hcnt i rf Hi (Ec3 Hst)) as (vs & Hnd & Hl & Hvs). exists (j :: vs).
      rewrite Hr in Hreq. apply NoDup_cons in Hreq as [Hni _]. unfold counted. rewrite Ec1, Ec2, Hv'. split_and!.
      * constructor; [|done]. intros Hin. destruct (Hvs j Hin) as [_ Hno]. apply Hno. rewrite Hr. set_solver.
      * simpl. lia.
      * intros v [->|Hin]%elem_of_cons; [by rewrite <- HT at 1|]. destruct (Hvs v Hin) as [H1 H2].
        split; [done|]. intros H3. apply H2. rewrite Hr. set_solver.
    + rewrite list_lookup_insert_ne by done. intros Hi0 Hst. destruct (Hcnt i' rf0 Hi0 Hst) as (vs & Hnd & Hl & Hvs).
      exists vs. split_and!; [done|done|]. intros v Hin. destruct (Hvs v Hin) as [H1 H2]. rewrite Hv'. split; [done|].
      intros H3. apply H2. rewrite Hr. set_solver.
  - intros i' rf0. rewrite Hs', length_insert. destruct (decide (i = i')) as [<-|Hne].
    + rewrite list_lookup_insert_eq by (by eapply lookup_lt_Some). intros [= <-] Hst. rewrite Ec2, <- Hpeers.
      destruct (Ec4 Hst) as [Hl|]; [|done]. specialize (Hld i rf Hi Hl). rewrite <- Hpeers in Hld. lia.
    + rewrite list_lookup_insert_ne by done. apply Hld.
Qed.

(** ** Runs that count no vote of an earlier election *)

(** The vote that thread [k] counts, if it counts one, was asked for in the
    current term of the candidate. *)
Definition fresh s (a : action) : bool :=
  match a with
  | Run k =>
      match s_threads s !! k with
      | Some (GotVote i j args reply) =>
          match s_servers s !! i with
          | Some rf => negb (VoteGranted reply) || (rv_Term args =? currentTerm rf)
          | None => true
          end
      | _ => true
      end
  | _ => true
  end.

Fixpoint fresh_run s (acts : list action) : bool :=
  match acts with
  | [] => true
  | a :: acts => fresh s a && match step s a with Some s' => fresh_run s' acts | None => true end
  end.

Lemma submseteq_requests k ts t ts' :
  ts !! k = Some t → requests ts' ⊆+ option_list (request t) → requests (delete k ts ++ ts') ⊆+ requests ts.
Proof.
  intros Hk Hsub. rewrite (requests_delete k ts t Hk), requests_app.
  rewrite (Permutation_app_comm (requests (delete k ts))). by apply submseteq_app.
Qed.

Lemma Counts_quiet s s' :
  Counts s → Inv s' → later s s' → s_servers s' = s_servers s → requests (s_threads s') ⊆+ requests (s_threads s) →
  (∀ t, t ∈ s_threads s' → t ∈ s_threads s ∨ vote_thread_ok s' t) → Counts s'.
Proof.
  intros HC HI' HL Hs' Hsub Hths. destruct (s_servers s) as [|rf l] eqn:E.
  - destruct HC as [HI Hth Hreq Hcnt Hld]. split; [done|..].
    + intros t Ht. destruct (Hths t Ht) as [Hold|]; [|done]. eapply vote_thread_later; [done|by apply Hth].
    + apply submseteq_Permutation in Hsub as [l Hl]. rewrite Hl in Hreq. by apply NoDup_app in Hreq as [? _].
    + intros i rf0. rewrite Hs', lookup_nil. done.
    + intros i rf0. rewrite Hs', lookup_nil. done.
  - apply (Counts_passive s s' 0 rf rf); try done; [by rewrite E|by rewrite Hs', E|apply passive_refl].
Qed.

Lemma Counts_run s k s' : Counts s → fresh s (Run k) = true → step s (Run k) = Some s' → Counts s'.
Proof.
  intros HC Hfr Hstep. pose proof (ct_inv _ HC) as HI. destruct (step_ok _ _ _ HI Hstep) as [HI' HL].
  cbn [step fresh] in Hstep, Hfr. destruct (s_threads s !! k) as [t|] eqn:Hk; [|done]. cbn [mbind option_bind] in Hstep.
  destruct (run_thread _ _ _ _) as [[[servers ts] votes]|] eqn:Hr; [|done]. cbn [mbind option_bind] in Hstep.
  injection Hstep as <-.
  pose proof (ct_threads _ HC t (list_elem_of_lookup_2 _ _ _ Hk)) as Ht.
  set (s' := System _ _ _ _ _) in *.
  assert (Hths : (∀ t', t' ∈ ts → vote_thread_ok s' t') → ∀ t', t' ∈ s_threads s' → t' ∈ s_threads s ∨ vote_thread_ok s' t').
  { intros Hok t' [Hin%delete_elem|Hin]%elem_of_app; [by left|right; by apply Hok]. }
  assert (Hsub : requests ts ⊆+ option_list (request t) → requests (s_threads s') ⊆+ requests (s_threads s)).
  { by apply submseteq_requests. }
  destruct t as [i|i j args|i j args reply|i|i args j|i|i j args|i j reply]; cbn [run_thread] in Hr.
  - destruct (s_servers s !! i) as [rf|] eqn:Hi; [|done]. cbn [mbind option_bind] in Hr.
    destruct (inv_me _ HI i rf Hi) as [Hm _]. unfold emitElection in Hr. injection Hr as <- <- <-.
    by apply (Counts_emit s s' k i rf).
  - destruct (s_servers s !! j) as [rf|] eqn:Hj; [|done]. cbn [mbind option_bind] in Hr.
    pose proof (RequestVote_passive (s_now s) rf args) as HP. destruct (RequestVote (s_now s) rf args) as [rf' reply].
    injection Hr as <- <- <-. apply (Counts_passive s s' j rf rf'); try done; [by apply Hsub|].
    apply Hths. intros t' ->%list_elem_of_singleton. destruct (vote_thread_later _ _ _ HL Ht) as (? & Hc & ?).
    simpl. split_and!; [done..|]. intros Hg. rewrite Hg, Hc. set_solver.
  - destruct (VoteGranted reply) eqn:Hg; cycle 1.
    { injection Hr as <- <- <-. apply (Counts_quiet s); try done; [apply Hsub; simpl; apply submseteq_nil_l|].
      apply Hths. by intros t' ?%elem_of_nil. }
    destruct (s_servers s !! i) as [rf|] eqn:Hi; [|done]. cbn [mbind option_bind] in Hr. simpl in Hfr.
    apply Z.eqb_eq in Hfr. destruct (count_vote rf) as [rf' leader] eqn:Ecv. injection Hr as <- <- <-.
    apply (Counts_count s s' k i j args reply rf); try done; [by rewrite Ecv|by rewrite Ecv|]. simpl. by rewrite app_nil_r.
  - destruct (s_servers s !! i); [|done]. injection Hr as <- <- <-.
    apply (Counts_quiet s); try done; [apply Hsub; simpl; apply submseteq_nil_l|].
    apply Hths. by intros t' ->%list_elem_of_singleton.
  - destruct (s_servers s !! i) as [rf|]; [|done]. cbn [mbind option_bind] in Hr.
    assert (Hq : servers = s_servers s ∧ requests ts = [] ∧ ∀ t', t' ∈ ts → vote_thread_ok s' t').
    { repeat case_match; injection Hr as <- <- <-; (split_and!; [done|done|]); set_unfold; naive_solver. }
    destruct Hq as (Hq1 & Hq2 & Hq3). apply (Counts_quiet s); try done; [|by apply Hths].
    apply Hsub. rewrite Hq2. apply submseteq_nil_l.
  - destruct (s_servers s !! i) as [rf|]; [|done]. cbn [mbind option_bind] in Hr.
    assert (Hq : servers = s_servers s ∧ requests ts = [] ∧ ∀ t', t' ∈ ts → vote_thread_ok s' t').
    { case_match; injection Hr as <- <- <-; (split_and!; [done|done|]); set_unfold; naive_solver. }
    destruct Hq as (Hq1 & Hq2 & Hq3). apply (Counts_quiet s); try done; [|by apply Hths].
    apply Hsub. rewrite Hq2. apply submseteq_nil_l.
  - destruct (s_servers s !! j) as [rf|] eqn:Hj; [|done]. cbn [mbind option_bind] in Hr.
    pose proof (GetHeartbeat_passive (s_now s) rf args (MkHeartbeatReply 0 false)) as HP.
    destruct (GetHeartbeat _ _ _ _) as [rf' reply]. injection Hr as <- <- <-.
    apply (Counts_passive s s' j rf rf'); try done; [apply Hsub; simpl; apply submseteq_nil_l|].
    apply Hths. by intros t' ->%list_elem_of_singleton.
  - destruct (s_servers s !! i) as [rf|] eqn:Hi; [|done]. cbn [mbind option_bind] in Hr. injection Hr as <- <- <-.
    apply (Counts_passive s s' i rf (heartbeat_answer rf reply)); try done; [apply answer_passive| |].
    + apply Hsub. simpl. apply submseteq_nil_l.
    + apply Hths. by intros t' ?%elem_of_nil.
Qed.

Lemma Counts_step s a s' : Counts s → fresh s a = true → step s a = Some s' → Counts s'.
Proof.
  intros HC Hfr Hstep. destruct a as [d|i rnd|k|k|i]; [| |by eapply Counts_run| |];
    destruct (step_ok _ _ _ (ct_inv _ HC) Hstep) as [HI' HL]; cbn [step] in Hstep; clear Hfr.
  - case_match; [|done]. injection Hstep as <-. by apply (Counts_quiet s); auto.
  - destruct (s_servers s !! i) as [rf|] eqn:Hi; [|done]. cbn [mbind option_bind] in Hstep.
    destruct (s_tickers s !! i) as [[start|]|]; [|done..]. cbn [mbind option_bind] in Hstep. case_match; [|done].
    pose proof (ticker_passive rf start) as HP. destruct (ticker_check rf start) as [rf' elect]. injection Hstep as <-.
    apply (Counts_passive s _ i rf rf'); try done; simpl.
    + rewrite requests_app. destruct elect; simpl; by rewrite app_nil_r.
    + intros t [Ht|Ht]%elem_of_app; [by left|right]. destruct elect; [|by apply elem_of_nil in Ht].
      by apply list_elem_of_singleton in Ht as ->.
  - destruct (s_threads s !! k) as [t|] eqn:Hk; [|done]. cbn [mbind option_bind] in Hstep. case_match; [|done].
    injection Hstep as <-. apply (Counts_quiet s); try done; simpl.
    + rewrite <- (app_nil_r (delete k (s_threads s))). eapply submseteq_requests; [done|]. apply submseteq_nil_l.
    + intros t' Ht'%delete_elem. by left.
  - destruct (s_servers s !! i) as [rf|] eqn:Hi; [|done]. cbn [mbind option_bind] in Hstep. injection Hstep as <-.
    apply (Counts_passive s _ i rf (Kill rf)); try done; [apply Kill_passive|]. by left.
Qed.

Lemma Counts_exec s acts s' : Counts s → fresh_run s acts = true → exec s acts = Some s' → Counts s'.
Proof.
  revert s. induction acts as [|a acts IH]; intros s HC; simpl; [by intros _ [= <-]|].
  intros [Hf Hr]%andb_true_iff. destruct (step s a) as [s1|] eqn:E; [|done]. cbn [mbind option_bind].
  apply IH; [by eapply Counts_step|done].
Qed.

Lemma Counts_init n now : Counts (init n now).
Proof.
  split; simpl; [apply raft_Inv_init|by intros t ?%elem_of_nil|constructor|..];
    intros i rf Hi; destruct (init_server n now i rf Hi) as [-> _]; done.
Qed.

(** A leader has the votes of a majority in its term. *)
Definition elected (votes : list vote) n i T : Prop :=
  ∃ vs, NoDup vs ∧ Z.of_nat n / 2 < Z.of_nat (length vs) ∧ ∀ v, v ∈ vs → (v < n)%nat ∧ (v, T, Z.of_nat i) ∈ votes.

Lemma leader_elected s i rf :
  Counts s → s_servers s !! i = Some rf → state rf = Leader → elected (s_votes s) (length (s_servers s)) i (currentTerm rf).
Proof.
  intros HC Hi Hl. destruct (ct_counted _ HC i rf Hi) as (vs & Hnd & Hlen & Hvs); [congruence|].
  exists vs. split_and!; [done|rewrite Hlen; by eapply (ct_leader _ HC)|]. intros v Hv. destruct (Hvs v Hv) as [Hin _].
  split; [|done]. destruct (inv_votes _ (ct_inv _ HC) _ _ _ Hin) as (_ & rf' & Hrf' & _). by eapply lookup_lt_Some.
Qed.

(** Two majorities have a voter in common. *)
Lemma majorities_meet n (vs vs' : list nat) :
  NoDup vs → NoDup vs' → Z.of_nat n / 2 < Z.of_nat (length vs) → Z.of_nat n / 2 < Z.of_nat (length vs') →
  (∀ v, v ∈ vs → (v < n)%nat) → (∀ v, v ∈ vs' → (v < n)%nat) → ∃ v, v ∈ vs ∧ v ∈ vs'.
Proof.
  intros Hnd Hnd' Hl Hl' Hb Hb'. destruct (decide (Exists (λ v, v ∈ vs') vs)) as [He|Hne].
  { apply Exists_exists in He as (v & ? & ?). eauto. }
  exfalso. assert (Hsub : vs ++ vs' ⊆+ seq 0 n).
  { apply NoDup_submseteq.
    - apply NoDup_app. split_and!; [done| |done]. intros v Hv Hv'. apply Hne, Exists_exists. eauto.
    - intros v [Hv|Hv]%elem_of_app; apply elem_of_seq; [specialize (Hb v Hv)|specialize (Hb' v Hv)]; lia. }
  apply submseteq_length in Hsub. rewrite length_app, length_seq in Hsub.
  pose proof (Z.div_mod (Z.of_nat n) 2). pose proof (Z.mod_pos_bound (Z.of_nat n) 2). lia.
Qed.

(** The leaders of two states of a run, in which no vote of an earlier election counts. *)
Lemma leaders_voted n now acts1 acts2 s1 s2 i1 i2 rf1 rf2 :
  exec (init n now) acts1 = Some s1 → exec s1 acts2 = Some s2 →
  fresh_run (init n now) acts1 = true → fresh_run s1 acts2 = true →
  s_servers s1 !! i1 = Some rf1 → state rf1 = Leader → s_servers s2 !! i2 = Some rf2 → state rf2 = Leader →
  elected (s_votes s1) n i1 (currentTerm rf1) ∧ (currentTerm rf1 = currentTerm rf2 → i1 = i2).
Proof.
  intros H1 H2 F1 F2 Hi1 Hl1 Hi2 Hl2.
  pose proof (Counts_exec _ _ _ (Counts_init n now) F1 H1) as HC1. pose proof (Counts_exec _ _ _ HC1 F2 H2) as HC2.
  destruct (exec_ok _ _ _ (raft_Inv_init n now) H1) as [HI1 (Hn1 & _ & _)].
  destruct (exec_ok _ _ _ HI1 H2) as [HI2 (Hn2 & HV & _)].
  assert (Hn : length (s_servers (init n now)) = n) by (simpl; by rewrite length_fmap, length_seq).
  destruct (leader_elected s1 i1 rf1 HC1 Hi1 Hl1) as (vs1 & Hnd1 & Hq1 & Hv1).
  destruct (leader_elected s2 i2 rf2 HC2 Hi2 Hl2) as (vs2 & Hnd2 & Hq2 & Hv2).
  rewrite Hn1, Hn in Hq1, Hv1. rewrite Hn2, Hn1, Hn in Hq2, Hv2. split; [by exists vs1|]. intros HT.
  destruct (majorities_meet n vs1 vs2 Hnd1 Hnd2 Hq1 Hq2) as (v & Hin1 & Hin2); [by intros v [? _]%Hv1|by intros v [? _]%Hv2|].
  destruct (Hv1 v Hin1) as [_ Hvote1], (Hv2 v Hin2) as [_ Hvote2]. rewrite <- HT in Hvote2.
  eapply elem_of_prefix in Hvote1; [|done]. pose proof (inv_once _ HI2 _ _ _ _ Hvote1 Hvote2). lia.
Qed.

(** ** The properties *)

(** C2: election safety, for the runs in which no server counts a vote it asked
    for in an earlier term: a leader has been voted for by a majority of
    the servers in its term, and if two servers are leader in the same term,
    at the same or at different times, they are the same server. *)
Theorem election_safety n now acts1 acts2 s1 s2 i1 i2 rf1 rf2 :
  exec (init n now) acts1 = Some s1 → exec s1 acts2 = Some s2 →
  fresh_run (init n now) acts1 = true → fresh_run s1 acts2 = true →
  s_servers s1 !! i1 = Some rf1 → state rf1 = Leader → s_servers s2 !! i2 = Some rf2 → state rf2 = Leader →
  elected (s_votes s1) n i1 (currentTerm rf1) ∧ (currentTerm rf1 = currentTerm rf2 → i1 = i2).
Proof. apply leaders_voted. Qed.
End RaftElection.
