(* ===== verification/RaftRuns.v ===== *)
(** * Runs of the Raft election

    Concrete runs, among them those in which two servers lead the same term
    and in which a server that is no longer leader deposes the new one, and
    what the code does in every run of a single server and with the replies
    to heartbeats. *)
From S2P Require Import Prelude Raft RaftVotes RaftElection.
Import Raft RaftVotes RaftElection.
Local Open Scope Z_scope.

Module RaftRuns.

Definition ms (n : Z) : Z := n * 10 ^ 6.

(** Server 0 times out, asks for votes, and wins with the vote of server 1. *)
Definition elect_0 : list action :=
  [Advance (ms 500); Wake 0 0; Run 0; Run 0; Lose 0; Run 0].

(** Server 0 is leader of term 1; server 1 times out twice, is elected in term
    2 by servers 0 and 2, and then the heartbeat goroutine of server 0 goes on. *)
Definition depose_1 : list action :=
  elect_0 ++ [Advance (ms 100); Wake 1 0; Advance (ms 600); Wake 1 0; Run 1; Run 1; Run 1; Run 1; Run 1;
              Run 0; Run 1; Run 1].

(** The reply to server 0's request of term 1 is on its way while server 0
    starts term 2; server 1 is elected in term 2 and then the reply arrives. *)
Definition stale_vote : list action :=
  [Advance (ms 500); Wake 0 0; Run 0; Run 0; Lose 0; Advance (ms 600); Wake 0 0; Run 1; Lose 1; Lose 1;
   Wake 1 0; Advance (ms 500); Wake 1 0; Run 1; Run 2; Run 2; Run 0].

Definition states (s : system) : list (ServerState * Z) := (λ rf, (state rf, currentTerm rf)) <$> s_servers s.

(** Two leaders in one term. The goroutine that receives a vote does not
    compare the term it asked for with the current one, so a vote of an
    earlier election is counted: in this run of three servers, where only messages
    are lost or late, servers 0 and 1 are both leader of term 2. *)
Theorem two_leaders_in_one_term :
  ∃ s, exec (init 3 0) stale_vote = Some s ∧ states s = [(Leader, 2); (Leader, 2); (Follower, 2)] ∧
       fresh_run (init 3 0) stale_vote = false.
Proof. eexists. split; [vm_compute; reflexivity|]. split; vm_compute; reflexivity. Qed.

(** A leader that has lost its term sends one more round of heartbeats, with
    the new term: [sendHeartBeat] reads the term, and only after sending looks
    whether the server still leads. In this run, in which every vote counted
    is of the current term, server 1 leads term 2 and server 0 follows, but its
    heartbeat, for term 2 and in its own name, makes server 1 a follower. *)
Theorem old_leader_deposes_new :
  ∃ s s', exec (init 3 0) depose_1 = Some s ∧ fresh_run (init 3 0) depose_1 = true ∧
    states s = [(Follower, 2); (Leader, 2); (Follower, 2)] ∧
    s_threads s !! 1%nat = Some (SendBeat 0 1 (MkAppendEntries 2 0 0 0)) ∧
    step s (Run 1) = Some s' ∧ states s' = [(Follower, 2); (Follower, 2); (Follower, 2)].
Proof.
  eexists _, _. split; [vm_compute; reflexivity|]. split; [vm_compute; reflexivity|].
  split; [vm_compute; reflexivity|]. split; [vm_compute; reflexivity|]. split; vm_compute; reflexivity.
Qed.

(** ** A server alone *)

Definition alone (s : system) : Prop :=
  length (s_servers s) = 1%nat ∧ requests (s_threads s) = [] ∧
  ∀ i rf, s_servers s !! i = Some rf → state rf ≠ Leader.

Lemma delete_none k (ts : list thread) : ts !! k = None → delete k ts = ts.
Proof.
  revert k. induction ts as [|t ts IH]; intros [|k] Hk; try done. cbn. f_equal. by apply IH.
Qed.

Lemma requests_nil_delete k ts : requests ts = [] → requests (delete k ts) = [].
Proof.
  intros E. destruct (ts !! k) as [t|] eqn:Hk.
  - pose proof (requests_delete k ts t Hk) as Hp. rewrite E in Hp. symmetry in Hp.
    apply Permutation_nil_r, app_nil in Hp. tauto.
  - by rewrite delete_none.
Qed.

Lemma not_request ts k t : requests ts = [] → ts !! k = Some t → request t = None.
Proof.
  intros E Hk. pose proof (requests_delete k ts t Hk) as Hp. rewrite E in Hp. symmetry in Hp.
  apply Permutation_nil_r, app_nil in Hp as [Hp _]. by destruct (request t).
Qed.

Lemma alone_update s j rf rf' tickers threads now votes :
  alone s → s_servers s !! j = Some rf → (state rf' = Leader → state rf = Leader) → requests threads = [] →
  alone (System (<[j := rf']> (s_servers s)) tickers threads now votes).
Proof.
  intros (Hl & _ & Hst) Hj Hlead Hr. split_and!; simpl; [by rewrite length_insert|done|].
  intros i rf0. destruct (decide (j = i)) as [->|Hne].
  - rewrite list_lookup_insert_eq by (by eapply lookup_lt_Some). intros [= <-] Hs. by eapply Hst, Hlead.
  - rewrite list_lookup_insert_ne by done. apply Hst.
Qed.

Lemma alone_step s a s' : alone s → step s a = Some s' → alone s'.
Proof.
  intros HA. pose proof HA as (Hl & Hr & Hst). destruct a as [d|i rnd|k|k|i]; cbn [step].
  - case_match; [|done]. by intros [= <-].
  - destruct (s_servers s !! i) as [rf|] eqn:Hi; [|done]. cbn [mbind option_bind].
    destruct (s_tickers s !! i) as [[start|]|]; [|done..]. cbn [mbind option_bind]. case_match; [|done].
    intros [= <-]. eapply alone_update; [done|done|done|]. rewrite requests_app, Hr. by case_match.
  - destruct (s_threads s !! k) as [t|] eqn:Hk; [|done]. cbn [mbind option_bind].
    pose proof (not_request _ _ _ Hr Hk) as Hn. rewrite Hl.
    assert (Hdel : ∀ ts, requests ts = [] → requests (delete k (s_threads s) ++ ts) = []).
    { intros ts Hts. by rewrite requests_app, Hts, (requests_nil_delete k _ Hr). }
    destruct t as [i| | |i|i args j|i|i j args|i j reply]; try done; cbn [run_thread].
    + destruct (s_servers s !! i) as [rf|] eqn:Hi; [|done]. cbn. intros [= <-].
      eapply alone_update; [done|done|done|]. apply Hdel. apply lookup_lt_Some in Hi. assert (i = 0%nat) as -> by lia. done.
    + destruct (s_servers s !! i) as [rf|] eqn:Hi; [|done]. cbn. intros [= <-]. split_and!; [done| |done]. by apply Hdel.
    + destruct (s_servers s !! i) as [rf|] eqn:Hi; [|done]. cbn [mbind option_bind].
      repeat case_match; cbn; intros; simplify_eq; (split_and!; [done| |done]); by apply Hdel.
    + destruct (s_servers s !! i) as [rf|] eqn:Hi; [|done]. cbn. intros [= <-]. split_and!; [done| |done].
      apply Hdel. by case_match.
    + destruct (s_servers s !! j) as [rf|] eqn:Hj; [|done]. cbn [mbind option_bind]. unfold GetHeartbeat.
      destruct (ae_Term args <? currentTerm rf); cbn [mbind option_bind]; intros [= <-];
        (eapply alone_update; [exact HA|exact Hj|done|by apply Hdel]).
    + destruct (s_servers s !! i) as [rf|] eqn:Hi; [|done]. cbn. intros [= <-].
      eapply alone_update; [done|done| |by apply Hdel]. unfold heartbeat_answer. by case_match.
  - destruct (s_threads s !! k) as [t|] eqn:Hk; [|done]. cbn [mbind option_bind]. case_match; [|done].
    intros [= <-]. split_and!; [done|by apply requests_nil_delete|done].
  - destruct (s_servers s !! i) as [rf|] eqn:Hi; [|done]. cbn. intros [= <-]. by eapply alone_update.
Qed.

Lemma alone_exec s acts s' : alone s → exec s acts = Some s' → alone s'.
Proof.
  revert s. induction acts as [|a acts IH]; intros s HA; simpl; [by intros [= <-]|].
  destruct (step s a) as [s1|] eqn:E; [|done]. cbn [mbind option_bind]. apply IH. by eapply alone_step.
Qed.

(** A cluster of one server never has a leader: the majority is only looked
    at when a vote of another server arrives. *)
Theorem single_server_never_leads now acts s i rf :
  exec (init 1 now) acts = Some s → s_servers s !! i = Some rf → state rf ≠ Leader.
Proof.
  intros Hex. assert (HA : alone (init 1 now)).
  { split_and!; [done|done|]. intros j rf0 Hj. by destruct (init_server 1 now j rf0 Hj) as [-> _]. }
  destruct (alone_exec _ _ _ HA Hex) as (_ & _ & H). apply H.
Qed.

(** ** Replies to heartbeats *)

Definition zero_replies (s : system) : Prop := ∀ i j reply, BeatReply i j reply ∈ s_threads s → hb_Term reply = 0.

Lemma zero_replies_step s a s' : zero_replies s → step s a = Some s' → zero_replies s'.
Proof.
  intros HZ. destruct a as [d|i rnd|k|k|i]; cbn [step].
  - case_match; [|done]. by intros [= <-].
  - destruct (s_servers s !! i) as [rf|]; [|done]. destruct (s_tickers s !! i) as [[start|]|]; [|done..].
    cbn [mbind option_bind]. case_match; [|done]. destruct (ticker_check rf start) as [rf' elect]. intros [= <-] i' j' reply.
    simpl. intros [Ht|Ht]%elem_of_app; [by eapply HZ|]. destruct elect; set_solver.
  - destruct (s_threads s !! k) as [t|]; [|done]. cbn [mbind option_bind].
    destruct (run_thread _ _ _ _) as [[[servers ts] votes]|] eqn:Hr; [|done]. cbn [mbind option_bind].
    intros [= <-] i' j' reply. simpl. intros [Ht%delete_elem|Ht]%elem_of_app; [by eapply HZ|].
    destruct t as [i|i j args|i j args r|i|i args j|i|i j args|i j r]; cbn [run_thread] in Hr.
    + destruct (s_servers s !! i); [|done]. cbn in Hr. simplify_eq. set_unfold. naive_solver.
    + destruct (s_servers s !! j) as [rf|]; [|done]. cbn [mbind option_bind] in Hr.
      destruct (RequestVote _ _ _). simplify_eq. set_solver.
    + destruct (VoteGranted r); [|simplify_eq; set_solver]. destruct (s_servers s !! i) as [rf|]; [|done].
      cbn [mbind option_bind] in Hr. destruct (count_vote rf) as [? []]; simplify_eq; set_solver.
    + destruct (s_servers s !! i); [|done]. cbn in Hr. simplify_eq. set_solver.
    + destruct (s_servers s !! i) as [rf|]; [|done]. cbn [mbind option_bind] in Hr. repeat case_match; simplify_eq; set_solver.
    + destruct (s_servers s !! i) as [rf|]; [|done]. cbn [mbind option_bind] in Hr. simplify_eq. case_match; set_solver.
    + destruct (s_servers s !! j) as [rf|]; [|done]. cbn [mbind option_bind] in Hr. unfold GetHeartbeat in Hr.
      destruct (ae_Term args <? currentTerm rf); simplify_eq; apply list_elem_of_singleton in Ht; by simplify_eq.
    + destruct (s_servers s !! i) as [rf|]; [|done]. cbn in Hr. simplify_eq. set_solver.
  - destruct (s_threads s !! k) as [t|]; [|done]. cbn [mbind option_bind]. case_match; [|done].
    intros [= <-] i' j' reply Ht%delete_elem. by eapply HZ.
  - destruct (s_servers s !! i); [|done]. cbn. by intros [= <-].
Qed.

(** The reply to a heartbeat never tells the leader that its term is old:
    [GetHeartbeat] does not set the term of its reply, so in every run every
    reply that arrives says term 0, and a server that receives one does not change. *)
Theorem heartbeat_replies_ignored n now acts s i j reply rf :
  exec (init n now) acts = Some s → BeatReply i j reply ∈ s_threads s → s_servers s !! i = Some rf →
  hb_Term reply = 0 ∧ heartbeat_answer rf reply = rf.
Proof.
  intros Hex Hin Hi.
  assert (HZ : zero_replies s).
  { assert (H0 : zero_replies (init n now)) by by intros i' j' r ?%elem_of_nil. clear Hin Hi. revert Hex H0.
    generalize (init n now). induction acts as [|a acts IH]; intros s0; simpl; [by intros [= <-]|].
    destruct (step s0 a) as [s1|] eqn:E; [|done]. cbn [mbind option_bind]. intros Hex H0.
    apply (IH s1 Hex). by eapply zero_replies_step. }
  pose proof (HZ _ _ _ Hin) as Hz. split; [done|]. unfold heartbeat_answer. rewrite Hz.
  destruct (exec_ok _ _ _ (raft_Inv_init n now) Hex) as [HI (Hlen & _ & HT)].
  destruct (lookup_lt_is_Some_2 (s_servers (init n now)) i) as [rf0 H0].
  { rewrite <- Hlen. by eapply lookup_lt_Some. }
  destruct (HT i rf0 H0) as (rf' & Hrf' & Hle). destruct (init_server n now i rf0 H0) as [-> _]. simplify_eq. simpl in Hle.
  destruct (Z.ltb_spec (currentTerm rf) 0); [lia|done].
Qed.

(** ** Witnesses *)

Definition end_of (acts : list action) : system := default (init 3 0) (exec (init 3 0) acts).

Lemma one_vote_per_term_witness :
  ∃ s, exec (init 3 0) depose_1 = Some s ∧ (0%nat, 1, 0) ∈ s_votes s ∧ (0%nat, 2, 1) ∈ s_votes s ∧
       ∀ c, (0%nat, 2, c) ∈ s_votes s → c = 1.
Proof.
  assert (E : exec (init 3 0) depose_1 = Some (end_of depose_1)) by (vm_compute; reflexivity).
  assert (H2 : (0%nat, 2, 1) ∈ s_votes (end_of depose_1)) by (apply (bool_decide_unpack _); vm_compute; exact I).
  exists (end_of depose_1). split; [exact E|]. split; [apply (bool_decide_unpack _); vm_compute; exact I|].
  split; [exact H2|]. intros c Hc. exact (one_vote_per_term 3 0 depose_1 _ 0 2 c 1 E Hc H2).
Defined.

Lemma terms_grow_witness :
  ∃ s2, exec (end_of elect_0) (drop 6 depose_1) = Some s2 ∧
    ∀ i rf, s_servers (end_of elect_0) !! i = Some rf →
      ∃ rf', s_servers s2 !! i = Some rf' ∧ currentTerm rf ≤ currentTerm rf' ∧ me rf' = me rf.
Proof.
  exists (end_of depose_1). split; [vm_compute; reflexivity|].
  apply (terms_grow 3 0 elect_0 (drop 6 depose_1)); vm_compute; reflexivity.
Defined.

Lemma election_safety_witness :
  ∃ s1 rf1, exec (init 3 0) elect_0 = Some s1 ∧ s_servers s1 !! 0%nat = Some rf1 ∧ state rf1 = Leader ∧
    elected (s_votes s1) 3 0 (currentTerm rf1).
Proof.
  eexists _, _. split; [vm_compute; reflexivity|]. split; [reflexivity|]. split; [reflexivity|].
  eapply (election_safety 3 0 elect_0 [] _ _ 0 0); try (vm_compute; reflexivity).
Defined.

Definition solo_acts : list action := [Advance (ms 500); Wake 0 0; Run 0].

Definition solo_end : system := default (init 1 0) (exec (init 1 0) solo_acts).

Lemma single_server_never_leads_witness :
  exec (init 1 0) solo_acts = Some solo_end ∧ states solo_end = [(Candidate, 1)] ∧
  ∀ i rf, s_servers solo_end !! i = Some rf → state rf ≠ Leader.
Proof.
  split; [vm_compute; reflexivity|]. split; [vm_compute; reflexivity|]. intros i rf Hi.
  apply (single_server_never_leads 0 solo_acts solo_end i rf); [vm_compute; reflexivity|exact Hi].
Defined.

(** Server 1 has a newer term than the leader 0 whose heartbeat it refuses. *)
Definition refused_beat : list action :=
  elect_0 ++ [Run 0; Run 0; Run 0; Advance (ms 100); Wake 1 0; Advance (ms 600); Wake 1 0; Run 2; Run 0].

Lemma heartbeat_replies_ignored_witness :
  ∃ s rf, exec (init 3 0) refused_beat = Some s ∧ states s = [(Leader, 1); (Candidate, 2); (Follower, 0)] ∧
    BeatReply 0 1 (MkHeartbeatReply 0 false) ∈ s_threads s ∧ s_servers s !! 0%nat = Some rf ∧
    heartbeat_answer rf (MkHeartbeatReply 0 false) = rf.
Proof.
  exists (end_of refused_beat). eexists. split; [vm_compute; reflexivity|]. split; [vm_compute; reflexivity|].
  assert (Hin : BeatReply 0 1 (MkHeartbeatReply 0 false) ∈ s_threads (end_of refused_beat)).
  { vm_compute. repeat (first [apply list_elem_of_here|apply list_elem_of_further]). }
  split; [exact Hin|]. split; [vm_compute; reflexivity|].
  eapply (heartbeat_replies_ignored 3 0 refused_beat (end_of refused_beat) 0 1); [vm_compute; reflexivity|exact Hin|vm_compute; reflexivity].
Defined.
End RaftRuns.
