(* ===== verification/RaftLiveness.v ===== *)
(** * Leaders can be elected, also two at once

    From every state the servers of [src/6.5840/src/raft/raft.go] can get into, a server
    that is not the leader and has not been killed can win an election: its
    ticker wakes up, it may have to start elections until its term is the greatest,
    and when the others have answered it leads and they follow. And when their
    answers are late, it can start another election, another server can win this
    one, and then the old answers make the first server leader of the same term. *)
From S2P Require Import Prelude Raft RaftTyping.
Import Raft RaftTyping.
Local Open Scope Z_scope.

Module RaftLiveness.

Section liveness.
Context (n : nat).
Implicit Types (s : system) (rf : Raft) (t : thread) (i j : nat) (T : Z).

(** What happens when no call fails and no server is killed. *)
Definition quiet (a : action) : bool := match a with Lose _ | KillServer _ => false | _ => true end.

Definition gets s s' : Prop := ∃ acts, exec s acts = Some s' ∧ forallb quiet acts = true.

Lemma raft_gets_refl s : gets s s.
Proof using Type. by exists []. Qed.

Lemma raft_exec_bind acts acts' s : exec s (acts ++ acts') = s ← exec s acts; exec s acts'.
Proof using Type. revert s. induction acts as [|a acts IH]; intros s; [done|]. cbn [app exec]. destruct (step s a); [apply IH|done]. Qed.

Lemma raft_gets_trans s1 s2 s3 : gets s1 s2 → gets s2 s3 → gets s1 s3.
Proof using Type.
  intros (a1 & E1 & Q1) (a2 & E2 & Q2). exists (a1 ++ a2). rewrite raft_exec_bind, E1, forallb_app, Q1. done.
Qed.

Lemma raft_gets_step s a s' : step s a = Some s' → quiet a = true → gets s s'.
Proof using Type. intros E Q. exists [a]. simpl. by rewrite E, Q. Qed.

(** ** Tickers *)

(** The ticker of a server that was not killed runs. *)
Definition ticking s : Prop := ∀ i rf, s_servers s !! i = Some rf → killed rf = false → ∃ start : Z, s_tickers s !! i = Some (Some start).

Lemma insert_dead (servers : list Raft) j rf rf' : servers !! j = Some rf → dead rf' = dead rf →
  ∀ i x', <[j := rf']> servers !! i = Some x' → ∃ x, servers !! i = Some x ∧ dead x' = dead x.
Proof using Type. intros Hj Hd i x'. rewrite list_lookup_insert_Some. intros [(<- & <- & _)|[_ Hi]]; eauto. Qed.

(** No goroutine kills a server. *)
Lemma run_thread_dead now servers t servers' ts votes : run_thread n now servers t = Some (servers', ts, votes) →
  ∀ i rf', servers' !! i = Some rf' → ∃ rf, servers !! i = Some rf ∧ dead rf' = dead rf.
Proof using Type.
  assert (Hid : ∀ i rf', servers !! i = Some rf' → ∃ rf, servers !! i = Some rf ∧ dead rf' = dead rf) by eauto.
  destruct t as [k|k j args|k j args reply|k|k args j|k|k j args|k j reply]; simpl.
  - destruct (servers !! k) as [rf|] eqn:E; [|done]. intros [= <- _ _]. by apply (insert_dead _ _ rf).
  - destruct (servers !! j) as [rf|] eqn:E; [|done]. simpl. destruct (RequestVote now rf args) as [rf' reply] eqn:ER. intros [= <- _ _].
    apply (insert_dead _ _ rf); [done|]. unfold RequestVote in ER. destruct (_ <? _); [by injection ER as <- _|].
    destruct (_ <? _); simpl in ER; [by injection ER as <- _|]. by destruct (_ || _); injection ER as <- _.
  - destruct (VoteGranted reply); [|by intros [= <- _ _]]. destruct (servers !! k) as [rf|] eqn:E; [|done]. simpl.
    destruct (count_vote rf) as [rf' leader] eqn:EC. intros [= <- _ _]. apply (insert_dead _ _ rf); [done|].
    unfold count_vote in EC. simpl in EC. by destruct (_ && _); injection EC as <- _.
  - destruct (servers !! k); [|done]. by intros [= <- _ _].
  - destruct (servers !! k); [|done]. simpl. intros H. by repeat case_match; injection H as <- _ _.
  - destruct (servers !! k); [|done]. by intros [= <- _ _].
  - destruct (servers !! j) as [rf|] eqn:E; [|done]. simpl. destruct (GetHeartbeat now rf args _) as [rf' reply] eqn:EG. intros [= <- _ _].
    apply (insert_dead _ _ rf); [done|]. unfold GetHeartbeat in EG. by destruct (_ <? _); injection EG as <- _.
  - destruct (servers !! k) as [rf|] eqn:E; [|done]. intros [= <- _ _]. apply (insert_dead _ _ rf); [done|].
    unfold heartbeat_answer. by destruct (_ <? _).
Qed.

End liveness.

Lemma ticking_step s a s' : ticking s → step s a = Some s' → ticking s'.
Proof.
  intros HT. destruct a as [d|i rnd|k|k|i]; simpl.
  - destruct (_ <=? _); [|done]. by intros [= <-].
  - destruct (s_servers s !! i) as [rf|] eqn:Erf; [|done]. simpl. destruct (s_tickers s !! i) as [[st|]|] eqn:Et; [|done..]. simpl.
    destruct (_ && _); [|done]. intros [= <-] j rfj. simpl. rewrite list_lookup_insert_Some. intros [(<- & <- & _)|[Hne Hj]] Hk.
    + rewrite list_lookup_insert_eq by (by eapply lookup_lt_Some). unfold killed in *. simpl in *. destruct (dead rf =? 1); [done|eauto].
    + rewrite list_lookup_insert_ne by done. by eapply HT.
  - destruct (s_threads s !! k) as [t|]; [|done]. simpl. destruct (run_thread _ _ _ t) as [[[sv ts] vs]|] eqn:Er; [|done].
    intros [= <-] j rfj Hj Hk. simpl in *. destruct (run_thread_dead _ _ _ _ _ _ _ Er j rfj Hj) as (rf & Hrf & Hd).
    apply (HT j rf); [done|]. unfold killed in *. by rewrite <- Hd.
  - destruct (s_threads s !! k) as [t|]; [|done]. simpl. destruct (calling t); [|done]. by intros [= <-].
  - destruct (s_servers s !! i) as [rf|] eqn:Erf; [|done]. intros [= <-] j rfj. simpl. rewrite list_lookup_insert_Some.
    intros [(<- & <- & _)|[_ Hj]]; [done|by apply HT].
Qed.

Lemma ticking_exec s acts s' : ticking s → exec s acts = Some s' → ticking s'.
Proof.
  revert s. induction acts as [|a acts IH]; intros s HS; simpl; [by intros [= <-]|].
  destruct (step s a) as [s1|] eqn:E; [|done]. apply IH. by eapply ticking_step.
Qed.

Lemma ticking_init n now : ticking (init n now).
Proof.
  intros i rf (k & -> & [-> Hk]%lookup_seq)%list_lookup_fmap_Some _. exists now. simpl. by apply lookup_replicate.
Qed.

Section election.
Context (n i : nat).
Implicit Types (s : system) (rf : Raft) (t : thread) (j : nat) (T start : Z) (pre post : list thread).

Definition good s : Prop := system_ok n s ∧ ticking s.

Lemma good_gets s s' : good s → gets s s' → good s'.
Proof using Type. intros [HS HT] (acts & E & _). split; [by eapply exec_typed|by eapply ticking_exec]. Qed.

(** A goroutine goes on. *)
Lemma run_at s pre t post sv ts vs : s_threads s = pre ++ t :: post →
  run_thread (length (s_servers s)) (s_now s) (s_servers s) t = Some (sv, ts, vs) →
  ∃ s', gets s s' ∧ s_servers s' = sv ∧ s_threads s' = pre ++ post ++ ts.
Proof using Type.
  intros Hth Hrun. eexists. split; [eapply (raft_gets_step _ (Run (length pre)))|split].
  - cbn [step]. rewrite Hth, list_lookup_middle by done. cbn [mbind option_bind]. rewrite Hrun. reflexivity.
  - done.
  - done.
  - simpl. by rewrite delete_middle, <- app_assoc.
Qed.

(** ** The candidate *)

(** The ticker wakes up as soon as it can. *)
Lemma wake_once s rf start : s_servers s !! i = Some rf → killed rf = false → s_tickers s !! i = Some (Some start) →
  ∃ s' ts, gets s s' ∧ s_servers s' = <[i := set_rpc_time rf start]> (s_servers s) ∧ s_threads s' = s_threads s ++ ts ∧
    s_tickers s' !! i = Some (Some (s_now s')) ∧ start + 300 * 10 ^ 6 ≤ s_now s' ∧
    (lastTimeReceiveRPC rf < start → state rf ≠ Leader → ts = [Emit i]).
Proof using Type.
  intros Hi Hk Ht. set (d := Z.max 0 (start + 300 * 10 ^ 6 - s_now s)).
  set (s1 := System (s_servers s) (s_tickers s) (s_threads s) (s_now s + d) (s_votes s)).
  assert (E1 : step s (Advance d) = Some s1) by (cbn [step]; by rewrite (proj2 (Z.leb_le 0 d)) by lia).
  assert (E2 : ∃ s2, step s1 (Wake i 0) = Some s2 ∧ s2 = System (<[i := set_rpc_time rf start]> (s_servers s))
    (<[i := Some (s_now s + d)]> (s_tickers s))
    (s_threads s ++ if (ticker_check rf start).2 then [Emit i] else []) (s_now s + d) (s_votes s)).
  { eexists. split; [|reflexivity]. cbn [step s_servers s_tickers s_now s_threads s_votes s1]. rewrite Hi, Ht. cbn [mbind option_bind].
    change (ticker_wait 0) with (300 * 10 ^ 6). rewrite (proj2 (Z.leb_le _ (s_now s + d))) by lia. simpl.
    unfold killed in *. simpl. by rewrite Hk. }
  destruct E2 as (s2 & E2 & ->). eexists _, _. split.
  { eapply raft_gets_trans; [by eapply (raft_gets_step s (Advance d))|by eapply (raft_gets_step s1 (Wake i 0))]. }
  cbn [s_servers s_tickers s_threads s_now]. split_and!; [done|done| |lia|].
  - apply list_lookup_insert_eq. by eapply lookup_lt_Some.
  - intros Hlt Hs. unfold ticker_check. simpl. rewrite (proj2 (Z.ltb_lt _ _) Hlt). by rewrite bool_decide_eq_false_2.
Qed.

Lemma wakes s rf : good s → s_servers s !! i = Some rf → killed rf = false → state rf ≠ Leader →
  ∃ s' ts x, gets s s' ∧ s_servers s' = <[i := set_rpc_time rf x]> (s_servers s) ∧ s_threads s' = (s_threads s ++ ts) ++ [Emit i].
Proof using Type.
  intros [_ HT] Hi Hk Hs. destruct (HT i rf Hi Hk) as [start Ht].
  destruct (wake_once s rf start Hi Hk Ht) as (s1 & ts1 & G1 & S1 & Th1 & T1 & N1 & _).
  destruct (wake_once s1 (set_rpc_time rf start) (s_now s1)) as (s2 & ts2 & G2 & S2 & Th2 & _ & _ & Hel); [|done|done|].
  { rewrite S1. apply list_lookup_insert_eq. by eapply lookup_lt_Some. }
  exists s2, ts1, (s_now s1). split_and!; [by eapply raft_gets_trans|rewrite S2, S1; by rewrite list_insert_insert_eq|].
  rewrite Th2, Th1, Hel; [done| |done]. simpl. lia.
Qed.

(** Server [i] is a candidate for term [T], and only its own vote is counted. *)
Definition candidate rf T : Prop :=
  state rf = Candidate ∧ currentTerm rf = T ∧ votednumber rf = 1 ∧ killed rf = false ∧ peers rf = n.

Definition ask T j : thread := AskVote i j (MkRequestVoteArgs T (Z.of_nat i) 0 0).

Lemma campaign s rf : good s → s_servers s !! i = Some rf → killed rf = false → state rf ≠ Leader →
  ∃ s' ts rf', gets s s' ∧ s_servers s' = <[i := rf']> (s_servers s) ∧ candidate rf' (currentTerm rf + 1) ∧
    s_threads s' = (s_threads s ++ ts) ++ (ask (currentTerm rf + 1) <$> others n i).
Proof using Type.
  intros HG Hi Hk Hs. pose proof HG as [[HS _ _] _]. destruct (proj2 HS i rf Hi) as [Hp Hme _ _ _ _ _ _].
  destruct (wakes s rf HG Hi Hk Hs) as (s1 & ts & x & G1 & S1 & Th1).
  assert (Hlen : length (s_servers s1) = n) by (rewrite S1, length_insert; apply HS).
  assert (Hrun : run_thread (length (s_servers s1)) (s_now s1) (s_servers s1) (Emit i) =
    Some (<[i := (emitElection (set_rpc_time rf x)).1]> (s_servers s1), ask (currentTerm rf + 1) <$> others n i,
          [(i, currentTerm rf + 1, me rf)])).
  { cbn [run_thread]. rewrite S1, list_lookup_insert_eq by (by eapply lookup_lt_Some). cbn [mbind option_bind].
    rewrite <- S1, Hlen. unfold ask. rewrite <- Hme. done. }
  destruct (run_at s1 _ (Emit i) [] _ _ _ Th1 Hrun) as (s2 & G2 & S2 & Th2).
  exists s2, ts, (emitElection (set_rpc_time rf x)).1. split_and!; [by eapply raft_gets_trans| |by split_and!|done].
  rewrite S2, S1. by rewrite list_insert_insert_eq.
Qed.

(** It starts elections until its term is as great as it should be. *)
Lemma campaigns k : ∀ s rf, good s → s_servers s !! i = Some rf → killed rf = false → state rf ≠ Leader →
  ∃ s' pre rf' T, gets s s' ∧ s_servers s' = <[i := rf']> (s_servers s) ∧ T = currentTerm rf + 1 + Z.of_nat k ∧ candidate rf' T ∧
    s_threads s' = pre ++ (ask T <$> others n i).
Proof using Type.
  induction k as [|k IH]; intros s rf HG Hi Hk Hs; destruct (campaign s rf HG Hi Hk Hs) as (s1 & ts & rf1 & G1 & S1 & C1 & Th1).
  - exists s1, (s_threads s ++ ts), rf1, (currentTerm rf + 1). split_and!; [done|done|lia|done|done].
  - pose proof C1 as (Hst & HT & _ & Hk1 & _).
    destruct (IH s1 rf1) as (s2 & pre2 & rf2 & T & G2 & S2 & -> & C2 & Th2); [by eapply good_gets| |done|congruence|].
    { rewrite S1. apply list_lookup_insert_eq. by eapply lookup_lt_Some. }
    exists s2, pre2, rf2, (currentTerm rf1 + 1 + Z.of_nat k). split_and!; [by eapply raft_gets_trans| |lia|done|done].
    rewrite S2, S1. by rewrite list_insert_insert_eq.
Qed.

(** ** The voters *)

Lemma grants now rf T c : currentTerm rf < T →
  VoteGranted (RequestVote now rf (MkRequestVoteArgs T c 0 0)).2 = true ∧
  currentTerm (RequestVote now rf (MkRequestVoteArgs T c 0 0)).1 = T ∧ state (RequestVote now rf (MkRequestVoteArgs T c 0 0)).1 = Follower.
Proof using Type.
  intros HT. unfold RequestVote. simpl. destruct (Z.ltb_spec T (currentTerm rf)); [lia|]. by destruct (Z.ltb_spec (currentTerm rf) T); [|lia].
Qed.

(** A vote for term [T] that has come back. *)
Definition granted T j t : Prop := ∃ reply, VoteGranted reply = true ∧ t = GotVote i j (MkRequestVoteArgs T (Z.of_nat i) 0 0) reply.

Definition behind s T j : Prop := ∃ rf, s_servers s !! j = Some rf ∧ currentTerm rf < T.
Definition follows s T j : Prop := ∃ rf, s_servers s !! j = Some rf ∧ currentTerm rf = T ∧ state rf = Follower.

Lemma asked T js : ∀ s pre post, s_threads s = pre ++ (ask T <$> js) ++ post → NoDup js → i ∉ js → (∀ j, j ∈ js → behind s T j) →
  ∃ s' gots, gets s s' ∧ s_threads s' = pre ++ post ++ gots ∧ Forall2 (granted T) js gots ∧
    (∀ j, j ∈ js → follows s' T j) ∧ (∀ j, j ∉ js → s_servers s' !! j = s_servers s !! j).
Proof using Type.
  induction js as [|j js IH]; intros s pre post Hth Hnd Hi Hb.
  { exists s, []. split_and!; [apply raft_gets_refl|by rewrite app_nil_r|done|by intros ? ?%elem_of_nil|done]. }
  apply NoDup_cons in Hnd as [Hj Hnd]. destruct (Hb j) as (rf & Hrf & HT); [by left|].
  destruct (grants (s_now s) rf T (Z.of_nat i) HT) as (Hg & HT' & Hst).
  destruct (RequestVote (s_now s) rf (MkRequestVoteArgs T (Z.of_nat i) 0 0)) as [rf' reply] eqn:ER. simpl in Hg, HT', Hst.
  assert (Hrun : run_thread (length (s_servers s)) (s_now s) (s_servers s) (ask T j) =
    Some (<[j := rf']> (s_servers s), [GotVote i j (MkRequestVoteArgs T (Z.of_nat i) 0 0) reply], [(j, T, Z.of_nat i)])).
  { cbn [run_thread ask]. rewrite Hrf. cbn [mbind option_bind]. by rewrite ER, Hg. }
  destruct (run_at s pre (ask T j) (map (ask T) js ++ post) _ _ _ Hth Hrun) as (s1 & G1 & S1 & Th1).
  destruct (IH s1 pre (post ++ [GotVote i j (MkRequestVoteArgs T (Z.of_nat i) 0 0) reply])) as (s2 & gots & G2 & Th2 & HF & Hf & Ho).
  - rewrite Th1. by rewrite !app_assoc.
  - done.
  - set_solver.
  - intros j' Hj'. destruct (Hb j') as (rf0 & H0 & H1); [by right|]. exists rf0. split; [|done]. rewrite S1, list_lookup_insert_ne; [done|congruence].
  - exists s2, (GotVote i j (MkRequestVoteArgs T (Z.of_nat i) 0 0) reply :: gots). split_and!.
    + by eapply raft_gets_trans.
    + rewrite Th2. by rewrite <- app_assoc.
    + constructor; [|done]. by exists reply.
    + intros j' [->|Hj']%elem_of_cons; [|by apply Hf]. exists rf'. rewrite Ho, S1 by done.
      split; [apply list_lookup_insert_eq; by eapply lookup_lt_Some|done].
    + intros j' [Hne Hj']%not_elem_of_cons. by rewrite Ho, S1, list_lookup_insert_ne by done.
Qed.

(** ** The count *)

(** Server [i] has [v] votes in term [T], when it counts votes for term [T']. *)
Definition has_votes s T v : Prop :=
  ∃ rf, s_servers s !! i = Some rf ∧ currentTerm rf = T ∧ peers rf = n ∧ votednumber rf = v ∧
    state rf = if Z.quot (Z.of_nat n) 2 <? v then Leader else Candidate.

Lemma counted T T' js gots : Forall2 (granted T') js gots → ∀ s pre post v, s_threads s = pre ++ gots ++ post → has_votes s T v →
  ∃ s', gets s s' ∧ has_votes s' T (v + Z.of_nat (length js)) ∧ (∀ j, j ≠ i → s_servers s' !! j = s_servers s !! j) ∧
    ∃ ts, s_threads s' = pre ++ post ++ ts.
Proof using Type.
  induction 1 as [|j t js gots (reply & Hg & ->) _ IH]; intros s pre post v Hth Hv.
  { exists s. simpl. rewrite Z.add_0_r. split_and!; [apply raft_gets_refl|done|done|]. exists []. by rewrite app_nil_r. }
  destruct Hv as (rf & Hrf & HT & Hp & Hn & Hst).
  assert (Hc : ∃ rf' l, count_vote rf = (rf', l) ∧ currentTerm rf' = T ∧ peers rf' = n ∧ votednumber rf' = v + 1 ∧
    state rf' = if Z.quot (Z.of_nat n) 2 <? v + 1 then Leader else Candidate).
  { unfold count_vote. simpl. rewrite Hp, Hn, Hst. destruct (Z.ltb_spec (Z.quot (Z.of_nat n) 2) v), (Z.ltb_spec (Z.quot (Z.of_nat n) 2) (v + 1)); simpl;
      try lia; by eexists _, _. }
  destruct Hc as (rf' & l & Hc & Hrf').
  edestruct (run_at s pre) as (s1 & G1 & S1 & Th1); [exact Hth| |].
  { cbn [run_thread]. rewrite Hg, Hrf. cbn [mbind option_bind]. rewrite Hc. reflexivity. }
  edestruct (IH s1 pre) as (s2 & G2 & V2 & O2 & ts & Th2).
  - rewrite Th1, <- app_assoc. reflexivity.
  - exists rf'. rewrite S1. split; [apply list_lookup_insert_eq; by eapply lookup_lt_Some|exact Hrf'].
  - exists s2. split_and!; [by eapply raft_gets_trans| | |].
    + replace (v + Z.of_nat (length (j :: js))) with (v + 1 + Z.of_nat (length js)) by (simpl; lia). done.
    + intros j' Hne. by rewrite O2, S1, list_lookup_insert_ne by done.
    + eexists. rewrite Th2, <- app_assoc. reflexivity.
Qed.

Lemma greatest_term (servers : list Raft) : ∃ M, 0 ≤ M ∧ ∀ j rf, servers !! j = Some rf → currentTerm rf ≤ M.
Proof using Type.
  induction servers as [|rf servers (M & HM & H)]; [by exists 0|]. exists (Z.max M (currentTerm rf)). split; [lia|].
  intros [|j] rf'; simpl; [intros [= <-]; lia|]. intros Hj. specialize (H j rf' Hj). lia.
Qed.

Lemma others_elem m k j : j ∈ others m k ↔ (j < m)%nat ∧ j ≠ k.
Proof using Type. unfold others. rewrite list_elem_of_filter, elem_of_seq. lia. Qed.

Lemma others_nodup m k : NoDup (others m k).
Proof using Type. apply NoDup_filter, NoDup_seq. Qed.

Lemma peers_length m k : (k < m)%nat → Z.of_nat (length (others m k)) = Z.of_nat m - 1.
Proof using Type.
  intros Hk. assert (Hperm : k :: others m k ≡ₚ seq 0 m).
  { apply NoDup_Permutation; [constructor; [by rewrite others_elem; intros [_ []]|apply others_nodup]|apply NoDup_seq|].
    intros x. rewrite elem_of_cons, others_elem, elem_of_seq. destruct (decide (x = k)); lia. }
  apply Permutation_length in Hperm. rewrite length_seq in Hperm. simpl in Hperm. lia.
Qed.

(** More than half. *)
Lemma majority v : (2 ≤ n)%nat → Z.of_nat n - 1 ≤ v → (3 ≤ n)%nat ∨ Z.of_nat n ≤ v → (Z.quot (Z.of_nat n) 2 <? v) = true.
Proof using Type.
  intros Hn Hv H. apply Z.ltb_lt. rewrite Z.quot_div_nonneg by lia. pose proof (Z.div_mod (Z.of_nat n) 2). pose proof (Z.mod_pos_bound (Z.of_nat n) 2). lia.
Qed.

Lemma candidate_votes s rf T : (2 ≤ n)%nat → s_servers s !! i = Some rf → candidate rf T → has_votes s T 1.
Proof using Type.
  intros Hn Hi (Hst & HT & Hv & _ & Hp). exists rf. split_and!; [done..|]. rewrite Hst. destruct (Z.ltb_spec (Z.quot (Z.of_nat n) 2) 1) as [Hq|]; [|done].
  pose proof (Z.quot_le_mono (2) (Z.of_nat n) 2). rewrite Z.quot_same in *; lia.
Qed.

(** A candidate for a term later than all there were, whom all others have voted for; it has
    not heard of it yet. *)
Lemma all_grant s rf : good s → s_servers s !! i = Some rf → killed rf = false → state rf ≠ Leader →
  ∃ s' T pre gots rf', gets s s' ∧ (∀ j rfj, s_servers s !! j = Some rfj → currentTerm rfj < T) ∧
    s_servers s' !! i = Some rf' ∧ candidate rf' T ∧ s_threads s' = pre ++ gots ∧ Forall2 (granted T) (others n i) gots ∧
    ∀ j, (j < n)%nat → j ≠ i → follows s' T j.
Proof using Type.
  intros HG Hi Hk Hs. destruct (greatest_term (s_servers s)) as (M & HM & Hmax).
  pose proof HG as [[[Hlen Hok] _ _] _]. pose proof (so_term _ _ _ (Hok i rf Hi)) as H0. apply lookup_lt_Some in Hi as Hlt.
  destruct (campaigns (Z.to_nat M) s rf HG Hi Hk Hs) as (s1 & pre & rf1 & T & G1 & S1 & HT & C1 & Th1).
  rewrite Z2Nat.id in HT by done.
  assert (Hlow : ∀ j rfj, s_servers s !! j = Some rfj → currentTerm rfj < T) by (intros j rfj Hj; specialize (Hmax j rfj Hj); lia).
  destruct (asked T (others n i) s1 pre []) as (s2 & gots & G2 & Th2 & HF & Hf & Hkeep).
  - by rewrite app_nil_r.
  - apply others_nodup.
  - by rewrite others_elem; intros [_ []].
  - intros j [Hj Hne]%others_elem. destruct (lookup_lt_is_Some_2 (s_servers s) j) as [rfj Hrfj]; [lia|]. exists rfj.
    split; [by rewrite S1, list_lookup_insert_ne by done|by eapply Hlow].
  - exists s2, T, pre, gots, rf1. split_and!; [by eapply raft_gets_trans|done| |done|by rewrite Th2|done|].
    + rewrite Hkeep by (by rewrite others_elem; intros [_ []]). rewrite S1. by apply list_lookup_insert_eq.
    + intros j Hj Hne. apply Hf. by apply others_elem.
Qed.

Lemma can_lead s rf : (2 ≤ n)%nat → good s → s_servers s !! i = Some rf → killed rf = false → state rf ≠ Leader →
  ∃ s' T, gets s s' ∧ (∀ j rfj, s_servers s !! j = Some rfj → currentTerm rfj < T) ∧
    ∀ j rfj, s_servers s' !! j = Some rfj → currentTerm rfj = T ∧ state rfj = if decide (j = i) then Leader else Follower.
Proof using Type.
  intros Hn HG Hi Hk Hs. destruct (all_grant s rf HG Hi Hk Hs) as (s1 & T & pre & gots & rf1 & G1 & Hlow & Hi1 & C1 & Th1 & HF & Hf).
  assert (Hlt : (i < n)%nat) by (rewrite <- (proj1 (sy_servers _ _ (proj1 HG))); by eapply lookup_lt_Some).
  destruct (counted T T _ _ HF s1 pre [] 1) as (s2 & G2 & (rf2 & Hrf2 & HT2 & _ & _ & Hst2) & Hother & _).
  - by rewrite app_nil_r.
  - by eapply candidate_votes.
  - exists s2, T. split_and!; [by eapply raft_gets_trans|done|]. intros j rfj Hj. case_decide as E.
    + subst j. rewrite Hrf2 in Hj. injection Hj as <-. split; [done|]. rewrite Hst2, (peers_length n i Hlt), majority by lia. done.
    + rewrite Hother in Hj by done. destruct (Hf j) as (rf' & Hrf' & ? & ?); [|done|by simplify_eq].
      rewrite <- (proj1 (sy_servers _ _ (proj1 (good_gets _ _ HG G1)))). by eapply lookup_lt_Some.
Qed.

End election.

(** ** Two leaders *)

Section two.
Context (n : nat).
Implicit Types (s : system) (rf : Raft) (i j k : nat) (T : Z).

(** Nothing quiet kills a server. *)
Lemma quiet_dead s a s' : length (s_servers s) = n → quiet a = true → step s a = Some s' →
  ∀ i rf', s_servers s' !! i = Some rf' → ∃ rf, s_servers s !! i = Some rf ∧ dead rf' = dead rf.
Proof using Type.
  intros Hlen Hq Hs. destruct a as [d|k rnd|k|k|k]; try done; simpl in Hs.
  - destruct (_ <=? _); [|done]. injection Hs as <-. eauto.
  - destruct (s_servers s !! k) as [rf|] eqn:Hk; [|done]. destruct (s_tickers s !! k) as [[st|]|]; [|done..]. simpl in Hs.
    destruct (_ && _); [|done]. injection Hs as <-. simpl. by apply (insert_dead _ _ rf).
  - destruct (s_threads s !! k) as [t|]; [|done]. cbn [mbind option_bind] in Hs.
    destruct (run_thread _ _ _ t) as [[[sv ts] vs]|] eqn:Hr; [|done]. injection Hs as <-. rewrite Hlen in Hr. by eapply run_thread_dead.
Qed.

Lemma gets_killed s s' i rf rf' : system_ok n s → gets s s' → s_servers s !! i = Some rf → s_servers s' !! i = Some rf' → killed rf' = killed rf.
Proof using Type.
  intros HS (acts & He & Hq) Hi Hi'. unfold killed. revert s rf HS He Hq Hi. induction acts as [|a acts IH]; intros s rf HS; simpl.
  { intros [= ->] _ Hi. by simplify_eq. }
  destruct (step s a) as [s1|] eqn:Hs; [|done]. cbn [mbind option_bind]. intros He [Hq Hqs]%andb_prop Hi.
  pose proof (step_typed _ _ _ _ HS Hs) as HS1.
  destruct (lookup_lt_is_Some_2 (s_servers s1) i) as [rf1 Hrf1].
  { rewrite (proj1 (sy_servers _ _ HS1)), <- (proj1 (sy_servers _ _ HS)). by eapply lookup_lt_Some. }
  rewrite (IH s1 rf1 HS1 He Hqs Hrf1).
  destruct (quiet_dead s a s1 (proj1 (sy_servers _ _ HS)) Hq Hs i rf1 Hrf1) as (rf0 & H0 & E). simplify_eq. by rewrite E.
Qed.

(** Server [j] wins the election of term [T + 1] against server [i], with the votes of
    those who are in term [T]. *)
Lemma wins_against i j s rfj T rf : (3 ≤ n)%nat → good n s → i ≠ j → (i < n)%nat →
  s_servers s !! j = Some rfj → killed rfj = false → state rfj = Follower → currentTerm rfj = T →
  s_servers s !! i = Some rf → (∀ k, (k < n)%nat → k ≠ i → follows s T k) →
  ∃ s' ts, gets s s' ∧ s_threads s' = s_threads s ++ ts ∧ s_servers s' !! i = Some rf ∧
    ∃ rf', s_servers s' !! j = Some rf' ∧ currentTerm rf' = T + 1 ∧ state rf' = Leader.
Proof using Type.
  intros Hn HG Hij Hi Hj Hk Hst HT Hri Hf. assert (Hjn : (j < n)%nat) by (rewrite <- (proj1 (sy_servers _ _ (proj1 HG))); by eapply lookup_lt_Some).
  destruct (campaign n j s rfj HG Hj Hk) as (s1 & ts & rf1 & G1 & S1 & C1 & Th1); [by rewrite Hst|]. rewrite HT in *.
  assert (Hin : i ∈ others n j) by by apply others_elem.
  pose proof (others_nodup n j) as Hnd. apply list_elem_of_split in Hin as (l1 & l2 & El). pose proof (peers_length n j Hjn) as Hlen.
  assert (Hmem : ∀ k, k ∈ l1 ++ l2 → (k < n)%nat ∧ k ≠ j).
  { intros k Hin. apply others_elem. rewrite El. set_solver. }
  rewrite El in Hnd, Hlen, Th1. assert (Hnd' : NoDup (l1 ++ l2) ∧ i ∉ l1 ++ l2).
  { assert (Hp : l1 ++ i :: l2 ≡ₚ i :: l1 ++ l2) by (by solve_Permutation). rewrite Hp in Hnd. by apply NoDup_cons in Hnd as [? ?]. }
  destruct Hnd' as [[Hn1 [Hn12 Hn2]]%NoDup_app Hni]. rewrite not_elem_of_app in Hni.
  assert (Hb : ∀ k, k ∈ l1 ++ l2 → behind s1 (T + 1) k).
  { intros k Hkin. destruct (Hmem k Hkin) as [Hkn Hkj]. destruct (Hf k) as (rk & Hrk & HTk & _); [done|set_solver|].
    exists rk. split; [by rewrite S1, list_lookup_insert_ne|lia]. }
  destruct (asked j (T + 1) l1 s1 (s_threads s ++ ts) (ask j (T + 1) i :: (ask j (T + 1) <$> l2))) as (s2 & g1 & G2 & Th2 & HF1 & _ & O2).
  { by rewrite Th1, fmap_app. }
  { done. }
  { intros ?. by destruct (Hmem j) as [_ []]; [set_solver|]. }
  { intros k Hkin. apply Hb. set_solver. }
  destruct (asked j (T + 1) l2 s2 ((s_threads s ++ ts) ++ [ask j (T + 1) i]) g1) as (s3 & g2 & G3 & Th3 & HF2 & _ & O3).
  { by rewrite Th2, <- !app_assoc. }
  { done. }
  { intros ?. by destruct (Hmem j) as [_ []]; [set_solver|]. }
  { intros k Hkin. destruct (Hb k) as (rk & Hrk & ?); [set_solver|]. exists rk. split; [|done]. rewrite O2; [done|]. set_solver. }
  assert (Hkeep : ∀ k, k ∉ l1 ++ l2 → s_servers s3 !! k = s_servers s1 !! k).
  { intros k Hkn. rewrite not_elem_of_app in Hkn. rewrite O3, O2 by tauto. done. }
  destruct (counted n j (T + 1) (T + 1) (l1 ++ l2) (g1 ++ g2) ltac:(by apply Forall2_app) s3 ((s_threads s ++ ts) ++ [ask j (T + 1) i]) [] 1)
    as (s4 & G4 & (rf4 & Hrf4 & HT4 & _ & _ & Hst4) & O4 & ts' & Th4).
  { by rewrite Th3, app_nil_r. }
  { apply (candidate_votes n j s3 rf1 (T + 1)); [lia| |done]. rewrite Hkeep, S1; [by apply list_lookup_insert_eq; eapply lookup_lt_Some|].
    intros Hin. by destruct (Hmem j Hin) as [_ []]. }
  exists s4, (ts ++ [ask j (T + 1) i] ++ ts'). split_and!.
  - by eapply raft_gets_trans; [|eapply raft_gets_trans; [|eapply raft_gets_trans]].
  - rewrite Th4. by rewrite <- !app_assoc.
  - rewrite O4, Hkeep, S1, list_lookup_insert_ne; [done|congruence| |done]. by rewrite not_elem_of_app.
  - exists rf4. split_and!; [done|done|]. rewrite Hst4, majority; [done|lia| |by left].
    rewrite length_app in *. simpl in Hlen. lia.
Qed.

(** The votes of an earlier election make a second leader. *)
Lemma two_can_lead i j s rfi rfj : (3 ≤ n)%nat → good n s → i ≠ j →
  s_servers s !! i = Some rfi → killed rfi = false → state rfi ≠ Leader → s_servers s !! j = Some rfj → killed rfj = false →
  ∃ s' T, gets s s' ∧ (∀ k rfk, s_servers s !! k = Some rfk → currentTerm rfk < T) ∧
    ∃ rfi' rfj', s_servers s' !! i = Some rfi' ∧ GetState rfi' = (T, true) ∧ s_servers s' !! j = Some rfj' ∧ GetState rfj' = (T, true).
Proof using Type.
  intros Hn HG Hij Hi Hki Hsi Hj Hkj. pose proof (proj1 (sy_servers _ _ (proj1 HG))) as Hlen.
  assert (Hlt : (i < n)%nat ∧ (j < n)%nat) by (split; rewrite <- Hlen; by eapply lookup_lt_Some). destruct Hlt as [Hin Hjn].
  destruct (all_grant n i s rfi HG Hi Hki Hsi) as (s1 & T & pre & gots & rf1 & G1 & Hlow & Hi1 & C1 & Th1 & HF & Hf).
  pose proof (good_gets n _ _ HG G1) as HG1. destruct C1 as (Hst1 & HT1 & _ & Hk1 & _).
  destruct (campaign n i s1 rf1 HG1 Hi1 Hk1) as (s2 & ts & rf2 & G2 & S2 & C2 & Th2); [by rewrite Hst1|]. rewrite HT1 in *.
  pose proof (good_gets n _ _ HG1 G2) as HG2.
  assert (Hf2 : ∀ k, (k < n)%nat → k ≠ i → follows s2 T k).
  { intros k Hk Hne. destruct (Hf k Hk Hne) as (rk & Hrk & ?). exists rk. by rewrite S2, list_lookup_insert_ne. }
  destruct (Hf2 j Hjn) as (rfj2 & Hj2 & HTj & Hstj); [done|].
  assert (Hi2 : s_servers s2 !! i = Some rf2) by (rewrite S2; apply list_lookup_insert_eq; by eapply lookup_lt_Some).
  assert (Hkj2 : killed rfj2 = false).
  { rewrite <- Hkj. eapply gets_killed; [apply HG|by eapply raft_gets_trans|done..]. }
  destruct (wins_against i j s2 rfj2 T rf2) as (s3 & ts3 & G3 & Th3 & Hi3 & rfj3 & Hj3 & HTj3 & Hstj3); [done..|].
  destruct (counted n i (T + 1) T _ _ HF s3 pre (ts ++ (ask i (T + 1) <$> others n i) ++ ts3) 1) as (s4 & G4 & (rf4 & Hi4 & HT4 & _ & _ & Hst4) & O4 & _).
  { rewrite Th3, Th2, Th1. by rewrite <- !app_assoc. }
  { eapply candidate_votes; [lia|done|done]. }
  exists s4, (T + 1). split_and!.
  - by eapply raft_gets_trans; [|eapply raft_gets_trans; [|eapply raft_gets_trans]].
  - intros k rfk Hk. specialize (Hlow k rfk Hk). lia.
  - exists rf4, rfj3. unfold GetState. rewrite HT4, Hst4, HTj3, Hstj3, (O4 j (not_eq_sym Hij)).
    rewrite (peers_length n i Hin), majority by lia. by split_and!.
Qed.

End two.

(** C6: whatever has happened, of two or more servers one that has not been killed and is
    not the leader can become the leader of a new term: there is a continuation without lost messages or
    kills after which it leads, in a term later than all there were, and
    every other server follows in that term. *)
Theorem a_server_can_lead n now acts s i rf :
  (2 ≤ n)%nat → exec (init n now) acts = Some s → s_servers s !! i = Some rf → killed rf = false → state rf ≠ Leader →
  ∃ acts' s' T, exec s acts' = Some s' ∧ forallb quiet acts' = true ∧
    (∀ j rfj, s_servers s !! j = Some rfj → currentTerm rfj < T) ∧
    ∀ j rfj, s_servers s' !! j = Some rfj → GetState rfj = (T, bool_decide (j = i)).
Proof.
  intros Hn He Hi Hk Hs. assert (HG : good n s).
  { split; [by eapply exec_typed; [apply init_typed|]|by eapply ticking_exec; [apply ticking_init|]]. }
  destruct (can_lead n i s rf Hn HG Hi Hk Hs) as (s' & T & (acts' & E & Q) & Hlow & Hall).
  exists acts', s', T. split_and!; [done..|]. intros j rfj Hj. destruct (Hall j rfj Hj) as [<- Hst].
  unfold GetState. f_equal. apply bool_decide_ext. rewrite Hst. by destruct (decide (j = i)); split.
Qed.

(** Server 0 has started an election whose requests are lost, and is killed. *)
Definition lonely_acts : list action := [Advance (10 ^ 9); Wake 0 0; Run 0; Lose 0; Lose 0; KillServer 0].

Lemma a_server_can_lead_witness : ∃ s acts' s' T, exec (init 3 0) lonely_acts = Some s ∧ exec s acts' = Some s' ∧ 1 < T ∧
  ∀ j rfj, s_servers s' !! j = Some rfj → GetState rfj = (T, bool_decide (j = 1%nat)).
Proof.
  destruct (exec (init 3 0) lonely_acts) as [s|] eqn:E; [|vm_compute in E; discriminate E].
  destruct (s_servers s !! 1%nat) as [rf|] eqn:Hi; [|vm_compute in E; injection E as <-; discriminate Hi].
  destruct (a_server_can_lead 3 0 lonely_acts s 1 rf) as (acts' & s' & T & E' & _ & Hlow & Hall).
  - lia.
  - exact E.
  - exact Hi.
  - vm_compute in E. injection E as <-. injection Hi as <-. reflexivity.
  - vm_compute in E. injection E as <-. injection Hi as <-. discriminate.
  - exists s, acts', s', T. split; [reflexivity|]. split; [exact E'|]. split; [|exact Hall].
    vm_compute in E. injection E as <-. exact (Hlow 0%nat _ eq_refl).
Defined.

End RaftLiveness.
