(* ===== verification/LabGob.v ===== *)
(** * The checks labgob makes around gob

    [src/6.5840/src/labgob/labgob.go]: before a value is encoded or decoded its
    type is searched for fields gob would leave out, and the variable it is
    decoded into for values gob would not overwrite. The types of a program are
    a table from [reflect.Type]s, which are numbers, to what [Kind], [Field],
    [Elem] and [Key] say of them, so that a type may contain itself; the values
    a pointer leads to are in a heap, so that they may be cyclic. [encoding/gob]
    itself is a parameter. *)
From Stdlib Require Import Ascii.
From S2P Require Import Prelude.
Local Open Scope Z_scope.

Module LabGob.

(** ** reflect *)

Abbreviation rtype := nat (only parsing).

Inductive desc :=
| DStruct (name : string) (fields : list (string * rtype))
| DSlice (elem : rtype)
| DArray (elem : rtype)
| DPtr (elem : rtype)
| DMap (key elem : rtype)
| DBasic (name : string)
| DOther (name : string).

Definition Name (d : desc) : string :=
  match d with DStruct name _ | DBasic name | DOther name => name | _ => "" end.

(** The types a type is made of. *)
Definition parts (d : desc) : list rtype :=
  match d with
  | DStruct _ fields => fields.*2
  | DSlice elem | DArray elem | DPtr elem => [elem]
  | DMap key elem => [elem; key]
  | DBasic _ | DOther _ => []
  end.

Inductive basic :=
| BBool (b : bool)
| BInt (z : Z)
| BUint (z : Z)
| BFloat (bits : Z)
| BString (s : string).

Inductive value :=
| VStruct (t : rtype) (fields : list value)
| VPtr (t : rtype) (p : option nat)
| VBasic (t : rtype) (b : basic)
| VOther (t : rtype).

Definition TypeOf (v : value) : rtype :=
  match v with VStruct t _ | VPtr t _ | VBasic t _ | VOther t => t end.

Definition heap := gmap nat value.

(** [reflect.DeepEqual] of the zero value of the type and the value: both zeros
    of a floating-point type are equal. *)
Definition is_zero (b : basic) : bool :=
  match b with
  | BBool b => negb b
  | BInt z | BUint z => z =? 0
  | BFloat bits => (bits =? 0) || (bits =? 2 ^ 63)
  | BString s => String.eqb s ""
  end.

(** ** The package's variables *)

Record labgob := MkLabgob {
  errorCount : Z;
  checked : gset rtype;
  printed : list string;
}.

Definition mark (t : rtype) (s : labgob) : labgob :=
  MkLabgob (errorCount s) ({[t]} ∪ checked s) (printed s).

Definition print (m : string) (s : labgob) : labgob :=
  MkLabgob (errorCount s) (checked s) (printed s ++ [m]).

Definition count (s : labgob) : labgob :=
  MkLabgob (wrap_s 64 (errorCount s + 1)) (checked s) (printed s).

(** How a [reflect.Value] was reached: through the name of an embedded struct that is not
    exported, through another field that is not, or neither. *)
Inductive ro := Exported | EmbedRO | StickyRO.

#[global] Instance ro_eq_dec : EqDecision ro.
Proof. solve_decision. Defined.

Section checks.
Context (types : rtype → desc).
(** [StructField.Anonymous] of a field of a struct type. *)
Context (Anonymous : rtype → nat → bool).
(** What [unicode.IsUpper] says of the first rune of a string that does not
    begin with an ASCII character. *)
Context (IsUpper_wide : string → bool).

(** [unicode.IsUpper] of [utf8.DecodeRuneInString]: of the empty string it is
    the replacement character. *)
Definition IsUpper_first (name : string) : bool :=
  match name with
  | EmptyString => false
  | String c _ =>
      let b := Z.of_nat (nat_of_ascii c) in
      if b <? 128 then (65 <=? b) && (b <=? 90) else IsUpper_wide name
  end.

Definition lower_case_error (t : rtype) (name : string) : string :=
  ("labgob error: lower-case field " +:+ name +:+ " of " +:+ Name (types t)
     +:+ " in RPC or persist/snapshot will break your Raft")%string.

(** The body of the loop over the fields, before the recursive call. *)
Definition complain (t : rtype) (name : string) (s : labgob) : labgob :=
  if negb (IsUpper_first name) then count (print (lower_case_error t name) s) else s.

(** [None]: out of fuel. *)
Fixpoint checkType (fuel : nat) (t : rtype) (s : labgob) : option labgob :=
  match fuel with
  | O => None
  | S fuel =>
      if decide (t ∈ checked s) then Some s
      else
        let s := mark t s in
        match types t with
        | DStruct _ fields =>
            foldl (λ acc f, s ← acc; checkType fuel f.2 (complain t f.1 s)) (Some s) fields
        | DSlice elem | DArray elem | DPtr elem => checkType fuel elem s
        | DMap key elem => s ← checkType fuel elem s; checkType fuel key s
        | DBasic _ | DOther _ => Some s
        end
  end.

(** [TypeOf] of a nil interface is nil, and [Kind] of it panics. *)
Definition checkValue (fuel : nat) (v : option value) (s : labgob) : option labgob :=
  v ← v; checkType fuel (TypeOf v) s.

Definition default_warning (what : string) : string :=
  ("labgob warning: Decoding into a non-default variable/field " +:+ what +:+ " may not work")%string.

Definition warn (t : rtype) (name : string) (s : labgob) : labgob :=
  let s :=
    if errorCount s <? 1 then
      let what := if String.eqb name "" then Name (types t) else name in
      print (default_warning what) s
    else s in
  count s.

(** [Value.Field]: below a field that is not exported nothing is, but an exported field of
    an embedded struct is. A name is exported when its first letter is upper case. *)
Definition field_ro (flag : ro) (name : string) (anonymous : bool) : ro :=
  match flag with
  | StickyRO => StickyRO
  | _ => if IsUpper_first name then Exported else if anonymous then EmbedRO else StickyRO
  end.

(** [None]: a panic, or out of fuel. [Elem] and [IsNil] do not mind how a value was reached,
    [Interface] panics. *)
Fixpoint checkDefault1 (fuel : nat) (h : heap) (flag : ro) (v : value) (depth : Z) (name : string) (s : labgob)
    : option labgob :=
  match fuel with
  | O => None
  | S fuel =>
      if 3 <? depth then Some s
      else
        match v with
        | VStruct t vs =>
            match types t with
            | DStruct _ fields =>
                foldl (λ acc p, '(s, i) ← acc;
                         let f : string * rtype := p in
                         vv ← vs !! i;
                         let name1 := if negb (String.eqb name "") then (name +:+ "." +:+ f.1)%string else f.1 in
                         s ← checkDefault1 fuel h (field_ro flag f.1 (Anonymous t i)) vv (depth + 1) name1 s;
                         Some (s, S i)) (Some (s, 0%nat)) fields ≫= λ si, Some si.1
            | _ => None
            end
        | VPtr t p =>
            match p with
            | None => Some s
            | Some l => w ← h !! l; checkDefault1 fuel h flag w (depth + 1) name s
            end
        | VBasic t b =>
            match flag with
            | Exported => Some (if negb (is_zero b) then warn t name s else s)
            | _ => None
            end
        | VOther t => Some s
        end
  end.

Definition checkDefault (fuel : nat) (h : heap) (v : option value) (s : labgob) : option labgob :=
  match v with
  | None => Some s
  | Some v => checkDefault1 fuel h Exported v 1 "" s
  end.

(** ** Encoders and decoders *)

(** [gob]: what [Encode] writes or its error, and what [Decode] makes of the
    memory when it is given a place to decode into. *)
Context {byte error : Type}.
Context (gob_Encode : heap → option value → list byte * error).
Context (gob_Decode : heap → option value → list byte → heap * list byte * error).

Definition Encode (fuel : nat) (h : heap) (e : option value) (s : labgob) : option (labgob * (list byte * error)) :=
  s ← checkValue fuel e s; Some (s, gob_Encode h e).

(** The value of a [reflect.Value], which is never the nil interface here. *)
Definition EncodeValue (fuel : nat) (h : heap) (v : value) (s : labgob) : option (labgob * (list byte * error)) :=
  s ← checkValue fuel (Some v) s; Some (s, gob_Encode h (Some v)).

(** gob keeps its own table of names. *)
Definition Register (fuel : nat) (v : option value) (s : labgob) : option labgob := checkValue fuel v s.
Definition RegisterName (fuel : nat) (name : string) (v : option value) (s : labgob) : option labgob := checkValue fuel v s.

Definition Decode (fuel : nat) (h : heap) (e : option value) (r : list byte) (s : labgob)
    : option (labgob * (heap * list byte * error)) :=
  s ← checkValue fuel e s;
  s ← checkDefault fuel h e s;
  Some (s, gob_Decode h e r).

End checks.

(** ** The search through a type *)

Section search.
Context (types : rtype → desc) (IsUpper_wide : string → bool).

Definition part (t u : rtype) : Prop := u ∈ parts (types t).

(** What is printed about one type: its fields whose name is not capitalized. *)
Definition complaints (t : rtype) : list string :=
  match types t with
  | DStruct _ fields =>
      fields ≫= λ f, if negb (IsUpper_first IsUpper_wide f.1) then [lower_case_error types t f.1] else []
  | _ => []
  end.

(** From [s] to [s'] the types [new] were checked for the first time, and their
    complaints and those of [extra] were printed and counted. *)
Record explored (s : labgob) (new : list rtype) (extra : list string) (s' : labgob) : Prop := Explored {
  ex_NoDup : NoDup new;
  ex_fresh : ∀ u, u ∈ new → u ∉ checked s;
  ex_checked : checked s' = checked s ∪ list_to_set new;
  ex_printed : ∃ msgs, printed s' = printed s ++ msgs ∧ msgs ≡ₚ extra ++ (new ≫= complaints) ∧
                 errorCount s' = wrap_s 64 (errorCount s + Z.of_nat (length msgs));
}.

Lemma wrap_s_add a b : wrap_s 64 (wrap_s 64 a + b) = wrap_s 64 (a + b).
Proof.
  unfold wrap_s. f_equal.
  replace ((a + 2 ^ (64 - 1)) mod 2 ^ 64 - 2 ^ (64 - 1) + b + 2 ^ (64 - 1))
    with ((a + 2 ^ (64 - 1)) mod 2 ^ 64 + b) by lia.
  rewrite Zplus_mod_idemp_l. f_equal. lia.
Qed.

Lemma explored_refl s : in_s 64 (errorCount s) → explored s [] [] s.
Proof.
  intros He. split; [constructor|set_solver|set_solver|]. exists []. simpl.
  rewrite app_nil_r, Z.add_0_r, wrap_s_id by done. done.
Qed.

Lemma explored_in s new extra s' : explored s new extra s' → in_s 64 (errorCount s').
Proof. intros [_ _ _ (msgs & _ & _ & ->)]. by auto with go. Qed.

Lemma explored_trans s1 n1 e1 s2 n2 e2 s3 :
  explored s1 n1 e1 s2 → explored s2 n2 e2 s3 → explored s1 (n1 ++ n2) (e1 ++ e2) s3.
Proof.
  intros [Hd1 Hf1 Hc1 (m1 & Hp1 & Hm1 & He1)] [Hd2 Hf2 Hc2 (m2 & Hp2 & Hm2 & He2)]. split.
  - apply NoDup_app. split_and!; [done| |done]. intros u H1 H2. apply (Hf2 u H2). set_solver.
  - intros u [Hu|Hu]%elem_of_app; [by apply Hf1|]. specialize (Hf2 u Hu). set_solver.
  - rewrite Hc2, Hc1, list_to_set_app_L. set_solver.
  - exists (m1 ++ m2). split_and!.
    + by rewrite Hp2, Hp1, app_assoc.
    + rewrite Hm1, Hm2, bind_app. rewrite <- !app_assoc. apply Permutation_app_head.
      rewrite !app_assoc. apply Permutation_app_tail, Permutation_app_comm.
    + rewrite He2, He1, wrap_s_add, length_app. f_equal. lia.
Qed.

Lemma explored_complain t name s :
  in_s 64 (errorCount s) →
  explored s [] (if negb (IsUpper_first IsUpper_wide name) then [lower_case_error types t name] else [])
    (complain types IsUpper_wide t name s).
Proof.
  intros He. unfold complain. destruct (negb _); [|by apply explored_refl].
  split; [constructor|set_solver|simpl; set_solver|]. eexists. simpl. split_and!; [done|done|]. done.
Qed.

Lemma explored_mark t s new s' :
  t ∉ checked s → explored (mark t s) new (complaints t) s' → explored s (t :: new) [] s'.
Proof.
  intros Ht [Hd Hf Hc (m & Hp & Hm & He)]. simpl in *. split.
  - constructor; [|done]. intros Hin. specialize (Hf t Hin). set_solver.
  - intros u [->|Hu]%elem_of_cons; [done|]. specialize (Hf u Hu). set_solver.
  - rewrite Hc, list_to_set_cons. set_solver.
  - exists m. split_and!; [done| |done]. by rewrite bind_cons.
Qed.

(** [new] is closed in [s']: what its types are made of has been checked. *)
Definition closes (new : list rtype) (s' : labgob) : Prop := ∀ u w, u ∈ new → part u w → w ∈ checked s'.

Definition visit (fuel : nat) (pre : string → labgob → labgob) (fs : list (string * rtype)) (s : labgob) :=
  foldl (λ acc f, s ← acc; checkType types IsUpper_wide fuel f.2 (pre f.1 s)) (Some s) fs.

Lemma visit_None fuel (pre : string → labgob → labgob) fs :
  foldl (λ acc f, s ← acc; checkType types IsUpper_wide fuel f.2 (pre f.1 s)) None fs = None.
Proof. by induction fs. Qed.

Lemma visit_cons fuel pre f fs s :
  visit fuel pre (f :: fs) s = s' ← checkType types IsUpper_wide fuel f.2 (pre f.1 s); visit fuel pre fs s'.
Proof. unfold visit. simpl. destruct (checkType _ _ _ _ _); [done|apply visit_None]. Qed.

Context (U : gset rtype) (HU : ∀ t u, t ∈ U → part t u → u ∈ U).

(** What a search from the types [ts] does. *)
Definition searches (ts : list rtype) (s : labgob) (extra : list string) (r : option labgob) : Prop :=
  ∃ new s', r = Some s' ∧ explored s new extra s' ∧ closes new s' ∧
    (∀ u, u ∈ new → ∃ t, t ∈ ts ∧ rtc part t u) ∧ (∀ t, t ∈ ts → t ∈ checked s').

Lemma visit_ok fuel pre msg :
  (∀ t s, in_s 64 (errorCount s) → t ∈ U → (size (U ∖ checked s) < fuel)%nat →
    searches [t] s [] (checkType types IsUpper_wide fuel t s)) →
  (∀ name s, in_s 64 (errorCount s) → explored s [] (msg name) (pre name s)) →
  ∀ fs s, in_s 64 (errorCount s) → (∀ f, f ∈ fs → f.2 ∈ U) → (size (U ∖ checked s) < fuel)%nat →
    searches fs.*2 s (fs ≫= λ f, msg f.1) (visit fuel pre fs s).
Proof using Type. clear HU.
  intros IH Hpre fs. induction fs as [|f fs IHfs]; intros s He Hin Hsz.
  - exists [], s. split_and!; [done|by apply explored_refl| | | ]; unfold closes; set_solver.
  - rewrite visit_cons. pose proof (Hpre f.1 s He) as H1.
    assert (Hc1 : checked (pre f.1 s) = checked s) by (rewrite (ex_checked _ _ _ _ H1); set_solver).
    destruct (IH f.2 (pre f.1 s)) as (n2 & s2 & -> & H2 & Hcl2 & Hr2 & Hk2);
      [by eapply explored_in|apply Hin; left|by rewrite Hc1|].
    pose proof (ex_checked _ _ _ _ H2) as Hc2.
    destruct (IHfs s2) as (n3 & s3 & E3 & H3 & Hcl3 & Hr3 & Hk3).
    { by eapply explored_in. } { intros f' Hf'. apply Hin. by right. }
    { eapply Nat.le_lt_trans; [apply subseteq_size|exact Hsz]. rewrite Hc2, Hc1. set_solver. }
    pose proof (ex_checked _ _ _ _ H3) as Hc3. simpl. rewrite E3. exists (n2 ++ n3), s3.
    split_and!; [done| | | |].
    + pose proof (explored_trans _ _ _ _ _ _ _ (explored_trans _ _ _ _ _ _ _ H1 H2) H3) as H.
      by rewrite app_nil_r in H.
    + intros u w [Hu|Hu]%elem_of_app Hw; [rewrite Hc3; apply elem_of_union_l; eauto|eauto].
    + intros u [Hu|Hu]%elem_of_app; [destruct (Hr2 u Hu) as (t & Ht & ?)|destruct (Hr3 u Hu) as (t & Ht & ?)];
        exists t; set_solver.
    + intros t [->|Ht]%elem_of_cons; [rewrite Hc3; apply elem_of_union_l, Hk2; set_solver|by apply Hk3].
Qed.

Lemma searches_mark t s extra r :
  t ∉ checked s → extra ≡ₚ complaints t → searches (parts (types t)) (mark t s) extra r → searches [t] s [] r.
Proof using Type. clear HU.
  intros Ht He (new & s' & -> & Hex & Hcl & Hr & Hk). exists (t :: new), s'.
  pose proof (ex_checked _ _ _ _ Hex) as Hc. simpl in Hc. split_and!; [done| | | |].
  - apply explored_mark; [done|]. destruct Hex as [? ? ? (m & ? & ? & ?)]. split; try done.
    exists m. split_and!; [done| |done]. by rewrite <- He.
  - intros u w [->|Hu]%elem_of_cons Hw; [by apply Hk|by eapply Hcl].
  - intros u [->|Hu]%elem_of_cons; [exists t; split; [set_solver|done]|].
    destruct (Hr u Hu) as (x & Hx & Hxu). exists t. split; [set_solver|by eapply rtc_l].
  - intros u ->%list_elem_of_singleton. rewrite Hc. set_solver.
Qed.

Lemma checkType_ok fuel t s :
  in_s 64 (errorCount s) → t ∈ U → (size (U ∖ checked s) < fuel)%nat →
  searches [t] s [] (checkType types IsUpper_wide fuel t s).
Proof using HU.
  revert t s. induction fuel as [|fuel IH]; intros t s He Ht Hsz; [lia|]. cbn [checkType].
  case_decide as Hin.
  { exists [], s. split_and!; [done|by apply explored_refl| | |]; unfold closes; set_solver. }
  assert (Hsz' : (size (U ∖ checked (mark t s)) < fuel)%nat).
  { apply Nat.lt_le_trans with (size (U ∖ checked s)); [|lia]. apply subset_size. simpl. set_solver. }
  assert (Hparts : ∀ u, u ∈ parts (types t) → u ∈ U) by (intros u; by apply HU).
  assert (Hid : ∀ name s, in_s 64 (errorCount s) → explored s [] ((λ _ : string, []) name) ((λ _ s, s) name s))
    by (intros ???; by apply explored_refl).
  assert (Hc : complaints t = match types t with DStruct _ _ => complaints t | _ => [] end)
    by (unfold complaints; by destruct (types t)).
  destruct (types t) as [name fs|u|u|u|k u|name|name] eqn:E;
    (apply (searches_mark t s (complaints t)); [done|done|]); try rewrite Hc; rewrite E; cbn [parts].
  - pose proof (visit_ok fuel (complain types IsUpper_wide t) _ IH (explored_complain t) fs (mark t s) He) as H.
    unfold complaints. rewrite E.
    change (foldl _ _ _) with (visit fuel (complain types IsUpper_wide t) fs (mark t s)). apply H; [|done].
    intros f Hf. apply Hparts. cbn [parts]. apply list_elem_of_fmap. eauto.
  - by apply IH; [|apply Hparts; set_solver|].
  - by apply IH; [|apply Hparts; set_solver|].
  - by apply IH; [|apply Hparts; set_solver|].
  - pose proof (visit_ok fuel (λ _ s, s) _ IH Hid [("", u); ("", k)] (mark t s) He) as H. unfold visit in H. simpl in H.
    destruct (checkType _ _ _ u _) eqn:E1; simpl in *; apply H; try done;
      intros f Hf; apply Hparts; cbn [parts]; set_solver.
  - exists [], (mark t s). split_and!; [done|by apply explored_refl| | |]; unfold closes; set_solver.
  - exists [], (mark t s). split_and!; [done|by apply explored_refl| | |]; unfold closes; set_solver.
Qed.

End search.

(** ** The search through a variable *)

Section defaults.
Context (types : rtype → desc) (Anonymous : rtype → nat → bool) (IsUpper_wide : string → bool) (h : heap).

Abbreviation checkDefault1 := (checkDefault1 types Anonymous IsUpper_wide).
Abbreviation field_ro := (field_ro IsUpper_wide).

(** The variables a variable consists of, or points to. *)
Definition child (v w : value) : Prop :=
  match v with
  | VStruct _ vs => w ∈ vs
  | VPtr _ (Some l) => h !! l = Some w
  | _ => False
  end.

(** The same, with how they are reached. *)
Definition reached (p q : ro * value) : Prop :=
  match p.2 with
  | VStruct t vs => ∃ i name fs f, types t = DStruct name fs ∧ fs !! i = Some f ∧ vs !! i = Some q.2 ∧
      q.1 = field_ro p.1 f.1 (Anonymous t i)
  | VPtr _ (Some l) => h !! l = Some q.2 ∧ q.1 = p.1
  | _ => False
  end.

(** A value has the fields its type says, and its pointers point somewhere. *)
Definition well_shaped (v : value) : Prop :=
  match v with
  | VStruct t vs => ∃ name fs, types t = DStruct name fs ∧ length vs = length fs
  | VPtr _ (Some l) => is_Some (h !! l)
  | _ => True
  end.

Definition is_default (v : value) : Prop :=
  match v with VBasic _ b => is_zero b = true | _ => True end.

(** Nothing up to [n] steps from [v] holds a value of its own. *)
Definition default_within (n : Z) (v : value) : Prop :=
  ∀ k w, nsteps child k v w → Z.of_nat k ≤ n → is_default w.

(** A variable of a basic type that reflection does not give the value of. *)
Definition hidden (p : ro * value) : Prop := p.1 ≠ Exported ∧ ∃ t b, p.2 = VBasic t b.

(** One of them is at most [n] steps away. *)
Definition hidden_within (n : Z) (p : ro * value) : Prop :=
  ∃ k q, nsteps reached k p q ∧ Z.of_nat k ≤ n ∧ hidden q.

(** [k] variables were found that are not default. *)
Definition warned (k : nat) (s s' : labgob) : Prop :=
  checked s' = checked s ∧ errorCount s' = wrap_s 64 (errorCount s + Z.of_nat k) ∧ (k = 0%nat → s' = s).

Lemma warned_refl s : in_s 64 (errorCount s) → warned 0 s s.
Proof using Type. intros He. split_and!; [done| |done]. rewrite Z.add_0_r, wrap_s_id; done. Qed.

Lemma warned_in k s s' : warned k s s' → in_s 64 (errorCount s').
Proof using Type. intros (_ & -> & _). by auto with go. Qed.

Lemma warned_trans k1 k2 s1 s2 s3 : warned k1 s1 s2 → warned k2 s2 s3 → warned (k1 + k2) s1 s3.
Proof using Type.
  intros (Hc1 & He1 & Hz1) (Hc2 & He2 & Hz2). split_and!; [congruence| |].
  - rewrite He2, He1, wrap_s_add. f_equal. lia.
  - intros Hk. rewrite Hz2, Hz1; [done|lia..].
Qed.

Lemma warn_ok t name s : warned 1 s (warn types t name s).
Proof using Type. unfold warn. destruct (_ <? 1); split_and!; done. Qed.

Lemma default_within_neg n v : n < 0 → default_within n v.
Proof using Type. intros Hn k w _ Hk. lia. Qed.

Lemma default_within_child n v :
  0 ≤ n → default_within n v ↔ is_default v ∧ ∀ w, child v w → default_within (n - 1) w.
Proof using Type.
  intros Hn. split.
  - intros Hv. split; [by apply (Hv 0%nat); [constructor|]|].
    intros w Hw k x Hk Hle. apply (Hv (S k)); [by econstructor|lia].
  - intros [Hv Hc] k x Hk Hle. destruct Hk as [|k v w x Hw Hk]; [done|].
    apply (Hc w Hw k); [done|lia].
Qed.

Lemma hidden_within_neg n p : n < 0 → ¬ hidden_within n p.
Proof using Type. intros Hn (k & q & _ & Hk & _). lia. Qed.

Lemma hidden_within_child n p :
  0 ≤ n → hidden_within n p ↔ hidden p ∨ ∃ q, reached p q ∧ hidden_within (n - 1) q.
Proof using Type.
  intros Hn. split.
  - intros (k & q & Hk & Hle & Hh). destruct Hk as [|k p p' q Hp Hk]; [by left|]. right. exists p'. split; [done|].
    exists k, q. split_and!; [done|lia|done].
  - intros [Hh|(p' & Hp & k & q & Hk & Hle & Hh)]; [exists 0%nat, p; split_and!; [constructor|lia|done]|].
    exists (S k), q. split_and!; [by econstructor|lia|done].
Qed.

(** What a search of the variables [ps] does: it panics on a hidden one, and else it
    warns of all that are not default. *)
Definition finds (n : Z) (ps : list (ro * value)) (s : labgob) (r : option labgob) : Prop :=
  (r = None ∧ ∃ p, p ∈ ps ∧ hidden_within n p) ∨
  ∃ s' k, r = Some s' ∧ (∀ p, p ∈ ps → ¬ hidden_within n p) ∧ warned k s s' ∧ (k = 0%nat ↔ ∀ p, p ∈ ps → default_within n p.2).

Lemma finds_one n p s r : finds n [p] s r ↔
  (r = None ∧ hidden_within n p) ∨ ∃ s' k, r = Some s' ∧ ¬ hidden_within n p ∧ warned k s s' ∧ (k = 0%nat ↔ default_within n p.2).
Proof using Type.
  unfold finds. setoid_rewrite list_elem_of_singleton.
  assert (H1 : (∀ q, q = p → default_within n q.2) ↔ default_within n p.2) by naive_solver.
  assert (H2 : (∀ q, q = p → ¬ hidden_within n q) ↔ ¬ hidden_within n p) by naive_solver.
  setoid_rewrite H1. setoid_rewrite H2. naive_solver.
Qed.

Lemma finds_nil n s : in_s 64 (errorCount s) → finds n [] s (Some s).
Proof using Type. intros He. right. exists s, 0%nat. split_and!; [done|set_solver|by apply warned_refl|set_solver]. Qed.

Lemma finds_app n ps1 ps2 s (r : option labgob) (f : labgob → option labgob) : finds n ps1 s r →
  (∀ s', in_s 64 (errorCount s') → finds n ps2 s' (f s')) → finds n (ps1 ++ ps2) s (r ≫= f).
Proof using Type.
  intros [[-> (p & Hp & Hh)]|(s1 & k1 & -> & Hc1 & H1 & Hk1)] H2; [left; split; [done|]; exists p; set_solver|].
  simpl. destruct (H2 s1) as [[-> (p & Hp & Hh)]|(s2 & k2 & -> & Hc2 & H2' & Hk2)]; [by eapply warned_in|left; split; [done|]; exists p; set_solver|].
  right. exists s2, (k1 + k2)%nat. split_and!; [done|intros p [?|?]%elem_of_app; auto|by eapply warned_trans|].
  setoid_rewrite elem_of_app. split; [intros Hz p [?|?]; [apply Hk1|apply Hk2]; done || lia|].
  intros Hall. assert (k1 = 0%nat) as -> by (apply Hk1; auto). apply Hk2. auto.
Qed.

(** The fields of a struct, from number [i] on. *)
Fixpoint fields_from (flag : ro) (t : rtype) (i : nat) (fs : list (string * rtype)) (vs : list value) : list (ro * value) :=
  match fs, vs with
  | f :: fs, v :: vs => (field_ro flag f.1 (Anonymous t i), v) :: fields_from flag t (S i) fs vs
  | _, _ => []
  end.

Lemma fields_from_elem flag t fs vs i p : p ∈ fields_from flag t i fs vs ↔
  ∃ j f, fs !! j = Some f ∧ vs !! j = Some p.2 ∧ p.1 = field_ro flag f.1 (Anonymous t (i + j)).
Proof using Type.
  revert vs i. induction fs as [|f fs IH]; intros [|v vs] i; cbn [fields_from].
  1-3: split; [by intros ?%elem_of_nil|by intros ([|j] & f' & ? & ? & ?)].
  rewrite elem_of_cons, IH. split.
  - intros [->|(j & f' & H1 & H2 & ->)]; [exists 0%nat, f; by rewrite Nat.add_0_r|]. exists (S j), f'. by rewrite Nat.add_succ_r.
  - intros ([|j] & f' & H1 & H2 & H3); simpl in *; [left; rewrite Nat.add_0_r in H3; destruct p; by simplify_eq/=|].
    right. exists j, f'. by rewrite <- Nat.add_succ_r.
Qed.

Lemma fields_ok (rec : ro → value → string → labgob → option labgob) (nm : string * rtype → string) n flag t (vs : list value) :
  (∀ fl v name s, v ∈ vs → in_s 64 (errorCount s) → finds n [(fl, v)] s (rec fl v name s)) →
  ∀ (fs : list (string * rtype)) pre post s, vs = pre ++ post → length post = length fs → in_s 64 (errorCount s) →
  finds n (fields_from flag t (length pre) fs post) s
    (foldl (λ acc (f : string * rtype), '(s, i) ← acc; vv ← vs !! i;
              s ← rec (field_ro flag f.1 (Anonymous t i)) vv (nm f) s; Some (s, S i))
       (Some (s, length pre)) fs ≫= λ si, Some si.1).
Proof using Type.
  intros Hrec fs. induction fs as [|f fs IH]; intros pre post s Hvs Hl He.
  - destruct post; [|done]. by apply finds_nil.
  - destruct post as [|v post]; [done|]. cbn [foldl fields_from]. cbn [mbind option_bind].
    rewrite Hvs, list_lookup_middle by done. rewrite <- Hvs. cbn [mbind option_bind].
    set (fl := field_ro flag f.1 _). set (body := λ (acc : option (labgob * nat)) (f : string * rtype), _).
    assert (Hnone : ∀ fs, foldl body None fs = None) by (induction fs0; done).
    replace (foldl body _ fs ≫= _) with
      (rec fl v (nm f) s ≫= λ s1, foldl body (Some (s1, S (length pre))) fs ≫= λ si : labgob * nat, Some si.1)
      by (destruct (rec fl v (nm f) s); [done|simpl; by rewrite Hnone]).
    apply (finds_app n [(fl, v)]); [apply Hrec; [rewrite Hvs; set_solver|done]|]. intros s1 He1.
    assert (El : S (length pre) = length (pre ++ [v])) by (rewrite length_app; simpl; lia). rewrite El.
    apply IH; [by rewrite <- app_assoc|simpl in Hl; lia|done].
Qed.

Lemma checkDefault1_ok fuel flag v depth name s :
  3 - depth < Z.of_nat fuel → 1 ≤ depth → in_s 64 (errorCount s) →
  (∀ w, rtc child v w → well_shaped w) →
  finds (3 - depth) [(flag, v)] s (checkDefault1 (S fuel) h flag v depth name s).
Proof using Type.
  assert (Hdeep : ∀ n fl w s0, n < 0 → in_s 64 (errorCount s0) → finds n [(fl, w)] s0 (Some s0)).
  { intros n fl w s0 Hn He0. apply finds_one. right. exists s0, 0%nat. split_and!; [done|by apply hidden_within_neg|by apply warned_refl|].
    split; [|done]. intros _. by apply default_within_neg. }
  revert flag v depth name s. induction fuel as [|fuel IH]; intros flag v depth name s Hf Hd He Hwf.
  { cbn [LabGob.checkDefault1]. z_tests. apply Hdeep; [lia|done]. }
  remember (S fuel) as f eqn:Ef. cbn [LabGob.checkDefault1]. destruct (3 <? depth) eqn:Hlt.
  { apply Z.ltb_lt in Hlt. apply Hdeep; [lia|done]. }
  apply Z.ltb_ge in Hlt. apply finds_one. setoid_rewrite (default_within_child (3 - depth)); [|lia].
  pose proof (hidden_within_child (3 - depth) (flag, v) ltac:(lia)) as Hchild. setoid_rewrite Hchild. clear Hchild.
  assert (Hrec : ∀ fl w nm s0, child v w → in_s 64 (errorCount s0) →
            finds (3 - depth - 1) [(fl, w)] s0 (checkDefault1 f h fl w (depth + 1) nm s0)).
  { intros fl w nm s0 Hw He0. replace (3 - depth - 1) with (3 - (depth + 1)) by lia.
    apply IH; [lia|lia|done|]. intros x Hx. apply Hwf. by eapply rtc_l. }
  assert (Hplain : (∀ t b, v ≠ VBasic t b) → ¬ hidden (flag, v)) by (intros Hv (_ & t & b & ?); by eapply Hv).
  pose proof (Hwf v (rtc_refl _ _)) as Hv. destruct v as [t vs|t [l|]|t b|t]; simpl in Hv.
  - destruct Hv as (tn & fs & E & Hl). rewrite E. specialize (Hplain ltac:(done)).
    assert (Hr : ∀ q, reached (flag, VStruct t vs) q ↔ q ∈ fields_from flag t 0 fs vs).
    { intros q. rewrite fields_from_elem. unfold reached. simpl. rewrite E. naive_solver. }
    assert (Hc : ∀ w, w ∈ vs ↔ ∃ fl, (fl, w) ∈ fields_from flag t 0 fs vs).
    { intros w. setoid_rewrite fields_from_elem. rewrite list_elem_of_lookup. split; [|naive_solver].
      intros [j Hj]. destruct (lookup_lt_is_Some_2 fs j) as [f' Hf']; [rewrite <- Hl; by eapply lookup_lt_Some|]. by exists (field_ro flag f'.1 (Anonymous t (0 + j))), j, f'. }
    destruct (fields_ok (λ fl v, checkDefault1 f h fl v (depth + 1))
      (λ f, if negb (String.eqb name "") then (name +:+ "." +:+ f.1)%string else f.1) (3 - depth - 1) flag t vs
      (λ fl v nm s0 Hv, Hrec fl v nm s0 Hv) fs [] vs s eq_refl Hl He) as [[Hn (p & Hp & Hh)]|(s' & k & Es & Hcl & Hw & Hk)].
    + left. split; [exact Hn|]. right. exists p. by rewrite Hr.
    + right. exists s', k. split_and!; [exact Es| |done|].
      * intros [?|(q & Hq & Hh)]; [done|]. apply (Hcl q); [by apply Hr|done].
      * rewrite Hk. simpl. split; [intros Hall; split; [done|]; intros w [fl Hfl]%Hc; by apply (Hall (fl, w))|].
        intros [_ Hall] p Hp. apply Hall, Hc. exists p.1. by destruct p.
  - destruct Hv as [w Hw]. rewrite Hw. cbn [mbind option_bind]. specialize (Hplain ltac:(done)).
    assert (Hr : ∀ q, reached (flag, VPtr t (Some l)) q ↔ q = (flag, w)).
    { intros [fl x]. unfold reached. simpl. rewrite Hw. naive_solver. }
    destruct (proj1 (finds_one _ _ _ _) (Hrec flag w name s Hw He)) as [[-> Hh]|(s' & k & -> & Hcl & Hs' & Hk)].
    + left. split; [done|]. right. exists (flag, w). by rewrite Hr.
    + right. exists s', k. split_and!; [done| |done|].
      * intros [?|(q & ->%Hr & Hh)]; done.
      * rewrite Hk. simpl. split; [|by intros [_ ?]; auto]. intros Hd'. split; [done|]. intros x Hx. simplify_eq. done.
  - right. exists s, 0%nat. split_and!; [done| |by apply warned_refl|simpl; naive_solver].
    intros [?|(q & [] & _)]. by apply Hplain.
  - assert (Hno : ∀ q, ¬ reached (flag, VBasic t b) q) by by intros q [].
    destruct (decide (flag = Exported)) as [->|Hfl].
    + right. simpl. destruct (is_zero b) eqn:Ez; simpl.
      * exists s, 0%nat. split_and!; [done| |by apply warned_refl|naive_solver]. intros [[[] _]|(q & Hq & _)]; [done|by apply Hno in Hq].
      * exists (warn types t name s), 1%nat. split_and!; [done| |apply warn_ok|naive_solver]. intros [[[] _]|(q & Hq & _)]; [done|by apply Hno in Hq].
    + left. split; [by destruct flag|]. left. split; [done|]. by exists t, b.
  - right. exists s, 0%nat. split_and!; [done| |by apply warned_refl|simpl; naive_solver].
    intros [?|(q & [] & _)]. by apply Hplain.
Qed.

End defaults.

(** ** What the package promises *)

(** Between two calls everything a checked type is made of has been checked. *)
Definition checked_closed (types : rtype → desc) (s : labgob) : Prop :=
  in_s 64 (errorCount s) ∧ ∀ t u, t ∈ checked s → part types t u → u ∈ checked s.

Lemma checkType_reaches types IsUpper_wide (U : gset rtype) fuel t s :
  (∀ t u, t ∈ U → part types t u → u ∈ U) → t ∈ U → (size U < fuel)%nat → checked_closed types s →
  ∃ new s', checkType types IsUpper_wide fuel t s = Some s' ∧ explored types IsUpper_wide s new [] s' ∧
    (∀ u, u ∈ new ↔ rtc (part types) t u ∧ u ∉ checked s) ∧ checked_closed types s'.
Proof.
  intros HU Ht Hf [He Hc].
  destruct (checkType_ok types IsUpper_wide U HU fuel t s) as (new & s' & E & Hex & Hcl & Hr & Hk); [done|done| |].
  { eapply Nat.le_lt_trans; [apply subseteq_size|exact Hf]. set_solver. }
  pose proof (ex_checked _ _ _ _ _ _ Hex) as Hs'.
  assert (Hc' : ∀ t u, t ∈ checked s' → part types t u → u ∈ checked s').
  { intros t' u Hin Hp. rewrite Hs' in Hin. apply elem_of_union in Hin as [Hin|Hin].
    - rewrite Hs'. apply elem_of_union_l. by eapply Hc.
    - eapply Hcl; [|exact Hp]. by apply elem_of_list_to_set in Hin. }
  assert (Hreach : ∀ t u, rtc (part types) t u → t ∈ checked s' → u ∈ checked s') by (induction 1; eauto).
  exists new, s'. split_and!; [done|done| |split; [by eapply explored_in|done]].
  intros u. split.
  - intros Hu. split; [|by apply (ex_fresh _ _ _ _ _ _ Hex)].
    destruct (Hr u Hu) as (t' & ->%list_elem_of_singleton & ?). done.
  - intros [Hu Hn]. assert (Hin : u ∈ checked s') by (eapply Hreach; [done|apply Hk; set_solver]).
    rewrite Hs' in Hin. set_solver.
Qed.

Section gob.
Context {byte error : Type}.
Context (gob_Encode : heap → option value → list byte * error).
Context (gob_Decode : heap → option value → list byte → heap * list byte * error).

(** C38: [Encode] answers what gob answers, on every value, also of a type that
    contains itself: the search through the types ends. It visits exactly the
    types the type of the value is made of and no earlier call has visited, and
    prints and counts one complaint for each of their fields that is not
    capitalized. *)
Theorem Encode_complains_once types IsUpper_wide (U : gset rtype) fuel h v s :
  (∀ t u, t ∈ U → part types t u → u ∈ U) → TypeOf v ∈ U → (size U < fuel)%nat → checked_closed types s →
  ∃ new s', Encode types IsUpper_wide gob_Encode fuel h (Some v) s = Some (s', gob_Encode h (Some v)) ∧
    explored types IsUpper_wide s new [] s' ∧
    (∀ u, u ∈ new ↔ rtc (part types) (TypeOf v) u ∧ u ∉ checked s) ∧ checked_closed types s'.
Proof.
  intros HU Hv Hf Hs.
  destruct (checkType_reaches types IsUpper_wide U fuel (TypeOf v) s) as (new & s' & E & H); [done..|].
  exists new, s'. split; [|done]. unfold Encode, checkValue. simpl. by rewrite E.
Qed.

(** [Decode] panics when a variable of a basic type at most two steps (into a
    field, or along a pointer) away is reached through a field that is not exported.
    Otherwise it answers what gob answers, also for a variable that leads back
    to itself, and warns exactly when a variable at most two steps away holds
    something that is not the zero value of its type: deeper ones are not looked
    at. A nil destination, which gob would accept, panics. *)
Theorem Decode_warns types Anonymous IsUpper_wide (U : gset rtype) fuel h v r s :
  (∀ t u, t ∈ U → part types t u → u ∈ U) → TypeOf v ∈ U → (size U < fuel)%nat → (4 <= fuel)%nat →
  checked_closed types s → (∀ w, rtc (child h) v w → well_shaped types h w) →
  let hides := hidden_within types Anonymous IsUpper_wide h 2 (Exported, v) in
  (hides ∧ Decode types Anonymous IsUpper_wide gob_Decode fuel h (Some v) r s = None ∨
   ¬ hides ∧ ∃ s1 s' k, checkValue types IsUpper_wide fuel (Some v) s = Some s1 ∧
     Decode types Anonymous IsUpper_wide gob_Decode fuel h (Some v) r s = Some (s', gob_Decode h (Some v) r) ∧
     warned k s1 s' ∧ (k = 0%nat ↔ default_within h 2 v)) ∧
  Decode types Anonymous IsUpper_wide gob_Decode fuel h None r s = None.
Proof.
  intros HU Hv Hf Hf4 Hs Hwf hides. split; [|done].
  destruct (checkType_reaches types IsUpper_wide U fuel (TypeOf v) s) as (new & s1 & E & Hex & _); [done..|].
  assert (Ev : checkValue types IsUpper_wide fuel (Some v) s = Some s1) by exact E.
  unfold Decode, checkDefault. rewrite Ev. cbn [mbind option_bind]. destruct fuel as [|fuel]; [lia|].
  destruct (proj1 (finds_one _ _ _ _ _ _ _ _) (checkDefault1_ok types Anonymous IsUpper_wide h fuel Exported v 1 "" s1 ltac:(lia) ltac:(lia)
    (explored_in _ _ _ _ _ _ Hex) Hwf)) as [[E' Hh]|(s' & k & E' & Hh & Hw & Hk)]; rewrite E'; [by left|].
  right. split; [exact Hh|]. by exists s1, s', k.
Qed.
End gob.

(** ** The tests of the package *)

(** The types of [TestCapital] and [TestDefault]: int, T4, *T4, map[*T4]int,
    []map[*T4]int, DD and *DD. *)
Definition test_types (t : rtype) : desc :=
  match t with
  | 0%nat => DBasic "int"
  | 1%nat => DStruct "T4" [("Yes", 0%nat); ("no", 0%nat)]
  | 2%nat => DPtr 1%nat
  | 3%nat => DMap 2%nat 0%nat
  | 4%nat => DSlice 3%nat
  | 5%nat => DStruct "DD" [("X", 0%nat)]
  | 6%nat => DPtr 5%nat
  | _ => DOther "interface {}"
  end.

Definition test_universe : gset rtype := {[0%nat; 1%nat; 2%nat; 3%nat; 4%nat; 5%nat; 6%nat]}.

Definition test_start : labgob := MkLabgob 0 ∅ [].

Lemma test_universe_closed t u : t ∈ test_universe → part test_types t u → u ∈ test_universe.
Proof.
  unfold test_universe. rewrite !elem_of_union, !elem_of_singleton.
  intros [[[[[[->| ->]| ->]| ->]| ->]| ->]| ->]; unfold part; simpl; set_solver.
Qed.

Lemma test_start_closed : checked_closed test_types test_start.
Proof. split; [done|]. simpl. set_solver. Qed.

Lemma Encode_complains_once_witness :
  ∃ new s', Encode test_types (λ _, false) (λ _ _, (@nil nat, true)) 8 ∅ (Some (VOther 4)) test_start = Some (s', ([], true)) ∧
    explored test_types (λ _, false) test_start new [] s' ∧ errorCount s' = 1.
Proof.
  destruct (Encode_complains_once (λ _ _, (@nil nat, true)) test_types (λ _, false) test_universe 8 ∅ (VOther 4) test_start)
    as (new & s' & E & Hex & _).
  - exact test_universe_closed.
  - vm_compute. done.
  - vm_compute. lia.
  - exact test_start_closed.
  - exists new, s'. split_and!; [exact E|exact Hex|]. revert E. vm_compute. by intros [= <-].
Defined.

Lemma Decode_warns_witness :
  let h := <[7%nat := VStruct 5 [VBasic 0 (BInt 99)]]> (∅ : heap) in
  ∃ s' k, Decode test_types (λ _ _, false) (λ _, false) (λ h _ _, (h, @nil nat, true)) 8 h (Some (VPtr 6 (Some 7%nat))) [] test_start
            = Some (s', (h, [], true)) ∧
    (k = 0%nat ↔ default_within h 2 (VPtr 6 (Some 7%nat))) ∧ errorCount s' = 1.
Proof.
  intros h.
  destruct (Decode_warns (λ h _ _, (h, @nil nat, true)) test_types (λ _ _, false) (λ _, false) test_universe 8 h
    (VPtr 6 (Some 7%nat)) [] test_start) as [[[_ E]|(_ & s1 & s' & k & _ & E & _ & Hk)] _].
  - exact test_universe_closed.
  - vm_compute. done.
  - vm_compute. lia.
  - lia.
  - exact test_start_closed.
  - intros w Hw. apply rtc_inv in Hw as [<-|(x & Hx & Hw)]; [vm_compute; eauto|].
    simpl in Hx. injection Hx as <-.
    apply rtc_inv in Hw as [<-|(x & Hx & Hw)]; [by eexists _, _|].
    simpl in Hx. apply list_elem_of_singleton in Hx as ->.
    apply rtc_inv in Hw as [<-|(x & [] & Hw)]. done.
  - revert E. vm_compute. discriminate.
  - exists s', k. split_and!; [exact E|exact Hk|]. revert E. vm_compute. by intros [= <-].
Defined.

(** A T4, whose field [no] is not exported, cannot be decoded into, whether it holds
    something or not. *)
Example Decode_lower_case_panics b c :
  Decode test_types (λ _ _, false) (λ _, false) (λ h _ _, (h, @nil nat, true)) 8 ∅ (Some (VStruct 1 [VBasic 0 b; VBasic 0 c])) [] test_start = None.
Proof. unfold Decode. simpl. by destruct (is_zero b). Qed.

End LabGob.
