(* ===== verification/Persister.v ===== *)
(** * The persister

    [src/6.5840/src/raft/persister.go]: the bytes a Raft server and its service
    save across a restart. Slices share arrays in a store, so that it matters
    which method copies: [Save] and the two readers clone, [Copy] only copies the
    two slice headers. The methods hold the lock, so each is one step. *)
From S2P Require Import Prelude.
Local Open Scope nat_scope.

Module Persister.

Section persister.
Context {byte : Type}.

(** ** Slices *)

Abbreviation loc := nat (only parsing).

(** The arrays of the program, by the order of their allocation. *)
Abbreviation store := (list (list byte)) (only parsing).

(** A slice that is not nil. *)
Record slice := Slice { s_arr : loc; s_off : nat; s_len : nat }.

(** The bytes of a slice; nil has none. *)
Definition bytes_of (m : store) (s : option slice) : list byte :=
  match s with
  | None => []
  | Some s => take (s_len s) (drop (s_off s) (default [] (m !! s_arr s)))
  end.

Definition slice_len (s : option slice) : nat := from_option s_len 0 s.

(** A new array with these bytes, and a slice of all of it. *)
Definition alloc (m : store) (bs : list byte) : store * option slice :=
  (m ++ [bs], Some (Slice (length m) 0 (length bs))).

Definition clone (m : store) (orig : option slice) : store * option slice := alloc m (bytes_of m orig).

(** ** persister.go *)

Record Persister := MkPersister {
  raftstate : option slice;
  snapshot : option slice;
}.

Definition MakePersister : Persister := MkPersister None None.

Definition Copy (ps : Persister) : Persister :=
  let np := MakePersister in
  let np := MkPersister (raftstate ps) (snapshot np) in
  MkPersister (raftstate np) (snapshot ps).

Definition ReadRaftState (m : store) (ps : Persister) : store * option slice := clone m (raftstate ps).

Definition RaftStateSize (ps : Persister) : nat := slice_len (raftstate ps).

Definition Save (m : store) (ps : Persister) (rs sn : option slice) : store * Persister :=
  let '(m, rs) := clone m rs in
  let ps := MkPersister rs (snapshot ps) in
  let '(m, sn) := clone m sn in
  (m, MkPersister (raftstate ps) sn).

Definition ReadSnapshot (m : store) (ps : Persister) : store * option slice := clone m (snapshot ps).

Definition SnapshotSize (ps : Persister) : nat := slice_len (snapshot ps).

(** ** Programs that use persisters

    The program around them knows persisters by number and the arrays it has
    allocated or been given by a reader by handle. It may write into its arrays
    at any time. *)

(** The slice expression [a[off:off+len]] of the array of a handle, or nil. *)
Definition view := option (nat * nat * nat).

Inductive op :=
| OMake
| OCopy (p : nat)
| OAlloc (bs : list byte)
| OWrite (hd i : nat) (b : byte)
| OSave (p : nat) (rs sn : view)
| OReadRaftState (p : nat)
| OReadSnapshot (p : nat)
| ORaftStateSize (p : nat)
| OSnapshotSize (p : nat).

(** What an operation lets the program see. *)
Inductive obs :=
| ODone
| OBytes (bs : list byte)
| OSize (n : nat).

Record world := World {
  w_store : store;
  w_ps : list Persister;
  w_hds : list loc;
}.

Definition slice_of (m : store) (hds : list loc) (v : view) : option (option slice) :=
  match v with
  | None => Some None
  | Some (hd, off, len) =>
      l ← hds !! hd; a ← m !! l;
      if decide (off + len ≤ length a) then Some (Some (Slice l off len)) else None
  end.

(** The array of a new slice. *)
Definition handle (s : option slice) : list loc := from_option (λ s, [s_arr s]) [] s.

(** [None]: a number, a handle or an index that does not exist. *)
Definition step (w : world) (o : op) : option (world * obs) :=
  let '(World m ps hds) := w in
  match o with
  | OMake => Some (World m (ps ++ [MakePersister]) hds, ODone)
  | OCopy p => x ← ps !! p; Some (World m (ps ++ [Copy x]) hds, ODone)
  | OAlloc bs => let '(m, s) := alloc m bs in Some (World m ps (hds ++ handle s), ODone)
  | OWrite hd i b =>
      l ← hds !! hd; a ← m !! l;
      if decide (i < length a) then Some (World (<[l := <[i := b]> a]> m) ps hds, ODone) else None
  | OSave p rs sn =>
      x ← ps !! p; rs ← slice_of m hds rs; sn ← slice_of m hds sn;
      let '(m, x) := Save m x rs sn in Some (World m (<[p := x]> ps) hds, ODone)
  | OReadRaftState p =>
      x ← ps !! p; let '(m, s) := ReadRaftState m x in Some (World m ps (hds ++ handle s), OBytes (bytes_of m s))
  | OReadSnapshot p =>
      x ← ps !! p; let '(m, s) := ReadSnapshot m x in Some (World m ps (hds ++ handle s), OBytes (bytes_of m s))
  | ORaftStateSize p => x ← ps !! p; Some (w, OSize (RaftStateSize x))
  | OSnapshotSize p => x ← ps !! p; Some (w, OSize (SnapshotSize x))
  end.

Fixpoint exec (w : world) (os : list op) : option (world * list obs) :=
  match os with
  | [] => Some (w, [])
  | o :: os => '(w, x) ← step w o; '(w, xs) ← exec w os; Some (w, x :: xs)
  end.

Definition init : world := World [] [] [].

(** ** The specification

    A persister holds two byte strings, a handle holds the bytes of its array,
    and nothing is shared. *)
Record spec := Spec {
  a_ps : list (list byte * list byte);
  a_bufs : list (list byte);
}.

Definition view_bytes (bufs : list (list byte)) (v : view) : option (list byte) :=
  match v with
  | None => Some []
  | Some (hd, off, len) =>
      b ← bufs !! hd; if decide (off + len ≤ length b) then Some (take len (drop off b)) else None
  end.

Definition spec_step (a : spec) (o : op) : option (spec * obs) :=
  let '(Spec ps bufs) := a in
  match o with
  | OMake => Some (Spec (ps ++ [([], [])]) bufs, ODone)
  | OCopy p => x ← ps !! p; Some (Spec (ps ++ [x]) bufs, ODone)
  | OAlloc bs => Some (Spec ps (bufs ++ [bs]), ODone)
  | OWrite hd i b =>
      a ← bufs !! hd; if decide (i < length a) then Some (Spec ps (<[hd := <[i := b]> a]> bufs), ODone) else None
  | OSave p rs sn =>
      _ ← ps !! p; rs ← view_bytes bufs rs; sn ← view_bytes bufs sn;
      Some (Spec (<[p := (rs, sn)]> ps) bufs, ODone)
  | OReadRaftState p => x ← ps !! p; Some (Spec ps (bufs ++ [x.1]), OBytes x.1)
  | OReadSnapshot p => x ← ps !! p; Some (Spec ps (bufs ++ [x.2]), OBytes x.2)
  | ORaftStateSize p => x ← ps !! p; Some (a, OSize (length x.1))
  | OSnapshotSize p => x ← ps !! p; Some (a, OSize (length x.2))
  end.

Fixpoint spec_exec (a : spec) (os : list op) : option (spec * list obs) :=
  match os with
  | [] => Some (a, [])
  | o :: os => '(a, x) ← spec_step a o; '(a, xs) ← spec_exec a os; Some (a, x :: xs)
  end.

Definition spec_init : spec := Spec [] [].

(** ** Refinement *)

(** A slice a persister may hold: all of an array the program has no handle of. *)
Definition owned (m : store) (hds : list loc) (s : option slice) (bs : list byte) : Prop :=
  match s with
  | None => bs = []
  | Some s => s_off s = 0 ∧ s_len s = length bs ∧ m !! s_arr s = Some bs ∧ s_arr s ∉ hds
  end.

Definition owns (m : store) (hds : list loc) (x : Persister) (a : list byte * list byte) : Prop :=
  owned m hds (raftstate x) a.1 ∧ owned m hds (snapshot x) a.2.

Record refines (w : world) (a : spec) : Prop := Refines {
  rf_ps : Forall2 (owns (w_store w) (w_hds w)) (w_ps w) (a_ps a);
  rf_bufs : Forall2 (λ l b, w_store w !! l = Some b) (w_hds w) (a_bufs a);
  rf_hds : NoDup (w_hds w);
}.

Lemma owned_bytes m hds s bs : owned m hds s bs → bytes_of m s = bs ∧ slice_len s = length bs.
Proof.
  destruct s as [[l off len]|]; simpl; [|by intros ->]. intros (-> & -> & -> & _). simpl.
  by rewrite drop_0, take_ge.
Qed.

(** A new array changes nothing of the old ones. *)
Lemma owns_alloc m hds x a b : owns m hds x a → owns (m ++ [b]) hds x a.
Proof.
  unfold owns, owned. destruct (raftstate x), (snapshot x); naive_solver eauto using lookup_app_l_Some.
Qed.

Lemma owns_handle m hds x a l : m !! l = None → owns m hds x a → owns m (hds ++ [l]) x a.
Proof.
  intros Hl. unfold owns, owned.
  assert (Hne : ∀ s bs, m !! s_arr s = Some bs → s_arr s ∉ hds → s_arr s ∉ hds ++ [l]).
  { intros s bs Hs Hn. rewrite elem_of_app, list_elem_of_singleton. intros [?|E]; [done|congruence]. }
  destruct (raftstate x), (snapshot x); naive_solver.
Qed.

Lemma owns_write m hds x a l c : l ∈ hds → owns m hds x a → owns (<[l := c]> m) hds x a.
Proof.
  intros Hl. unfold owns, owned.
  assert (Hne : ∀ s bs, m !! s_arr s = Some bs → s_arr s ∉ hds → <[l := c]> m !! s_arr s = Some bs).
  { intros s bs Hs Hn. rewrite list_lookup_insert_ne; [done|]. by intros ->. }
  destruct (raftstate x), (snapshot x); naive_solver.
Qed.

Lemma refines_alloc w a b :
  refines w a → refines (World (w_store w ++ [b]) (w_ps w) (w_hds w)) a.
Proof.
  intros [Hps Hb Hn]. split; simpl; [|..|done].
  - eapply Forall2_impl; [exact Hps|]. eauto using owns_alloc.
  - eapply Forall2_impl; [exact Hb|]. eauto using lookup_app_l_Some.
Qed.

(** The program is given a handle of a new array. *)
Lemma refines_handle w a b :
  refines w a → refines (World (w_store w ++ [b]) (w_ps w) (w_hds w ++ [length (w_store w)])) (Spec (a_ps a) (a_bufs a ++ [b])).
Proof.
  intros Hr. pose proof (refines_alloc _ _ b Hr) as [Hps Hb Hn]. destruct Hr as [Hps0 Hb0 _]. simpl in *.
  split; simpl.
  - clear Hps. eapply Forall2_impl; [exact Hps0|]. intros x y Hx. 
    apply (owns_alloc _ _ _ _ b). apply owns_handle; [by apply lookup_ge_None|done].
  - apply Forall2_app; [done|]. constructor; [|done]. by rewrite list_lookup_middle.
  - apply NoDup_app. split_and!; [done| |by apply NoDup_singleton]. intros l Hl ->%list_elem_of_singleton.
    apply list_elem_of_lookup in Hl as [i Hi]. destruct (Forall2_lookup_l _ _ _ _ _ Hb0 Hi) as (c & _ & Hc).
    apply lookup_lt_Some in Hc. lia.
Qed.

Lemma view_slice w a v : refines w a →
  match slice_of (w_store w) (w_hds w) v with
  | Some s => view_bytes (a_bufs a) v = Some (bytes_of (w_store w) s) ∧
              ∀ b, bytes_of (w_store w ++ [b]) s = bytes_of (w_store w) s
  | None => view_bytes (a_bufs a) v = None
  end.
Proof.
  intros [_ Hb _]. destruct v as [[[hd off] len]|]; [|done]. simpl.
  destruct (w_hds w !! hd) as [l|] eqn:E; simpl.
  - destruct (Forall2_lookup_l _ _ _ _ _ Hb E) as (c & -> & Hc). simpl. rewrite Hc. simpl.
    case_decide; [|done]. simpl. rewrite Hc. split; [done|].
    intros b. by rewrite (lookup_app_l_Some _ _ _ _ Hc).
  - apply lookup_ge_None in E. by rewrite lookup_ge_None_2 by (by rewrite <- (Forall2_length _ _ _ Hb)).
Qed.

Lemma persister_of w a p : refines w a →
  match w_ps w !! p with
  | Some x => ∃ y, a_ps a !! p = Some y ∧ owns (w_store w) (w_hds w) x y
  | None => a_ps a !! p = None
  end.
Proof.
  intros [Hp _ _]. destruct (w_ps w !! p) eqn:E; [by eapply Forall2_lookup_l|].
  apply lookup_ge_None. apply lookup_ge_None in E. by rewrite <- (Forall2_length _ _ _ Hp).
Qed.

Lemma refines_write w a hd l bs c : refines w a →
  w_hds w !! hd = Some l → w_store w !! l = Some bs →
  refines (World (<[l := c]> (w_store w)) (w_ps w) (w_hds w)) (Spec (a_ps a) (<[hd := c]> (a_bufs a))).
Proof.
  intros [Hp Hb Hn] Hl Hbs. split; simpl; [| |done].
  - eapply Forall2_impl; [exact Hp|]. intros x y. apply owns_write. by eapply list_elem_of_lookup_2.
  - apply Forall2_lookup. intros i. destruct (decide (hd = i)) as [<-|Hi].
    + rewrite Hl, list_lookup_insert_eq by (rewrite <- (Forall2_length _ _ _ Hb); by eapply lookup_lt_Some).
      constructor. apply list_lookup_insert_eq. by eapply lookup_lt_Some.
    + rewrite list_lookup_insert_ne by done. rewrite Forall2_lookup in Hb. specialize (Hb i).
      destruct (w_hds w !! i) as [l'|] eqn:E; inversion_clear Hb as [? b Hb'|]; constructor. rewrite list_lookup_insert_ne; [done|].
      (* two handles do not share an array *)
      intros <-. by apply Hi, (NoDup_lookup _ _ _ _ Hn Hl).
Qed.

Lemma new_not_handle w a i : refines w a → length (w_store w) ≤ i → i ∉ w_hds w.
Proof.
  intros [_ Hb _] Hi [k Hk]%list_elem_of_lookup. destruct (Forall2_lookup_l _ _ _ _ _ Hb Hk) as (b & _ & Hl).
  apply lookup_lt_Some in Hl. lia.
Qed.

Lemma refines_save w a p rb sb : refines w a →
  refines (World ((w_store w ++ [rb]) ++ [sb])
             (<[p := MkPersister (Some (Slice (length (w_store w)) 0 (length rb)))
                       (Some (Slice (length (w_store w ++ [rb])) 0 (length sb)))]> (w_ps w)) (w_hds w))
          (Spec (<[p := (rb, sb)]> (a_ps a)) (a_bufs a)).
Proof.
  intros Hr. pose proof (refines_alloc _ _ sb (refines_alloc _ _ rb Hr)) as [Hp Hb Hn]. simpl in *.
  split; simpl; [|done..]. apply Forall2_insert; [done|]. split; simpl; split_and!; try done.
  - apply lookup_app_l_Some. by rewrite list_lookup_middle.
  - by apply (new_not_handle _ _ _ Hr).
  - by rewrite list_lookup_middle.
  - apply (new_not_handle _ _ _ Hr). rewrite length_app. lia.
Qed.

Lemma Copy_eq x : Copy x = x.
Proof. by destruct x. Qed.

Lemma refines_step w a o : refines w a →
  match step w o with
  | Some (w', x) => ∃ a', spec_step a o = Some (a', x) ∧ refines w' a'
  | None => spec_step a o = None
  end.
Proof.
  intros Hr. destruct w as [m ps hds] eqn:Ew, a as [aps bufs] eqn:Ea.
  destruct o as [|p|bs|hd i b|p rs sn|p|p|p|p]; simpl;
    try (pose proof (persister_of _ _ p Hr) as Hp; simpl in Hp;
         destruct (ps !! p) as [x|] eqn:Ex; simpl; [destruct Hp as (y & -> & Hy); simpl|by rewrite Hp]).
  - eexists. split; [done|]. destruct Hr as [Hp Hb Hn]. split; simpl in *; [|done..].
    apply Forall2_app; [done|]. by repeat constructor.
  - eexists. split; [done|]. rewrite Copy_eq. destruct Hr as [Hp Hb Hn]. split; simpl in *; [|done..].
    apply Forall2_app; [done|]. by constructor.
  - eexists. split; [done|]. exact (refines_handle _ _ bs Hr).
  - pose proof (rf_bufs _ _ Hr) as Hb. simpl in Hb. destruct (hds !! hd) as [l|] eqn:El; simpl.
    + destruct (Forall2_lookup_l _ _ _ _ _ Hb El) as (c & -> & Hc). simpl. rewrite Hc. simpl.
      case_decide; [|done]. eexists. split; [done|]. exact (refines_write _ _ hd l c _ Hr El Hc).
    + apply lookup_ge_None in El. by rewrite lookup_ge_None_2 by (by rewrite <- (Forall2_length _ _ _ Hb)).
  - pose proof (view_slice _ _ rs Hr) as H1. pose proof (view_slice _ _ sn Hr) as H2. simpl in *.
    destruct (slice_of m hds rs) as [s1|]; simpl; [destruct H1 as [-> H1]; simpl|by rewrite H1].
    destruct (slice_of m hds sn) as [s2|]; simpl; [destruct H2 as [-> H2]; simpl|by rewrite H2].
    eexists. split; [done|]. rewrite H2. exact (refines_save _ _ p _ _ Hr).
  - destruct Hy as [[Hy _]%owned_bytes _]. rewrite Hy. eexists. rewrite list_lookup_middle by done. simpl.
    rewrite drop_0, take_ge by done. split; [done|]. exact (refines_handle _ _ _ Hr).
  - destruct Hy as [_ [Hy _]%owned_bytes]. rewrite Hy. eexists. rewrite list_lookup_middle by done. simpl.
    rewrite drop_0, take_ge by done. split; [done|]. exact (refines_handle _ _ _ Hr).
  - destruct Hy as [[_ Hy]%owned_bytes _]. eexists. unfold RaftStateSize. by rewrite Hy.
  - destruct Hy as [_ [_ Hy]%owned_bytes]. eexists. unfold SnapshotSize. by rewrite Hy.
Qed.

Lemma refines_exec w a os : refines w a → snd <$> exec w os = snd <$> spec_exec a os.
Proof.
  revert w a. induction os as [|o os IH]; intros w a Hr; [done|]. simpl.
  pose proof (refines_step w a o Hr) as H. destruct (step w o) as [[w' x]|]; [|by rewrite H].
  destruct H as (a' & -> & Hr'). simpl. specialize (IH _ _ Hr').
  destruct (exec w' os) as [[? ?]|], (spec_exec a' os) as [[? ?]|]; simpl in *; congruence.
Qed.

(** C34: Programs that use persisters see what they would see if every persister
    and every slice had bytes of its own: what [Save] was given is what the
    readers return, with the sizes that belong to it, until the next [Save] of
    the same persister; a copy keeps what its original held; no write into a
    slice that was saved or read changes a persister. *)
Theorem persister_refines os : snd <$> exec init os = snd <$> spec_exec spec_init os.
Proof. apply refines_exec. repeat constructor. Qed.

End persister.
End Persister.
