(* ===== verification/LabRpc.v ===== *)
(** * The simulated network

    [src/6.5840/src/labrpc/labrpc.go]: client end-points, the network that loses
    and delays their requests and replies, and the servers that dispatch a
    request to a method by its name. What the methods and the codec do is a
    parameter; the names of ends and servers are of any type. A run is a list of
    actions, each a part of the code between two points where another goroutine
    can come in: the goroutine of [Call], the one of the network, the one of
    [processReq] and the one that runs the handler. Sleeps and timers only
    choose an order of the actions, and the numbers [rand] draws are arguments. *)
From Stdlib Require Import Ascii.
From S2P Require Import Prelude LabGob.
Import LabGob.
Local Open Scope Z_scope.

Module LabRpc.

(** What the package uses of labgob: a new value of a type, the bytes of a value
    ([None]: an error), and a value after bytes were decoded into it, with
    whether there was no error. *)
Class Codec (V : Type) := {
  New : rtype → V;
  EncodeV : V → option (list Byte.byte);
  DecodeV : list Byte.byte → V → V * bool;
}.

(** What a step of a goroutine does: it has to wait, it ends the program, or it
    goes on. *)
Inductive outcome (A : Type) := Blocked | Crash | Next (a : A).
Arguments Blocked {_}.
Arguments Crash {_}.
Arguments Next {_} _.

#[global] Instance outcome_ret : MRet outcome := λ A a, Next a.
#[global] Instance outcome_bind : MBind outcome := λ A B f r,
  match r with Blocked => Blocked | Crash => Crash | Next a => f a end.

(** The value of an option; [None] is a panic or a [log.Fatalf]. *)
Definition or_crash {A} (o : option A) : outcome A := match o with Some a => Next a | None => Crash end.
(** The same when the code waits for it. *)
Definition or_block {A} (o : option A) : outcome A := match o with Some a => Next a | None => Blocked end.

(** The names the tests give: strings for ends, integers for servers. *)
Inductive name := EndName (s : string) | ServerName (i : nat).

#[global] Instance name_eq_dec : EqDecision name.
Proof. solve_decision. Defined.

#[global] Instance name_countable : Countable name.
Proof.
  refine (inj_countable' (λ x, match x with EndName s => inl s | ServerName i => inr i end)
                         (λ x, match x with inl s => EndName s | inr i => ServerName i end) _).
  by intros [].
Defined.

Section labrpc.
(** [W]: the state of the objects whose methods are called. *)
Context {W V N : Type} `{Codec V, Countable N} (types : rtype → desc).

(** ** Messages *)

Record reqMsg := MkReqMsg {
  endname : N;
  svcMeth : string;
  argsType : rtype;
  args : list Byte.byte;
}.

Record replyMsg := MkReplyMsg { ok : bool; reply : list Byte.byte }.

Definition no_reply : replyMsg := MkReplyMsg false [].

(** ** Services and servers *)

Record Method := MkMethod {
  m_Name : string;
  m_PkgPath : string;
  m_In : list rtype;
  m_NumOut : nat;
  m_Func : W → V → V → W * V;
}.

Record Service := MkService { svc_name : string; methods : gmap string Method }.

Definition is_ptr (d : desc) : bool := match d with DPtr _ => true | _ => false end.
Definition Elem (d : desc) : rtype := match d with DPtr t | DSlice t | DArray t => t | _ => 0%nat end.

(** The test of [MakeService]; [In(2)] is only looked at when there are three. *)
Definition is_handler (m : Method) : bool :=
  negb (negb (String.eqb (m_PkgPath m) "") ||
        negb (Nat.eqb (length (m_In m)) 3) ||
        negb (is_ptr (types (default 0%nat (m_In m !! 2%nat)))) ||
        negb (Nat.eqb (m_NumOut m) 0)).

(** [rcvr_name] and [rcvr_methods] are what reflection tells of the receiver. *)
Definition MakeService (rcvr_name : string) (rcvr_methods : list Method) : Service :=
  MkService rcvr_name
    (foldl (λ ms m, if is_handler m then <[m_Name m := m]> ms else ms) ∅ rcvr_methods).

Definition Service_dispatch (svc : Service) (methname : string) (req : reqMsg) (w : W) : option (W * replyMsg) :=
  method ← methods svc !! methname;
  let a := New (argsType req) in
  let a := (DecodeV (args req) a).1 in
  let replyType := Elem (types (default 0%nat (m_In method !! 2%nat))) in
  let replyv := New replyType in
  let '(w, replyv) := m_Func method w a replyv in
  Some (w, MkReplyMsg true (default [] (EncodeV replyv))).

Record Server := MkServer { services : gmap string Service; s_count : Z }.

Definition MakeServer : Server := MkServer ∅ 0.

Definition AddService (svc : Service) (rs : Server) : Server :=
  MkServer (<[svc_name svc := svc]> (services rs)) (s_count rs).

(** [strings.LastIndex s "."], or -1. *)
Fixpoint LastIndex_dot (s : string) : Z :=
  match s with
  | EmptyString => -1
  | String c s =>
      let i := LastIndex_dot s in
      if 0 <=? i then i + 1 else if Ascii.eqb c "." then 0 else -1
  end.

(** The slices [s[:i]] and [s[i+1:]]; a negative [i] panics. *)
Definition split_at (s : string) (i : Z) : option (string * string) :=
  if i <? 0 then None
  else Some (String.substring 0 (Z.to_nat i) s,
             String.substring (Z.to_nat i + 1) (String.length s - (Z.to_nat i + 1)) s).

Definition dispatch (rs : Server) (req : reqMsg) (w : W) : option (Server * W * replyMsg) :=
  let rs := MkServer (services rs) (wrap_s 64 (s_count rs + 1)) in
  let dot := LastIndex_dot (svcMeth req) in
  '(serviceName, methodName) ← split_at (svcMeth req) dot;
  service ← services rs !! serviceName;
  '(w, r) ← Service_dispatch service methodName req w;
  Some (rs, w, r).

Definition Server_GetCount (rs : Server) : Z := s_count rs.

(** ** The network *)

Record Network := MkNetwork {
  reliable : bool;
  longDelays : bool;
  longReordering : bool;
  ends : gset N;
  enabled : gmap N bool;
  servers : gmap N (option nat);
  connections : gmap N (option N);
  count : Z;
  bytes : Z;
  closed : bool;
}.

Definition MakeNetwork : Network := MkNetwork true false false ∅ ∅ ∅ ∅ 0 0 false.

Definition set_reliable (b : bool) (rn : Network) : Network :=
  MkNetwork b (longDelays rn) (longReordering rn) (ends rn) (enabled rn) (servers rn) (connections rn)
    (count rn) (bytes rn) (closed rn).
Definition set_longDelays (b : bool) (rn : Network) : Network :=
  MkNetwork (reliable rn) b (longReordering rn) (ends rn) (enabled rn) (servers rn) (connections rn)
    (count rn) (bytes rn) (closed rn).
Definition set_longReordering (b : bool) (rn : Network) : Network :=
  MkNetwork (reliable rn) (longDelays rn) b (ends rn) (enabled rn) (servers rn) (connections rn)
    (count rn) (bytes rn) (closed rn).
Definition set_ends (es : gset N) (en : gmap N bool) (cs : gmap N (option N)) (rn : Network) : Network :=
  MkNetwork (reliable rn) (longDelays rn) (longReordering rn) es en (servers rn) cs
    (count rn) (bytes rn) (closed rn).
Definition set_servers (ss : gmap N (option nat)) (rn : Network) : Network :=
  MkNetwork (reliable rn) (longDelays rn) (longReordering rn) (ends rn) (enabled rn) ss (connections rn)
    (count rn) (bytes rn) (closed rn).
Definition add_count (c b : Z) (rn : Network) : Network :=
  MkNetwork (reliable rn) (longDelays rn) (longReordering rn) (ends rn) (enabled rn) (servers rn) (connections rn)
    (wrap_s 32 (count rn + c)) (wrap_s 64 (bytes rn + b)) (closed rn).
Definition close (rn : Network) : Network :=
  MkNetwork (reliable rn) (longDelays rn) (longReordering rn) (ends rn) (enabled rn) (servers rn) (connections rn)
    (count rn) (bytes rn) true.

(** Closing a closed channel panics. *)
Definition Cleanup (rn : Network) : option Network := if closed rn then None else Some (close rn).

Definition Reliable (yes : bool) (rn : Network) : Network := set_reliable yes rn.
Definition LongReordering (yes : bool) (rn : Network) : Network := set_longReordering yes rn.
Definition LongDelays (yes : bool) (rn : Network) : Network := set_longDelays yes rn.

Definition MakeEnd (e : N) (rn : Network) : option Network :=
  if decide (e ∈ ends rn) then None
  else Some (set_ends ({[e]} ∪ ends rn) (<[e := false]> (enabled rn)) (<[e := None]> (connections rn)) rn).

Definition DeleteEnd (e : N) (rn : Network) : option Network :=
  if decide (e ∉ ends rn) then None
  else Some (set_ends (ends rn ∖ {[e]}) (delete e (enabled rn)) (delete e (connections rn)) rn).

Definition AddServer (servername : N) (rs : nat) (rn : Network) : Network :=
  set_servers (<[servername := Some rs]> (servers rn)) rn.

Definition DeleteServer (servername : N) (rn : Network) : Network :=
  set_servers (<[servername := None]> (servers rn)) rn.

Definition Connect (e servername : N) (rn : Network) : Network :=
  set_ends (ends rn) (enabled rn) (<[e := Some servername]> (connections rn)) rn.

Definition Enable (e : N) (b : bool) (rn : Network) : Network :=
  set_ends (ends rn) (<[e := b]> (enabled rn)) (connections rn) rn.

(** Reading a map of pointers or interfaces: nil when the key is missing. *)
Definition read {A} (m : gmap N (option A)) (k : N) : option A := mjoin (m !! k).

(** A nil server panics. *)
Definition GetCount (servername : N) (rn : Network) (objs : gmap nat Server) : option Z :=
  svr ← read (servers rn) servername; rs ← objs !! svr; Some (Server_GetCount rs).

Definition GetTotalCount (rn : Network) : Z := count rn.
Definition GetTotalBytes (rn : Network) : Z := bytes rn.

Record info := Info {
  i_enabled : bool;
  i_servername : option N;
  i_server : option nat;
  i_reliable : bool;
  i_longreordering : bool;
}.

Definition readEndnameInfo (e : N) (rn : Network) : info :=
  let servername := read (connections rn) e in
  Info (default false (enabled rn !! e)) servername (servername ≫= read (servers rn))
    (reliable rn) (longReordering rn).

Definition isServerDead (e : N) (servername : N) (server : nat) (rn : Network) : bool :=
  Bool.eqb (default false (enabled rn !! e)) false || bool_decide (read (servers rn) servername ≠ Some server).

(** ** Calls *)

(** Where the goroutines of one call are. In [Waiting], [Taken] and [Dead] the
    end is connected to the server of this name, at this address. *)
Inductive pc :=
| Sending
| Accepted
| Informed (i : info)
| Waiting (servername : N) (server : nat) (rel reord : bool)
| Taken (servername : N) (server : nat) (rel reord : bool) (r : replyMsg)
| Dead
| Answering (r : replyMsg)
| Returned (b : bool) (v : V).

(** The goroutine of the handler: there is none, it has not run the handler
    yet, or it has and sends the reply. *)
Inductive handler :=
| HNone
| HPending (server : nat)
| HReady (r : replyMsg).

Record call := MkCall {
  c_req : reqMsg;
  c_reply : V;
  c_pc : pc;
  c_handler : handler;
}.

Definition set_pc (p : pc) (c : call) : call := MkCall (c_req c) (c_reply c) p (c_handler c).
Definition set_handler (h : handler) (c : call) : call := MkCall (c_req c) (c_reply c) (c_pc c) h.

Record state := State {
  st_net : Network;
  st_objs : gmap nat Server;
  st_world : W;
  st_calls : gmap nat call;
  st_loop : bool;
}.

Definition with_net (rn : Network) (s : state) : state :=
  State rn (st_objs s) (st_world s) (st_calls s) (st_loop s).
Definition with_call (k : nat) (c : call) (s : state) : state :=
  State (st_net s) (st_objs s) (st_world s) (<[k := c]> (st_calls s)) (st_loop s).

(** [ClientEnd.Call] until it sends. *)
Definition begin_Call (e : N) (m : string) (t : rtype) (a reply0 : V) : option call :=
  b ← EncodeV a; Some (MkCall (MkReqMsg e m t b) reply0 Sending HNone).

(** [ClientEnd.Call] after the reply has come. *)
Definition finish_Call (c : call) (rep : replyMsg) : option call :=
  if ok rep then
    let '(v, good) := DecodeV (reply rep) (c_reply c) in
    if good : bool then Some (set_pc (Returned true v) c) else None
  else Some (set_pc (Returned false (c_reply c)) c).

(** [processReq] up to where it waits for the handler; [r] is what [rand.Int]
    draws for the loss of the request. *)
Definition decide_request (i : info) (r : Z) (c : call) : call :=
  match i_enabled i, i_servername i, i_server i with
  | true, Some servername, Some server =>
      if Bool.eqb (i_reliable i) false && (r mod 1000 <? 100) then set_pc (Answering no_reply) c
      else set_handler (HPending server) (set_pc (Waiting servername server (i_reliable i) (i_longreordering i)) c)
  | _, _, _ => set_pc (Answering no_reply) c
  end.

(** [processReq] after its loop, when there is a reply; [r1] is drawn for the
    loss of the reply and [r2], between 0 and 899, for its delay. *)
Definition decide_reply (serverDead rel reord : bool) (r1 r2 : Z) (rep : replyMsg) (c : call) : call :=
  if serverDead then set_pc (Answering no_reply) c
  else if Bool.eqb rel false && (r1 mod 1000 <? 100) then set_pc (Answering no_reply) c
  else if reord && (r2 <? 600) then set_pc (Answering rep) c
  else set_pc (Answering rep) c.

Inductive control :=
| CReliable (yes : bool)
| CLongReordering (yes : bool)
| CLongDelays (yes : bool)
| CMakeEnd (e : N)
| CDeleteEnd (e : N)
| CAddServer (servername : N) (rs : nat)
| CDeleteServer (servername : N)
| CConnect (e servername : N)
| CEnable (e : N) (b : bool)
| CCleanup.

Definition run_control (x : control) (rn : Network) : option Network :=
  match x with
  | CReliable yes => Some (Reliable yes rn)
  | CLongReordering yes => Some (LongReordering yes rn)
  | CLongDelays yes => Some (LongDelays yes rn)
  | CMakeEnd e => MakeEnd e rn
  | CDeleteEnd e => DeleteEnd e rn
  | CAddServer servername rs => Some (AddServer servername rs rn)
  | CDeleteServer servername => Some (DeleteServer servername rn)
  | CConnect e servername => Some (Connect e servername rn)
  | CEnable e b => Some (Enable e b rn)
  | CCleanup => Cleanup rn
  end.

Inductive action :=
| AControl (x : control)
| AMakeServer (o : nat)
| AAddService (o : nat) (svc : Service)
| AExit
| ACall (k : nat) (e : N) (m : string) (t : rtype) (a reply0 : V)
| AAccept (k : nat)
| AAbandon (k : nat)
| ARead (k : nat)
| ADecide (k : nat) (r : Z)
| AHandle (k : nat)
| ATake (k : nat)
| ATick (k : nat)
| ACheck (k : nat) (r1 r2 : Z)
| ADeliver (k : nat).

Definition step (s : state) (a : action) : outcome state :=
  match a with
  | AControl x =>
      _ ← or_block (match x with CAddServer _ o => st_objs s !! o | _ => Some MakeServer end); (* a pointer to a server *)
      rn ← or_crash (run_control x (st_net s)); Next (with_net rn s)
  | AMakeServer o =>
      match st_objs s !! o with
      | Some _ => Blocked
      | None => Next (State (st_net s) (<[o := MakeServer]> (st_objs s)) (st_world s) (st_calls s) (st_loop s))
      end
  | AAddService o svc =>
      rs ← or_block (st_objs s !! o);
      Next (State (st_net s) (<[o := AddService svc rs]> (st_objs s)) (st_world s) (st_calls s) (st_loop s))
  | AExit => (* the goroutine of the network sees [done] *)
      if closed (st_net s) && st_loop s then Next (State (st_net s) (st_objs s) (st_world s) (st_calls s) false)
      else Blocked
  | ACall k e m t x reply0 =>
      match st_calls s !! k with
      | Some _ => Blocked
      | None => c ← or_crash (begin_Call e m t x reply0); Next (with_call k c s)
      end
  | AAccept k => (* the request goes through [endCh] *)
      c ← or_block (st_calls s !! k);
      match c_pc c with
      | Sending =>
          if st_loop s then
            Next (with_net (add_count 1 (Z.of_nat (length (args (c_req c)))) (st_net s)) (with_call k (set_pc Accepted c) s))
          else Blocked
      | _ => Blocked
      end
  | AAbandon k => (* [Call] sees [done] *)
      c ← or_block (st_calls s !! k);
      match c_pc c with
      | Sending => if closed (st_net s) then Next (with_call k (set_pc (Returned false (c_reply c)) c) s) else Blocked
      | _ => Blocked
      end
  | ARead k =>
      c ← or_block (st_calls s !! k);
      match c_pc c with
      | Accepted => Next (with_call k (set_pc (Informed (readEndnameInfo (endname (c_req c)) (st_net s))) c) s)
      | _ => Blocked
      end
  | ADecide k r =>
      c ← or_block (st_calls s !! k);
      match c_pc c with
      | Informed i => Next (with_call k (decide_request i r c) s)
      | _ => Blocked
      end
  | AHandle k =>
      c ← or_block (st_calls s !! k);
      match c_handler c with
      | HPending server =>
          rs ← or_block (st_objs s !! server);
          '(rs, w, r) ← or_crash (dispatch rs (c_req c) (st_world s));
          Next (State (st_net s) (<[server := rs]> (st_objs s)) w (<[k := set_handler (HReady r) c]> (st_calls s)) (st_loop s))
      | _ => Blocked
      end
  | ATake k =>
      c ← or_block (st_calls s !! k);
      match c_pc c, c_handler c with
      | Waiting servername server rel reord, HReady r => Next (with_call k (set_pc (Taken servername server rel reord r) c) s)
      | _, _ => Blocked
      end
  | ATick k => (* 100 milliseconds have passed *)
      c ← or_block (st_calls s !! k);
      match c_pc c with
      | Waiting servername server rel reord =>
          let serverDead := isServerDead (endname (c_req c)) servername server (st_net s) in
          Next (if serverDead then with_call k (set_pc Dead c) s else s)
      | _ => Blocked
      end
  | ACheck k r1 r2 =>
      c ← or_block (st_calls s !! k);
      match c_pc c with
      | Taken servername server rel reord r =>
          let serverDead := isServerDead (endname (c_req c)) servername server (st_net s) in
          Next (with_call k (decide_reply serverDead rel reord r1 r2 r c) s)
      | Dead => Next (with_call k (set_pc (Answering no_reply) c) s)
      | _ => Blocked
      end
  | ADeliver k => (* the reply goes through [replyCh] *)
      c ← or_block (st_calls s !! k);
      match c_pc c with
      | Answering r =>
          c ← or_crash (finish_Call c r);
          Next (with_net (add_count 0 (Z.of_nat (length (reply r))) (st_net s)) (with_call k c s))
      | _ => Blocked
      end
  end.

Fixpoint exec (s : state) (acts : list action) : outcome state :=
  match acts with
  | [] => Next s
  | a :: acts => s ← step s a; exec s acts
  end.

Definition init (w : W) : state := State MakeNetwork ∅ w ∅ true.

End labrpc.
End LabRpc.
