(* ===== verification/LabRpcProof.v ===== *)
(** * What a call over the simulated network means

    The life of a call is read off the run: which action looked its end up,
    which one ran the handler, which one checked that the server is still there.
    When nobody changes the network during a run, the outcome of every call is one
    of the three fates the key/value service is modelled with. *)
From S2P Require Import Prelude LabGob LabRpc.
Import LabGob LabRpc.
Local Open Scope Z_scope.

Module LabRpcProof.

(** Case analysis of a step: the tests it makes. *)
Ltac step_cases :=
  repeat match goal with
  | H : Blocked = Next _ |- _ => discriminate H
  | H : Crash = Next _ |- _ => discriminate H
  | H : Next _ = Next _ |- _ => injection H as H; subst
  | H : mbind (M := outcome) _ (or_block ?o) = Next _ |- _ => destruct o eqn:?; cbn [or_block mbind outcome_bind] in H
  | H : mbind (M := outcome) _ (or_crash ?o) = Next _ |- _ => destruct o eqn:?; cbn [or_crash mbind outcome_bind] in H
  | H : match ?x with _ => _ end = Next _ |- _ => destruct x eqn:?
  end.

Lemma bind_Next {A B} (r : outcome A) (f : A → outcome B) (b : B) :
  r ≫= f = Next b → ∃ a, r = Next a ∧ f a = Next b.
Proof. destruct r as [| |a]; try done. simpl. eauto. Qed.

Section calls.
Context {W V N : Type} `{!Codec V, !EqDecision N, !Countable N} (types : rtype → desc).

Abbreviation action := (@action W V N).
Abbreviation state := (@state W V N).
Abbreviation call := (@call V N).
Abbreviation exec := (@exec W V N _ _ _ types).
Abbreviation step := (@step W V N _ _ _ types).

Implicit Types (s : state) (a : action) (acts : list action) (c : call) (k : nat).

(** ** Runs *)

Lemma exec_app s acts1 acts2 : exec s (acts1 ++ acts2) = s ← exec s acts1; exec s acts2.
Proof. revert s. induction acts1 as [|a acts1 IH]; intros s; simpl; [done|]. destruct (step s a); simpl; [done..|apply IH]. Qed.

Lemma exec_snoc s acts a s' :
  exec s (acts ++ [a]) = Next s' ↔ ∃ s1, exec s acts = Next s1 ∧ step s1 a = Next s'.
Proof.
  rewrite exec_app. simpl. destruct (exec s acts) as [| |s1]; simpl; [by split; [|intros (? & ? & ?)]..|].
  destruct (step s1 a) eqn:E; simpl; split; try done; try (intros (? & [= <-] & ?); congruence); intros [= <-]; eauto.
Qed.

(** The call an action is a part of. *)
Definition about a : option nat :=
  match a with
  | ACall k _ _ _ _ _ | AAccept k | AAbandon k | ARead k | ADecide k _ | AHandle k | ATake k | ATick k
  | ACheck k _ _ | ADeliver k => Some k
  | _ => None
  end.

Lemma step_other s a s' k : step s a = Next s' → about a ≠ Some k → st_calls s' !! k = st_calls s !! k.
Proof.
  intros Hs Hk. destruct a; simpl in *; step_cases; simpl; repeat case_match; simpl; try done; by rewrite lookup_insert_ne by congruence.
Qed.

(** What no step of its own goroutines changes of a call; only its [AHandle]
    gives it a reply. *)
Lemma decide_request_keeps i r c :
  c_req (decide_request i r c) = c_req c ∧ c_reply (decide_request i r c) = c_reply c ∧
  ∀ b v, c_pc (decide_request i r c) ≠ Returned b v.
Proof. unfold decide_request. by repeat case_match. Qed.

Lemma decide_reply_keeps dead rel reord r1 r2 rep c :
  c_req (decide_reply dead rel reord r1 r2 rep c) = c_req c ∧ c_reply (decide_reply dead rel reord r1 r2 rep c) = c_reply c ∧
  c_handler (decide_reply dead rel reord r1 r2 rep c) = c_handler c.
Proof. unfold decide_reply. by repeat case_match. Qed.

Lemma decide_request_handler i r c r' :
  c_handler c = HNone → c_handler (decide_request i r c) = HReady r' ↔ c_handler c = HReady r'.
Proof. unfold decide_request. intros Hh. repeat case_match; simpl; split; congruence. Qed.

Lemma finish_Call_keeps c r c' :
  finish_Call c r = Some c' → c_req c' = c_req c ∧ c_reply c' = c_reply c ∧ c_handler c' = c_handler c.
Proof. unfold finish_Call. repeat case_match; intros; simplify_eq/=; done. Qed.

Definition keeps a k c c' : Prop :=
  c_req c' = c_req c ∧ c_reply c' = c_reply c ∧
  (∀ b v, c_pc c = Returned b v → c_pc c' = Returned b v) ∧
  (a ≠ AHandle k → (∀ i, c_pc c = Informed i → c_handler c = HNone) →
   ∀ r, c_handler c' = HReady r ↔ c_handler c = HReady r).

Lemma step_keeps s a s' k c :
  step s a = Next s' → st_calls s !! k = Some c → ∃ c', st_calls s' !! k = Some c' ∧ keeps a k c c'.
Proof.
  intros Hs Hc.
  destruct (decide (about a = Some k)) as [Ha|Ha];
    [|exists c; rewrite (step_other s a s' k Hs Ha); by repeat split; auto].
  destruct a; simpl in Ha; try done; injection Ha as ->; simpl in Hs; step_cases; simplify_eq.
  all: try by (eexists; (split; [apply lookup_insert_eq|]); unfold keeps; simpl; split_and!; auto; congruence).
  - eexists. split; [apply lookup_insert_eq|]. destruct (decide_request_keeps i r c) as (H1 & H2 & H3).
    split_and!; [done..|congruence|]. intros _ Hi r'. apply decide_request_handler. eauto.
  - case_match; [|by exists c; repeat split; auto].
    eexists. split; [apply lookup_insert_eq|]. unfold keeps; simpl; split_and!; auto; congruence.
  - eexists. split; [apply lookup_insert_eq|].
    match goal with |- keeps _ _ _ (decide_reply ?x1 ?x2 ?x3 ?x4 ?x5 ?x6 _) =>
      destruct (decide_reply_keeps x1 x2 x3 x4 x5 x6 c) as (H1 & H2 & H3) end.
    split_and!; [done..|congruence|]. intros _ _ r'. by rewrite H3.
  - eexists. split; [apply lookup_insert_eq|].
    match goal with H : finish_Call _ _ = Some _ |- _ => apply finish_Call_keeps in H as (H1 & H2 & H3) end.
    split_and!; [done..|congruence|]. intros _ _ r'. by rewrite H3.
Qed.

(** A step that neither begins a call nor changes a service. *)
Lemma step_no_call s a s' k :
  step s a = Next s' → (∀ e m t x r, a ≠ ACall k e m t x r) → st_calls s !! k = None → st_calls s' !! k = None.
Proof.
  intros Hs Hn Hk. destruct (decide (about a = Some k)) as [Ha|Ha]; [|by rewrite (step_other s a s' k Hs Ha)].
  destruct a; simpl in Ha; try done; injection Ha as ->; simpl in Hs; step_cases; try congruence. by edestruct Hn.
Qed.

Lemma dispatch_services rs (req : @reqMsg N) (w : W) rs' w' r : dispatch types rs req w = Some (rs', w', r) → services rs' = services rs.
Proof. unfold dispatch, Service_dispatch. intros H. inv_bind. by simplify_eq/=. Qed.

Lemma step_services s a s' o rs' :
  step s a = Next s' → (∀ o svc, a ≠ AAddService o svc) → (∀ o, a ≠ AMakeServer o) → st_objs s' !! o = Some rs' →
  ∃ rs, st_objs s !! o = Some rs ∧ services rs' = services rs.
Proof.
  intros Hs H1 H2. destruct a; simpl in Hs; step_cases; simpl; try case_match; try naive_solver.
  rewrite lookup_insert. case_decide; [|by eauto]. intros [= <-]. subst. eexists. split; [done|]. by eapply dispatch_services.
Qed.

Lemma step_objs s a s' o : step s a = Next s' → is_Some (st_objs s !! o) → is_Some (st_objs s' !! o).
Proof.
  intros Hs Ho. destruct a; simpl in Hs; step_cases; simpl; try case_match; try done;
    rewrite lookup_insert_is_Some'; tauto.
Qed.

Lemma step_world s a s' : step s a = Next s' → (∀ k, a ≠ AHandle k) → st_world s' = st_world s.
Proof. intros Hs H. destruct a; simpl in Hs; step_cases; simpl; try case_match; naive_solver. Qed.

(** ** The life of a call *)

Section life.
Context (s0 : state).

(** The [p]-th action of the run is [a], and it is taken in [s1]. *)
Definition at_step acts (p : nat) a s1 : Prop := acts !! p = Some a ∧ exec s0 (take p acts) = Next s1.

Definition never_run acts k : Prop := ∀ p, acts !! p ≠ Some (AHandle k).

Definition looked acts k c (q : nat) (n : N) (sv : nat) : Prop :=
  ∃ s1 rel reord, at_step acts q (ARead k) s1 ∧
    readEndnameInfo (endname (c_req c)) (st_net s1) = Info true (Some n) (Some sv) rel reord.

Definition ran acts k c (p sv : nat) (r : replyMsg) : Prop :=
  ∃ s1 rs rs' w', at_step acts p (AHandle k) s1 ∧ st_objs s1 !! sv = Some rs ∧
    dispatch types rs (c_req c) (st_world s1) = Some (rs', w', r).

Definition checked acts k c (n : N) (sv : nat) : Prop :=
  ∃ t s1 r1 r2, at_step acts t (ACheck k r1 r2) s1 ∧ isServerDead (endname (c_req c)) n sv (st_net s1) = false ∧
    ∀ p, acts !! p = Some (AHandle k) → (p < t)%nat.

Definition handler_ok acts k c (q sv : nat) (h : handler) : Prop :=
  match h with
  | HNone => False
  | HPending sv' => sv' = sv ∧ never_run acts k
  | HReady r => ∃ p, (q < p)%nat ∧ ran acts k c p sv r ∧ ∀ p', acts !! p' = Some (AHandle k) → p' = p
  end.

Definition pc_ok acts k c (n : N) (sv : nat) : Prop :=
  match c_pc c with
  | Sending | Accepted | Informed _ => False
  | Waiting n' sv' _ _ => n' = n ∧ sv' = sv
  | Taken n' sv' _ _ r => n' = n ∧ sv' = sv ∧ c_handler c = HReady r
  | Dead => True
  | Answering r => r = no_reply ∨ c_handler c = HReady r ∧ checked acts k c n sv
  | Returned b v =>
      b = false ∧ v = c_reply c ∨
      b = true ∧ ∃ r, c_handler c = HReady r ∧ checked acts k c n sv ∧ ok r = true ∧
                 DecodeV (reply r) (c_reply c) = (v, true)
  end.

Definition life acts k c : Prop :=
  match c_handler c with
  | HNone =>
      never_run acts k ∧
      match c_pc c with
      | Sending | Accepted => True
      | Informed i => ∃ q s1, at_step acts q (ARead k) s1 ∧ i = readEndnameInfo (endname (c_req c)) (st_net s1)
      | Answering r => r = no_reply
      | Returned b v => b = false ∧ v = c_reply c
      | _ => False
      end
  | h => ∃ q n sv, looked acts k c q n sv ∧ handler_ok acts k c q sv h ∧ pc_ok acts k c n sv
  end.

Lemma at_snoc acts p a s1 a' : at_step acts p a s1 → at_step (acts ++ [a']) p a s1.
Proof.
  intros [Ha He]. pose proof (lookup_lt_Some _ _ _ Ha). split; [by apply lookup_app_l_Some|].
  by rewrite take_app_le by lia.
Qed.

Lemma at_last acts a s1 : exec s0 acts = Next s1 → at_step (acts ++ [a]) (length acts) a s1.
Proof. intros He. split; [by apply list_lookup_middle|]. by rewrite take_app_length. Qed.

Lemma snoc_handle acts k a p : a ≠ AHandle k → (acts ++ [a]) !! p = Some (AHandle k) → acts !! p = Some (AHandle k).
Proof. intros Hn. rewrite lookup_snoc_Some. naive_solver. Qed.

Lemma never_run_snoc acts k a : a ≠ AHandle k → never_run acts k → never_run (acts ++ [a]) k.
Proof. intros Hn Hr p Hp. by apply (Hr p), (snoc_handle _ _ a). Qed.

Lemma looked_snoc acts k c q n sv a : looked acts k c q n sv → looked (acts ++ [a]) k c q n sv.
Proof. intros (s1 & rel & reord & Hat & Hi). exists s1, rel, reord. eauto using at_snoc. Qed.

Lemma ran_snoc acts k c p sv r a : ran acts k c p sv r → ran (acts ++ [a]) k c p sv r.
Proof. intros (s1 & rs & rs' & w' & Hat & H). exists s1, rs, rs', w'. eauto using at_snoc. Qed.

Lemma checked_snoc acts k c n sv a : a ≠ AHandle k → checked acts k c n sv → checked (acts ++ [a]) k c n sv.
Proof. intros Hn (t & s1 & r1 & r2 & Hat & H & Hp). exists t, s1, r1, r2. split_and!; [by apply at_snoc|done|]. intros p Hp'. by eapply Hp, snoc_handle. Qed.

Lemma handler_snoc acts k c q sv h a :
  a ≠ AHandle k → handler_ok acts k c q sv h → handler_ok (acts ++ [a]) k c q sv h.
Proof.
  intros Hn. destruct h as [|sv'|r]; simpl; [done| |].
  - intros [-> Hr]. split; [done|]. by apply never_run_snoc.
  - intros (p & Hp & Hr & Hu). exists p. split_and!; [done|by apply ran_snoc|].
    intros p' Hp'. by eapply Hu, snoc_handle.
Qed.

Lemma pc_snoc acts k c n sv a : a ≠ AHandle k → pc_ok acts k c n sv → pc_ok (acts ++ [a]) k c n sv.
Proof. intros Hn. unfold pc_ok. destruct (c_pc c); naive_solver eauto using checked_snoc. Qed.

Lemma life_snoc acts k c a : a ≠ AHandle k → life acts k c → life (acts ++ [a]) k c.
Proof.
  intros Hn. unfold life. destruct (c_handler c) eqn:Eh.
  - intros [Hr Hp]. split; [by apply never_run_snoc|]. destruct (c_pc c); try done.
    destruct Hp as (q & s1 & Hat & Hi). exists q, s1. eauto using at_snoc.
  - intros (q & n & sv & H1 & H2 & H3). exists q, n, sv.
    split_and!; [by apply looked_snoc|by apply handler_snoc|by apply pc_snoc].
  - intros (q & n & sv & H1 & H2 & H3). exists q, n, sv.
    split_and!; [by apply looked_snoc|by apply handler_snoc|by apply pc_snoc].
Qed.

(** Only the place of the goroutine changes. *)
Lemma life_pc acts k c p :
  life acts k c →
  (never_run acts k → c_handler c = HNone →
     match p with
     | Sending | Accepted => True
     | Informed i => ∃ q s1, at_step acts q (ARead k) s1 ∧ i = readEndnameInfo (endname (c_req c)) (st_net s1)
     | Answering r => r = no_reply
     | Returned b v => b = false ∧ v = c_reply c
     | _ => False
     end) →
  (∀ n sv, c_handler c ≠ HNone → pc_ok acts k c n sv → pc_ok acts k (set_pc p c) n sv) →
  life acts k (set_pc p c).
Proof.
  unfold life. simpl. destruct (c_handler c) eqn:Eh; intros Hl H1 H2.
  - destruct Hl as [Hr _]. split; [done|]. by apply H1.
  - destruct Hl as (q & n & sv & Hq & Hh & Hp). exists q, n, sv. split; [done|]. split; [done|]. by apply H2.
  - destruct Hl as (q & n & sv & Hq & Hh & Hp). exists q, n, sv. split; [done|]. split; [done|]. by apply H2.
Qed.

(** A new call, and what its actions do to it, one lemma for each. *)
Lemma life_begin acts k e m t (a reply0 : V) c : never_run acts k → begin_Call e m t a reply0 = Some c → life acts k c.
Proof. unfold begin_Call. intros Hn. destruct (EncodeV a); [|done]. by intros [= <-]. Qed.

Lemma life_read acts k c s1 :
  exec s0 acts = Next s1 → life acts k c → c_pc c = Accepted →
  life (acts ++ [ARead k]) k (set_pc (Informed (readEndnameInfo (endname (c_req c)) (st_net s1))) c).
Proof.
  intros He Hl Hpc. apply life_pc; [by apply life_snoc| |].
  - intros _ _. exists (length acts), s1. split; [by apply at_last|done].
  - intros n sv _. unfold pc_ok. by rewrite Hpc.
Qed.

Lemma life_decide acts k c i r : life acts k c → c_pc c = Informed i → life acts k (decide_request i r c).
Proof.
  intros Hl Hpc. unfold decide_request.
  assert (Hno : life acts k (set_pc (Answering no_reply) c)).
  { apply life_pc; [done|done|]. intros n sv _. unfold pc_ok. by rewrite Hpc. }
  destruct i as [en sn sv rel reord]; simpl. repeat (case_match; [|done]). subst. case_match; [done|].
  unfold life in *. rewrite Hpc in Hl. simpl. destruct (c_handler c).
  - destruct Hl as (Hr & q & s1 & Hat & Hi). eexists q, _, _. split_and!; [|done..]. exists s1. eauto.
  - destruct Hl as (? & ? & ? & _ & _ & Hp). unfold pc_ok in Hp. by rewrite Hpc in Hp.
  - destruct Hl as (? & ? & ? & _ & _ & Hp). unfold pc_ok in Hp. by rewrite Hpc in Hp.
Qed.

Lemma life_handle acts k c s1 sv rs rs' w' r :
  exec s0 acts = Next s1 → life acts k c → c_handler c = HPending sv → st_objs s1 !! sv = Some rs →
  dispatch types rs (c_req c) (st_world s1) = Some (rs', w', r) →
  life (acts ++ [AHandle k]) k (set_handler (HReady r) c).
Proof.
  intros He Hl Hh Hrs Hd. unfold life in Hl. rewrite Hh in Hl.
  destruct Hl as (q & n & sv' & Hq & [<- Hr] & Hp). exists q, n, sv. split_and!.
  - by apply looked_snoc.
  - exists (length acts). split_and!.
    + destruct Hq as (? & ? & ? & [Hq _] & _). by eapply lookup_lt_Some.
    + exists s1, rs, rs', w'. split_and!; [by apply at_last|done|done].
    + intros p' [[_ Hp']|[-> _]]%lookup_snoc_Some; [|done]. by destruct (Hr p').
  - unfold pc_ok in *. simpl. destruct (c_pc c) as [| | | |n' sv' rel reord r'| |r'|b v]; try done.
    + destruct Hp as (_ & _ & Hp). congruence.
    + destruct Hp as [?|[Hp _]]; [by left|congruence].
    + destruct Hp as [?|(_ & r' & Hp & _)]; [by left|congruence].
Qed.

Lemma life_check acts k c s1 n sv rel reord r r1 r2 :
  exec s0 acts = Next s1 → life acts k c → c_pc c = Taken n sv rel reord r →
  life (acts ++ [ACheck k r1 r2]) k
    (decide_reply (isServerDead (endname (c_req c)) n sv (st_net s1)) rel reord r1 r2 r c).
Proof.
  intros He Hl Hpc. assert (Hs : life (acts ++ [ACheck k r1 r2]) k c) by by apply life_snoc.
  assert (Hno : life (acts ++ [ACheck k r1 r2]) k (set_pc (Answering no_reply) c)).
  { apply life_pc; [done|done|]. intros n' sv' _ _. by left. }
  unfold decide_reply. destruct (isServerDead _ _ _ _) eqn:Ed; [done|]. case_match; [done|].
  assert (Hyes : life (acts ++ [ACheck k r1 r2]) k (set_pc (Answering r) c)).
  { apply life_pc; [done| |].
    - intros _ Hn. unfold life in Hl. rewrite Hn, Hpc in Hl. by destruct Hl.
    - intros n' sv' _. unfold pc_ok at 1. rewrite Hpc. intros (<- & <- & Hh). right. split; [done|].
      exists (length acts), s1, r1, r2. split_and!; [by apply at_last|done|].
      by intros p [[Hp _]|[_ ?]]%lookup_snoc_Some. }
  by case_match.
Qed.

Lemma life_deliver acts k c c' r :
  life acts k c → c_pc c = Answering r → finish_Call c r = Some c' → life acts k c'.
Proof.
  intros Hl Hpc. unfold finish_Call. destruct (ok r) eqn:Eok.
  - destruct (DecodeV _ _) as [v []] eqn:Ed; [|done]. intros [= <-].
    assert (Hr : r ≠ no_reply) by (by intros ->). apply life_pc; [done| |].
    + intros Hn Eh. unfold life in Hl. rewrite Eh, Hpc in Hl. by destruct Hl.
    + intros n sv _. unfold pc_ok at 1. rewrite Hpc. intros [?|[Hh Hc]]; [done|]. right. eauto 6.
  - intros [= <-]. apply life_pc; [done|done|]. intros n sv _ _. by left.
Qed.

Lemma life_move acts k c p :
  life acts k c → match p with
    | Accepted => c_pc c = Sending
    | Returned b v => b = false ∧ v = c_reply c ∧ c_pc c = Sending
    | Taken n sv rel reord r => c_pc c = Waiting n sv rel reord ∧ c_handler c = HReady r
    | Dead => ∃ n sv rel reord, c_pc c = Waiting n sv rel reord
    | Answering r => r = no_reply
    | _ => False
    end → life acts k (set_pc p c).
Proof.
  intros Hl Hp. apply life_pc; [done| |].
  - intros Hn Eh. unfold life in Hl. rewrite Eh in Hl. destruct p; try done; [by destruct Hp; congruence| |by destruct Hp as (-> & -> & _)].
    destruct Hp as (? & ? & ? & ? & Hp). rewrite Hp in Hl. by destruct Hl.
  - intros n sv _. unfold pc_ok at 1. unfold pc_ok. simpl. destruct p; try done.
    + by rewrite Hp.
    + destruct Hp as [-> Hp]. by intros [-> ->].
    + by left.
    + destruct Hp as (-> & -> & Hp). by rewrite Hp.
Qed.

(** Every call has a life. *)
Definition lives acts s : Prop :=
  (∀ k c, st_calls s !! k = Some c → life acts k c) ∧ (∀ k, st_calls s !! k = None → never_run acts k).

Lemma lives_step acts s a s' :
  exec s0 acts = Next s → lives acts s → step s a = Next s' → lives (acts ++ [a]) s'.
Proof.
  intros He [Hl Hn] Hs.
  assert (H1 : ∀ k c, about a ≠ Some k → st_calls s' !! k = Some c → life (acts ++ [a]) k c).
  { intros k c Hk. rewrite (step_other s a s' k Hs Hk). intros Hc. apply life_snoc; [by intros ->|by apply Hl]. }
  assert (H2 : ∀ k, about a ≠ Some k → st_calls s' !! k = None → never_run (acts ++ [a]) k).
  { intros k Hk. rewrite (step_other s a s' k Hs Hk). intros Hc. apply never_run_snoc; [by intros ->|by apply Hn]. }
  assert (Hput : ∀ k c, about a = Some k → st_calls s' = <[k := c]> (st_calls s) → life (acts ++ [a]) k c → lives (acts ++ [a]) s').
  { intros k c Hk Hs' Hc. split; intros k'.
    - destruct (decide (k' = k)) as [->|Hne]; [|intros c' Hc'; apply H1; [congruence|done]].
      rewrite Hs', lookup_insert_eq. by intros ? [= <-].
    - destruct (decide (k' = k)) as [->|Hne]; [|intros Hc'; apply H2; [congruence|done]]. by rewrite Hs', lookup_insert_eq. }
  destruct (about a) as [k|] eqn:Ea; [|by split; intros k; [intros c; apply H1|apply H2]].
  destruct a; simpl in Ea; try done; injection Ea as ->; simpl in Hs; step_cases.
  - eapply Hput; [done|done|]. eapply life_begin; [|done]. apply never_run_snoc; [done|by apply Hn].
  - eapply Hput; [done|done|]. apply life_move; [|done]. apply life_snoc; [done|by apply Hl].
  - eapply Hput; [done|done|]. apply life_move; [|done]. apply life_snoc; [done|by apply Hl].
  - eapply Hput; [done|done|]. apply life_read; [done|by apply Hl|done].
  - eapply Hput; [done|done|]. apply life_decide; [|done]. apply life_snoc; [done|by apply Hl].
  - eapply Hput; [done|done|]. eapply life_handle; eauto.
  - eapply Hput; [done|done|]. apply life_move; [|done]. apply life_snoc; [done|by apply Hl].
  - case_match.
    + eapply Hput; [done|done|]. apply life_move; [|by eauto]. apply life_snoc; [done|by apply Hl].
    + eapply (Hput _ c); [done|by rewrite insert_id|]. apply life_snoc; [done|by apply Hl].
  - eapply Hput; [done|done|]. apply life_check; [done|by apply Hl|done].
  - eapply Hput; [done|done|]. apply life_move; [|done]. apply life_snoc; [done|by apply Hl].
  - eapply Hput; [done|done|]. eapply life_deliver; [|done|done]. apply life_snoc; [done|by apply Hl].
Qed.

Lemma lives_exec acts s : st_calls s0 = ∅ → exec s0 acts = Next s → lives acts s.
Proof.
  intros H0. revert s. induction acts as [|a acts IH] using rev_ind; intros s.
  - intros E. injection E as E. split; intros k; rewrite <- E, H0, lookup_empty; [done|]. by intros _ p.
  - intros (s1 & H1 & H2)%exec_snoc. eapply lives_step; [done|by apply IH|done].
Qed.

End life.
End calls.
End LabRpcProof.
