(* ===== verification/LabRpcApi.v ===== *)
(** * What the simulated network promises

    The theorems about calls: what it means that [Call] returned true, the
    outcomes of a call over a network nobody changes, that a call can always
    return, and which method a request is for. *)
From Stdlib Require Import Ascii.
From S2P Require Import Prelude LabGob LabRpc LabRpcProof.
From S2P Require KvSrv.
Import LabGob LabRpc LabRpcProof.
Local Open Scope Z_scope.

Module LabRpcApi.

Section api.
Context {W V N : Type} `{!Codec V, !EqDecision N, !Countable N} (types : rtype → desc).

Abbreviation action := (@action W V N).
Abbreviation state := (@state W V N).
Abbreviation call := (@call V N).
Abbreviation exec := (@exec W V N _ _ _ types).
Abbreviation step := (@step W V N _ _ _ types).

Implicit Types (s : state) (acts : list action) (c : call) (k : nat).

(** ** Runs in which nobody changes the network *)

Section steady.
Context (rn0 : @Network N _ _).

(** Only the counters change. *)
Definition same_net (rn : @Network N _ _) : Prop :=
  reliable rn = reliable rn0 ∧ longReordering rn = longReordering rn0 ∧ enabled rn = enabled rn0 ∧
  servers rn = servers rn0 ∧ connections rn = connections rn0 ∧ closed rn = closed rn0.

Definition info_of c : info := readEndnameInfo (endname (c_req c)) rn0.

(** The end of the call leads to a server. *)
Definition live (i : @info N) : bool :=
  match i_enabled i, i_servername i, i_server i with true, Some _, Some _ => true | _, _, _ => false end.

Definition fated c (b : bool) : Prop :=
  match c_handler c with
  | HNone => b = false ∧ (live (info_of c) = true → reliable rn0 = false)
  | HPending _ => False
  | HReady _ => live (info_of c) = true ∧ (b = false → reliable rn0 = false)
  end.

Definition steady_call c : Prop :=
  (∀ r, c_handler c = HReady r → ok r = true) ∧
  match c_pc c with
  | Sending | Accepted => c_handler c = HNone
  | Informed i => c_handler c = HNone ∧ i = info_of c
  | Waiting n sv rel reord =>
      c_handler c ≠ HNone ∧ info_of c = Info true (Some n) (Some sv) rel reord
  | Taken n sv rel reord r => c_handler c = HReady r ∧ info_of c = Info true (Some n) (Some sv) rel reord
  | Dead => False
  | Answering r => fated c (ok r)
  | Returned b v => fated c b
  end.

Definition steady (a : action) : bool := match a with AControl _ => false | _ => true end.

Definition steady_state s : Prop :=
  same_net (st_net s) ∧ ∀ k c, st_calls s !! k = Some c → steady_call c.

Lemma same_info rn e : same_net rn → readEndnameInfo e rn = readEndnameInfo e rn0.
Proof. intros (H1 & H2 & H3 & H4 & H5 & _). unfold readEndnameInfo. by rewrite H1, H2, H3, H4, H5. Qed.

Lemma steady_alive rn c n sv rel reord :
  same_net rn → info_of c = Info true (Some n) (Some sv) rel reord → isServerDead (endname (c_req c)) n sv rn = false.
Proof.
  intros (_ & _ & H3 & H4 & _). unfold info_of, readEndnameInfo, isServerDead. rewrite H3, H4.
  intros [= He Hc Hs _ _]. rewrite He, Hc in *. simpl in Hs. rewrite Hs. simpl. by apply bool_decide_eq_false_2; intros [].
Qed.

Lemma info_reliable c en n sv rel reord : info_of c = Info en n sv rel reord → rel = reliable rn0.
Proof. by intros [= _ _ _ <- _]. Qed.

Lemma steady_decide c i r : steady_call c → c_pc c = Informed i → steady_call (decide_request i r c).
Proof.
  intros [Hr Hc] Hpc. rewrite Hpc in Hc. destruct Hc as [Hh ->]. unfold decide_request.
  destruct (info_of c) as [en [n|] [sv|] rel reord] eqn:Ei; simpl;
    (destruct en; [|by split; [done|]; unfold fated; simpl; rewrite Hh; unfold info_of in *; simpl; rewrite Ei]).
  - pose proof (info_reliable _ _ _ _ _ _ Ei) as ->. destruct (Bool.eqb _ _) eqn:Erel; simpl.
    + apply eqb_prop in Erel. case_match.
      * split; [done|]. unfold fated. simpl. by rewrite Hh.
      * split; [done|]. simpl. split; [done|]. by unfold info_of in *.
    + split; [done|]. simpl. split; [done|]. by unfold info_of in *.
  - split; [done|]. unfold fated. simpl. rewrite Hh. unfold info_of in *. simpl. by rewrite Ei.
  - split; [done|]. unfold fated. simpl. rewrite Hh. unfold info_of in *. simpl. by rewrite Ei.
  - split; [done|]. unfold fated. simpl. rewrite Hh. unfold info_of in *. simpl. by rewrite Ei.
Qed.

Lemma steady_reply c n sv rel reord r r1 r2 :
  steady_call c → c_pc c = Taken n sv rel reord r → steady_call (decide_reply false rel reord r1 r2 r c).
Proof.
  intros [Hr Hc] Hpc. rewrite Hpc in Hc. destruct Hc as [Hh Ei].
  assert (Hlive : live (info_of c) = true) by by rewrite Ei.
  assert (Hyes : steady_call (set_pc (Answering r) c)).
  { split; [done|]. unfold fated. simpl. rewrite Hh. split; [done|]. by rewrite (Hr r Hh). }
  unfold decide_reply. pose proof (info_reliable _ _ _ _ _ _ Ei) as ->.
  destruct (Bool.eqb _ _ && _) eqn:Erel; [|by case_match].
  apply andb_prop in Erel as [Erel%eqb_prop _]. split; [done|]. unfold fated. simpl. by rewrite Hh.
Qed.

Lemma dispatch_ok rs (req : @reqMsg N) (w : W) rs' w' r : dispatch types rs req w = Some (rs', w', r) → ok r = true.
Proof.
  unfold dispatch, Service_dispatch. intros H. inv_bind. by simplify_eq/=.
Qed.

Lemma steady_handle c sv r : steady_call c → c_handler c = HPending sv → ok r = true → steady_call (set_handler (HReady r) c).
Proof.
  intros [Hr Hc] Hh Hok. split; [by intros ? [= <-]|]. simpl. destruct (c_pc c); try congruence.
  - destruct Hc. congruence.
  - by destruct Hc.
  - destruct Hc. congruence.
  - unfold fated in *. by rewrite Hh in Hc.
  - unfold fated in *. by rewrite Hh in Hc.
Qed.

Lemma steady_move c p :
  steady_call c →
  match p with
  | Accepted => c_pc c = Sending
  | Informed i => c_pc c = Accepted ∧ i = info_of c
  | Taken n sv rel reord r => c_pc c = Waiting n sv rel reord ∧ c_handler c = HReady r
  | Returned b v => ∃ r, c_pc c = Answering r ∧ b = ok r
  | _ => False
  end → steady_call (set_pc p c).
Proof.
  intros [Hr Hc] Hp. split; [done|]. simpl. destruct p; try done.
  - by rewrite Hp in Hc.
  - destruct Hp as [Hp ->]. by rewrite Hp in Hc.
  - destruct Hp as [Hp Hh]. rewrite Hp in Hc. destruct Hc. by split.
  - destruct Hp as (r & Hp & ->). by rewrite Hp in Hc.
Qed.

Lemma steady_deliver c r c' : steady_call c → c_pc c = Answering r → finish_Call c r = Some c' → steady_call c'.
Proof.
  intros Hc Hpc. unfold finish_Call. destruct (ok r) eqn:Eok.
  - destruct (DecodeV _ _) as [v []]; [|done]. intros [= <-]. apply steady_move; [done|]. exists r. by rewrite Eok.
  - intros [= <-]. apply steady_move; [done|]. exists r. by rewrite Eok.
Qed.

Lemma same_net_count rn x y : same_net rn → same_net (add_count x y rn).
Proof. done. Qed.

Lemma steady_put s k c : steady_state s → steady_call c → steady_state (with_call k c s).
Proof. intros [Hn Hs] Hc. split; [done|]. intros k' c'. simpl. rewrite lookup_insert. case_decide; naive_solver. Qed.

Lemma steady_step s a s' :
  closed rn0 = false → steady a = true → steady_state s → step s a = Next s' → steady_state s'.
Proof.
  intros Hcl Ha Hst Hs. assert (Hc : ∀ k c, st_calls s !! k = Some c → steady_call c) by apply Hst.
  assert (Hsame : same_net (st_net s)) by apply Hst.
  assert (Hnet : closed (st_net s) = false) by (destruct Hsame as (_ & _ & _ & _ & _ & ->); done).
  destruct a; simpl in *; try done; step_cases; try done; try congruence.
  - apply steady_put; [done|]. unfold begin_Call in *. destruct (EncodeV _); [|done]. simplify_eq/=. by split.
  - apply (steady_put s _ _ Hst). apply steady_move; [eauto|done].
  - apply (steady_put s _ _ Hst). apply steady_move; [eauto|]. split; [done|]. by apply same_info.
  - apply (steady_put s _ _ Hst). eapply steady_decide; eauto.
  - apply (steady_put s _ _ Hst). eapply steady_handle; eauto using dispatch_ok.
  - apply (steady_put s _ _ Hst). apply steady_move; eauto.
  - destruct (Hc _ _ Heqo) as [_ H]. rewrite Heqp in H. rewrite (steady_alive _ _ _ _ _ _ Hsame (proj2 H)). done.
  - destruct (Hc _ _ Heqo) as [_ H]. rewrite Heqp in H. rewrite (steady_alive _ _ _ _ _ _ Hsame (proj2 H)).
    apply (steady_put s _ _ Hst). eapply steady_reply; eauto.
  - destruct (Hc _ _ Heqo) as [_ H]. by rewrite Heqp in H.
  - apply (steady_put s _ _ Hst). eapply steady_deliver; eauto.
Qed.

End steady.

Lemma steady_exec s0 acts s :
  st_calls s0 = ∅ → closed (st_net s0) = false → forallb steady acts = true → exec s0 acts = Next s →
  steady_state (st_net s0) s.
Proof.
  intros H0 Hcl. revert s. induction acts as [|a acts IH] using rev_ind; intros s Hst.
  - intros E. injection E as E. rewrite <- E. split; [done|]. intros k c. by rewrite H0, lookup_empty.
  - rewrite forallb_app in Hst. apply andb_prop in Hst as [H1 H2]. simpl in H2. rewrite andb_true_r in H2.
    intros (s1 & He & Hs)%exec_snoc. eapply steady_step; eauto.
Qed.

(** ** Calls can return *)

(** Actions of the call [k] lead to its return. *)
Definition can_return s k : Prop :=
  ∃ acts s' c b v, Forall (λ a, about a = Some k) acts ∧ exec s acts = Next s' ∧
    st_calls s' !! k = Some c ∧ c_pc c = Returned b v.

Lemma can_step s k a s' : step s a = Next s' → about a = Some k → can_return s' k → can_return s k.
Proof.
  intros Hs Ha (acts & s'' & c & b & v & Hf & He & H). exists (a :: acts), s'', c, b, v.
  split_and!; [by constructor| |apply H..]. simpl. by rewrite Hs.
Qed.

(** The reply the call would be given can be decoded. *)
Definition good_reply c (r : replyMsg) : Prop := ok r = true → (DecodeV (reply r) (c_reply c)).2 = true.

Lemma can_answer s k c r : st_calls s !! k = Some c → c_pc c = Answering r → good_reply c r → can_return s k.
Proof.
  intros Hc Hpc Hr. assert (∃ c' b v, finish_Call c r = Some c' ∧ c_pc c' = Returned b v) as (c' & b & v & Hf & Hret).
  { unfold finish_Call, good_reply in *. destruct (ok r); [|by eauto].
    destruct (DecodeV _ _) as [v []]; [by eauto|]. by specialize (Hr eq_refl). }
  eapply (can_step s k (ADeliver k)); [|done|].
  - simpl. rewrite Hc. cbn [or_block mbind outcome_bind]. rewrite Hpc, Hf. done.
  - exists []. eexists. exists c', b, v. split_and!; [done..| |done]. simpl. apply lookup_insert_eq.
Qed.

Lemma decide_reply_answers dead rel reord r c :
  good_reply c r →
  ∃ r', c_pc (decide_reply dead rel reord 0 0 r c) = Answering r' ∧ good_reply (decide_reply dead rel reord 0 0 r c) r'.
Proof. intros Hr. unfold decide_reply. repeat case_match; eexists; (split; [done|]); done. Qed.

Lemma can_taken s k c n sv rel reord r :
  st_calls s !! k = Some c → c_pc c = Taken n sv rel reord r → good_reply c r → can_return s k.
Proof.
  intros Hc Hpc Hr. eapply (can_step s k (ACheck k 0 0)); [|done|].
  { simpl. rewrite Hc. cbn [or_block mbind outcome_bind]. by rewrite Hpc. }
  destruct (decide_reply_answers (isServerDead (endname (c_req c)) n sv (st_net s)) rel reord r c Hr)
    as (r' & Hpc' & Hr').
  eapply can_answer; [by apply lookup_insert_eq|exact Hpc'|exact Hr'].
Qed.

Lemma can_wait s k c n sv rel reord r :
  st_calls s !! k = Some c → c_pc c = Waiting n sv rel reord → c_handler c = HReady r → good_reply c r → can_return s k.
Proof.
  intros Hc Hpc Hh Hr. eapply (can_step s k (ATake k)); [|done|].
  { simpl. rewrite Hc. cbn [or_block mbind outcome_bind]. by rewrite Hpc, Hh. }
  eapply can_taken; [by apply lookup_insert_eq|done|done].
Qed.

(** The server a call is for, as long as its handler has not run. *)
Definition target s c : option nat :=
  match c_handler c with
  | HPending sv => Some sv
  | HReady _ => None
  | HNone =>
      match c_pc c with
      | Sending | Accepted => i_server (readEndnameInfo (endname (c_req c)) (st_net s))
      | Informed i => i_server i
      | _ => None
      end
  end.

(** The handler of the call returns, and its reply can be decoded. *)
Definition answerable s c : Prop :=
  (∀ sv, target s c = Some sv → ∃ rs rs' w' r,
    st_objs s !! sv = Some rs ∧ dispatch types rs (c_req c) (st_world s) = Some (rs', w', r) ∧ good_reply c r) ∧
  (∀ r, c_handler c = HReady r → good_reply c r).

Lemma can_pending s k c n sv rel reord :
  st_calls s !! k = Some c → c_pc c = Waiting n sv rel reord → c_handler c = HPending sv → answerable s c → can_return s k.
Proof.
  intros Hc Hpc Hh [Ht _]. destruct (Ht sv) as (rs & rs' & w' & r & Hrs & Hd & Hr); [unfold target; by rewrite Hh|].
  eapply (can_step s k (AHandle k)); [|done|].
  { simpl. rewrite Hc. cbn [or_block mbind outcome_bind]. rewrite Hh, Hrs. cbn [or_block mbind outcome_bind].
    rewrite Hd. done. }
  eapply can_wait; [by apply lookup_insert_eq|done|done|done].
Qed.

Lemma can_informed s k c i :
  st_calls s !! k = Some c → c_pc c = Informed i → c_handler c = HNone → answerable s c → can_return s k.
Proof.
  intros Hc Hpc Hh Ha. eapply (can_step s k (ADecide k 100)); [|done|].
  { simpl. rewrite Hc. cbn [or_block mbind outcome_bind]. by rewrite Hpc. }
  destruct i as [[] [n|] [sv|] rel reord]; unfold decide_request;
    try (eapply (can_answer _ _ _ no_reply); [apply lookup_insert_eq|done|done]).
  replace (_ && _) with false by (by destruct rel).
  eapply can_pending; [apply lookup_insert_eq|done|done|].
  destruct Ha as [Ht _]. split; [|done]. intros sv' [= <-]. apply Ht. unfold target. by rewrite Hh, Hpc.
Qed.

Lemma can_accepted s k c :
  st_calls s !! k = Some c → c_pc c = Accepted → c_handler c = HNone → answerable s c → can_return s k.
Proof.
  intros Hc Hpc Hh [Ht Hr]. eapply (can_step s k (ARead k)); [|done|].
  { simpl. rewrite Hc. cbn [or_block mbind outcome_bind]. by rewrite Hpc. }
  eapply can_informed; [apply lookup_insert_eq|done|done|]. split; [|done].
  intros sv Hsv. apply Ht. unfold target in *. simpl in Hsv. rewrite Hh, Hpc in *. done.
Qed.

Lemma run_control_closed (x : @control N) (rn rn' : Network) : run_control x rn = Some rn' → closed rn = true → closed rn' = true.
Proof.
  destruct x; simpl; unfold MakeEnd, DeleteEnd, Cleanup; repeat case_match; intros; simplify_eq/=; done.
Qed.

Lemma loop_runs s0 acts s :
  st_loop s0 = true → exec s0 acts = Next s → st_loop s = false → closed (st_net s) = true.
Proof.
  intros H0. revert s. induction acts as [|a acts IH] using rev_ind; intros s.
  - intros E. injection E as E. by rewrite <- E, H0.
  - intros (s1 & He & Hs)%exec_snoc. specialize (IH s1 He). clear He.
    destruct a; cbn [LabRpc.step] in Hs; step_cases; simpl; try done.
    + intros Hl. by eapply run_control_closed, IH.
    + intros _. match goal with H : _ && _ = true |- _ => by apply andb_prop in H as [? _] end.
    + congruence.
    + by case_match.
Qed.

Lemma call_can_return s0 acts s k c :
  st_calls s0 = ∅ → st_loop s0 = true → exec s0 acts = Next s → st_calls s !! k = Some c → answerable s c →
  can_return s k.
Proof.
  intros H0 Hloop He Hc Ha. destruct (lives_exec types s0 acts s H0 He) as [Hl _]. specialize (Hl k c Hc).
  unfold life in Hl. destruct (c_pc c) as [| |i|n sv rel reord|n sv rel reord r| |r|b v] eqn:Hpc.
  - destruct (st_loop s) eqn:El.
    + assert (Hh : c_handler c = HNone).
      { destruct (c_handler c); [done|..]; destruct Hl as (? & ? & ? & _ & _ & Hp); unfold pc_ok in Hp; by rewrite Hpc in Hp. }
      eapply (can_step s k (AAccept k)); [|done|].
      { simpl. rewrite Hc. cbn [or_block mbind outcome_bind]. rewrite Hpc, El. done. }
      eapply can_accepted; [apply lookup_insert_eq|done|done|]. destruct Ha as [Ht Hr]. split; [|done].
      intros sv Hsv. apply Ht. unfold target in *. simpl in Hsv. rewrite Hh, Hpc in *. done.
    + pose proof (loop_runs _ _ _ Hloop He El) as Hcl. eapply (can_step s k (AAbandon k)); [|done|].
      { simpl. rewrite Hc. cbn [or_block mbind outcome_bind]. rewrite Hpc, Hcl. done. }
      exists []. eexists. eexists _, _, _. split_and!; [done|done|apply lookup_insert_eq|done].
  - eapply can_accepted; [done|done| |done].
    destruct (c_handler c); [done|..]; destruct Hl as (? & ? & ? & _ & _ & Hp); unfold pc_ok in Hp; by rewrite Hpc in Hp.
  - eapply can_informed; [done|done| |done].
    destruct (c_handler c); [done|..]; destruct Hl as (? & ? & ? & _ & _ & Hp); unfold pc_ok in Hp; by rewrite Hpc in Hp.
  - destruct (c_handler c) as [|sv'|r] eqn:Eh.
    + by destruct Hl.
    + destruct Hl as (q & n' & sv'' & _ & [<- _] & Hp). unfold pc_ok in Hp. rewrite Hpc in Hp. destruct Hp as [-> ->].
      by eapply can_pending.
    + eapply can_wait; [done|done|done|]. by apply Ha.
  - destruct (c_handler c) as [|sv'|r'] eqn:Eh; [by destruct Hl|..];
      destruct Hl as (q & n' & sv'' & _ & _ & Hp); unfold pc_ok in Hp; rewrite Hpc in Hp; destruct Hp as (_ & _ & Hp).
    + congruence.
    + eapply can_taken; [done|done|]. by apply Ha.
  - eapply (can_step s k (ACheck k 0 0)); [|done|].
    { simpl. rewrite Hc. cbn [or_block mbind outcome_bind]. by rewrite Hpc. }
    eapply (can_answer _ _ _ no_reply); [apply lookup_insert_eq|done|done].
  - eapply can_answer; [done|done|]. destruct (c_handler c) as [|sv'|r'] eqn:Eh.
    + destruct Hl as [_ ->]. done.
    + destruct Hl as (q & n' & sv'' & _ & _ & Hp). unfold pc_ok in Hp. rewrite Hpc in Hp.
      destruct Hp as [->|[Hp _]]; [done|congruence].
    + destruct Hl as (q & n' & sv'' & _ & _ & Hp). unfold pc_ok in Hp. rewrite Hpc in Hp.
      destruct Hp as [->|[Hp _]]; [done|]. by apply Ha.
  - exists [], s, c, b, v. done.
Qed.

(** The steps of a call of which nothing is lost. *)
Definition through (k : nat) : list action :=
  [AAccept k; ARead k; ADecide k 100; AHandle k; ATake k; ACheck k 100 900; ADeliver k].

Lemma call_through s k e m t x rep0 b n sv rel reord rs rs' w' b' v :
  st_calls s !! k = None → st_loop s = true → EncodeV x = Some b →
  readEndnameInfo e (st_net s) = Info true (Some n) (Some sv) rel reord → st_objs s !! sv = Some rs →
  dispatch types rs (MkReqMsg e m t b) (st_world s) = Some (rs', w', MkReplyMsg true b') →
  DecodeV b' rep0 = (v, true) →
  ∃ s', exec s (ACall k e m t x rep0 :: through k) = Next s' ∧
    (∃ c, st_calls s' !! k = Some c ∧ c_pc c = Returned true v) ∧
    st_world s' = w' ∧ st_objs s' = <[sv := rs']> (st_objs s) ∧ st_loop s' = true ∧
    (∀ e, readEndnameInfo e (st_net s') = readEndnameInfo e (st_net s)) ∧
    ∀ k', k' ≠ k → st_calls s' !! k' = st_calls s !! k'.
Proof.
  intros Hk Hl Hb Hi Hrs Hd Hv.
  assert (Halive : ∀ rn, readEndnameInfo e rn = Info true (Some n) (Some sv) rel reord → isServerDead e n sv rn = false).
  { intros rn. unfold readEndnameInfo, isServerDead. intros [= He Hc Hs _ _]. rewrite He. simpl in *.
    rewrite Hc in Hs. simpl in Hs. rewrite Hs. by apply bool_decide_eq_false_2; intros []. }
  assert (Hcons : ∀ s a acts s1 s', step s a = Next s1 → exec s1 acts = Next s' → exec s (a :: acts) = Next s').
  { intros s1 a acts s2 s' Ha He. simpl. by rewrite Ha. }
  eexists. split.
  - eapply Hcons; [simpl; rewrite Hk; unfold begin_Call; rewrite Hb; reflexivity|].
    eapply Hcons; [simpl; rewrite lookup_insert_eq; simpl; rewrite Hl; reflexivity|].
    eapply Hcons; [simpl; rewrite lookup_insert_eq; reflexivity|].
    eapply Hcons; [simpl; rewrite lookup_insert_eq; reflexivity|].
    assert (Hi' : ∀ x y, readEndnameInfo e (add_count x y (st_net s)) = Info true (Some n) (Some sv) rel reord) by done.
    rewrite Hi'. unfold decide_request. cbn [i_enabled i_servername i_server i_reliable i_longreordering].
    replace (Bool.eqb rel false && _) with false by by destruct rel.
    eapply Hcons; [simpl; rewrite lookup_insert_eq; simpl; rewrite Hrs; simpl; rewrite Hd; reflexivity|].
    eapply Hcons; [simpl; rewrite lookup_insert_eq; reflexivity|].
    eapply Hcons; [simpl; rewrite lookup_insert_eq; simpl; rewrite (Halive _ (Hi' _ _)); reflexivity|].
    unfold decide_reply. replace (Bool.eqb rel false && _) with false by by destruct rel.
    replace (reord && _) with false by by destruct reord.
    eapply Hcons; [simpl; rewrite lookup_insert_eq; simpl; unfold finish_Call; simpl; rewrite Hv; reflexivity|]. reflexivity.
  - simpl. split; [eexists; split; [apply lookup_insert_eq|done]|]. split_and!; try done.
    intros k' Hne. by rewrite !lookup_insert_ne by done.
Qed.

(** ** The claims *)

(** C32: [Call] returning true means that the server executed the request, once:
    the end was enabled and connected to a server that existed; then its handler
    ran, in one step of the run, and the value the caller has is what that
    execution replied; and afterwards the server was still there, so that a
    server that was deleted in between answers nobody. When it returns false the
    handler may have run, but at most once, and the caller's variable is as it was. *)
Theorem Call_meaning s0 acts s k c b v :
  st_calls s0 = ∅ → exec s0 acts = Next s → st_calls s !! k = Some c → c_pc c = Returned b v →
  (∀ p p', acts !! p = Some (AHandle k) → acts !! p' = Some (AHandle k) → p = p') ∧
  if b then ∃ q p n sv r, looked types s0 acts k c q n sv ∧ (q < p)%nat ∧ ran types s0 acts k c p sv r ∧
              DecodeV (reply r) (c_reply c) = (v, true) ∧ checked types s0 acts k c n sv
  else v = c_reply c.
Proof.
  intros H0 He Hc Hpc. destruct (lives_exec types s0 acts s H0 He) as [Hl _]. specialize (Hl k c Hc).
  unfold life in Hl. rewrite Hpc in Hl. destruct (c_handler c) as [|sv|r] eqn:Eh.
  - destruct Hl as (Hn & -> & ->). split; [|done]. intros p p' Hp. by destruct (Hn p).
  - destruct Hl as (q & n & sv' & Hq & [_ Hn] & Hp). unfold pc_ok in Hp. rewrite Hpc in Hp.
    split; [intros p p' Hp'; by destruct (Hn p)|]. destruct Hp as [[-> ->]|(_ & r & Hr & _)]; [done|congruence].
  - destruct Hl as (q & n & sv' & Hq & (p & Hlt & Hran & Hu) & Hp). unfold pc_ok in Hp. rewrite Hpc in Hp.
    split; [intros p1 p2 H1 H2; by rewrite (Hu p1 H1), (Hu p2 H2)|].
    destruct Hp as [[-> ->]|(-> & r' & Hr & Hck & _ & Hd)]; [done|].
    exists q, p, n, sv', r. split_and!; try done. by replace r with r' by congruence.
Qed.

(** C33: While nobody changes the network, a call has one of three outcomes:
    the request is lost and the handler never runs; it runs and the reply is lost;
    or it runs and [Call] returns true. It never runs after [Call] has returned.
    A reliable network loses nothing, and an end that leads nowhere loses
    everything. *)
Theorem calls_have_fates s0 acts s k c b v :
  st_calls s0 = ∅ → closed (st_net s0) = false → forallb steady acts = true → exec s0 acts = Next s →
  st_calls s !! k = Some c → c_pc c = Returned b v →
  let i := readEndnameInfo (endname (c_req c)) (st_net s0) in
  ∃ f : KvSrv.KvSrv.fate,
    (b = true ↔ f = KvSrv.KvSrv.Replied) ∧
    (match f with
     | KvSrv.KvSrv.RequestLost => (∀ p, acts !! p ≠ Some (AHandle k)) ∧ c_handler c = HNone
     | _ => ∃ p, acts !! p = Some (AHandle k)
     end) ∧
    (live i = true → reliable (st_net s0) = true → f = KvSrv.KvSrv.Replied) ∧
    (live i = false → f = KvSrv.KvSrv.RequestLost).
Proof.
  intros H0 Hcl Hst He Hc Hpc i.
  destruct (lives_exec types s0 acts s H0 He) as [Hl _]. specialize (Hl k c Hc).
  destruct (steady_exec s0 acts s H0 Hcl Hst He) as [_ Hs]. destruct (Hs k c Hc) as [_ Hf].
  rewrite Hpc in Hf. unfold fated, info_of in Hf. fold i in Hf.
  unfold life in Hl. rewrite Hpc in Hl. destruct (c_handler c) as [|sv|r] eqn:Eh; [|done|].
  - destruct Hl as [Hn _], Hf as [-> Hf]. exists KvSrv.KvSrv.RequestLost. split; [done|]. split; [done|]. split; [|done].
    intros H1 H2. rewrite Hf in H2; done.
  - destruct Hl as (q & n & sv & _ & (p & _ & (s1 & _ & _ & _ & [Hp _] & _) & _) & _), Hf as [Hlive Hf].
    destruct b.
    + exists KvSrv.KvSrv.Replied. split; [done|]. split; [eauto|]. split; [done|congruence].
    + exists KvSrv.KvSrv.ReplyLost. split; [done|]. split; [eauto|]. split; [|congruence]. intros _ H2. rewrite Hf in H2; done.
Qed.

(** C37: A call that has begun can always return, whatever has happened to the
    network, also after [Cleanup], by steps of its own goroutines, when its
    handler returns and its reply can be decoded. *)
Theorem Call_can_return s0 acts s k c :
  st_calls s0 = ∅ → st_loop s0 = true → exec s0 acts = Next s → st_calls s !! k = Some c → answerable s c →
  can_return s k.
Proof. apply call_can_return. Qed.

(** ** Dispatch *)

Lemma LastIndex_app (a b : string) : LastIndex_dot b = -1 → LastIndex_dot (a +:+ String "." b) = Z.of_nat (String.length a).
Proof.
  intros Hb. induction a as [|c a IH]; [simpl; by rewrite Hb|].
  change (LastIndex_dot (String c (a +:+ String "." b)) = Z.of_nat (S (String.length a))).
  cbn [LastIndex_dot]. rewrite IH. z_tests. lia.
Qed.

Lemma substring_prefix (a b : string) : String.substring 0 (String.length a) (a +:+ b) = a.
Proof.
  induction a as [|c a IH]; [by destruct b|].
  change (String c (String.substring 0 (String.length a) (a +:+ b)) = String c a). by rewrite IH.
Qed.

Lemma substring_suffix (a : string) x b : String.substring (String.length a + 1) (String.length b) (a +:+ String x b) = b.
Proof.
  induction a as [|d a IH]; [apply substring_all|].
  change (String.substring (String.length a + 1) (String.length b) (a +:+ String x b) = b). apply IH.
Qed.

Lemma length_dotted (a : string) x b : String.length (a +:+ String x b) = (String.length a + S (String.length b))%nat.
Proof.
  induction a as [|d a IH]; [done|].
  change (S (String.length (a +:+ String x b)) = S (String.length a + S (String.length b))%nat). by rewrite IH.
Qed.

Lemma split_dotted (a b : string) : LastIndex_dot b = -1 →
  split_at (a +:+ String "." b) (LastIndex_dot (a +:+ String "." b)) = Some (a, b).
Proof.
  intros Hb. rewrite LastIndex_app by done. unfold split_at. z_tests.
  rewrite Nat2Z.id, substring_prefix, length_dotted.
  replace (_ + S _ - _)%nat with (String.length b) by lia. by rewrite substring_suffix.
Qed.

Lemma MakeService_methods name (ms : list (Method (W:=W) (V:=V))) meth m :
  NoDup (m_Name <$> ms) →
  methods (MakeService types name ms) !! meth = Some m ↔ m ∈ ms ∧ m_Name m = meth ∧ is_handler types m = true.
Proof.
  unfold MakeService. simpl. induction ms as [|x ms IH] using rev_ind; intros Hnd.
  { simpl. rewrite lookup_empty. split; [done|]. by intros [Hm%not_elem_of_nil _]. }
  rewrite fmap_app in Hnd. apply NoDup_app in Hnd as (Hnd & Hx & _). specialize (IH Hnd).
  rewrite foldl_app, elem_of_app, list_elem_of_singleton. simpl.
  destruct (is_handler types x) eqn:Eh; [|rewrite IH; split; [intros (?&?&?); auto|intros ([?| ->]&?&?); [done|congruence]]].
  rewrite lookup_insert. case_decide as Hn.
  - split; [intros [= <-]; auto|]. intros ([Hm|Hm] & Hmn & _); [|by rewrite Hm].
    destruct (Hx (m_Name m)); [by apply list_elem_of_fmap_2|]. simpl. rewrite Hn, Hmn. set_solver.
  - rewrite IH. split; [intros (?&?&?); auto|]. intros ([?| ->]&?&?); [done|congruence].
Qed.

(** A request for ["service.method"], split at the last dot, runs the method
    of that name of the service's receiver when it is exported and has the shape of a
    handler, once, on the decoded arguments and a fresh reply; a name without a
    dot, an unknown service or a method that is no handler ends the program. *)
Theorem dispatch_routes rs (req : @reqMsg N) (w : W) svcn meth (ms : list (Method (W:=W) (V:=V))) :
  svcMeth req = (svcn +:+ "." +:+ meth)%string → LastIndex_dot meth = -1 →
  services rs !! svcn = Some (MakeService types svcn ms) → NoDup (m_Name <$> ms) →
  (∀ m, m ∈ ms → m_Name m = meth → is_handler types m = true →
     let res := m_Func m w (DecodeV (args req) (New (argsType req))).1 (New (Elem (types (default 0%nat (m_In m !! 2%nat))))) in
     dispatch types rs req w =
       Some (MkServer (services rs) (wrap_s 64 (s_count rs + 1)), res.1, MkReplyMsg true (default [] (EncodeV res.2)))) ∧
  ((∀ m, m ∈ ms → m_Name m = meth → is_handler types m = false) → dispatch types rs req w = None) ∧
  (∀ req' : @reqMsg N, LastIndex_dot (svcMeth req') = -1 → dispatch types rs req' w = None).
Proof.
  intros Hm Hdot Hs Hnd. change ("." +:+ meth)%string with (String "." meth) in Hm.
  unfold dispatch. simpl. rewrite Hm, split_dotted by done. cbn [mbind option_bind]. rewrite Hs. cbn [mbind option_bind].
  unfold Service_dispatch. split_and!.
  - intros m Hin Hn Hh.
    rewrite (proj2 (MakeService_methods svcn ms meth m Hnd)) by done. cbn [mbind option_bind].
    by destruct (m_Func _ _ _ _) as [w' r'].
  - intros Hno. destruct (methods _ !! meth) as [m|] eqn:E; [|done].
    apply MakeService_methods in E as (Hin & Hn & Hh); [|done]. by rewrite (Hno m Hin Hn) in Hh.
  - intros req' ->. done.
Qed.

End api.

(** ** A network with one server *)

Section example.

(** Values are their own encoding; the server counts its executions and echoes. *)
#[local] Instance toy_Codec : Codec (list Byte.byte) :=
  {| New _ := []; EncodeV v := Some v; DecodeV b _ := (b, true) |}.

Definition toy_types (t : rtype) : desc := DPtr 0%nat.

Definition Echo : Method (W:=nat) (V:=list Byte.byte) :=
  MkMethod "Echo" "" [0; 0; 0]%nat 0 (λ w a _, (S w, a)).

Definition toy_setup : list (@action nat (list Byte.byte) string) :=
  [AMakeServer 0; AAddService 0 (MakeService toy_types "Toy" [Echo]); AControl (CAddServer "s" 0);
   AControl (CMakeEnd "e"); AControl (CConnect "e" "s"); AControl (CEnable "e" true)].

Definition toy_call : list (@action nat (list Byte.byte) string) :=
  [ACall 7 "e" "Toy.Echo" 0 [Byte.x2a] []; AAccept 7; ARead 7; ADecide 7 5; AHandle 7; ATake 7; ACheck 7 5 5; ADeliver 7].

Definition run_or (s : @state nat (list Byte.byte) string _ _) acts :=
  match exec toy_types s acts with Next s => s | _ => s end.

Definition toy_start : @state nat (list Byte.byte) string _ _ := run_or (init 0%nat) toy_setup.
Definition toy_asked := run_or toy_start (take 2 toy_call).
Definition toy_end := run_or toy_start toy_call.

Definition toy_c (p : pc) (h : handler) : @call (list Byte.byte) string :=
  MkCall (MkReqMsg "e" "Toy.Echo" 0 [Byte.x2a]) [] p h.

Lemma Call_meaning_witness :
  ∃ q p n sv r, looked toy_types toy_start toy_call 7 (toy_c (Returned true [Byte.x2a]) (HReady (MkReplyMsg true [Byte.x2a]))) q n sv ∧
    (q < p)%nat ∧ DecodeV (reply r) [] = ([Byte.x2a], true).
Proof.
  destruct (Call_meaning toy_types toy_start toy_call toy_end 7
    (toy_c (Returned true [Byte.x2a]) (HReady (MkReplyMsg true [Byte.x2a]))) true [Byte.x2a])
    as [_ (q & p & n & sv & r & H1 & H2 & _ & H3 & _)].
  - vm_compute. reflexivity.
  - vm_compute. reflexivity.
  - vm_compute. reflexivity.
  - reflexivity.
  - exists q, p, n, sv, r. split; [exact H1|split; [exact H2|exact H3]].
Defined.

Lemma calls_have_fates_witness :
  ∃ f : KvSrv.KvSrv.fate, (true = true ↔ f = KvSrv.KvSrv.Replied) ∧ f = KvSrv.KvSrv.Replied.
Proof.
  destruct (calls_have_fates toy_types toy_start toy_call toy_end 7
    (toy_c (Returned true [Byte.x2a]) (HReady (MkReplyMsg true [Byte.x2a]))) true [Byte.x2a])
    as (f & H1 & _ & H3 & _).
  - vm_compute. reflexivity.
  - vm_compute. reflexivity.
  - vm_compute. reflexivity.
  - vm_compute. reflexivity.
  - vm_compute. reflexivity.
  - reflexivity.
  - exists f. split; [exact H1|]. apply H3; vm_compute; reflexivity.
Defined.

Lemma Call_can_return_witness : can_return toy_types toy_asked 7.
Proof.
  apply (Call_can_return toy_types toy_start (take 2 toy_call) toy_asked 7 (toy_c Accepted HNone)).
  - vm_compute. reflexivity.
  - vm_compute. reflexivity.
  - vm_compute. reflexivity.
  - vm_compute. reflexivity.
  - split; [|intros r Hr; discriminate Hr].
    intros sv Hsv. assert (sv = 0%nat) as -> by (revert Hsv; vm_compute; congruence).
    eexists _, _, _, _. split; [vm_compute; reflexivity|]. split; [vm_compute; reflexivity|]. intros _. reflexivity.
Defined.

Lemma dispatch_routes_witness :
  dispatch toy_types (AddService (MakeService toy_types "Toy" [Echo]) MakeServer)
    (MkReqMsg "e" "Toy.Echo" 0 [Byte.x2a]) 3%nat =
  Some (MkServer {["Toy" := MakeService toy_types "Toy" [Echo]]} 1, 4%nat, MkReplyMsg true [Byte.x2a]).
Proof.
  destruct (dispatch_routes toy_types (AddService (MakeService toy_types "Toy" [Echo]) MakeServer)
    (MkReqMsg "e" "Toy.Echo" 0 [Byte.x2a]) 3%nat "Toy" "Echo" [Echo]) as [H _].
  - reflexivity.
  - reflexivity.
  - reflexivity.
  - apply NoDup_singleton.
  - apply (H Echo); [by left|reflexivity|reflexivity].
Defined.

End example.
End LabRpcApi.
