(* ===== verification/LabRpcCalls.v ===== *)
(** * What the goroutines of a call agree on

    An invariant of every call of [src/6.5840/src/labrpc/labrpc.go] that a step of the
    network keeps whatever else changes the objects behind the servers, for the
    services that are put on top of it. *)
From S2P Require Import Prelude LabGob LabRpc LabRpcProof.
Import LabGob LabRpc LabRpcProof.
Local Open Scope Z_scope.

Module LabRpcCalls.

Section calls.
Context {W V N : Type} `{!Codec V, !EqDecision N, !Countable N} (types : rtype → desc).

Abbreviation action := (@action W V N).
Abbreviation state := (@state W V N).
Abbreviation call := (@call V N).
Abbreviation step := (@step W V N _ _ _ types).

Implicit Types (s : state) (a : action) (c : call) (k : nat).

Definition call_inv c : Prop :=
  match c_pc c with
  | Sending | Accepted | Informed _ => c_handler c = HNone
  | Waiting _ _ _ _ | Dead => True
  | Taken _ _ _ _ r => c_handler c = HReady r
  | Answering r => r = no_reply ∨ c_handler c = HReady r
  | Returned true v => ∃ r, c_handler c = HReady r ∧ DecodeV (reply r) (c_reply c) = (v, true)
  | Returned false v => v = c_reply c
  end.

Definition calls_inv s : Prop := ∀ k c, st_calls s !! k = Some c → call_inv c.

Lemma calls_inv_insert s s' k c : calls_inv s → st_calls s' = <[k := c]> (st_calls s) → call_inv c → calls_inv s'.
Proof using Type. intros HI E Hc k' c'. rewrite E, lookup_insert. case_decide; [by intros [= <-]|apply HI]. Qed.

Lemma finish_inv c r c' : call_inv c → c_pc c = Answering r → finish_Call c r = Some c' → call_inv c'.
Proof using Type.
  unfold call_inv, finish_Call. intros Hc Hpc. rewrite Hpc in Hc. destruct (ok r) eqn:Eo; [|by intros [= <-]].
  destruct (DecodeV (reply r) (c_reply c)) as [v good] eqn:Ed. destruct good; [|done]. intros [= <-]. simpl.
  destruct Hc as [->|Hr]; [done|]. by exists r.
Qed.

Lemma step_calls_inv s a s' : calls_inv s → step s a = Next s' → calls_inv s'.
Proof using Type.
  intros HI Hs. destruct a; simpl in Hs; step_cases; try done; try (eapply calls_inv_insert; [done|reflexivity|]).
  - unfold begin_Call in *. inv_bind. by simplify_eq.
  - specialize (HI _ _ Heqo). unfold call_inv in *. by rewrite Heqp in HI.
  - done.
  - specialize (HI _ _ Heqo). unfold call_inv in *. by rewrite Heqp in HI.
  - specialize (HI _ _ Heqo). unfold call_inv in HI. rewrite Heqp in HI. unfold decide_request.
    repeat case_match; unfold call_inv; simpl; auto.
  - specialize (HI _ _ Heqo). unfold call_inv in *. simpl. destruct (c_pc c); try congruence; try done.
    + destruct HI as [->|?]; [by left|congruence].
    + destruct b; [|done]. destruct HI as (? & ? & _). congruence.
  - done.
  - case_match; [|done]. by eapply calls_inv_insert.
  - specialize (HI _ _ Heqo). unfold call_inv in HI. rewrite Heqp in HI. unfold decide_reply.
    repeat case_match; unfold call_inv; simpl; auto.
  - unfold call_inv. simpl. by left.
  - eapply finish_inv; [by eapply HI|done|done].
Qed.

(** The reply the handler has for the call, as the caller will have it. *)
Definition reply_at (calls : gmap nat call) k : option V :=
  c ← calls !! k; match c_handler c with HReady r => Some (DecodeV (reply r) (c_reply c)).1 | _ => None end.

Lemma step_reply_at s a s' k : calls_inv s → step s a = Next s' → a ≠ AHandle k → (∀ e m t x r, a ≠ ACall k e m t x r) →
  reply_at (st_calls s') k = reply_at (st_calls s) k.
Proof using Type.
  intros HI Hs Ha Hn. unfold reply_at. destruct (st_calls s !! k) as [c|] eqn:Hc.
  - destruct (step_keeps types s a s' k c Hs Hc) as (c' & Hc' & _ & Hr & _ & Hh). rewrite Hc'. simpl. rewrite Hr.
    assert (Hinf : ∀ i, c_pc c = Informed i → c_handler c = HNone).
    { intros i Hpc. specialize (HI k c Hc). unfold call_inv in HI. by rewrite Hpc in HI. }
    specialize (Hh Ha Hinf). destruct (c_handler c') as [| |r] eqn:E1, (c_handler c) as [| |r'] eqn:E2; try done;
      first [by discriminate (proj1 (Hh _) eq_refl)|by discriminate (proj2 (Hh _) eq_refl)|idtac].
    by injection (proj1 (Hh _) eq_refl) as ->.
  - by rewrite (step_no_call types s a s' k Hs Hn Hc).
Qed.

(** Only the goroutine of the call makes it wait for a handler. *)
Lemma step_pending s a s' k c c' sv : calls_inv s → step s a = Next s' → st_calls s !! k = Some c → st_calls s' !! k = Some c' →
  c_handler c' = HPending sv → c_handler c = HPending sv ∨ ∃ i, c_pc c = Informed i ∧ i_server i = Some sv.
Proof using Type.
  intros HI Hs Hc Hc' Hp. destruct (decide (about a = Some k)) as [Ha|Ha].
  2:{ rewrite (step_other types s a s' k Hs Ha), Hc in Hc'. injection Hc' as <-. by left. }
  destruct a; simpl in Ha; try done; injection Ha as ->; simpl in Hs; step_cases; simplify_eq.
  all: repeat (unfold with_net, with_call in *; cbn [st_calls] in *).
  all: try (rewrite lookup_insert_eq in Hc'; injection Hc' as <-).
  all: try (by left).
  - unfold decide_request in Hp. repeat case_match; simpl in Hp; try (by left).
    right. eexists. split; [done|]. by simplify_eq.
  - case_match; simpl in Hc'; [rewrite lookup_insert_eq in Hc'; injection Hc' as <-; by left|]. simplify_eq. by left.
  - left. unfold decide_reply in Hp. by repeat case_match.
  - left. match goal with H : finish_Call _ _ = Some _ |- _ => apply finish_Call_keeps in H as (_ & _ & H) end. congruence.
Qed.

(** A call goes on waiting for its handler. *)
Lemma step_pending_keeps s a s' k c c' sv : calls_inv s → step s a = Next s' → a ≠ AHandle k → st_calls s !! k = Some c →
  st_calls s' !! k = Some c' → c_handler c = HPending sv → c_handler c' = HPending sv.
Proof using Type.
  intros HI Hs Hk Hc Hc' Hp. destruct (decide (about a = Some k)) as [Ha|Ha].
  2:{ rewrite (step_other types s a s' k Hs Ha), Hc in Hc'. by injection Hc' as <-. }
  destruct a; simpl in Ha; try done; injection Ha as ->; simpl in Hs; step_cases; simplify_eq.
  all: repeat (unfold with_net, with_call in *; cbn [st_calls] in *).
  all: try (rewrite lookup_insert_eq in Hc'; injection Hc' as <-; try done).
  - specialize (HI _ _ Heqo). unfold call_inv in HI. rewrite Heqp in HI. congruence.
  - case_match; simpl in Hc'; [rewrite lookup_insert_eq in Hc'; by injection Hc' as <-|]. by simplify_eq.
  - unfold decide_reply. by repeat case_match.
  - match goal with H : finish_Call _ _ = Some _ |- _ => apply finish_Call_keeps in H as (_ & _ & H) end. congruence.
Qed.

(** A call that has just begun. *)
Lemma step_new_call s a s' k c' : step s a = Next s' → st_calls s !! k = None → st_calls s' !! k = Some c' →
  c_pc c' = Sending ∧ c_handler c' = HNone.
Proof using Type.
  intros Hs Hc Hc'. destruct (decide (about a = Some k)) as [Ha|Ha]; [|rewrite (step_other types s a s' k Hs Ha) in Hc'; congruence].
  destruct a; simpl in Ha; try done; injection Ha as ->; simpl in Hs; step_cases; try congruence.
  simpl in Hc'. rewrite lookup_insert_eq in Hc'. injection Hc' as <-. unfold begin_Call in *. inv_bind. by simplify_eq.
Qed.

(** Only the tester changes where ends and servers lead. *)
Lemma step_routes s a s' : step s a = Next s' → (∀ x, a ≠ AControl x) →
  connections (st_net s') = connections (st_net s) ∧ servers (st_net s') = servers (st_net s).
Proof using Type. intros Hs Hx. destruct a; simpl in Hs; step_cases; simpl; try case_match; try done;
    by edestruct Hx. Qed.

(** What a goroutine has found out about its end. *)
Lemma step_informed s a s' k c c' i : step s a = Next s' → st_calls s !! k = Some c → st_calls s' !! k = Some c' →
  c_pc c' = Informed i → c_pc c = Informed i ∨ i = readEndnameInfo (endname (c_req c)) (st_net s).
Proof using Type.
  intros Hs Hc Hc' Hp. destruct (decide (about a = Some k)) as [Ha|Ha].
  2:{ rewrite (step_other types s a s' k Hs Ha), Hc in Hc'. injection Hc' as <-. by left. }
  destruct a; simpl in Ha; try done; injection Ha as ->; simpl in Hs; step_cases; simplify_eq.
  all: repeat (unfold with_net, with_call in *; cbn [st_calls] in *).
  all: try (rewrite lookup_insert_eq in Hc'; injection Hc' as <-; simpl in Hp; try done).
  - injection Hp as <-. by right.
  - unfold decide_request in Hp. by repeat case_match.
  - by left.
  - case_match; simpl in Hc'; [rewrite lookup_insert_eq in Hc'; injection Hc' as <-; done|]. simplify_eq. by left.
  - unfold decide_reply in Hp. by repeat case_match.
  - match goal with H : finish_Call _ _ = Some _ |- _ => unfold finish_Call in H end. repeat case_match; simplify_eq/=; done.
Qed.

(** A service does not go away. *)
Lemma step_serves s a s' o rs : step s a = Next s' → (∀ o svc, a ≠ AAddService o svc) → (∀ o, a ≠ AMakeServer o) →
  st_objs s !! o = Some rs → ∃ rs', st_objs s' !! o = Some rs' ∧ services rs' = services rs.
Proof using Type.
  intros Hs H1 H2 Ho. destruct (step_objs types s a s' o Hs) as [rs' Hrs']; [by eexists|]. exists rs'. split; [done|].
  destruct (step_services types s a s' o rs' Hs H1 H2 Hrs') as (rs0 & E & ->). congruence.
Qed.

End calls.
End LabRpcCalls.
