(* ===== verification/KvSrvConfig.v ===== *)
(** * The tester of the key/value server

    [src/6.5840/src/kvsrv/config.go]: how the tests put the server and its clerks
    on the simulated network, and what reflection tells labrpc of the server's
    methods. An operation works on the fields of [config] and on the whole state
    of the network, so that what the tester has set up can run. The random names
    of ends and the times are arguments, and a clerk is known by the number
    [nextClientId] had when it was made. *)
From S2P Require Import Prelude LabGob LabRpc.
From S2P Require KvSrv.
Import LabGob LabRpc.
Local Open Scope Z_scope.

Module KvSrvConfig.

(** ** The server as labrpc sees it *)

(** What a request or a reply holds; a pointer is the value it points to. *)
Inductive kvvalue :=
| VGetArgs (a : KvSrv.KvSrv.GetArgs)
| VGetReply (r : KvSrv.KvSrv.GetReply)
| VPutAppendArgs (a : KvSrv.KvSrv.PutAppendArgs)
| VPutAppendReply (r : KvSrv.KvSrv.PutAppendReply).

(** The types of [common.go], and the pointers to them. *)
Definition kv_types (t : rtype) : desc :=
  match t with
  | 1%nat => DPtr 2
  | 2%nat => DStruct "GetArgs" [("Key", 10%nat)]
  | 3%nat => DPtr 4
  | 4%nat => DStruct "GetReply" [("Value", 10%nat)]
  | 5%nat => DPtr 6
  | 6%nat => DStruct "PutAppendArgs" [("Key", 10%nat); ("Value", 10%nat); ("ID", 11%nat); ("State", 12%nat)]
  | 7%nat => DPtr 8
  | 8%nat => DStruct "PutAppendReply" [("Value", 10%nat)]
  | 9%nat => DPtr 13
  | 10%nat => DBasic "string"
  | 11%nat => DBasic "int64"
  | 12%nat => DBasic "AppendState"
  | _ => DOther "KVServer"
  end%nat.

(** The state of the objects: the servers that were started, by their address. *)
Abbreviation objects := (list KvSrv.KvSrv.KVServer).

(** A method called on the server at address [p]; reflection panics when it is
    given a value of another type, which does not happen. *)
Definition on_server (p : nat) (f : KvSrv.KvSrv.KVServer → KvSrv.KvSrv.KVServer * option kvvalue) (w : objects) (r : kvvalue) :
    objects * kvvalue :=
  match w !! p with
  | Some kv => let '(kv, r') := f kv in (<[p := kv]> w, default r r')
  | None => (w, r)
  end.

Definition call_Get (a : kvvalue) (kv : KvSrv.KvSrv.KVServer) : KvSrv.KvSrv.KVServer * option kvvalue :=
  match a with
  | VGetArgs args => let '(kv, reply) := KvSrv.KvSrv.Get kv args in (kv, Some (VGetReply reply))
  | _ => (kv, None)
  end.

Definition call_update (h : KvSrv.KvSrv.KVServer → KvSrv.KvSrv.PutAppendArgs → KvSrv.KvSrv.KVServer * KvSrv.KvSrv.PutAppendReply)
    (a : kvvalue) (kv : KvSrv.KvSrv.KVServer) : KvSrv.KvSrv.KVServer * option kvvalue :=
  match a with
  | VPutAppendArgs args => let '(kv, reply) := h kv args in (kv, Some (VPutAppendReply reply))
  | _ => (kv, None)
  end.

(** The exported methods of the receiver at address [p]; the types are those of
    the receiver, the arguments and the reply. *)
Definition kv_methods (p : nat) : list (Method (W:=objects) (V:=kvvalue)) :=
  [ MkMethod "Append" "" [9; 5; 7]%nat 0 (λ w a r, on_server p (call_update KvSrv.KvSrv.Append a) w r);
    MkMethod "CheckIfNeedChange" "" [9; 5]%nat 1
      (λ w a r, on_server p (λ kv,
         match a with VPutAppendArgs args => ((KvSrv.KvSrv.CheckIfNeedChange kv args).1, None) | _ => (kv, None) end) w r);
    MkMethod "Get" "" [9; 1; 3]%nat 0 (λ w a r, on_server p (call_Get a) w r);
    MkMethod "Put" "" [9; 5; 7]%nat 0 (λ w a r, on_server p (call_update KvSrv.KvSrv.Put a) w r) ].

Definition kvsvc (p : nat) : Service (W:=objects) (V:=kvvalue) := MakeService kv_types "KVServer" (kv_methods p).

(** ** config.go *)

Section config.
Context `{Codec kvvalue}.

Abbreviation netstate := (@state objects kvvalue name _ _).
Abbreviation netstep := (@step objects kvvalue name _ _ _ kv_types).

Definition SERVERID : nat := 0.

Record config := Config {
  net : netstate;
  kvserver : option nat;
  clerks : gmap nat string;
  nextClientId : Z;
  start : Z;
  t0 : Z;
  rpcs0 : Z;
  ops : Z;
}.

Definition with_state (s : netstate) (c : config) : config :=
  Config s (kvserver c) (clerks c) (nextClientId c) (start c) (t0 c) (rpcs0 c) (ops c).
Definition set_clerks (cs : gmap nat string) (id : Z) (c : config) : config :=
  Config (net c) (kvserver c) cs id (start c) (t0 c) (rpcs0 c) (ops c).
Definition set_stats (now rpcs n : Z) (c : config) : config :=
  Config (net c) (kvserver c) (clerks c) (nextClientId c) (start c) now rpcs n.

(** A call of one of the methods of [cfg.net]. *)
Definition control_net (x : control) (c : config) : outcome config :=
  s ← netstep (net c) (AControl x); Next (with_state s c).

Definition second : Z := 10 ^ 9.

(** [failed] is [t.Failed()]; whether the test now fails. *)
Definition checkTimeout (failed : bool) (now : Z) (c : config) : bool :=
  negb failed && (120 * second <? now - start c).

Definition cleanup (failed : bool) (now : Z) (c : config) : outcome (config * bool) :=
  c ← control_net CCleanup c; Next (c, checkTimeout failed now c).

(** A missing key reads as the empty name. *)
Definition endname_of (ck : nat) (c : config) : string := default "" (clerks c !! ck).

Definition ConnectClientUnlocked (ck : nat) (c : config) : outcome config :=
  control_net (CEnable (EndName (endname_of ck c)) true) c.

Definition ConnectClient (ck : nat) (c : config) : outcome config := ConnectClientUnlocked ck c.

(** The new clerk; [endname] is the random string. *)
Definition makeClient (endname : string) (c : config) : outcome (nat * config) :=
  c ← control_net (CMakeEnd (EndName endname)) c;
  c ← control_net (CConnect (EndName endname) (ServerName SERVERID)) c;
  let ck := Z.to_nat (nextClientId c) in
  let c := set_clerks (<[ck := endname]> (clerks c)) (wrap_s 64 (nextClientId c + 1)) c in
  c ← ConnectClientUnlocked ck c;
  Next (ck, c).

(** It also removes files of that name, and there are none. *)
Definition deleteClient (ck : nat) (c : config) : outcome config :=
  let v := endname_of ck c in
  c ← control_net (CDeleteEnd (EndName v)) c;
  Next (set_clerks (delete ck (clerks c)) (nextClientId c) c).

Definition StartServer (c : config) : outcome config :=
  let s := net c in
  let p := length (st_world s) in
  let s := State (st_net s) (st_objs s) (st_world s ++ [KvSrv.KvSrv.StartKVServer]) (st_calls s) (st_loop s) in
  let srv := fresh (dom (st_objs s)) in
  s ← netstep s (AMakeServer srv);
  s ← netstep s (AAddService srv (kvsvc p));
  s ← netstep s (AControl (CAddServer (ServerName 0) srv));
  Next (Config s (Some p) (clerks c) (nextClientId c) (start c) (t0 c) (rpcs0 c) (ops c)).

Definition make_config (now : Z) (unreliable : bool) : outcome config :=
  let c := Config (init []) None ∅ (Z.of_nat SERVERID + 1) now 0 0 0 in
  c ← StartServer c;
  control_net (CReliable (negb unreliable)) c.

Definition rpcTotal (c : config) : Z := GetTotalCount (st_net (net c)).

Definition begin (now : Z) (c : config) : config := set_stats now (rpcTotal c) 0 c.

Definition op (c : config) : config := set_stats (t0 c) (rpcs0 c) (wrap_s 32 (ops c + 1)) c.

(** What [end] prints: the time, the calls and the operations; [None]: the test
    has failed. *)
Definition end_ (failed : bool) (now : Z) (c : config) : option (Z * Z * Z) :=
  if failed || checkTimeout failed now c then None
  else Some (now - t0 c, wrap_s 64 (rpcTotal c - rpcs0 c), ops c).

(** A test starts its clients: [make_config], then a [makeClient] for each name. *)
Definition set_up (now : Z) (unreliable : bool) (names : list string) : outcome config :=
  c ← make_config now unreliable;
  foldl (λ c endname, c ← c; '(_, c) ← makeClient endname c; Next c) (Next c) names.

End config.
End KvSrvConfig.
