(* ===== verification/KvNet.v ===== *)
(** * The key/value service over the simulated network

    The clerks of [src/6.5840/src/kvsrv/client.go] against the server of
    [server.go], with every [Call] the one of [labrpc.go]: the requests of the
    clerks, and the system of clerks and network. [KvSrv] treats a call as one
    step with one of three outcomes; here a call is the steps of its goroutines,
    and those of different calls interleave. *)
From S2P Require Import Prelude LabGob LabRpc Porcupine KvModel.
From S2P Require Import KvSrv KvSrvConfig.
Import LabGob LabRpc Porcupine KvModel KvSrvConfig.
Local Open Scope Z_scope.

Module KvNet.

(** ** The calls of a clerk *)

(** What the loop the clerk is in calls: the method, the type of the arguments,
    the arguments, and the variable the reply is for. *)
Definition request_of (cl : KvSrv.clerk) : option (string * rtype * kvvalue * kvvalue) :=
  match cl with
  | KvSrv.Getting getargs getreply => Some ("KVServer.Get", 1%nat, VGetArgs getargs, VGetReply getreply)
  | KvSrv.Modifying op args reply | KvSrv.Acking op args reply _ =>
      Some (if String.eqb op "Put" then "KVServer.Put" else "KVServer.Append", 5%nat,
            VPutAppendArgs args, VPutAppendReply reply)
  | KvSrv.Returned _ => None
  end.

Definition get_reply (v : kvvalue) : KvSrv.GetReply :=
  match v with VGetReply r => r | _ => KvSrv.MkGetReply "" end.
Definition update_reply (v : kvvalue) : KvSrv.PutAppendReply :=
  match v with VPutAppendReply r => r | _ => KvSrv.MkPutAppendReply "" end.

(** The clerk when [Call] has returned [ok] and the variable holds [v]. *)
Definition clerk_next (cl : KvSrv.clerk) (ok : bool) (v : kvvalue) : KvSrv.clerk :=
  match cl with
  | KvSrv.Getting getargs _ =>
      if ok then KvSrv.Returned (KvSrv.gr_Value (get_reply v)) else KvSrv.Getting getargs (get_reply v)
  | KvSrv.Modifying op args _ =>
      if ok then
        let args := KvSrv.MkPutAppendArgs (KvSrv.pa_Key args) (KvSrv.pa_Value args) (KvSrv.pa_ID args) KvSrv.Ack in
        KvSrv.Acking op args (KvSrv.MkPutAppendReply "") (KvSrv.par_Value (update_reply v))
      else KvSrv.Modifying op args (update_reply v)
  | KvSrv.Acking op args _ reslt =>
      if ok then KvSrv.Returned reslt else KvSrv.Acking op args (update_reply v) reslt
  | KvSrv.Returned result => KvSrv.Returned result
  end.

(** What gob promises for these values: what a value was encoded to decodes, into
    a new variable of its type, to that value; a new reply is empty. *)
Definition type_of (v : kvvalue) : rtype :=
  match v with VGetArgs _ => 1 | VGetReply _ => 4 | VPutAppendArgs _ => 5 | VPutAppendReply _ => 8 end%nat.

Class KvCodec `{Codec kvvalue} : Prop := {
  encodes v : ∃ b, EncodeV v = Some b ∧ DecodeV b (New (type_of v)) = (v, true);
  new_get_reply : New 4%nat = VGetReply (KvSrv.MkGetReply "");
  new_update_reply : New 8%nat = VPutAppendReply (KvSrv.MkPutAppendReply "");
}.

(** What the tests record of an operation: who, when it was called, what it
    returned and when. *)
Definition operation (c : nat) (o : KvSrv.kvop) (call : Z) (result : string) (ret : Z) : Operation iface :=
  MkOperation (Z.of_nat c) (IKvInput (KvSrv.input_of o)) call (IKvOutput (KvSrv.output_of o result)) ret.

(** ** The system *)

Section system.
Context `{Codec kvvalue}.

Abbreviation objects := (list KvSrv.KVServer).
Abbreviation netstate := (@state objects kvvalue name _ _).
Abbreviation netstep := (@step objects kvvalue name _ _ _ kv_types).

(** A method of a clerk that runs, with the call it waits for. *)
Record running := Running {
  r_op : KvSrv.kvop;
  r_clerk : KvSrv.clerk;
  r_call : Z;
  r_wait : option nat;
}.

Record system := System {
  s_net : netstate;
  s_ends : gmap nat string;
  s_clerks : gmap nat running;
  s_hist : list (Operation iface);
  s_now : Z;
}.

(** A client calls a method of its clerk; the clerk calls the server; the
    goroutines of a call go on; a clerk has the outcome of its call. *)
Inductive action :=
| Invoke (c : nat) (o : KvSrv.kvop)
| Send (c k : nat)
| Net (a : @LabRpc.action objects kvvalue name)
| Receive (c : nat).

(** The steps of the goroutines of labrpc. *)
Definition internal (a : @LabRpc.action objects kvvalue name) : bool :=
  match a with
  | AControl _ | AMakeServer _ | AAddService _ _ | ACall _ _ _ _ _ _ => false
  | _ => true
  end.

Definition step (s : system) (a : action) : outcome system :=
  let now := s_now s + 1 in
  match a with
  | Invoke c o =>
      _ ← or_block (s_ends s !! c);
      match s_clerks s !! c with
      | Some _ => Blocked
      | None => Next (System (s_net s) (s_ends s) (<[c := Running o (KvSrv.start o) (s_now s) None]> (s_clerks s)) (s_hist s) now)
      end
  | Send c k =>
      r ← or_block (s_clerks s !! c);
      e ← or_block (s_ends s !! c);
      match r_wait r, request_of (r_clerk r) with
      | None, Some (m, t, args, reply) =>
          net ← netstep (s_net s) (ACall k (EndName e) m t args reply);
          Next (System net (s_ends s) (<[c := Running (r_op r) (r_clerk r) (r_call r) (Some k)]> (s_clerks s)) (s_hist s) now)
      | _, _ => Blocked
      end
  | Net a =>
      if internal a then net ← netstep (s_net s) a; Next (System net (s_ends s) (s_clerks s) (s_hist s) now)
      else Blocked
  | Receive c =>
      r ← or_block (s_clerks s !! c);
      k ← or_block (r_wait r);
      call ← or_block (st_calls (s_net s) !! k);
      match c_pc call with
      | Returned b v =>
          match clerk_next (r_clerk r) b v with
          | KvSrv.Returned result =>
              let o := operation c (r_op r) (r_call r) result (s_now s) in
              Next (System (s_net s) (s_ends s) (delete c (s_clerks s)) (s_hist s ++ [o]) now)
          | cl => Next (System (s_net s) (s_ends s) (<[c := Running (r_op r) cl (r_call r) None]> (s_clerks s)) (s_hist s) now)
          end
      | _ => Blocked
      end
  end.

Fixpoint exec (s : system) (acts : list action) : outcome system :=
  match acts with
  | [] => Next s
  | a :: acts => s ← step s a; exec s acts
  end.

(** The clients the tester has made, none of which has begun. *)
Definition init (c : config) : system := System (net c) (clerks c) ∅ [] 0.

(** The ids drawn in a run. *)
Definition ids (acts : list action) : list Z :=
  omap (λ a, match a with Invoke _ o => KvSrv.op_id o | _ => None end) acts.

End system.
End KvNet.
