(* ===== verification/KvNetLin.v ===== *)
(** * The service over the network is linearizable

    The system of [KvNet] is simulated by the one of [KvSrv]: a call takes its
    abstract step when its handler runs, and which of the two outcomes that step
    has, the reply lost or not, is what will become of the call. A client whose
    reply is on its way is then ahead in the abstract system, and its operation
    returns there earlier than it does in fact, which only narrows its interval. *)
From S2P Require Import Prelude LabGob LabRpc LabRpcProof LabRpcApi Porcupine Entries KvModel.
From S2P Require Import KvSrv KvSrvLin KvSrvConfig KvNet.
Import LabGob LabRpc LabRpcProof LabRpcApi Porcupine Entries KvModel KvSrvConfig KvNet.
Local Open Scope Z_scope.

Module KvNetLin.

(** ** Narrower intervals *)

Definition widen (a b : Operation iface) : Prop :=
  op_ClientId a = op_ClientId b ∧ op_Input a = op_Input b ∧ op_Call a = op_Call b ∧
  op_Output a = op_Output b ∧ op_Return a ≤ op_Return b.

Lemma widen_runs st l l' : Forall2 widen l l' → runs StoreModel st l → runs StoreModel st l'.
Proof.
  intros Hw. revert st. induction Hw as [|a b l l' (_ & Hi & _ & Ho & _) _ IH]; intros st; [done|].
  intros (st' & Hs & Hr). exists st'. rewrite <- Hi, <- Ho. auto.
Qed.

Lemma widen_sorted l l' :
  Forall2 widen l l' → StronglySorted (λ a b, ¬ op_Return b < op_Call a) l →
  StronglySorted (λ a b, ¬ op_Return b < op_Call a) l'.
Proof.
  intros Hw. induction Hw as [|a b l l' (_ & _ & Hc & _) Hw IH]; [constructor|].
  intros Hs. inversion Hs as [|?? Hl Hf]; subst. constructor; [by apply IH|]. clear IH Hs Hl.
  induction Hw as [|a' b' l l' (_ & _ & _ & _ & Hr) _ IH]; [constructor|].
  inversion Hf; subst. constructor; [lia|by apply IH].
Qed.

Lemma widen_linearizable l l' :
  Forall2 widen l l' → ops_linearizable StoreModel l → ops_linearizable StoreModel l'.
Proof.
  intros Hw (m & Hp & Hs & Hr).
  destruct (Permutation_Forall2 (Permutation_sym Hp) Hw) as (m' & Hp' & Hw').
  exists m'. split_and!; [by symmetry|by eapply widen_sorted|by eapply widen_runs].
Qed.

(** ** The abstract system, seen through its clients *)

(** A client that runs: its operation, where its clerk is, and when it began. *)
Abbreviation client := (KvSrv.kvop * KvSrv.clerk * Z)%type.

(** The client in the abstract system, where an operation that has returned is gone. *)
Definition abstract (x : option client) : option KvSrv.running :=
  match x with
  | None | Some (_, KvSrv.Returned _, _) => None
  | Some (o, cl, call) => Some (KvSrv.Running o cl call)
  end.

(** The operation that has returned there but not yet in fact. *)
Definition early_ok (now : Z) (c : nat) (x : option client) (e : option (Operation iface)) : Prop :=
  match x with
  | Some (o, KvSrv.Returned res, call) => ∃ t, t < now ∧ e = Some (operation c o call res t)
  | _ => e = None
  end.

Definition Sim (used : list Z) (kv : KvSrv.KVServer) (view : nat → option client)
    (hist : list (Operation iface)) (now : Z) : Prop :=
  ∃ log clerks ahist finished (early : gmap nat (Operation iface)),
    KvSrvLin.Inv used (KvSrv.System kv clerks ahist now) log ∧
    (∀ c, clerks !! c = abstract (view c)) ∧
    ahist ≡ₚ finished ++ (map_to_list early).*2 ∧ Forall2 widen finished hist ∧
    ∀ c, early_ok now c (view c) (early !! c).

Definition update (c : nat) (x : option client) (view : nat → option client) : nat → option client :=
  λ c', if decide (c' = c) then x else view c'.

Lemma early_later now now' c x e : now ≤ now' → early_ok now c x e → early_ok now' c x e.
Proof. unfold early_ok. destruct x as [[[o []] call]|]; try done. intros Hle (t & Ht & ->). exists t. split; [lia|done]. Qed.

Section sim.
Implicit Types (used : list Z) (kv : KvSrv.KVServer) (view : nat → option client) (now : Z) (c : nat).

Lemma Sim_tick used kv view view' hist now now' :
  now ≤ now' → (∀ c, view' c = view c) → Sim used kv view hist now → Sim used kv view' hist now'.
Proof.
  intros Hle Hv (log & clerks & ahist & fin & early & HI & Hc & Hh & Hf & He).
  exists log, clerks, ahist, fin, early. split_and!; [by eapply KvSrvLin.Inv_tick| |done..|].
  - intros c. by rewrite Hv.
  - intros c. rewrite Hv. by eapply early_later.
Qed.

Lemma Sim_invoke used kv view hist now c o :
  Sim used kv view hist now → view c = None → (∀ id, KvSrv.op_id o = Some id → id ∉ used) →
  Sim (option_list (KvSrv.op_id o) ++ used) kv (update c (Some (o, KvSrv.start o, now)) view) hist (now + 1).
Proof.
  intros (log & clerks & ahist & fin & early & HI & Hc & Hh & Hf & He) Hv Hid.
  eexists log, _, ahist, fin, early. split_and!.
  - apply (KvSrvLin.Inv_invoke used _ log c o HI); [|done]. simpl. by rewrite Hc, Hv.
  - intros c'. simpl. unfold update. case_decide as E; [|rewrite lookup_insert_ne by congruence; apply Hc].
    subst c'. rewrite lookup_insert_eq. by destruct o.
  - done.
  - done.
  - intros c'. unfold update. case_decide as E; [|eapply early_later; [|apply He]; lia].
    subst c'. specialize (He c). rewrite Hv in He. by destruct o.
Qed.

(** The handler of the call of client [c] runs. *)
Lemma Sim_handle used kv view hist now c o cl call f kv' cl' :
  Sim used kv view hist now → view c = Some (o, cl, call) → (∀ res, cl ≠ KvSrv.Returned res) →
  KvSrv.clerk_iter kv cl f = (kv', cl') →
  Sim used kv' (update c (Some (o, cl', call)) view) hist (now + 1).
Proof.
  intros (log & clerks & ahist & fin & early & HI & Hc & Hh & Hf & He) Hv Hcl Hit.
  assert (Hr : clerks !! c = Some (KvSrv.Running o cl call)).
  { rewrite Hc, Hv. destruct cl; try done. by destruct (Hcl result). }
  assert (He0 : early !! c = None).
  { specialize (He c). rewrite Hv in He. destruct cl; try done. by destruct (Hcl result). }
  assert (Hother : ∀ (early' : gmap nat (Operation iface)) x, (∀ c', c' ≠ c → early' !! c' = early !! c') →
      early_ok (now + 1) c x (early' !! c) → ∀ c', early_ok (now + 1) c' (update c x view c') (early' !! c')).
  { intros early' x H1 H2 c'. unfold update. case_decide as E; [by subst|].
    rewrite H1 by done. eapply early_later; [|apply He]. lia. }
  pose proof (λ s', KvSrvLin.Inv_Rpc used _ log c f s' HI) as Hstep. simpl in Hstep. rewrite Hr in Hstep.
  cbn [mbind option_bind KvSrv.r_clerk KvSrv.r_op KvSrv.r_call] in Hstep. rewrite Hit in Hstep.
  assert (Hrun : (∀ res, cl' ≠ KvSrv.Returned res) →
    (∃ log', KvSrvLin.Inv used (KvSrv.System kv' (<[c:=KvSrv.Running o cl' call]> clerks) ahist (now + 1)) log') →
    Sim used kv' (update c (Some (o, cl', call)) view) hist (now + 1)).
  { intros Hcl' [log' HI']. eexists log', _, ahist, fin, early. split_and!; [exact HI'| |done|done|].
    - intros c'. unfold update. case_decide as E; [|rewrite lookup_insert_ne by congruence; apply Hc].
      subst c'. rewrite lookup_insert_eq. destruct cl'; try done. by destruct (Hcl' result).
    - apply Hother; [done|]. rewrite He0. destruct cl'; try done. by destruct (Hcl' result). }
  destruct cl' as [| | |res]; [apply Hrun; [done|by eapply Hstep]..|].
  destruct (Hstep _ eq_refl) as [log' HI']. eexists log', _, _, fin, (<[c := operation c o call res now]> early).
  split_and!; [exact HI'| | |done|].
  - intros c'. unfold update. case_decide as E; [subst; by rewrite lookup_delete_eq|].
    rewrite lookup_delete_ne by congruence. apply Hc.
  - rewrite (map_to_list_insert _ _ _ He0). simpl. rewrite Hh. by solve_Permutation.
  - apply Hother; [by intros c' ?; rewrite lookup_insert_ne by congruence|].
    rewrite lookup_insert_eq. exists now. split; [lia|done].
Qed.

(** The operation of client [c] returns in fact. *)
Lemma Sim_return used kv view hist now c o res call :
  Sim used kv view hist now → view c = Some (o, KvSrv.Returned res, call) →
  Sim used kv (update c None view) (hist ++ [operation c o call res now]) (now + 1).
Proof.
  intros (log & clerks & ahist & fin & early & HI & Hc & Hh & Hf & He) Hv.
  pose proof (He c) as Hec. rewrite Hv in Hec. destruct Hec as (t & Ht & Hec).
  exists log, clerks, ahist, (fin ++ [operation c o call res t]), (delete c early). split_and!.
  - eapply KvSrvLin.Inv_tick, HI. lia.
  - intros c'. unfold update. case_decide as E; [|apply Hc]. subst c'. by rewrite Hc, Hv.
  - rewrite Hh, <- (map_to_list_delete _ _ _ Hec). simpl. by solve_Permutation.
  - apply Forall2_app; [done|]. constructor; [|constructor]. repeat split; simpl. lia.
  - intros c'. unfold update. case_decide as E; [subst; by rewrite lookup_delete_eq|].
    rewrite lookup_delete_ne by congruence. eapply early_later; [|apply He]. lia.
Qed.

Lemma Sim_linearizable used kv view hist now :
  Sim used kv view hist now → (∀ c, view c = None) →
  ops_linearizable StoreModel hist ∧ KvSrv.IDMap kv = ∅.
Proof.
  intros (log & clerks & ahist & fin & early & HI & Hc & Hh & Hf & He) Hv.
  assert (Hcl : clerks = ∅) by (apply map_empty; intros c; by rewrite Hc, Hv).
  assert (Hea : early = ∅).
  { apply map_empty. intros c. specialize (He c). by rewrite Hv in He. }
  rewrite Hea, map_to_list_empty, app_nil_r in Hh. split; [|by apply (KvSrvLin.Inv_forgotten _ _ _ HI)].
  destruct (KvSrvLin.Inv_linearizable _ _ _ HI Hcl) as [(l & Hp & H) _]. simpl in Hp.
  apply (widen_linearizable fin); [done|]. exists l. split; [by rewrite Hp|done].
Qed.

End sim.

(** ** One request *)

Section net.
Context `{KvCodec}.

Abbreviation objects := (list KvSrv.KVServer).
Abbreviation netstate := (@LabRpc.state objects kvvalue name _ _).
Abbreviation netexec := (@LabRpc.exec objects kvvalue name _ _ _ kv_types).
Abbreviation netstep := (@LabRpc.step objects kvvalue name _ _ _ kv_types).

(** The variable a reply goes to is empty until it comes. *)
Definition waiting (cl : KvSrv.clerk) : Prop :=
  match cl with
  | KvSrv.Getting _ rep => rep = KvSrv.MkGetReply ""
  | KvSrv.Modifying _ _ rep | KvSrv.Acking _ _ rep _ => rep = KvSrv.MkPutAppendReply ""
  | KvSrv.Returned _ => False
  end.

(** What the handler does, and the reply. *)
Definition handle (cl : KvSrv.clerk) (kv : KvSrv.KVServer) : KvSrv.KVServer * kvvalue :=
  match cl with
  | KvSrv.Getting args _ => let '(kv, r) := KvSrv.Get kv args in (kv, VGetReply r)
  | KvSrv.Modifying op args _ | KvSrv.Acking op args _ _ =>
      let '(kv, r) := KvSrv.handler_of op kv args in (kv, VPutAppendReply r)
  | KvSrv.Returned _ => (kv, VGetReply (KvSrv.MkGetReply ""))
  end.

Lemma handle_iter kv cl f :
  waiting cl → f ≠ KvSrv.RequestLost →
  KvSrv.clerk_iter kv cl f =
    ((handle cl kv).1, if decide (f = KvSrv.Replied) then clerk_next cl true (handle cl kv).2 else cl).
Proof.
  intros Hw Hf. destruct cl as [args rep|op args rep|op args rep res|]; simpl in *; try done.
  - destruct (KvSrv.Get kv args) as [kv' r] eqn:E; destruct f; simpl; rewrite ?E; done.
  - destruct (KvSrv.handler_of op kv args) as [kv' r] eqn:E; destruct f; simpl; rewrite ?E; done.
  - destruct (KvSrv.handler_of op kv args) as [kv' r] eqn:E; destruct f; simpl; rewrite ?E; done.
Qed.

(** The type of its reply. *)
Definition reply_type (cl : KvSrv.clerk) : rtype := match cl with KvSrv.Getting _ _ => 4 | _ => 8 end%nat.

Lemma request_reply cl m t args rep :
  waiting cl → request_of cl = Some (m, t, args, rep) → rep = New (reply_type cl) ∧ t = type_of args.
Proof.
  destruct cl; simpl; try done; intros -> [= <- <- <- <-]; by rewrite ?new_get_reply, ?new_update_reply.
Qed.

Lemma handle_decodes cl kv : waiting cl → ∃ b, EncodeV (handle cl kv).2 = Some b ∧
  DecodeV b (New (reply_type cl)) = ((handle cl kv).2, true).
Proof.
  intros Hw. destruct (encodes (handle cl kv).2) as (b & Hb & Hd). exists b. split; [done|].
  rewrite <- Hd. destruct cl; simpl in *; try done.
  - by destruct (KvSrv.Get _ _).
  - by destruct (KvSrv.handler_of _ _ _).
  - by destruct (KvSrv.handler_of _ _ _).
Qed.

(** What labrpc finds of the methods. *)
Lemma kvsvc_methods p :
  methods (kvsvc p) !! "Get" = Some (MkMethod "Get" "" [9; 1; 3]%nat 0 (λ w a r, on_server p (call_Get a) w r)) ∧
  methods (kvsvc p) !! "Put" =
    Some (MkMethod "Put" "" [9; 5; 7]%nat 0 (λ w a r, on_server p (call_update KvSrv.Put a) w r)) ∧
  methods (kvsvc p) !! "Append" =
    Some (MkMethod "Append" "" [9; 5; 7]%nat 0 (λ w a r, on_server p (call_update KvSrv.Append a) w r)) ∧
  methods (kvsvc p) !! "CheckIfNeedChange" = None.
Proof. done. Qed.

(** Evaluates the dispatch of a request to the method [m] finds. *)
Ltac run_method m Hdec Hp :=
  match goal with |- context [split_at ?s ?i] => let v := eval vm_compute in (split_at s i) in change (split_at s i) with v end;
  cbn [mbind option_bind]; rewrite lookup_singleton_eq; cbn [mbind option_bind];
  unfold Service_dispatch; rewrite m; cbn [mbind option_bind args argsType m_Func];
  rewrite Hdec; unfold on_server; rewrite Hp; simpl.

Lemma dispatch_update rs w p kv op pa rep b b' e :
  services rs = {["KVServer" := kvsvc p]} → w !! p = Some kv → (DecodeV b (New 5%nat)).1 = VPutAppendArgs pa →
  EncodeV (VPutAppendReply (KvSrv.handler_of op kv pa).2) = Some b' →
  dispatch kv_types rs (MkReqMsg e (if String.eqb op "Put" then "KVServer.Put" else "KVServer.Append") 5%nat b : @reqMsg name) w =
    Some (MkServer (services rs) (wrap_s 64 (s_count rs + 1)), <[p := (KvSrv.handler_of op kv pa).1]> w, MkReplyMsg true b') ∧
  handle (KvSrv.Modifying op pa rep) kv = ((KvSrv.handler_of op kv pa).1, VPutAppendReply (KvSrv.handler_of op kv pa).2).
Proof.
  intros Hs Hp Hdec Hb. split; [|simpl; by destruct (KvSrv.handler_of op kv pa)].
  unfold dispatch. cbn [svcMeth services]. rewrite Hs. unfold KvSrv.handler_of in *.
  destruct (kvsvc_methods p) as (_ & HPut & HAppend & _). destruct (String.eqb op "Put").
  - run_method HPut Hdec Hp. destruct (KvSrv.Put kv pa). simpl in Hb |- *. by rewrite Hb.
  - run_method HAppend Hdec Hp. destruct (KvSrv.Append kv pa). simpl in Hb |- *. by rewrite Hb.
Qed.

(** labrpc's dispatch of a clerk's request runs its handler on the server. *)
Lemma dispatch_request rs w p kv cl m t args rep b e :
  services rs = {["KVServer" := kvsvc p]} → w !! p = Some kv → waiting cl →
  request_of cl = Some (m, t, args, rep) → EncodeV args = Some b →
  ∃ rs' b', dispatch kv_types rs (MkReqMsg e m t b : @reqMsg name) w =
              Some (rs', <[p := (handle cl kv).1]> w, MkReplyMsg true b') ∧
            DecodeV b' rep = ((handle cl kv).2, true).
Proof.
  intros Hs Hp Hw Hr Hb. destruct (request_reply _ _ _ _ _ Hw Hr) as [Hrep Ht].
  destruct (handle_decodes cl kv Hw) as (b' & Hb' & Hd). rewrite <- Hrep in Hd.
  assert (Hdec : (DecodeV b (New t)).1 = args).
  { destruct (encodes args) as (b1 & H1 & H2). rewrite Ht. replace b with b1 by congruence. by rewrite H2. }
  exists (MkServer (services rs) (wrap_s 64 (s_count rs + 1))), b'. split; [|done].
  destruct cl as [ga rep0|op pa rep0|op pa rep0 res|]; simpl in Hw, Hr; try done; simplify_eq; cbn [type_of] in *.
  - unfold dispatch. cbn [svcMeth services]. rewrite Hs. run_method (proj1 (kvsvc_methods p)) Hdec Hp. simpl in Hb' |- *. destruct (KvSrv.Get kv ga). simpl in Hb' |- *. by rewrite Hb'.
  - destruct (dispatch_update rs w p kv op pa (KvSrv.MkPutAppendReply "") b b' e Hs Hp Hdec) as [Hd1 Hd2]; [|by rewrite Hd1, Hd2].
    rewrite <- Hb'. simpl. by destruct (KvSrv.handler_of op kv pa).
  - destruct (dispatch_update rs w p kv op pa (KvSrv.MkPutAppendReply "") b b' e Hs Hp Hdec) as [Hd1 Hd2].
    + rewrite <- Hb'. simpl. by destruct (KvSrv.handler_of op kv pa).
    + change (handle (KvSrv.Acking op pa _ res) kv) with (handle (KvSrv.Modifying op pa (KvSrv.MkPutAppendReply "")) kv).
      by rewrite Hd1, Hd2.
Qed.

(** ** Who waits for which call *)

(** The call a clerk waits for is the one it made. *)
Definition asked (cl : KvSrv.clerk) (c : @call kvvalue name) : Prop :=
  ∃ e m t args b rep, request_of cl = Some (m, t, args, rep) ∧ EncodeV args = Some b ∧
    c_req c = MkReqMsg e m t b ∧ c_reply c = rep.

Record owned (p : nat) (s : system) : Prop := {
  own_wait c r k : s_clerks s !! c = Some r → r_wait r = Some k →
    ∃ call, st_calls (s_net s) !! k = Some call ∧ asked (r_clerk r) call;
  own_inj c c' r r' k : s_clerks s !! c = Some r → s_clerks s !! c' = Some r' →
    r_wait r = Some k → r_wait r' = Some k → c = c';
  own_call k call : st_calls (s_net s) !! k = Some call →
    (∃ c r, s_clerks s !! c = Some r ∧ r_wait r = Some k) ∨ ∃ b v, c_pc call = Returned b v;
  own_waiting c r : s_clerks s !! c = Some r → waiting (r_clerk r);
  own_services o rs : st_objs (s_net s) !! o = Some rs → services rs = {["KVServer" := kvsvc p]};
  own_server : is_Some (st_world (s_net s) !! p);
  own_ready k call r : st_calls (s_net s) !! k = Some call → c_handler call = HReady r →
    (DecodeV (reply r) (c_reply call)).2 = true;
}.

(** What the run of the network so far tells of its calls. *)
Record net_facts (n : netstate) : Prop := {
  nf_informed k call i : st_calls n !! k = Some call → c_pc call = Informed i → c_handler call = HNone;
  nf_pending k call sv b v : st_calls n !! k = Some call → c_handler call = HPending sv → c_pc call ≠ Returned b v;
  nf_true k call v : st_calls n !! k = Some call → c_pc call = Returned true v →
    ∃ r, c_handler call = HReady r ∧ DecodeV (reply r) (c_reply call) = (v, true);
  nf_false k call v : st_calls n !! k = Some call → c_pc call = Returned false v → v = c_reply call;
}.

Lemma run_facts n0 acts n :
  st_calls n0 = ∅ → closed (st_net n0) = false → forallb steady acts = true → netexec n0 acts = Next n → net_facts n.
Proof.
  intros Hz Hcl Hst He. destruct (lives_exec kv_types n0 acts n Hz He) as [Hl _].
  destruct (steady_exec kv_types n0 acts n Hz Hcl Hst He) as [_ Hs]. split; intros k call.
  - intros i Hc Hpc. destruct (Hs k call Hc) as [_ Hf]. rewrite Hpc in Hf. by destruct Hf.
  - intros sv b v Hc Hh Hpc. destruct (Hs k call Hc) as [_ Hf]. rewrite Hpc in Hf. unfold fated in Hf. by rewrite Hh in Hf.
  - intros v Hc Hpc. specialize (Hl k call Hc). unfold life in Hl. rewrite Hpc in Hl.
    destruct (c_handler call) as [|sv|r] eqn:Eh; [by destruct Hl as (_ & ? & _)|..];
      destruct Hl as (q & n' & sv' & _ & _ & Hp); unfold pc_ok in Hp; rewrite Hpc in Hp;
      destruct Hp as [[? _]|(_ & r' & Hr & _ & _ & Hd)]; try done; exists r'; split; congruence || done.
  - intros v Hc Hpc. specialize (Hl k call Hc). unfold life in Hl. rewrite Hpc in Hl.
    destruct (c_handler call) as [|sv|r]; [by destruct Hl as (_ & _ & ?)|..];
      destruct Hl as (q & n' & sv' & _ & _ & Hp); unfold pc_ok in Hp; rewrite Hpc in Hp;
      by destruct Hp as [[_ ?]|(? & _)].
Qed.

(** The reply the handler has for the call, as the caller will have it. *)
Definition replied (calls : gmap nat (@call kvvalue name)) (k : nat) : option kvvalue :=
  c ← calls !! k; match c_handler c with HReady r => Some (DecodeV (reply r) (c_reply c)).1 | _ => None end.

Lemma step_replied n a n' k :
  net_facts n → netstep n a = Next n' → a ≠ AHandle k → (∀ e m t x r, a ≠ ACall k e m t x r) →
  replied (st_calls n') k = replied (st_calls n) k.
Proof.
  intros Hf Hs Ha Hn. unfold replied. destruct (st_calls n !! k) as [c|] eqn:Hc.
  - destruct (step_keeps kv_types n a n' k c Hs Hc) as (c' & Hc' & _ & Hr & _ & Hh). rewrite Hc'. simpl. rewrite Hr.
    specialize (Hh Ha (λ i, nf_informed _ Hf k c i Hc)).
    destruct (c_handler c') as [| |r] eqn:E1, (c_handler c) as [| |r'] eqn:E2; try done;
      first [by discriminate (proj1 (Hh _) eq_refl)|by discriminate (proj2 (Hh _) eq_refl)|idtac].
    by injection (proj1 (Hh _) eq_refl) as ->.
  - by rewrite (step_no_call kv_types n a n' k Hs Hn Hc).
Qed.

Lemma next_waiting cl b v :
  waiting cl → (b = false → ∀ m t args rep, request_of cl = Some (m, t, args, rep) → v = rep) →
  (∀ res, clerk_next cl b v ≠ KvSrv.Returned res) → waiting (clerk_next cl b v).
Proof.
  destruct cl, b; simpl; intros Hw Hv Hr; try done; try (by destruct (Hr _ eq_refl));
    rewrite (Hv eq_refl _ _ _ _ eq_refl); done.
Qed.

Lemma start_waiting o : waiting (KvSrv.start o).
Proof. by destruct o. Qed.

(** A step of the network leaves every clerk the call it waits for. *)
Lemma own_net p s a n' :
  owned p s → net_facts (s_net s) → internal a = true → netstep (s_net s) a = Next n' → is_Some (st_world n' !! p) →
  (∀ k call r, a = AHandle k → st_calls n' !! k = Some call → c_handler call = HReady r →
     (DecodeV (reply r) (c_reply call)).2 = true) →
  owned p (System n' (s_ends s) (s_clerks s) (s_hist s) (s_now s + 1)).
Proof.
  intros [Hw Hi Hc Hz Hs _ Hrd] Hf Ha Hst Hp Hh. assert (Hn : ∀ k e m t x r, a ≠ ACall k e m t x r) by by intros ? ? ? ? ? ? ->.
  split; simpl; try done.
  - intros c r k Hr Hk. destruct (Hw c r k Hr Hk) as (call & Hcall & Hask).
    destruct (step_keeps kv_types _ _ _ k call Hst Hcall) as (call' & Hcall' & Hreq & Hrep & _).
    exists call'. split; [done|]. unfold asked in *. by rewrite Hreq, Hrep.
  - intros k call' Hcall'. destruct (st_calls (s_net s) !! k) as [call|] eqn:Hcall.
    + destruct (step_keeps kv_types _ _ _ k call Hst Hcall) as (call2 & H2 & _ & _ & Hret & _).
      destruct (Hc k call Hcall) as [?|(b & v & Hpc)]; [by left|]. right. exists b, v. simplify_eq. auto.
    + by rewrite (step_no_call kv_types _ _ _ k Hst (Hn k)) in Hcall'.
  - intros o rs' Ho. destruct (step_services kv_types _ _ _ o rs' Hst) as (rs & Hrs & ->); [by intros ? ? ->|by intros ? ->|done|].
    by eapply Hs.
  - intros k call' r Hcall' Hr. assert (a = AHandle k ∨ a ≠ AHandle k) as [->|Hk]; [|by eapply Hh|].
    { destruct a; try (right; congruence). destruct (decide (k0 = k)) as [->|]; [by left|right; congruence]. }
    destruct (st_calls (s_net s) !! k) as [call|] eqn:Hcall;
      [|by rewrite (step_no_call kv_types _ _ _ k Hst (Hn k)) in Hcall'].
    destruct (step_keeps kv_types _ _ _ k call Hst Hcall) as (call2 & H2 & _ & Hrep & _ & Hsame). simplify_eq.
    rewrite Hrep. eapply Hrd; [done|]. by apply (Hsame Hk (λ i, nf_informed _ Hf k call i Hcall)).
Qed.

(** A clerk goes on, with the call [w] or with none. *)
Lemma own_clerk p s n' c r r' hist now :
  owned p s → s_clerks s !! c = Some r → waiting (r_clerk r') →
  st_objs n' = st_objs (s_net s) → st_world n' = st_world (s_net s) →
  match r_wait r' with
  | Some k => r_wait r = None ∧ st_calls (s_net s) !! k = None ∧
      ∃ call, st_calls n' = <[k := call]> (st_calls (s_net s)) ∧ asked (r_clerk r') call ∧ c_handler call = HNone
  | None => st_calls n' = st_calls (s_net s) ∧
      ∀ k call, r_wait r = Some k → st_calls (s_net s) !! k = Some call → ∃ b v, c_pc call = Returned b v
  end →
  owned p (System n' (s_ends s) (<[c := r']> (s_clerks s)) hist now).
Proof.
  intros [Hw Hi Hc Hz Hs Hp Hrd] Hr Hwt Ho Hwd Hcase. split; simpl; [..|by rewrite Ho|by rewrite Hwd|].
  - intros c' r1 k. rewrite lookup_insert. case_decide; [intros [= <-] Hk|intros Hr1 Hk].
    + rewrite Hk in Hcase. destruct Hcase as (_ & _ & call & -> & Ha & _). exists call. by rewrite lookup_insert_eq.
    + destruct (Hw c' r1 k Hr1 Hk) as (call & Hcall & Ha). destruct (r_wait r') as [k'|].
      * destruct Hcase as (_ & Hno & call' & -> & _). exists call. rewrite lookup_insert_ne by congruence. done.
      * destruct Hcase as [-> _]. by exists call.
  - intros c1 c2 r1 r2 k. rewrite !lookup_insert.
    assert (Hfresh : ∀ c' r'', s_clerks s !! c' = Some r'' → r_wait r' = Some k → r_wait r'' ≠ Some k).
    { intros c' r'' Hr'' Hk Hk'. rewrite Hk in Hcase. destruct Hcase as (_ & Hno & _).
      destruct (Hw c' r'' k Hr'' Hk') as (call & Hcall & _). congruence. }
    case_decide; case_decide; intros; simplify_eq; try done.
    + by edestruct Hfresh.
    + by edestruct Hfresh.
    + by eapply Hi.
  - intros k call. destruct (r_wait r') as [k'|] eqn:Ek.
    + destruct Hcase as (Hnone & Hno & call' & -> & _). rewrite lookup_insert. case_decide.
      { intros _. left. exists c, r'. rewrite lookup_insert_eq. by subst. }
      intros Hcall. destruct (Hc k call Hcall) as [(c' & r1 & Hr1 & Hk)|?]; [|by right].
      left. exists c', r1. rewrite lookup_insert_ne; [done|]. intros <-. congruence.
    + destruct Hcase as [-> Hret]. intros Hcall. destruct (Hc k call Hcall) as [(c' & r1 & Hr1 & Hk)|?]; [|by right].
      destruct (decide (c = c')) as [<-|]; [|left; exists c', r1; by rewrite lookup_insert_ne].
      right. simplify_eq. by eapply Hret.
  - intros c' r1. rewrite lookup_insert. case_decide; [by intros [= <-]|apply Hz].
  - intros k call r0. destruct (r_wait r') as [k'|]; [|destruct Hcase as [-> _]; apply Hrd].
    destruct Hcase as (_ & _ & call' & -> & _ & Hh). rewrite lookup_insert. case_decide; [|apply Hrd].
    intros [= <-]. by rewrite Hh.
Qed.

(** An operation of client [c] ends, and its last call has returned. *)
Lemma own_return p s c r k call b v hist now :
  owned p s → s_clerks s !! c = Some r → r_wait r = Some k → st_calls (s_net s) !! k = Some call →
  c_pc call = Returned b v →
  owned p (System (s_net s) (s_ends s) (delete c (s_clerks s)) hist now).
Proof.
  intros [Hw Hi Hc Hz Hs Hp Hrd] Hr Hk Hcall Hpc. split; simpl; try done.
  - intros c' r' k' [_ Hr']%lookup_delete_Some. by apply (Hw c').
  - intros c1 c2 r1 r2 k' [_ H1]%lookup_delete_Some [_ H2]%lookup_delete_Some. by apply (Hi c1 c2 r1 r2 k').
  - intros k' call' Hcall'. destruct (Hc k' call' Hcall') as [(c' & r' & Hr' & Hk')|?]; [|by right].
    destruct (decide (c = c')) as [<-|]; [|left; exists c', r'; by rewrite lookup_delete_ne].
    right. simplify_eq. by exists b, v.
  - intros c' r' [_ Hr']%lookup_delete_Some. by eapply Hz.
Qed.

Lemma own_invoke p s c o now :
  owned p s → s_clerks s !! c = None →
  owned p (System (s_net s) (s_ends s) (<[c := Running o (KvSrv.start o) (s_now s) None]> (s_clerks s)) (s_hist s) now).
Proof.
  intros [Hw Hi Hc Hz Hs Hp Hrd] Hr. split; simpl; try done.
  - intros c' r' k. rewrite lookup_insert. case_decide; [by intros [= <-]|apply Hw].
  - intros c1 c2 r1 r2 k. rewrite !lookup_insert. case_decide; case_decide; intros; simplify_eq; try done. by eapply Hi.
  - intros k call Hcall. destruct (Hc k call Hcall) as [(c' & r' & Hr' & Hk)|?]; [|by right].
    left. exists c', r'. rewrite lookup_insert_ne; [done|]. intros <-. congruence.
  - intros c' r'. rewrite lookup_insert. case_decide; [intros [= <-]; apply start_waiting|apply Hz].
Qed.

(** The handler of a call runs: it is the one its clerk asked for. *)
Lemma handle_step p s k n' kv :
  owned p s → net_facts (s_net s) → netstep (s_net s) (AHandle k) = Next n' → st_world (s_net s) !! p = Some kv →
  ∃ c r call sv b' objs, s_clerks s !! c = Some r ∧ r_wait r = Some k ∧ st_calls (s_net s) !! k = Some call ∧
    c_handler call = HPending sv ∧ DecodeV b' (c_reply call) = ((handle (r_clerk r) kv).2, true) ∧
    n' = State (st_net (s_net s)) objs (<[p := (handle (r_clerk r) kv).1]> (st_world (s_net s)))
           (<[k := set_handler (HReady (MkReplyMsg true b')) call]> (st_calls (s_net s))) (st_loop (s_net s)).
Proof.
  intros Ho Hf Hst Hw. simpl in Hst. destruct (st_calls (s_net s) !! k) as [call|] eqn:Hcall; [|done].
  cbn [or_block mbind outcome_bind] in Hst. destruct (c_handler call) as [|sv|] eqn:Hh; [done| |done].
  destruct (st_objs (s_net s) !! sv) as [rs|] eqn:Hrs; [|done]. cbn [or_block mbind outcome_bind] in Hst.
  destruct (own_call p s Ho k call Hcall) as [(c & r & Hr & Hk)|(b & v & Hpc)]; [|by destruct (nf_pending _ Hf k call sv b v)].
  destruct (own_wait p s Ho c r k Hr Hk) as (call' & Hcall' & e & m & t & a & b & rep & Hreq & Hb & Hmsg & Hrep).
  simplify_eq. pose proof (own_waiting p s Ho c r Hr) as Hwt.
  destruct (dispatch_request rs _ p kv (r_clerk r) m t a (c_reply call) b e (own_services p s Ho sv rs Hrs) Hw Hwt Hreq Hb)
    as (rs' & b' & Hd & Hdec).
  rewrite Hmsg, Hd in Hst. cbn [or_crash mbind outcome_bind] in Hst. injection Hst as <-.
  eexists c, r, call, sv, b', _. by split_and!.
Qed.

(** A clerk has the outcome of its call: the reply of the handler, or nothing. *)
Lemma receive_step p s c r k call b v :
  owned p s → net_facts (s_net s) → s_clerks s !! c = Some r → r_wait r = Some k →
  st_calls (s_net s) !! k = Some call → c_pc call = Returned b v →
  (if b then replied (st_calls (s_net s)) k = Some v else clerk_next (r_clerk r) b v = r_clerk r) ∧
  ((∀ res, clerk_next (r_clerk r) b v ≠ KvSrv.Returned res) → waiting (clerk_next (r_clerk r) b v)).
Proof.
  intros Ho Hf Hr Hk Hcall Hpc. pose proof (own_waiting p s Ho c r Hr) as Hwt.
  destruct (own_wait p s Ho c r k Hr Hk) as (call' & Hcall' & e & m & t & a & b' & rep & Hreq & Hb & Hmsg & Hrep).
  simplify_eq. split.
  - destruct b; [unfold replied; rewrite Hcall; simpl; by destruct (nf_true _ Hf k call v Hcall Hpc) as (rr & -> & ->)|].
    rewrite (nf_false _ Hf k call v Hcall Hpc). destruct (r_clerk r); simpl in Hreq; try done; by injection Hreq as <- <- <- <-.
  - apply next_waiting; [done|]. intros -> ? ? ? ? Hq. rewrite (nf_false _ Hf k call v Hcall Hpc). by simplify_eq.
Qed.

Lemma own_step p s a s' : owned p s → net_facts (s_net s) → step s a = Next s' → owned p s'.
Proof.
  intros Ho Hf Hs. destruct a as [c o|c k|x|c]; cbn [step] in Hs; [step_cases..|].
  - by apply own_invoke.
  - apply bind_Next in Hs as (n' & Hn & [= <-]). simpl in Hn. step_cases. unfold begin_Call in *. inv_bind. simplify_eq/=.
    eapply own_clerk; [done|done|exact (own_waiting p s Ho c r Heqo)|done|done|]. simpl. split_and!; [done|done|].
    eexists. split; [done|]. unfold asked. by eauto 15.
  - apply bind_Next in Hs as (n' & Hn & [= <-]).
    destruct (own_server p s Ho) as [kv Hkv].
    assert ((∃ k, x = AHandle k) ∨ ∀ k, x ≠ AHandle k) as [[k ->]|Hx] by (destruct x; eauto; right; congruence).
    + destruct (handle_step p s k n' kv Ho Hf Hn Hkv) as (c & r & call & sv & b' & objs & _ & _ & _ & _ & Hd & ->).
      apply (own_net p s (AHandle k) _ Ho Hf eq_refl Hn); simpl; [rewrite list_lookup_insert_eq; [done|by eapply lookup_lt_Some]|].
      intros k' call' r' [= <-]. rewrite lookup_insert_eq. intros [= <-]. simpl. intros [= <-]. simpl. by rewrite Hd.
    + apply (own_net p s x _ Ho Hf); [done|done|by rewrite (step_world kv_types _ _ _ Hn Hx), Hkv|]. intros k call r ->. by destruct (Hx k).
  - destruct (s_clerks s !! c) as [r|] eqn:Hr; [|done]. cbn [or_block mbind outcome_bind] in Hs.
    destruct (r_wait r) as [k|] eqn:Hk; [|done]. cbn [or_block mbind outcome_bind] in Hs.
    destruct (st_calls (s_net s) !! k) as [call|] eqn:Hcall; [|done]. cbn [or_block mbind outcome_bind] in Hs.
    destruct (c_pc call) as [| | | | | | |b v] eqn:Hpc; try done.
    destruct (receive_step p s c r k call b v Ho Hf Hr Hk Hcall Hpc) as [_ Hwt].
    destruct (clerk_next (r_clerk r) b v) as [| | |res] eqn:En;
      [injection Hs as <-..|injection Hs as <-; by eapply own_return].
    all: eapply own_clerk; [done|exact Hr|by apply Hwt|done|done|]; simpl; split; [done|];
      intros k' call' Hk' Hc'; exists b, v; congruence.
Qed.

(** ** The simulation *)

Section fate.
(** Which calls will have returned true in the end. *)
Context (fate : nat → bool) (p : nat).

Definition ahead (calls : gmap nat (@call kvvalue name)) (r : running) : KvSrv.clerk :=
  match r_wait r with
  | Some k =>
      match replied calls k with
      | Some v => if fate k then clerk_next (r_clerk r) true v else r_clerk r
      | None => r_clerk r
      end
  | None => r_clerk r
  end.

Definition seen (calls : gmap nat (@call kvvalue name)) (r : running) : client := (r_op r, ahead calls r, r_call r).

Definition view (s : system) (c : nat) : option client := seen (st_calls (s_net s)) <$> s_clerks s !! c.

Definition foreseen (s : system) : Prop :=
  ∀ k c b v, st_calls (s_net s) !! k = Some c → c_pc c = Returned b v → fate k = b.

(** The state of a run that corresponds to one of [KvSrv]. *)
Definition simulated (used : list Z) (s : system) : Prop :=
  ∃ kv, st_world (s_net s) !! p = Some kv ∧ Sim used kv (view s) (s_hist s) (s_now s).

(** The clients look the same as before. *)
Lemma Sim_same used kv s s' :
  Sim used kv (view s) (s_hist s) (s_now s) → s_now s' = s_now s + 1 → s_hist s' = s_hist s →
  (∀ c, view s' c = view s c) → Sim used kv (view s') (s_hist s') (s_now s').
Proof. intros HS -> -> Hv. eapply Sim_tick; [|exact Hv|exact HS]. lia. Qed.

Lemma view_update s s' c x :
  (∀ c', c' ≠ c → s_clerks s' !! c' = s_clerks s !! c') → st_calls (s_net s') = st_calls (s_net s) → view s' c = x →
  ∀ c', view s' c' = update c x (view s) c'.
Proof. intros H1 H2 H3 c'. unfold update. case_decide as E; [by subst|]. unfold view. by rewrite H1, H2. Qed.

Lemma sim_invoke used s c o s' :
  simulated used s → (∀ id, KvSrv.op_id o = Some id → id ∉ used) → step s (Invoke c o) = Next s' →
  simulated (option_list (KvSrv.op_id o) ++ used) s'.
Proof.
  intros (kv & Hw & HS) Hid. simpl. destruct (s_ends s !! c); [|done]. cbn [or_block mbind outcome_bind].
  destruct (s_clerks s !! c) eqn:Hc; [done|]. intros [= <-].
  exists kv. split; [done|]. eapply Sim_tick; [reflexivity| |eapply (Sim_invoke used kv _ _ _ c o HS); [|done]].
  - apply view_update; simpl; [intros; by rewrite lookup_insert_ne by congruence|done|].
    unfold view. simpl. by rewrite lookup_insert_eq.
  - unfold view. by rewrite Hc.
Qed.

Lemma sim_send used s c k s' : simulated used s → step s (Send c k) = Next s' → simulated used s'.
Proof.
  intros (kv & Hw & HS) Hs. cbn [step] in Hs. step_cases. apply bind_Next in Hs as (n' & Hn & [= <-]). simpl in Hn. step_cases.
  match goal with |- context [with_call k ?x] => set (call := x) end.
  assert (Hrep : ∀ k', replied (<[k := call]> (st_calls (s_net s))) k' = replied (st_calls (s_net s)) k').
  { intros k'. unfold replied. rewrite lookup_insert. case_decide as E; [subst k'|done]. simplify_eq.
    unfold begin_Call in *. inv_bind. simplify_eq. by rewrite Heqo3. }
  exists kv. split; [done|]. eapply Sim_same; [exact HS|done|done|]. intros c'. unfold view. simpl.
  rewrite lookup_insert. case_decide as E.
  - subst c'. rewrite Heqo. simpl. unfold seen, ahead. simpl. rewrite Hrep, Heqo1. unfold replied. by rewrite Heqo3.
  - destruct (s_clerks s !! c') as [r'|]; [|done]. simpl. unfold seen, ahead. destruct (r_wait r'); [|done]. by rewrite Hrep.
Qed.

(** A step of the network that is not a handler. *)
Lemma sim_net used s a s' :
  simulated used s → net_facts (s_net s) → (∀ k, a ≠ AHandle k) → step s (Net a) = Next s' → simulated used s'.
Proof.
  intros (kv & Hw & HS) Hf Ha. cbn [step]. destruct (internal a) eqn:Hi; [|done].
  intros (n' & Hst & [= <-])%bind_Next.
  exists kv. split; [simpl; by rewrite (step_world kv_types _ _ _ Hst Ha)|]. eapply Sim_same; [exact HS|done|done|].
  intros c. unfold view. simpl. destruct (s_clerks s !! c) as [r|]; [|done]. simpl. unfold seen, ahead.
  destruct (r_wait r) as [k|]; [|done]. rewrite (step_replied _ _ _ k Hf Hst); [done|done|]. by intros ? ? ? ? ? ->.
Qed.

(** The handler of a call runs. *)
Lemma sim_handle used s k s' :
  simulated used s → owned p s → net_facts (s_net s) → step s (Net (AHandle k)) = Next s' → simulated used s'.
Proof.
  intros (kv & Hw & HS) Ho Hf. cbn [step internal]. intros (n' & Hst & [= <-])%bind_Next.
  destruct (handle_step p s k n' kv Ho Hf Hst Hw) as (c & r & call & sv & b' & objs & Hr & Hk & Hcall & Hh & Hdec & ->).
  pose proof (own_waiting p s Ho c r Hr) as Hwt.
  eexists. split; [simpl; apply list_lookup_insert_eq; by eapply lookup_lt_Some|]. simpl.
  set (f := if fate k then KvSrv.Replied else KvSrv.ReplyLost).
  eapply Sim_tick; [reflexivity| |eapply (Sim_handle used kv _ _ _ c (r_op r) (r_clerk r) (r_call r) f); [exact HS|..]].
  - intros c'. unfold update, view. simpl. case_decide as E.
    + subst c'. rewrite Hr. simpl. unfold seen, ahead. rewrite Hk. unfold replied. rewrite lookup_insert_eq. simpl.
      rewrite Hdec. simpl. reflexivity.
    + destruct (s_clerks s !! c') as [r'|] eqn:Hr'; [|done]. simpl. unfold seen, ahead.
      destruct (r_wait r') as [k'|] eqn:Hk'; [|done]. unfold replied. rewrite lookup_insert_ne; [done|].
      intros <-. apply E. by eapply (own_inj p s Ho).
  - unfold view. rewrite Hr. simpl. unfold seen, ahead. rewrite Hk. unfold replied. rewrite Hcall. simpl. by rewrite Hh.
  - intros res E. by rewrite E in Hwt.
  - subst f. rewrite handle_iter by (done || by destruct (fate k)). f_equal. by destruct (fate k).
Qed.

Lemma sim_receive used s c s' :
  simulated used s → owned p s → net_facts (s_net s) → foreseen s → step s (Receive c) = Next s' → simulated used s'.
Proof.
  intros (kv & Hw & HS) Ho Hf Hfs Hs. cbn [step] in Hs. destruct (s_clerks s !! c) as [r|] eqn:Hr; [|done].
  cbn [or_block mbind outcome_bind] in Hs. destruct (r_wait r) as [k|] eqn:Hk; [|done]. cbn [or_block mbind outcome_bind] in Hs.
  destruct (st_calls (s_net s) !! k) as [call|] eqn:Hcall; [|done]. cbn [or_block mbind outcome_bind] in Hs.
  destruct (c_pc call) as [| | | | | | |b v] eqn:Hpc; try done.
  assert (Hview : view s c = Some (r_op r, clerk_next (r_clerk r) b v, r_call r)).
  { unfold view. rewrite Hr. simpl. unfold seen, ahead. rewrite Hk, (Hfs k call b v Hcall Hpc).
    destruct (receive_step p s c r k call b v Ho Hf Hr Hk Hcall Hpc) as [H1 _].
    destruct b; [by rewrite H1|]. rewrite H1. by destruct (replied _ _). }
  assert (Hgo : simulated used (System (s_net s) (s_ends s)
    (<[c := Running (r_op r) (clerk_next (r_clerk r) b v) (r_call r) None]> (s_clerks s)) (s_hist s) (s_now s + 1))).
  { exists kv. split; [done|]. eapply Sim_same; [exact HS|done|done|]. intros c'. unfold view at 1. simpl.
    rewrite lookup_insert. case_decide; [subst; by rewrite Hview|done]. }
  destruct (clerk_next (r_clerk r) b v) as [| | |res] eqn:En; [by injection Hs as <-..|].
  injection Hs as <-. exists kv. split; [done|].
  eapply Sim_tick; [reflexivity| |eapply (Sim_return used kv _ _ _ c); [exact HS|exact Hview]].
  apply view_update; simpl; [intros; by rewrite lookup_delete_ne by congruence|done|]. unfold view. simpl. by rewrite lookup_delete_eq.
Qed.

End fate.

(** ** Runs from what the tester has set up *)

(** The server is at address [p], it has been asked nothing, and labrpc offers
    its methods. *)
Record ready (p : nat) (n : netstate) : Prop := {
  rd_calls : st_calls n = ∅;
  rd_closed : closed (st_net n) = false;
  rd_loop : st_loop n = true;
  rd_world : st_world n !! p = Some KvSrv.StartKVServer;
  rd_services o rs : st_objs n !! o = Some rs → services rs = {["KVServer" := kvsvc p]};
}.

(** The network has run from [n0], and nobody has changed it. *)
Definition net_ran (n0 n : netstate) : Prop :=
  ∃ acts, forallb steady acts = true ∧ netexec n0 acts = Next n.

Lemma run_snoc s acts a s' :
  exec s (acts ++ [a]) = Next s' ↔ ∃ s1, exec s acts = Next s1 ∧ step s1 a = Next s'.
Proof.
  revert s. induction acts as [|x acts IH]; intros s; simpl.
  - destruct (step s a) eqn:E; simpl; split; try done; try (intros (? & [= <-] & ?); congruence); intros [= <-]; eauto.
  - destruct (step s x); simpl; [by split; [|intros (? & ? & ?)]..|apply IH].
Qed.

Lemma net_ran_step n0 n a n' : net_ran n0 n → steady a = true → netstep n a = Next n' → net_ran n0 n'.
Proof.
  intros (acts & Hst & He) Ha Hs. exists (acts ++ [a]). split; [by rewrite forallb_app, Hst; simpl; rewrite Ha|].
  apply LabRpcProof.exec_snoc. eauto.
Qed.

(** What a step does to the network: nothing, or one of its steps. *)
Lemma step_net s a s' :
  step s a = Next s' → s_net s' = s_net s ∨ ∃ x, steady x = true ∧ netstep (s_net s) x = Next (s_net s').
Proof.
  destruct a as [c o|c k|x|c]; cbn [step]; intros Hs; step_cases; auto;
    apply bind_Next in Hs as (net1 & Hn & [= <-]); right; (eexists; split; [|exact Hn]); [done|by destruct x].
Qed.

Lemma step_ran n0 s a s' : net_ran n0 (s_net s) → step s a = Next s' → net_ran n0 (s_net s').
Proof. intros Hr Hs. destruct (step_net s a s' Hs) as [->|(x & Hx & Hn)]; [done|by eapply net_ran_step]. Qed.

Lemma step_foreseen fate s a s' : step s a = Next s' → foreseen fate s' → foreseen fate s.
Proof.
  intros Hs Hf k c b v Hc Hpc. destruct (step_net s a s' Hs) as [E|(x & _ & Hn)]; [by eapply Hf; rewrite ?E|].
  destruct (step_keeps kv_types _ _ _ k c Hn Hc) as (c' & Hc' & _ & _ & Hret & _). eapply Hf; [done|by apply Hret].
Qed.

Lemma ready_owned p c : ready p (net c) → owned p (init c).
Proof.
  intros [Hca Hcl _ Hw Hs]. split; simpl; [done|done|intros k call; by rewrite Hca|done|done|by rewrite Hw|]. intros k call r. by rewrite Hca.
Qed.

Lemma ready_simulated fate p c : ready p (net c) → simulated fate p [] (init c).
Proof.
  intros [_ _ _ Hw _]. exists KvSrv.StartKVServer. split; [done|].
  exists [], ∅, [], [], ∅. split_and!; try done. apply KvSrvLin.Inv_init.
Qed.

(** In every run a clerk waits for the call it made, and what the network does
    is a run of labrpc in which nobody changes the network. *)
Lemma run_owned p cfg acts s :
  ready p (net cfg) → exec (init cfg) acts = Next s →
  owned p s ∧ net_ran (net cfg) (s_net s) ∧ net_facts (s_net s).
Proof.
  intros Hready. assert (Hfacts : ∀ n, net_ran (net cfg) n → net_facts n).
  { intros n (nacts & Hst & Hn). eapply run_facts; [apply (rd_calls _ _ Hready)|apply (rd_closed _ _ Hready)|done..]. }
  revert s. induction acts as [|a acts IH] using rev_ind; intros s.
  - intros [= <-]. assert (Hr : net_ran (net cfg) (net cfg)) by by exists [].
    split_and!; [by apply ready_owned|done|by apply Hfacts].
  - intros (s1 & He & Hs)%run_snoc. destruct (IH s1 He) as (Ho & Hr & Hf).
    assert (Hr' : net_ran (net cfg) (s_net s)) by by eapply step_ran.
    split_and!; [by eapply own_step|done|by apply Hfacts].
Qed.

Lemma ids_snoc acts a : ids (acts ++ [a]) = ids acts ++ ids [a].
Proof. unfold ids. apply omap_app. Qed.

Lemma run_simulated fate p cfg acts s :
  ready p (net cfg) → exec (init cfg) acts = Next s → NoDup (ids acts) → foreseen fate s →
  ∃ used, simulated fate p used s ∧ ∀ id, id ∈ used → id ∈ ids acts.
Proof.
  intros Hready. revert s. induction acts as [|a acts IH] using rev_ind; intros s.
  - intros [= <-] _ _. exists []. split; [by apply ready_simulated|done].
  - intros (s1 & He & Hs)%run_snoc. rewrite ids_snoc. intros (Hnd & Hnew & _)%NoDup_app Hf.
    destruct (IH s1 He Hnd (step_foreseen _ _ _ _ Hs Hf)) as (used & Hsim & Hused).
    destruct (run_owned p cfg acts s1 Hready He) as (Ho & _ & Hfacts).
    destruct a as [c o|c k|x|c].
    + exists (option_list (KvSrv.op_id o) ++ used). split.
      * eapply sim_invoke; [done| |done]. intros id Hid Hin. apply (Hnew id); [by apply Hused|]. unfold ids. simpl. rewrite Hid. set_solver.
      * intros id [Hid|Hid]%elem_of_app; apply elem_of_app; [right|left; by apply Hused]. unfold ids. simpl. by destruct (KvSrv.op_id o).
    + exists used. split; [by eapply sim_send|set_solver].
    + exists used. split; [|set_solver].
      assert ((∃ k, x = AHandle k) ∨ ∀ k, x ≠ AHandle k) as [[k ->]|Hn] by (destruct x; eauto; right; congruence).
      * by eapply sim_handle.
      * by eapply sim_net.
    + exists used. split; [|set_solver]. eapply sim_receive; [done..| |done]. by eapply step_foreseen.
Qed.

(** The outcomes are what they are in the end. *)
Definition fate_of (s : system) (k : nat) : bool :=
  match st_calls (s_net s) !! k with
  | Some c => match c_pc c with Returned b _ => b | _ => false end
  | None => false
  end.

Lemma fate_foreseen s : foreseen (fate_of s) s.
Proof. intros k c b v Hc Hpc. unfold fate_of. by rewrite Hc, Hpc. Qed.

End net.
End KvNetLin.
