(* ===== verification/KvService.v ===== *)
(** * The key/value service as the tests run it

    What [make_config] and [makeClient] of [src/6.5840/src/kvsrv/config.go] set up,
    and what the service then promises over the simulated network: its histories
    are linearizable, and a client that waits can always be answered. *)
From S2P Require Import Prelude LabGob LabRpc LabRpcProof LabRpcApi Porcupine Entries KvModel.
From S2P Require Import KvSrv KvSrvLin KvSrvConfig KvNet KvNetLin.
Import LabGob LabRpc LabRpcProof LabRpcApi Porcupine Entries KvModel KvSrvConfig KvNet KvNetLin.
Local Open Scope Z_scope.

Module KvService.

(** ** What the tester sets up *)

Section setup.
Context `{Codec kvvalue}.

Abbreviation netstate := (@LabRpc.state (list KvSrv.KVServer) kvvalue name _ _).

(** The end of this name leads to the server. *)
Definition connected (rel : bool) (n : netstate) (e : string) : Prop :=
  ∃ o rs, readEndnameInfo (EndName e) (st_net n) = Info true (Some (ServerName 0)) (Some o) rel false ∧
    st_objs n !! o = Some rs.

(** Clients with these names have been made. *)
Record clients (rel : bool) (names : list string) (c : config) : Prop := {
  cl_calls : st_calls (net c) = ∅;
  cl_closed : closed (st_net (net c)) = false;
  cl_loop : st_loop (net c) = true;
  cl_world : st_world (net c) = [KvSrv.StartKVServer];
  cl_objs : ∃ o rs, servers (st_net (net c)) = {[ServerName 0 := Some o]} ∧ st_objs (net c) = {[o := rs]} ∧
    services rs = {["KVServer" := kvsvc 0]};
  cl_reliable : reliable (st_net (net c)) = rel ∧ longReordering (st_net (net c)) = false;
  cl_ends e : EndName e ∈ ends (st_net (net c)) ↔ e ∈ names;
  cl_connected e : e ∈ names → connections (st_net (net c)) !! EndName e = Some (Some (ServerName 0)) ∧
    enabled (st_net (net c)) !! EndName e = Some true;
  cl_next : nextClientId c = Z.of_nat (S (length names));
  cl_clerks i : clerks c !! i = match i with O => None | S i => names !! i end;
}.

Lemma make_config_clients now unreliable :
  ∃ c, make_config now unreliable = Next c ∧ clients (negb unreliable) [] c.
Proof.
  unfold make_config, StartServer, control_net. cbn [net LabRpc.init st_world st_objs st_net st_calls st_loop].
  set (o := fresh (dom _)). cbn [LabRpc.step st_objs st_net st_world st_calls st_loop or_block mbind outcome_bind].
  rewrite lookup_empty. cbn [mbind outcome_bind st_objs st_net st_world st_calls st_loop length app].
  rewrite lookup_insert_eq. cbn [or_block mbind outcome_bind st_objs st_net st_world st_calls st_loop].
  rewrite lookup_insert_eq. cbn [or_block mbind outcome_bind run_control or_crash].
  eexists. split; [reflexivity|].
  split; cbn [net st_calls st_net st_world st_objs st_loop with_state with_net clerks nextClientId]; try done.
  - exists o, (AddService (kvsvc 0) MakeServer). split; [done|].
    split; [|done]. by rewrite insert_insert_eq, insert_empty.
  - intros e. split; [|by intros ?%elem_of_nil]. intros He. by apply elem_of_empty in He.
  - intros e He. by apply elem_of_nil in He.
  - by intros [].
Qed.

Lemma makeClient_clients rel names c e :
  clients rel names c → e ∉ names → Z.of_nat (length names) < 2 ^ 62 →
  ∃ c', makeClient e c = Next (S (length names), c') ∧ clients rel (names ++ [e]) c'.
Proof.
  intros [Hca Hcl Hlo Hw Ho Hr He Hco Hn Hck] Hfresh Hlen.
  unfold makeClient, control_net. cbn [LabRpc.step or_block run_control mbind outcome_bind].
  unfold MakeEnd. rewrite decide_False by by rewrite He.
  cbn [or_crash mbind outcome_bind]. eexists. split.
  { unfold ConnectClientUnlocked, control_net. simpl. rewrite Hn, Nat2Z.id. reflexivity. }
  split; simpl; try done.
  - intros e'. rewrite elem_of_app, list_elem_of_singleton, elem_of_union, elem_of_singleton, He. naive_solver.
  - intros e'. unfold endname_of. simpl. rewrite lookup_insert_eq. simpl.
    rewrite elem_of_app, list_elem_of_singleton. intros Hin. destruct (decide (e' = e)) as [->|Hne].
    + by rewrite !lookup_insert_eq.
    + rewrite !lookup_insert_ne by congruence. apply Hco. by destruct Hin.
  - rewrite length_app. simpl. rewrite wrap_s_id; [lia|lia|]. unfold in_s. lia.
  - intros i. rewrite lookup_insert. case_decide as E.
    + subst i. by rewrite lookup_app_r, Nat.sub_diag by lia.
    + rewrite Hck. destruct i as [|i]; [done|]. destruct (decide (i < length names)%nat).
      * by rewrite lookup_app_l by lia.
      * rewrite lookup_app_r, lookup_ge_None_2 by lia. by rewrite (lookup_ge_None_2 [e]) by (simpl; lia).
Qed.

Lemma clients_connected rel names c e : clients rel names c → e ∈ names → connected rel (net c) e.
Proof.
  intros [_ _ _ _ (o & rs & Ho & Hobjs & _) [Hr Hre] _ Hco _ _] He. destruct (Hco e He) as [H1 H2].
  exists o, rs. unfold readEndnameInfo, read. rewrite H1, H2. simpl. rewrite Ho, Hr, Hre, Hobjs.
  by rewrite !lookup_singleton_eq.
Qed.

Lemma clients_ready rel names c : clients rel names c → ready 0 (net c).
Proof.
  intros [Hca Hcl Hlo Hw (o & rs & _ & Ho & Hs) _ _ _ _ _]. split; try done; [by rewrite Hw|].
  intros o' rs'. rewrite Ho. by intros [<- <-]%lookup_singleton_Some.
Qed.

Lemma set_up_clients now unreliable names :
  NoDup names → Z.of_nat (length names) < 2 ^ 62 →
  ∃ c, set_up now unreliable names = Next c ∧ clients (negb unreliable) names c.
Proof.
  unfold set_up. destruct (make_config_clients now unreliable) as (c0 & -> & H0). cbn [mbind outcome_bind].
  induction names as [|e names IH] using rev_ind; intros Hnd Hlen; [by exists c0|].
  rewrite length_app in Hlen. simpl in Hlen.
  apply NoDup_app in Hnd as (Hnd & Hnew & _). destruct IH as (c & Hc & Hcl); [done|lia|].
  destruct (makeClient_clients _ names c e Hcl) as (c' & Hm & Hcl'); [set_solver|lia|].
  exists c'. split; [|done]. rewrite foldl_app, Hc. simpl. by rewrite Hm.
Qed.

End setup.

(** ** Clients can always be answered *)

Section runs.
Context `{KvCodec}.
Context (cfg : config) (rel : bool) (names : list string) (Hcfg : clients rel names cfg).

Abbreviation netstate := (@LabRpc.state (list KvSrv.KVServer) kvvalue name _ _).
Abbreviation netexec := (@LabRpc.exec (list KvSrv.KVServer) kvvalue name _ _ _ kv_types).

Definition reached (s : system) : Prop := ∃ acts, exec (init cfg) acts = Next s.

Lemma run_app s acts1 acts2 s1 s2 :
  exec s acts1 = Next s1 → exec s1 acts2 = Next s2 → exec s (acts1 ++ acts2) = Next s2.
Proof.
  revert s. induction acts1 as [|a acts1 IH]; intros s; simpl; [by intros [= ->]|].
  destruct (step s a); [done|done|apply IH].
Qed.

Lemma reached_exec s acts s' : reached s → exec s acts = Next s' → reached s'.
Proof. intros [acts0 H0'] He. exists (acts0 ++ acts). by eapply run_app. Qed.

(** What holds in every state of a run. *)
Record fine (s : system) : Prop := {
  fi_owned : owned 0 s;
  fi_facts : net_facts (s_net s);
  fi_ran : net_ran (net cfg) (s_net s);
  fi_net : same_net (st_net (net cfg)) (st_net (s_net s));
  fi_calls k c : st_calls (s_net s) !! k = Some c → steady_call (st_net (net cfg)) c;
  fi_loop : st_loop (s_net s) = true;
  fi_objs o : is_Some (st_objs (net cfg) !! o) → is_Some (st_objs (s_net s) !! o);
  fi_ends : s_ends s = clerks cfg;
  fi_running c : is_Some (s_clerks s !! c) → is_Some (clerks cfg !! c);
}.

Lemma ran_objs n0 n o : net_ran n0 n → is_Some (st_objs n0 !! o) → is_Some (st_objs n !! o).
Proof.
  intros (acts & _ & He) Ho. revert n He. induction acts as [|a acts IH] using rev_ind; intros n.
  - by intros [= <-].
  - intros (n1 & H1 & H2)%LabRpcProof.exec_snoc. eapply step_objs; [done|by apply IH].
Qed.

Lemma step_ends s a s' :
  step s a = Next s' → s_ends s' = s_ends s ∧ ∀ c, is_Some (s_clerks s' !! c) → is_Some (s_clerks s !! c) ∨ is_Some (s_ends s !! c).
Proof.
  destruct a as [c o|c k|x|c]; cbn [step]; intros Hs; step_cases; try apply bind_Next in Hs as (n' & _ & [= <-]);
    (split; [done|]); intros c'; simpl; auto; try (rewrite lookup_insert_is_Some'; intros [<-|]; eauto; fail).
  intros [? ?%lookup_delete_Some]. naive_solver.
Qed.

Lemma reached_fine s : reached s → fine s.
Proof.
  intros [acts He]. pose proof (clients_ready _ _ _ Hcfg) as Hready.
  destruct (run_owned 0 cfg acts s Hready He) as (Ho & Hr & Hf). destruct Hr as (nacts & Hst & Hn).
  destruct (steady_exec kv_types _ nacts _ (rd_calls _ _ Hready) (rd_closed _ _ Hready) Hst Hn) as [Hsame Hcalls].
  assert (Hends : s_ends s = clerks cfg ∧ ∀ c, is_Some (s_clerks s !! c) → is_Some (clerks cfg !! c)).
  { clear -He. revert s He. induction acts as [|a acts IH] using rev_ind; intros s.
    - intros [= <-]. split; [done|]. intros c [? ?]. by simplify_map_eq.
    - intros (s1 & He & Hs)%run_snoc. destruct (IH s1 He) as [H1 H2], (step_ends s1 a s Hs) as [H3 H4].
      rewrite H3, H1. split; [done|]. intros c Hc. destruct (H4 c Hc); [by apply H2|by rewrite <- H1]. }
  assert (Hran : net_ran (net cfg) (s_net s)) by by exists nacts.
  split; try done.
  - destruct (st_loop (s_net s)) eqn:El; [done|]. pose proof (rd_closed _ _ Hready) as Hopen.
    pose proof (loop_runs kv_types _ _ _ (rd_loop _ _ Hready) Hn El) as Hclosed.
    destruct Hsame as (_ & _ & _ & _ & _ & Hsame). congruence.
  - intros o. by apply ran_objs.
  - apply Hends.
  - apply Hends.
Qed.

(** Steps of the network alone. *)
Lemma exec_net s nacts n' :
  forallb internal nacts = true → netexec (s_net s) nacts = Next n' →
  exec s (Net <$> nacts) = Next (System n' (s_ends s) (s_clerks s) (s_hist s) (s_now s + Z.of_nat (length nacts))).
Proof.
  revert s. induction nacts as [|a nacts IH]; intros s.
  - intros _ [= <-]. simpl. rewrite Z.add_0_r. by destruct s.
  - intros [Ha Hi]%andb_prop (n1 & H1 & H2)%bind_Next.
    rewrite fmap_cons. cbn [exec step]. rewrite Ha, H1. cbn [mbind outcome_bind].
    rewrite (IH (System n1 (s_ends s) (s_clerks s) (s_hist s) (s_now s + 1)) Hi H2). cbn [s_ends s_clerks s_hist s_now length]. do 2 f_equal. lia.
Qed.

(** The steps of a call that has begun are steps of the network. *)
Lemma about_internal n k nacts n' :
  Forall (λ a, about a = Some k) nacts → is_Some (st_calls n !! k) → netexec n nacts = Next n' → forallb internal nacts = true.
Proof.
  revert n. induction nacts as [|a nacts IH]; intros n; [done|].
  intros [Ha Hf]%Forall_cons [c Hc] (n1 & H1 & H2)%bind_Next.
  destruct (step_keeps kv_types n a n1 k c H1 Hc) as (c' & Hc' & _).
  change (internal a && forallb internal nacts = true). rewrite (IH n1 Hf (mk_is_Some _ _ Hc') H2), andb_true_r.
  destruct a; simpl in Ha; try done. injection Ha as ->. simpl in H1. by rewrite Hc in H1.
Qed.

(** The clerk of [c] goes on in its operation, or the operation has returned. *)
Definition goes_on (c : nat) (r : running) (left : nat) (s s' : system) : Prop :=
  (∃ r', s_clerks s' = <[c := r']> (s_clerks s) ∧ s_hist s' = s_hist s ∧ r_op r' = r_op r ∧ r_call r' = r_call r ∧
     r_wait r' = None ∧ (KvSrvLin.waits (r_clerk r') ≤ left)%nat) ∨
  (s_clerks s' = delete c (s_clerks s) ∧ ∃ res t, s_hist s' = s_hist s ++ [operation c (r_op r) (r_call r) res t]).

Lemma receive_goes_on s c r k call b v :
  fine s → s_clerks s !! c = Some r → r_wait r = Some k → st_calls (s_net s) !! k = Some call → c_pc call = Returned b v →
  ∃ s', step s (Receive c) = Next s' ∧
    goes_on c r (KvSrvLin.waits (r_clerk r) - (if b then 1 else 0))%nat s s'.
Proof.
  intros Hs Hr Hk Hcall Hpc. cbn [step]. rewrite Hr. cbn [or_block mbind outcome_bind]. rewrite Hk.
  cbn [or_block mbind outcome_bind]. rewrite Hcall. cbn [or_block mbind outcome_bind]. rewrite Hpc.
  destruct (receive_step 0 s c r k call b v (fi_owned _ Hs) (fi_facts _ Hs) Hr Hk Hcall Hpc) as [H1 _].
  assert (Hw : (KvSrvLin.waits (clerk_next (r_clerk r) b v) ≤ KvSrvLin.waits (r_clerk r) - (if b then 1 else 0))%nat).
  { destruct b; [by destruct (r_clerk r)|]. rewrite H1. lia. }
  destruct (clerk_next (r_clerk r) b v) as [| | |res] eqn:En.
  1-3: eexists; split; [reflexivity|]; left; eexists; split_and!; done.
  eexists. split; [reflexivity|]. right. split; [done|]. by eexists _, _.
Qed.

Lemma fine_server s e o :
  fine s → i_server (readEndnameInfo e (st_net (net cfg))) = Some o → is_Some (st_objs (s_net s) !! o).
Proof.
  intros Hs Hi. apply (fi_objs _ Hs). destruct (cl_objs _ _ _ Hcfg) as (o' & rs & Hsv & Hobjs & _).
  unfold readEndnameInfo in Hi. simpl in Hi. apply bind_Some in Hi as (sn & _ & Hi). unfold read in Hi. rewrite Hsv in Hi.
  destruct ({[ServerName 0 := Some o']} !! sn) as [x|] eqn:E; [|done]. apply lookup_singleton_Some in E as [_ <-].
  simpl in Hi. simplify_eq. rewrite Hobjs, lookup_singleton_eq. by eexists.
Qed.

(** The server answers what a clerk asks. *)
Lemma fine_dispatch s c r k call o :
  fine s → s_clerks s !! c = Some r → r_wait r = Some k → st_calls (s_net s) !! k = Some call →
  is_Some (st_objs (s_net s) !! o) →
  ∃ rs rs' w' rep, st_objs (s_net s) !! o = Some rs ∧
    dispatch kv_types rs (c_req call) (st_world (s_net s)) = Some (rs', w', rep) ∧ good_reply call rep.
Proof.
  intros Hs Hr Hk Hcall [rs Hrs]. pose proof (fi_owned _ Hs) as Ho. destruct (own_server 0 s Ho) as [kv Hkv].
  destruct (own_wait 0 s Ho c r k Hr Hk) as (call' & Hcall' & e & m & t & a & b & rep & Hreq & Hb & Hmsg & Hrep).
  simplify_eq. pose proof (own_waiting 0 s Ho c r Hr) as Hwt.
  destruct (dispatch_request rs _ 0 kv (r_clerk r) m t a (c_reply call) b e (own_services 0 s Ho o rs Hrs) Hkv Hwt Hreq Hb)
    as (rs' & b' & Hd & Hdec).
  rewrite <- Hmsg in Hd. eexists rs, rs', _, _. split_and!; [done|exact Hd|]. intros _. simpl. by rewrite Hdec.
Qed.

Lemma fine_answerable s c r k call :
  fine s → s_clerks s !! c = Some r → r_wait r = Some k → st_calls (s_net s) !! k = Some call →
  answerable kv_types (s_net s) call.
Proof.
  intros Hs Hr Hk Hcall. split; [|intros rep Hh _; by eapply (own_ready 0 s (fi_owned _ Hs))].
  intros o Ht. eapply fine_dispatch; [done..|]. unfold target in Ht.
  destruct (fi_calls _ Hs k call Hcall) as [_ Hst]. destruct (c_handler call) as [|sv|] eqn:Hh; [| |done].
  - destruct (c_pc call) as [| |i| | | | |] eqn:Hpc; try done.
    + eapply fine_server; [done|]. erewrite <- same_info; [exact Ht|apply Hs].
    + eapply fine_server; [done|]. erewrite <- same_info; [exact Ht|apply Hs].
    + destruct Hst as [_ ->]. by eapply fine_server.
  - injection Ht as ->. destruct (fi_ran _ Hs) as (nacts & _ & Hn).
    destruct (lives_exec kv_types _ nacts _ (cl_calls _ _ _ Hcfg) Hn) as [Hl _]. specialize (Hl k call Hcall).
    unfold life in Hl. rewrite Hh in Hl. destruct Hl as (q & n & sv' & _ & [<- _] & Hp). unfold pc_ok in Hp.
    destruct (c_pc call) as [| |i|n1 sv1 rel1 reord1|n1 sv1 rel1 reord1 r1| |r1|b v] eqn:Hpc; try done.
    + destruct Hp as [-> ->], Hst as [_ Hst]. eapply (fine_server s (endname (c_req call))); [done|].
      unfold info_of in Hst. by rewrite Hst.
    + destruct Hst as [Hst _]. congruence.
    + unfold fated in Hst. by rewrite Hh in Hst.
    + unfold fated in Hst. by rewrite Hh in Hst.
Qed.

(** A clerk that waits for a call gets an outcome. *)
Lemma settle s c r :
  reached s → s_clerks s !! c = Some r →
  ∃ acts s', exec s acts = Next s' ∧ goes_on c r (KvSrvLin.waits (r_clerk r)) s s'.
Proof.
  intros Hre Hr. pose proof (reached_fine s Hre) as Hs. destruct (r_wait r) as [k|] eqn:Hk.
  - destruct (own_wait 0 s (fi_owned _ Hs) c r k Hr Hk) as (call & Hcall & _).
    destruct (fi_ran _ Hs) as (nacts0 & _ & Hn0).
    destruct (call_can_return kv_types (net cfg) nacts0 (s_net s) k call (cl_calls _ _ _ Hcfg) (cl_loop _ _ _ Hcfg) Hn0 Hcall
      (fine_answerable s c r k call Hs Hr Hk Hcall)) as (nacts & n' & call' & b & v & Hab & Hn & Hcall' & Hpc).
    pose proof (exec_net s nacts n' (about_internal _ k _ _ Hab (mk_is_Some _ _ Hcall) Hn) Hn) as He.
    set (s1 := System n' _ _ _ _) in He.
    destruct (receive_goes_on s1 c r k call' b v (reached_fine s1 (reached_exec _ _ _ Hre He)) Hr Hk Hcall' Hpc) as (s' & Hst & Hgo).
    exists ((Net <$> nacts) ++ [Receive c]), s'. split; [eapply run_app; [exact He|cbn [exec]; by rewrite Hst]|].
    destruct Hgo as [(r' & H1 & H2 & H3 & H4 & H5 & H6)|H1]; [|by right].
    left. exists r'. split_and!; try done. lia.
  - exists [], s. split; [done|]. left. exists r. split_and!; try done. by rewrite insert_id.
Qed.

(** A call that loses nothing brings the operation forward. *)
Lemma answered s c r :
  reached s → s_clerks s !! c = Some r → r_wait r = None →
  ∃ acts s', exec s acts = Next s' ∧ goes_on c r (KvSrvLin.waits (r_clerk r) - 1) s s'.
Proof.
  intros Hre Hr Hk. pose proof (reached_fine s Hre) as Hs. pose proof (fi_owned _ Hs) as Ho.
  pose proof (own_waiting 0 s Ho c r Hr) as Hwt.
  destruct (request_of (r_clerk r)) as [[[[m t] a] rep]|] eqn:Hreq; [|by destruct (r_clerk r)].
  destruct (fi_running _ Hs c (mk_is_Some _ _ Hr)) as [e He].
  destruct (encodes a) as (b & Hb & _). destruct (own_server 0 s Ho) as [kv Hkv].
  assert (Hin : e ∈ names).
  { rewrite (cl_clerks _ _ _ Hcfg) in He. destruct c; [done|]. by eapply list_elem_of_lookup_2. }
  destruct (clients_connected _ _ _ e Hcfg Hin) as (o & rs0 & Hinfo & Hobj).
  assert (Hi : readEndnameInfo (EndName e) (st_net (s_net s)) = Info true (Some (ServerName 0)) (Some o) rel false).
  { by rewrite (same_info _ _ _ (fi_net _ Hs)). }
  destruct (fi_objs _ Hs o (mk_is_Some _ _ Hobj)) as [rs Hrs].
  destruct (dispatch_request rs _ 0 kv (r_clerk r) m t a rep b (EndName e) (own_services 0 s Ho o rs Hrs) Hkv Hwt Hreq Hb)
    as (rs' & b' & Hd & Hdec).
  set (k := fresh (dom (st_calls (s_net s)))).
  assert (Hfresh : st_calls (s_net s) !! k = None) by (apply not_elem_of_dom, is_fresh).
  destruct (call_through kv_types (s_net s) k (EndName e) m t a rep b _ o rel false rs rs' _ b' _ Hfresh (fi_loop _ Hs)
    Hb Hi Hrs Hd Hdec) as (n' & Hn & (call & Hcall & Hpc) & _).
  cbn [LabRpc.exec] in Hn. apply bind_Next in Hn as (n1 & Hn1 & Hn).
  assert (He1 : step s (Send c k) =
    Next (System n1 (s_ends s) (<[c := Running (r_op r) (r_clerk r) (r_call r) (Some k)]> (s_clerks s)) (s_hist s) (s_now s + 1))).
  { cbn [step]. rewrite Hr. cbn [or_block mbind outcome_bind]. rewrite (fi_ends _ Hs), He. cbn [or_block mbind outcome_bind].
    rewrite Hk, Hreq, Hn1. done. }
  set (s1 := System n1 _ _ _ _) in He1. set (r1 := Running (r_op r) (r_clerk r) (r_call r) (Some k)).
  pose proof (exec_net s1 (through k) n' eq_refl Hn) as He2. set (s2 := System n' _ _ _ _) in He2.
  assert (He12 : exec s (Send c k :: (Net <$> through k)) = Next s2) by (cbn [exec]; by rewrite He1).
  assert (Hr2 : s_clerks s2 !! c = Some r1) by apply lookup_insert_eq.
  destruct (receive_goes_on s2 c r1 k call true _ (reached_fine s2 (reached_exec _ _ _ Hre He12)) Hr2 eq_refl Hcall Hpc)
    as (s' & Hst & Hgo).
  exists ((Send c k :: (Net <$> through k)) ++ [Receive c]), s'. split; [eapply run_app; [exact He12|cbn [exec]; by rewrite Hst]|].
  destruct Hgo as [(r' & H1 & H2 & H3 & H4 & H5 & H6)|[H1 H2]].
  - left. exists r'. split_and!; try done. rewrite H1. apply insert_insert_eq.
  - right. split; [|done]. rewrite H1. apply delete_insert_eq.
Qed.

Lemma finishes s c r :
  reached s → s_clerks s !! c = Some r →
  ∃ acts s', exec s acts = Next s' ∧ s_clerks s' = delete c (s_clerks s) ∧
    ∃ res t, s_hist s' = s_hist s ++ [operation c (r_op r) (r_call r) res t].
Proof.
  remember (KvSrvLin.waits (r_clerk r)) as left eqn:Hleft. revert s r Hleft.
  induction left as [left IH] using lt_wf_ind. intros s r -> Hre Hr.
  destruct (settle s c r Hre Hr) as (acts1 & s1 & He1 & [(r1 & H1 & H2 & H3 & H4 & H5 & H6)|[H1 H2]]); [|by exists acts1, s1].
  pose proof (reached_exec _ _ _ Hre He1) as Hre1.
  assert (Hr1 : s_clerks s1 !! c = Some r1) by (rewrite H1; apply lookup_insert_eq).
  destruct (answered s1 c r1 Hre1 Hr1 H5) as (acts2 & s2 & He2 & [(r2 & G1 & G2 & G3 & G4 & G5 & G6)|[G1 G2]]).
  - pose proof (own_waiting 0 s1 (fi_owned _ (reached_fine s1 Hre1)) c r1 Hr1) as Hwt.
    assert (Hpos : (0 < KvSrvLin.waits (r_clerk r1))%nat) by (destruct (r_clerk r1); simpl in *; lia || done).
    assert (Hr2 : s_clerks s2 !! c = Some r2) by (rewrite G1; apply lookup_insert_eq).
    destruct (IH (KvSrvLin.waits (r_clerk r2)) ltac:(lia) s2 r2 eq_refl (reached_exec _ _ _ Hre1 He2) Hr2)
      as (acts3 & s3 & He3 & Hc3 & res & t & Hh3).
    exists (acts1 ++ acts2 ++ acts3), s3. split; [eapply run_app; [done|by eapply run_app]|].
    rewrite Hc3, Hh3, G1, G2, G3, G4, H1, H2, H3, H4. rewrite !delete_insert_eq. split; [done|by exists res, t].
  - exists (acts1 ++ acts2), s2. split; [by eapply run_app|]. rewrite G1, H1, delete_insert_eq. split; [done|].
    destruct G2 as (res & t & ->). rewrite H2, H3, H4. by exists res, t.
Qed.

End runs.
(** ** The claims *)

Section claims.
Context `{KvCodec}.

(** C25: The tester sets the service up: when the names are different,
    [make_config] and the calls of [makeClient] succeed, the clerk made [i]-th sends
    from the end with the [i]-th name, and every such end is enabled and leads to the
    one server, whose store is empty. *)
Theorem set_up_connects now unreliable names :
  NoDup names → Z.of_nat (length names) < 2 ^ 62 →
  ∃ c, set_up now unreliable names = Next c ∧ st_world (net c) = [KvSrv.StartKVServer] ∧
    ∀ i e, names !! i = Some e → clerks c !! S i = Some e ∧ connected (negb unreliable) (net c) e.
Proof.
  intros Hnd Hlen. destruct (set_up_clients now unreliable names Hnd Hlen) as (c & Hc & Hcl).
  exists c. split_and!; [done|apply Hcl|]. intros i e Hi. split; [by rewrite (cl_clerks _ _ _ Hcl)|].
  eapply clients_connected; [done|by eapply list_elem_of_lookup_2].
Qed.

(** C8: The service over the network, from clerk to handler and back: with any
    number of clerks that the tester has made, over a reliable or an unreliable
    network, however the goroutines of the calls interleave and whatever the network
    loses, if the ids drawn are distinct, then when every operation has
    returned the operations are linearizable, and the server remembers no id. *)
Theorem kvnet_linearizable now unreliable names cfg acts s :
  NoDup names → Z.of_nat (length names) < 2 ^ 62 → set_up now unreliable names = Next cfg →
  exec (init cfg) acts = Next s → NoDup (ids acts) → s_clerks s = ∅ →
  ops_linearizable StoreModel (s_hist s) ∧
  ∃ kv, st_world (s_net s) !! 0%nat = Some kv ∧ KvSrv.IDMap kv = ∅.
Proof.
  intros Hnd Hlen Hset He Hids Hidle. destruct (set_up_clients now unreliable names Hnd Hlen) as (c & Hc & Hcl).
  replace c with cfg in * by congruence.
  destruct (run_simulated (fate_of s) 0 cfg acts s (clients_ready _ _ _ Hcl) He Hids (fate_foreseen s))
    as (used & (kv & Hkv & HS) & _).
  destruct (Sim_linearizable _ _ _ _ _ HS) as [H1 H2]; [|by eauto].
  intros k. unfold view. by rewrite Hidle.
Qed.

(** C9: No operation is ever stuck: in every state the service can get into,
    whatever requests and replies were lost before, the operation a clerk runs can
    return, by steps of that clerk and of the network only, and the others are where
    they were. *)
Theorem kvnet_can_return now unreliable names cfg acts s c r :
  NoDup names → Z.of_nat (length names) < 2 ^ 62 → set_up now unreliable names = Next cfg →
  exec (init cfg) acts = Next s → s_clerks s !! c = Some r →
  ∃ acts' s', exec s acts' = Next s' ∧ s_clerks s' = delete c (s_clerks s) ∧
    ∃ result t, s_hist s' = s_hist s ++ [operation c (r_op r) (r_call r) result t].
Proof.
  intros Hnd Hlen Hset He Hr. destruct (set_up_clients now unreliable names Hnd Hlen) as (c0 & Hc & Hcl).
  replace c0 with cfg in * by congruence. eapply finishes; [done| |done]. by exists acts.
Qed.

End claims.

(** ** Two clients *)

#[local] Instance kvvalue_eq_dec : EqDecision kvvalue.
Proof.
  intros x y. unfold Decision. decide equality; decide equality; match goal with |- {?a = ?b} + {_} => exact (decide (a = b)) end.
Defined.

#[local] Instance kvvalue_countable : Countable kvvalue.
Proof.
  refine (inj_countable'
    (λ v, match v with
          | VGetArgs a => inl (inl (KvSrv.ga_Key a))
          | VGetReply r => inl (inr (KvSrv.gr_Value r))
          | VPutAppendArgs a => inr (inl (KvSrv.pa_Key a, KvSrv.pa_Value a, KvSrv.pa_ID a, bool_decide (KvSrv.pa_State a = KvSrv.Ack)))
          | VPutAppendReply r => inr (inr (KvSrv.par_Value r))
          end)
    (λ x, match x with
          | inl (inl k) => VGetArgs (KvSrv.MkGetArgs k)
          | inl (inr v) => VGetReply (KvSrv.MkGetReply v)
          | inr (inl (k, v, id, a)) => VPutAppendArgs (KvSrv.MkPutAppendArgs k v id (if a : bool then KvSrv.Ack else KvSrv.Modify))
          | inr (inr v) => VPutAppendReply (KvSrv.MkPutAppendReply v)
          end) _).
  by intros [[]|[]|[? ? ? []]|[]].
Defined.

(** A codec that keeps its promises. *)
#[local] Instance demo_Codec : Codec kvvalue :=
  {| New t := match t with
              | 4%nat => VGetReply (KvSrv.MkGetReply "")
              | 8%nat => VPutAppendReply (KvSrv.MkPutAppendReply "")
              | _ => VGetArgs (KvSrv.MkGetArgs "")
              end;
     EncodeV v := Some (bytes_of_value v);
     DecodeV b old := match value_of_bytes b with Some v => (v, true) | None => (old, false) end |}.

#[local] Instance demo_KvCodec : KvCodec.
Proof. split; [|done..]. intros v. exists (bytes_of_value v). split; [done|]. unfold DecodeV, demo_Codec. by rewrite value_of_bytes_of_value. Defined.

Definition demo_cfg : config :=
  match set_up 0 true ["one"; "two"] with Next c => c | _ => Config (LabRpc.init []) None ∅ 0 0 0 0 0 end.

(** Two puts of which the first loses its reply, while the other client gets. *)
Definition demo_acts : list action :=
  [Invoke 1 (KvSrv.OPut "x" "a" 5); Invoke 2 (KvSrv.OGet "x"); Send 1 10; Send 2 20] ++
  (Net <$> [AAccept 10; ARead 10; ADecide 10 100; AHandle 10; ATake 10; ACheck 10 7 900; ADeliver 10]) ++ [Receive 1; Send 1 11] ++
  (Net <$> through 20) ++ (Net <$> through 11) ++ [Receive 2; Receive 1; Send 1 12] ++
  (Net <$> [AAccept 12; ARead 12; ADecide 12 3; ADeliver 12]) ++ [Receive 1; Send 1 13] ++ (Net <$> through 13) ++ [Receive 1].

Definition demo_end : system :=
  match exec (init demo_cfg) demo_acts with Next s => s | _ => init demo_cfg end.

Definition goes {A} (r : outcome A) : bool := match r with Next _ => true | _ => false end.

Lemma demo_cfg_ok : set_up 0 true ["one"; "two"] = Next demo_cfg.
Proof.
  unfold demo_cfg. assert (E : goes (set_up 0 true ["one"; "two"]) = true) by (vm_compute; reflexivity).
  by destruct (set_up 0 true ["one"; "two"]).
Qed.

Lemma demo_end_ok : exec (init demo_cfg) demo_acts = Next demo_end.
Proof.
  unfold demo_end. assert (E : goes (exec (init demo_cfg) demo_acts) = true) by (vm_compute; reflexivity).
  by destruct (exec (init demo_cfg) demo_acts).
Qed.

Lemma kvnet_linearizable_witness :
  exec (init demo_cfg) demo_acts = Next demo_end ∧
  (op_Output <$> s_hist demo_end) = [IKvOutput (MkKvOutput "a"); IKvOutput (MkKvOutput "")] ∧
  ops_linearizable StoreModel (s_hist demo_end).
Proof.
  split; [exact demo_end_ok|]. split; [vm_compute; reflexivity|].
  apply (kvnet_linearizable 0 true ["one"; "two"] demo_cfg demo_acts demo_end).
  - apply (bool_decide_unpack _). vm_compute. exact I.
  - vm_compute. reflexivity.
  - exact demo_cfg_ok.
  - exact demo_end_ok.
  - apply (bool_decide_unpack _). vm_compute. exact I.
  - apply map_size_empty_inv. vm_compute. reflexivity.
Defined.

Lemma set_up_connects_witness :
  ∃ c, set_up 0 true ["one"; "two"] = Next c ∧ connected false (net c) "two".
Proof.
  destruct (set_up_connects 0 true ["one"; "two"]) as (c & Hc & _ & Hends).
  - apply (bool_decide_unpack _). vm_compute. exact I.
  - vm_compute. reflexivity.
  - exists c. split; [exact Hc|]. apply (Hends 1%nat "two" eq_refl).
Defined.

(** The first client in the middle of its second call. *)
Definition demo_middle : system :=
  match exec (init demo_cfg) (take 17 demo_acts) with Next s => s | _ => init demo_cfg end.

Lemma demo_middle_ok : exec (init demo_cfg) (take 17 demo_acts) = Next demo_middle.
Proof.
  unfold demo_middle. assert (E : goes (exec (init demo_cfg) (take 17 demo_acts)) = true) by (vm_compute; reflexivity).
  by destruct (exec (init demo_cfg) (take 17 demo_acts)).
Qed.

Lemma kvnet_can_return_witness :
  ∃ acts' s', exec demo_middle acts' = Next s' ∧ s_clerks s' = delete 1%nat (s_clerks demo_middle).
Proof.
  destruct (s_clerks demo_middle !! 1%nat) as [r|] eqn:Hr.
  - destruct (kvnet_can_return 0 true ["one"; "two"] demo_cfg (take 17 demo_acts) demo_middle 1 r) as (acts' & s' & He & Hc & _).
    + apply (bool_decide_unpack _). vm_compute. exact I.
    + vm_compute. reflexivity.
    + exact demo_cfg_ok.
    + exact demo_middle_ok.
    + exact Hr.
    + exists acts', s'. split; assumption.
  - exfalso. assert (E : bool_decide (is_Some (s_clerks demo_middle !! 1%nat)) = true) by (vm_compute; reflexivity).
    apply bool_decide_eq_true in E. rewrite Hr in E. destruct E as [x E]. discriminate E.
Defined.
End KvService.
