(* ===== verification/ShardCtrler.v ===== *)
(** * The shard controller

    [src/6.5840/src/shardctrler]: the configurations and messages of [common.go],
    the clerk of [client.go] and the server of [server.go], whose handlers have
    no body yet. What [Call] does, which is the network's and the servers'
    doing, is an argument of the clerk: it changes a state of the outside and
    gives the reply, or nothing when it returns false. A loop without an end has
    fuel, one unit for each round over the servers. *)
From S2P Require Import Prelude Raft.
Local Open Scope Z_scope.

(** ** Loops over servers that a clerk shares *)

Section loops.
Context {S srv Reply R : Type} (call : S → srv → S * option Reply) (accept : Reply → option R).

(** [for _, srv := range servers]: the first reply that is accepted ends the loop. *)
Fixpoint try_each (servers : list srv) (s : S) : S * option R :=
  match servers with
  | [] => (s, None)
  | srv :: servers =>
      let '(s, r) := call s srv in
      match r ≫= accept with
      | Some x => (s, Some x)
      | None => try_each servers s
      end
  end.

(** [for { ... }] around it. *)
Fixpoint try_forever (fuel : nat) (servers : list srv) (s : S) : S * option R :=
  match fuel with
  | O => (s, None)
  | Datatypes.S fuel =>
      let '(s, r) := try_each servers s in
      match r with
      | Some x => (s, Some x)
      | None => try_forever fuel servers s
      end
  end.

(** Every server always gives the same answer. *)
Definition fixed (ans : srv → option Reply) : Prop := ∀ s srv, (call s srv).2 = ans srv.

(** The answer a round over the servers ends with. *)
Definition first_answer (ans : srv → option Reply) (servers : list srv) : option R :=
  head (omap (λ srv, ans srv ≫= accept) servers).

Lemma try_each_fixed ans servers s : fixed ans → (try_each servers s).2 = first_answer ans servers.
Proof.
  intros Hf. unfold first_answer. revert s. induction servers as [|x servers IH]; intros s; [done|]. simpl.
  pose proof (Hf s x) as E. destruct (call s x) as [s' r]. simpl in E. subst r.
  destruct (ans x ≫= accept); [done|apply IH].
Qed.

Lemma try_forever_fixed ans servers fuel s :
  fixed ans → (try_forever (Datatypes.S fuel) servers s).2 = first_answer ans servers.
Proof.
  intros Hf. revert s. induction fuel as [|fuel IH]; intros s; simpl.
  - pose proof (try_each_fixed ans servers s Hf) as E. destruct (try_each servers s) as [s' [x|]]; simpl in *; done.
  - pose proof (try_each_fixed ans servers s Hf) as E. destruct (try_each servers s) as [s' [x|]]; simpl in *; [done|].
    apply IH.
Qed.

(** What ends a loop was accepted from some server. *)
Lemma try_each_from servers s s' x :
  try_each servers s = (s', Some x) → ∃ s1 srv r, srv ∈ servers ∧ (call s1 srv).2 = Some r ∧ accept r = Some x.
Proof.
  revert s. induction servers as [|y servers IH]; intros s; [done|]. simpl.
  destruct (call s y) as [s1 r] eqn:E. destruct (r ≫= accept) as [z|] eqn:Ea.
  - intros [= <- <-]. destruct r as [r|]; [|done]. exists s, y, r. rewrite E. split_and!; [left|done|done].
  - intros (s2 & z & r' & Hz & H)%IH. exists s2, z, r'. split; [by right|done].
Qed.

Lemma try_forever_from fuel servers s s' x :
  try_forever fuel servers s = (s', Some x) → ∃ s1 srv r, srv ∈ servers ∧ (call s1 srv).2 = Some r ∧ accept r = Some x.
Proof.
  revert s. induction fuel as [|fuel IH]; intros s; [done|]. simpl.
  destruct (try_each servers s) as [s1 [y|]] eqn:E; [|apply IH].
  intros [= <- <-]. by eapply try_each_from.
Qed.

End loops.

Module ShardCtrler.

(** ** common.go *)

Definition NShards : Z := 10.

(** [Shards] is an array of [NShards] group numbers. *)
Record Config := MkConfig {
  Num : Z;
  Shards : list Z;
  Groups : gmap Z (list string);
}.

(** The zero value, whose map is nil. *)
Definition zero_Config : Config := MkConfig 0 (replicate (Z.to_nat NShards) 0) ∅.

Definition config_ok (c : Config) : Prop := length (Shards c) = Z.to_nat NShards.

(** The type [Err] of the package and its only constant. *)
Definition OK : string := "OK".

Record JoinArgs := MkJoinArgs { j_Servers : gmap Z (list string) }.
Record JoinReply := MkJoinReply { j_WrongLeader : bool; j_Err : string }.
Record LeaveArgs := MkLeaveArgs { l_GIDs : list Z }.
Record LeaveReply := MkLeaveReply { l_WrongLeader : bool; l_Err : string }.
Record MoveArgs := MkMoveArgs { m_Shard : Z; m_GID : Z }.
Record MoveReply := MkMoveReply { m_WrongLeader : bool; m_Err : string }.
Record QueryArgs := MkQueryArgs { q_Num : Z }.
Record QueryReply := MkQueryReply { q_WrongLeader : bool; q_Err : string; q_Config : Config }.

(** ** server.go *)

Record ShardCtrler := MkShardCtrler {
  me : Z;
  rf : Raft.Raft;
  configs : list Config;
}.

(** The handlers, with an empty body: server and reply stay as they are. *)
Definition Join_handler (sc : ShardCtrler) (args : JoinArgs) (reply : JoinReply) : ShardCtrler * JoinReply := (sc, reply).
Definition Leave_handler (sc : ShardCtrler) (args : LeaveArgs) (reply : LeaveReply) : ShardCtrler * LeaveReply := (sc, reply).
Definition Move_handler (sc : ShardCtrler) (args : MoveArgs) (reply : MoveReply) : ShardCtrler * MoveReply := (sc, reply).
Definition Query_handler (sc : ShardCtrler) (args : QueryArgs) (reply : QueryReply) : ShardCtrler * QueryReply := (sc, reply).

Definition Kill (sc : ShardCtrler) : ShardCtrler := MkShardCtrler (me sc) (Raft.Kill (rf sc)) (configs sc).

Definition Raft_of (sc : ShardCtrler) : Raft.Raft := rf sc.

Definition StartServer (servers : nat) (me : Z) : ShardCtrler :=
  MkShardCtrler me (Raft.Make servers me) [zero_Config].

(** ** client.go *)

(** [bigx] is what [crypto/rand] returned. *)
Definition nrand (bigx : Z) : Z := wrap_s 64 bigx.

Section clerk.
Context {S srv : Type}.
Context (Call_Query : S → srv → QueryArgs → S * option QueryReply).
Context (Call_Join : S → srv → JoinArgs → S * option JoinReply).
Context (Call_Leave : S → srv → LeaveArgs → S * option LeaveReply).
Context (Call_Move : S → srv → MoveArgs → S * option MoveReply).

Record Clerk := MkClerk { servers : list srv }.

Definition MakeClerk (ends : list srv) : Clerk := MkClerk ends.

Definition accept_query (reply : QueryReply) : option Config :=
  if negb (q_WrongLeader reply) then Some (q_Config reply) else None.

Definition Query (fuel : nat) (ck : Clerk) (num : Z) (s : S) : S * option Config :=
  let args := MkQueryArgs num in
  try_forever (λ s x, Call_Query s x args) accept_query fuel (servers ck) s.

Definition Join (fuel : nat) (ck : Clerk) (groups : gmap Z (list string)) (s : S) : S * option unit :=
  let args := MkJoinArgs groups in
  try_forever (λ s x, Call_Join s x args)
    (λ reply, if negb (j_WrongLeader reply) then Some () else None) fuel (servers ck) s.

Definition Leave (fuel : nat) (ck : Clerk) (gids : list Z) (s : S) : S * option unit :=
  let args := MkLeaveArgs gids in
  try_forever (λ s x, Call_Leave s x args)
    (λ reply, if negb (l_WrongLeader reply) then Some () else None) fuel (servers ck) s.

Definition Move (fuel : nat) (ck : Clerk) (shard gid : Z) (s : S) : S * option unit :=
  let args := MkMoveArgs shard gid in
  try_forever (λ s x, Call_Move s x args)
    (λ reply, if negb (m_WrongLeader reply) then Some () else None) fuel (servers ck) s.

End clerk.
End ShardCtrler.
