(* ===== verification/ShardKv.v ===== *)
(** * The sharded key/value service

    [src/6.5840/src/shardkv]: the messages of [common.go], the clerk of
    [client.go], which asks the group that its configuration names for the shard
    of the key and fetches a new configuration when the group does not answer,
    and the server of [server.go], whose handlers have no body yet. *)
From Stdlib Require Import Ascii.
From S2P Require Import Prelude Raft ShardCtrler.
Local Open Scope Z_scope.

Module ShardKv.

(** ** common.go *)

Definition OK : string := "OK".
Definition ErrNoKey : string := "ErrNoKey".
Definition ErrWrongGroup : string := "ErrWrongGroup".
Definition ErrWrongLeader : string := "ErrWrongLeader".

Record PutAppendArgs := MkPutAppendArgs { pa_Key : string; pa_Value : string; pa_Op : string }.
Record PutAppendReply := MkPutAppendReply { pa_Err : string }.
Record GetArgs := MkGetArgs { g_Key : string }.
Record GetReply := MkGetReply { g_Err : string; g_Value : string }.

(** ** server.go *)

(** [make_end] and the ends of the controller are only kept. *)
Record ShardKV := MkShardKV { me : Z; rf : Raft.Raft; gid : Z; maxraftstate : Z }.

Definition Get_handler (kv : ShardKV) (args : GetArgs) (reply : GetReply) : ShardKV * GetReply := (kv, reply).
Definition PutAppend_handler (kv : ShardKV) (args : PutAppendArgs) (reply : PutAppendReply) : ShardKV * PutAppendReply :=
  (kv, reply).

Definition Kill (kv : ShardKV) : ShardKV := MkShardKV (me kv) (Raft.Kill (rf kv)) (gid kv) (maxraftstate kv).

Definition StartServer (servers : nat) (me maxraftstate gid : Z) : ShardKV :=
  MkShardKV me (Raft.Make servers me) gid maxraftstate.

(** ** client.go *)

Definition key2shard (key : string) : Z :=
  let shard := match key with EmptyString => 0 | String c _ => Z.of_nat (nat_of_ascii c) end in
  Z.rem shard ShardCtrler.NShards.

Definition nrand (bigx : Z) : Z := wrap_s 64 bigx.

Section clerk.
Context {S srv : Type}.
Context (Call_Query : S → srv → ShardCtrler.QueryArgs → S * option ShardCtrler.QueryReply).
Context (Call_Get : S → srv → GetArgs → S * option GetReply).
Context (Call_PutAppend : S → srv → PutAppendArgs → S * option PutAppendReply).

Record Clerk := MkClerk {
  sm : ShardCtrler.Clerk (srv := srv);
  config : ShardCtrler.Config;
  make_end : string → S → S * srv; (* makes a new end whenever it is called *)
}.

Definition MakeClerk (ctrlers : list srv) (make_end : string → S → S * srv) : Clerk :=
  MkClerk (ShardCtrler.MakeClerk ctrlers) ShardCtrler.zero_Config make_end.

Definition set_config (ck : Clerk) (c : ShardCtrler.Config) : Clerk := MkClerk (sm ck) c (make_end ck).

(** The servers of the group that holds the key, if the group is known. The outer
    [None] is the panic of an index out of range. *)
Definition group_of (c : ShardCtrler.Config) (key : string) : option (option (list string)) :=
  let shard := key2shard key in
  gid ← go_index (ShardCtrler.Shards c) shard;
  Some (ShardCtrler.Groups c !! gid).

(** The loop over the servers of a group, for [Get]. *)
Fixpoint ask_Get (make_end : string → S → S * srv) (servers : list string) (args : GetArgs) (s : S) : S * option string :=
  match servers with
  | [] => (s, None)
  | name :: servers =>
      let '(s, srv) := make_end name s in
      let '(s, r) := Call_Get s srv args in
      match r with
      | Some reply =>
          if String.eqb (g_Err reply) OK || String.eqb (g_Err reply) ErrNoKey then (s, Some (g_Value reply))
          else if String.eqb (g_Err reply) ErrWrongGroup then (s, None)
          else ask_Get make_end servers args s
      | None => ask_Get make_end servers args s
      end
  end.

(** The same for [PutAppend], which does not accept [ErrNoKey]. *)
Fixpoint ask_PutAppend (make_end : string → S → S * srv) (servers : list string) (args : PutAppendArgs) (s : S) : S * option unit :=
  match servers with
  | [] => (s, None)
  | name :: servers =>
      let '(s, srv) := make_end name s in
      let '(s, r) := Call_PutAppend s srv args in
      match r with
      | Some reply =>
          if String.eqb (pa_Err reply) OK then (s, Some ())
          else if String.eqb (pa_Err reply) ErrWrongGroup then (s, None)
          else ask_PutAppend make_end servers args s
      | None => ask_PutAppend make_end servers args s
      end
  end.

(** The loop both methods share; [ask] is the loop over the servers. The outer
    [None] is a panic; no result means that the fuel has run out. *)
Fixpoint ask_forever {R} (ask : list string → S → S * option R) (fuel : nat) (ck : Clerk) (key : string) (s : S)
    : option (S * Clerk * option R) :=
  match fuel with
  | O => Some (s, ck, None)
  | Datatypes.S fuel =>
      group ← group_of (config ck) key;
      let '(s, r) :=
        match group with Some servers => ask servers s | None => (s, None) end in
      match r with
      | Some x => Some (s, ck, Some x)
      | None =>
          let '(s, c) := ShardCtrler.Query Call_Query fuel (sm ck) (-1) s in
          match c with
          | Some c => ask_forever ask fuel (set_config ck c) key s
          | None => Some (s, ck, None)
          end
      end
  end.

Definition Get (fuel : nat) (ck : Clerk) (key : string) (s : S) : option (S * Clerk * option string) :=
  let args := MkGetArgs key in
  ask_forever (λ servers s, ask_Get (make_end ck) servers args s) fuel ck key s.

Definition PutAppend (fuel : nat) (ck : Clerk) (key value op : string) (s : S) : option (S * Clerk * option unit) :=
  let args := MkPutAppendArgs key value op in
  ask_forever (λ servers s, ask_PutAppend (make_end ck) servers args s) fuel ck key s.

Definition Put (fuel : nat) (ck : Clerk) (key value : string) (s : S) := PutAppend fuel ck key value "Put" s.
Definition Append (fuel : nat) (ck : Clerk) (key value : string) (s : S) := PutAppend fuel ck key value "Append" s.

End clerk.

(** ** The loop of the clerk *)

Lemma key2shard_range key : 0 ≤ key2shard key < ShardCtrler.NShards.
Proof.
  unfold key2shard, ShardCtrler.NShards. apply Z.rem_bound_pos; [destruct key; lia|lia].
Qed.

(** No index is out of range. *)
Lemma group_of_Some c key : ShardCtrler.config_ok c → is_Some (group_of c key).
Proof.
  intros Hc. unfold group_of. pose proof (key2shard_range key).
  destruct (go_index (ShardCtrler.Shards c) (key2shard key)) eqn:E; [by eexists|].
  unfold go_index in E. rewrite (proj2 (Z.leb_le _ _)) in E by lia.
  apply lookup_ge_None in E. rewrite Hc in E. unfold ShardCtrler.NShards in *. lia.
Qed.

Section fixed.
Context {S srv R : Type}.
Context (Call_Query : S → srv → ShardCtrler.QueryArgs → S * option ShardCtrler.QueryReply).
Context (ask : list string → S → S * option R) (key : string).

(** What the servers of a group answer together, and what the controller
    answers, when the answers are always the same. *)
Context (group_ans : list string → option R) (ctl_ans : srv → option ShardCtrler.QueryReply).
Context (Hask : ∀ servers s, (ask servers s).2 = group_ans servers).
Context (Hctl : fixed (λ s x, Call_Query s x (ShardCtrler.MkQueryArgs (-1))) ctl_ans).
Context (Hok : ∀ x reply, ctl_ans x = Some reply → ShardCtrler.config_ok (ShardCtrler.q_Config reply)).

(** What a round with this configuration answers. *)
Definition round_ans (c : ShardCtrler.Config) : option R :=
  match group_of c key with Some (Some servers) => group_ans servers | _ => None end.

(** The configuration the controller gives. *)
Definition latest (sm : ShardCtrler.Clerk (srv := srv)) : option ShardCtrler.Config :=
  first_answer ShardCtrler.accept_query ctl_ans (ShardCtrler.servers sm).

Lemma latest_ok sm c : latest sm = Some c → ShardCtrler.config_ok c.
Proof using Hok.
  unfold latest, first_answer. intros Hh. apply head_Some_elem_of in Hh.
  apply list_elem_of_omap in Hh as (x & _ & Hx). destruct (ctl_ans x) as [reply|] eqn:E; [|done].
  simpl in Hx. unfold ShardCtrler.accept_query in Hx. case_match; simplify_eq. by eapply Hok.
Qed.

Lemma round_eq fuel ck s : ShardCtrler.config_ok (config ck) →
  ∃ s', ask_forever Call_Query ask (Datatypes.S fuel) ck key s =
    match round_ans (config ck) with
    | Some x => Some (s', ck, Some x)
    | None =>
        match ShardCtrler.Query Call_Query fuel (sm ck) (-1) s' with
        | (s', Some c) => ask_forever Call_Query ask fuel (set_config ck c) key s'
        | (s', None) => Some (s', ck, None)
        end
    end.
Proof using Hask.
  intros Hc. destruct (group_of_Some (config ck) key Hc) as [g Hg].
  unfold round_ans. cbn [ask_forever]. rewrite Hg. cbn [mbind option_bind]. destruct g as [servers|].
  - pose proof (Hask servers s) as E. destruct (ask _ s) as [s' r]. simpl in E. rewrite <- E.
    exists s'. destruct r; [done|]. by destruct (ShardCtrler.Query _ _ _ _ _) as [? []].
  - exists s. by destruct (ShardCtrler.Query _ _ _ _ _) as [? []].
Qed.

Lemma query_eq fuel sm s : (ShardCtrler.Query Call_Query (Datatypes.S fuel) sm (-1) s).2 = latest sm.
Proof using Hctl. unfold ShardCtrler.Query. by apply try_forever_fixed. Qed.

(** With the latest configuration nothing changes any more. *)
Lemma ask_latest fuel ck s c :
  latest (sm ck) = Some c → config ck = c → round_ans c = None →
  ∃ s' ck', ask_forever Call_Query ask fuel ck key s = Some (s', ck', None).
Proof using All.
  intros Hl. revert ck s Hl. induction fuel as [|fuel IH]; intros ck s Hl Hc Hr; [by eexists _, _|].
  destruct (round_eq fuel ck s) as [s' ->]; [rewrite Hc; by eapply latest_ok|]. rewrite Hc, Hr.
  destruct fuel as [|fuel]; [by eexists _, _|].
  pose proof (query_eq fuel (sm ck) s') as E. rewrite Hl in E.
  destruct (ShardCtrler.Query _ _ _ _ _) as [s1 r]. simpl in E. subst r. by apply IH.
Qed.

Lemma ask_returns ck s x : ShardCtrler.config_ok (config ck) →
  (∃ fuel s' ck', ask_forever Call_Query ask fuel ck key s = Some (s', ck', Some x)) ↔
  round_ans (config ck) = Some x ∨
  round_ans (config ck) = None ∧ ∃ c, latest (sm ck) = Some c ∧ round_ans c = Some x.
Proof using All.
  intros Hc. split.
  - intros (fuel & s' & ck' & E). destruct fuel as [|fuel]; [done|].
    destruct (round_eq fuel ck s Hc) as [s1 E1]. rewrite E1 in E.
    destruct (round_ans (config ck)) as [y|] eqn:Hr; [left; by simplify_eq|]. right. split; [done|].
    destruct fuel as [|fuel]; [done|]. pose proof (query_eq fuel (sm ck) s1) as Eq.
    destruct (ShardCtrler.Query _ _ _ _ _) as [s2 [c|]]; [|done]. simpl in Eq.
    exists c. split; [done|]. destruct (round_ans c) as [y|] eqn:Hr'.
    + destruct (round_eq fuel (set_config ck c) s2) as [s3 E3]; [by apply (latest_ok (sm ck))|].
      rewrite E3 in E. simpl in E. rewrite Hr' in E. by simplify_eq.
    + destruct (ask_latest (Datatypes.S fuel) (set_config ck c) s2 c) as (s3 & ck3 & E3); [done..|]. rewrite E3 in E. done.
  - intros [Hr|[Hr (c & Hl & Hr')]].
    + exists 1%nat. destruct (round_eq 0 ck s Hc) as [s1 E1]. rewrite E1, Hr. by eexists _, _.
    + exists 2%nat. destruct (round_eq 1 ck s Hc) as [s1 E1]. rewrite E1, Hr.
      pose proof (query_eq 0 (sm ck) s1) as Eq. rewrite Hl in Eq.
      destruct (ShardCtrler.Query _ _ _ _ _) as [s2 r]. simpl in Eq. subst r.
      destruct (round_eq 0 (set_config ck c) s2) as [s3 E3]; [by apply (latest_ok (sm ck))|].
      rewrite E3. simpl. rewrite Hr'. by eexists _, _.
Qed.

Lemma ask_no_panic fuel ck s : ShardCtrler.config_ok (config ck) → ask_forever Call_Query ask fuel ck key s ≠ None.
Proof using All.
  revert ck s. induction fuel as [|fuel IH]; intros ck s Hc; [done|].
  destruct (round_eq fuel ck s Hc) as [s1 ->]. destruct (round_ans _); [done|].
  destruct fuel as [|fuel]; [done|]. pose proof (query_eq fuel (sm ck) s1) as Eq.
  destruct (ShardCtrler.Query _ _ _ _ _) as [s2 [c|]]; [|done]. apply IH. by apply (latest_ok (sm ck)).
Qed.

End fixed.

(** What the servers of a group answer to a [Get] together. *)
Fixpoint get_ans (ans : string → option GetReply) (servers : list string) : option string :=
  match servers with
  | [] => None
  | name :: servers =>
      match ans name with
      | Some reply =>
          if decide (g_Err reply = OK ∨ g_Err reply = ErrNoKey) then Some (g_Value reply)
          else if decide (g_Err reply = ErrWrongGroup) then None else get_ans ans servers
      | None => get_ans ans servers
      end
  end.

(** An end that is made for a name always has the same answer. *)
Definition named {S srv} (mk : string → S → S * srv) (Call_Get : S → srv → GetArgs → S * option GetReply) (args : GetArgs)
    (ans : string → option GetReply) : Prop :=
  ∀ name s, (let '(s, x) := mk name s in Call_Get s x args).2 = ans name.

Lemma ask_Get_named {S srv} mk (Call_Get : S → srv → GetArgs → S * option GetReply) ans args servers s :
  named mk Call_Get args ans → (ask_Get Call_Get mk servers args s).2 = get_ans ans servers.
Proof.
  intros Hf. revert s. induction servers as [|name servers IH]; intros s; [done|]. simpl.
  pose proof (Hf name s) as E. destruct (mk name s) as [s0 x]. destruct (Call_Get s0 x args) as [s' r]. simpl in E. subst r.
  destruct (ans name) as [reply|]; [|apply IH].
  destruct (String.eqb_spec (g_Err reply) OK); simpl; [by rewrite decide_True by auto|].
  destruct (String.eqb_spec (g_Err reply) ErrNoKey); simpl; [by rewrite decide_True by auto|].
  rewrite decide_False by naive_solver.
  destruct (String.eqb_spec (g_Err reply) ErrWrongGroup); [by rewrite decide_True|by rewrite decide_False].
Qed.

(** ** The claims *)

(** C40: When the controller and the servers of every name always give the same answers,
    through whatever new ends [make_end] makes for the names, [Get]
    returns exactly the value that the group of the key answers, found in the
    configuration the clerk has or, when that one gives none, in the one the
    controller gives; when neither gives one it asks for ever. The group's answer is
    that of its first server that says [OK] or [ErrNoKey], unless one before it
    says [ErrWrongGroup]. No index is ever out of range. *)
Theorem Get_returns {S srv : Type}
    (Call_Query : S → srv → ShardCtrler.QueryArgs → S * option ShardCtrler.QueryReply)
    (Call_Get : S → srv → GetArgs → S * option GetReply) ctl_ans ans (ck : Clerk) key s x :
  fixed (λ s x, Call_Query s x (ShardCtrler.MkQueryArgs (-1))) ctl_ans →
  named (make_end ck) Call_Get (MkGetArgs key) ans →
  (∀ x reply, ctl_ans x = Some reply → ShardCtrler.config_ok (ShardCtrler.q_Config reply)) →
  ShardCtrler.config_ok (config ck) →
  let answer := round_ans key (get_ans ans) in
  (∀ fuel, Get Call_Query Call_Get fuel ck key s ≠ None) ∧
  ((∃ fuel s' ck', Get Call_Query Call_Get fuel ck key s = Some (s', ck', Some x)) ↔
   answer (config ck) = Some x ∨ answer (config ck) = None ∧ ∃ c, latest ctl_ans (sm ck) = Some c ∧ answer c = Some x).
Proof.
  intros Hctl Hget Hok Hck answer.
  assert (Hask : ∀ servers s, (ask_Get Call_Get (make_end ck) servers (MkGetArgs key) s).2 = get_ans ans servers)
    by (intros; by apply ask_Get_named).
  split; [intros fuel|]; unfold Get; [by eapply ask_no_panic|by apply ask_returns].
Qed.

(** The servers as they are written: a call that gets through is answered with the
    empty reply it came with. *)
Definition skeleton_Query {S srv} (Call_Query : S → srv → ShardCtrler.QueryArgs → S * option ShardCtrler.QueryReply) : Prop :=
  ∀ s x args r, (Call_Query s x args).2 = Some r →
    ∃ sc, (ShardCtrler.Query_handler sc args (ShardCtrler.MkQueryReply false "" ShardCtrler.zero_Config)).2 = r.

(** With the servers as they are written a new clerk's [Get] and [PutAppend]
    never return and never panic, whatever the network does: the controller's
    answer is always the empty configuration, which names no group. *)
Theorem skeleton_never_serves {S srv : Type}
    (Call_Query : S → srv → ShardCtrler.QueryArgs → S * option ShardCtrler.QueryReply)
    (Call_Get : S → srv → GetArgs → S * option GetReply)
    (Call_PutAppend : S → srv → PutAppendArgs → S * option PutAppendReply) ctrlers mk key value op fuel s :
  skeleton_Query Call_Query →
  (∃ s', Get Call_Query Call_Get fuel (MakeClerk ctrlers mk) key s = Some (s', MakeClerk ctrlers mk, None)) ∧
  (∃ s', PutAppend Call_Query Call_PutAppend fuel (MakeClerk ctrlers mk) key value op s = Some (s', MakeClerk ctrlers mk, None)).
Proof.
  intros Hsk.
  assert (Hq : ∀ fuel s, (ShardCtrler.Query Call_Query fuel (ShardCtrler.MakeClerk ctrlers) (-1) s).2 = None ∨
                        (ShardCtrler.Query Call_Query fuel (ShardCtrler.MakeClerk ctrlers) (-1) s).2 = Some ShardCtrler.zero_Config).
  { intros f s0. destruct (ShardCtrler.Query _ _ _ _ _) as [s1 [c|]] eqn:E; [right|by left]. simpl.
    apply try_forever_from in E as (s2 & y & r & _ & Hr & Ha). apply Hsk in Hr as [sc <-]. simpl in Ha. by simplify_eq. }
  assert (Hg : group_of ShardCtrler.zero_Config key = Some None).
  { destruct (group_of_Some ShardCtrler.zero_Config key) as [g Hg]; [done|]. rewrite Hg. f_equal.
    revert Hg. unfold group_of. destruct (go_index _ _); simpl; [|done]. rewrite lookup_empty. by intros [= <-]. }
  assert (Hloop : ∀ R (ask : list string → S → S * option R) f s,
    ∃ s', ask_forever Call_Query ask f (MakeClerk ctrlers mk) key s = Some (s', MakeClerk ctrlers mk, None)).
  { intros R ask f. induction f as [|f IH]; intros s0; [by eexists|]. cbn [ask_forever].
    change (config (MakeClerk ctrlers mk)) with ShardCtrler.zero_Config. rewrite Hg. cbn [mbind option_bind].
    change (sm (MakeClerk ctrlers mk)) with (ShardCtrler.MakeClerk ctrlers).
    specialize (Hq f s0). destruct (ShardCtrler.Query _ _ _ _ _) as [s1 r]. simpl in Hq.
    destruct Hq as [-> | ->]; [by eexists|]. apply IH. }
  split; apply Hloop.
Qed.

(** ** Examples *)

(** One controller, [c]; one group with a server that has nothing to say and one that
    holds the key ["b"], which is in shard 8. *)
Definition ex_config : ShardCtrler.Config :=
  ShardCtrler.MkConfig 1 (replicate 10 7) {[7 := ["x"; "y"]]}.

Definition ex_ctl (x : string) : option ShardCtrler.QueryReply :=
  if String.eqb x "c" then Some (ShardCtrler.MkQueryReply false "OK" ex_config) else None.

Definition ex_get (x : string) : option GetReply :=
  if String.eqb x "y" then Some (MkGetReply OK "v") else None.

(** The ends are the names, and the number of calls is the state. *)
Definition ex_end (name : string) (s : nat) : nat * string := (S s, name).

Lemma Get_returns_witness :
  ∃ fuel s' ck', Get (λ (s : nat) x _, (S s, ex_ctl x)) (λ s x _, (S s, ex_get x)) fuel (MakeClerk ["c"] ex_end) "b" 0%nat
    = Some (s', ck', Some "v").
Proof.
  destruct (Get_returns (λ (s : nat) x _, (S s, ex_ctl x)) (λ s x _, (S s, ex_get x)) ex_ctl ex_get (MakeClerk ["c"] ex_end)
    "b" 0%nat "v") as [_ [_ H]].
  - intros s x. reflexivity.
  - intros name s. reflexivity.
  - intros x reply. unfold ex_ctl. destruct (String.eqb x "c"); [|discriminate]. intros Hr. injection Hr as <-. reflexivity.
  - reflexivity.
  - apply H. right. split; [reflexivity|]. exists ex_config. split; reflexivity.
Defined.

Lemma skeleton_never_serves_witness :
  ∃ s', Get (λ (s : nat) (x : string) _, (S s, Some (ShardCtrler.MkQueryReply false "" ShardCtrler.zero_Config)))
    (λ s x _, (S s, None)) 5 (MakeClerk ["c"] ex_end) "b" 0%nat = Some (s', MakeClerk ["c"] ex_end, None).
Proof.
  destruct (skeleton_never_serves (λ (s : nat) (x : string) _, (S s, Some (ShardCtrler.MkQueryReply false "" ShardCtrler.zero_Config)))
    (λ s x _, (S s, None)) (λ s x _, (S s, None)) ["c"] ex_end "b" "v" "Put" 5 0%nat) as [H _].
  - intros s x args r Hr. exists (ShardCtrler.StartServer 1 0). simpl in *. congruence.
  - exact H.
Defined.

End ShardKv.
