(* ===== verification/KvRaft.v ===== *)
(** * The replicated key/value service

    [src/6.5840/src/kvraft]: the messages, the clerk and the server, whose
    methods have no body yet apart from what starts and kills a server. *)
From S2P Require Import Prelude Raft.
Local Open Scope Z_scope.

Module KvRaft.

(** ** common.go *)

Definition OK : string := "OK".
Definition ErrNoKey : string := "ErrNoKey".
Definition ErrWrongLeader : string := "ErrWrongLeader".

Record PutAppendArgs := MkPutAppendArgs { pa_Key : string; pa_Value : string }.
Record PutAppendReply := MkPutAppendReply { pa_Err : string }.
Record GetArgs := MkGetArgs { g_Key : string }.
Record GetReply := MkGetReply { g_Err : string; g_Value : string }.

(** ** client.go *)

Definition nrand (bigx : Z) : Z := wrap_s 64 bigx.

Record Clerk {srv : Type} := MkClerk { servers : list srv }.
Arguments Clerk : clear implicits.

Definition MakeClerk {srv} (ends : list srv) : Clerk srv := MkClerk srv ends.

(** No server is asked. *)
Definition Clerk_Get {srv} (ck : Clerk srv) (key : string) : string := "".
Definition Clerk_PutAppend {srv} (ck : Clerk srv) (key value op : string) : Clerk srv := ck.
Definition Clerk_Put {srv} (ck : Clerk srv) (key value : string) : Clerk srv := Clerk_PutAppend ck key value "Put".
Definition Clerk_Append {srv} (ck : Clerk srv) (key value : string) : Clerk srv := Clerk_PutAppend ck key value "Append".

(** ** server.go *)

Record KVServer := MkKVServer { me : Z; rf : Raft.Raft; dead : Z; maxraftstate : Z }.

Definition Get (kv : KVServer) (args : GetArgs) (reply : GetReply) : KVServer * GetReply := (kv, reply).
Definition Put (kv : KVServer) (args : PutAppendArgs) (reply : PutAppendReply) : KVServer * PutAppendReply := (kv, reply).
Definition Append (kv : KVServer) (args : PutAppendArgs) (reply : PutAppendReply) : KVServer * PutAppendReply := (kv, reply).

Definition Kill (kv : KVServer) : KVServer := MkKVServer (me kv) (Raft.Kill (rf kv)) 1 (maxraftstate kv).

Definition killed (kv : KVServer) : bool := let z := dead kv in z =? 1.

Definition StartKVServer (servers : nat) (me maxraftstate : Z) : KVServer :=
  MkKVServer me (Raft.Make servers me) 0 maxraftstate.

End KvRaft.
