(* ===== verification/Visualization.v ===== *)
(** * The data of the visualization

    [src/6.5840/src/porcupine/visualization.go], [computeVisualizationData]: for every
    partition the operations with their times, the partial linearizations the
    checker reported, longest first, and for every operation which of them is
    the longest that has it. The text of the page around the data, its JSON and
    the file it is written to are not modelled. *)
From S2P Require Import Prelude Porcupine LinkedList Checker Linearizability CheckerProof CheckSingle Entries Parallel KvModel CheckerApi.
Import Porcupine Checker Linearizability CheckerProof CheckSingle Entries Parallel KvModel CheckerApi.
Local Open Scope Z_scope.

Module Visualization.

Record historyElement := HistoryElement {
  ClientId : Z;
  Start : Z;
  End_ : Z;
  Description : string;
}.

Definition zero_element : historyElement := HistoryElement 0 0 0 "".

Record linearizationStep := LinearizationStep {
  Index : Z;
  StateDescription : string;
}.

Record partitionVisualizationData := PartitionData {
  History : list historyElement;
  PartialLinearizations : list (list linearizationStep);
  Largest : gmap Z Z;
}.

(** The order [sort.Slice] is given: longer slices first. *)
Definition longer (a b : list Z) : bool := (length b <? length a)%nat.

#[export] Instance longer_StrictWeak : StrictWeak longer.
Proof.
  split; unfold longer; intros *; rewrite ?Nat.ltb_lt, ?Nat.ltb_ge; lia.
Qed.

Section data.
Context {V St : Type} (model : Model V St) (vnil : V) `{!GoSort longer}.

(** ** The operations *)

Record scan := Scan {
  sc_history : list historyElement;
  callValue : gmap Z V;
  returnValue : gmap Z V;
}.

(** Reading a map of interfaces: nil when the key is missing. *)
Definition get (m : gmap Z V) (i : Z) : V := default vnil (m !! i).

(** One entry; [None] is the panic of an index out of range, of a nil function
    or of the function itself. *)
Definition scan_entry (s : scan) (elem : entry V) : option scan :=
  x ← go_index (sc_history s) (id elem);
  if Bool.eqb (kind elem) callEntry then
    history ← go_update (sc_history s) (id elem) (HistoryElement (clientId elem) (time elem) (End_ x) (Description x));
    Some (Scan history (<[id elem := value elem]> (callValue s)) (returnValue s))
  else
    describe ← DescribeOperation model;
    d ← describe (get (callValue s) (id elem)) (value elem);
    history ← go_update (sc_history s) (id elem) (HistoryElement (ClientId x) (Start x) (time elem) d);
    Some (Scan history (callValue s) (<[id elem := value elem]> (returnValue s))).

Definition scan_history (es : list (entry V)) : option scan :=
  let n := (length es / 2)%nat in
  foldl (λ acc elem, s ← acc; scan_entry s elem) (Some (Scan (replicate n zero_element) ∅ ∅)) es.

(** ** The partial linearizations *)

Record largest := MkLargest {
  largestIndex : gmap Z Z;
  largestSize : gmap Z Z;
}.

Definition note_largest (i size : Z) (lg : largest) (histId : Z) : largest :=
  if default 0 (largestSize lg !! histId) <? size
  then MkLargest (<[histId := i]> (largestIndex lg)) (<[histId := size]> (largestSize lg))
  else lg.

(** The loop over one of them, [i]-th of its length [size]; [None] is also the
    panic of the code when the model rejects a step. *)
Fixpoint replay_partial (s : scan) (i size : Z) (partial : list Z) (state : St) (lg : largest)
    : option (list linearizationStep * largest) :=
  match partial with
  | [] => Some ([], lg)
  | histId :: partial =>
      '(ok, state) ← Step model state (get (callValue s) histId) (get (returnValue s) histId);
      if negb ok then None
      else
        describe ← DescribeState model;
        stateDesc ← describe state;
        '(steps, lg) ← replay_partial s i size partial state (note_largest i size lg histId);
        Some (LinearizationStep histId stateDesc :: steps, lg)
  end.

Fixpoint replay_partials (s : scan) (i : Z) (partials : list (list Z)) (lg : largest)
    : option (list (list linearizationStep) * largest) :=
  match partials with
  | [] => Some ([], lg)
  | partial :: partials =>
      '(l, lg) ← replay_partial s i (Z.of_nat (length partial)) partial (Init model) lg;
      '(ls, lg) ← replay_partials s (i + 1) partials lg;
      Some (l :: ls, lg)
  end.

Definition partition_data (es : list (entry V)) (partials : list (list Z)) : option partitionVisualizationData :=
  s ← scan_history es;
  '(ls, lg) ← replay_partials s 0 (gosort longer partials) (MkLargest ∅ ∅);
  Some (PartitionData (sc_history s) ls (largestIndex lg)).

End data.

(** The whole function; the partial linearizations of [info] are sorted in place. *)
Definition computeVisualizationData {V St : Type} `{!EqDecision St} (sprintf_v : V → string) (sprintf_st : St → string)
    `{!GoSort longer} (model : Model V St) (vnil : V) (info : linearizationInfo V)
    : option (list partitionVisualizationData * linearizationInfo V) :=
  let model := fillDefault sprintf_v sprintf_st model in
  data ← mapM (λ partition,
      es ← history info !! partition;
      partials ← partialLinearizations info !! partition;
      partition_data model vnil es partials) (seq 0 (length (history info)));
  Some (data, Info (history info)
                (imap (λ i partials, if decide (i < length (history info))%nat then gosort longer partials else partials)
                      (partialLinearizations info))).

(** ** The operations are described *)

Section proofs.
Context {V St : Type} (model : Model V St) (vnil : V) `{!GoSort longer}.
Context (describe_op : V → V → option string) (describe_state : St → option string).
Context (Hop : DescribeOperation model = Some describe_op) (Hst : DescribeState model = Some describe_state).
Context (es : list (entry V)) (HW : wf_history es).

(** The descriptions do not panic on this history. *)
Definition describes_total : Prop :=
  (∀ c r, c ∈ es → r ∈ es → kind c = callEntry → kind r = returnEntry → id c = id r → is_Some (describe_op (value c) (value r))) ∧
  (∀ st, is_Some (describe_state st)).

Context (Hdesc : describes_total).

(** What the scan knows after the entries [pre]. *)
Record scanned (pre : list (entry V)) (s : scan (V:=V)) : Prop := Scanned {
  sn_length : length (sc_history s) = (length es / 2)%nat;
  sn_call c : c ∈ pre → kind c = callEntry →
    callValue s !! id c = Some (value c) ∧
    ∃ x, go_index (sc_history s) (id c) = Some x ∧ ClientId x = clientId c ∧ Start x = time c;
  sn_return r : r ∈ pre → kind r = returnEntry →
    returnValue s !! id r = Some (value r) ∧
    ∃ x c, go_index (sc_history s) (id r) = Some x ∧ End_ x = time r ∧
      c ∈ pre ∧ kind c = callEntry ∧ id c = id r ∧ describe_op (value c) (value r) = Some (Description x);
}.

Lemma id_range e : e ∈ es → 0 ≤ id e < Z.of_nat (length es / 2).
Proof using All. intros He. rewrite Nat2Z.inj_div. apply (wfh_ids es HW). eauto. Qed.

Lemma go_index_update {A} (l : list A) (i j : Z) x :
  0 ≤ i < Z.of_nat (length l) → 0 ≤ j →
  go_index (<[Z.to_nat i := x]> l) j = if decide (i = j) then Some x else go_index l j.
Proof.
  intros Hi Hj. unfold go_index. z_tests. case_decide as E.
  - subst j. apply list_lookup_insert_eq. lia.
  - rewrite list_lookup_insert_ne by lia. done.
Qed.

Lemma distinct_ids pre e suf f : es = pre ++ e :: suf → f ∈ pre → kind f = kind e → id f ≠ id e.
Proof using All.
  intros Hes [p Hp]%list_elem_of_lookup Hk Hi. pose proof (lookup_lt_Some _ _ _ Hp).
  assert (p = length pre); [|lia]. eapply (wfh_unique es HW p (length pre) f e); [..|done|done].
  - rewrite Hes. by apply lookup_app_l_Some.
  - rewrite Hes. by apply list_lookup_middle.
Qed.

Lemma scan_call pre e suf s :
  es = pre ++ e :: suf → kind e = callEntry → scanned pre s →
  ∃ s', scan_entry model vnil s e = Some s' ∧ scanned (pre ++ [e]) s'.
Proof using All.
  intros Hes Hk [Hl Hc Hr].
  assert (He : e ∈ es) by (rewrite Hes; set_solver). pose proof (id_range e He) as Hrange.
  assert (Hnc : ∀ c, c ∈ pre → kind c = callEntry → id c ≠ id e) by (intros; eapply distinct_ids; [done..|congruence]).
  unfold scan_entry.
  destruct (proj2 (go_index_bound (sc_history s) (id e))) as [x Hx]; [rewrite Hl; lia|]. rewrite Hx. cbn [mbind option_bind].
  rewrite Hk. cbn [Bool.eqb callEntry]. rewrite go_update_in by (rewrite Hl; lia). cbn [mbind option_bind].
  eexists. split; [done|]. split; simpl; [by rewrite length_insert|..].
  - intros c [Hin| ->%list_elem_of_singleton]%elem_of_app Hkc.
    + destruct (Hc c Hin Hkc) as (H1 & y & Hy & H2). pose proof (Hnc c Hin Hkc).
      rewrite lookup_insert_ne by congruence. split; [done|]. exists y.
      pose proof (id_range c ltac:(rewrite Hes; set_solver)). rewrite go_index_update by (rewrite ?Hl; lia).
      rewrite decide_False by congruence. done.
    + rewrite lookup_insert_eq. split; [done|]. eexists.
      rewrite go_index_update by (rewrite ?Hl; lia). by rewrite decide_True.
  - intros r [Hin| ->%list_elem_of_singleton]%elem_of_app Hkr; [|by rewrite Hk in Hkr].
    destruct (Hr r Hin Hkr) as (H1 & y & c & Hy & Ht & Hcin & Hkc & Hid & Hd). pose proof (Hnc c Hcin Hkc).
    split; [done|]. exists y, c. pose proof (id_range r ltac:(rewrite Hes; set_solver)).
    rewrite go_index_update by (rewrite ?Hl; lia). rewrite decide_False by congruence.
    split_and!; [done|done|by apply elem_of_app; left|done|done|done].
Qed.

Lemma scan_return pre e suf s :
  es = pre ++ e :: suf → kind e = returnEntry → scanned pre s →
  ∃ s', scan_entry model vnil s e = Some s' ∧ scanned (pre ++ [e]) s'.
Proof using All.
  intros Hes Hk [Hl Hc Hr].
  assert (He : e ∈ es) by (rewrite Hes; set_solver). pose proof (id_range e He) as Hrange.
  assert (Hat : es !! length pre = Some e) by (rewrite Hes; by apply list_lookup_middle).
  destruct (wfh_called es HW _ _ Hat Hk) as (p & c0 & Hlt & Hp & Hkc0 & Hid0).
  assert (Hc0 : c0 ∈ pre).
  { rewrite Hes, lookup_app_l in Hp by done. by eapply list_elem_of_lookup_2. }
  destruct (Hc c0 Hc0 Hkc0) as (Hcv & x & Hx & Hx1 & Hx2). rewrite Hid0 in Hcv, Hx.
  destruct (proj1 Hdesc c0 e) as [d Hd]; [rewrite Hes; set_solver|done..|].
  unfold scan_entry, get. rewrite Hx. cbn [mbind option_bind]. rewrite Hk, Hop, Hcv. cbn [Bool.eqb callEntry returnEntry mbind option_bind default from_option].
  change (default (value c0) None) with (value c0). simpl. rewrite Hd. cbn [mbind option_bind].
  rewrite go_update_in by (rewrite Hl; lia). cbn [mbind option_bind].
  eexists. split; [done|]. split; simpl; [by rewrite length_insert|..].
  - intros c [Hin| ->%list_elem_of_singleton]%elem_of_app Hkc; [|by rewrite Hk in Hkc].
    destruct (Hc c Hin Hkc) as (H1 & y & Hy & H2). split; [done|].
    pose proof (id_range c ltac:(rewrite Hes; set_solver)). rewrite go_index_update by (rewrite ?Hl; lia).
    case_decide as E; [|by exists y]. rewrite E in Hx. rewrite Hx in Hy. injection Hy as <-. by eexists.
  - intros r [Hin| ->%list_elem_of_singleton]%elem_of_app Hkr.
    + destruct (Hr r Hin Hkr) as (H1 & y & c & Hy & Ht & Hcin & Hkc & Hid & Hdr).
      assert (id r ≠ id e) by (eapply distinct_ids; [done..|congruence]).
      rewrite lookup_insert_ne by congruence. split; [done|]. exists y, c.
      pose proof (id_range r ltac:(rewrite Hes; set_solver)).
      rewrite go_index_update by (rewrite ?Hl; lia). rewrite decide_False by congruence.
    split_and!; [done|done|by apply elem_of_app; left|done|done|done].
    + rewrite lookup_insert_eq. split; [done|]. eexists _, c0.
      rewrite go_index_update by (rewrite ?Hl; lia). rewrite decide_True by done.
      split_and!; [done|done|by apply elem_of_app; left|done|done|done].
Qed.

Lemma scan_ok : ∃ s, scan_history model vnil es = Some s ∧ scanned es s.
Proof using All.
  unfold scan_history.
  assert (H : ∀ pre suf, es = pre ++ suf → ∃ s,
    foldl (λ acc elem, s ← acc; scan_entry model vnil s elem) (Some (Scan (replicate (length es / 2) zero_element) ∅ ∅)) pre = Some s ∧
    scanned pre s).
  { intros pre. induction pre as [|e pre IH] using rev_ind; intros suf Hes.
    - eexists. split; [done|]. split; simpl; [by rewrite length_replicate|set_solver..].
    - rewrite <- app_assoc in Hes. destruct (IH _ Hes) as (s & E & Hs). rewrite foldl_app, E. simpl.
      destruct (kind_cases e) as [Hk|Hk]; [by eapply scan_call|by eapply scan_return]. }
  apply (H es []). by rewrite app_nil_r.
Qed.

(** ** The partial linearizations are replayed *)

(** After the partial linearizations [dn] every operation they have is noted with
    the first that has it, and its length. *)
Definition noted (dn : list (list Z)) (lg : largest) : Prop :=
  (∀ x k p, dn !! k = Some p → x ∈ p → (∀ j q, (j < k)%nat → dn !! j = Some q → x ∉ q) →
     largestIndex lg !! x = Some (Z.of_nat k) ∧ largestSize lg !! x = Some (Z.of_nat (length p))) ∧
  (∀ x, (∀ p, p ∈ dn → x ∉ p) → largestIndex lg !! x = None ∧ largestSize lg !! x = None).

Lemma note_kept i size l lg x :
  x ∉ l ∨ size ≤ default 0 (largestSize lg !! x) →
  largestIndex (foldl (note_largest i size) lg l) !! x = largestIndex lg !! x ∧
  largestSize (foldl (note_largest i size) lg l) !! x = largestSize lg !! x.
Proof.
  revert lg. induction l as [|y l IH]; intros lg Hx; [done|]. simpl.
  assert (E : largestIndex (note_largest i size lg y) !! x = largestIndex lg !! x ∧
              largestSize (note_largest i size lg y) !! x = largestSize lg !! x).
  { unfold note_largest. destruct (Z.ltb_spec (default 0 (largestSize lg !! y)) size); [|done]. simpl.
    rewrite !lookup_insert_ne; [done|..]; intros ->; destruct Hx as [Hx|Hx]; [set_solver|lia|set_solver|lia]. }
  destruct E as [E1 E2]. rewrite <- E1, <- E2. apply IH. rewrite E2. destruct Hx; [left; set_solver|by right].
Qed.

Lemma note_new i size l lg x :
  x ∈ l → default 0 (largestSize lg !! x) < size →
  largestIndex (foldl (note_largest i size) lg l) !! x = Some i ∧
  largestSize (foldl (note_largest i size) lg l) !! x = Some size.
Proof.
  revert lg. induction l as [|y l IH]; intros lg Hx Hs; [by apply elem_of_nil in Hx|]. simpl.
  destruct (decide (x = y)) as [<-|Hne].
  - unfold note_largest at 2 4. z_tests.
    destruct (note_kept i size l (MkLargest (<[x := i]> (largestIndex lg)) (<[x := size]> (largestSize lg))) x) as [-> ->].
    + right. simpl. rewrite lookup_insert_eq. simpl. lia.
    + simpl. by rewrite !lookup_insert_eq.
  - apply IH; [set_solver|]. unfold note_largest. destruct (_ <? size); [|done]. simpl. by rewrite lookup_insert_ne.
Qed.

Lemma noted_snoc dn p lg :
  noted dn lg → (∀ q, q ∈ dn → (length p <= length q)%nat) →
  noted (dn ++ [p]) (foldl (note_largest (Z.of_nat (length dn)) (Z.of_nat (length p))) lg p).
Proof.
  intros [Hsome Hnone] Hlen. split.
  - intros x k q [Hk|[-> <-]]%lookup_snoc_Some Hx Hfirst.
    + destruct Hk as [Hlt Hk]. destruct (Hsome x k q Hk Hx) as [H1 H2].
      { intros j q' Hj Hq'. apply (Hfirst j q' Hj). by apply lookup_app_l_Some. }
      destruct (note_kept (Z.of_nat (length dn)) (Z.of_nat (length p)) p lg x) as [-> ->]; [|done].
      right. rewrite H2. simpl. specialize (Hlen q ltac:(by eapply list_elem_of_lookup_2)). lia.
    + assert (Hno : ∀ q, q ∈ dn → x ∉ q).
      { intros q [j Hq]%list_elem_of_lookup. apply (Hfirst j q); [by eapply lookup_lt_Some|by apply lookup_app_l_Some]. }
      apply note_new; [done|]. rewrite (proj2 (Hnone x Hno)). simpl. destruct p; [by apply elem_of_nil in Hx|simpl; lia].
  - intros x Hx. destruct (note_kept (Z.of_nat (length dn)) (Z.of_nat (length p)) p lg x) as [-> ->]; [|apply Hnone; set_solver].
    left. apply Hx. set_solver.
Qed.

(** The operations of a partial linearization. *)
Definition ids_of (l : list linearizationStep) : list Z := Index <$> l.

Lemma replay_partial_ok s i size ids st lg : scanned es s → accepts model es st ids →
  ∃ steps, replay_partial model vnil s i size ids st lg = Some (steps, foldl (note_largest i size) lg ids) ∧
           ids_of steps = ids.
Proof using All.
  intros Hs Hacc. revert lg. induction Hacc as [st|st x ids c r st' Hc Hkc Hic Hr Hkr Hir Hstep _ IH]; intros lg.
  { by exists []. }
  destruct (sn_call _ _ Hs c Hc Hkc) as [Hcv _]. destruct (sn_return _ _ Hs r Hr Hkr) as [Hrv _].
  rewrite Hic in Hcv. rewrite Hir in Hrv. destruct (proj2 Hdesc st') as [d Hd].
  destruct (IH (note_largest i size lg x)) as (steps & E & Hsteps).
  exists (LinearizationStep x d :: steps). split; [|unfold ids_of in *; simpl; by rewrite <- Hsteps].
  cbn [replay_partial]. unfold get. rewrite Hcv, Hrv. simpl. rewrite Hstep. simpl.
  rewrite Hst. simpl. rewrite Hd. simpl. by rewrite E.
Qed.

Lemma longer_lookup (l : list (list Z)) i j p q :
  StronglySorted (λ a b, longer b a = false) l → (i < j)%nat → l !! i = Some p → l !! j = Some q →
  (length q <= length p)%nat.
Proof using Type.
  intros Hs Hij Hi Hj. apply Nat.ltb_ge.
  exact (StronglySorted_lookup (λ a b, longer b a = false) l i j p q Hs Hij Hi Hj).
Qed.

Lemma replay_partials_ok s partials dn lg :
  scanned es s → (∀ p, p ∈ partials → partial_linearization model es p) →
  StronglySorted (λ a b, longer b a = false) (dn ++ partials) → noted dn lg →
  ∃ ls lg', replay_partials model vnil s (Z.of_nat (length dn)) partials lg = Some (ls, lg') ∧
            ids_of <$> ls = partials ∧ noted (dn ++ partials) lg'.
Proof using All.
  intros Hs. revert dn lg. induction partials as [|p partials IH]; intros dn lg Hp Hsort Hn.
  { exists [], lg. rewrite app_nil_r. done. }
  destruct (Hp p) as (_ & _ & Hacc & _); [set_solver|].
  destruct (replay_partial_ok s (Z.of_nat (length dn)) (Z.of_nat (length p)) p (Init model) lg Hs Hacc) as (steps & E & Hst').
  destruct (IH (dn ++ [p]) (foldl (note_largest (Z.of_nat (length dn)) (Z.of_nat (length p))) lg p)) as (ls & lg' & E' & Hls & Hn').
  - intros q Hq. apply Hp. set_solver.
  - by rewrite <- app_assoc.
  - apply noted_snoc; [done|]. intros q [k Hq]%list_elem_of_lookup.
    eapply (longer_lookup _ k (length dn) q p); [exact Hsort|..].
    + apply lookup_lt_Some in Hq. exact Hq.
    + apply lookup_app_l_Some. exact Hq.
    + by apply list_lookup_middle.
  - exists (steps :: ls), lg'. rewrite <- app_assoc in Hn'. split_and!; [|simpl; f_equal; done|done].
    cbn [replay_partials]. rewrite E. cbn [mbind option_bind].
    rewrite length_app in E'. simpl in E'. replace (Z.of_nat (length dn) + 1) with (Z.of_nat (length dn + 1)) by lia. by rewrite E'.
Qed.

(** The data of a partition show all its operations and the partial linearizations. *)
Record shows (partials : list (list Z)) (d : partitionVisualizationData) : Prop := Shows {
  sh_operation c r : c ∈ es → r ∈ es → kind c = callEntry → kind r = returnEntry → id c = id r →
    ∃ x, go_index (History d) (id c) = Some x ∧ ClientId x = clientId c ∧ Start x = time c ∧ End_ x = time r ∧
         describe_op (value c) (value r) = Some (Description x);
  sh_partials : ids_of <$> PartialLinearizations d ≡ₚ partials;
  sh_sorted : StronglySorted (λ a b, (length b <= length a)%nat) (PartialLinearizations d);
  sh_largest x k : Largest d !! x = Some k →
    ∃ l, go_index (PartialLinearizations d) k = Some l ∧ x ∈ (ids_of l) ∧
         ∀ p, p ∈ partials → x ∈ p → (length p <= length l)%nat;
  sh_complete x p : p ∈ partials → x ∈ p → is_Some (Largest d !! x);
}.

Lemma lengths_partials (ls : list (list linearizationStep)) partials :
  ids_of <$> ls = partials →
  StronglySorted (λ a b, longer b a = false) partials → StronglySorted (λ a b, (length b <= length a)%nat) ls.
Proof using Type.
  intros <-. induction ls as [|l ls IH]; simpl; intros Hs; [constructor|].
  apply StronglySorted_inv in Hs as [Hs Hall]. constructor; [by apply IH|].
  rewrite Forall_fmap in Hall. eapply Forall_impl; [exact Hall|]. intros x. unfold compose, longer, ids_of.
  rewrite !length_fmap, Nat.ltb_ge. done.
Qed.

Lemma first_with (ps : list (list Z)) x p :
  p ∈ ps → x ∈ p → ∃ k q, ps !! k = Some q ∧ x ∈ q ∧ ∀ j q', (j < k)%nat → ps !! j = Some q' → x ∉ q'.
Proof using Type.
  intros Hp Hx. assert (He : Exists (λ q, x ∈ q) ps) by (apply Exists_exists; eauto). clear p Hp Hx.
  induction ps as [|q ps IH]; [by apply Exists_nil in He|]. destruct (decide (x ∈ q)) as [Hq|Hq].
  { exists 0%nat, q. split_and!; [done..|lia]. }
  apply Exists_cons in He as [?|He]; [done|]. destruct (IH He) as (k & q' & Hk & Hx & Hf).
  exists (S k), q'. split_and!; [done..|]. intros [|j] q2 Hj; [by intros [= <-]|]. apply Hf. lia.
Qed.

Lemma partition_data_ok partials : (∀ p, p ∈ partials → partial_linearization model es p) →
  ∃ d, partition_data model vnil es partials = Some d ∧ shows partials d.
Proof using All.
  intros Hp. destruct scan_ok as (s & Es & Hs). pose proof (gosort_perm (less:=longer) partials) as Hperm.
  pose proof (gosort_sorted (less:=longer) partials) as Hsort.
  destruct (replay_partials_ok s (gosort longer partials) [] (MkLargest ∅ ∅) Hs) as (ls & lg & E & Hls & Hsome & Hnone).
  { intros p. rewrite Hperm. apply Hp. }
  { exact Hsort. }
  { split; [by intros x k p Hk|]. intros x _. simpl. by rewrite !lookup_empty. }
  cbn [length app] in E, Hsome, Hnone. exists (PartitionData (sc_history s) ls (largestIndex lg)). split.
  { unfold partition_data. rewrite Es. cbn [mbind option_bind]. change 0 with (Z.of_nat 0). by rewrite E. }
  split; simpl.
  - intros c r Hc Hr Hkc Hkr Hid. destruct (sn_call _ _ Hs c Hc Hkc) as (_ & x & Hx & H1 & H2).
    destruct (sn_return _ _ Hs r Hr Hkr) as (_ & x' & c' & Hx' & H3 & Hc' & Hkc' & Hid' & Hd).
    rewrite <- Hid in Hx'. simplify_eq. exists x. assert (c' = c) as ->; [|done].
    apply list_elem_of_lookup in Hc as [a Ha], Hc' as [b Hb].
    assert (a = b) as ->; [|congruence]. eapply (wfh_unique es HW a b c c'); congruence.
  - by rewrite Hls.
  - by eapply lengths_partials.
  - intros x k Hk. destruct (decide (Exists (λ q, x ∈ q) (gosort longer partials))) as [He|He].
    + apply Exists_exists in He as (p & Hpin & Hxp). destruct (first_with _ x p Hpin Hxp) as (j & q & Hj & Hxq & Hf).
      destruct (Hsome x j q Hj Hxq Hf) as [Hi _]. simplify_eq. pose proof Hj as Hj'.
      rewrite <- Hls, list_lookup_fmap in Hj'. apply fmap_Some in Hj' as (l & Hl & ->).
      exists l. split_and!; [unfold go_index; z_tests; by rewrite Nat2Z.id|done|].
      intros p' Hp' Hxp'. rewrite <- Hperm in Hp'. apply list_elem_of_lookup in Hp' as [j' Hj'].
      destruct (decide (j' = j)) as [->|]; [rewrite Hj' in Hj; injection Hj as ->; by unfold ids_of; rewrite length_fmap|].
      destruct (decide (j' < j)%nat) as [Hlt|]; [by destruct (Hf j' p' Hlt Hj')|].
      pose proof (longer_lookup _ j j' (ids_of l) p' Hsort) as Hl'. unfold ids_of in Hl' at 2.
      rewrite length_fmap in Hl'. apply Hl'; [lia|done..].
    + destruct (Hnone x) as [E1 _]; [|congruence]. intros p Hpin Hx. apply He, Exists_exists. eauto.
  - intros x p Hpin Hx. rewrite <- Hperm in Hpin. destruct (first_with _ x p Hpin Hx) as (j & q & Hj & Hxq & Hf).
    destruct (Hsome x j q Hj Hxq Hf) as [-> _]. eauto.
Qed.

End proofs.

Lemma mapM_seq {B} (f : nat → option B) n (P : nat → B → Prop) :
  (∀ i, (i < n)%nat → ∃ b, f i = Some b ∧ P i b) →
  ∃ l, mapM f (seq 0 n) = Some l ∧ n = length l ∧ ∀ i b, l !! i = Some b → P i b.
Proof.
  intros H. destruct (mapM f (seq 0 n)) as [l|] eqn:E.
  - exists l. split; [done|]. apply mapM_Some in E. split; [apply Forall2_length in E; by rewrite length_seq in E|].
    intros i b Hb. destruct (Forall2_lookup_r _ _ _ _ _ E Hb) as (j & [-> Hj]%lookup_seq & Hf).
    cbn [Nat.add] in Hf. destruct (H i Hj) as (b' & Hb' & HP). congruence.
  - apply mapM_None, Exists_exists in E as (j & [_ Hj]%elem_of_seq & Hn). destruct (H j Hj) as (b & Hb & _). congruence.
Qed.

(** ** What a verbose check without a timeout collects *)

(** Without a timeout, and when it collects the partial linearizations, the loop
    over [select] ends only when it has received every result. *)
Lemma select_loop_all num res sched w w' :
  wait_ok num res w → select_loop num res true 0 sched w = Some w' → ∀ i, (i < num)%nat → i ∈ w_got w'.
Proof.
  revert w. induction sched as [|[i|] sched IH]; intros w Hw; [done| |done]. cbn [select_loop].
  case_decide as Hi; [|done]. destruct Hi as [Hi Hni].
  pose proof (wait_ok_result num res w i Hw Hi Hni) as Hw2. rewrite andb_false_r.
  destruct (Nat.leb_spec num (S (w_count w))) as [Hle|Hgt]; [|by apply IH].
  intros [= <-] j Hj. destruct Hw2 as (Hc & Hnd & Hlt & _). cbn [w_got w_count] in *.
  assert (Hp : w_got w ++ [i] ≡ₚ seq 0 num).
  { apply submseteq_length_Permutation.
    - apply NoDup_submseteq; [done|]. intros x Hx%Hlt. apply elem_of_seq. lia.
    - rewrite length_seq, <- Hc. lia. }
  rewrite Hp. apply elem_of_seq. lia.
Qed.

Section collected.
Context {V St : Type} `{!EqDecision St} (model : Model V St) (eqf : St → St → bool) (R : relation St).
Context (HE : equal_ok model eqf R) (vnil : V).

Lemma checkSingle_lists fuel es ok lg sq : partition_ok model es →
  checkSingle model vnil (λ _, false) fuel es true = Done (ok, lg, sq) →
  ∀ p, p ∈ partials lg sq → partial_linearization model es p.
Proof using HE.
  intros (HW & HS & Hl) Hrun.
  destruct (checkSingle_run model eqf R HE vnil es HW HS Hl true (λ _, false)) as (f0 & ok' & lg' & sq' & H1 & _ & _ & Hp);
    [done|].
  apply (checkSingle_mono model vnil _ _ _ _ fuel (f0 + fuel)%nat) in Hrun; [|lia].
  rewrite H1 in Hrun by lia. injection Hrun as -> -> ->.
  intros p (r & Hr & Hsq)%list_elem_of_omap. rewrite elem_of_remove_dups in Hr.
  apply list_elem_of_omap in Hr as (v & [i Hi]%list_elem_of_lookup & ->).
  destruct (Hp i r Hi) as (ids & Hids & _ & Hpl). by simplify_eq.
Qed.

(** What [computeVisualizationData] is given. *)
Definition collected (hist : list (list (entry V))) (info : linearizationInfo V) : Prop :=
  history info = hist ∧ length (partialLinearizations info) = length hist ∧
  ∀ i es ps p, hist !! i = Some es → partialLinearizations info !! i = Some ps → p ∈ ps → partial_linearization model es p.

Lemma checkParallel_collects hist fuel kills sched r info : (∀ es, es ∈ hist → partition_ok model es) →
  checkParallel model vnil hist true 0 fuel kills sched = Some (r, info) →
  ∃ info', info = Some info' ∧ collected hist info'.
Proof using HE.
  intros Hall. unfold checkParallel. destruct (mapM _ _) as [results|]; [|done]. cbn [mbind option_bind].
  destruct (select_loop _ _ _ _ _ _) as [w|] eqn:Es; [|done]. cbn [mbind option_bind].
  pose proof (select_loop_all _ _ _ _ _ (wait_ok_init _ _) Es) as Hgot. clear Es.
  destruct (mapM _ _) as [final|] eqn:Ef; [|done]. cbn [mbind option_bind]. intros [= <- <-].
  eexists. split; [done|]. split_and!; simpl; [done|..].
  { rewrite length_fmap. apply mapM_Some, Forall2_length in Ef. by rewrite <- Ef, length_seq. }
  intros i es ps p Hi Hps Hp. rewrite list_lookup_fmap in Hps. apply fmap_Some in Hps as (f & Hf & ->).
  apply mapM_Some in Ef. destruct (Forall2_lookup_r _ _ _ _ _ Ef Hf) as (j & Hj & Hrun).
  apply lookup_seq in Hj as [-> Hlt]. cbn [Nat.add] in Hrun. rewrite decide_True in Hrun by (apply Hgot; lia).
  rewrite Hi in Hrun. cbn [mbind option_bind] in Hrun. destruct (checkSingle _ _ _ _ _ _) as [[[ok lg] sq]| |] eqn:E; [|done..].
  injection Hrun as <-. eapply checkSingle_lists; [|done..]. apply Hall. by eapply list_elem_of_lookup_2.
Qed.
End collected.

Section claim.
Context {V St : Type} `{!EqDecision St} (model : Model V St) (eqf : St → St → bool) (R : relation St) (vnil : V).
Context (sprintf_v : V → string) (sprintf_st : St → string) `{!GoSort longer} `{!GoSort (Less (V:=V))}.

(** C26: after a verbose check without a timeout, whatever the answer and however
    the goroutines were scheduled, [computeVisualizationData] does not panic: no
    step of a partial linearization it replays is rejected by the model, and
    for every partition its data have every operation with its client, its times and its
    description, the partial linearizations the checker found, longest first, and for every
    operation of one of them the index of a longest one that contains it. *)
Theorem computeVisualizationData_shows fuel kills sched hist parts r info describe_op describe_state :
  equal_ok (fillDefault sprintf_v sprintf_st model) eqf R →
  partition_of model hist = Some parts → (∀ p, p ∈ parts → ops_ok model p) →
  DescribeOperation (fillDefault sprintf_v sprintf_st model) = Some describe_op →
  DescribeState (fillDefault sprintf_v sprintf_st model) = Some describe_state →
  (∀ p, p ∈ parts → describes_total describe_op describe_state (makeEntries p)) →
  CheckOperationsVerbose model vnil sprintf_v sprintf_st fuel kills sched hist 0 = Some (r, info) →
  ∃ info' data info'', info = Some info' ∧
    computeVisualizationData sprintf_v sprintf_st model vnil info' = Some (data, info'') ∧
    Forall2 (λ p d, ∃ i ps, parts !! i = Some p ∧ partialLinearizations info' !! i = Some ps ∧
                     shows describe_op (makeEntries p) ps d) parts data.
Proof.
  intros HE Hparts Hok Hop Hst Hdesc Hrun. unfold CheckOperationsVerbose in Hrun.
  rewrite (checkOperations_parts model vnil sprintf_v sprintf_st fuel kills sched hist parts true 0 Hparts) in Hrun.
  assert (Hall : ∀ es, es ∈ makeEntries <$> parts → partition_ok (fillDefault sprintf_v sprintf_st model) es).
  { intros es (p & -> & Hin)%list_elem_of_fmap. by apply ops_ok_partition, Hok. }
  destruct (checkParallel_collects _ eqf R HE vnil _ _ _ _ _ _ Hall Hrun) as (info' & -> & Hh & Hl & Hp).
  rewrite length_fmap in Hl. exists info'.
  assert (Hone : ∀ i p, parts !! i = Some p → ∃ ps d, partialLinearizations info' !! i = Some ps ∧
    partition_data (fillDefault sprintf_v sprintf_st model) vnil (makeEntries p) ps = Some d ∧
    shows describe_op (makeEntries p) ps d).
  { intros i p Hi. destruct (lookup_lt_is_Some_2 (partialLinearizations info') i) as [ps Hps].
    { rewrite Hl. by eapply lookup_lt_Some. }
    assert (Hin : p ∈ parts) by (by eapply list_elem_of_lookup_2).
    destruct (partition_data_ok (fillDefault sprintf_v sprintf_st model) vnil describe_op describe_state Hop Hst
      (makeEntries p) ltac:(by apply makeEntries_wf, Hok) (Hdesc p Hin) ps) as (d & Hd & Hs); [|by exists ps, d].
    intros q. apply (Hp i); [|done]. by rewrite list_lookup_fmap, Hi. }
  destruct (mapM_seq (λ partition, es ← history info' !! partition;
      partials ← partialLinearizations info' !! partition;
      partition_data (fillDefault sprintf_v sprintf_st model) vnil es partials) (length parts)
    (λ i d, ∃ p ps, parts !! i = Some p ∧ partialLinearizations info' !! i = Some ps ∧
                    shows describe_op (makeEntries p) ps d)) as (data & Hm & Hlen & Hd).
  { intros i [p Hi]%lookup_lt_is_Some_2. destruct (Hone i p Hi) as (ps & d & Hps & Hd & Hs).
    exists d. rewrite Hh, list_lookup_fmap, Hi, Hps. split; [exact Hd|]. by exists p, ps. }
  eexists data, _. split; [done|]. split.
  { unfold computeVisualizationData. rewrite Hh at 1. rewrite length_fmap, Hm. done. }
  apply Forall2_same_length_lookup_2; [done|]. intros i p d Hi Hdi.
  destruct (Hd i d Hdi) as (p' & ps & Hi' & Hps & Hs). simplify_eq. eauto.
Qed.
End claim.

Lemma computeVisualizationData_shows_witness :
  ∃ info data,
    CheckOperationsVerbose KvModel INil no_text no_text 20 (λ _ _, false) [Result 0] example_ops 0 = Some (Ok, Some info) ∧
    option_map fst (computeVisualizationData no_text no_text KvModel INil info) = Some [data] ∧
    History data = [HistoryElement 0 0 30 "put('a', '1')"; HistoryElement 1 20 50 "get('a') -> '1'"] ∧
    map ids_of (PartialLinearizations data) = [[0; 1]] ∧ Largest data !! 1 = Some 0 ∧
    shows KvModel_DescribeOperation (makeEntries example_ops) [[0; 1]] data.
Proof.
  destruct (CheckOperationsVerbose KvModel INil no_text no_text 20 (λ _ _, false) [Result 0] example_ops 0)
    as [[r info]|] eqn:E; [|vm_compute in E; discriminate].
  destruct (computeVisualizationData_shows KvModel ShallowEqual eq INil no_text no_text 20 (λ _ _, false) [Result 0]
    example_ops [example_ops] r info KvModel_DescribeOperation (λ _, Some ""))
    as (info' & data & info'' & Hi & Hd & Hf); [..|exact E|].
  - apply KvModel_equal_ok.
  - vm_compute. reflexivity.
  - intros p ->%list_elem_of_singleton. split_and!.
    + apply KvModel_steps_total. intros o Ho. by apply example_ops_ok.
    + intros o Ho. by apply example_ops_ok.
    + vm_compute. reflexivity.
  - reflexivity.
  - reflexivity.
  - intros p ->%list_elem_of_singleton. split; [|by intros st; exists ""].
    intros c r' Hc Hr'. revert Hc Hr'. vm_compute (makeEntries _). rewrite !elem_of_cons, !elem_of_nil.
    intros [-> | [-> | [-> | [-> | []]]]] [-> | [-> | [-> | [-> | []]]]]; try done; intros; vm_compute; eauto.
  - vm_compute in E. injection E as <- <-. injection Hi as <-.
    inversion Hf as [|? d ? ds (i & ps & _ & Hps & Hs) Hf' E1 E2]; subst. inversion Hf'; subst.
    eexists _, d. split; [reflexivity|]. rewrite Hd. vm_compute in Hd. injection Hd as <- _.
    destruct i as [|i]; [|done]. injection Hps as <-. split_and!; [reflexivity..|exact Hs].
Defined.
End Visualization.
