(* ===== verification/RaftConfig.v ===== *)
(** * The tester of Raft

    [src/6.5840/src/raft/config.go]: the servers under test, their ends on the
    simulated network, who is connected, what each server has applied, and the checks
    the tests are written with. An operation works on a [world]: the fields of
    [config] and the objects they point to. What the tester reads while the
    servers run is an argument: a sequence of worlds, indexed by a counter that
    every read and every sleep advances, and a clock. The calls to [rand] only
    choose how long to sleep. *)
From S2P Require Import Prelude LabGob LabRpc Persister Raft.
Import LabGob LabRpc.
Local Open Scope Z_scope.

Module RaftConfig.

(** What [checkLogs], [ingestSnap] and the appliers report. *)
Inductive apply_error (V : Type) :=
| CommitMismatch (index : Z) (i : nat) (command : V) (j : nat) (old : V)
| OutOfOrder (i : nat) (index : Z)
| SnapshotIndexMismatch (i : nat)
| NilSnapshot
| SnapshotDecodeError.
Arguments CommitMismatch {_} _ _ _ _ _.
Arguments OutOfOrder {_} _ _.
Arguments SnapshotIndexMismatch {_} _.
Arguments NilSnapshot {_}.
Arguments SnapshotDecodeError {_}.

(** Why a test fails; the last two are found by the tester of the sharded service. *)
Inductive failure (V : Type) :=
| TookTooLong
| ManyLeaders (term : Z) (count : nat)
| NoLeader
| TermsDiffer
| UnexpectedLeader (i : nat)
| ApplyError (e : apply_error V)
| ValuesDiffer (index : Z)
| TooFewDecided (nd : nat) (index : Z)
| NoAgreement
| LogTooBig (size : nat) (limit : Z)
| SnapshotNotEmpty.
Arguments TookTooLong {_}.
Arguments ManyLeaders {_} _ _.
Arguments NoLeader {_}.
Arguments TermsDiffer {_}.
Arguments UnexpectedLeader {_} _.
Arguments ApplyError {_} _.
Arguments ValuesDiffer {_} _.
Arguments TooFewDecided {_} _ _.
Arguments NoAgreement {_}.
Arguments LogTooBig {_} _ _.
Arguments SnapshotNotEmpty {_}.

(** How an operation ends: a panic, [log.Fatalf] with the error of an applier or
    of labrpc, [t.Fatalf], or a value. A loop that is given too little fuel is
    [NoFuel]. *)
Inductive result (V A : Type) :=
| NoFuel
| Panic
| LogFatal (e : option (apply_error V))
| TestFatal (f : failure V)
| Val (a : A).
Arguments NoFuel {_ _}.
Arguments Panic {_ _}.
Arguments LogFatal {_ _} _.
Arguments TestFatal {_ _} _.
Arguments Val {_ _} _.

#[global] Instance result_ret {V} : MRet (result V) := λ A a, Val a.
#[global] Instance result_bind {V} : MBind (result V) := λ A B f r,
  match r with NoFuel => NoFuel | Panic => Panic | LogFatal e => LogFatal e | TestFatal e => TestFatal e | Val a => f a end.

Definition or_panic {V A} (o : option A) : result V A := match o with Some a => Val a | None => Panic end.

(** [for j := 0; j < n; j++]. *)
Definition for_each {V A} (n : nat) (body : nat → A → result V A) (a : A) : result V A :=
  foldl (λ acc j, a ← acc; body j a) (Val a) (seq 0 n).

(** A write to a slice; out of range it panics. *)
Definition write {V A} (l : list A) (i : nat) (x : A) : result V (list A) :=
  if decide (i < length l)%nat then Val (<[i := x]> l) else Panic.

(** gob on a snapshot: the index and the commands up to it. *)
Class SnapshotCodec (V : Type) := {
  encode_snapshot : Z → list V → list Byte.byte;
  decode_snapshot : list Byte.byte → option (Z * list V);
}.

(** [range] over a map: its entries, in an order that is not specified. *)
Class GoRange (K A : Type) `{Countable K} := {
  go_range : gmap K A → list (K * A);
  go_range_perm m : go_range m ≡ₚ map_to_list m;
}.

#[global] Instance map_to_list_GoRange K A `{Countable K} : GoRange K A | 100 :=
  {| go_range := map_to_list; go_range_perm m := Permutation_refl _ |}.

Record ApplyMsg (V : Type) := MkApplyMsg {
  CommandValid : bool;
  Command : V;
  CommandIndex : Z;
  SnapshotValid : bool;
  Snapshot : option (list Byte.byte);
  SnapshotTerm : Z;
  SnapshotIndex : Z;
}.
Arguments MkApplyMsg {_} _ _ _ _ _ _ _.
Arguments CommandValid {_} _.
Arguments Command {_} _.
Arguments CommandIndex {_} _.
Arguments SnapshotValid {_} _.
Arguments Snapshot {_} _.
Arguments SnapshotTerm {_} _.
Arguments SnapshotIndex {_} _.

Section config.
(** [W] and [X] are the objects and values of labrpc, [V] the commands. *)
Context {W X V : Type} `{Codec X, SnapshotCodec V, EqDecision V} (types : rtype → desc) (vnil : V).
(** What reflection finds on the Raft object with this number. *)
Context (raft_methods : nat → list (Method (W:=W) (V:=X))).

(** Pointers are numbers. *)
Record config := Config {
  finished : Z;
  net : Network (N:=name);
  n : nat;
  rafts : list (option nat);
  applyErr : list (option (apply_error V));
  connected : list bool;
  saved : list (option nat);
  endnames : list (option (list string));
  logs : list (gmap Z V);
  lastApplied : list Z;
  start : Z;
  t0 : Z;
  rpcs0 : Z;
  cmds0 : Z;
  bytes0 : Z;
  maxIndex : Z;
  maxIndex0 : Z;
}.

(** The objects: a Raft server with its ends, a persister, the arrays the
    persisters point to, and the servers of labrpc. *)
Record world := World {
  w_cfg : config;
  w_rafts : list (Raft.Raft * list string);
  w_persisters : list Persister.Persister;
  w_store : list (list Byte.byte);
  w_servers : list (Server (W:=W) (V:=X));
}.

Definition set_net (x : Network) (c : config) : config :=
  Config (finished c) x (n c) (rafts c) (applyErr c) (connected c) (saved c) (endnames c) (logs c) (lastApplied c)
    (start c) (t0 c) (rpcs0 c) (cmds0 c) (bytes0 c) (maxIndex c) (maxIndex0 c).
Definition set_rafts (x : list (option nat)) (c : config) : config :=
  Config (finished c) (net c) (n c) x (applyErr c) (connected c) (saved c) (endnames c) (logs c) (lastApplied c)
    (start c) (t0 c) (rpcs0 c) (cmds0 c) (bytes0 c) (maxIndex c) (maxIndex0 c).
Definition set_connected (x : list bool) (c : config) : config :=
  Config (finished c) (net c) (n c) (rafts c) (applyErr c) x (saved c) (endnames c) (logs c) (lastApplied c)
    (start c) (t0 c) (rpcs0 c) (cmds0 c) (bytes0 c) (maxIndex c) (maxIndex0 c).
Definition set_saved (x : list (option nat)) (c : config) : config :=
  Config (finished c) (net c) (n c) (rafts c) (applyErr c) (connected c) x (endnames c) (logs c) (lastApplied c)
    (start c) (t0 c) (rpcs0 c) (cmds0 c) (bytes0 c) (maxIndex c) (maxIndex0 c).
Definition set_endnames (x : list (option (list string))) (c : config) : config :=
  Config (finished c) (net c) (n c) (rafts c) (applyErr c) (connected c) (saved c) x (logs c) (lastApplied c)
    (start c) (t0 c) (rpcs0 c) (cmds0 c) (bytes0 c) (maxIndex c) (maxIndex0 c).
Definition set_logs (x : list (gmap Z V)) (mi : Z) (c : config) : config :=
  Config (finished c) (net c) (n c) (rafts c) (applyErr c) (connected c) (saved c) (endnames c) x (lastApplied c)
    (start c) (t0 c) (rpcs0 c) (cmds0 c) (bytes0 c) mi (maxIndex0 c).
Definition set_lastApplied (x : list Z) (c : config) : config :=
  Config (finished c) (net c) (n c) (rafts c) (applyErr c) (connected c) (saved c) (endnames c) (logs c) x
    (start c) (t0 c) (rpcs0 c) (cmds0 c) (bytes0 c) (maxIndex c) (maxIndex0 c).
Definition set_finished (x : Z) (c : config) : config :=
  Config x (net c) (n c) (rafts c) (applyErr c) (connected c) (saved c) (endnames c) (logs c) (lastApplied c)
    (start c) (t0 c) (rpcs0 c) (cmds0 c) (bytes0 c) (maxIndex c) (maxIndex0 c).
Definition set_stats (now rpcs cmds byt mi0 : Z) (c : config) : config :=
  Config (finished c) (net c) (n c) (rafts c) (applyErr c) (connected c) (saved c) (endnames c) (logs c) (lastApplied c)
    (start c) now rpcs cmds byt (maxIndex c) mi0.

Definition with_cfg (c : config) (w : world) : world :=
  World c (w_rafts w) (w_persisters w) (w_store w) (w_servers w).

(** ** The network *)

(** One turn of the loops of [connect] and [disconnect]: the end of server [a]
    that sends to server [b]. *)
Definition connect_end (a b other : nat) (c : config) : result V config :=
  up ← or_panic (connected c !! other);
  if up : bool then
    names ← or_panic (mjoin (endnames c !! a));
    endname ← or_panic (names !! b);
    Val (set_net (Enable (EndName endname) true (net c)) c)
  else Val c.

Definition disconnect_end (a b : nat) (c : config) : result V config :=
  names ← or_panic (endnames c !! a);
  match names with
  | Some names => endname ← or_panic (names !! b); Val (set_net (Enable (EndName endname) false (net c)) c)
  | None => Val c
  end.

(** Attach server [i] to the net. *)
Definition connect (i : nat) (c : config) : result V config :=
  up ← write (connected c) i true;
  let c := set_connected up c in
  c ← for_each (n c) (λ j, connect_end i j j) c;
  for_each (n c) (λ j, connect_end j i j) c.

(** Detach server [i] from the net. *)
Definition disconnect (i : nat) (c : config) : result V config :=
  up ← write (connected c) i false;
  let c := set_connected up c in
  c ← for_each (n c) (λ j, disconnect_end i j) c;
  for_each (n c) (λ j, disconnect_end j i) c.

(** ** Crashes and restarts *)

(** [saved[i].Copy()], when there is one. *)
Definition copy_saved (i : nat) (w : world) : result V world :=
  let c := w_cfg w in
  sv ← or_panic (saved c !! i);
  match sv with
  | None => Val w
  | Some p =>
      ps ← or_panic (w_persisters w !! p);
      sv ← write (saved c) i (Some (length (w_persisters w)));
      Val (World (set_saved sv c) (w_rafts w) (w_persisters w ++ [Persister.Copy ps]) (w_store w) (w_servers w))
  end.

Definition kill_raft (r : nat) (w : world) : result V world :=
  '(rf, peers) ← or_panic (w_rafts w !! r);
  Val (World (w_cfg w) (<[r := (Raft.Kill rf, peers)]> (w_rafts w)) (w_persisters w) (w_store w) (w_servers w)).

(** Shut down a Raft server but save its persistent state. *)
Definition crash1 (i : nat) (w : world) : result V world :=
  c ← disconnect i (w_cfg w);
  let w := with_cfg (set_net (DeleteServer (ServerName i) (net c)) c) w in
  w ← copy_saved i w;
  rf ← or_panic (rafts (w_cfg w) !! i);
  w ← match rf with
      | None => Val w
      | Some r => w ← kill_raft r w; rs ← write (rafts (w_cfg w)) i None; Val (with_cfg (set_rafts rs (w_cfg w)) w)
      end;
  sv ← or_panic (saved (w_cfg w) !! i);
  match sv with
  | None => Val w
  | Some p =>
      ps ← or_panic (w_persisters w !! p);
      let '(m, raftlog) := Persister.ReadRaftState (w_store w) ps in
      let '(m, snapshot) := Persister.ReadSnapshot m ps in
      sv ← write (saved (w_cfg w)) i (Some (length (w_persisters w)));
      let '(m, ps) := Persister.Save m Persister.MakePersister raftlog snapshot in
      Val (World (set_saved sv (w_cfg w)) (w_rafts w) (w_persisters w ++ [ps]) m (w_servers w))
  end.

(** The commands of a snapshot, as a log. *)
Definition log_of (xlog : list V) : gmap Z V :=
  list_to_map (imap (λ j v, (Z.of_nat j, v)) xlog).

Definition ingestSnap (i : nat) (snapshot : option (list Byte.byte)) (index : Z) (c : config) :
    result V (option (apply_error V) * config) :=
  match snapshot with
  | None => LogFatal (Some NilSnapshot)
  | Some snapshot =>
      match decode_snapshot snapshot with
      | None => LogFatal (Some SnapshotDecodeError)
      | Some (lastIncludedIndex, xlog) =>
          if negb (index =? -1) && negb (index =? lastIncludedIndex) then Val (Some (SnapshotIndexMismatch i), c)
          else
            ls ← write (logs c) i (log_of xlog);
            let c := set_logs ls (maxIndex c) c in
            la ← write (lastApplied c) i lastIncludedIndex;
            Val (None, set_lastApplied la c)
      end
  end.

(** The persister the server is started with. *)
Definition load_saved (i : nat) (w : world) : result V world :=
  sv ← or_panic (saved (w_cfg w) !! i);
  match sv with
  | Some _ =>
      w ← copy_saved i w;
      p ← or_panic (mjoin (saved (w_cfg w) !! i));
      ps ← or_panic (w_persisters w !! p);
      let '(m, snapshot) := Persister.ReadSnapshot (w_store w) ps in
      let w := World (w_cfg w) (w_rafts w) (w_persisters w) m (w_servers w) in
      if bool_decide (0 < length (Persister.bytes_of m snapshot))%nat then
        '(err, c) ← ingestSnap i (Some (Persister.bytes_of m snapshot)) (-1) (w_cfg w);
        match err with
        | Some e => TestFatal (ApplyError e)
        | None => Val (with_cfg c w)
        end
      else Val w
  | None =>
      sv ← write (saved (w_cfg w)) i (Some (length (w_persisters w)));
      Val (World (set_saved sv (w_cfg w)) (w_rafts w) (w_persisters w ++ [Persister.MakePersister]) (w_store w) (w_servers w))
  end.

(** One of the fresh set of ends; labrpc ends the program when the name is in use. *)
Definition make_end (i j : nat) (c : config) : result V config :=
  names ← or_panic (mjoin (endnames c !! i));
  endname ← or_panic (names !! j);
  match MakeEnd (EndName endname) (net c) with
  | None => LogFatal None
  | Some net => Val (set_net (Connect (EndName endname) (ServerName j) net) c)
  end.

(** Start or restart server [i]; [names] are the random names of its ends. The
    goroutine of the applier is started with it. *)
Definition start1 (names : nat → string) (i : nat) (w : world) : result V world :=
  w ← crash1 i w;
  let c := w_cfg w in
  es ← write (endnames c) i (Some (names <$> seq 0 (n c)));
  c ← for_each (n c) (make_end i) (set_endnames es c);
  la ← write (lastApplied c) i 0;
  w ← load_saved i (with_cfg (set_lastApplied la c) w);
  let c := w_cfg w in
  ends ← or_panic (mjoin (endnames c !! i));
  let rf := Raft.Make (length ends) (Z.of_nat i) in
  rs ← write (rafts c) i (Some (length (w_rafts w)));
  let c := set_rafts rs c in
  let svc := MakeService types "Raft" (raft_methods (length (w_rafts w))) in
  let srv := AddService svc MakeServer in
  let c := set_net (AddServer (ServerName i) (length (w_servers w)) (net c)) c in
  Val (World c (w_rafts w ++ [(rf, ends)]) (w_persisters w) (w_store w) (w_servers w ++ [srv])).

(** [names i j] is the name of the end of server [i] that sends to [j]. *)
Definition make_config (now : Z) (m : nat) (unreliable : bool) (names : nat → nat → string) : result V world :=
  let c := Config 0 MakeNetwork m (replicate m None) (replicate m None) (replicate m false) (replicate m None)
             (replicate m None) (replicate m ∅) (replicate m 0) now 0 0 0 0 0 0 in
  let c := set_net (Reliable (negb unreliable) (net c)) c in
  let c := set_net (LongDelays true (net c)) c in
  w ← for_each m (λ i w, start1 (names i) i w) (World c [] [] [] []);
  c ← for_each m connect (w_cfg w);
  Val (with_cfg c w).

(** ** What the servers apply *)

(** The message about the last log that has another command at this index. *)
Definition mismatch (i : nat) (m : ApplyMsg V) (ls : list (gmap Z V)) : option (apply_error V) :=
  let v := Command m in
  foldl (λ err_msg jl,
    match jl.2 !! CommandIndex m with
    | Some old => if decide (old ≠ v) then Some (CommitMismatch (CommandIndex m) i v jl.1 old) else err_msg
    | None => err_msg
    end) None (imap pair ls).

(** The error message, whether the log has the command before, and the new logs. *)
Definition checkLogs (i : nat) (m : ApplyMsg V) (c : config) : result V (option (apply_error V) * bool * config) :=
  let err_msg := mismatch i m (logs c) in
  l ← or_panic (logs c !! i);
  let prevok := bool_decide (is_Some (l !! (CommandIndex m - 1))) in
  ls ← write (logs c) i (<[CommandIndex m := Command m]> l);
  Val (err_msg, prevok, set_logs ls (if maxIndex c <? CommandIndex m then CommandIndex m else maxIndex c) c).

(** What the reader of the apply channel of server [i] does with a message. *)
Definition applier (i : nat) (m : ApplyMsg V) (c : config) : result V config :=
  if Bool.eqb (CommandValid m) false then Val c
  else
    '(err_msg, prevok, c) ← checkLogs i m c;
    let err_msg := if (1 <? CommandIndex m) && Bool.eqb prevok false then Some (OutOfOrder i (CommandIndex m)) else err_msg in
    match err_msg with Some e => LogFatal (Some e) | None => Val c end.

Definition SnapShotInterval : Z := 10.

(** [cfg.logs[i][0]] to [cfg.logs[i][index]]. *)
Definition snapshot_log (l : gmap Z V) (index : Z) : list V :=
  (λ j, default vnil (l !! j)) <$> seqZ 0 (index + 1).

Definition byte_value (b : Byte.byte) : Z := Z.of_N (Byte.to_N b).

(** The same reader when the service takes snapshots; [r] is the Raft object the
    goroutine was started for. *)
Definition applierSnap (i r : nat) (m : ApplyMsg V) (w : world) : result V world :=
  if SnapshotValid m then
    '(err_msg, c) ← ingestSnap i (Snapshot m) (SnapshotIndex m) (w_cfg w);
    match err_msg with Some e => LogFatal (Some e) | None => Val (with_cfg c w) end
  else if CommandValid m then
    la ← or_panic (lastApplied (w_cfg w) !! i);
    '(err_msg, c) ←
      (if negb (CommandIndex m =? la + 1) then Val (Some (OutOfOrder i (CommandIndex m)), w_cfg w)
       else
         '(err_msg, prevok, c) ← checkLogs i m (w_cfg w);
         Val (if (1 <? CommandIndex m) && Bool.eqb prevok false then Some (OutOfOrder i (CommandIndex m)) else err_msg, c));
    la ← write (lastApplied c) i (CommandIndex m);
    let c := set_lastApplied la c in
    w ← (if Z.rem (CommandIndex m + 1) SnapShotInterval =? 0 then
           l ← or_panic (logs c !! i);
           let bs := encode_snapshot (CommandIndex m) (snapshot_log l (CommandIndex m)) in
           '(rf, peers) ← or_panic (w_rafts w !! r);
           let rf := Raft.Snapshot rf (CommandIndex m) (byte_value <$> bs) in
           Val (World c (<[r := (rf, peers)]> (w_rafts w)) (w_persisters w) (w_store w) (w_servers w))
         else Val (with_cfg c w));
    match err_msg with Some e => LogFatal (Some e) | None => Val w end
  else Val w.

(** ** The end of a test *)

Definition second : Z := 10 ^ 9.

(** [failed] is [t.Failed()]. *)
Definition checkTimeout (failed : bool) (now : Z) (c : config) : result V () :=
  if negb failed && (120 * second <? now - start c) then TestFatal TookTooLong else Val ().

Definition checkFinished (c : config) : bool := negb (finished c =? 0).

Definition cleanup (failed : bool) (now : Z) (w : world) : result V world :=
  let w := with_cfg (set_finished 1 (w_cfg w)) w in
  w ← for_each (length (rafts (w_cfg w))) (λ i w,
        rf ← or_panic (rafts (w_cfg w) !! i);
        match rf with Some r => kill_raft r w | None => Val w end) w;
  net ← or_panic (Cleanup (net (w_cfg w)));
  let w := with_cfg (set_net net (w_cfg w)) w in
  _ ← checkTimeout failed now (w_cfg w);
  Val w.

Definition rpcCount (server : nat) (w : world) : result V Z :=
  o ← or_panic (read (servers (net (w_cfg w))) (ServerName server));
  rs ← or_panic (w_servers w !! o);
  Val (Server_GetCount rs).
Definition rpcTotal (c : config) : Z := GetTotalCount (net c).
Definition bytesTotal (c : config) : Z := GetTotalBytes (net c).
Definition setunreliable (unrel : bool) (c : config) : config := set_net (Reliable (negb unrel) (net c)) c.
Definition setlongreordering (longrel : bool) (c : config) : config := set_net (LongReordering longrel (net c)) c.

Definition begin (now : Z) (c : config) : config := set_stats now (rpcTotal c) 0 (bytesTotal c) (maxIndex c) c.

(** The numbers [end] prints: servers, calls, bytes and agreements. *)
Definition end_ (failed : bool) (now : Z) (c : config) : result V (option (nat * Z * Z * Z)) :=
  _ ← checkTimeout failed now c;
  Val (if Bool.eqb failed false then
         Some (n c, wrap_s 64 (rpcTotal c - rpcs0 c), wrap_s 64 (bytesTotal c - bytes0 c), wrap_s 64 (maxIndex c - maxIndex0 c))
       else None).

(** Maximum log size across all servers. *)
Definition LogSize (w : world) : result V nat :=
  for_each (n (w_cfg w)) (λ i logsize,
    p ← or_panic (mjoin (saved (w_cfg w) !! i));
    ps ← or_panic (w_persisters w !! p);
    let m := Persister.RaftStateSize ps in
    Val (if decide (logsize < m)%nat then m else logsize)) 0%nat.

(** ** The checks

    [at_ k] is the world at the [k]-th point and [clock k] the time there. *)
Section checks.
Context `{!GoRange Z (list nat)} (clock : nat → Z) (at_ : nat → world).

(** [GetState] of [cfg.rafts[i]]; a nil server panics. *)
Definition get_state (k i : nat) : result V (Z * bool) :=
  r ← or_panic (mjoin (rafts (w_cfg (at_ k)) !! i));
  '(rf, _) ← or_panic (w_rafts (at_ k) !! r);
  Val (Raft.GetState rf).

Definition is_connected (k i : nat) : result V bool := or_panic (connected (w_cfg (at_ k)) !! i).

(** The servers [ss], the first at point [k], the next at [k + 1]. *)
Fixpoint collect_leaders (k : nat) (ss : list nat) (leaders : gmap Z (list nat)) : result V (gmap Z (list nat)) :=
  match ss with
  | [] => Val leaders
  | i :: ss =>
      up ← is_connected k i;
      if up : bool then
        '(term, leader) ← get_state k i;
        collect_leaders (S k) ss (if leader : bool then <[term := default [] (leaders !! term) ++ [i]]> leaders else leaders)
      else collect_leaders (S k) ss leaders
  end.

Fixpoint last_term (ls : list (Z * list nat)) (lastTermWithLeader : Z) : result V Z :=
  match ls with
  | [] => Val lastTermWithLeader
  | (term, leaders) :: ls =>
      if decide (1 < length leaders)%nat then TestFatal (ManyLeaders term (length leaders))
      else last_term ls (if lastTermWithLeader <? term then term else lastTermWithLeader)
  end.

Fixpoint checkOneLeader_loop (iters k : nat) : result V nat :=
  match iters with
  | O => TestFatal NoLeader
  | S iters =>
      leaders ← collect_leaders k (seq 0 (n (w_cfg (at_ k)))) ∅;
      lastTermWithLeader ← last_term (go_range leaders) (-1);
      if decide (leaders ≠ ∅) then or_panic (head (default [] (leaders !! lastTermWithLeader)))
      else checkOneLeader_loop iters (k + n (w_cfg (at_ k)) + 1)
  end.

Definition checkOneLeader (k : nat) : result V nat := checkOneLeader_loop 10 (S k).

Fixpoint checkTerms_loop (k : nat) (ss : list nat) (term : Z) : result V Z :=
  match ss with
  | [] => Val term
  | i :: ss =>
      up ← is_connected k i;
      if up : bool then
        '(xterm, _) ← get_state k i;
        if term =? -1 then checkTerms_loop (S k) ss xterm
        else if negb (term =? xterm) then TestFatal TermsDiffer
        else checkTerms_loop (S k) ss term
      else checkTerms_loop (S k) ss term
  end.

Definition checkTerms (k : nat) : result V Z := checkTerms_loop k (seq 0 (n (w_cfg (at_ k)))) (-1).

Fixpoint checkNoLeader_loop (k : nat) (ss : list nat) : result V () :=
  match ss with
  | [] => Val ()
  | i :: ss =>
      up ← is_connected k i;
      if up : bool then
        '(_, is_leader) ← get_state k i;
        if is_leader : bool then TestFatal (UnexpectedLeader i) else checkNoLeader_loop (S k) ss
      else checkNoLeader_loop (S k) ss
  end.

Definition checkNoLeader (k : nat) : result V () := checkNoLeader_loop k (seq 0 (n (w_cfg (at_ k)))).

Fixpoint nCommitted_loop (k : nat) (ss : list nat) (index count : Z) (cmd : V) : result V (Z * V) :=
  match ss with
  | [] => Val (count, cmd)
  | i :: ss =>
      e ← or_panic (applyErr (w_cfg (at_ k)) !! i);
      match e with
      | Some e => TestFatal (ApplyError e)
      | None =>
          l ← or_panic (logs (w_cfg (at_ k)) !! i);
          match l !! index with
          | Some cmd1 =>
              if (0 <? count) && negb (bool_decide (cmd = cmd1)) then TestFatal (ValuesDiffer index)
              else nCommitted_loop (S k) ss index (count + 1) cmd1
          | None => nCommitted_loop (S k) ss index count cmd
          end
      end
  end.

(** How many servers think a log entry is committed? *)
Definition nCommitted (k : nat) (index : Z) : result V (Z * V) :=
  nCommitted_loop k (seq 0 (length (rafts (w_cfg (at_ k))))) index 0 vnil.

(** The point after a check that read every server. *)
Definition after (k : nat) : nat := k + length (rafts (w_cfg (at_ k))).

(** Whether one of the servers [ss] has a later term. *)
Fixpoint moved_on (k : nat) (ss : list nat) (startTerm : Z) : result V bool :=
  match ss with
  | [] => Val false
  | i :: ss =>
      '(t, _) ← get_state k i;
      if startTerm <? t then Val true else moved_on (S k) ss startTerm
  end.

(** [wait] after its loop. *)
Definition wait_end (k : nat) (index num : Z) : result V (option V) :=
  '(nd, cmd) ← nCommitted k index;
  if nd <? num then TestFatal (TooFewDecided (Z.to_nat nd) index) else Val (Some cmd).

(** The command at the index, or [None] for the -1 when someone has moved on. *)
Fixpoint wait_loop (iters k : nat) (index num startTerm : Z) : result V (option V) :=
  match iters with
  | O => wait_end k index num
  | S iters =>
      '(nd, _) ← nCommitted k index;
      if num <=? nd then wait_end (after k) index num
      else
        let k := S (after k) in
        if -1 <? startTerm then
          moved ← moved_on k (seq 0 (length (rafts (w_cfg (at_ k))))) startTerm;
          if moved : bool then Val None else wait_loop iters (after k) index num startTerm
        else wait_loop iters k index num startTerm
  end.

Definition wait (k : nat) (index num startTerm : Z) : result V (option V) := wait_loop 30 k index num startTerm.

(** Try all the servers, maybe one is the leader: the index, or -1, the point
    after the loop and [starts]. *)
Fixpoint submit (si k starts : nat) (cmd : V) : result V (Z * nat * nat) :=
  match si with
  | O => Val (-1, k, starts)
  | S si =>
      let c := w_cfg (at_ k) in
      let starts := ((starts + 1) mod n c)%nat in
      up ← or_panic (connected c !! starts);
      rf ← (if up : bool then or_panic (rafts c !! starts) else Val None);
      match rf with
      | Some r =>
          '(rf, _) ← or_panic (w_rafts (at_ k) !! r);
          let '(index1, _, ok) := Raft.Start rf cmd in
          if ok : bool then Val (index1, S k, starts) else submit si (S k) starts cmd
      | None => submit si (S k) starts cmd
      end
  end.

(** Wait a while for agreement. *)
Fixpoint await_agreement (fuel k : nat) (t1 index : Z) (cmd : V) (expectedServers : Z) : result V (bool * nat) :=
  match fuel with
  | O => NoFuel
  | S fuel =>
      if clock k - t1 <? 2 * second then
        '(nd, cmd1) ← nCommitted k index;
        if (0 <? nd) && (expectedServers <=? nd) && bool_decide (cmd1 = cmd) then Val (true, after k)
        else await_agreement fuel (S (after k)) t1 index cmd expectedServers
      else Val (false, k)
  end.

Fixpoint one_loop (fuel k starts : nat) (since : Z) (cmd : V) (expectedServers : Z) (retry : bool) : result V Z :=
  match fuel with
  | O => NoFuel
  | S fuel =>
      if (clock k - since <? 10 * second) && Bool.eqb (checkFinished (w_cfg (at_ k))) false then
        '(index, k, starts) ← submit (n (w_cfg (at_ k))) k starts cmd;
        if negb (index =? -1) then
          '(agreed, k) ← await_agreement fuel k (clock k) index cmd expectedServers;
          if agreed : bool then Val index
          else if Bool.eqb retry false then TestFatal NoAgreement
          else one_loop fuel k starts since cmd expectedServers retry
        else one_loop fuel (S k) starts since cmd expectedServers retry
      else if Bool.eqb (checkFinished (w_cfg (at_ k))) false then TestFatal NoAgreement
      else Val (-1)
  end.

(** Do a complete agreement. *)
Definition one (fuel k : nat) (cmd : V) (expectedServers : Z) (retry : bool) : result V Z :=
  one_loop fuel k 0 (clock k) cmd expectedServers retry.

End checks.

End config.
End RaftConfig.
