(* ===== verification/RaftWiring.v ===== *)
(** * Who can reach whom in the tests of Raft

    [connect], [disconnect], [crash1] and [start1] of
    [src/6.5840/src/raft/config.go]: whatever a test does with them, an end of a
    server that was ever started is enabled exactly when that server has not been
    stopped and both it and its peer are connected. *)
From S2P Require Import Prelude LabGob LabRpc Persister Raft RaftConfig.
Import LabGob LabRpc RaftConfig.
Local Open Scope Z_scope.

Module RaftWiring.

Section wiring.
Context {W X V : Type} `{Codec X, SnapshotCodec V, EqDecision V} (types : rtype → desc).
Context (raft_methods : nat → list (Method (W:=W) (V:=X))).
Abbreviation config := (config (V:=V)).
Abbreviation world := (world (W:=W) (X:=X) (V:=V)).
Abbreviation start1 := (start1 types raft_methods).
Abbreviation make_config := (make_config types raft_methods).
Implicit Types (c : config) (w : world) (i j r : nat).

(** ** The operations of a test, and of the servers on their persisters *)

Inductive op :=
| OConnect (i : nat)
| ODisconnect (i : nat)
| OCrash (i : nat)
| OStart (names : nat → string) (i : nat)
| OSave (p : nat) (raftstate snapshot : list Byte.byte). (* the server that has persister [p] *)

(** A server saves bytes it has just encoded. *)
Definition save (p : nat) (raftstate snapshot : list Byte.byte) w : result V world :=
  ps ← or_panic (w_persisters w !! p);
  let '(m, rs) := Persister.alloc (w_store w) raftstate in
  let '(m, sn) := Persister.alloc m snapshot in
  let '(m, ps) := Persister.Save m ps rs sn in
  Val (World (w_cfg w) (w_rafts w) (<[p := ps]> (w_persisters w)) m (w_servers w)).

Definition run_op w (o : op) : result V world :=
  match o with
  | OConnect i => c ← connect i (w_cfg w); Val (with_cfg c w)
  | ODisconnect i => c ← disconnect i (w_cfg w); Val (with_cfg c w)
  | OCrash i => crash1 i w
  | OStart names i => start1 names i w
  | OSave p raftstate snapshot => save p raftstate snapshot w
  end.

Fixpoint run_ops w (os : list op) : result V world :=
  match os with
  | [] => Val w
  | o :: os => w ← run_op w o; run_ops w os
  end.

(** Tests name servers that exist, and connect a server only while it runs. *)
Definition allowed w (o : op) : Prop :=
  match o with
  | OConnect i => ∃ r, rafts (w_cfg w) !! i = Some (Some r)
  | ODisconnect i | OCrash i | OStart _ i => (i < n (w_cfg w))%nat
  | OSave p _ _ => (p < length (w_persisters w))%nat
  end.

Fixpoint all_allowed w (os : list op) : Prop :=
  match os with
  | [] => True
  | o :: os => allowed w o ∧ ∀ w', run_op w o = Val w' → all_allowed w' os
  end.

(** ** The invariant *)

(** Server [i] is the Raft object [r], and it is connected. *)
Definition online c i r : Prop := rafts c !! i = Some (Some r) ∧ connected c !! i = Some true.

Definition slice_ok (m : list (list Byte.byte)) (s : option Persister.slice) : Prop :=
  match s with None => True | Some s => (Persister.s_arr s < length m)%nat end.

Definition persister_ok (m : list (list Byte.byte)) (ps : Persister.Persister) : Prop :=
  slice_ok m (Persister.raftstate ps) ∧ slice_ok m (Persister.snapshot ps).

Record lengths_ok c : Prop := Lengths {
  ln_rafts : length (rafts c) = n c;
  ln_connected : length (connected c) = n c;
  ln_saved : length (saved c) = n c;
  ln_endnames : length (endnames c) = n c;
  ln_logs : length (logs c) = n c;
  ln_lastApplied : length (lastApplied c) = n c;
}.

(** A server of labrpc whose only service are the methods of Raft object [r]. *)
Definition serves (srv : Server (W:=W) (V:=X)) r : Prop :=
  services srv = {[ "Raft" := MakeService types "Raft" (raft_methods r) ]}.

(** The Raft object [r]: server [i], with ends named [ns]. *)
Record object_ok w r (rf : Raft.Raft) (ns : list string) i : Prop := Object {
  ob_me : Raft.me rf = Z.of_nat i;
  ob_lt : (i < n (w_cfg w))%nat;
  ob_length : length ns = n (w_cfg w);
  ob_dead : Raft.dead rf = 1 ∨ rafts (w_cfg w) !! i = Some (Some r) ∧ Raft.dead rf = 0;
  ob_known j e : ns !! j = Some e → EndName e ∈ ends (net (w_cfg w));
  ob_connection j e : ns !! j = Some e → read (connections (net (w_cfg w))) (EndName e) = Some (ServerName j);
  ob_enabled j e : ns !! j = Some e →
    ∃ b, enabled (net (w_cfg w)) !! EndName e = Some b ∧
         (b = true ↔ online (w_cfg w) i r ∧ connected (w_cfg w) !! j = Some true);
}.

Record wired w : Prop := Wired {
  wi_lengths : lengths_ok (w_cfg w);
  wi_objects r rf ns : w_rafts w !! r = Some (rf, ns) → ∃ i, object_ok w r rf ns i;
  wi_names r rf ns r' rf' ns' j j' e : w_rafts w !! r = Some (rf, ns) → w_rafts w !! r' = Some (rf', ns') →
    ns !! j = Some e → ns' !! j' = Some e → r = r' ∧ j = j';
  wi_rafts i r : rafts (w_cfg w) !! i = Some (Some r) →
    ∃ rf ns, w_rafts w !! r = Some (rf, ns) ∧ Raft.me rf = Z.of_nat i ∧ Raft.dead rf = 0 ∧
             endnames (w_cfg w) !! i = Some (Some ns);
  wi_endnames i ns : endnames (w_cfg w) !! i = Some (Some ns) → ∃ r rf, w_rafts w !! r = Some (rf, ns) ∧ Raft.me rf = Z.of_nat i;
  wi_server i r : rafts (w_cfg w) !! i = Some (Some r) →
    ∃ o srv, read (servers (net (w_cfg w))) (ServerName i) = Some o ∧ w_servers w !! o = Some srv ∧ serves srv r;
  wi_down i : rafts (w_cfg w) !! i = Some None → read (servers (net (w_cfg w))) (ServerName i) = None;
  wi_connected i : connected (w_cfg w) !! i = Some true → ∃ r, rafts (w_cfg w) !! i = Some (Some r);
  wi_saved i p : saved (w_cfg w) !! i = Some (Some p) → (p < length (w_persisters w))%nat;
  wi_persisters p ps : w_persisters w !! p = Some ps → persister_ok (w_store w) ps;
}.

(** ** The loops of [connect] and [disconnect] *)

Definition enable_all (b : bool) (es : list name) (nt : Network (N:=name)) : Network := foldl (λ nt e, Enable e b nt) nt es.

Lemma enable_all_enabled b es nt e :
  enabled (enable_all b es nt) !! e = if decide (e ∈ es) then Some b else enabled nt !! e.
Proof.
  revert nt. induction es as [|e' es IH]; intros nt; [done|]. unfold enable_all in *. cbn [foldl]. rewrite IH.
  destruct (decide (e ∈ es)); [by rewrite decide_True by set_solver|]. cbn [Enable set_ends enabled].
  destruct (decide (e = e')) as [->|]; [by rewrite lookup_insert_eq, decide_True by set_solver|].
  rewrite lookup_insert_ne by done. by rewrite decide_False by set_solver.
Qed.

Lemma enable_all_others b es nt :
  ends (enable_all b es nt) = ends nt ∧ connections (enable_all b es nt) = connections nt ∧
  servers (enable_all b es nt) = servers nt ∧ closed (enable_all b es nt) = closed nt.
Proof. revert nt. induction es as [|e es IH]; intros nt; [done|]. apply (IH (Enable e b nt)). Qed.

Lemma enable_all_app b es es' nt : enable_all b es' (enable_all b es nt) = enable_all b (es ++ es') nt.
Proof. unfold enable_all. by rewrite foldl_app. Qed.

Lemma set_net_twice nt nt' c : set_net nt' (set_net nt c) = set_net nt' c.
Proof. done. Qed.

Lemma set_net_same c : set_net (net c) c = c.
Proof. by destruct c. Qed.

(** A loop whose turn [j] enables or disables the ends [es j]. *)
Lemma for_each_enable c (b : bool) m (body : nat → config → result V config) (es : nat → list name) nt :
  (∀ j nt, (j < m)%nat → body j (set_net nt c) = Val (set_net (enable_all b (es j) nt) c)) →
  for_each m body (set_net nt c) = Val (set_net (enable_all b (seq 0 m ≫= es) nt) c).
Proof.
  intros Hb. unfold for_each. change (seq 0 m) with (seq 0 m). revert Hb. induction m as [|m IH]; intros Hb; [done|].
  rewrite seq_S, bind_app, foldl_app, IH by (intros; apply Hb; lia). simpl. rewrite Hb by lia.
  rewrite app_nil_r. by rewrite enable_all_app.
Qed.

(** The end of server [a] that sends to server [b]. *)
Definition end_of c (a b : nat) : list name :=
  match endnames c !! a with Some (Some names) => EndName <$> option_list (names !! b) | _ => [] end.

Definition is_up c j : bool := bool_decide (connected c !! j = Some true).

Lemma end_of_elem c a b e :
  e ∈ end_of c a b ↔ ∃ names s, endnames c !! a = Some (Some names) ∧ names !! b = Some s ∧ e = EndName s.
Proof.
  unfold end_of. destruct (endnames c !! a) as [[names|]|]; [|set_solver..].
  destruct (names !! b) as [s|] eqn:E; simpl; [|set_solver]. rewrite list_elem_of_singleton. naive_solver.
Qed.

(** Every server that has ends has one for every server. *)
Definition names_ok c : Prop := ∀ a names, endnames c !! a = Some (Some names) → length names = n c.

Lemma disconnect_end_ok c a b nt : lengths_ok c → names_ok c → (a < n c)%nat → (b < n c)%nat →
  disconnect_end a b (set_net nt c) = Val (set_net (enable_all false (end_of c a b) nt) c).
Proof.
  intros HL HN Ha Hb. unfold disconnect_end, end_of. cbn [set_net endnames].
  destruct (lookup_lt_is_Some_2 (endnames c) a) as [[names|] Hn]; [rewrite (ln_endnames _ HL); lia|..]; rewrite Hn; cbn [or_panic mbind result_bind]; [|done].
  destruct (lookup_lt_is_Some_2 names b) as [e He]; [rewrite (HN _ _ Hn); lia|]. by rewrite He.
Qed.

Lemma connect_end_ok c a b other nt : lengths_ok c → names_ok c → (b < n c)%nat → (other < n c)%nat →
  (is_up c other = true → ∃ names, endnames c !! a = Some (Some names)) →
  connect_end a b other (set_net nt c) = Val (set_net (enable_all true (if is_up c other then end_of c a b else []) nt) c).
Proof.
  intros HL HN Hb Ho Hup. unfold connect_end. cbn [set_net connected endnames].
  unfold is_up in *. destruct (lookup_lt_is_Some_2 (connected c) other) as [up Hu]; [rewrite (ln_connected _ HL); lia|].
  rewrite Hu in *. cbn [or_panic mbind result_bind]. destruct up; rewrite ?bool_decide_true, ?bool_decide_false in * by done; [|done].
  destruct Hup as [names Hn]; [done|]. unfold end_of. rewrite Hn. cbn [mjoin option_join or_panic mbind result_bind].
  destruct (lookup_lt_is_Some_2 names b) as [e He]; [rewrite (HN _ _ Hn); lia|]. by rewrite He.
Qed.

(** The ends that [disconnect] and [connect] set. *)
Definition ends_around (ok : nat → bool) c i : list name :=
  (seq 0 (n c) ≫= λ j, if ok j then end_of c i j else []) ++ (seq 0 (n c) ≫= λ j, if ok j then end_of c j i else []).

Lemma ends_around_elem ok c i e : e ∈ ends_around ok c i ↔
  ∃ a b names s, endnames c !! a = Some (Some names) ∧ names !! b = Some s ∧ e = EndName s ∧
    ((a = i ∧ (b < n c)%nat ∧ ok b = true) ∨ (b = i ∧ (a < n c)%nat ∧ ok a = true)).
Proof.
  unfold ends_around. rewrite elem_of_app, !list_elem_of_bind. split.
  - intros [(j & He & Hj%elem_of_seq)|(j & He & Hj%elem_of_seq)]; destruct (ok j) eqn:Ok; try (by apply elem_of_nil in He);
      apply end_of_elem in He as (names & s & H1 & H2 & ->).
    + exists i, j, names, s. split_and!; [done..|]. left. split_and!; [done|lia|done].
    + exists j, i, names, s. split_and!; [done..|]. right. split_and!; [done|lia|done].
  - intros (a & b & names & s & H1 & H2 & -> & [(-> & Hb & Ho)|(-> & Ha & Ho)]).
    + left. exists b. rewrite Ho. split; [|apply elem_of_seq; lia]. apply end_of_elem. eauto.
    + right. exists a. rewrite Ho. split; [|apply elem_of_seq; lia]. apply end_of_elem. eauto.
Qed.

Lemma write_ok {A} (l : list A) i x : (i < length l)%nat → write (V:=V) l i x = Val (<[i := x]> l).
Proof. intros Hi. unfold write. by rewrite decide_True. Qed.

Lemma disconnect_eq c i : lengths_ok c → names_ok c → (i < n c)%nat →
  disconnect i c = Val (set_net (enable_all false (ends_around (λ _, true) c i) (net c)) (set_connected (<[i := false]> (connected c)) c)).
Proof.
  intros HL HN Hi. unfold disconnect. rewrite write_ok by (by rewrite (ln_connected _ HL)). cbn [mbind result_bind].
  set (c' := set_connected _ c). assert (HL' : lengths_ok c').
  { destruct HL. split; try done. simpl. by rewrite length_insert. }
  assert (HN' : names_ok c') by done. unfold ends_around. rewrite <- enable_all_app.
  rewrite <- (set_net_same c') at 2.
  rewrite (for_each_enable c' false _ _ (λ j, end_of c i j)) by (intros; by apply (disconnect_end_ok c')).
  cbn [mbind result_bind].
  by rewrite (for_each_enable c' false _ _ (λ j, end_of c j i)) by (intros; by apply (disconnect_end_ok c')).
Qed.

Lemma connect_eq c i : lengths_ok c → names_ok c → (i < n c)%nat →
  (∃ names, endnames c !! i = Some (Some names)) →
  (∀ j, connected c !! j = Some true → ∃ names, endnames c !! j = Some (Some names)) →
  let c' := set_connected (<[i := true]> (connected c)) c in
  connect i c = Val (set_net (enable_all true (ends_around (is_up c') c' i) (net c)) c').
Proof.
  intros HL HN Hi Hni Hnj c'. unfold connect. rewrite write_ok by (by rewrite (ln_connected _ HL)). cbn [mbind result_bind].
  fold c'. assert (HL' : lengths_ok c').
  { destruct HL. split; try done. simpl. by rewrite length_insert. }
  assert (HN' : names_ok c') by done. unfold ends_around. rewrite <- enable_all_app.
  rewrite <- (set_net_same c') at 2.
  rewrite (for_each_enable c' true _ _ (λ j, if is_up c' j then end_of c' i j else [])) by
    (intros; by apply (connect_end_ok c')).
  cbn [mbind result_bind].
  rewrite (for_each_enable c' true _ _ (λ j, if is_up c' j then end_of c' j i else [])); [done|].
  intros j nt Hj. apply (connect_end_ok c'); [done..|]. unfold is_up. intros Hup%bool_decide_eq_true.
  simpl in Hup. destruct (decide (j = i)) as [->|Hne]; [done|]. rewrite list_lookup_insert_ne in Hup by done. by apply Hnj.
Qed.

(** ** Connecting and disconnecting *)

Lemma wired_names w : wired w → names_ok (w_cfg w).
Proof.
  intros HW a names Ha. destruct (wi_endnames _ HW a names Ha) as (r & rf & Hr & _).
  destruct (wi_objects _ HW _ _ _ Hr) as [i Ho]. apply Ho.
Qed.

(** The current ends of a server are those of an object of that server. *)
Lemma end_owner w r rf ns i j s a b names : wired w →
  w_rafts w !! r = Some (rf, ns) → object_ok w r rf ns i → ns !! j = Some s →
  endnames (w_cfg w) !! a = Some (Some names) → names !! b = Some s → a = i ∧ b = j.
Proof.
  intros HW Hr Ho Hs Ha Hb. destruct (wi_endnames _ HW a names Ha) as (r' & rf' & Hr' & Hme).
  destruct (wi_names _ HW _ _ _ _ _ _ _ _ _ Hr Hr' Hs Hb) as [<- <-]. rewrite Hr in Hr'. simplify_eq.
  rewrite (ob_me _ _ _ _ _ Ho) in Hme. split; [lia|done].
Qed.

(** The current ends of a running server are those of its object. *)
Lemma running_ends w i r rf ns : wired w → w_rafts w !! r = Some (rf, ns) → rafts (w_cfg w) !! i = Some (Some r) →
  object_ok w r rf ns i ∧ endnames (w_cfg w) !! i = Some (Some ns).
Proof.
  intros HW Hr Hi. destruct (wi_rafts _ HW i r Hi) as (rf' & ns' & Hr' & Hme & _ & Hn). rewrite Hr in Hr'. simplify_eq.
  destruct (wi_objects _ HW _ _ _ Hr) as [i' Ho]. assert (i' = i) as ->; [|done].
  rewrite (ob_me _ _ _ _ _ Ho) in Hme. lia.
Qed.

Lemma running_again w i r r' rf ns j s : wired w → w_rafts w !! r = Some (rf, ns) → ns !! j = Some s →
  rafts (w_cfg w) !! i = Some (Some r') → ∀ names, endnames (w_cfg w) !! i = Some (Some names) → s ∈ names → r' = r.
Proof.
  intros HW Hr Hs Hi names Hn [k Hk]%list_elem_of_lookup. destruct (wi_rafts _ HW i r' Hi) as (rf' & ns' & Hr' & _ & _ & Hn').
  rewrite Hn in Hn'. simplify_eq. by destruct (wi_names _ HW _ _ _ _ _ _ _ _ _ Hr' Hr Hk Hs).
Qed.

(** A change of [connected] and of what is enabled. *)
Lemma wired_enable w cn nt :
  wired w → length cn = n (w_cfg w) →
  ends nt = ends (net (w_cfg w)) → connections nt = connections (net (w_cfg w)) → servers nt = servers (net (w_cfg w)) →
  (∀ i, cn !! i = Some true → ∃ r, rafts (w_cfg w) !! i = Some (Some r)) →
  let c' := set_net nt (set_connected cn (w_cfg w)) in
  (∀ r rf ns i j s, w_rafts w !! r = Some (rf, ns) → object_ok w r rf ns i → ns !! j = Some s →
     ∃ b, enabled nt !! EndName s = Some b ∧ (b = true ↔ online c' i r ∧ cn !! j = Some true)) →
  wired (with_cfg c' w).
Proof.
  intros HW Hl He Hc Hs Hcn c' Hen. destruct HW as [[]]. split; simpl; try done.
  - intros r rf ns Hr. destruct (wi_objects0 r rf ns Hr) as [i Ho]. exists i. pose proof Ho as [].
    split; simpl; try done; [by rewrite He|by rewrite Hc|]. intros j e Hj. by apply (Hen r rf ns).
  - by rewrite Hs.
  - by rewrite Hs.
Qed.

Lemma is_up_eq c i : is_up c i = bool_decide (connected c !! i = Some true).
Proof. done. Qed.

Lemma wired_disconnect w i : wired w → (i < n (w_cfg w))%nat →
  ∃ c', disconnect i (w_cfg w) = Val c' ∧ wired (with_cfg c' w) ∧ connected c' = <[i := false]> (connected (w_cfg w)) ∧
        rafts c' = rafts (w_cfg w) ∧ saved c' = saved (w_cfg w) ∧ n c' = n (w_cfg w) ∧ logs c' = logs (w_cfg w).
Proof.
  intros HW Hi. pose proof (wi_lengths _ HW) as HL. pose proof (wired_names _ HW) as HN.
  rewrite (disconnect_eq _ _ HL HN Hi). eexists. split; [done|]. split; [|done].
  set (es := ends_around _ _ _). destruct (enable_all_others false es (net (w_cfg w))) as (E1 & E2 & E3 & _).
  assert (Hci : (<[i:=false]> (connected (w_cfg w)) !! i = Some false)).
  { apply list_lookup_insert_eq. by rewrite (ln_connected _ HL). }
  apply wired_enable; try done.
  - by rewrite length_insert, (ln_connected _ HL).
  - intros j Hj. destruct (decide (j = i)) as [->|Hne]; [congruence|]. rewrite list_lookup_insert_ne in Hj by done.
    by apply (wi_connected _ HW).
  - intros r rf ns i0 j s Hr Ho Hs. rewrite enable_all_enabled.
    assert (Hin : rafts (w_cfg w) !! i0 = Some (Some r) → i0 = i ∨ j = i → EndName s ∈ es).
    { intros Hi0 Hor. destruct (running_ends _ _ _ _ _ HW Hr Hi0) as [_ Hn]. apply ends_around_elem.
      exists i0, j, ns, s. split_and!; [done..|]. pose proof (lookup_lt_Some _ _ _ Hs).
      rewrite (ob_length _ _ _ _ _ Ho) in *. pose proof (ob_lt _ _ _ _ _ Ho). naive_solver. }
    destruct (ob_enabled _ _ _ _ _ Ho j s Hs) as (b & Hb & Hiff). unfold online in *. simpl.
    destruct (decide (i0 = i ∨ j = i)) as [Hor|Hno].
    + case_decide as Hd.
      * exists false. split; [done|]. split; [done|]. intros [[_ H1] H2]. destruct Hor as [-> | ->]; congruence.
      * exists b. split; [done|]. split.
        -- intros [[Hi0 _] _]%Hiff. by destruct Hd; apply Hin.
        -- intros [[Hi0 _] _]. by destruct Hd; apply Hin.
    + exists b. rewrite !list_lookup_insert_ne by naive_solver. rewrite decide_False; [done|].
      intros (a & b' & names & s' & Ha & Hb' & [= <-] & Hor)%ends_around_elem.
      destruct (end_owner _ _ _ _ _ _ _ _ _ _ HW Hr Ho Hs Ha Hb') as [-> ->]. naive_solver.
Qed.

Lemma wired_connect w i r : wired w → rafts (w_cfg w) !! i = Some (Some r) →
  ∃ c', connect i (w_cfg w) = Val c' ∧ wired (with_cfg c' w) ∧ connected c' = <[i := true]> (connected (w_cfg w)) ∧
        rafts c' = rafts (w_cfg w) ∧ n c' = n (w_cfg w).
Proof.
  intros HW Hri. pose proof (wi_lengths _ HW) as HL. pose proof (wired_names _ HW) as HN.
  assert (Hi : (i < n (w_cfg w))%nat) by (rewrite <- (ln_rafts _ HL); by eapply lookup_lt_Some).
  assert (Hhas : ∀ j r', rafts (w_cfg w) !! j = Some (Some r') → ∃ names, endnames (w_cfg w) !! j = Some (Some names)).
  { intros j r' Hj. destruct (wi_rafts _ HW j r' Hj) as (? & ns & _ & _ & _ & ?). eauto. }
  rewrite (connect_eq _ _ HL HN Hi).
  2: by eapply Hhas.
  2:{ intros j [r' Hj]%(wi_connected _ HW). by eapply Hhas. }
  eexists. split; [done|]. split; [|done]. set (cn := <[i := true]> (connected (w_cfg w))). set (c1 := set_connected cn (w_cfg w)).
  set (es := ends_around _ _ _). destruct (enable_all_others true es (net (w_cfg w))) as (E1 & E2 & E3 & _).
  assert (Hci : cn !! i = Some true) by (apply list_lookup_insert_eq; by rewrite (ln_connected _ HL)).
  assert (Hrun : ∀ j, cn !! j = Some true → ∃ r, rafts (w_cfg w) !! j = Some (Some r)).
  { intros j Hj. destruct (decide (j = i)) as [->|Hne]; [by exists r|]. unfold cn in Hj. rewrite list_lookup_insert_ne in Hj by done.
    by apply (wi_connected _ HW). }
  apply wired_enable; try done.
  { unfold cn. by rewrite length_insert, (ln_connected _ HL). }
  intros r0 rf ns i0 j s Hr Ho Hs. rewrite enable_all_enabled.
  destruct (ob_enabled _ _ _ _ _ Ho j s Hs) as (b0 & Hb0 & Hiff). unfold online in *. simpl.
  case_decide as Hd.
  - exists true. split; [done|]. apply ends_around_elem in Hd as (a & b & names & s' & Ha & Hb & [= <-] & Hor).
    destruct (end_owner _ _ _ _ _ _ _ _ _ _ HW Hr Ho Hs Ha Hb) as [-> ->].
    assert (Hup : cn !! i0 = Some true ∧ cn !! j = Some true).
    { unfold is_up in Hor. rewrite !bool_decide_eq_true in Hor. change (connected c1) with cn in Hor. naive_solver. }
    destruct Hup as [Hup1 Hup2]. destruct (Hrun i0 Hup1) as [r1 Hr1].
    assert (r1 = r0) as -> by (eapply running_again; [done..|by eapply list_elem_of_lookup_2]). done.
  - assert (Hold : ∀ j, connected (w_cfg w) !! j = Some true → cn !! j = Some true).
    { intros k Hk. unfold cn. destruct (decide (k = i)) as [->|]; [done|by rewrite list_lookup_insert_ne]. }
    exists b0. split; [done|].
    destruct (decide (i0 = i ∨ j = i)) as [Hor|Hno]; [|unfold cn; by rewrite !list_lookup_insert_ne by naive_solver].
    assert (Hnot : ¬ (rafts (w_cfg w) !! i0 = Some (Some r0) ∧ cn !! i0 = Some true ∧ cn !! j = Some true)).
    { intros (Hi0 & Hu & Hu'). apply Hd. destruct (running_ends _ _ _ _ _ HW Hr Hi0) as [_ Hn].
      apply ends_around_elem. exists i0, j, ns, s. split_and!; [done..|]. pose proof (lookup_lt_Some _ _ _ Hs).
      rewrite (ob_length _ _ _ _ _ Ho) in *. pose proof (ob_lt _ _ _ _ _ Ho). unfold is_up. rewrite !bool_decide_eq_true.
      change (connected c1) with cn. naive_solver. }
    rewrite Hiff. split; [intros [[? ?%Hold] ?%Hold]|intros [[? ?] ?]]; by destruct Hnot.
Qed.

(** ** What is saved *)

(** The bytes [saved[i]] holds; a server that has no persister yet has saved none. *)
Definition content w i : list Byte.byte * list Byte.byte :=
  default ([], []) (
    p ← mjoin (saved (w_cfg w) !! i);
    ps ← w_persisters w !! p;
    Some (Persister.bytes_of (w_store w) (Persister.raftstate ps), Persister.bytes_of (w_store w) (Persister.snapshot ps))).

Lemma bytes_app m k s : slice_ok m s → Persister.bytes_of (m ++ k) s = Persister.bytes_of m s.
Proof. destruct s as [s|]; [|done]. simpl. intros Hlt. by rewrite lookup_app_l. Qed.

Lemma slice_ok_app m k s : slice_ok m s → slice_ok (m ++ k) s.
Proof. destruct s as [s|]; [|done]. simpl. rewrite length_app. lia. Qed.

Lemma persister_ok_app m k ps : persister_ok m ps → persister_ok (m ++ k) ps.
Proof. intros []. split; by apply slice_ok_app. Qed.

(** The part of the invariant that is about what is saved. *)
Record saves_ok w : Prop := Saves {
  so_lengths : lengths_ok (w_cfg w);
  so_saved i p : saved (w_cfg w) !! i = Some (Some p) → (p < length (w_persisters w))%nat;
  so_persisters p ps : w_persisters w !! p = Some ps → persister_ok (w_store w) ps;
}.

Lemma wired_saves w : wired w → saves_ok w.
Proof. intros HW. split; apply HW. Qed.

(** [w'] is [w] with perhaps another persister for server [i], of the same
    contents, and with other logs. *)
Record resaved i w w' : Prop := Resaved {
  rs_n : n (w_cfg w') = n (w_cfg w);
  rs_net : net (w_cfg w') = net (w_cfg w);
  rs_rafts : rafts (w_cfg w') = rafts (w_cfg w);
  rs_connected : connected (w_cfg w') = connected (w_cfg w);
  rs_endnames : endnames (w_cfg w') = endnames (w_cfg w);
  rs_logs : length (logs (w_cfg w')) = length (logs (w_cfg w));
  rs_lastApplied : length (lastApplied (w_cfg w')) = length (lastApplied (w_cfg w));
  rs_length : length (saved (w_cfg w')) = length (saved (w_cfg w));
  rs_other j : j ≠ i → saved (w_cfg w') !! j = saved (w_cfg w) !! j;
  rs_objects : w_rafts w' = w_rafts w;
  rs_servers : w_servers w' = w_servers w;
  rs_persisters : ∃ l, w_persisters w' = w_persisters w ++ l;
  rs_store : ∃ k, w_store w' = w_store w ++ k;
  rs_ok p ps : w_persisters w' !! p = Some ps → persister_ok (w_store w') ps;
  rs_valid p : saved (w_cfg w') !! i = Some (Some p) → (p < length (w_persisters w'))%nat;
  rs_content : content w' i = content w i;
}.

Lemma content_same w w' i ps ps' p p' :
  saved (w_cfg w) !! i = Some (Some p) → w_persisters w !! p = Some ps →
  saved (w_cfg w') !! i = Some (Some p') → w_persisters w' !! p' = Some ps' →
  Persister.bytes_of (w_store w') (Persister.raftstate ps') = Persister.bytes_of (w_store w) (Persister.raftstate ps) →
  Persister.bytes_of (w_store w') (Persister.snapshot ps') = Persister.bytes_of (w_store w) (Persister.snapshot ps) →
  content w' i = content w i.
Proof.
  unfold content. intros H1 Hp H2 Hp' E1 E2. rewrite H1, H2. cbn [mjoin option_join mbind option_bind].
  rewrite Hp, Hp'. cbn [mbind option_bind].
  by rewrite <- E1, <- E2.
Qed.

Lemma resaved_refl i w : saves_ok w → resaved i w w.
Proof.
  intros HW. split; try done; [by exists []; rewrite app_nil_r..| |]; apply HW.
Qed.

Lemma resaved_trans i w1 w2 w3 : resaved i w1 w2 → resaved i w2 w3 → resaved i w1 w3.
Proof.
  intros [] []. split; try congruence; try done.
  - intros j Hj. rewrite <- (rs_other0 j Hj). by apply rs_other1.
  - destruct rs_persisters0 as [l E], rs_persisters1 as [l' ->]. rewrite E, <- app_assoc. eauto.
  - destruct rs_store0 as [l E], rs_store1 as [l' ->]. rewrite E, <- app_assoc. eauto.
Qed.

Lemma wired_resaved i w w' : wired w → resaved i w w' → wired w'.
Proof.
  intros HW HR. destruct HW as [[] ? ? ? ? ? ? ? ? ?]. destruct HR.
  destruct rs_persisters0 as [l Hl], rs_store0 as [k Hk].
  split; [split; congruence|..]; rewrite ?rs_objects0, ?rs_rafts0, ?rs_connected0, ?rs_endnames0, ?rs_net0, ?rs_servers0; try done.
  - intros r rf ns Hr. destruct (wi_objects0 r rf ns Hr) as [i0 Ho]. exists i0. destruct Ho.
    split; rewrite ?rs_net0, ?rs_rafts0, ?rs_n0, ?rs_connected0; unfold online; rewrite ?rs_rafts0, ?rs_connected0; done.
  - intros j p. destruct (decide (j = i)) as [->|Hne]; [apply rs_valid0|]. rewrite rs_other0 by done.
    intros Hp. rewrite Hl, length_app. specialize (wi_saved0 _ _ Hp). lia.
Qed.

(** A new persister for server [i] with the old contents. *)
Lemma resaved_new i w p ps k ps' :
  saves_ok w → saved (w_cfg w) !! i = Some (Some p) → w_persisters w !! p = Some ps →
  persister_ok (w_store w ++ k) ps' →
  Persister.bytes_of (w_store w ++ k) (Persister.raftstate ps') = Persister.bytes_of (w_store w) (Persister.raftstate ps) →
  Persister.bytes_of (w_store w ++ k) (Persister.snapshot ps') = Persister.bytes_of (w_store w) (Persister.snapshot ps) →
  resaved i w (World (set_saved (<[i := Some (length (w_persisters w))]> (saved (w_cfg w))) (w_cfg w)) (w_rafts w)
                 (w_persisters w ++ [ps']) (w_store w ++ k) (w_servers w)).
Proof.
  intros HW Hp Hps Hok E1 E2. assert (Hi : (i < length (saved (w_cfg w)))%nat) by (by eapply lookup_lt_Some).
  split; simpl; try done.
  - by rewrite length_insert.
  - intros j Hj. by rewrite list_lookup_insert_ne.
  - eauto.
  - eauto.
  - intros q x [[_ Hq]|[_ <-]]%lookup_snoc_Some; [|done]. apply persister_ok_app. by apply (so_persisters _ HW q).
  - intros q. rewrite list_lookup_insert_eq by done. intros [= <-]. rewrite length_app. simpl. lia.
  - apply (content_same w _ i ps ps' p (length (w_persisters w)) Hp Hps); simpl; [by apply list_lookup_insert_eq|by apply list_lookup_middle|done|done].
Qed.

Lemma copy_saved_ok i w : saves_ok w → (i < n (w_cfg w))%nat →
  ∃ w', copy_saved i w = Val w' ∧ resaved i w w' ∧
        (saved (w_cfg w) !! i = Some None → w' = w) ∧
        (∀ p, saved (w_cfg w) !! i = Some (Some p) → saved (w_cfg w') !! i = Some (Some (length (w_persisters w))) ∧
              logs (w_cfg w') = logs (w_cfg w)).
Proof.
  intros HW Hi. pose proof (so_lengths _ HW) as HL. unfold copy_saved.
  destruct (lookup_lt_is_Some_2 (saved (w_cfg w)) i) as [[p|] Hp]; [by rewrite (ln_saved _ HL)|..]; rewrite Hp; cbn [or_panic mbind result_bind].
  - destruct (lookup_lt_is_Some_2 (w_persisters w) p) as [ps Hps]; [by apply (so_saved _ HW i)|]. rewrite Hps. cbn [or_panic mbind result_bind].
    rewrite write_ok by (by rewrite (ln_saved _ HL)). cbn [mbind result_bind]. eexists. split; [done|]. split_and!.
    + rewrite <- (app_nil_r (w_store w)) at 1. rewrite Persister.Copy_eq.
      eapply resaved_new; rewrite ?app_nil_r; try done. by eapply so_persisters.
    + done.
    + intros q _. simpl. split; [|done]. apply list_lookup_insert_eq. by rewrite (ln_saved _ HL).
  - exists w. split; [done|]. split; [by apply resaved_refl|]. split; [done|]. intros p' Hp'. congruence.
Qed.

(** The last part of [crash1]: the contents are read and saved in a new persister. *)
Definition save_again i w : result V world :=
  sv ← or_panic (saved (w_cfg w) !! i);
  match sv with
  | None => Val w
  | Some p =>
      ps ← or_panic (w_persisters w !! p);
      let '(m, raftlog) := Persister.ReadRaftState (w_store w) ps in
      let '(m, snapshot) := Persister.ReadSnapshot m ps in
      sv ← write (saved (w_cfg w)) i (Some (length (w_persisters w)));
      let '(m, ps) := Persister.Save m Persister.MakePersister raftlog snapshot in
      Val (World (set_saved sv (w_cfg w)) (w_rafts w) (w_persisters w ++ [ps]) m (w_servers w))
  end.

(** All of the array that was allocated last but [length l]. *)
Lemma bytes_alloc (m : list (list Byte.byte)) bs l k :
  k = length m → Persister.bytes_of (m ++ bs :: l) (Some (Persister.Slice k 0 (length bs))) = bs.
Proof. intros ->. simpl. rewrite list_lookup_middle by done. simpl. by rewrite firstn_all. Qed.

Lemma save_again_ok i w : saves_ok w → (i < n (w_cfg w))%nat →
  ∃ w', save_again i w = Val w' ∧ resaved i w w' ∧ logs (w_cfg w') = logs (w_cfg w) ∧
        (saved (w_cfg w) !! i = Some None → saved (w_cfg w') !! i = Some None) ∧
        (∀ p, saved (w_cfg w) !! i = Some (Some p) → saved (w_cfg w') !! i = Some (Some (length (w_persisters w)))).
Proof.
  intros HW Hi. pose proof (so_lengths _ HW) as HL. unfold save_again.
  destruct (lookup_lt_is_Some_2 (saved (w_cfg w)) i) as [[p|] Hp]; [by rewrite (ln_saved _ HL)|..]; rewrite Hp; cbn [or_panic mbind result_bind].
  2:{ exists w. split; [done|]. split; [by apply resaved_refl|]. split; [done|]. split; [done|]. intros p' Hp'. congruence. }
  destruct (lookup_lt_is_Some_2 (w_persisters w) p) as [ps Hps]; [by apply (so_saved _ HW i)|]. rewrite Hps. cbn [or_panic mbind result_bind].
  pose proof (so_persisters _ HW _ _ Hps) as [Ho1 Ho2].
  unfold Persister.ReadRaftState, Persister.ReadSnapshot, Persister.Save, Persister.clone, Persister.alloc.
  rewrite write_ok by (by rewrite (ln_saved _ HL)). cbn [mbind result_bind Persister.raftstate Persister.snapshot Persister.MakePersister].
  set (a := Persister.bytes_of (w_store w) (Persister.raftstate ps)).
  rewrite (bytes_app _ [a] _ Ho2). set (b := Persister.bytes_of (w_store w) (Persister.snapshot ps)).
  rewrite <- !app_assoc. cbn [app].
  rewrite (bytes_alloc (w_store w) a) by done. eexists. split; [done|].
  replace (w_store w ++ [a; b; a]) with ((w_store w ++ [a]) ++ [b; a]) by (by rewrite <- app_assoc).
  rewrite (bytes_alloc (w_store w ++ [a]) b) by done. rewrite <- !app_assoc. cbn [app]. split; [|split_and!; simpl; [done|congruence|]].
  - eapply resaved_new; [done..| | |].
    + split; simpl; rewrite !length_app; simpl; lia.
    + cbn [Persister.raftstate]. replace (w_store w ++ [a; b; a; b]) with ((w_store w ++ [a; b]) ++ [a; b]) by (by rewrite <- app_assoc).
      apply bytes_alloc. by rewrite !length_app.
    + cbn [Persister.snapshot]. replace (w_store w ++ [a; b; a; b]) with ((w_store w ++ [a; b; a]) ++ [b]) by (by rewrite <- app_assoc).
      apply bytes_alloc. by rewrite !length_app.
  - intros _ _. apply list_lookup_insert_eq. by rewrite (ln_saved _ HL).
Qed.

(** ** Crashes *)

Definition del_server i w : world := with_cfg (set_net (DeleteServer (ServerName i) (net (w_cfg w))) (w_cfg w)) w.

(** The middle part of [crash1]. *)
Definition stop_raft i w : result V world :=
  rf ← or_panic (rafts (w_cfg w) !! i);
  match rf with
  | None => Val w
  | Some r => w ← kill_raft r w; rs ← write (rafts (w_cfg w)) i None; Val (with_cfg (set_rafts rs (w_cfg w)) w)
  end.

Lemma crash1_eq i w :
  crash1 i w = (c ← disconnect i (w_cfg w); w ← copy_saved i (del_server i (with_cfg c w)); w ← stop_raft i w; save_again i w).
Proof.
  unfold crash1. destruct (disconnect i (w_cfg w)) as [| | | |c]; [done..|]. cbn [mbind result_bind].
  unfold del_server, with_cfg. cbn [w_cfg w_rafts w_persisters w_store w_servers]. destruct (copy_saved _ _) as [| | | |w2]; [done..|]. cbn [mbind result_bind].
  unfold stop_raft. by destruct (or_panic _).
Qed.

(** Server [i] without its Raft object, which is killed, and its server of labrpc. *)
Definition killed_objects i w : list (Raft.Raft * list string) :=
  match rafts (w_cfg w) !! i with
  | Some (Some r) => alter (λ o, (Raft.Kill o.1, o.2)) r (w_rafts w)
  | _ => w_rafts w
  end.

Definition stopped i w : world :=
  World (set_rafts (<[i := None]> (rafts (w_cfg w))) (set_net (DeleteServer (ServerName i) (net (w_cfg w))) (w_cfg w)))
    (killed_objects i w) (w_persisters w) (w_store w) (w_servers w).

Lemma killed_object i w r rf ns : killed_objects i w !! r = Some (rf, ns) →
  ∃ rf0, w_rafts w !! r = Some (rf0, ns) ∧ Raft.me rf = Raft.me rf0 ∧
    (rafts (w_cfg w) !! i = Some (Some r) ∧ Raft.dead rf = 1 ∨ rafts (w_cfg w) !! i ≠ Some (Some r) ∧ rf = rf0).
Proof.
  unfold killed_objects. destruct (rafts (w_cfg w) !! i) as [[r0|]|] eqn:E; [|intros Hr; exists rf; auto..].
  destruct (decide (r0 = r)) as [<-|Hne].
  - rewrite list_lookup_alter_eq. intros ([rf0 ns0] & Hr & [= -> ->])%fmap_Some. exists rf0. auto.
  - rewrite list_lookup_alter_ne by done. intros Hr. exists rf. split_and!; [done..|]. right. split; [congruence|done].
Qed.

Lemma killed_other i w r rf ns : w_rafts w !! r = Some (rf, ns) →
  ∃ rf', killed_objects i w !! r = Some (rf', ns) ∧ Raft.me rf' = Raft.me rf ∧
         (rafts (w_cfg w) !! i ≠ Some (Some r) → rf' = rf).
Proof.
  unfold killed_objects. intros Hr. destruct (rafts (w_cfg w) !! i) as [[r0|]|] eqn:E; [|by exists rf..].
  destruct (decide (r0 = r)) as [<-|Hne].
  - exists (Raft.Kill rf). rewrite list_lookup_alter_eq, Hr. done.
  - exists rf. by rewrite list_lookup_alter_ne.
Qed.

Lemma killed_length i w : length (killed_objects i w) = length (w_rafts w).
Proof. unfold killed_objects. destruct (rafts _ !! i) as [[r|]|]; [by rewrite length_alter|done..]. Qed.

Lemma stopped_object i w r rf ns : wired w → connected (w_cfg w) !! i = Some false →
  killed_objects i w !! r = Some (rf, ns) → ∃ i0, object_ok (stopped i w) r rf ns i0.
Proof.
  intros HW Hci Hr. destruct (killed_object _ _ _ _ _ Hr) as (rf0 & Hr0 & Hme & Hst).
  destruct (wi_objects _ HW _ _ _ Hr0) as [i0 Ho]. exists i0. destruct Ho as [E1 E2 E3 E4 E5 E6 E7].
  split; simpl; try done; [congruence|..].
  - destruct Hst as [[_ Hd]|[Hne ->]]; [by left|]. destruct E4 as [|[Hc Hd]]; [by left|]. right. split; [|done].
    destruct (decide (i0 = i)) as [->|]; [congruence|]. by rewrite list_lookup_insert_ne.
  - intros j e He. destruct (E7 j e He) as (b & Hb & Hiff). exists b. split; [done|]. rewrite Hiff. unfold online. simpl.
    destruct (decide (i0 = i)) as [->|]; [|by rewrite list_lookup_insert_ne].
    split; intros [[_ ?] _]; congruence.
Qed.

Lemma wired_stopped i w : wired w → (i < n (w_cfg w))%nat → connected (w_cfg w) !! i = Some false → wired (stopped i w).
Proof.
  intros HW Hi Hci. pose proof (wi_lengths _ HW) as HL. assert (Hlt : (i < length (rafts (w_cfg w)))%nat) by (by rewrite (ln_rafts _ HL)).
  split; simpl; try apply HW.
  - destruct HL. split; try done. simpl. by rewrite length_insert.
  - intros r rf ns. by apply stopped_object.
  - intros r rf1 ns r' rf2 ns' j j' e (? & Hr & _)%killed_object (? & Hr' & _)%killed_object.
    by apply (wi_names _ HW _ _ _ _ _ _ _ _ _ Hr Hr').
  - intros j r. destruct (decide (j = i)) as [->|Hne]; [by rewrite list_lookup_insert_eq|].
    rewrite list_lookup_insert_ne by done. intros Hj. destruct (wi_rafts _ HW j r Hj) as (rf0 & ns & Hr & Hme & Hd & Hn).
    destruct (killed_other i w r rf0 ns Hr) as (rf' & Hr' & _ & Heq). exists rf', ns. rewrite Heq; [rewrite <- Heq at 1; [done|]|].
    all: intros Hri; destruct (running_ends _ _ _ _ _ HW Hr Hri) as [Ho _]; rewrite (ob_me _ _ _ _ _ Ho) in Hme; lia.
  - intros j ns Hn. destruct (wi_endnames _ HW j ns Hn) as (r & rf0 & Hr & Hme).
    destruct (killed_other i w r rf0 ns Hr) as (rf' & Hr' & Hm & _). exists r, rf'. split; [done|congruence].
  - intros j r. destruct (decide (j = i)) as [->|Hne]; [by rewrite list_lookup_insert_eq|].
    rewrite list_lookup_insert_ne by done. intros Hj. destruct (wi_server _ HW j r Hj) as (o & srv & Hs & Hsrv).
    exists o, srv. split; [|done]. unfold read in *. simpl. by rewrite lookup_insert_ne by congruence.
  - intros j. unfold read. simpl. destruct (decide (j = i)) as [->|Hne]; [by rewrite lookup_insert_eq|].
    rewrite list_lookup_insert_ne by done. rewrite lookup_insert_ne by congruence. apply (wi_down _ HW).
  - intros j Hj. destruct (wi_connected _ HW j Hj) as [r Hr]. exists r. rewrite list_lookup_insert_ne by congruence. done.
Qed.

(** A world in which server [i] was resaved stops like the world itself. *)
Lemma stop_raft_ok i w0 w : wired w0 → (i < n (w_cfg w0))%nat → resaved i (del_server i w0) w →
  ∃ w', stop_raft i w = Val w' ∧ resaved i (stopped i w0) w' ∧ w_persisters w' = w_persisters w ∧
        saved (w_cfg w') = saved (w_cfg w) ∧ logs (w_cfg w') = logs (w_cfg w).
Proof.
  intros HW Hi HR. pose proof (wi_lengths _ HW) as HL. destruct HR. unfold stop_raft. rewrite rs_rafts0. simpl.
  destruct (lookup_lt_is_Some_2 (rafts (w_cfg w0)) i) as [[r|] Hrf]; [by rewrite (ln_rafts _ HL)|..]; rewrite Hrf; cbn [or_panic mbind result_bind].
  - destruct (wi_rafts _ HW i r Hrf) as (rf & ns & Hr & _). unfold kill_raft. rewrite rs_objects0. simpl. rewrite Hr.
    cbn [or_panic mbind result_bind w_cfg]. rewrite rs_rafts0. simpl. rewrite write_ok by (by rewrite (ln_rafts _ HL)).
    cbn [mbind result_bind]. eexists. split; [done|]. split; [|done]. split; simpl; try done.
    unfold killed_objects. rewrite Hrf. apply list_eq. intros k. destruct (decide (k = r)) as [->|Hne].
    + rewrite list_lookup_insert_eq, list_lookup_alter_eq, Hr by (by eapply lookup_lt_Some). done.
    + by rewrite list_lookup_insert_ne, list_lookup_alter_ne by done.
  - exists w. split; [done|]. split; [|done]. split; simpl; try done.
    + rewrite list_insert_id by done. done.
    + unfold killed_objects. by rewrite Hrf.
Qed.

Lemma saves_del i w : saves_ok w → saves_ok (del_server i w).
Proof. intros [[] ? ?]. by split. Qed.

(** What [crash1] leaves: server [i] is gone and off the network, and its saved
    bytes are in a persister nobody else has. *)
Record crashed i w w' : Prop := Crashed {
  cr_wired : wired w';
  cr_rafts : rafts (w_cfg w') = <[i := None]> (rafts (w_cfg w));
  cr_connected : connected (w_cfg w') = <[i := false]> (connected (w_cfg w));
  cr_n : n (w_cfg w') = n (w_cfg w);
  cr_content : content w' i = content w i;
  cr_fresh p : saved (w_cfg w') !! i = Some (Some p) → (length (w_persisters w) ≤ p)%nat;
  cr_none : saved (w_cfg w) !! i = Some None → saved (w_cfg w') !! i = Some None;
  cr_logs : logs (w_cfg w') = logs (w_cfg w);
  cr_objects : w_rafts w' = killed_objects i w;
  cr_persisters : (length (w_persisters w) ≤ length (w_persisters w'))%nat;
}.

Lemma crash1_ok i w : wired w → (i < n (w_cfg w))%nat → ∃ w', crash1 i w = Val w' ∧ crashed i w w'.
Proof.
  intros HW Hi. rewrite crash1_eq.
  destruct (wired_disconnect w i HW Hi) as (c' & -> & HW1 & Hcn & Hrf & Hsv & Hn & Hlg). cbn [mbind result_bind].
  set (w1 := with_cfg c' w) in *. assert (Hi1 : (i < n (w_cfg w1))%nat) by (simpl; by rewrite Hn).
  assert (Hci : connected (w_cfg w1) !! i = Some false).
  { simpl. rewrite Hcn. apply list_lookup_insert_eq. by rewrite (ln_connected _ (wi_lengths _ HW)). }
  destruct (copy_saved_ok i (del_server i w1)) as (w2 & -> & HR2 & Hnone2 & Hsome2); [by apply saves_del, wired_saves|done|].
  cbn [mbind result_bind]. destruct (stop_raft_ok i w1 w2 HW1 Hi1 HR2) as (w3 & -> & HR3 & Hp3 & Hs3 & Hl3). cbn [mbind result_bind].
  pose proof (wired_resaved _ _ _ (wired_stopped _ _ HW1 Hi1 Hci) HR3) as HW3.
  destruct (save_again_ok i w3 (wired_saves _ HW3)) as (w4 & -> & HR4 & Hl4 & Hnone4 & Hsome4); [rewrite (rs_n _ _ _ HR3); done|].
  exists w4. split; [done|]. pose proof (resaved_trans _ _ _ _ HR3 HR4) as HR. split.
  - by eapply wired_resaved.
  - rewrite (rs_rafts _ _ _ HR). simpl. by rewrite Hrf.
  - rewrite (rs_connected _ _ _ HR). done.
  - rewrite (rs_n _ _ _ HR). done.
  - rewrite (rs_content _ _ _ HR). unfold content. simpl. by rewrite Hsv.
  - intros p Hp. destruct (rs_persisters _ _ _ HR2) as [l Hpl]. simpl in Hpl.
    destruct (lookup_lt_is_Some_2 (saved (w_cfg w3)) i) as [[q|] Hq].
    { rewrite (ln_saved _ (wi_lengths _ HW3)), (rs_n _ _ _ HR3). done. }
    + rewrite (Hsome4 q Hq) in Hp. injection Hp as <-. rewrite Hp3, Hpl, length_app. lia.
    + rewrite (Hnone4 Hq) in Hp. done.
  - intros Hno. assert (E : w2 = del_server i w1) by (apply Hnone2; simpl; by rewrite Hsv). apply Hnone4. rewrite Hs3, E. simpl. by rewrite Hsv.
  - rewrite Hl4, Hl3. destruct (lookup_lt_is_Some_2 (saved (w_cfg (del_server i w1))) i) as [[q|] Hq].
    { change (i < length (saved (w_cfg w1)))%nat. by rewrite (ln_saved _ (wi_lengths _ HW1)). }
    + destruct (Hsome2 q Hq) as [_ ->]. done.
    + rewrite (Hnone2 Hq). done.
  - rewrite (rs_objects _ _ _ HR). simpl. unfold killed_objects. simpl. by rewrite Hrf.
  - destruct (rs_persisters _ _ _ HR2) as [l Hl2], (rs_persisters _ _ _ HR4) as [l' ->].
    rewrite Hp3, Hl2, !length_app. simpl. lia.
Qed.

(** ** Restarts *)

(** The network after the first [m] ends with these names were made and connected. *)
Record new_ends (m : nat) (names : nat → string) (nt0 nt : Network (N:=name)) : Prop := NewEnds {
  ne_fresh j : (j < m)%nat → EndName (names j) ∉ ends nt0;
  ne_inj j j' : (j < m)%nat → (j' < m)%nat → names j = names j' → j = j';
  ne_ends e : e ∈ ends nt ↔ e ∈ ends nt0 ∨ ∃ j, (j < m)%nat ∧ e = EndName (names j);
  ne_enabled j : (j < m)%nat → enabled nt !! EndName (names j) = Some false;
  ne_connections j : (j < m)%nat → read (connections nt) (EndName (names j)) = Some (ServerName j);
  ne_old e : (∀ j, (j < m)%nat → e ≠ EndName (names j)) →
    enabled nt !! e = enabled nt0 !! e ∧ read (connections nt) e = read (connections nt0) e;
  ne_servers : servers nt = servers nt0;
}.

Lemma new_ends_S m names nt0 nt nt' :
  new_ends m names nt0 nt → MakeEnd (EndName (names m)) nt = Some nt' →
  new_ends (S m) names nt0 (Connect (EndName (names m)) (ServerName m) nt').
Proof.
  intros [H1 H2 H3 H4 H5 H6 H7] Hm. unfold MakeEnd in Hm. case_decide as Hd; [done|]. injection Hm as <-.
  assert (Hnew : EndName (names m) ∉ ends nt0 ∧ ∀ j, (j < m)%nat → names j ≠ names m).
  { split; [intros Hin; apply Hd, H3; by left|]. intros j Hj Heq. apply Hd, H3. right. exists j. by rewrite Heq. }
  destruct Hnew as [Hn1 Hn2].
  assert (Hsplit : ∀ j, (j < S m)%nat → (j < m)%nat ∨ j = m) by (intros; lia).
  split; unfold read in *; simpl; [..|done].
  - intros j [Hj| ->]%Hsplit; [by apply H1|done].
  - intros j j' [Hj| ->]%Hsplit [Hj'| ->]%Hsplit E; [by apply H2|by destruct (Hn2 j Hj)|by destruct (Hn2 j' Hj')|done].
  - intros e. rewrite elem_of_union, elem_of_singleton, H3. split.
    + intros [->|[?|(j & ? & ->)]]; [right; exists m; split; [lia|done]|by left|right; exists j; split; [lia|done]].
    + intros [?|(j & [Hj| ->]%Hsplit & ->)]; [by right; left|right; right; by exists j|by left].
  - intros j [Hj| ->]%Hsplit; [|by rewrite lookup_insert_eq]. rewrite lookup_insert_ne by (intros [= E]; by destruct (Hn2 j Hj)). auto.
  - intros j [Hj| ->]%Hsplit; [|by rewrite lookup_insert_eq].
    assert (E : EndName (names m) ≠ EndName (names j)) by (intros [= E]; by destruct (Hn2 j Hj)).
    rewrite !lookup_insert_ne by done. auto.
  - intros e He. assert (E : EndName (names m) ≠ e) by (intros <-; by apply (He m); [lia|]).
    rewrite !lookup_insert_ne by done. apply H6. intros j Hj. apply He. lia.
Qed.

Lemma make_ends_ok i names c m :
  endnames c !! i = Some (Some (names <$> seq 0 (n c))) → (m ≤ n c)%nat →
  (∃ nt, for_each m (make_end i) c = Val (set_net nt c) ∧ new_ends m names (net c) nt) ∨
  for_each m (make_end i) c = LogFatal None.
Proof.
  intros Hn. induction m as [|m IH]; intros Hm.
  { left. exists (net c). split; [by rewrite set_net_same|]. split; try done; try lia. intros e. split; [by left|]. intros [?|(j & ? & _)]; [done|lia]. }
  unfold for_each in *. rewrite seq_S, foldl_app. cbn [foldl]. destruct IH as [(nt & -> & Hne)| ->]; [lia|..|by right].
  cbn [mbind result_bind]. unfold make_end at 1 2. cbn [set_net endnames net].
  rewrite Hn. cbn [mjoin option_join or_panic mbind result_bind].
  rewrite list_lookup_fmap, lookup_seq_lt by lia. cbn [fmap option_fmap option_map or_panic mbind result_bind Nat.add].
  destruct (MakeEnd (EndName (names m)) nt) as [nt'|] eqn:E; [left|by right].
  eexists. split; [done|]. by eapply new_ends_S.
Qed.

(** Server [i] with a new Raft object. *)
Definition started i names nt w : world :=
  let ns := names <$> seq 0 (n (w_cfg w)) in
  let srv := AddService (MakeService types "Raft" (raft_methods (length (w_rafts w)))) MakeServer in
  World (set_rafts (<[i := Some (length (w_rafts w))]> (rafts (w_cfg w)))
           (set_endnames (<[i := Some ns]> (endnames (w_cfg w)))
              (set_net (AddServer (ServerName i) (length (w_servers w)) nt) (w_cfg w))))
        (w_rafts w ++ [(Raft.Make (n (w_cfg w)) (Z.of_nat i), ns)]) (w_persisters w) (w_store w) (w_servers w ++ [srv]).

Lemma names_lookup (names : nat → string) m j e : (names <$> seq 0 m) !! j = Some e → (j < m)%nat ∧ e = names j.
Proof. rewrite list_lookup_fmap. intros (x & [-> Hj]%lookup_seq & ->)%fmap_Some. done. Qed.

(** The old ends are not the new ones. *)
Lemma old_end w r rf ns j e m names nt : wired w → new_ends m names (net (w_cfg w)) nt →
  w_rafts w !! r = Some (rf, ns) → ns !! j = Some e → ∀ k, (k < m)%nat → EndName e ≠ EndName (names k).
Proof.
  intros HW Hne Hr Hj k Hk E. destruct (wi_objects _ HW _ _ _ Hr) as [i Ho].
  apply (ne_fresh _ _ _ _ Hne k Hk). rewrite <- E. by eapply ob_known.
Qed.

Lemma started_object i names nt w r rf ns : wired w → (i < n (w_cfg w))%nat → rafts (w_cfg w) !! i = Some None →
  connected (w_cfg w) !! i = Some false → new_ends (n (w_cfg w)) names (net (w_cfg w)) nt →
  w_rafts (started i names nt w) !! r = Some (rf, ns) → ∃ i0, object_ok (started i names nt w) r rf ns i0.
Proof.
  intros HW Hi Hrf Hci Hne [[Hlt Hr]|[-> [= <- <-]]]%lookup_snoc_Some.
  - destruct (wi_objects _ HW _ _ _ Hr) as [i0 Ho]. exists i0. pose proof Ho as [E1 E2 E3 E4 E5 E6 E7].
    assert (Hsame : rafts (w_cfg (started i names nt w)) !! i0 = Some (Some r) ↔ rafts (w_cfg w) !! i0 = Some (Some r)).
    { simpl. destruct (decide (i0 = i)) as [->|]; [|by rewrite list_lookup_insert_ne].
      rewrite list_lookup_insert_eq by (by eapply lookup_lt_Some). rewrite Hrf. split; [intros [= ?]; lia|done]. }
    split; simpl; try done.
    + rewrite Hsame. done.
    + intros j e He. apply (ne_ends _ _ _ _ Hne). left. by eapply E5.
    + intros j e He. destruct (ne_old _ _ _ _ Hne (EndName e)) as [_ ->]; [by eapply old_end|by eapply E6].
    + intros j e He. destruct (ne_old _ _ _ _ Hne (EndName e)) as [-> _]; [by eapply old_end|].
      destruct (E7 j e He) as (b & Hb & Hiff). exists b. split; [done|]. rewrite Hiff. unfold online. by rewrite Hsame.
  - exists i. split; simpl; try done.
    + by rewrite length_fmap, length_seq.
    + right. split; [|done]. apply list_lookup_insert_eq. by eapply lookup_lt_Some.
    + intros j e [Hj ->]%names_lookup. apply (ne_ends _ _ _ _ Hne). right. eauto.
    + intros j e [Hj ->]%names_lookup. by apply (ne_connections _ _ _ _ Hne).
    + intros j e [Hj ->]%names_lookup. exists false. split; [by apply (ne_enabled _ _ _ _ Hne)|].
      split; [done|]. intros [[_ Ho] _]. simpl in Ho. congruence.
Qed.

Lemma wired_started i names nt w : wired w → (i < n (w_cfg w))%nat → rafts (w_cfg w) !! i = Some None →
  connected (w_cfg w) !! i = Some false → new_ends (n (w_cfg w)) names (net (w_cfg w)) nt → wired (started i names nt w).
Proof.
  intros HW Hi Hrf Hci Hne. pose proof (wi_lengths _ HW) as HL.
  assert (Hend : ∀ r rf ns j e k, w_rafts w !! r = Some (rf, ns) → ns !! j = Some e → (k < n (w_cfg w))%nat → e ≠ names k).
  { intros r rf ns j e k Hr Hj Hk ->. by eapply (old_end w). }
  split; try (simpl; apply HW).
  - destruct HL. split; simpl; try done; by rewrite length_insert.
  - intros r rf ns. by apply started_object.
  - intros r rf1 ns r' rf2 ns' j j' e [[_ Hr]|[-> [= <- <-]]]%lookup_snoc_Some [[_ Hr']|[-> [= <- <-]]]%lookup_snoc_Some Hj Hj'.
    + by eapply (wi_names _ HW _ _ _ _ _ _ _ _ _ Hr Hr').
    + apply names_lookup in Hj' as [? ->]. by destruct (Hend _ _ _ _ _ j' Hr Hj).
    + apply names_lookup in Hj as [? ->]. by destruct (Hend _ _ _ _ _ j Hr' Hj').
    + apply names_lookup in Hj as [? ->], Hj' as [? E]. split; [done|]. by apply (ne_inj _ _ _ _ Hne).
  - intros j r. simpl. destruct (decide (j = i)) as [->|Hne'].
    + rewrite !list_lookup_insert_eq by (rewrite ?(ln_rafts _ HL), ?(ln_endnames _ HL); done). intros [= <-].
      eexists _, _. split; [by apply list_lookup_middle|]. done.
    + rewrite !list_lookup_insert_ne by done. intros (rf & ns & Hr & ?)%(wi_rafts _ HW). exists rf, ns. split; [by apply lookup_app_l_Some|done].
  - intros j ns. simpl. destruct (decide (j = i)) as [->|Hne'].
    + rewrite list_lookup_insert_eq by (by rewrite (ln_endnames _ HL)). intros [= <-].
      eexists _, _. split; [by apply list_lookup_middle|]. done.
    + rewrite list_lookup_insert_ne by done. intros (r & rf & Hr & ?)%(wi_endnames _ HW). exists r, rf. split; [by apply lookup_app_l_Some|done].
  - intros j r. simpl. unfold read. simpl. rewrite (ne_servers _ _ _ _ Hne). destruct (decide (j = i)) as [->|Hne'].
    + rewrite list_lookup_insert_eq, lookup_insert_eq by (by rewrite (ln_rafts _ HL)). intros [= <-].
      eexists _, _. split; [done|]. split; [by apply list_lookup_middle|]. done.
    + rewrite list_lookup_insert_ne, lookup_insert_ne by congruence. intros (o & srv & Ho & Hs & ?)%(wi_server _ HW).
      exists o, srv. split; [done|]. split; [by apply lookup_app_l_Some|done].
  - intros j. simpl. unfold read. simpl. rewrite (ne_servers _ _ _ _ Hne). destruct (decide (j = i)) as [->|Hne'].
    + by rewrite list_lookup_insert_eq by (by rewrite (ln_rafts _ HL)).
    + rewrite list_lookup_insert_ne, lookup_insert_ne by congruence. apply (wi_down _ HW).
  - intros j Hj. simpl. destruct (wi_connected _ HW j Hj) as [r Hr]. exists r. rewrite list_lookup_insert_ne by congruence. done.
Qed.

Lemma saves_resaved i w w' : saves_ok w → resaved i w w' → saves_ok w'.
Proof.
  intros [[] Hs Hp] []. destruct rs_persisters0 as [l Hl]. split; [split; congruence| |done].
  intros j p. destruct (decide (j = i)) as [->|Hne]; [apply rs_valid0|]. rewrite rs_other0 by done.
  intros Hj. rewrite Hl, length_app. specialize (Hs _ _ Hj). lia.
Qed.

(** Other logs, and more arrays. *)
Lemma resaved_logs i w k ls mi la : saves_ok w → length ls = length (logs (w_cfg w)) → length la = length (lastApplied (w_cfg w)) →
  resaved i w (World (set_lastApplied la (set_logs ls mi (w_cfg w))) (w_rafts w) (w_persisters w) (w_store w ++ k) (w_servers w)).
Proof.
  intros HW Hls Hla. split; simpl; try done; [by exists []; rewrite app_nil_r|by exists k|..].
  - intros p ps Hp. apply persister_ok_app. by apply (so_persisters _ HW p).
  - intros p Hp. by apply (so_saved _ HW i).
  - unfold content. simpl. destruct (saved (w_cfg w) !! i) as [[p|]|] eqn:E; [|done..].
    destruct (lookup_lt_is_Some_2 (w_persisters w) p) as [ps Hp]; [by apply (so_saved _ HW i)|].
    cbn [mjoin option_join mbind option_bind]. rewrite Hp. cbn [mbind option_bind].
    destruct (so_persisters _ HW _ _ Hp). by rewrite !bytes_app.
Qed.

Lemma set_logs_same c : set_lastApplied (lastApplied c) (set_logs (logs c) (maxIndex c) c) = c.
Proof. by destruct c. Qed.

(** The server is started with a persister of its own that has the saved bytes. *)
Lemma load_saved_ok i w : saves_ok w → (i < n (w_cfg w))%nat →
  (∃ w' p, load_saved i w = Val w' ∧ resaved i w w' ∧ saved (w_cfg w') !! i = Some (Some p) ∧ (length (w_persisters w) ≤ p)%nat) ∨
  ∃ e, load_saved i w = LogFatal e.
Proof.
  intros HW Hi. pose proof (so_lengths _ HW) as HL. unfold load_saved.
  destruct (lookup_lt_is_Some_2 (saved (w_cfg w)) i) as [sv Hp]; [by rewrite (ln_saved _ HL)|].
  destruct (copy_saved_ok i w HW Hi) as (w1 & E1 & HR1 & _ & Hsome). rewrite Hp. cbn [or_panic mbind result_bind]. destruct sv as [p|].
  - rewrite E1. cbn [mbind result_bind]. destruct (Hsome p Hp) as [Hs1 _]. rewrite Hs1. cbn [mjoin option_join or_panic mbind result_bind].
    pose proof (saves_resaved _ _ _ HW HR1) as HW1. pose proof (so_lengths _ HW1) as HL1.
    assert (Hi1 : (i < n (w_cfg w1))%nat) by (by rewrite (rs_n _ _ _ HR1)).
    destruct (lookup_lt_is_Some_2 (w_persisters w1) (length (w_persisters w))) as [ps Hps]; [by eapply so_saved|].
    rewrite Hps. cbn [or_panic mbind result_bind]. unfold Persister.ReadSnapshot, Persister.clone, Persister.alloc.
    set (bs := Persister.bytes_of (w_store w1) (Persister.snapshot ps)).
    rewrite bytes_alloc by done. set (k := [bs]).
    pose proof (resaved_logs i w1 k (logs (w_cfg w1)) (maxIndex (w_cfg w1)) (lastApplied (w_cfg w1)) HW1 eq_refl eq_refl) as HR2.
    rewrite set_logs_same in HR2. case_bool_decide.
    + unfold ingestSnap. destruct (decode_snapshot bs) as [[li xlog]|]; [|by right; eexists]. cbn [w_cfg Z.eqb negb andb].
      rewrite !write_ok by (rewrite ?(ln_logs _ HL1), ?(ln_lastApplied _ HL1); done). cbn [mbind result_bind set_logs lastApplied].
      rewrite write_ok by (by rewrite (ln_lastApplied _ HL1)). cbn [mbind result_bind].
      left. eexists _, _. split; [done|]. split; [|split; [exact Hs1|lia]]. eapply resaved_trans; [exact HR1|].
      refine (resaved_logs i w1 k (<[i := log_of xlog]> (logs (w_cfg w1))) (maxIndex (w_cfg w1))
        (<[i := li]> (lastApplied (w_cfg w1))) HW1 _ _); by rewrite length_insert.
    + left. eexists _, _. split; [done|]. split; [by eapply resaved_trans|]. split; [exact Hs1|lia].
  - left. rewrite write_ok by (by rewrite (ln_saved _ HL)). cbn [mbind result_bind].
    eexists _, (length (w_persisters w)). split; [done|]. split; [|split; [|done]].
    + split; simpl; try done.
      * by rewrite length_insert.
      * intros j Hj. by rewrite list_lookup_insert_ne.
      * eauto.
      * by exists []; rewrite app_nil_r.
      * intros q x [[_ Hq]|[_ <-]]%lookup_snoc_Some; [by apply (so_persisters _ HW q)|done].
      * intros q. rewrite list_lookup_insert_eq by (by rewrite (ln_saved _ HL)). intros [= <-]. rewrite length_app. simpl. lia.
      * unfold content. simpl. rewrite list_lookup_insert_eq, Hp by (by rewrite (ln_saved _ HL)). cbn.
        by rewrite list_lookup_middle by done.
    + simpl. apply list_lookup_insert_eq. by rewrite (ln_saved _ HL).
Qed.

(** A restarted server: it runs, off the network, and with what was saved. *)
Record restarted names i w w' : Prop := Restarted {
  re_wired : wired w';
  re_n : n (w_cfg w') = n (w_cfg w);
  re_objects : w_rafts w' = killed_objects i w ++ [(Raft.Make (n (w_cfg w)) (Z.of_nat i), names <$> seq 0 (n (w_cfg w)))];
  re_raft : rafts (w_cfg w') = <[i := Some (length (w_rafts w))]> (rafts (w_cfg w));
  re_connected : connected (w_cfg w') = <[i := false]> (connected (w_cfg w));
  re_content : content w' i = content w i;
  re_saved : ∃ p, saved (w_cfg w') !! i = Some (Some p) ∧ (length (w_persisters w) ≤ p)%nat;
}.

Lemma start1_ok names i w : wired w → (i < n (w_cfg w))%nat →
  (∃ w', start1 names i w = Val w' ∧ restarted names i w w') ∨ ∃ e, start1 names i w = LogFatal e.
Proof.
  intros HW Hi. unfold RaftConfig.start1. destruct (crash1_ok i w HW Hi) as (w1 & -> & HC). cbn [mbind result_bind].
  destruct HC as [HW1 Hrf Hcn Hn Hct _ _ _ Hob Hpl]. pose proof (wi_lengths _ HW1) as HL1.
  assert (Hi1 : (i < n (w_cfg w1))%nat) by lia.
  rewrite write_ok by (by rewrite (ln_endnames _ HL1)). cbn [mbind result_bind].
  set (ns := names <$> seq 0 (n (w_cfg w1))). set (c1 := set_endnames _ _).
  assert (Hc1 : endnames c1 !! i = Some (Some ns)) by (apply list_lookup_insert_eq; by rewrite (ln_endnames _ HL1)).
  destruct (make_ends_ok i names c1 (n c1) Hc1) as [(nt & E & Hne)|E]; [done|..]; change (n c1) with (n (w_cfg w1)) in *; rewrite E; cbn [mbind result_bind].
  2:{ right. eauto. }
  cbn [set_net lastApplied c1 set_endnames]. rewrite write_ok by (by rewrite (ln_lastApplied _ HL1)). cbn [mbind result_bind].
  set (w2 := with_cfg _ _).
  assert (HW2 : saves_ok w2).
  { destruct (wired_saves _ HW1) as [[] ? ?]. split; [split|..]; try done; simpl; by rewrite length_insert. }
  destruct (load_saved_ok i w2 HW2) as [(w3 & p & -> & HR & Hs3 & Hp)|[e ->]]; [done| |right; by exists e]. cbn [mbind result_bind].
  rewrite (rs_endnames _ _ _ HR). change (endnames (w_cfg w2)) with (endnames c1). rewrite Hc1.
  cbn [mjoin option_join or_panic mbind result_bind].
  rewrite (rs_rafts _ _ _ HR), (rs_objects _ _ _ HR), (rs_servers _ _ _ HR). change (rafts (w_cfg w2)) with (rafts (w_cfg w1)).
  rewrite write_ok by (by rewrite (ln_rafts _ HL1)). cbn [mbind result_bind]. left. eexists. split; [done|].
  assert (Hst : wired (started i names nt w1)).
  { apply wired_started; try done; [rewrite Hrf|rewrite Hcn]; apply list_lookup_insert_eq;
      by rewrite ?(ln_rafts _ (wi_lengths _ HW)), ?(ln_connected _ (wi_lengths _ HW)). }
  lazymatch goal with |- restarted _ _ _ ?x => set (w4 := x) end.
  assert (HR4 : resaved i (started i names nt w1) w4).
  { destruct HR. split; simpl; try done; [by rewrite rs_net0|..].
    - rewrite rs_lastApplied0. simpl. by rewrite length_insert.
    - unfold ns. by rewrite length_fmap, length_seq. }
  split.
  - by eapply wired_resaved.
  - rewrite (rs_n _ _ _ HR4). done.
  - rewrite (rs_objects _ _ _ HR4). simpl. by rewrite Hob, Hn.
  - rewrite (rs_rafts _ _ _ HR4). simpl. by rewrite Hob, killed_length, Hrf, list_insert_insert_eq.
  - rewrite (rs_connected _ _ _ HR4). done.
  - rewrite (rs_content _ _ _ HR4). rewrite <- Hct. done.
  - exists p. split; [done|]. simpl in Hp. lia.
Qed.

(** ** Every test *)

Lemma save_ok p a b w : wired w → (p < length (w_persisters w))%nat →
  ∃ w', save p a b w = Val w' ∧ wired w' ∧ w_cfg w' = w_cfg w ∧ w_rafts w' = w_rafts w ∧
        length (w_persisters w') = length (w_persisters w) ∧
        ∀ i, saved (w_cfg w) !! i ≠ Some (Some p) → content w' i = content w i.
Proof.
  intros HW Hp. destruct (lookup_lt_is_Some_2 _ _ Hp) as [ps Hps]. unfold save. rewrite Hps. cbn [or_panic mbind result_bind].
  unfold Persister.Save, Persister.clone, Persister.alloc. eexists. split; [done|]. cbn [w_cfg w_persisters w_store w_rafts].
  rewrite <- !app_assoc. cbn [app].
  split; [|split_and!; [done|done|by rewrite length_insert|]].
  - destruct HW. split; simpl; try done.
    + by intros r rf ns [i Ho]%wi_objects0; exists i; destruct Ho.
    + intros i q Hq. rewrite length_insert. by eapply wi_saved0.
    + intros q x Hq. destruct (decide (q = p)) as [->|Hne].
      * rewrite list_lookup_insert_eq in Hq by done. injection Hq as <-. split; simpl; rewrite !length_app; simpl; lia.
      * rewrite list_lookup_insert_ne in Hq by done. apply persister_ok_app. by eapply wi_persisters0.
  - intros i Hi. unfold content. simpl. destruct (saved (w_cfg w) !! i) as [[q|]|] eqn:E; [|done..].
    cbn [mjoin option_join mbind option_bind]. rewrite list_lookup_insert_ne by congruence.
    destruct (lookup_lt_is_Some_2 (w_persisters w) q) as [x Hx]; [by eapply wi_saved|]. rewrite Hx. cbn [mbind option_bind].
    destruct (wi_persisters _ HW _ _ Hx). by rewrite !bytes_app.
Qed.

Lemma run_op_ok w o : wired w → allowed w o →
  (∃ w', run_op w o = Val w' ∧ wired w' ∧ n (w_cfg w') = n (w_cfg w)) ∨ ∃ e, run_op w o = LogFatal e.
Proof.
  intros HW Ha. destruct o as [i|i|i|names i|p a b]; simpl in *.
  - destruct Ha as [r Hr]. left. destruct (wired_connect w i r HW Hr) as (c' & -> & HW' & _ & _ & Hn). by exists (with_cfg c' w).
  - left. destruct (wired_disconnect w i HW Ha) as (c' & -> & HW' & _ & _ & _ & Hn & _). by exists (with_cfg c' w).
  - left. destruct (crash1_ok i w HW Ha) as (w' & -> & HC). exists w'. destruct HC. done.
  - destruct (start1_ok names i w HW Ha) as [(w' & -> & HR)|?]; [left|by right]. exists w'. destruct HR. done.
  - left. destruct (save_ok p a b w HW Ha) as (w' & -> & HW' & E & _). exists w'. by rewrite E.
Qed.

Lemma run_ops_ok w os : wired w → all_allowed w os →
  (∃ w', run_ops w os = Val w' ∧ wired w' ∧ n (w_cfg w') = n (w_cfg w)) ∨ ∃ e, run_ops w os = LogFatal e.
Proof.
  revert w. induction os as [|o os IH]; intros w HW; [by left; exists w|]. intros [Ha Hos]. simpl.
  destruct (run_op_ok w o HW Ha) as [(w1 & E & HW1 & Hn)|[e ->]]; [|by right; exists e]. rewrite E.
  rewrite <- Hn. by apply IH, Hos.
Qed.

Lemma for_each_S {A} m (body : nat → A → result V A) a :
  for_each (S m) body a = (a' ← for_each m body a; body m a').
Proof. unfold for_each. by rewrite seq_S, foldl_app. Qed.

(** Servers [0] to [k - 1] run, out of [m]. *)
Definition running m k w : Prop :=
  wired w ∧ n (w_cfg w) = m ∧ ∀ j, (j < k)%nat → ∃ r, rafts (w_cfg w) !! j = Some (Some r).

Lemma replicate_lookup {A} k (x y : A) i : replicate k x !! i = Some y → y = x.
Proof. by intros [-> _]%lookup_replicate. Qed.

Lemma start_all m names w k : running m 0 w → (k ≤ m)%nat →
  (∃ w', for_each k (λ i w, start1 (names i) i w) w = Val w' ∧ running m k w') ∨
  ∃ e, for_each k (λ i w, start1 (names i) i w) w = LogFatal e.
Proof.
  intros Hw. induction k as [|k IH]; intros Hk; [by left; exists w|]. rewrite for_each_S.
  destruct IH as [(w1 & -> & HW1 & Hn & Hr)|[e ->]]; [lia| |by right; exists e]. cbn [mbind result_bind].
  destruct (start1_ok (names k) k w1 HW1) as [(w2 & -> & HR)|[e ->]]; [lia| |by right; exists e].
  left. exists w2. split; [done|]. destruct HR. split_and!; [done|congruence|]. intros j Hj. rewrite re_raft0.
  destruct (decide (j = k)) as [->|Hne].
  - rewrite list_lookup_insert_eq; [eauto|]. rewrite (ln_rafts _ (wi_lengths _ HW1)). lia.
  - rewrite list_lookup_insert_ne by done. apply Hr. lia.
Qed.

Lemma connect_all m w k : running m m w → (k ≤ m)%nat →
  ∃ c, for_each k connect (w_cfg w) = Val c ∧ running m m (with_cfg c w) ∧ rafts c = rafts (w_cfg w) ∧
    ∀ j, (j < k)%nat → connected c !! j = Some true.
Proof.
  intros Hw. induction k as [|k IH]; intros Hk.
  { exists (w_cfg w). split; [done|]. split; [by destruct w|]. split; [done|lia]. }
  rewrite for_each_S. destruct IH as (c & -> & (HW & Hn & Hr) & Hrc & Hc); [lia|]. cbn [mbind result_bind].
  destruct (Hr k) as [r Hk']; [lia|]. destruct (wired_connect _ _ _ HW Hk') as (c' & E & HW' & Hcn & Hrf & Hn').
  exists c'. split; [done|]. split; [|split; [by rewrite Hrf|]].
  - split_and!; [done|by simpl; rewrite Hn'|].
    intros j Hj. simpl. rewrite Hrf. by apply Hr.
  - intros j Hj. rewrite Hcn. simpl. destruct (decide (j = k)) as [->|Hne].
    + apply list_lookup_insert_eq. pose proof (ln_connected _ (wi_lengths _ HW)) as E1. simpl in *. lia.
    + rewrite list_lookup_insert_ne by done. apply Hc. lia.
Qed.

(** The tester before it starts servers. *)
Lemma running_none now m nt : servers nt = ∅ →
  running m 0 (World (Config 0 nt m (replicate m None) (replicate m None) (replicate m false) (replicate m None)
                        (replicate m None) (replicate m ∅) (replicate m 0) now 0 0 0 0 0 0) [] [] [] []).
Proof.
  intros Hs. split_and!; [|done|lia]. split; simpl; try done.
  - split; simpl; by rewrite length_replicate.
  - by intros i r ?%replicate_lookup.
  - by intros i ns ?%replicate_lookup.
  - by intros i r ?%replicate_lookup.
  - intros i _. unfold read. by rewrite Hs.
  - by intros i ?%replicate_lookup.
  - by intros i p ?%replicate_lookup.
Qed.

(** [make_config] makes servers that run and are connected. *)
Lemma make_config_ok now m unreliable names :
  (∃ w, make_config now m unreliable names = Val w ∧ running m m w ∧ ∀ j, (j < m)%nat → connected (w_cfg w) !! j = Some true) ∨
  ∃ e, make_config now m unreliable names = LogFatal e.
Proof.
  unfold RaftConfig.make_config. set (w0 := World _ [] [] [] []).
  assert (Hw0 : running m 0 w0) by by apply running_none.
  destruct (start_all m names w0 m Hw0) as [(w1 & -> & Hw1)|[e ->]]; [done| |by right; exists e]. cbn [mbind result_bind].
  destruct (connect_all m w1 m Hw1) as (c & -> & Hc & _ & Hup); [done|]. left. by exists (with_cfg c w1).
Qed.

(** ** The properties *)

(** C16: whatever a test does after [make_config] to the servers, connecting only those
    that run, the tester does not panic or fail the test; and for every Raft object
    ever made, [i] its server, its end to server [j] is enabled exactly when
    the object has not been stopped and [i] and [j] are both connected, and then a
    request on it is for the Raft object that is server [j] now. An object that
    was stopped is dead. *)
Theorem harness_reaches now m unreliable names w0 os :
  make_config now m unreliable names = Val w0 → all_allowed w0 os →
  match run_ops w0 os with
  | Val w => ∀ r rf ns, w_rafts w !! r = Some (rf, ns) →
      ∃ i, Raft.me rf = Z.of_nat i ∧ (i < m)%nat ∧ length ns = m ∧
        (rafts (w_cfg w) !! i = Some (Some r) ∨ Raft.dead rf = 1) ∧
        ∀ j e, ns !! j = Some e →
          let inf := readEndnameInfo (EndName e) (net (w_cfg w)) in
          (i_enabled inf = true ↔ online (w_cfg w) i r ∧ connected (w_cfg w) !! j = Some true) ∧
          i_servername inf = Some (ServerName j) ∧
          (i_enabled inf = true → ∃ r' o srv, rafts (w_cfg w) !! j = Some (Some r') ∧ i_server inf = Some o ∧
             w_servers w !! o = Some srv ∧ serves srv r')
  | LogFatal _ => True (* a random name that is in use, or a snapshot that is not one *)
  | _ => False
  end.
Proof.
  intros Hm Ha. destruct (make_config_ok now m unreliable names) as [(w & E & (HW0 & Hn0 & _) & _)|[e E]]; rewrite E in Hm; [|done].
  injection Hm as ->. destruct (run_ops_ok w0 os HW0 Ha) as [(w & -> & HW & Hn)|[e ->]]; [|done].
  intros r rf ns Hr. destruct (wi_objects _ HW _ _ _ Hr) as [i Ho]. exists i. destruct Ho as [E1 E2 E3 E4 E5 E6 E7].
  split_and!; [done|lia|congruence|naive_solver|]. intros j e He. unfold readEndnameInfo. cbn [i_enabled i_servername i_server].
  rewrite (E6 j e He). destruct (E7 j e He) as (b & -> & Hiff). cbn [default from_option]. split; [exact Hiff|]. split; [done|].
  intros [_ Hj]%Hiff. destruct (wi_connected _ HW j Hj) as [r' Hr']. destruct (wi_server _ HW j r' Hr') as (o & srv & ? & ? & ?).
  by exists r', o, srv.
Qed.

(** Servers that save with other persisters change nothing of what is saved for server [i]. *)
Lemma saves_keep i k saves w w' : wired w → (∀ p, saved (w_cfg w) !! i = Some (Some p) → (k ≤ p)%nat) →
  (k ≤ length (w_persisters w))%nat → (∀ o, o ∈ saves → ∃ p a b, o = OSave p a b ∧ (p < k)%nat) →
  run_ops w saves = Val w' → wired w' ∧ content w' i = content w i ∧ w_cfg w' = w_cfg w.
Proof.
  revert w. induction saves as [|o saves IH]; intros w HW Hfr Hle Hsaves H2; [by injection H2 as ->|].
  destruct (Hsaves o) as (p & a & b & -> & Hp); [set_solver|]. simpl in H2.
  destruct (save_ok p a b w HW) as (w1 & Es & HW1 & Hcfg & _ & Hl & Hc); [lia|]. rewrite Es in H2. cbn [mbind result_bind] in H2.
  rewrite <- (Hc i) by (intros Hs%Hfr; lia). rewrite <- Hcfg. apply IH; [done|by rewrite Hcfg|lia|set_solver|done].
Qed.

(** C17: [crash1] keeps what the server had saved, and whatever the killed server and the
    others save afterwards with the persisters they have, the server that
    [start1] then starts is given a persister of its own with exactly those bytes. *)
Theorem restart_keeps_saved now m unreliable names w0 os w i :
  make_config now m unreliable names = Val w0 → all_allowed w0 os → run_ops w0 os = Val w → (i < m)%nat →
  ∃ w1, crash1 i w = Val w1 ∧ ∀ saves w2 names' w3,
    (∀ o, o ∈ saves → ∃ p a b, o = OSave p a b ∧ (p < length (w_persisters w))%nat) →
    run_ops w1 saves = Val w2 → start1 names' i w2 = Val w3 →
    content w3 i = content w i ∧ ∃ p, saved (w_cfg w3) !! i = Some (Some p) ∧ (length (w_persisters w2) ≤ p)%nat.
Proof.
  intros Hm Ha Hos Hi. destruct (make_config_ok now m unreliable names) as [(w' & E & (HW0 & Hn0 & _) & _)|[e E]]; rewrite E in Hm; [|done].
  injection Hm as ->. destruct (run_ops_ok w0 os HW0 Ha) as [(w' & E' & HW & Hn)|[e E']]; rewrite E' in Hos; [|done].
  injection Hos as ->. destruct (crash1_ok i w HW) as (w1 & E1 & []); [lia|]. exists w1. split; [done|].
  intros saves w2 names' w3 Hsaves H2 H3.
  destruct (saves_keep i (length (w_persisters w)) saves w1 w2) as (HW2 & Hc2 & Hcfg); [done..|].
  destruct (start1_ok names' i w2 HW2) as [(w3' & E3 & [])|[e E3]]; [|rewrite E3 in H3..]; try done.
  { rewrite Hcfg. lia. }
  simplify_eq. split; [congruence|done].
Qed.

End wiring.

(** ** Examples *)

#[local] Instance unit_codec : Codec unit := {| New _ := (); EncodeV _ := Some []; DecodeV _ v := (v, true) |}.
#[local] Instance no_snapshots : SnapshotCodec Z := {| encode_snapshot _ _ := []; decode_snapshot _ := None |}.

Definition no_types (_ : rtype) : desc := DOther "".
Definition no_methods (_ : nat) : list (Method (W:=unit) (V:=unit)) := [].

(** Three servers, whose ends have names of two letters. *)
Definition letters (i j : nat) : string :=
  String (Ascii.ascii_of_nat (97 + i)) (String (Ascii.ascii_of_nat (97 + j)) "").
Definition value {A} (d : A) (r : result Z A) : A := match r with Val a => a | _ => d end.
Definition is_val {A} (r : result Z A) : bool := match r with Val _ => true | _ => false end.

Lemma is_val_eq {A} (d : A) (r : result Z A) : is_val r = true → r = Val (value d r).
Proof. by destruct r. Qed.

Definition no_world : world (W:=unit) (X:=unit) (V:=Z) := World (Config 0 MakeNetwork 0 [] [] [] [] [] [] [] 0 0 0 0 0 0 0) [] [] [] [].
Definition example_world := value no_world (make_config no_types no_methods 0 3 false letters).
Definition example_run := run_ops no_types no_methods example_world.

Lemma example_made : make_config no_types no_methods 0 3 false letters = Val example_world.
Proof. apply is_val_eq. vm_compute. reflexivity. Qed.

Lemma allowed_cons w o os : allowed w o →
  all_allowed no_types no_methods (value no_world (run_op no_types no_methods w o)) os → all_allowed no_types no_methods w (o :: os).
Proof. intros Ha Hos. split; [done|]. intros w' Hw. by rewrite Hw in Hos. Qed.

(** Server 0 is restarted, and server 1 disconnected. *)
Definition example_test : list op := [OSave 0 [Byte.x01] []; OStart (letters 3) 0; OConnect 0; ODisconnect 1].

Lemma example_allowed : all_allowed no_types no_methods example_world example_test.
Proof.
  apply allowed_cons; [vm_compute; lia|]. apply allowed_cons; [vm_compute; lia|].
  apply allowed_cons; [eexists; vm_compute; reflexivity|]. apply allowed_cons; [vm_compute; lia|exact I].
Qed.

Lemma harness_reaches_witness :
  ∃ w, example_run example_test = Val w ∧
    i_enabled (readEndnameInfo (EndName (letters 0 2)) (net (w_cfg w))) = false ∧
    i_enabled (readEndnameInfo (EndName (letters 3 2)) (net (w_cfg w))) = true ∧
    i_enabled (readEndnameInfo (EndName (letters 3 1)) (net (w_cfg w))) = false ∧
    ∃ i, i_server (readEndnameInfo (EndName (letters 2 0)) (net (w_cfg w))) = Some i ∧ (i < length (w_servers w))%nat.
Proof.
  pose proof (harness_reaches no_types no_methods 0 3 false letters example_world example_test example_made example_allowed) as H.
  exists (value no_world (example_run example_test)).
  assert (E : example_run example_test = Val (value no_world (example_run example_test))).
  { apply is_val_eq. vm_compute. reflexivity. }
  split; [exact E|]. split; [vm_compute; reflexivity|]. split; [vm_compute; reflexivity|]. split; [vm_compute; reflexivity|].
  unfold example_run in E at 1. rewrite E in H.
  destruct (H 2%nat (Raft.Make 3 2) (letters 2 <$> seq 0 3)) as (i & _ & _ & _ & _ & Hj); [vm_compute; reflexivity|].
  destruct (Hj 0%nat (letters 2 0) eq_refl) as (_ & _ & Hs). destruct Hs as (r' & o & srv & _ & Ho & Hsrv & _); [vm_compute; reflexivity|].
  exists o. split; [exact Ho|]. exact (lookup_lt_Some _ _ _ Hsrv).
Defined.

Lemma restart_keeps_saved_witness :
  ∃ w w1, example_run [OSave 2 [Byte.x01] [Byte.x02]] = Val w ∧ crash1 2 w = Val w1 ∧
    content w1 2 = ([Byte.x01], [Byte.x02]) ∧
    ∀ w3, start1 no_types no_methods (letters 4) 2 w1 = Val w3 → content w3 2 = ([Byte.x01], [Byte.x02]).
Proof.
  set (w := value no_world (example_run [OSave 2 [Byte.x01] [Byte.x02]])).
  assert (E : example_run [OSave 2 [Byte.x01] [Byte.x02]] = Val w) by (apply is_val_eq; vm_compute; reflexivity).
  destruct (restart_keeps_saved no_types no_methods 0 3 false letters example_world
    [OSave 2 [Byte.x01] [Byte.x02]] w 2) as (w1 & E1 & H).
  - exact example_made.
  - apply allowed_cons; [vm_compute; lia|exact I].
  - exact E.
  - lia.
  - assert (Hc : content w 2 = ([Byte.x01], [Byte.x02])) by (vm_compute; reflexivity).
    exists w, w1. split; [exact E|]. split; [exact E1|]. split.
    + replace w1 with (value no_world (crash1 2 w)) by (rewrite E1; reflexivity). vm_compute. reflexivity.
    + intros w3 H3. destruct (H [] w1 (letters 4) w3) as [Hw3 _]; [intros o Ho; inversion Ho|reflexivity|exact H3|].
      rewrite Hw3. exact Hc.
Defined.

End RaftWiring.
