(* ===== verification/RaftChecks.v ===== *)
(** * What the checks of the Raft tests mean

    The readers of the apply channels, [nCommitted], [checkOneLeader] and [one] of
    [src/6.5840/src/raft/config.go]: what they accept, what they count, and what
    they report about the servers of [Raft]. *)
From S2P Require Import Prelude LabGob LabRpc Persister Raft RaftVotes RaftElection RaftRuns RaftConfig.
Import LabGob LabRpc RaftConfig.
Local Open Scope Z_scope.

Module RaftChecks.

Section logs.
Context {V : Type} `{SnapshotCodec V, EqDecision V} (vnil : V).
Abbreviation config := (config (V:=V)).
Implicit Types (c : config) (m : ApplyMsg V) (i j : nat) (index : Z) (l : gmap Z V).

(** ** One message *)

(** Some log has another command at the index of the message. *)
Definition conflicts m (ls : list (gmap Z V)) : Prop :=
  ∃ j l old, ls !! j = Some l ∧ l !! CommandIndex m = Some old ∧ old ≠ Command m.

Lemma mismatch_Some i m ls : is_Some (mismatch i m ls) ↔ conflicts m ls.
Proof.
  unfold mismatch, conflicts. induction ls as [|l ls IH] using rev_ind.
  { split; [by intros []|]. intros (j & l & old & Hj & _). by rewrite lookup_nil in Hj. }
  rewrite imap_app, foldl_app. simpl. rewrite Nat.add_0_r.
  assert (Hsplit : (∃ j l0 old, (ls ++ [l]) !! j = Some l0 ∧ l0 !! CommandIndex m = Some old ∧ old ≠ Command m) ↔
    (∃ j l0 old, ls !! j = Some l0 ∧ l0 !! CommandIndex m = Some old ∧ old ≠ Command m) ∨
    (∃ old, l !! CommandIndex m = Some old ∧ old ≠ Command m)).
  { split.
    - intros (j & l0 & old & [[_ Hj]|[_ <-]]%lookup_snoc_Some & Hr); [left|right]; eauto.
    - intros [(j & l0 & old & Hj & Hr)|(old & Hr)].
      + exists j, l0, old. split; [by apply lookup_app_l_Some|done].
      + exists (length ls), l, old. split; [by apply list_lookup_middle|done]. }
  rewrite Hsplit. destruct (l !! CommandIndex m) as [old|]; [case_decide as Hd|].
  - split; [|eauto]. intros _. right. eauto.
  - rewrite IH. split; [tauto|]. intros [?|(old' & [= <-] & ?)]; [done|congruence].
  - rewrite IH. split; [tauto|]. intros [?|(old' & ? & ?)]; done.
Qed.

(** The log of server [i] has the command before the one of the message. *)
Definition in_order i m (ls : list (gmap Z V)) : Prop :=
  1 < CommandIndex m → ∃ l v, ls !! i = Some l ∧ l !! (CommandIndex m - 1) = Some v.

Definition new_log m l : gmap Z V := <[CommandIndex m := Command m]> l.

Lemma applier_valid i m c l : CommandValid m = true → logs c !! i = Some l →
  (¬ conflicts m (logs c) ∧ in_order i m (logs c) ∧
   applier i m c = Val (set_logs (<[i := new_log m l]> (logs c)) (Z.max (maxIndex c) (CommandIndex m)) c)) ∨
  ((conflicts m (logs c) ∨ ¬ in_order i m (logs c)) ∧ ∃ e, applier i m c = LogFatal (Some e)).
Proof.
  intros Hv Hl. unfold applier, checkLogs. rewrite Hv, Hl. cbn [Bool.eqb or_panic mbind result_bind].
  unfold write. rewrite decide_True by (by eapply lookup_lt_Some).
  cbn [mbind result_bind].
  replace (if maxIndex c <? CommandIndex m then CommandIndex m else maxIndex c) with (Z.max (maxIndex c) (CommandIndex m))
    by (destruct (Z.ltb_spec (maxIndex c) (CommandIndex m)); lia).
  assert (Ho : in_order i m (logs c) ↔ (1 <? CommandIndex m) && Bool.eqb (bool_decide (is_Some (l !! (CommandIndex m - 1)))) false = false).
  { unfold in_order. rewrite Hl. destruct (Z.ltb_spec 1 (CommandIndex m)); simpl; [|split; [done|lia]].
    destruct (l !! (CommandIndex m - 1)) as [v|] eqn:El.
    - rewrite bool_decide_true by eauto. split; [done|]. intros _ _. by exists l, v.
    - rewrite bool_decide_false by (by intros []). split; [|done]. intros Hn. destruct Hn as (? & ? & [= <-] & ?); [lia|congruence]. }
  destruct (_ && _) eqn:E.
  { right. split; [right; by rewrite Ho|eauto]. }
  pose proof (mismatch_Some i m (logs c)) as Hm. destruct (mismatch i m (logs c)) as [e|].
  - right. split; [left; apply Hm; eauto|eauto].
  - left. split; [by intros []%Hm|]. by rewrite Ho.
Qed.

(** ** All messages *)

Fixpoint apply_all (msgs : list (nat * ApplyMsg V)) c : result V config :=
  match msgs with
  | [] => Val c
  | (i, m) :: msgs => c ← applier i m c; apply_all msgs c
  end.

(** All logs agree, no log has a gap after index 1, and [maxIndex] bounds them. *)
Record logs_ok c : Prop := LogsOk {
  lo_agree i j li lj x v v' : logs c !! i = Some li → logs c !! j = Some lj → li !! x = Some v → lj !! x = Some v' → v = v';
  lo_gapless i l x v : logs c !! i = Some l → l !! x = Some v → 1 < x → is_Some (l !! (x - 1));
  lo_max i l x v : logs c !! i = Some l → l !! x = Some v → x ≤ maxIndex c;
}.

(** Every log has kept what it had. *)
Definition grows c c' : Prop := Forall2 (⊆) (logs c) (logs c').

#[global] Instance grows_refl : Reflexive grows.
Proof. intros c. unfold grows. by apply Forall_Forall2_diag, Forall_forall. Qed.

#[global] Instance grows_trans : Transitive grows.
Proof. intros c1 c2 c3. unfold grows. intros H1 H2. by etrans. Qed.

Lemma grows_lookup c c' i l x v : grows c c' → logs c !! i = Some l → l !! x = Some v →
  ∃ l', logs c' !! i = Some l' ∧ l' !! x = Some v.
Proof.
  intros Hg Hl Hx. destruct (Forall2_lookup_l _ _ _ _ _ Hg Hl) as (l' & Hl' & Hsub). exists l'. split; [done|].
  by eapply lookup_weaken.
Qed.

Lemma applier_cases i m c c' : applier i m c = Val c' →
  c' = c ∨ ∃ l, logs c !! i = Some l ∧ ¬ conflicts m (logs c) ∧ in_order i m (logs c) ∧
    c' = set_logs (<[i := new_log m l]> (logs c)) (Z.max (maxIndex c) (CommandIndex m)) c.
Proof.
  intros E. destruct (CommandValid m) eqn:Hv.
  - destruct (logs c !! i) as [l|] eqn:Hl.
    + right. destruct (applier_valid i m c l Hv Hl) as [(H1 & H2 & E')|[_ [e E']]]; rewrite E' in E; [|done].
      injection E as <-. by exists l.
    + unfold applier, checkLogs in E. by rewrite Hv, Hl in E.
  - unfold applier in E. rewrite Hv in E. injection E as <-. by left.
Qed.

Lemma new_log_lookup m l x v : new_log m l !! x = Some v → (x = CommandIndex m ∧ v = Command m) ∨ (x ≠ CommandIndex m ∧ l !! x = Some v).
Proof.
  unfold new_log. destruct (decide (x = CommandIndex m)) as [->|Hne].
  - rewrite lookup_insert_eq. intros [= <-]. by left.
  - rewrite lookup_insert_ne by done. by right.
Qed.

(** A log after an accepted message. *)
Lemma after_message i m c l j lj : logs c !! i = Some l → <[i := new_log m l]> (logs c) !! j = Some lj →
  ∃ lj0, logs c !! j = Some lj0 ∧ (lj = lj0 ∨ j = i ∧ lj = new_log m lj0).
Proof.
  intros Hl. destruct (decide (j = i)) as [->|Hne].
  - rewrite list_lookup_insert_eq by (by eapply lookup_lt_Some). intros [= <-]. exists l. auto.
  - rewrite list_lookup_insert_ne by done. eauto.
Qed.

Lemma applier_ok i m c c' : logs_ok c → applier i m c = Val c' → logs_ok c' ∧ grows c c'.
Proof.
  intros HL [->|(l & Hl & Hc & Ho & ->)]%applier_cases; [done|].
  assert (Hno : ∀ j lj old, logs c !! j = Some lj → lj !! CommandIndex m = Some old → old = Command m).
  { intros j lj old Hj Hold. destruct (decide (old = Command m)); [done|]. destruct Hc. by exists j, lj, old. }
  assert (Hin : ∀ j lj x v, <[i := new_log m l]> (logs c) !! j = Some lj → lj !! x = Some v →
    (∃ lj0, logs c !! j = Some lj0 ∧ lj0 !! x = Some v) ∨ x = CommandIndex m ∧ v = Command m).
  { intros j lj x v Hj Hx. destruct (after_message _ _ _ _ _ _ Hl Hj) as (lj0 & Hj0 & [->|[-> ->]]); [left; eauto|].
    apply new_log_lookup in Hx as [[-> ->]|[_ Hx]]; [by right|left; eauto]. }
  split; [split; simpl|].
  - intros a b la lb x v v' Ha Hb Hv Hv'.
    destruct (Hin _ _ _ _ Ha Hv) as [(l1 & H1 & H1')|[-> ->]], (Hin _ _ _ _ Hb Hv') as [(l2 & H2 & H2')|[E ->]]; try done.
    + by eapply (lo_agree _ HL a b).
    + subst. by eapply Hno.
    + symmetry. by eapply Hno.
  - intros j lj x v Hj Hx Hx1. destruct (after_message _ _ _ _ _ _ Hl Hj) as (lj0 & Hj0 & [->|[-> ->]]); [by eapply (lo_gapless _ HL)|].
    assert (Hprev : is_Some (lj0 !! (x - 1))).
    { apply new_log_lookup in Hx as [[-> _]|[_ Hx]]; [|by eapply (lo_gapless _ HL)].
      destruct (Ho Hx1) as (l' & v' & Hl' & Hv'). rewrite Hj0 in Hl'. simplify_eq. eauto. }
    unfold new_log. rewrite lookup_insert. case_decide; [eauto|done].
  - intros j lj x v Hj Hx. destruct (Hin _ _ _ _ Hj Hx) as [(lj0 & Hj0 & Hx0)|[-> _]]; [|lia].
    pose proof (lo_max _ HL _ _ _ _ Hj0 Hx0). lia.
  - unfold grows. simpl. apply Forall2_same_length_lookup_2; [by rewrite length_insert|].
    intros j lj lj' Hj Hj'. destruct (after_message _ _ _ _ _ _ Hl Hj') as (lj0 & Hj0 & [->|[-> ->]]); simplify_eq; [done|].
    apply map_subseteq_spec. intros x v Hx. unfold new_log. rewrite lookup_insert. case_decide as Hd; [|done].
    subst. f_equal. symmetry. by eapply Hno.
Qed.

Lemma apply_all_ok msgs c c' : logs_ok c → apply_all msgs c = Val c' → logs_ok c' ∧ grows c c'.
Proof.
  revert c. induction msgs as [|[i m] msgs IH]; intros c HL; simpl; [by intros [= <-]|].
  destruct (applier i m c) as [| | | |c1] eqn:E; try done. cbn [mbind result_bind]. intros E'.
  destruct (applier_ok _ _ _ _ HL E) as [HL1 Hg1]. destruct (IH _ HL1 E') as [HL2 Hg2]. split; [done|]. by transitivity c1.
Qed.

Lemma logs_ok_empty c : (∀ i l, logs c !! i = Some l → l = ∅) → logs_ok c.
Proof.
  intros He. split.
  - intros i j li lj x v v' Hi Hj Hx. apply He in Hi as ->. by rewrite lookup_empty in Hx.
  - intros i l x v Hi Hx. apply He in Hi as ->. by rewrite lookup_empty in Hx.
  - intros i l x v Hi Hx. apply He in Hi as ->. by rewrite lookup_empty in Hx.
Qed.

(** What was in a log earlier and what is in a log later agree. *)
Lemma grows_agree c c' i j li lj x v v' : logs_ok c' → grows c c' →
  logs c !! i = Some li → logs c' !! j = Some lj → li !! x = Some v → lj !! x = Some v' → v = v'.
Proof.
  intros HL Hg Hi Hj Hv Hv'. destruct (grows_lookup _ _ _ _ _ _ Hg Hi Hv) as (l' & Hl' & Hx). by eapply (lo_agree _ HL i j).
Qed.

(** ** Snapshots *)

Lemma log_of_lookup (xlog : list V) x : log_of xlog !! x = if decide (0 ≤ x) then xlog !! Z.to_nat x else None.
Proof.
  unfold log_of. assert (E : ∀ k, (list_to_map (imap (λ j v, (Z.of_nat (k + j), v)) xlog) : gmap Z V) !! x =
    if decide (Z.of_nat k ≤ x) then xlog !! (Z.to_nat x - k)%nat else None).
  { induction xlog as [|v xlog IH]; intros k; simpl.
    - rewrite lookup_empty. by case_decide.
    - rewrite lookup_insert. rewrite (imap_ext _ (λ j v, (Z.of_nat (S k + j), v))) by (intros; simpl; do 2 f_equal; lia).
      rewrite IH. case_decide as H1.
      + rewrite decide_True by lia. by replace (Z.to_nat x - k)%nat with 0%nat by lia.
      + case_decide as H2; [|by rewrite decide_False by lia]. rewrite decide_True by lia.
        by replace (Z.to_nat x - k)%nat with (S (Z.to_nat x - S k)) by lia. }
  specialize (E 0%nat). rewrite Nat.sub_0_r in E. exact E.
Qed.

Lemma snapshot_log_lookup l index x : 0 ≤ x → snapshot_log vnil l index !! Z.to_nat x =
  if decide (x ≤ index) then Some (default vnil (l !! x)) else None.
Proof.
  intros Hx. unfold snapshot_log. rewrite list_lookup_fmap. case_decide as Hd.
  - rewrite lookup_seqZ_lt by lia. simpl. by rewrite Z2Nat.id.
  - rewrite lookup_seqZ_ge by lia. done.
Qed.
End logs.

(** ** Reading while the servers run *)

Section reads.
Context {W X V : Type} `{Codec X, SnapshotCodec V, EqDecision V} (vnil : V).
Context (clock : nat → Z) (at_ : nat → world (W:=W) (X:=X) (V:=V)) (N : nat).
Abbreviation cfg k := (w_cfg (at_ k)).
Implicit Types (k i : nat) (index : Z).

(** [N] servers, whose logs are empty at first and then only change by messages
    the appliers accept. *)
Record tested : Prop := Tested {
  ts_n k : n (cfg k) = N;
  ts_rafts k : length (rafts (cfg k)) = N;
  ts_connected k : length (connected (cfg k)) = N;
  ts_logs k : length (logs (cfg k)) = N;
  ts_applyErr k : applyErr (cfg k) = replicate N None;
  ts_empty i l : logs (cfg 0) !! i = Some l → l = ∅;
  ts_step k : ∃ msgs c, apply_all msgs (cfg k) = Val c ∧ logs (cfg (S k)) = logs c ∧ maxIndex (cfg (S k)) = maxIndex c;
}.

Context (HT : tested).

Lemma logs_ok_same c c' : logs c' = logs c → maxIndex c' = maxIndex c → logs_ok (V:=V) c → logs_ok c'.
Proof. intros E1 E2 []. split; rewrite ?E1, ?E2; done. Qed.

Lemma tested_ok k : logs_ok (cfg k).
Proof.
  induction k as [|k IH]; [apply logs_ok_empty, HT|].
  destruct (ts_step HT k) as (msgs & c & E & El & Em). destruct (apply_all_ok _ _ _ IH E) as [HL _].
  by apply (logs_ok_same c).
Qed.

Lemma tested_grows k d : grows (cfg k) (cfg (k + d)).
Proof.
  induction d as [|d IH]; [by rewrite Nat.add_0_r|]. rewrite Nat.add_succ_r. etrans; [exact IH|].
  destruct (ts_step HT (k + d)) as (msgs & c & E & El & Em). destruct (apply_all_ok _ _ _ (tested_ok _) E) as [_ Hg].
  unfold grows in *. by rewrite El.
Qed.

(** What server [i] has committed at this index at point [k]. *)
Definition committed k i index : option V := l ← logs (cfg k) !! i; l !! index.

Lemma committed_agree k k' i j index v v' : committed k i index = Some v → committed k' j index = Some v' → v = v'.
Proof.
  unfold committed. destruct (logs (cfg k) !! i) as [li|] eqn:Hi; [|done]. destruct (logs (cfg k') !! j) as [lj|] eqn:Hj; [|done].
  cbn [mbind option_bind]. intros Hv Hv'. destruct (decide (k ≤ k')%nat) as [Hle|Hgt].
  - pose proof (tested_grows k (k' - k)) as Hg. replace (k + (k' - k))%nat with k' in Hg by lia.
    by eapply (grows_agree _ _ _ _ _ _ _ _ _ (tested_ok k') Hg Hi Hj).
  - pose proof (tested_grows k' (k - k')) as Hg. replace (k' + (k - k'))%nat with k in Hg by lia. symmetry.
    by eapply (grows_agree _ _ _ _ _ _ _ _ _ (tested_ok k) Hg Hj Hi).
Qed.

Lemma committed_later k d i index v : committed k i index = Some v → committed (k + d) i index = Some v.
Proof.
  unfold committed. destruct (logs (cfg k) !! i) as [l|] eqn:Hl; [|done]. cbn [mbind option_bind]. intros Hv.
  destruct (grows_lookup _ _ _ _ _ _ (tested_grows k d) Hl Hv) as (l' & -> & Hx). done.
Qed.

(** The commands [nCommitted] finds, started at point [k]: it reads server [i] at [k + i]. *)
Definition found k (ss : list nat) index : list V := omap (λ i, committed (k + i) i index) ss.

Lemma found_elem k ss index v : v ∈ found k ss index ↔ ∃ i, i ∈ ss ∧ committed (k + i) i index = Some v.
Proof. unfold found. rewrite list_elem_of_omap. naive_solver. Qed.

Lemma nCommitted_loop_ok k a b index count cmd : (a + b ≤ N)%nat → 0 ≤ count →
  (0 < count → ∃ k0 i0, committed k0 i0 index = Some cmd) →
  ∃ cmd', nCommitted_loop at_ (k + a) (seq a b) index count cmd =
            Val (count + Z.of_nat (length (found k (seq a b) index)), cmd') ∧
    (0 < count + Z.of_nat (length (found k (seq a b) index)) → ∃ k0 i0, committed k0 i0 index = Some cmd').
Proof.
  revert a count cmd. induction b as [|b IH]; intros a count cmd Hab Hc Hcmd.
  { exists cmd. simpl. rewrite Z.add_0_r. done. }
  cbn [seq nCommitted_loop]. rewrite (ts_applyErr HT), lookup_replicate_2 by lia. cbn [or_panic mbind result_bind].
  destruct (lookup_lt_is_Some_2 (logs (cfg (k + a))) a) as [l Hl]; [rewrite (ts_logs HT); lia|].
  rewrite Hl. cbn [or_panic mbind result_bind].
  assert (Ecm : committed (k + a) a index = l !! index) by (unfold committed; by rewrite Hl).
  unfold found. cbn [omap list_omap]. rewrite Ecm.
  replace (S (k + a)) with (k + S a)%nat by lia. fold (found k (seq (S a) b) index).
  destruct (l !! index) as [cmd1|] eqn:Ex; [|by apply IH; [lia|..]].
  assert (Heq : (0 <? count) && negb (bool_decide (cmd = cmd1)) = false).
  { destruct (Z.ltb_spec 0 count) as [Hpos|]; [|done]. destruct (Hcmd Hpos) as (k0 & i0 & Hc0).
    by rewrite bool_decide_true by (by eapply committed_agree). }
  rewrite Heq. destruct (IH (S a) (count + 1) cmd1) as (cmd' & -> & Hpos); [lia|lia|eauto|].
  exists cmd'. cbn [length]. split; [do 2 f_equal; lia|]. intros Hp. apply Hpos. lia.
Qed.

Lemma nCommitted_ok k index : ∃ cmd,
  nCommitted vnil at_ k index = Val (Z.of_nat (length (found k (seq 0 N) index)), cmd) ∧
  (0 < Z.of_nat (length (found k (seq 0 N) index)) → ∃ k0 i0, committed k0 i0 index = Some cmd).
Proof.
  pose proof (nCommitted_loop_ok k 0 N index 0 vnil) as Hl. rewrite Nat.add_0_r in Hl.
  unfold nCommitted. rewrite (ts_rafts HT). apply Hl; lia.
Qed.

(** At least [num] of the servers have this command at the index. *)
Definition agreed k index (cmd : V) (num : Z) : Prop :=
  ∃ is_, NoDup is_ ∧ num ≤ Z.of_nat (length is_) ∧ ∀ i, i ∈ is_ → (i < N)%nat ∧ committed k i index = Some cmd.

(** The servers whose commands were found. *)
Lemma found_servers k a b index cmd : (∀ v, v ∈ found k (seq a b) index → v = cmd) →
  ∃ is_, NoDup is_ ∧ length is_ = length (found k (seq a b) index) ∧
         ∀ i, i ∈ is_ → (a ≤ i < a + b)%nat ∧ committed (k + i) i index = Some cmd.
Proof.
  revert a. induction b as [|b IH]; intros a Hv; [by exists []; split_and!; [constructor|done|set_solver]|].
  unfold found in *. cbn [seq omap list_omap] in *. destruct (committed (k + a) a index) as [v|] eqn:E.
  - destruct (IH (S a)) as (l & Hnd & Hl & Hin); [set_solver|]. exists (a :: l). split_and!.
    + constructor; [|done]. intros [? _]%Hin. lia.
    + simpl. by rewrite Hl.
    + intros i [->|Hi]%elem_of_cons; [|destruct (Hin i Hi); split; [lia|done]].
      split; [lia|]. rewrite E. f_equal. apply Hv. set_solver.
  - destruct (IH (S a) Hv) as (l & Hnd & Hl & Hin). exists l. split_and!; [done..|]. intros i Hi. destruct (Hin i Hi). split; [lia|done].
Qed.

Lemma nCommitted_agreed k index num cmd : nCommitted vnil at_ k index = Val (num, cmd) →
  agreed (after at_ k) index cmd num ∧ (∀ k' i v, committed k' i index = Some v → 0 < num → v = cmd).
Proof.
  destruct (nCommitted_ok k index) as (cmd' & -> & Hpos). intros [= <- <-].
  assert (Hall : ∀ k' i v, committed k' i index = Some v → 0 < Z.of_nat (length (found k (seq 0 N) index)) → v = cmd').
  { intros k' i v Hv Hp. destruct (Hpos Hp) as (k0 & i0 & Hc0). by eapply committed_agree. }
  split; [|done]. destruct (found_servers k 0 N index cmd') as (l & Hnd & Hl & Hin).
  { intros v Hv. apply found_elem in Hv as Hv'. destruct Hv' as (i & _ & Hc). eapply Hall; [exact Hc|].
    destruct (found _ _ _); [by apply elem_of_nil in Hv|simpl; lia]. }
  exists l. split_and!; [done|lia|]. intros i Hi. destruct (Hin i Hi) as [Hr Hc]. split; [lia|].
  unfold after. rewrite (ts_rafts HT). replace (k + N)%nat with (k + i + (N - i))%nat by lia. by apply committed_later.
Qed.

(** The loop of [one] that waits reports an agreement only if there is one. *)
Lemma await_agreement_sound fuel k t1 index cmd num k' :
  await_agreement vnil clock at_ fuel k t1 index cmd num = Val (true, k') →
  agreed k' index cmd (Z.max 1 num).
Proof.
  revert k. induction fuel as [|fuel IH]; intros k; [done|]. cbn [await_agreement].
  destruct (_ <? _); [|done]. destruct (nCommitted vnil at_ k index) as [| | | |[nd cmd1]] eqn:E; try done.
  cbn [mbind result_bind]. destruct (nCommitted_agreed _ _ _ _ E) as [Ha _].
  destruct (Z.ltb_spec 0 nd); [|by apply IH]. destruct (Z.leb_spec num nd); [|by apply IH].
  case_bool_decide; [|by apply IH]. subst cmd1. intros [= <-].
  destruct Ha as (l & Hnd & Hl & Hin). exists l. split_and!; [done|lia|done].
Qed.

End reads.

(** ** [one] with the servers as they are written *)
Section one.
Context {W X V : Type} `{Codec X, SnapshotCodec V, EqDecision V} (vnil : V).
Context (clock : nat → Z) (at_ : nat → world (W:=W) (X:=X) (V:=V)) (N : nat) (tick : Z).
Abbreviation cfg k := (w_cfg (at_ k)).

(** Time passes, and the connected servers run. *)
Record ticking : Prop := Ticking {
  tk_n k : n (cfg k) = N;
  tk_rafts k : length (rafts (cfg k)) = N;
  tk_connected k : length (connected (cfg k)) = N;
  tk_running k i r : rafts (cfg k) !! i = Some (Some r) → is_Some (w_rafts (at_ k) !! r);
  tk_tick : 0 < tick;
  tk_clock k : clock k + tick ≤ clock (S k);
}.

Context (HK : ticking).

Lemma clock_later k d : clock k + Z.of_nat d * tick ≤ clock (k + d).
Proof.
  induction d as [|d IH]; [rewrite Nat.add_0_r; lia|]. rewrite Nat.add_succ_r.
  pose proof (tk_clock HK (k + d)). lia.
Qed.

(** [Start] answers -1 on every server, so no command is ever submitted. *)
Lemma submit_fails si k starts cmd : (si ≤ N)%nat →
  ∃ d starts', submit at_ si k starts cmd = Val (-1, (k + d)%nat, starts').
Proof.
  revert k starts. induction si as [|si IH]; intros k starts Hs.
  { exists 0%nat, starts. by rewrite Nat.add_0_r. }
  cbn [submit]. rewrite (tk_n HK). set (starts' := ((starts + 1) mod N)%nat).
  assert (Hlt : (starts' < N)%nat) by (apply Nat.mod_upper_bound; lia).
  destruct (lookup_lt_is_Some_2 (connected (cfg k)) starts') as [up Hup]; [by rewrite (tk_connected HK)|].
  destruct (lookup_lt_is_Some_2 (rafts (cfg k)) starts') as [rf Hrf]; [by rewrite (tk_rafts HK)|].
  rewrite Hup, Hrf. cbn [or_panic mbind result_bind].
  assert (Hnext : ∃ d s, submit at_ si (S k) starts' cmd = Val (-1, (k + d)%nat, s)).
  { destruct (IH (S k) starts') as (d & s & ->); [lia|]. exists (S d), s. do 3 f_equal. lia. }
  destruct up; cbn [mbind result_bind]; [|exact Hnext]. destruct rf as [r|]; [|exact Hnext].
  destruct (tk_running HK k starts' r Hrf) as [[rf peers] Hr]. rewrite Hr. cbn [or_panic mbind result_bind Raft.Start].
  exists 1%nat, starts'. by rewrite Nat.add_1_r.
Qed.

Lemma one_fails fuel k starts since cmd num retry :
  10 * second ≤ clock k - since + Z.of_nat fuel * tick →
  one_loop vnil clock at_ (S fuel) k starts since cmd num retry = TestFatal NoAgreement ∨
  ∃ k', finished (cfg k') ≠ 0 ∧ one_loop vnil clock at_ (S fuel) k starts since cmd num retry = Val (-1).
Proof.
  revert k starts. induction fuel as [|fuel IH]; intros k starts Hf; cbn [one_loop]; unfold checkFinished;
    destruct (Z.eqb_spec (finished (cfg k)) 0) as [Hfin|Hfin]; cbn [negb Bool.eqb].
  - rewrite (proj2 (Z.ltb_ge _ _)) by lia. by left.
  - rewrite andb_false_r. right. by exists k.
  - rewrite andb_true_r. destruct (Z.ltb_spec (clock k - since) (10 * second)); [|by left].
    rewrite (tk_n HK). destruct (submit_fails N k starts cmd) as (d & s & ->); [done|].
    cbn [mbind result_bind Z.eqb negb]. apply IH.
    pose proof (clock_later k (S d)) as Hc. rewrite <- Nat.add_succ_r. pose proof (tk_tick HK). nia.
  - rewrite andb_false_r. right. by exists k.
Qed.
End one.

(** ** The leaders the tests see *)
Section leaders.
Context {W X V : Type} `{Codec X, SnapshotCodec V, EqDecision V} `{!GoRange Z (list nat)}.
Context (at_ : nat → world (W:=W) (X:=X) (V:=V)) (N : nat) (now : Z) (sys : nat → Raft.system).
Abbreviation cfg k := (w_cfg (at_ k)).
Implicit Types (k i : nat) (T : Z).

(** The servers of the test are those of a run of [Raft] that counts no vote of
    an earlier election, and the connected ones have not been stopped. *)
Record observed : Prop := Observed {
  ov_n k : n (cfg k) = N;
  ov_connected k : length (connected (cfg k)) = N;
  ov_start : sys 0 = Raft.init N now;
  ov_step k : ∃ acts, Raft.exec (sys k) acts = Some (sys (S k)) ∧ RaftElection.fresh_run (sys k) acts = true;
  ov_server k i : connected (cfg k) !! i = Some true →
    ∃ r rf peers, rafts (cfg k) !! i = Some (Some r) ∧ w_rafts (at_ k) !! r = Some (rf, peers) ∧
                  Raft.s_servers (sys k) !! i = Some rf;
}.

Context (HO : observed).

Lemma fresh_run_app s acts acts' s' : Raft.exec s acts = Some s' → RaftElection.fresh_run s acts = true → RaftElection.fresh_run s' acts' = true →
  RaftElection.fresh_run s (acts ++ acts') = true.
Proof.
  revert s. induction acts as [|a acts IH]; intros s E; simpl in *; [by injection E as ->|].
  destruct (Raft.step s a) as [s1|]; [|done]. cbn [mbind option_bind] in E. intros [-> Hr]%andb_true_iff Hr'. simpl. by apply IH.
Qed.

Lemma raft_exec_app s acts acts' s' : Raft.exec s acts = Some s' → Raft.exec s (acts ++ acts') = Raft.exec s' acts'.
Proof.
  revert s. induction acts as [|a acts IH]; intros s E; simpl in *; [by injection E as ->|].
  destruct (Raft.step s a) as [s1|]; [|done]. cbn [mbind option_bind] in *. by apply IH.
Qed.

Lemma observed_run k d : ∃ acts, Raft.exec (sys k) acts = Some (sys (k + d)) ∧ RaftElection.fresh_run (sys k) acts = true.
Proof.
  induction d as [|d (acts & E & Hf)]; [exists []; by rewrite Nat.add_0_r|].
  destruct (ov_step HO (k + d)) as (acts' & E' & Hf'). exists (acts ++ acts'). rewrite Nat.add_succ_r.
  rewrite (raft_exec_app _ _ _ _ E). split; [done|]. by eapply fresh_run_app.
Qed.

(** Server [i] is connected and leads term [T] at point [k]. *)
Definition leads k i T : Prop :=
  connected (cfg k) !! i = Some true ∧ ∃ rf, Raft.s_servers (sys k) !! i = Some rf ∧ Raft.state rf = Raft.Leader ∧ Raft.currentTerm rf = T.

Lemma leads_once k k' i j T : leads k i T → leads k' j T → i = j.
Proof.
  assert (H' : ∀ k k' i j, (k ≤ k')%nat → leads k i T → leads k' j T → i = j).
  { clear k k' i j. intros k k' i j Hle (_ & rf & Hi & Hl & HT) (_ & rf' & Hj & Hl' & HT').
    destruct (observed_run 0 k) as (acts1 & E1 & F1). destruct (observed_run k (k' - k)) as (acts2 & E2 & F2).
    simpl in E1, F1. rewrite (ov_start HO) in E1, F1. replace (k + (k' - k))%nat with k' in E2 by lia.
    eapply (RaftElection.leaders_voted N now acts1 acts2); [exact E1|exact E2|done..|congruence]. }
  intros Hi Hj. destruct (decide (k ≤ k')%nat); [by eapply H'|symmetry; eapply H'; [|done..]; lia].
Qed.

(** What a look at the servers before [a], the first at point [k], has collected. *)
Record collected_ok k (a : nat) (leaders : gmap Z (list nat)) : Prop := Collected {
  cl_list T l : leaders !! T = Some l → l ≠ [] ∧ NoDup l ∧ ∀ i, i ∈ l → (i < a)%nat ∧ leads (k + i) i T;
  cl_all i T : (i < a)%nat → leads (k + i) i T → ∃ l, leaders !! T = Some l ∧ i ∈ l;
}.

Lemma collected_skip k a leaders : (∀ T, ¬ leads (k + a) a T) → collected_ok k a leaders → collected_ok k (S a) leaders.
Proof.
  intros Hno [Hl Ha]. split.
  - intros T l HT. destruct (Hl T l HT) as (H1 & H2 & H3). split_and!; [done..|]. intros i Hi. destruct (H3 i Hi). split; [lia|done].
  - intros i T Hi Hd. destruct (decide (i = a)) as [->|]; [by destruct (Hno T)|]. apply Ha; [lia|done].
Qed.

Lemma collected_add k a leaders T : leads (k + a) a T → collected_ok k a leaders →
  collected_ok k (S a) (<[T := default [] (leaders !! T) ++ [a]]> leaders).
Proof.
  intros Hd [Hl Ha]. split.
  - intros T' l. destruct (decide (T' = T)) as [->|Hne].
    + rewrite lookup_insert_eq. intros [= <-]. split; [by destruct (default [] _)|].
      assert (Hold : NoDup (default [] (leaders !! T)) ∧ ∀ i, i ∈ default [] (leaders !! T) → (i < a)%nat ∧ leads (k + i) i T).
      { destruct (leaders !! T) as [l|] eqn:E; simpl; [by destruct (Hl T l E)|]. split; [constructor|]. by intros i ?%elem_of_nil. }
      destruct Hold as [Hnd Hin]. split.
      * apply NoDup_app. split_and!; [done| |apply NoDup_singleton]. intros i [? _]%Hin ->%list_elem_of_singleton. lia.
      * intros i [[? ?]%Hin| ->%list_elem_of_singleton]%elem_of_app; [split; [lia|done]|split; [lia|done]].
    + rewrite lookup_insert_ne by done. intros (H1 & H2 & H3)%Hl. split_and!; [done..|]. intros i [? ?]%H3. split; [lia|done].
  - intros i T' Hi Hd'. destruct (decide (i = a)) as [->|Hne].
    + assert (T' = T) as -> by (destruct Hd as (_ & ? & ? & _ & ?), Hd' as (_ & ? & ? & _ & ?); congruence).
      rewrite lookup_insert_eq. eexists. split; [done|]. set_solver.
    + destruct (Ha i T') as (l & E & Hin); [lia|done|]. destruct (decide (T' = T)) as [->|].
      * rewrite lookup_insert_eq, E. eexists. split; [done|]. set_solver.
      * rewrite lookup_insert_ne by done. eauto.
Qed.

Lemma collect_leaders_ok k a b leaders : (a + b ≤ N)%nat → collected_ok k a leaders →
  ∃ leaders', collect_leaders at_ (k + a) (seq a b) leaders = Val leaders' ∧ collected_ok k (a + b) leaders'.
Proof.
  revert a leaders. induction b as [|b IH]; intros a leaders Hab Hc.
  { exists leaders. by rewrite Nat.add_0_r. }
  cbn [seq collect_leaders]. unfold is_connected.
  destruct (lookup_lt_is_Some_2 (connected (cfg (k + a))) a) as [up Hup]; [rewrite (ov_connected HO); lia|].
  rewrite Hup. cbn [or_panic mbind result_bind]. replace (S (k + a)) with (k + S a)%nat by lia. replace (a + S b)%nat with (S a + b)%nat by lia.
  destruct up.
  - destruct (ov_server HO _ _ Hup) as (r & rf & peers & Hr & Hobj & Hs). unfold get_state. rewrite Hr. cbn [mjoin option_join or_panic mbind result_bind].
    rewrite Hobj. cbn [or_panic mbind result_bind]. unfold Raft.GetState. case_bool_decide as Hl; apply IH; try lia.
    + apply collected_add; [|done]. split; [done|]. by exists rf.
    + apply collected_skip; [|done]. intros T (_ & rf' & Hs' & Hl' & _). congruence.
  - apply IH; [lia|]. apply collected_skip; [|done]. intros T [Hup' _]. congruence.
Qed.

(** No list of leaders is longer than one, so the last term is the greatest. *)
Lemma last_term_ok ls m : (∀ T l, (T, l) ∈ ls → (length l ≤ 1)%nat) →
  ∃ T', last_term (V:=V) ls m = Val T' ∧ m ≤ T' ∧ (∀ T l, (T, l) ∈ ls → T ≤ T') ∧ (T' = m ∨ ∃ l, (T', l) ∈ ls).
Proof.
  revert m. induction ls as [|[T l] ls IH]; intros m Hl.
  { exists m. split_and!; [done|done|by intros ? ? ?%elem_of_nil|by left]. }
  cbn [last_term]. rewrite decide_False by (specialize (Hl T l ltac:(set_solver)); lia).
  destruct (IH (if m <? T then T else m)) as (T' & -> & Hm & Hall & Hor); [intros; apply (Hl T0); set_solver|].
  exists T'. split; [done|]. destruct (Z.ltb_spec m T); split_and!; try lia.
  - intros T0 l0 [[= -> ->]|Hin]%elem_of_cons; [done|by eapply Hall].
  - right. destruct Hor as [->|[l0 ?]]; [exists l; set_solver|exists l0; set_solver].
  - intros T0 l0 [[= -> ->]|Hin]%elem_of_cons; [lia|by eapply Hall].
  - destruct Hor as [->|[l0 ?]]; [by left|right; exists l0; set_solver].
Qed.

Lemma leads_term k i T : leads k i T → 0 ≤ T.
Proof.
  intros (_ & rf & Hi & _ & <-). destruct (observed_run 0 k) as (acts & E & _). simpl in E. rewrite (ov_start HO) in E.
  destruct (RaftVotes.exec_ok _ _ _ (RaftVotes.raft_Inv_init N now) E) as [_ (Hlen & _ & HT)].
  destruct (lookup_lt_is_Some_2 (Raft.s_servers (Raft.init N now)) i) as [rf0 H0'].
  { rewrite <- Hlen. by eapply lookup_lt_Some. }
  destruct (HT _ _ H0') as (rf' & Hrf' & Hle). rewrite Hi in Hrf'. injection Hrf' as <-.
  destruct (RaftVotes.init_server _ _ _ _ H0') as [-> _]. simpl in Hle. lia.
Qed.

(** One look of [checkOneLeader]. *)
Lemma look_ok k : ∃ leaders T, collect_leaders at_ k (seq 0 N) ∅ = Val leaders ∧
  last_term (V:=V) (go_range leaders) (-1) = Val T ∧
  (leaders ≠ ∅ → ∃ i, leaders !! T = Some [i] ∧ leads (k + i) i T ∧ ∀ j T', (j < N)%nat → leads (k + j) j T' → T' ≤ T).
Proof.
  destruct (collect_leaders_ok k 0 N ∅) as (leaders & E & Hc); [lia| |].
  { split; [by intros T l|lia]. }
  rewrite Nat.add_0_r in E. exists leaders.
  assert (Hin : ∀ T l, (T, l) ∈ go_range leaders ↔ leaders !! T = Some l).
  { intros T l. by rewrite go_range_perm, elem_of_map_to_list. }
  assert (Hone : ∀ T l, leaders !! T = Some l → ∃ i, l = [i] ∧ leads (k + i) i T).
  { intros T l HT. destruct (cl_list _ _ _ Hc T l HT) as (Hne & Hnd & Hl). destruct l as [|i [|j l]]; [done| |].
    - exists i. split; [done|]. apply Hl. set_solver.
    - exfalso. destruct (Hl i) as [_ Hi]; [set_solver|]. destruct (Hl j) as [_ Hj]; [set_solver|].
      pose proof (leads_once _ _ _ _ _ Hi Hj) as <-. apply NoDup_cons in Hnd as [Hni _]. set_solver. }
  destruct (last_term_ok (go_range leaders) (-1)) as (T & ET & Hm & Hmax & Hor).
  { intros T l (i & -> & _)%Hin%Hone. done. }
  exists T. split; [done|]. split; [done|]. intros Hne.
  assert (HT : ∃ l, leaders !! T = Some l).
  { destruct Hor as [->|[l Hl]]; [|exists l; by apply Hin]. exfalso. apply map_choose in Hne as (T' & l & HT').
    destruct (Hone T' l HT') as (i & -> & Hi). pose proof (leads_term _ _ _ Hi). apply Hin, Hmax in HT'. lia. }
  destruct HT as [l HT]. destruct (Hone T l HT) as (i & -> & Hi). exists i. split; [done|]. split; [done|].
  intros j T' Hj Hd. destruct (cl_all _ _ _ Hc j T' Hj Hd) as (l & Hl & _). apply Hin in Hl. by eapply Hmax.
Qed.

Lemma checkOneLeader_loop_ok iters k :
  match checkOneLeader_loop at_ iters k with
  | Val i => ∃ k0 T, (k ≤ k0)%nat ∧ leads (k0 + i) i T ∧ ∀ j T', (j < N)%nat → leads (k0 + j) j T' → T' ≤ T
  | TestFatal NoLeader => True
  | _ => False
  end.
Proof.
  revert k. induction iters as [|iters IH]; intros k; [done|]. cbn [checkOneLeader_loop]. rewrite (ov_n HO).
  destruct (look_ok k) as (leaders & T & -> & E & Hl). cbn [mbind result_bind]. rewrite E. cbn [mbind result_bind].
  case_decide as Hne.
  - destruct (Hl Hne) as (i & -> & Hi & Hmax). simpl. by exists k, T.
  - specialize (IH (k + N + 1)%nat). destruct (checkOneLeader_loop _ _ _) as [| | |f|i]; try done.
    destruct IH as (k0 & T' & Hk & Hr). exists k0, T'. split; [lia|done].
Qed.
End leaders.

(** ** The properties *)

(** C24: along any messages the readers of the apply channels accept, all logs agree and
    have no gaps; and the next message, for any server, is accepted exactly
    when no log has another command at its index and the server has the
    command before it, and then only the log of that server changes; otherwise the
    program ends. *)
Theorem appliers_check {V} `{SnapshotCodec V, EqDecision V} (c0 c : config (V:=V)) msgs i (m : ApplyMsg V) l :
  (∀ j l0, logs c0 !! j = Some l0 → l0 = ∅) → apply_all msgs c0 = Val c → CommandValid m = true → logs c !! i = Some l →
  (∀ a b la lb x v v', logs c !! a = Some la → logs c !! b = Some lb → la !! x = Some v → lb !! x = Some v' → v = v') ∧
  (∀ a la x v, logs c !! a = Some la → la !! x = Some v → 1 < x → is_Some (la !! (x - 1))) ∧
  ((¬ conflicts m (logs c) ∧ in_order i m (logs c) ∧
    applier i m c = Val (set_logs (<[i := new_log m l]> (logs c)) (Z.max (maxIndex c) (CommandIndex m)) c)) ∨
   ((conflicts m (logs c) ∨ ¬ in_order i m (logs c)) ∧ ∃ e, applier i m c = LogFatal (Some e))).
Proof.
  intros He E Hv Hl. destruct (apply_all_ok msgs c0 c (logs_ok_empty _ He) E) as [HL _].
  split; [apply (lo_agree _ HL)|]. split; [apply (lo_gapless _ HL)|]. by apply applier_valid.
Qed.

(** C23: while the servers run and their appliers accept what they apply, [nCommitted]
    never fails: it answers a number of servers that have, when it returns, the command it
    answers at the index, and no log ever has another one there. When the
    waiting loop of [one] reports agreement, at least one server and at least as
    many as it was asked for have the submitted command. *)
Theorem agreement_is_committed {W X V} `{Codec X, SnapshotCodec V, EqDecision V} (vnil : V) clock
    (at_ : nat → world (W:=W) (X:=X) (V:=V)) N k index :
  tested at_ N →
  (∃ num cmd, nCommitted vnil at_ k index = Val (num, cmd) ∧ agreed at_ N (after at_ k) index cmd num ∧
     ∀ k' i v, committed at_ k' i index = Some v → 0 < num → v = cmd) ∧
  (∀ fuel t1 cmd num k', await_agreement vnil clock at_ fuel k t1 index cmd num = Val (true, k') →
     agreed at_ N k' index cmd (Z.max 1 num)).
Proof.
  intros HT. split; [|intros *; by apply await_agreement_sound].
  destruct (nCommitted_ok vnil at_ N HT k index) as (cmd & E & _). eexists _, cmd. split; [exact E|].
  by eapply nCommitted_agreed.
Qed.

(** C15: on servers that count no vote of an earlier election [checkOneLeader] never
    reports two leaders in a term and never panics: after one of its looks it
    answers a connected server that was a leader when it was read, and no
    connected server was then read as the leader of a later term; or it reports
    that there is no leader. *)
Theorem checkOneLeader_sound {W X V} `{Codec X, SnapshotCodec V, EqDecision V, !GoRange Z (list nat)}
    (at_ : nat → world (W:=W) (X:=X) (V:=V)) N now sys k :
  observed at_ N now sys →
  match checkOneLeader at_ k with
  | Val i => ∃ k0 T, (k < k0)%nat ∧ leads at_ sys (k0 + i) i T ∧ ∀ j T', (j < N)%nat → leads at_ sys (k0 + j) j T' → T' ≤ T
  | TestFatal NoLeader => True
  | _ => False
  end.
Proof.
  intros HO. pose proof (checkOneLeader_loop_ok at_ N now sys HO 10 (S k)) as Hl. unfold checkOneLeader.
  destruct (checkOneLeader_loop _ _ _) as [| | |f|i]; try done.
Qed.

(** With [Start] as it is written no test reaches an agreement: as time passes,
    [one] ends, and it fails the test unless the test has finished meanwhile,
    whatever the servers do and however many it is asked to wait for. *)
Theorem one_never_agrees {W X V} `{Codec X, SnapshotCodec V, EqDecision V} (vnil : V) clock
    (at_ : nat → world (W:=W) (X:=X) (V:=V)) N tick k cmd num retry fuel :
  ticking clock at_ N tick → 10 * second ≤ Z.of_nat fuel * tick →
  one vnil clock at_ (S fuel) k cmd num retry = TestFatal NoAgreement ∨
  ∃ k', finished (w_cfg (at_ k')) ≠ 0 ∧ one vnil clock at_ (S fuel) k cmd num retry = Val (-1).
Proof. intros HK Hf. apply (one_fails vnil clock at_ N tick HK). lia. Qed.

(** A snapshot of a server whose log has the commands 1 to [index], taken as
    [applierSnap] takes it, is ingested to exactly this log, with the nil command at
    index 0; the server goes on from there, and the other logs are as they were. *)
Theorem snapshot_restores {V} `{SnapshotCodec V, EqDecision V} (vnil : V) (c : config (V:=V)) i index l :
  (∀ k xs, decode_snapshot (encode_snapshot k xs) = Some (k, xs)) →
  (i < length (logs c))%nat → (i < length (lastApplied c))%nat → 0 ≤ index →
  (∀ x, 1 ≤ x ≤ index → is_Some (l !! x)) → l !! 0 = None →
  ∃ c' l', ingestSnap i (Some (encode_snapshot index (snapshot_log vnil l index))) (-1) c = Val (None, c') ∧
    logs c' = <[i := l']> (logs c) ∧ l' !! 0 = Some vnil ∧
    (∀ x, x ≠ 0 → l' !! x = if decide (1 ≤ x ≤ index) then l !! x else None) ∧
    lastApplied c' = <[i := index]> (lastApplied c).
Proof.
  intros Hcodec Hi Hi' Hidx Hl H0. unfold ingestSnap. rewrite Hcodec. cbn [Z.eqb negb andb].
  unfold write. rewrite decide_True by done. cbn [mbind result_bind set_logs lastApplied]. rewrite decide_True by done.
  eexists _, _. split; [done|]. split; [done|]. split; [|split; [|done]].
  - rewrite log_of_lookup. rewrite decide_True by done. rewrite snapshot_log_lookup by done. rewrite decide_True by done. by rewrite H0.
  - intros x Hx. rewrite log_of_lookup. case_decide as Hp; [|by rewrite decide_False by lia].
    rewrite snapshot_log_lookup by done. destruct (decide (x ≤ index)) as [Hle|]; [|by rewrite decide_False by lia].
    rewrite decide_True by lia. destruct (Hl x) as [v Hv]; [lia|]. by rewrite Hv.
Qed.

(** ** Examples *)

#[local] Instance unit_values : Codec unit := {| New _ := (); EncodeV _ := Some []; DecodeV _ v := (v, true) |}.
#[local] Instance no_snapshots : SnapshotCodec Z := {| encode_snapshot _ _ := []; decode_snapshot _ := None |}.

Definition three_servers : config (V:=Z) :=
  Config 0 MakeNetwork 3 [Some 0%nat; Some 1%nat; Some 2%nat] [None; None; None] [true; true; true] [None; None; None]
    [None; None; None] [∅; ∅; ∅] [0; 0; 0] 0 0 0 0 0 0 0.

Definition commands : list (nat * ApplyMsg Z) :=
  [(0%nat, MkApplyMsg true 7 1 false None 0 0); (2%nat, MkApplyMsg true 7 1 false None 0 0); (0%nat, MkApplyMsg true 9 2 false None 0 0)].

Definition later_config : config (V:=Z) := match apply_all commands three_servers with Val c => c | _ => three_servers end.

Lemma later_config_eq : apply_all commands three_servers = Val later_config.
Proof. vm_compute. reflexivity. Qed.

Lemma three_servers_empty j (l : gmap Z Z) : logs three_servers !! j = Some l → l = ∅.
Proof. intros Hj. destruct j as [|[|[|j]]]; [by injection Hj as <-..|discriminate Hj]. Qed.

Lemma appliers_check_witness :
  (∃ e, applier 1 (MkApplyMsg true 9 2 false None 0 0) later_config = LogFatal (Some e)) ∧
  ∃ c, applier 2 (MkApplyMsg true 9 2 false None 0 0) later_config = Val c.
Proof.
  split.
  - destruct (appliers_check three_servers later_config commands 1 (MkApplyMsg true 9 2 false None 0 0) ∅
      three_servers_empty later_config_eq eq_refl eq_refl) as (_ & _ & [(_ & Ho & _)|[_ He]]); [|exact He].
    destruct (Ho eq_refl) as (l & v & Hl & Hv). vm_compute in Hl. injection Hl as <-. discriminate Hv.
  - destruct (appliers_check three_servers later_config commands 2 (MkApplyMsg true 9 2 false None 0 0) {[1 := 7]}
      three_servers_empty later_config_eq eq_refl) as (_ & _ & [(_ & _ & Ha)|[_ [e He]]]); [vm_compute; reflexivity|..].
    + eexists. exact Ha.
    + vm_compute in He. discriminate He.
Defined.

(** From point 1 on the servers have committed the commands. *)
Definition committing (k : nat) : world (W:=unit) (X:=unit) (V:=Z) :=
  World (if decide (k = 0%nat) then three_servers else later_config) [] [] [] [].

Lemma committing_tested : tested committing 3.
Proof.
  split; intros; unfold committing; try (case_decide; reflexivity).
  - revert H. apply three_servers_empty.
  - destruct k as [|k]; simpl; [exists commands, later_config; split; [exact later_config_eq|done]|exists [], later_config; done].
Qed.

Lemma agreement_is_committed_witness :
  nCommitted 0 committing 1 1 = Val (2, 7) ∧ agreed committing 3 4 1 7 2.
Proof.
  assert (E : nCommitted 0 committing 1 1 = Val (2, 7)) by (vm_compute; reflexivity). split; [exact E|].
  destruct (agreement_is_committed 0 (λ _, 0) committing 3 1 1 committing_tested) as [(num & cmd & E' & Ha & _) _].
  rewrite E in E'. injection E' as <- <-. exact Ha.
Defined.

(** Server 0 is elected between points 0 and 1. *)
Definition electing (k : nat) : Raft.system :=
  if decide (k = 0%nat) then Raft.init 3 0 else RaftRuns.end_of RaftRuns.elect_0.
Definition watching (k : nat) : world (W:=unit) (X:=unit) (V:=Z) :=
  World three_servers ((λ rf, (rf, [])) <$> Raft.s_servers (electing k)) [] [] [].

Lemma watching_observed : observed watching 3 0 electing.
Proof.
  split; try done.
  - intros [|k]; unfold electing; simpl.
    + exists RaftRuns.elect_0. split; vm_compute; reflexivity.
    + exists []. done.
  - intros k i Hi. assert (Hlt : (i < 3)%nat) by (apply lookup_lt_Some in Hi; exact Hi).
    assert (Hlen : length (Raft.s_servers (electing k)) = 3%nat) by (unfold electing; case_decide; vm_compute; reflexivity).
    destruct (lookup_lt_is_Some_2 (Raft.s_servers (electing k)) i) as [rf Hrf]; [lia|].
    exists i, rf, []. split; [destruct i as [|[|[|i]]]; done || lia|]. split; [|done].
    simpl. by rewrite list_lookup_fmap, Hrf.
Qed.

Lemma checkOneLeader_sound_witness :
  checkOneLeader watching 0 = Val 0%nat ∧ ∃ k0 T, leads watching electing k0 0 T.
Proof.
  assert (E : checkOneLeader watching 0 = Val 0%nat) by (vm_compute; reflexivity). split; [exact E|].
  pose proof (checkOneLeader_sound watching 3 0 electing 0 watching_observed) as H. rewrite E in H.
  destruct H as (k0 & T & _ & Hl & _). rewrite Nat.add_0_r in Hl. exists k0, T. exact Hl.
Defined.

Lemma one_never_agrees_witness :
  one 0 (λ k, Z.of_nat k * second) watching 11 0 7 1 true = TestFatal NoAgreement.
Proof.
  destruct (one_never_agrees 0 (λ k, Z.of_nat k * second) watching 3 second 0 7 1 true 10) as [E|(k' & Hf & _)].
  - split; try done; [|intros; unfold second; lia]. intros k i r Hi. simpl in Hi.
    assert (Hlen : length (w_rafts (watching k)) = 3%nat) by (unfold watching, electing; case_decide; vm_compute; reflexivity).
    apply lookup_lt_is_Some_2. rewrite Hlen. destruct i as [|[|[|i]]]; simpl in Hi; simplify_eq; lia.
  - unfold second. lia.
  - exact E.
  - by destruct Hf.
Defined.

#[local] Instance unit_snapshots : SnapshotCodec () :=
  {| encode_snapshot k xs := bytes_of_value (k, xs); decode_snapshot bs := value_of_bytes bs |}.

Lemma snapshot_restores_witness :
  let l : gmap Z () := {[1 := (); 2 := ()]} in
  ∃ c' (l' : gmap Z ()), ingestSnap 1 (Some (encode_snapshot 2 (snapshot_log () l 2))) (-1)
    (Config 0 MakeNetwork 2 [None; None] [None; None] [true; true] [None; None] [None; None] [∅; l] [0; 2] 0 0 0 0 0 0 0) = Val (None, c') ∧
    l' !! 2 = Some () ∧ l' !! 3 = None.
Proof.
  intros l.
  destruct (snapshot_restores ()
    (Config 0 MakeNetwork 2 [None; None] [None; None] [true; true] [None; None] [None; None] [∅; l] [0; 2] 0 0 0 0 0 0 0) 1 2 l)
    as (c' & l' & E & _ & _ & Hl & _).
  - intros k xs. apply value_of_bytes_of_value.
  - simpl. lia.
  - simpl. lia.
  - lia.
  - intros x Hx. assert (x = 1 ∨ x = 2) as [-> | ->] by lia; vm_compute; eauto.
  - vm_compute. reflexivity.
  - exists c', l'. split; [exact E|]. rewrite !Hl by lia. split; vm_compute; reflexivity.
Defined.
End RaftChecks.
