(* ===== verification/RaftNet.v ===== *)
(** * Raft over the simulated network

    The servers of [src/6.5840/src/raft/raft.go] with every [Call] the one of
    [labrpc.go]: what reflection tells labrpc of a Raft object, and the system of
    the objects, their goroutines and the network, while a tester connects,
    disconnects, shuts down and kills servers but starts no new ones. The system
    of [Raft] treats a call as one delivery that may fail; here it is the steps
    of its goroutines, and a handler can run after its call has failed. *)
From S2P Require Import Prelude LabGob LabRpc Raft.
Import LabGob LabRpc.
Local Open Scope Z_scope.

Module RaftNet.

(** ** A Raft object as labrpc sees it *)

(** What a request or a reply holds; a pointer is the value it points to. *)
Inductive raftvalue :=
| VVoteArgs (a : Raft.RequestVoteArgs)
| VVoteReply (r : Raft.RequestVoteReply)
| VAppendEntries (a : Raft.AppendEntries)
| VHeartbeatReply (r : Raft.HeartbeatReply).

(** The types of the messages, and the pointers to them. *)
Definition raft_types (t : rtype) : desc :=
  match t with
  | 1%nat => DPtr 2
  | 2%nat => DStruct "RequestVoteArgs" [("Term", 9%nat); ("CandidateId", 9%nat); ("LastLogIndex", 9%nat); ("LastLogTerm", 9%nat)]
  | 3%nat => DPtr 4
  | 4%nat => DStruct "RequestVoteReply" [("Term", 9%nat); ("VoteGranted", 10%nat)]
  | 5%nat => DPtr 6
  | 6%nat => DStruct "AppendEntries" [("Term", 9%nat); ("LeaderID", 9%nat); ("PrevlogIndex", 9%nat); ("PrevlogTerm", 9%nat)]
  | 7%nat => DPtr 8
  | 8%nat => DStruct "HeartbeatReply" [("Term", 9%nat); ("Success", 10%nat)]
  | 9%nat => DBasic "int"
  | 10%nat => DBasic "bool"
  | 11%nat => DSlice 12
  | 12%nat => DBasic "uint8"
  | 13%nat => DPtr 14
  | 15%nat => DOther "interface"
  | _ => DOther "Raft"
  end%nat.

(** The Raft objects, by their number, and the time. *)
Record objects := Objects { o_rafts : list Raft.Raft; o_now : Z }.

(** A method called on object [p]; reflection panics when it is given a value of
    another type, which does not happen. *)
Definition on_raft (p : nat) (f : Z → Raft.Raft → Raft.Raft * option raftvalue) (w : objects) (r : raftvalue) :
    objects * raftvalue :=
  match o_rafts w !! p with
  | Some rf => let '(rf, r') := f (o_now w) rf in (Objects (<[p := rf]> (o_rafts w)) (o_now w), default r r')
  | None => (w, r)
  end.

Definition call_RequestVote (a : raftvalue) (now : Z) (rf : Raft.Raft) : Raft.Raft * option raftvalue :=
  match a with
  | VVoteArgs args => let '(rf, reply) := Raft.RequestVote now rf args in (rf, Some (VVoteReply reply))
  | _ => (rf, None)
  end.

Definition call_GetHeartbeat (a r : raftvalue) (now : Z) (rf : Raft.Raft) : Raft.Raft * option raftvalue :=
  match a, r with
  | VAppendEntries args, VHeartbeatReply reply =>
      let '(rf, reply) := Raft.GetHeartbeat now rf args reply in (rf, Some (VHeartbeatReply reply))
  | _, _ => (rf, None)
  end.

(** The exported methods of object [p]; the types are those of the receiver and
    the arguments. Only two have the shape of a handler, so the others are
    never called through labrpc. *)
Definition raft_methods (p : nat) : list (Method (W:=objects) (V:=raftvalue)) :=
  [ MkMethod "GetHeartbeat" "" [13; 5; 7]%nat 0 (λ w a r, on_raft p (call_GetHeartbeat a r) w r);
    MkMethod "GetState" "" [13]%nat 2 (λ w a r, (w, r));
    MkMethod "Kill" "" [13]%nat 0 (λ w a r, on_raft p (λ _ rf, (Raft.Kill rf, None)) w r);
    MkMethod "LeaderOperation" "" [13]%nat 0 (λ w a r, (w, r));
    MkMethod "RequestVote" "" [13; 1; 3]%nat 0 (λ w a r, on_raft p (call_RequestVote a) w r);
    MkMethod "Snapshot" "" [13; 9; 11]%nat 0 (λ w a r, on_raft p (λ _ rf, (Raft.Snapshot rf 0 [], None)) w r);
    MkMethod "Start" "" [13; 15]%nat 3 (λ w a r, (w, r)) ].

Definition raftsvc (p : nat) : Service (W:=objects) (V:=raftvalue) := MakeService raft_types "Raft" (raft_methods p).

(** What gob promises for these values. *)
Definition type_of (v : raftvalue) : rtype :=
  match v with VVoteArgs _ => 1 | VVoteReply _ => 4 | VAppendEntries _ => 5 | VHeartbeatReply _ => 8 end%nat.

Class RaftCodec `{Codec raftvalue} : Prop := {
  encodes v : ∃ b, EncodeV v = Some b ∧ DecodeV b (New (type_of v)) = (v, true);
  new_vote_reply : New 4%nat = VVoteReply (Raft.MkRequestVoteReply 0 false);
  new_heartbeat_reply : New 8%nat = VHeartbeatReply (Raft.MkHeartbeatReply 0 false);
}.

(** ** The calls of a goroutine *)

Definition vote_reply (v : raftvalue) : Raft.RequestVoteReply :=
  match v with VVoteReply r => r | _ => Raft.MkRequestVoteReply 0 false end.
Definition heartbeat_reply (v : raftvalue) : Raft.HeartbeatReply :=
  match v with VHeartbeatReply r => r | _ => Raft.MkHeartbeatReply 0 false end.

(** The end, method, type of the arguments, arguments and variable for the reply of
    [sendRequestVote] and of the heartbeats; the servers that call and are called. *)
Definition request_of (t : Raft.thread) : option (nat * nat * string * rtype * raftvalue * raftvalue) :=
  match t with
  | Raft.AskVote i j args =>
      Some (i, j, "Raft.RequestVote", 1%nat, VVoteArgs args, VVoteReply (Raft.MkRequestVoteReply 0 false))
  | Raft.SendBeat i j args =>
      Some (i, j, "Raft.GetHeartbeat", 5%nat, VAppendEntries args, VHeartbeatReply (Raft.MkHeartbeatReply 0 false))
  | _ => None
  end.

(** What is left to do when [Call] has returned [ok] and the variable holds [v]. A
    heartbeat does not look at [ok]. *)
Definition after_call (t : Raft.thread) (ok : bool) (v : raftvalue) : option Raft.thread :=
  match t with
  | Raft.AskVote i j args => if ok then Some (Raft.GotVote i j args (vote_reply v)) else None
  | Raft.SendBeat i j args => Some (Raft.BeatReply i j (heartbeat_reply v))
  | _ => None
  end.

(** ** The system *)

Section system.
Context `{Codec raftvalue}.

Abbreviation netstate := (@state objects raftvalue name _ _).
Abbreviation netstep := (@step objects raftvalue name _ _ _ raft_types).

(** A goroutine, with the call it waits for. *)
Record goroutine := Goroutine { g_thread : Raft.thread; g_wait : option nat }.

(** [s_ends] are the names of the ends of every server, [peers]. *)
Record system := System {
  s_net : netstate;
  s_ends : list (list string);
  s_tickers : list (option Z);
  s_gors : list goroutine;
}.

Definition rafts (s : system) : list Raft.Raft := o_rafts (st_world (s_net s)).
Definition clock (s : system) : Z := o_now (st_world (s_net s)).

Definition with_world (w : objects) (n : netstate) : netstate :=
  State (st_net n) (st_objs n) w (st_calls n) (st_loop n).

(** Goroutines that have just begun. *)
Definition begun (ts : list Raft.thread) : list goroutine := (λ t, Goroutine t None) <$> ts.

(** The system as [Raft] sees it, without its goroutines. *)
Definition servers_of (s : system) : Raft.system := Raft.System (rafts s) (s_tickers s) [] (clock s) [].

(** A step of a ticker, of the time, or a kill. *)
Definition local (a : Raft.action) (s : system) : outcome system :=
  r ← or_block (Raft.step (servers_of s) a);
  Next (System (with_world (Objects (Raft.s_servers r) (Raft.s_now r)) (s_net s)) (s_ends s)
          (Raft.s_tickers r) (s_gors s ++ begun (Raft.s_threads r))).

(** The code of thread [t] runs, which was goroutine [g]. *)
Definition run (g : nat) (t : Raft.thread) (s : system) : outcome system :=
  '(servers, ts, _) ← or_block (Raft.run_thread (length (rafts s)) (clock s) (rafts s) t);
  Next (System (with_world (Objects servers (clock s)) (s_net s)) (s_ends s) (s_tickers s) (delete g (s_gors s) ++ begun ts)).

(** What a tester does to the network while the servers run; it makes no ends
    and adds no servers. *)
Definition tester (x : control (N:=name)) : bool :=
  match x with
  | CReliable _ | CLongReordering _ | CLongDelays _ | CEnable _ _ | CDeleteServer _ | CCleanup => true
  | _ => false
  end.

(** The steps of the goroutines of labrpc. *)
Definition internal (a : @LabRpc.action objects raftvalue name) : bool :=
  match a with
  | AControl _ | AMakeServer _ | AAddService _ _ | ACall _ _ _ _ _ _ => false
  | _ => true
  end.

Inductive action :=
| Advance (d : Z) (* time passes *)
| Wake (i : nat) (rnd : Z) (* the wait of ticker i is over *)
| KillServer (i : nat)
| Go (g : nat) (* goroutine g goes on *)
| Send (g k : nat) (* goroutine g makes its call *)
| Net (a : @LabRpc.action objects raftvalue name)
| Control (x : control (N:=name))
| Receive (g : nat). (* goroutine g has the outcome of its call *)

Definition step (s : system) (a : action) : outcome system :=
  match a with
  | Advance d => local (Raft.Advance d) s
  | Wake i rnd => local (Raft.Wake i rnd) s
  | KillServer i => local (Raft.KillServer i) s
  | Go g =>
      gr ← or_block (s_gors s !! g);
      if Raft.calling (g_thread gr) then Blocked else run g (g_thread gr) s
  | Send g k =>
      gr ← or_block (s_gors s !! g);
      match g_wait gr, request_of (g_thread gr) with
      | None, Some (i, j, m, t, args, reply) =>
          names ← or_block (s_ends s !! i);
          e ← or_block (names !! j);
          net ← netstep (s_net s) (ACall k (EndName e) m t args reply);
          Next (System net (s_ends s) (s_tickers s) (<[g := Goroutine (g_thread gr) (Some k)]> (s_gors s)))
      | _, _ => Blocked
      end
  | Net a =>
      if internal a then net ← netstep (s_net s) a; Next (System net (s_ends s) (s_tickers s) (s_gors s)) else Blocked
  | Control x =>
      if tester x then net ← netstep (s_net s) (AControl x); Next (System net (s_ends s) (s_tickers s) (s_gors s)) else Blocked
  | Receive g =>
      gr ← or_block (s_gors s !! g);
      k ← or_block (g_wait gr);
      call ← or_block (st_calls (s_net s) !! k);
      match c_pc call with
      | Returned b v =>
          match after_call (g_thread gr) b v with
          | Some t => run g t s
          | None => Next (System (s_net s) (s_ends s) (s_tickers s) (delete g (s_gors s)))
          end
      | _ => Blocked
      end
  end.

Fixpoint exec (s : system) (acts : list action) : outcome system :=
  match acts with
  | [] => Next s
  | a :: acts => s ← step s a; exec s acts
  end.

End system.
End RaftNet.
