(* ===== verification/RaftNetSim.v ===== *)
(** * Raft over the network is the Raft of the model

    The system of [RaftNet] is simulated by the one of [Raft]: a request is
    delivered there when its handler runs, and a call that fails is lost there when its
    goroutine goes on or, when the handler has not run yet, after it has. *)
From S2P Require Import Prelude LabGob LabRpc LabRpcProof LabRpcCalls.
From S2P Require Import Raft RaftTyping RaftElection RaftNet.
Import LabGob LabRpc LabRpcProof LabRpcCalls RaftNet.
Local Open Scope Z_scope.

Module RaftNetSim.

(** ** Moves of the model *)

Implicit Types (abs : Raft.system) (t : Raft.thread) (ts rest : list Raft.thread).

Definition fresh_thread (servers : list Raft.Raft) (t : Raft.thread) : bool :=
  match t with
  | Raft.GotVote i j args reply =>
      match servers !! i with
      | Some rf => negb (Raft.VoteGranted reply) || (Raft.rv_Term args =? Raft.currentTerm rf)
      | None => true
      end
  | _ => true
  end.

(** The model gets from [abs] to [abs'], and if [fr], without counting a vote of an
    earlier election. *)
Definition moves (fr : bool) abs abs' : Prop :=
  ∃ acts, Raft.exec abs acts = Some abs' ∧ (fr = true → RaftElection.fresh_run abs acts = true).

Lemma moves_refl fr abs : moves fr abs abs.
Proof. by exists []. Qed.

Lemma raft_runs_app abs acts acts' abs' : Raft.exec abs acts = Some abs' →
  Raft.exec abs (acts ++ acts') = Raft.exec abs' acts' ∧
  RaftElection.fresh_run abs (acts ++ acts') = RaftElection.fresh_run abs acts && RaftElection.fresh_run abs' acts'.
Proof.
  revert abs. induction acts as [|a acts IH]; intros abs; [by intros [= ->]|]. simpl. destruct (Raft.step abs a) as [abs1|]; [|done].
  cbn [mbind option_bind]. intros E. destruct (IH _ E) as [-> ->]. by rewrite andb_assoc.
Qed.

Lemma moves_weaken (fr fr' : bool) abs abs' : (fr' = true → fr = true) → moves fr abs abs' → moves fr' abs abs'.
Proof. intros Hw (acts & E & F). exists acts. split; [done|]. auto. Qed.

Lemma moves_trans fr abs1 abs2 abs3 : moves fr abs1 abs2 → moves fr abs2 abs3 → moves fr abs1 abs3.
Proof.
  intros (a1 & E1 & F1) (a2 & E2 & F2). exists (a1 ++ a2). destruct (raft_runs_app abs1 a1 a2 abs2 E1) as [-> ->].
  split; [done|]. intros Hf. by rewrite F1, F2.
Qed.

Lemma moves_one fr abs a abs' : Raft.step abs a = Some abs' → (fr = true → RaftElection.fresh abs a = true) → moves fr abs abs'.
Proof. intros E F. exists [a]. simpl. rewrite E. split; [done|]. intros Hf. by rewrite F. Qed.

(** Thread [t] runs. *)
Lemma abs_run fr abs t rest sv ts vs : Raft.s_threads abs ≡ₚ t :: rest →
  Raft.run_thread (length (Raft.s_servers abs)) (Raft.s_now abs) (Raft.s_servers abs) t = Some (sv, ts, vs) →
  (fr = true → fresh_thread (Raft.s_servers abs) t = true) →
  ∃ abs', moves fr abs abs' ∧ Raft.s_servers abs' = sv ∧ Raft.s_tickers abs' = Raft.s_tickers abs ∧ Raft.s_now abs' = Raft.s_now abs ∧
    Raft.s_threads abs' ≡ₚ rest ++ ts.
Proof.
  intros Hp Hr Hf. assert (Ht : t ∈ Raft.s_threads abs) by (rewrite Hp; by left). apply list_elem_of_lookup in Ht as [k Hk].
  eexists. split; [apply (moves_one fr abs (Raft.Run k))|].
  - cbn [Raft.step]. rewrite Hk. cbn [mbind option_bind]. rewrite Hr. reflexivity.
  - intros F. specialize (Hf F). cbn [RaftElection.fresh]. rewrite Hk. unfold fresh_thread in Hf. by destruct t.
  - cbn [Raft.s_servers Raft.s_tickers Raft.s_now Raft.s_threads]. split_and!; try done. f_equiv.
    apply (Permutation_cons_inv (a:=t)). rewrite <- Hp. symmetry. by apply delete_Permutation.
Qed.

(** The call of thread [t] fails. *)
Lemma abs_lose fr abs t rest : Raft.s_threads abs ≡ₚ t :: rest → Raft.calling t = true →
  ∃ abs', moves fr abs abs' ∧ Raft.s_servers abs' = Raft.s_servers abs ∧ Raft.s_tickers abs' = Raft.s_tickers abs ∧
    Raft.s_now abs' = Raft.s_now abs ∧ Raft.s_threads abs' ≡ₚ rest.
Proof.
  intros Hp Hc. assert (Ht : t ∈ Raft.s_threads abs) by (rewrite Hp; by left). apply list_elem_of_lookup in Ht as [k Hk].
  eexists. split; [apply (moves_one fr abs (Raft.Lose k))|].
  - cbn [Raft.step]. rewrite Hk. cbn [mbind option_bind]. rewrite Hc. reflexivity.
  - done.
  - cbn [Raft.s_servers Raft.s_tickers Raft.s_now Raft.s_threads]. split_and!; try done.
    apply (Permutation_cons_inv (a:=t)). rewrite <- Hp. symmetry. by apply delete_Permutation.
Qed.

(** ** One request *)

Section net.
Context `{RaftCodec}.

Abbreviation netstate := (@LabRpc.state objects raftvalue name _ _).
Abbreviation netstep := (@LabRpc.step objects raftvalue name _ _ _ raft_types).
Abbreviation netcall := (@LabRpc.call raftvalue name).

(** A thread when its request was executed and [v] is the reply. *)
Definition arrived (t : Raft.thread) (v : raftvalue) : Raft.thread :=
  match t with
  | Raft.AskVote i j args => Raft.GotVote i j args (vote_reply v)
  | Raft.SendBeat i j args => Raft.BeatReply i j (heartbeat_reply v)
  | t => t
  end.

(** What labrpc finds of the methods; [Snapshot] is not among them, since its last
    argument is not a pointer. *)
Lemma raftsvc_methods p :
  methods (raftsvc p) !! "RequestVote" = Some (MkMethod "RequestVote" "" [13; 1; 3]%nat 0 (λ w a r, on_raft p (call_RequestVote a) w r)) ∧
  methods (raftsvc p) !! "GetHeartbeat" = Some (MkMethod "GetHeartbeat" "" [13; 5; 7]%nat 0 (λ w a r, on_raft p (call_GetHeartbeat a r) w r)) ∧
  methods (raftsvc p) !! "Snapshot" = None.
Proof. done. Qed.

Lemma decodes v b : EncodeV v = Some b → DecodeV b (New (type_of v)) = (v, true).
Proof. intros Hb. destruct (encodes v) as (b' & E & ?). congruence. Qed.

(** labrpc's dispatch of a request runs the handler as the model does. *)
Lemma raft_dispatch_request n rs w t i j mth ty a rep b e :
  services rs = {["Raft" := raftsvc j]} → request_of t = Some (i, j, mth, ty, a, rep) → EncodeV a = Some b → is_Some (o_rafts w !! j) →
  ∃ rs' sv v b' vs, dispatch raft_types rs (MkReqMsg e mth ty b : @reqMsg name) w = Some (rs', Objects sv (o_now w), MkReplyMsg true b') ∧
    DecodeV b' rep = (v, true) ∧ Raft.run_thread n (o_now w) (o_rafts w) t = Some (sv, [arrived t v], vs).
Proof.
  intros Hs Hr Hb [rf Hrf]. destruct t as [|i' j' ra| | | | |i' j' ra|]; simpl in Hr; try done; simplify_eq; unfold dispatch; cbn [svcMeth services]; rewrite Hs.
  - match goal with |- context [split_at ?s ?i] => let v := eval vm_compute in (split_at s i) in change (split_at s i) with v end.
    cbn [mbind option_bind]. rewrite lookup_singleton_eq. cbn [mbind option_bind]. unfold Service_dispatch.
    rewrite (proj1 (raftsvc_methods j)). cbn [mbind option_bind args argsType m_Func]. rewrite (decodes _ _ Hb : DecodeV b (New 1%nat) = _).
    unfold on_raft. rewrite Hrf. simpl. destruct (Raft.RequestVote (o_now w) rf ra) as [rf' reply] eqn:ER.
    cbn [default from_option mbind option_bind]. unfold id.
    destruct (encodes (VVoteReply reply)) as (b' & Hb' & Hd). rewrite Hb'. do 5 eexists. split; [reflexivity|].
    cbn [type_of] in Hd. rewrite new_vote_reply in Hd. split; [exact Hd|]. rewrite Hrf. cbn [mbind option_bind]. by rewrite ER.
  - match goal with |- context [split_at ?s ?i] => let v := eval vm_compute in (split_at s i) in change (split_at s i) with v end.
    cbn [mbind option_bind]. rewrite lookup_singleton_eq. cbn [mbind option_bind]. unfold Service_dispatch.
    rewrite (proj1 (proj2 (raftsvc_methods j))). cbn [mbind option_bind args argsType m_Func]. rewrite (decodes _ _ Hb : DecodeV b (New 5%nat) = _).
    unfold on_raft. rewrite Hrf. cbn [m_In lookup list_lookup default from_option raft_types Elem]. unfold id. cbn [raft_types Elem].
    rewrite new_heartbeat_reply. simpl. destruct (Raft.GetHeartbeat (o_now w) rf ra _) as [rf' reply] eqn:ER.
    cbn [default from_option mbind option_bind]. unfold id.
    destruct (encodes (VHeartbeatReply reply)) as (b' & Hb' & Hd). rewrite Hb'. do 5 eexists. split; [reflexivity|].
    cbn [type_of] in Hd. rewrite new_heartbeat_reply in Hd. split; [exact Hd|]. rewrite Hrf. cbn [mbind option_bind]. by rewrite ER.
Qed.

(** ** Where requests go *)

(** The names of the ends of every server; different ends have different names. *)
Context (ends : list (list string)).

Definition goes (e : string) (j : nat) : Prop := ∃ i names, ends !! i = Some names ∧ names !! j = Some e.

Implicit Types (n : netstate) (c : netcall) (k : nat).

(** The server of labrpc at address [o] offers the methods of Raft object [j]. *)
Definition offers n (j o : nat) : Prop := ∃ rs, st_objs n !! o = Some rs ∧ services rs = {["Raft" := raftsvc j]}.

Record net_ok n : Prop := NetOk {
  no_connection e j sn : goes e j → read (connections (st_net n)) (EndName e) = Some sn → sn = ServerName j;
  no_server e j o : goes e j → read (servers (st_net n)) (ServerName j) = Some o → offers n j o;
  no_calls : calls_inv n;
  no_informed k c e j i o : st_calls n !! k = Some c → endname (c_req c) = EndName e → goes e j → c_pc c = Informed i →
    i_server i = Some o → offers n j o;
  no_pending k c e j sv : st_calls n !! k = Some c → endname (c_req c) = EndName e → goes e j → c_handler c = HPending sv →
    offers n j sv;
}.

Lemma net_ok_world w n : net_ok n → net_ok (with_world w n).
Proof using Type. intros []. by split. Qed.

(** The steps the system takes. *)
Definition usual (a : @LabRpc.action objects raftvalue name) : bool :=
  match a with AControl x => tester x | AMakeServer _ | AAddService _ _ => false | _ => true end.

Lemma tester_routes x (rn rn' : Network (N:=name)) : tester x = true → run_control x rn = Some rn' →
  connections rn' = connections rn ∧ ∀ sn o, read (servers rn') sn = Some o → read (servers rn) sn = Some o.
Proof using Type.
  destruct x; simpl; try done; intros _; try (by intros [= <-]).
  - intros [= <-]. split; [done|]. intros sn o. unfold read. simpl. rewrite lookup_insert. by case_decide.
  - unfold Cleanup. destruct (closed rn); [done|]. by intros [= <-].
Qed.

Lemma usual_routes n a n' : netstep n a = Next n' → usual a = true →
  connections (st_net n') = connections (st_net n) ∧
  ∀ sn o, read (servers (st_net n')) sn = Some o → read (servers (st_net n)) sn = Some o.
Proof using Type.
  intros Hs Ha. assert ((∃ x, a = AControl x) ∨ ∀ x, a ≠ AControl x) as [[x ->]|Hx] by (destruct a; eauto; right; congruence).
  - simpl in Hs. step_cases. simpl. by eapply tester_routes.
  - destruct (step_routes raft_types n a n' Hs Hx) as [-> ->]. done.
Qed.

Lemma offers_step n a n' j o : netstep n a = Next n' → usual a = true → offers n j o → offers n' j o.
Proof using Type.
  intros Hs Ha (rs & Ho & Hsv). destruct (step_serves raft_types n a n' o rs Hs) as (rs' & Ho' & E);
    [by intros ? ? ->|by intros ? ->|done|]. exists rs'. split; [done|congruence].
Qed.

Lemma net_ok_step n a n' : net_ok n → netstep n a = Next n' → usual a = true → net_ok n'.
Proof using Type.
  intros [Hc Hsv Hi Hinf Hp] Hs Ha. destruct (usual_routes n a n' Hs Ha) as [Ec Es].
  assert (Hold : ∀ k c' e, st_calls n' !! k = Some c' → endname (c_req c') = EndName e →
    (c_pc c' = Sending ∧ c_handler c' = HNone) ∨ ∃ c, st_calls n !! k = Some c ∧ endname (c_req c) = EndName e).
  { intros k c' e Hk He. destruct (st_calls n !! k) as [c|] eqn:E; [right|left; by eapply step_new_call].
    destruct (step_keeps raft_types n a n' k c Hs E) as (c2 & E2 & Hreq & _). exists c. split; [done|]. congruence. }
  split.
  - intros e j sn He. rewrite Ec. by apply Hc.
  - intros e j o Hg Ho. eapply offers_step; eauto.
  - by eapply step_calls_inv.
  - intros k c' e j i o Hk He Hg Hpc Ho. destruct (Hold k c' e Hk He) as [[? _]|(c & Hk0 & He0)]; [congruence|].
    apply (offers_step n a n' _ _ Hs Ha). destruct (step_informed raft_types n a n' k c c' i Hs Hk0 Hk Hpc) as [Hpc0| ->]; [by eapply Hinf|].
    unfold readEndnameInfo in Ho. cbn [i_server] in Ho. rewrite He0 in Ho.
    destruct (read (connections (st_net n)) (EndName e)) as [sn|] eqn:E; [|done]. simpl in Ho. rewrite (Hc e j sn Hg E) in Ho. by eapply Hsv.
  - intros k c' e j sv Hk He Hg Hh. destruct (Hold k c' e Hk He) as [[_ ?]|(c & Hk0 & He0)]; [congruence|].
    apply (offers_step n a n' _ _ Hs Ha).
    destruct (step_pending raft_types n a n' k c c' sv Hi Hs Hk0 Hk Hh) as [Hh0|(i & Hpc & Ho)]; [by eapply Hp|by eapply Hinf].
Qed.

(** ** Who waits for which call *)

Abbreviation calls_t := (gmap nat netcall).
Implicit Types (calls : calls_t) (gr : goroutine) (gors : list goroutine) (orphans : gmap nat Raft.thread).

(** Call [c] is the one thread [t] makes. *)
Definition asks t c : Prop :=
  ∃ i j mth ty a rep names e b, request_of t = Some (i, j, mth, ty, a, rep) ∧ ends !! i = Some names ∧ names !! j = Some e ∧
    EncodeV a = Some b ∧ c_req c = MkReqMsg (EndName e) mth ty b ∧ c_reply c = rep.

(** The thread of the model a goroutine corresponds to. *)
Definition image calls gr : Raft.thread :=
  match g_wait gr with
  | Some k => match reply_at calls k with Some v => arrived (g_thread gr) v | None => g_thread gr end
  | None => g_thread gr
  end.

(** The goroutines and the threads of the model. An orphan is a request that was
    given up, and whose handler has not run. *)
Record tied calls gors orphans (ts : list Raft.thread) : Prop := Tied {
  ti_threads : ts ≡ₚ (image calls <$> gors) ++ (map_to_list orphans).*2;
  ti_wait gr k : gr ∈ gors → g_wait gr = Some k → ∃ c, calls !! k = Some c ∧ asks (g_thread gr) c;
  ti_once : NoDup (omap g_wait gors);
  ti_call k c : calls !! k = Some c → k ∈ omap g_wait gors ∨
    (∃ b v, c_pc c = Returned b v) ∧ ∀ sv, c_handler c = HPending sv → is_Some (orphans !! k);
  ti_orphan k t : orphans !! k = Some t → k ∉ omap g_wait gors ∧
    ∃ c sv v, calls !! k = Some c ∧ asks t c ∧ c_handler c = HPending sv ∧ c_pc c = Returned false v;
}.

Lemma tied_gors calls gors gors' orphans ts : gors ≡ₚ gors' → tied calls gors orphans ts → tied calls gors' orphans ts.
Proof using Type.
  intros Hp [H1 H2 H3 H4 H5]. assert (Ho : omap g_wait gors ≡ₚ omap g_wait gors') by by rewrite Hp. split.
  - by rewrite <- Hp.
  - intros gr k Hin. apply H2. by rewrite Hp.
  - by rewrite <- Ho.
  - intros k c Hc. rewrite <- Ho. by apply H4.
  - intros k t Ht. rewrite <- Ho. by apply H5.
Qed.

Lemma tied_threads calls gors orphans ts ts' : ts ≡ₚ ts' → tied calls gors orphans ts → tied calls gors orphans ts'.
Proof using Type. intros Hp [H1 H2 H3 H4 H5]. split; try done. by rewrite <- Hp. Qed.

Lemma omap_begun ts : omap g_wait (begun ts) = [].
Proof using Type. by induction ts as [|t ts IH]. Qed.

Lemma image_begun calls ts : image calls <$> begun ts = ts.
Proof using Type. induction ts as [|t ts IH]; [done|]. simpl. by f_equal. Qed.

(** New goroutines. *)
Lemma tied_begun calls gors orphans ts ts' : tied calls gors orphans ts → tied calls (gors ++ begun ts') orphans (ts ++ ts').
Proof using Type.
  intros [H1 H2 H3 H4 H5]. assert (Ho : omap g_wait (gors ++ begun ts') = omap g_wait gors) by (rewrite omap_app, omap_begun; apply app_nil_r).
  split; rewrite ?Ho; try done.
  - rewrite fmap_app, image_begun, H1. by solve_Permutation.
  - intros gr k [Hin|Hin]%elem_of_app; [by apply H2|]. apply list_elem_of_fmap in Hin as (t & -> & _). done.
Qed.

(** A goroutine that waits for nothing ends. *)
Lemma tied_ends calls gr gors orphans ts : tied calls (gr :: gors) orphans ts → g_wait gr = None →
  ∃ rest, ts ≡ₚ g_thread gr :: rest ∧ tied calls gors orphans rest.
Proof using Type.
  intros [H1 H2 H3 H4 H5] Hw. simpl in *. rewrite Hw in *. exists ((image calls <$> gors) ++ (map_to_list orphans).*2).
  split; [rewrite H1; unfold image at 1; by rewrite Hw|]. split; try done. intros gr' k Hin. apply H2. by right.
Qed.

(** It makes its call. *)
Lemma tied_send calls gr gors orphans ts k c : tied calls (gr :: gors) orphans ts → g_wait gr = None → calls !! k = None →
  asks (g_thread gr) c → c_handler c = HNone → tied (<[k := c]> calls) (Goroutine (g_thread gr) (Some k) :: gors) orphans ts.
Proof using Type.
  intros [H1 H2 H3 H4 H5] Hw Hk Ha Hh. simpl in *. rewrite Hw in *.
  assert (Hnew : k ∉ omap g_wait gors).
  { intros (gr' & Hin & Hk')%list_elem_of_omap. destruct (H2 gr' k) as (c' & ? & _); [by right|done|congruence]. }
  assert (Hr : ∀ k', reply_at (<[k := c]> calls) k' = reply_at calls k').
  { intros k'. unfold reply_at. rewrite lookup_insert. case_decide as E; [subst k'|done]. simpl. by rewrite Hh, Hk. }
  split; simpl.
  - rewrite H1. unfold image at 1 3. simpl. rewrite Hw, Hr. unfold reply_at at 1. rewrite Hk. simpl. do 2 f_equiv.
    apply Permutation_refl'. apply list_fmap_ext. intros i gr' _. unfold image. destruct (g_wait gr'); [by rewrite Hr|done].
  - intros gr' k' [->|Hin]%elem_of_cons; simpl.
    + intros [= <-]. exists c. by rewrite lookup_insert_eq.
    + intros Hk'. destruct (H2 gr' k') as (c' & Hc' & ?); [by right|done|]. exists c'. rewrite lookup_insert_ne by congruence. done.
  - by constructor.
  - intros k' c'. rewrite lookup_insert. case_decide as E; [intros _; left; subst; by left|]. intros Hc'.
    destruct (H4 k' c' Hc') as [?|?]; [left; by right|by right].
  - intros k' t Ht. destruct (H5 k' t Ht) as (Hn & c' & sv & v & Hc' & Hrest).
    rewrite not_elem_of_cons. split; [split; [congruence|done]|]. exists c', sv, v. by rewrite lookup_insert_ne by congruence.
Qed.

(** It has the outcome of its call. What is left of the request is an orphan, when
    the handler has not run, and is gone otherwise. *)
Lemma tied_receive calls gr gors orphans ts k c b v : tied calls (gr :: gors) orphans ts → g_wait gr = Some k → calls !! k = Some c →
  c_pc c = Returned b v → (∀ sv, c_handler c = HPending sv → b = false) →
  (∃ orphans' sv, c_handler c = HPending sv ∧ tied calls gors orphans' ts) ∨
  (∃ rest, (∀ sv, c_handler c ≠ HPending sv) ∧ ts ≡ₚ image calls gr :: rest ∧ tied calls gors orphans rest).
Proof using Type.
  intros [H1 H2 H3 H4 H5] Hw Hk Hpc Hb. simpl in *. rewrite Hw in *. apply NoDup_cons in H3 as [Hni Hnd].
  destruct (H2 gr k) as (c0 & Hc0 & Ha); [by left|done|]. rewrite Hk in Hc0. injection Hc0 as <-.
  assert (Hno : orphans !! k = None).
  { destruct (orphans !! k) as [t|] eqn:E; [|done]. destruct (H5 k t E) as [[]%not_elem_of_cons _]; done. }
  assert (Hcase : (∃ sv, c_handler c = HPending sv) ∨ ∀ sv, c_handler c ≠ HPending sv) by (destruct (c_handler c); eauto; right; congruence).
  destruct Hcase as [[sv Hh]|Hh].
  - left. exists (<[k := g_thread gr]> orphans), sv. split; [done|]. split.
    + rewrite H1, (map_to_list_insert _ _ _ Hno). unfold image at 1. rewrite Hw. unfold reply_at. rewrite Hk. simpl. rewrite Hh.
      by solve_Permutation.
    + intros gr' k' Hin. apply H2. by right.
    + done.
    + intros k' c' Hc'. destruct (decide (k' = k)) as [->|Hne].
      * right. simplify_eq. split; [eauto|]. intros _ _. rewrite lookup_insert_eq. eauto.
      * rewrite lookup_insert_ne by done. destruct (H4 k' c' Hc') as [[?|?]%elem_of_cons|?]; [done|by left|by right].
    + intros k' t. rewrite lookup_insert. case_decide as E.
      * intros [= <-]. subst k'. split; [done|]. exists c, sv, v. rewrite (Hb sv Hh) in Hpc. done.
      * intros Ht. destruct (H5 k' t Ht) as [[_ Hn]%not_elem_of_cons Hrest]. done.
  - right. exists ((image calls <$> gors) ++ (map_to_list orphans).*2). split_and!; [done|done|]. split; try done.
    + intros gr' k' Hin. apply H2. by right.
    + intros k' c' Hc'. destruct (H4 k' c' Hc') as [[->|?]%elem_of_cons|?]; [|by left|by right].
      right. simplify_eq. split; [eauto|]. intros sv Hsv. by destruct (Hh sv).
    + intros k' t Ht. destruct (H5 k' t Ht) as [[_ Hn]%not_elem_of_cons Hrest]. done.
Qed.

(** The calls go on without a handler. *)
Lemma tied_net n a n' gors orphans ts : tied (st_calls n) gors orphans ts → calls_inv n → netstep n a = Next n' → usual a = true →
  (∀ k, a ≠ AHandle k) → (∀ k e m ty x r, a ≠ ACall k e m ty x r) → tied (st_calls n') gors orphans ts.
Proof using Type.
  intros [H1 H2 H3 H4 H5] HI Hs Ha Hh Hn.
  assert (Hr : ∀ k, reply_at (st_calls n') k = reply_at (st_calls n) k) by (intros k; by apply (step_reply_at raft_types n a)).
  split.
  - rewrite H1. f_equiv. apply Permutation_refl', list_fmap_ext. intros i gr _. unfold image. destruct (g_wait gr); [by rewrite Hr|done].
  - intros gr k Hin Hw. destruct (H2 gr k Hin Hw) as (c & Hc & i & j & mth & ty & x & rep & names & e & b & E1 & E2 & E3 & E4 & E5 & E6).
    destruct (step_keeps raft_types n a n' k c Hs Hc) as (c' & Hc' & Hreq & Hrep & _). exists c'. split; [done|].
    exists i, j, mth, ty, x, rep, names, e, b. split_and!; try done; congruence.
  - done.
  - intros k c' Hc'. destruct (st_calls n !! k) as [c|] eqn:Hc; [|by rewrite (step_no_call raft_types n a n' k Hs (Hn k) Hc) in Hc'].
    destruct (H4 k c Hc) as [?|[(b & v & Hpc) Hor]]; [by left|]. right.
    destruct (step_keeps raft_types n a n' k c Hs Hc) as (c2 & Hc2 & _ & _ & Hret & _). simplify_eq. split; [exists b, v; by apply Hret|].
    intros sv Hp. destruct (step_pending raft_types n a n' k c c' sv HI Hs Hc Hc' Hp) as [?|(i & ? & _)]; [by eapply Hor|congruence].
  - intros k t Ht. destruct (H5 k t Ht) as (Hno & c & sv & v & Hc & Hask & Hp & Hpc). split; [done|].
    destruct (step_keeps raft_types n a n' k c Hs Hc) as (c' & Hc' & Hreq & Hrep & Hret & _). exists c', sv, v. split_and!; [done| | |by apply Hret].
    + destruct Hask as (i & j & mth & ty & x & rep & names & e & b & E1 & E2 & E3 & E4 & E5 & E6).
      exists i, j, mth, ty, x, rep, names, e, b. split_and!; try done; congruence.
    + by eapply (step_pending_keeps raft_types n a n' k c).
Qed.

(** The handler of call [k] runs. *)
Lemma reply_at_other calls k c k' : k' ≠ k → reply_at (<[k := c]> calls) k' = reply_at calls k'.
Proof using Type. intros Hne. unfold reply_at. by rewrite lookup_insert_ne by congruence. Qed.

Lemma images_other calls k c gors : k ∉ omap g_wait gors → image (<[k := c]> calls) <$> gors = image calls <$> gors.
Proof using Type.
  intros Hk. apply list_fmap_ext. intros i gr Hi. unfold image. destruct (g_wait gr) as [k'|] eqn:E; [|done].
  rewrite reply_at_other; [done|]. intros ->. apply Hk, list_elem_of_omap. exists gr. split; [by eapply list_elem_of_lookup_2|done].
Qed.

Lemma asks_handler t c h : asks t c → asks t (set_handler h c).
Proof using Type. done. Qed.

Lemma tied_awaited calls gr gors orphans ts k c sv r : tied calls (gr :: gors) orphans ts → g_wait gr = Some k → calls !! k = Some c →
  c_handler c = HPending sv →
  ∃ rest, ts ≡ₚ g_thread gr :: rest ∧ tied (<[k := set_handler (HReady r) c]> calls) (gr :: gors) orphans
                                       (arrived (g_thread gr) (DecodeV (reply r) (c_reply c)).1 :: rest).
Proof using Type.
  intros [H1 H2 H3 H4 H5] Hw Hk Hh. exists ((image calls <$> gors) ++ (map_to_list orphans).*2).
  simpl in *. rewrite Hw in *. pose proof H3 as [Hni Hnd]%NoDup_cons. split.
  { rewrite H1. unfold image at 1. rewrite Hw. unfold reply_at. rewrite Hk. simpl. by rewrite Hh. }
  split; simpl; rewrite ?Hw; try done.
  - rewrite images_other by done. unfold image at 2. rewrite Hw. unfold reply_at. by rewrite lookup_insert_eq.
  - intros gr' k' Hin Hk'. destruct (H2 gr' k' Hin Hk') as (c' & Hc' & Ha). destruct (decide (k' = k)) as [->|Hne].
    + simplify_eq. eexists. split; [apply lookup_insert_eq|]. by apply asks_handler.
    + exists c'. by rewrite lookup_insert_ne by congruence.
  - intros k' c'. rewrite lookup_insert. case_decide as E; [intros _; subst; left; by left|apply H4].
  - intros k' t Ht. destruct (H5 k' t Ht) as (Hn & Hrest). split; [done|]. rewrite lookup_insert_ne; [done|].
    intros <-. by apply Hn; left.
Qed.

Lemma tied_orphaned calls gors orphans ts k t c r : tied calls gors orphans ts → orphans !! k = Some t → calls !! k = Some c →
  ∃ rest, ts ≡ₚ t :: rest ∧ tied (<[k := set_handler (HReady r) c]> calls) gors (delete k orphans) rest.
Proof using Type.
  intros [H1 H2 H3 H4 H5] Ht Hk. destruct (H5 k t Ht) as (Hn & c0 & sv & v & Hc0 & Ha & Hh & Hpc). simplify_eq.
  exists ((image calls <$> gors) ++ (map_to_list (delete k orphans)).*2). split.
  { rewrite H1, <- (map_to_list_delete _ _ _ Ht). simpl. by solve_Permutation. }
  split; try done.
  - by rewrite images_other.
  - intros gr' k' Hin Hk'. destruct (H2 gr' k' Hin Hk') as (c' & Hc' & Ha'). exists c'. rewrite lookup_insert_ne; [done|].
    intros <-. apply Hn, list_elem_of_omap. by exists gr'.
  - intros k' c'. rewrite lookup_insert. case_decide as E.
    + intros [= <-]. right. split; [eauto|done].
    + intros Hc'. destruct (H4 k' c' Hc') as [?|[? Hor]]; [by left|right]. split; [done|]. intros sv' Hsv. rewrite lookup_delete_ne by done. by eapply Hor.
  - intros k' t' [Hne Ht']%lookup_delete_Some. destruct (H5 k' t' Ht') as (Hn' & Hrest). split; [done|]. by rewrite lookup_insert_ne.
Qed.

(** A request that waits for its handler, and its thread. *)
Lemma pending_asks n k c sv gors orphans ts : tied (st_calls n) gors orphans ts → st_calls n !! k = Some c → c_handler c = HPending sv →
  (∃ gr gors', gors ≡ₚ gr :: gors' ∧ g_wait gr = Some k ∧ asks (g_thread gr) c) ∨ (∃ t, orphans !! k = Some t ∧ asks t c).
Proof using Type.
  intros [H1 H2 H3 H4 H5] Hk Hh. destruct (H4 k c Hk) as [(gr & Hin & Hw)%list_elem_of_omap|[_ Hor]].
  - left. destruct (H2 gr k Hin Hw) as (c' & Hc' & Ha). simplify_eq. apply elem_of_Permutation in Hin as [gors' Hp]. by exists gr, gors'.
  - right. destruct (Hor sv Hh) as [t Ht]. exists t. split; [done|]. destruct (H5 k t Ht) as (_ & c' & sv' & v & Hc' & Ha & _). by simplify_eq.
Qed.

Lemma handle_call N n k gors orphans ts : net_ok n → tied (st_calls n) gors orphans ts → Forall (RaftTyping.thread_ok N) ts →
  length (o_rafts (st_world n)) = N →
  ∀ c sv, st_calls n !! k = Some c → c_handler c = HPending sv →
  ∃ rs rs' servers r v t rest vs, st_objs n !! sv = Some rs ∧
    dispatch raft_types rs (c_req c) (st_world n) = Some (rs', Objects servers (o_now (st_world n)), r) ∧
    (DecodeV (reply r) (c_reply c)).2 = true ∧ ts ≡ₚ t :: rest ∧ Raft.calling (arrived t v) = true ∧ Raft.calling t = true ∧
    (∀ sv0, fresh_thread sv0 t = true) ∧
    Raft.run_thread N (o_now (st_world n)) (o_rafts (st_world n)) t = Some (servers, [arrived t v], vs) ∧
    let calls' := <[k := set_handler (HReady r) c]> (st_calls n) in
    (tied calls' gors orphans (rest ++ [arrived t v]) ∨ tied calls' gors (delete k orphans) rest).
Proof using Type*.
  intros HN HT Hts Hlen c sv Hk Hh.
  assert (Hwork : ∀ t, asks t c → t ∈ ts → ∃ rs rs' servers r v vs, st_objs n !! sv = Some rs ∧
    dispatch raft_types rs (c_req c) (st_world n) = Some (rs', Objects servers (o_now (st_world n)), r) ∧
    DecodeV (reply r) (c_reply c) = (v, true) ∧ Raft.calling (arrived t v) = true ∧ Raft.calling t = true ∧
    (∀ sv0, fresh_thread sv0 t = true) ∧
    Raft.run_thread N (o_now (st_world n)) (o_rafts (st_world n)) t = Some (servers, [arrived t v], vs)).
  { intros t (i & j & mth & ty & a & rep & names & e & b & E1 & E2 & E3 & E4 & E5 & E6) Hin.
    assert (Hg : goes e j) by (by exists i, names).
    destruct (no_pending _ HN k c e j sv Hk) as (rs & Hrs & Hsv); [by rewrite E5|done|done|].
    assert (Hj : is_Some (o_rafts (st_world n) !! j)).
    { apply lookup_lt_is_Some_2. rewrite Hlen. rewrite Forall_forall in Hts. specialize (Hts t Hin).
      destruct t; simpl in E1; try done; simplify_eq; simpl in Hts; tauto. }
    destruct (raft_dispatch_request N rs (st_world n) t i j mth ty a rep b (EndName e) Hsv E1 E4 Hj) as (rs' & servers & v & b' & vs & Hd & Hdec & Hrun).
    exists rs, rs', servers, (MkReplyMsg true b'), v, vs. rewrite E5, E6.
    split_and!; try done; by destruct t. }
  destruct (pending_asks n k c sv gors orphans ts HT Hk Hh) as [(gr & gors' & Hp & Hw & Ha)|(t & Ht & Ha)].
  - apply (tied_gors _ _ _ _ _ Hp) in HT.
    assert (Hin : g_thread gr ∈ ts).
    { assert (Ei : image (st_calls n) gr = g_thread gr) by (unfold image; rewrite Hw; unfold reply_at; rewrite Hk; simpl; by rewrite Hh).
      rewrite (ti_threads _ _ _ _ HT), <- Ei. by left. }
    destruct (Hwork _ Ha Hin) as (rs & rs' & servers & r & v & vs & H1 & H2 & H3 & H4 & H5 & H6 & H7).
    destruct (tied_awaited _ _ _ _ _ k c sv r HT Hw Hk Hh) as (rest & Hr & HT'). rewrite H3 in HT'.
    exists rs, rs', servers, r, v, (g_thread gr), rest, vs. split_and!; try done; [by rewrite H3|]. left.
    eapply tied_gors; [symmetry; exact Hp|]. eapply tied_threads; [|exact HT']. by solve_Permutation.
  - destruct (Hwork t Ha) as (rs & rs' & servers & r & v & vs & H1 & H2 & H3 & H4 & H5 & H6 & H7).
    { rewrite (ti_threads _ _ _ _ HT). apply elem_of_app. right. apply list_elem_of_fmap. exists (k, t). split; [done|]. by apply elem_of_map_to_list. }
    destruct (tied_orphaned _ _ _ _ k t c r HT Ht Hk) as (rest & Hr & HT').
    exists rs, rs', servers, r, v, t, rest, vs. split_and!; try done; [by rewrite H3|]. by right.
Qed.

(** ** The simulation *)

(** Every reply that waits to be delivered can be decoded. *)
Definition ready_ok calls : Prop := ∀ k c r, calls !! k = Some c → c_handler c = HReady r → (DecodeV (reply r) (c_reply c)).2 = true.

Record related (N : nat) (s : system) abs : Prop := Related {
  rl_servers : Raft.s_servers abs = rafts s;
  rl_tickers : Raft.s_tickers abs = s_tickers s;
  rl_now : Raft.s_now abs = clock s;
  rl_ends : s_ends s = ends;
  rl_net : net_ok (s_net s);
  rl_ready : ready_ok (st_calls (s_net s));
  rl_typed : RaftTyping.system_ok N abs;
  rl_tied : ∃ orphans, tied (st_calls (s_net s)) (s_gors s) orphans (Raft.s_threads abs);
}.

(** The votes counted in the step were asked for in the current term. *)
Definition net_fresh (s : system) (a : action) : bool :=
  match a with
  | Receive g =>
      match s_gors s !! g with
      | Some gr =>
          match g_wait gr ≫= λ k, st_calls (s_net s) !! k with
          | Some c =>
              match c_pc c with
              | Returned b v => match after_call (g_thread gr) b v with Some t => fresh_thread (rafts s) t | None => true end
              | _ => true
              end
          | None => true
          end
      | None => true
      end
  | _ => true
  end.

Lemma moves_typed N fr abs abs' : RaftTyping.system_ok N abs → moves fr abs abs' → RaftTyping.system_ok N abs'.
Proof using Type. intros HS (acts & E & _). by eapply RaftTyping.exec_typed. Qed.

(** The time, the tickers and kills do not depend on the goroutines. *)
Lemma local_step a sv tk now ts vs r : (∀ k, a ≠ Raft.Run k ∧ a ≠ Raft.Lose k) →
  Raft.step (Raft.System sv tk [] now []) a = Some r →
  Raft.step (Raft.System sv tk ts now vs) a =
    Some (Raft.System (Raft.s_servers r) (Raft.s_tickers r) (ts ++ Raft.s_threads r) (Raft.s_now r) vs).
Proof using Type.
  intros Ha. destruct a as [d|i rnd|k|k|i]; simpl.
  - destruct (_ <=? _); [|done]. intros [= <-]. simpl. by rewrite app_nil_r.
  - destruct (sv !! i); [|done]. simpl. destruct (tk !! i) as [[st|]|]; [|done..]. simpl. destruct (_ && _); [|done]. by intros [= <-].
  - by destruct (proj1 (Ha k)).
  - by destruct (proj2 (Ha k)).
  - destruct (sv !! i); [|done]. intros [= <-]. simpl. by rewrite app_nil_r.
Qed.

Lemma sim_local N a s s' abs : related N s abs → (∀ k, a ≠ Raft.Run k ∧ a ≠ Raft.Lose k) → local a s = Next s' →
  ∃ abs', moves true abs abs' ∧ related N s' abs'.
Proof using Type.
  intros [H1 H2 H3 H4 H5 H6 H7 [orphans H8]] Ha Hs. unfold local in Hs. destruct (Raft.step (servers_of s) a) as [r|] eqn:E; [|done].
  injection Hs as <-. destruct abs as [sv tk ts now vs]. simpl in *. subst sv tk now. unfold servers_of in E.
  pose proof (local_step a _ _ _ ts vs r Ha E) as E'. 
  assert (Hf : ∀ abs0, true = true → RaftElection.fresh abs0 a = true) by (intros ? _; destruct a; try done; by destruct (proj1 (Ha k))).
  pose proof (moves_one true _ a _ E' (Hf _)) as Hm. eexists. split; [exact Hm|]. split; simpl; try done; [by apply net_ok_world|by eapply moves_typed|]. exists orphans. by apply tied_begun.
Qed.

(** Goroutine [g], which waits for nothing, goes on as [t]. *)
Lemma sim_run N s g t s' abs rest orphans fr :
  related N s abs → run g t s = Next s' → Raft.s_threads abs ≡ₚ t :: rest →
  tied (st_calls (s_net s)) (delete g (s_gors s)) orphans rest → (fr = true → fresh_thread (rafts s) t = true) →
  ∃ abs', moves fr abs abs' ∧ related N s' abs'.
Proof using Type.
  intros [H1 H2 H3 H4 H5 H6 H7 _] Hs Hp HT Hf. unfold run in Hs.
  destruct (Raft.run_thread _ _ _ t) as [[[sv ts] vs]|] eqn:E; [|done]. injection Hs as <-.
  rewrite <- H1, <- H3 in E. destruct (abs_run fr abs t rest sv ts vs Hp E) as (abs' & Hm & E1 & E2 & E3 & E4); [by rewrite H1|].
  exists abs'. split; [done|]. split; simpl; [done|by rewrite E2|by rewrite E3, H3|done|by apply net_ok_world|done|by eapply moves_typed|].
  exists orphans. eapply tied_threads; [symmetry; exact E4|]. by apply tied_begun.
Qed.

Lemma gors_at (s : system) g gr : s_gors s !! g = Some gr → s_gors s ≡ₚ gr :: delete g (s_gors s).
Proof using Type. intros Hg. by apply delete_Permutation. Qed.

Lemma gors_insert (s : system) g gr gr' : s_gors s !! g = Some gr → <[g := gr']> (s_gors s) ≡ₚ gr' :: delete g (s_gors s).
Proof using Type.
  intros Hg%lookup_lt_Some. rewrite insert_take_drop, delete_take_drop by done. by solve_Permutation.
Qed.

Lemma asks_calling t c : asks t c → Raft.calling t = true.
Proof using Type. intros (i & j & mth & ty & a & rep & names & e & b & E & _). by destruct t. Qed.

Lemma sim_go N s g s' abs : related N s abs → step s (Go g) = Next s' → ∃ abs', moves true abs abs' ∧ related N s' abs'.
Proof using Type.
  intros HR Hs. cbn [step] in Hs. destruct (s_gors s !! g) as [gr|] eqn:Eg; [|done]. cbn [or_block mbind outcome_bind] in Hs.
  destruct (Raft.calling (g_thread gr)) eqn:Ec; [done|]. pose proof (rl_tied _ _ _ HR) as [orphans HT].
  apply (tied_gors _ _ _ _ _ (gors_at s g gr Eg)) in HT.
  assert (Hw : g_wait gr = None).
  { destruct (g_wait gr) as [k|] eqn:E; [|done]. destruct (ti_wait _ _ _ _ HT gr k) as (c & _ & Ha%asks_calling); [by left|done|congruence]. }
  destruct (tied_ends _ _ _ _ _ HT Hw) as (rest & Hp & HT'). eapply sim_run; [done..|]. intros _. by destruct (g_thread gr).
Qed.

Lemma ready_keeps n a n' : calls_inv n → ready_ok (st_calls n) → netstep n a = Next n' → (∀ k, a ≠ AHandle k) → ready_ok (st_calls n').
Proof using Type.
  intros HI HR Hs Ha k c' r Hc' Hh. destruct (st_calls n !! k) as [c|] eqn:Hc.
  - destruct (step_keeps raft_types n a n' k c Hs Hc) as (c2 & Hc2 & _ & Hrep & _ & Hiff). simplify_eq. rewrite Hrep.
    apply (HR k c r Hc), (Hiff (Ha k)); [|done]. intros i Hpc. specialize (HI k c Hc). unfold call_inv in HI. by rewrite Hpc in HI.
  - destruct (step_new_call raft_types n a n' k c' Hs Hc Hc') as [_ ?]. congruence.
Qed.

Lemma world_keeps n a n' : netstep n a = Next n' → (∀ k, a ≠ AHandle k) → st_world n' = st_world n.
Proof using Type. apply step_world. Qed.

Lemma raft_sim_send N s g k s' abs : related N s abs → step s (Send g k) = Next s' → related N s' abs.
Proof using Type.
  intros [H1 H2 H3 H4 H5 H6 H7 [orphans H8]] Hs. cbn [step] in Hs. destruct (s_gors s !! g) as [gr|] eqn:Eg; [|done].
  cbn [or_block mbind outcome_bind] in Hs. destruct (g_wait gr) eqn:Hw; [done|].
  destruct (request_of (g_thread gr)) as [[[[[[i j] mth] ty] a] rep]|] eqn:Er; [|done].
  destruct (s_ends s !! i) as [names|] eqn:Ei; [|done]. cbn [or_block mbind outcome_bind] in Hs.
  destruct (names !! j) as [e|] eqn:Ej; [|done]. cbn [or_block mbind outcome_bind] in Hs.
  apply bind_Next in Hs as (n' & Hn & [= <-]).
  assert (Hw' : st_world n' = st_world (s_net s)) by (eapply world_keeps; [exact Hn|done]).
  assert (Hn' : net_ok n') by (by eapply net_ok_step; [|exact Hn|]).
  assert (Hr' : ready_ok (st_calls n')) by (eapply ready_keeps; [apply H5|done|exact Hn|done]).
  simpl in Hn. destruct (st_calls (s_net s) !! k) eqn:Ek; [done|].
  destruct (begin_Call (EndName e) mth ty a rep) as [c|] eqn:Eb; [|done]. injection Hn as <-.
  unfold rafts, clock in *. split; cbn [s_net s_tickers s_ends s_gors]; try done.
  exists orphans. eapply tied_gors; [symmetry; exact (gors_insert s g gr _ Eg)|].
  apply (tied_gors _ _ _ _ _ (gors_at s g gr Eg)) in H8.
  unfold begin_Call in Eb. destruct (EncodeV a) as [b|] eqn:Ea; [|done]. injection Eb as <-.
  apply tied_send; try done. exists i, j, mth, ty, a, rep, names, e, b. rewrite <- H4. done.
Qed.

(** The network goes on, or the tester changes it. *)
Lemma raft_sim_net N s a n' abs : related N s abs → netstep (s_net s) a = Next n' → usual a = true → (∀ k, a ≠ AHandle k) →
  (∀ k e m ty x r, a ≠ ACall k e m ty x r) → related N (System n' (s_ends s) (s_tickers s) (s_gors s)) abs.
Proof using Type.
  intros [H1 H2 H3 H4 H5 H6 H7 [orphans H8]] Hn Hu Hh Hc. pose proof (world_keeps _ _ _ Hn Hh) as Hw.
  split; cbn [s_net s_ends s_tickers s_gors]; try done.
  - unfold rafts. simpl. by rewrite Hw.
  - unfold clock. simpl. by rewrite Hw.
  - by eapply net_ok_step.
  - eapply ready_keeps; [apply H5|done|exact Hn|done].
  - exists orphans. eapply tied_net; [done|apply H5|exact Hn|done..].
Qed.

Lemma related_length N s abs : related N s abs → length (rafts s) = N.
Proof using Type. intros HR. rewrite <- (rl_servers _ _ _ HR). apply (RaftTyping.sy_servers _ _ (rl_typed _ _ _ HR)). Qed.

Lemma raft_sim_handle N s k n' abs : related N s abs → netstep (s_net s) (AHandle k) = Next n' →
  ∃ abs', moves true abs abs' ∧ related N (System n' (s_ends s) (s_tickers s) (s_gors s)) abs'.
Proof using Type*.
  intros HR Hn. pose proof (related_length _ _ _ HR) as Hlen. destruct HR as [H1 H2 H3 H4 H5 H6 H7 [orphans H8]].
  assert (HN' : net_ok n') by (by eapply net_ok_step; [|exact Hn|]).
  simpl in Hn. destruct (st_calls (s_net s) !! k) as [c|] eqn:Hk; [|done]. cbn [or_block mbind outcome_bind] in Hn.
  destruct (c_handler c) as [|sv|] eqn:Hh; [done| |done].
  destruct (handle_call N (s_net s) k _ orphans _ H5 H8 (RaftTyping.sy_threads _ _ H7) Hlen c sv Hk Hh)
    as (rs & rs' & servers & r & v & t & rest & vs & Hrs & Hd & Hdec & Hp & Hc' & Hc & Hfr & Hrun & HT).
  rewrite Hrs in Hn. cbn [or_block mbind outcome_bind] in Hn. rewrite Hd in Hn. cbn [or_crash mbind outcome_bind] in Hn. injection Hn as <-.
  assert (Hrun' : Raft.run_thread (length (Raft.s_servers abs)) (Raft.s_now abs) (Raft.s_servers abs) t = Some (servers, [arrived t v], vs)).
  { rewrite (proj1 (RaftTyping.sy_servers _ _ H7)), H1, H3. exact Hrun. }
  destruct (abs_run true abs t rest servers _ vs Hp Hrun') as (abs1 & M1 & E1 & E2 & E3 & E4); [intros _; apply Hfr|].
  assert (Hready : ready_ok (<[k := set_handler (HReady r) c]> (st_calls (s_net s)))).
  { intros k' c' r'. rewrite lookup_insert. case_decide as E; [|apply H6]. intros [= <-]. simpl. by intros [= <-]. }
  destruct HT as [HT|HT].
  - exists abs1. split; [done|]. split; cbn [s_net s_ends s_tickers s_gors]; try done.
    + by rewrite E2.
    + by rewrite E3, H3.
    + by eapply moves_typed.
    + exists orphans. eapply tied_threads; [symmetry; exact E4|exact HT].
  - destruct (abs_lose true abs1 (arrived t v) rest) as (abs2 & M2 & F1 & F2 & F3 & F4); [|done|].
    { rewrite E4. by solve_Permutation. }
    assert (M : moves true abs abs2) by by eapply moves_trans.
    exists abs2. split; [done|]. split; cbn [s_net s_ends s_tickers s_gors]; try done.
    + by rewrite F1, E1.
    + by rewrite F2, E2.
    + by rewrite F3, E3, H3.
    + by eapply moves_typed.
    + exists (delete k orphans). eapply tied_threads; [symmetry; exact F4|exact HT].
Qed.

(** A goroutine whose call failed: what it does then changes nothing. *)
Lemma failed_idle N s gr c t abs : related N s abs → asks (g_thread gr) c → after_call (g_thread gr) false (c_reply c) = Some t →
  ∀ g s', run g t s = Next s' → s' = System (s_net s) (s_ends s) (s_tickers s) (delete g (s_gors s)).
Proof using Type.
  intros HR (i & j & mth & ty & a & rep & names & e & b & E1 & _ & _ & _ & _ & E6) Ht g s' Hs.
  destruct (g_thread gr); simpl in E1, Ht; try done; simplify_eq. rewrite <- H2 in Hs. unfold run in Hs. cbn [heartbeat_reply Raft.run_thread] in Hs.
  destruct (rafts s !! i) as [rf|] eqn:Erf; [|done]. cbn [mbind option_bind or_block outcome_bind] in Hs. injection Hs as <-.
  assert (Hid : Raft.heartbeat_answer rf (Raft.MkHeartbeatReply 0 false) = rf).
  { unfold Raft.heartbeat_answer. cbn [Raft.hb_Term]. rewrite <- (rl_servers _ _ _ HR) in Erf.
    pose proof (proj2 (RaftTyping.sy_servers _ _ (rl_typed _ _ _ HR)) i rf Erf) as Hok.
    destruct (Z.ltb_spec (Raft.currentTerm rf) 0); [|done]. pose proof (RaftTyping.so_term _ _ _ Hok). lia. }
  rewrite Hid, list_insert_id by done. rewrite app_nil_r. f_equal. unfold with_world, rafts, clock. destruct (s_net s) as [? ? [] ? ?]. done.
Qed.

Lemma image_calling calls gr c : asks (g_thread gr) c → Raft.calling (image calls gr) = true.
Proof using Type.
  intros (i & j & mth & ty & a & rep & names & e & b & E & _). unfold image. destruct (g_wait gr) as [k|]; [destruct (reply_at calls k)|];
    by destruct (g_thread gr).
Qed.

Lemma raft_sim_receive N s g s' abs : related N s abs → step s (Receive g) = Next s' →
  ∃ abs', moves (net_fresh s (Receive g)) abs abs' ∧ related N s' abs'.
Proof using Type.
  intros HR Hs. cbn [step net_fresh] in *. destruct (s_gors s !! g) as [gr|] eqn:Eg; [|done]. cbn [or_block mbind outcome_bind] in Hs.
  destruct (g_wait gr) as [k|] eqn:Hw; [|done]. cbn [or_block mbind outcome_bind option_bind] in Hs |- *.
  destruct (st_calls (s_net s) !! k) as [c|] eqn:Hk; [|done]. cbn [or_block mbind outcome_bind] in Hs.
  destruct (c_pc c) as [| | | | | | |b v] eqn:Hpc; try done.
  pose proof (rl_tied _ _ _ HR) as [orphans HT]. apply (tied_gors _ _ _ _ _ (gors_at s g gr Eg)) in HT.
  destruct (ti_wait _ _ _ _ HT gr k) as (c0 & Hc0 & Ha); [by left|done|]. rewrite Hk in Hc0. injection Hc0 as <-.
  pose proof (no_calls _ (rl_net _ _ _ HR) k c Hk) as Hinv. unfold call_inv in Hinv. rewrite Hpc in Hinv.
  destruct b.
  - destruct Hinv as (r & Hr & Hd).
    destruct (tied_receive _ _ _ _ _ k c true v HT Hw Hk Hpc) as [(o' & sv & ? & _)|(rest & _ & Hp & HT')]; [congruence|congruence|].
    assert (Hi : ∃ t, after_call (g_thread gr) true v = Some t ∧ image (st_calls (s_net s)) gr = t).
    { unfold image. rewrite Hw. unfold reply_at. rewrite Hk. simpl. rewrite Hr, Hd. destruct Ha as (i & j & mth & ty & a & rep & names & e & b & E & _).
      destruct (g_thread gr); simpl in E; try done; by eexists. }
    destruct Hi as (t & Ht & Hi). rewrite Ht in Hs |- *. rewrite Hi in Hp. by eapply sim_run.
  - assert (Hs' : s' = System (s_net s) (s_ends s) (s_tickers s) (delete g (s_gors s))).
    { destruct (after_call (g_thread gr) false v) as [t|] eqn:Et; [|by injection Hs as <-]. rewrite Hinv in Et.
      by eapply failed_idle. }
    clear Hs. set (fr := match after_call _ _ _ with Some t => _ | None => _ end). clearbody fr. subst s'.
    destruct HR as [H1 H2 H3 H4 H5 H6 H7 _].
    destruct (tied_receive _ _ _ _ _ k c false v HT Hw Hk Hpc) as [(o' & sv & _ & HT')|(rest & _ & Hp & HT')]; [done|..].
    + exists abs. split; [apply moves_refl|]. split; try done. by exists o'.
    + destruct (abs_lose fr abs _ rest Hp) as (abs' & M & E1 & E2 & E3 & E4); [by eapply image_calling|]. exists abs'. split; [done|].
      split; cbn [s_net s_ends s_tickers s_gors]; try done.
      * by rewrite E1.
      * by rewrite E2.
      * by rewrite E3.
      * by eapply moves_typed.
      * exists orphans. eapply tied_threads; [symmetry; exact E4|exact HT'].
Qed.

(** Every step of the system is one of the model, or several, or none. *)
Lemma sim_step N s a s' abs : related N s abs → step s a = Next s' →
  ∃ abs', moves (net_fresh s a) abs abs' ∧ related N s' abs'.
Proof using Type*.
  intros HR Hs. destruct a as [d|i rnd|i|g|g k|x|x|g].
  - by eapply (sim_local N (Raft.Advance d)).
  - by eapply (sim_local N (Raft.Wake i rnd)).
  - by eapply (sim_local N (Raft.KillServer i)).
  - by eapply sim_go.
  - exists abs. split; [apply moves_refl|by eapply raft_sim_send].
  - cbn [step] in Hs. destruct (internal x) eqn:Hi; [|done]. apply bind_Next in Hs as (n' & Hn & [= <-]).
    assert ((∃ k, x = AHandle k) ∨ ∀ k, x ≠ AHandle k) as [[k ->]|Hx] by (destruct x; eauto; right; congruence); [by eapply raft_sim_handle|].
    exists abs. split; [apply moves_refl|]. eapply raft_sim_net; [done|exact Hn| |done|]; by destruct x.
  - cbn [step] in Hs. destruct (tester x) eqn:Hi; [|done]. apply bind_Next in Hs as (n' & Hn & [= <-]).
    exists abs. split; [apply moves_refl|]. by eapply raft_sim_net.
  - by eapply raft_sim_receive.
Qed.

(** ** Panics *)

(** The network never panics over a call of a Raft object. *)
Lemma net_crash N n a gors orphans ts : net_ok n → ready_ok (st_calls n) → tied (st_calls n) gors orphans ts →
  Forall (RaftTyping.thread_ok N) ts → length (o_rafts (st_world n)) = N → usual a = true → netstep n a = Crash →
  a = AControl CCleanup ∧ closed (st_net n) = true.
Proof using Type*.
  intros HN HR HT Hts Hlen Hu Hs. destruct a as [x|o|o svc| |k e m ty x r0|k|k|k|k r|k|k|k|k r1 r2|k]; try done; simpl in Hs;
    try (destruct (st_calls n !! k) as [c|] eqn:Hc; [|done]; cbn [or_block mbind outcome_bind] in Hs).
  - destruct x; try done. simpl in Hs. unfold Cleanup in Hs. by destruct (closed _).
  - by case_match.
  - destruct (st_calls n !! k); [done|]. unfold begin_Call in Hs. destruct (encodes x) as (b & Hb & _). by rewrite Hb in Hs.
  - destruct (c_pc c); try done. by destruct (st_loop n).
  - destruct (c_pc c); try done. by destruct (closed _).
  - by destruct (c_pc c).
  - by destruct (c_pc c).
  - destruct (c_handler c) as [|sv|] eqn:Hh; try done.
    destruct (handle_call N n k gors orphans ts HN HT Hts Hlen c sv Hc Hh) as (rs & rs' & servers & r & v & t & rest & vs & Hrs & Hd & _).
    rewrite Hrs in Hs. cbn [or_block mbind outcome_bind] in Hs. by rewrite Hd in Hs.
  - by destruct (c_pc c), (c_handler c).
  - by destruct (c_pc c).
  - by destruct (c_pc c).
  - destruct (c_pc c) as [| | | | | |r|] eqn:Hpc; try done. exfalso. pose proof (no_calls _ HN k c Hc) as Hi. unfold call_inv in Hi. rewrite Hpc in Hi.
    unfold finish_Call in Hs. destruct (ok r) eqn:Eo; [|done]. destruct Hi as [->|Hr]; [done|].
    specialize (HR k c r Hc Hr). destruct (DecodeV _ _) as [v good]. simpl in HR. by subst good.
Qed.

Lemma bind_Crash {A B} (r : outcome A) (f : A → outcome B) : r ≫= f = Crash → r = Crash ∨ ∃ a, r = Next a ∧ f a = Crash.
Proof using Type. destruct r; simpl; try done; eauto. Qed.

Lemma run_no_crash s g t : run g t s ≠ Crash.
Proof using Type. unfold run. by destruct (Raft.run_thread _ _ _ t) as [[[? ?] ?]|]. Qed.

(** A step panics only if it closes the network a second time. *)
Lemma sim_crash N s a abs : related N s abs → step s a = Crash → a = Control CCleanup ∧ closed (st_net (s_net s)) = true.
Proof using Type*.
  intros HR Hs. pose proof (related_length _ _ _ HR) as Hlen. destruct (rl_tied _ _ _ HR) as [orphans HT].
  pose proof (RaftTyping.sy_threads _ _ (rl_typed _ _ _ HR)) as Hts.
  assert (Hnet : ∀ x, usual x = true → netstep (s_net s) x = Crash → x = AControl CCleanup ∧ closed (st_net (s_net s)) = true).
  { intros x. by eapply net_crash; [apply HR..|exact HT|exact Hts|exact Hlen]. }
  destruct a as [d|i rnd|i|g|g k|x|x|g]; cbn [step] in Hs.
  1-3: unfold local in Hs; by destruct (Raft.step _ _).
  - destruct (s_gors s !! g) as [gr|]; [|done]. cbn [or_block mbind outcome_bind] in Hs. case_match; [done|]. by apply run_no_crash in Hs.
  - destruct (s_gors s !! g) as [gr|]; [|done]. cbn [or_block mbind outcome_bind] in Hs. destruct (g_wait gr); [done|].
    destruct (request_of (g_thread gr)) as [[[[[[i j] mth] ty] v] rep]|]; [|done]. destruct (s_ends s !! i) as [names|]; [|done].
    cbn [or_block mbind outcome_bind] in Hs. destruct (names !! j) as [e|]; [|done]. cbn [or_block mbind outcome_bind] in Hs.
    apply bind_Crash in Hs as [Hs|(n' & _ & [=])]. by apply Hnet in Hs as [[=] _].
  - destruct (internal x) eqn:Hi; [|done]. apply bind_Crash in Hs as [Hs|(n' & _ & [=])]. apply Hnet in Hs as [-> _]; [done|by destruct x].
  - destruct (tester x) eqn:Hi; [|done]. apply bind_Crash in Hs as [Hs|(n' & _ & [=])]. by apply Hnet in Hs as [[= ->] ?].
  - destruct (s_gors s !! g) as [gr|]; [|done]. cbn [or_block mbind outcome_bind] in Hs. destruct (g_wait gr) as [k|]; [|done].
    cbn [or_block mbind outcome_bind] in Hs. destruct (st_calls (s_net s) !! k) as [c|]; [|done]. cbn [or_block mbind outcome_bind] in Hs.
    destruct (c_pc c); try done. case_match; [by apply run_no_crash in Hs|done].
Qed.

(** ** Runs *)

Fixpoint net_fresh_run (s : system) (acts : list action) : bool :=
  match acts with
  | [] => true
  | a :: acts => net_fresh s a && match step s a with Next s' => net_fresh_run s' acts | _ => true end
  end.

Lemma sim_run_all N acts s s' abs : related N s abs → RaftNet.exec s acts = Next s' →
  ∃ abs', moves (net_fresh_run s acts) abs abs' ∧ related N s' abs'.
Proof using Type*.
  revert s abs. induction acts as [|a acts IH]; intros s abs HR; [intros [= <-]; exists abs; split; [apply moves_refl|done]|].
  simpl. intros (s1 & Hs & He)%bind_Next. destruct (sim_step _ _ _ _ _ HR Hs) as (abs1 & M1 & HR1).
  destruct (IH s1 abs1 HR1 He) as (abs2 & M2 & HR2). exists abs2. split; [|done]. rewrite Hs.
  eapply moves_trans; [eapply moves_weaken; [|exact M1]|eapply moves_weaken; [|exact M2]]; by intros [? ?]%andb_prop.
Qed.

Lemma sim_run_crash N acts s abs : related N s abs → RaftNet.exec s acts = Crash →
  ∃ acts1 acts2 s1, acts = acts1 ++ Control CCleanup :: acts2 ∧ RaftNet.exec s acts1 = Next s1 ∧ closed (st_net (s_net s1)) = true.
Proof using Type*.
  revert s abs. induction acts as [|a acts IH]; intros s abs HR; [done|]. simpl. intros [Hs|(s1 & Hs & He)]%bind_Crash.
  - destruct (sim_crash _ _ _ _ HR Hs) as [-> Hc]. by exists [], acts, s.
  - destruct (sim_step _ _ _ _ _ HR Hs) as (abs1 & _ & HR1). destruct (IH s1 abs1 HR1 He) as (l1 & l2 & s2 & -> & E & Hc).
    exists (a :: l1), l2, s2. split; [done|]. split; [|done]. simpl. by rewrite Hs.
Qed.

End net.
End RaftNetSim.
