(* ===== verification/RaftService.v ===== *)
(** * Raft, from the tester to the handlers

    The servers that [make_config] of [src/6.5840/src/raft/config.go] has started
    and connected, over the network it has made: their elections are those of
    the model of [Raft], whatever the network does, and so is their safety. *)
From S2P Require Import Prelude LabGob LabRpc LabRpcProof LabRpcCalls.
From S2P Require Import Raft RaftTyping RaftElection RaftConfig RaftWiring RaftNet RaftNetSim.
Import LabGob LabRpc LabRpcProof LabRpcCalls RaftWiring RaftNet RaftNetSim.
Local Open Scope Z_scope.

Module RaftService.

Section service.
Context `{RaftCodec} {V : Type} `{!RaftConfig.SnapshotCodec V, !EqDecision V}.

Abbreviation world := (RaftConfig.world (W:=objects) (X:=raftvalue) (V:=V)).
Abbreviation make_config := (RaftConfig.make_config (V:=V) raft_types raft_methods).
Abbreviation start1 := (RaftConfig.start1 (V:=V) raft_types raft_methods).
Abbreviation wired := (RaftWiring.wired (V:=V) raft_types raft_methods).
Abbreviation running := (RaftWiring.running (V:=V) raft_types raft_methods).

Implicit Types (w : world) (names : nat → nat → string) (m k : nat).

(** The tester is done with [make_config] at time [now], and the tickers begin. *)
Definition launched (now : Z) w : system :=
  System (State (RaftConfig.net (RaftConfig.w_cfg w)) (map_seq 0 (RaftConfig.w_servers w))
            (Objects (RaftConfig.w_rafts w).*1 now) ∅ true)
    (RaftConfig.w_rafts w).*2 (replicate (RaftConfig.n (RaftConfig.w_cfg w)) (Some now)) [].

(** ** What [make_config] makes *)

(** The object of server [i], with its ends. *)
Definition made_raft m names (i : nat) : Raft.Raft * list string :=
  (Raft.Make m (Z.of_nat i), names i <$> seq 0 m).

(** Servers [0] to [k - 1] were started, once, out of [m]. *)
Record made m names k w : Prop := Made {
  md_running : running m k w;
  md_objects : RaftConfig.w_rafts w = made_raft m names <$> seq 0 k;
  md_rafts j : (j < m)%nat → RaftConfig.rafts (RaftConfig.w_cfg w) !! j = Some (if decide (j < k)%nat then Some j else None);
}.

Lemma made_start m names k w w' : made m names k w → (k < m)%nat → start1 (names k) k w = RaftConfig.Val w' → made m names (S k) w'.
Proof using Type.
  intros [(HW & Hn & Hr) Ho Hrf] Hk Hs.
  destruct (start1_ok raft_types raft_methods (names k) k w HW) as [(w2 & E & [HW' Hn' Ho' Hr' _ _ _])|[e E]]; [lia| |congruence].
  replace w2 with w' in * by congruence. clear E.
  assert (Hlen : length (RaftConfig.w_rafts w) = k) by (by rewrite Ho, length_fmap, length_seq).
  assert (Hlr : length (RaftConfig.rafts (RaftConfig.w_cfg w)) = m) by (rewrite <- Hn; apply HW).
  assert (Hrf' : ∀ j, (j < m)%nat →
    RaftConfig.rafts (RaftConfig.w_cfg w') !! j = Some (if decide (j < S k)%nat then Some j else None)).
  { intros j Hj. rewrite Hr', Hlen. destruct (decide (j = k)) as [->|Hne].
    - rewrite list_lookup_insert_eq by lia. by rewrite decide_True by lia.
    - rewrite list_lookup_insert_ne, Hrf by done. do 2 case_decide; done || lia. }
  split; [split_and!; [done|congruence|]|..|done].
  - intros j Hj. exists j. rewrite Hrf' by lia. by rewrite decide_True.
  - rewrite Ho', Hn, seq_S, fmap_app. unfold killed_objects. rewrite (Hrf k Hk), decide_False by lia. by rewrite Ho.
Qed.

Lemma made_all m names w k w' : made m names 0 w → (k ≤ m)%nat →
  RaftConfig.for_each k (λ i w, start1 (names i) i w) w = RaftConfig.Val w' → made m names k w'.
Proof using Type.
  intros Hw. revert w'. induction k as [|k IH]; intros w' Hk; [by intros [= <-]|]. rewrite for_each_S.
  destruct (RaftConfig.for_each k _ w) as [| | | |w1] eqn:E; try done. apply made_start; [by apply IH; [lia|]|lia].
Qed.

Lemma make_config_made now m unreliable names w : make_config now m unreliable names = RaftConfig.Val w → made m names m w.
Proof using Type.
  unfold RaftConfig.make_config. set (w0 := RaftConfig.World _ [] [] [] []).
  assert (Hw0 : made m names 0 w0).
  { split; [by apply running_none|done|]. intros j Hj. simpl. by rewrite lookup_replicate_2. }
  destruct (RaftConfig.for_each m _ w0) as [| | | |w1] eqn:E; try done. cbn [mbind RaftConfig.result_bind].
  destruct (made_all m names w0 m w1 Hw0 ltac:(lia) E) as [Hr Ho Hrf].
  destruct (connect_all raft_types raft_methods m w1 m Hr) as (c & -> & Hc & Erf & _); [done|]. intros [= <-].
  split; [done|done|]. intros j Hj. simpl. rewrite Erf. by apply Hrf.
Qed.

(** ** The system that runs then *)

Lemma made_ends m names w i ns j e : made m names m w → (RaftConfig.w_rafts w).*2 !! i = Some ns → ns !! j = Some e →
  (i < m)%nat ∧ (j < m)%nat ∧ RaftConfig.w_rafts w !! i = Some (Raft.Make m (Z.of_nat i), ns).
Proof using Type.
  intros HM Hi Hj. apply list_lookup_fmap_Some in Hi as ([rf ns'] & -> & Hi). rewrite (md_objects _ _ _ _ HM) in Hi |- *.
  rewrite list_lookup_fmap in Hi. destruct (seq 0 m !! i) as [i'|] eqn:Ei; [|done]. apply lookup_seq in Ei as [-> Hlt]. injection Hi as <- <-.
  simpl in Hj. rewrite list_lookup_fmap in Hj. destruct (seq 0 m !! j) as [j'|] eqn:Ej; [|done]. apply lookup_seq in Ej as [-> Hlt'].
  split_and!; [done..|]. by rewrite list_lookup_fmap, lookup_seq_lt.
Qed.

Lemma launched_net now m names w : made m names m w → net_ok (s_ends (launched now w)) (s_net (launched now w)).
Proof using Type.
  intros HM. destruct (md_running _ _ _ _ HM) as (HW & Hn & _).
  assert (Hg : ∀ e j, goes (s_ends (launched now w)) e j → (j < m)%nat ∧ read (connections (RaftConfig.net (RaftConfig.w_cfg w))) (EndName e) = Some (ServerName j)).
  { intros e j (i & ns & Hi & Hj). destruct (made_ends m names w i ns j e HM Hi Hj) as (_ & Hlt & Ho). split; [done|].
    destruct (wi_objects _ _ _ HW _ _ _ Ho) as [i' Hob]. by eapply ob_connection. }
  split; simpl; try done.
  - intros e j sn [_ E]%Hg. congruence.
  - intros e j o [Hj _]%Hg Ho. pose proof (md_rafts _ _ _ _ HM j Hj) as Hr. rewrite decide_True in Hr by done.
    destruct (wi_server _ _ _ HW j j Hr) as (o' & srv & Ho' & Hsrv & Hs). exists srv. simpl. rewrite lookup_map_seq_0. split; [congruence|exact Hs].
Qed.

(** It is the initial state of the model. *)
Lemma launched_related now m names w : made m names m w → related (s_ends (launched now w)) m (launched now w) (Raft.init m now).
Proof using Type.
  intros HM. pose proof (md_running _ _ _ _ HM) as (HW & Hn & _). split; simpl; try done.
  - unfold rafts. simpl. rewrite (md_objects _ _ _ _ HM). rewrite <- (list_fmap_compose (made_raft m names) fst). done.
  - by rewrite Hn.
  - by eapply launched_net.
  - apply RaftTyping.init_typed.
  - exists ∅. split; simpl; try done; [by intros gr k ?%elem_of_nil|by apply NoDup_nil].
Qed.

Lemma launched_runs now m unreliable names w acts1 acts2 s1 s2 : make_config now m unreliable names = RaftConfig.Val w →
  RaftNet.exec (launched now w) acts1 = Next s1 → RaftNet.exec s1 acts2 = Next s2 →
  ∃ abs1 abs2, moves (net_fresh_run (launched now w) acts1) (Raft.init m now) abs1 ∧ moves (net_fresh_run s1 acts2) abs1 abs2 ∧
    related (s_ends (launched now w)) m s1 abs1 ∧ related (s_ends (launched now w)) m s2 abs2.
Proof using Type*.
  intros Hw%make_config_made E1 E2. pose proof (launched_related now m names w Hw) as HR.
  destruct (sim_run_all _ _ _ _ _ _ HR E1) as (abs1 & M1 & HR1). destruct (sim_run_all _ _ _ _ _ _ HR1 E2) as (abs2 & M2 & HR2).
  by exists abs1, abs2.
Qed.

(** ** The properties *)

(** C3: however the goroutines of Raft, of labrpc and of a tester that connects,
    disconnects and deletes servers interleave, and whatever requests and replies
    the network delays, reorders or loses, what the servers do after [make_config] is
    a run of the model of [Raft], in which a call is one delivery that may
    fail: the servers, their tickers and the time are the same. Nothing panics, but
    for a network that is closed twice. *)
Theorem raftnet_refines now m unreliable names w acts :
  make_config now m unreliable names = RaftConfig.Val w →
  match RaftNet.exec (launched now w) acts with
  | Next s => ∃ acts' abs, Raft.exec (Raft.init m now) acts' = Some abs ∧
      Raft.s_servers abs = rafts s ∧ Raft.s_tickers abs = s_tickers s ∧ Raft.s_now abs = clock s
  | Crash => ∃ acts1 acts2 s, acts = acts1 ++ Control CCleanup :: acts2 ∧
      RaftNet.exec (launched now w) acts1 = Next s ∧ closed (st_net (s_net s)) = true
  | Blocked => True
  end.
Proof using Type*.
  intros Hw. destruct (RaftNet.exec (launched now w) acts) as [| |s] eqn:E; [done|..].
  - eapply sim_run_crash; [|done]. by apply (launched_related now m names), (make_config_made now m unreliable).
  - destruct (launched_runs now m unreliable names w acts [] s s Hw E eq_refl) as (abs & _ & (acts' & Ha & _) & _ & [] & _).
    by exists acts', abs.
Qed.

(** C4: election safety over the network, for the runs in which no server counts a vote it
    asked for in an earlier term: two servers that lead the same term, at the same
    or at different times, are the same server. *)
Theorem raftnet_election_safety now m unreliable names w acts1 acts2 s1 s2 i1 i2 rf1 rf2 :
  make_config now m unreliable names = RaftConfig.Val w →
  RaftNet.exec (launched now w) acts1 = Next s1 → RaftNet.exec s1 acts2 = Next s2 →
  net_fresh_run (launched now w) acts1 = true → net_fresh_run s1 acts2 = true →
  rafts s1 !! i1 = Some rf1 → Raft.state rf1 = Raft.Leader → rafts s2 !! i2 = Some rf2 → Raft.state rf2 = Raft.Leader →
  Raft.currentTerm rf1 = Raft.currentTerm rf2 → i1 = i2.
Proof using Type*.
  intros Hw E1 E2 F1 F2 Hr1 L1 Hr2 L2. destruct (launched_runs _ _ _ _ _ _ _ _ _ Hw E1 E2) as (abs1 & abs2 & (a1 & X1 & Y1) & (a2 & X2 & Y2) & R1 & R2).
  rewrite <- (rl_servers _ _ _ _ R1) in Hr1. rewrite <- (rl_servers _ _ _ _ R2) in Hr2.
  by eapply (RaftElection.leaders_voted m now a1 a2 abs1 abs2); eauto.
Qed.

End service.

(** ** Three servers *)

#[local] Instance raftvalue_eq_dec : EqDecision raftvalue.
Proof.
  intros x y. unfold Decision. decide equality; decide equality; match goal with |- {?a = ?b} + {_} => exact (decide (a = b)) end.
Defined.

#[local] Instance raftvalue_countable : Countable raftvalue.
Proof.
  refine (inj_countable'
    (λ v, match v with
          | VVoteArgs a => inl (inl (Raft.rv_Term a, Raft.CandidateId a, Raft.LastLogIndex a, Raft.LastLogTerm a))
          | VVoteReply r => inl (inr (Raft.rvr_Term r, Raft.VoteGranted r))
          | VAppendEntries a => inr (inl (Raft.ae_Term a, Raft.ae_LeaderID a, Raft.PrevlogIndex a, Raft.PrevlogTerm a))
          | VHeartbeatReply r => inr (inr (Raft.hb_Term r, Raft.Success r))
          end)
    (λ x, match x with
          | inl (inl (a, b, c, d)) => VVoteArgs (Raft.MkRequestVoteArgs a b c d)
          | inl (inr (a, b)) => VVoteReply (Raft.MkRequestVoteReply a b)
          | inr (inl (a, b, c, d)) => VAppendEntries (Raft.MkAppendEntries a b c d)
          | inr (inr (a, b)) => VHeartbeatReply (Raft.MkHeartbeatReply a b)
          end) _).
  by intros [[]|[]|[]|[]].
Defined.

(** A codec that keeps its promises. *)
#[local] Instance demo_Codec : Codec raftvalue :=
  {| New t := match t with
              | 2%nat => VVoteArgs (Raft.MkRequestVoteArgs 0 0 0 0)
              | 4%nat => VVoteReply (Raft.MkRequestVoteReply 0 false)
              | 8%nat => VHeartbeatReply (Raft.MkHeartbeatReply 0 false)
              | _ => VAppendEntries (Raft.MkAppendEntries 0 0 0 0)
              end;
     EncodeV v := Some (bytes_of_value v);
     DecodeV b old := match value_of_bytes b with Some v => (v, true) | None => (old, false) end |}.

#[local] Instance demo_RaftCodec : RaftCodec.
Proof. split; [|done..]. intros v. exists (bytes_of_value v). split; [done|]. unfold DecodeV, demo_Codec. by rewrite value_of_bytes_of_value. Defined.

#[local] Instance no_snapshots : RaftConfig.SnapshotCodec Z :=
  {| RaftConfig.encode_snapshot _ _ := []; RaftConfig.decode_snapshot _ := None |}.

Definition demo_world : RaftConfig.world (W:=objects) (X:=raftvalue) (V:=Z) :=
  match RaftConfig.make_config raft_types raft_methods 0 3 true letters with
  | RaftConfig.Val w => w
  | _ => RaftConfig.World (RaftConfig.Config 0 MakeNetwork 0 [] [] [] [] [] [] [] 0 0 0 0 0 0 0) [] [] [] []
  end.

Lemma demo_world_ok : RaftConfig.make_config raft_types raft_methods 0 3 true letters = RaftConfig.Val demo_world.
Proof.
  unfold demo_world. assert (E : is_val (RaftConfig.make_config (V:=Z) raft_types raft_methods 0 3 true letters) = true) by (vm_compute; reflexivity).
  by destruct (RaftConfig.make_config _ _ _ _ _ _).
Qed.

Definition ms (n : Z) : Z := n * 10 ^ 6.

(** A request is lost; or it is handled; or its reply is given; the three as the
    goroutines of labrpc do it. *)
Definition drop (k : nat) : list action := Net <$> [AAccept k; ARead k; ADecide k 7; ADeliver k].
Definition handle (k : nat) : list action := Net <$> [AAccept k; ARead k; ADecide k 500; AHandle k].
Definition answer (k : nat) : list action := Net <$> [ATake k; ACheck k 500 900; ADeliver k].

(** Server 0 asks for votes in term 1, the network loses the request to server 2, and
    the reply of server 1, which votes for it, is late. *)
Definition demo_ask : list action :=
  [Advance (ms 500); Wake 0 0; Go 0; Send 0 10; Send 1 11] ++ handle 10 ++ drop 11 ++ [Receive 1].

(** The reply comes while server 0 still is a candidate of term 1. *)
Definition demo_lead : list action := demo_ask ++ answer 10 ++ [Receive 0].

Definition demo_end (acts : list action) : system :=
  match RaftNet.exec (launched 0 demo_world) acts with Next s => s | _ => launched 0 demo_world end.

Definition goes_on {A} (r : outcome A) : bool := match r with Next _ => true | _ => false end.

Lemma demo_runs acts : goes_on (RaftNet.exec (launched 0 demo_world) acts) = true →
  RaftNet.exec (launched 0 demo_world) acts = Next (demo_end acts).
Proof. unfold demo_end. by destruct (RaftNet.exec _ acts). Qed.

Definition states (s : system) : list (Raft.ServerState * Z) := (λ rf, (Raft.state rf, Raft.currentTerm rf)) <$> rafts s.

Lemma raftnet_refines_witness :
  states (demo_end demo_lead) = [(Raft.Leader, 1); (Raft.Follower, 1); (Raft.Follower, 0)] ∧
  ∃ acts abs, Raft.exec (Raft.init 3 0) acts = Some abs ∧ Raft.s_servers abs = rafts (demo_end demo_lead).
Proof.
  split; [vm_compute; reflexivity|]. pose proof (raftnet_refines 0 3 true letters demo_world demo_lead demo_world_ok) as H.
  rewrite (demo_runs demo_lead) in H by (vm_compute; reflexivity).
  destruct H as (acts & abs & Ha & Hs & _). exists acts, abs. split; assumption.
Defined.

Lemma raftnet_election_safety_witness :
  ∃ rf, rafts (demo_end demo_lead) !! 0%nat = Some rf ∧ Raft.state rf = Raft.Leader ∧
    ∀ i rf', rafts (demo_end demo_lead) !! i = Some rf' → Raft.state rf' = Raft.Leader → Raft.currentTerm rf' = 1 → 0%nat = i.
Proof.
  eexists. split; [vm_compute; reflexivity|]. split; [reflexivity|]. intros i rf' Hi Hl Ht.
  eapply (raftnet_election_safety 0 3 true letters demo_world demo_lead [] (demo_end demo_lead) (demo_end demo_lead) 0 i _ rf').
  - exact demo_world_ok.
  - apply demo_runs. vm_compute. reflexivity.
  - reflexivity.
  - vm_compute. reflexivity.
  - reflexivity.
  - vm_compute. reflexivity.
  - reflexivity.
  - exact Hi.
  - exact Hl.
  - rewrite Ht. reflexivity.
Defined.

End RaftService.
