(* ===== verification/RaftNetLive.v ===== *)
(** * Leaders can be elected over the network, also two at once

    The converse of [RaftNetSim], for the runs of the model of [Raft] in which no call
    fails: on a network that enables all ends and still has all servers, the
    goroutines can do what the threads do. So a server can become leader there,
    and two servers can in one term. *)
From S2P Require Import Prelude LabGob LabRpc LabRpcProof LabRpcApi LabRpcCalls.
From S2P Require Import Raft RaftTyping RaftElection RaftLiveness RaftConfig RaftWiring RaftNet RaftNetSim RaftService.
Import LabGob LabRpc LabRpcProof LabRpcApi LabRpcCalls RaftWiring RaftNet RaftNetSim RaftService.
Local Open Scope Z_scope.

Module RaftNetLive.

(** The draws with which an unreliable network loses a request or a reply, and the way
    out of a call when the network was closed. *)
Definition loses (a : @LabRpc.action objects raftvalue name) : bool :=
  match a with ADecide _ r | ACheck _ r _ => r mod 1000 <? 100 | AAbandon _ => true | _ => false end.

(** Steps of the servers and of labrpc that lose nothing, without kills and without a tester. *)
Definition undisturbed (a : action) : bool :=
  match a with KillServer _ | Control _ => false | Net a => negb (loses a) | _ => true end.

(** A thread that has not come back from a call. *)
Definition plain (t : Raft.thread) : bool :=
  match t with Raft.GotVote _ _ _ _ | Raft.BeatReply _ _ _ => false | _ => true end.

Lemma run_thread_plain n now sv t sv' ts vs : Raft.run_thread n now sv t = Some (sv', ts, vs) →
  Raft.calling t = false ∨ plain t = false → Forall (λ t, plain t = true) ts.
Proof.
  destruct t as [i|i j args|i j args reply|i|i args j|i|i j args|i j reply]; simpl; intros Hr Hp; try (by destruct Hp).
  - destruct (sv !! i); [|done]. injection Hr as <- <- <-. by apply Forall_fmap, Forall_true.
  - destruct (Raft.VoteGranted reply); [|by injection Hr as <- <- <-]. destruct (sv !! i) as [rf|]; [|done]. simpl in Hr.
    destruct (Raft.count_vote rf) as [rf' [|]]; injection Hr as <- <- <-; by repeat constructor.
  - destruct (sv !! i); [|done]. injection Hr as <- <- <-. by repeat constructor.
  - destruct (sv !! i); [|done]. simpl in Hr. repeat case_match; injection Hr as <- <- <-; by repeat constructor.
  - destruct (sv !! i); [|done]. simpl in Hr. case_match; injection Hr as <- <- <-; by repeat constructor.
  - destruct (sv !! i); [|done]. by injection Hr as <- <- <-.
Qed.

Section live.
Context `{RaftCodec} (ends : list (list string)) (N : nat).
Context (Hends : ∀ i j, (i < N)%nat → (j < N)%nat → ∃ names e, ends !! i = Some names ∧ names !! j = Some e).

Abbreviation netstate := (@LabRpc.state objects raftvalue name _ _).
Abbreviation netcall := (@LabRpc.call raftvalue name).
Implicit Types (s : system) (n : netstate) (abs : Raft.system) (t : Raft.thread) (ts : list Raft.thread).
Implicit Types (gr : goroutine) (gors gold gnew : list goroutine) (calls : gmap nat netcall).

Definition reaches s s' : Prop := ∃ acts, RaftNet.exec s acts = Next s' ∧ forallb undisturbed acts = true.

Lemma reaches_refl s : reaches s s.
Proof using Type. by exists []. Qed.

Lemma raftnet_run_app s s1 acts acts' : RaftNet.exec s acts = Next s1 → RaftNet.exec s (acts ++ acts') = RaftNet.exec s1 acts'.
Proof using Type.
  revert s. induction acts as [|a acts IH]; intros s; [by intros [= ->]|]. simpl. intros (s2 & -> & He)%bind_Next. simpl. by apply IH.
Qed.

Lemma reaches_trans s1 s2 s3 : reaches s1 s2 → reaches s2 s3 → reaches s1 s3.
Proof using Type.
  intros (a1 & E1 & U1) (a2 & E2 & U2). exists (a1 ++ a2). by rewrite (raftnet_run_app _ _ _ _ E1), forallb_app, U1, U2.
Qed.

Lemma reaches_step s a s' : step s a = Next s' → undisturbed a = true → reaches s s'.
Proof using Type. intros E U. exists [a]. simpl. by rewrite E, U. Qed.

(** The steps of labrpc alone. *)
Lemma reaches_net s nacts n' : forallb (λ a, internal a && negb (loses a)) nacts = true → LabRpc.exec raft_types (s_net s) nacts = Next n' →
  reaches s (System n' (s_ends s) (s_tickers s) (s_gors s)).
Proof using Type.
  revert s. induction nacts as [|a nacts IH]; intros s; [intros _ [= <-]; destruct s; apply reaches_refl|].
  simpl. intros [[Hi Hl]%andb_prop Hr]%andb_prop (n1 & Hn & He)%bind_Next.
  eapply reaches_trans; [apply (reaches_step _ (Net a) (System n1 (s_ends s) (s_tickers s) (s_gors s)))|].
  - simpl. by rewrite Hi, Hn.
  - exact Hl.
  - by apply (IH (System n1 (s_ends s) (s_tickers s) (s_gors s))).
Qed.

(** ** Goroutines that follow threads *)

(** All requests arrive, and so do their replies. *)
Record friendly n : Prop := Friendly {
  fr_loop : st_loop n = true;
  fr_route e j : goes ends e j → ∃ o rel reord,
    readEndnameInfo (EndName e) (st_net n) = Info true (Some (ServerName j)) (Some o) rel reord ∧ offers n j o;
}.

(** A goroutine is where thread [t] is. *)
Inductive mirror calls gr t : Prop :=
| mirror_plain : g_wait gr = None → g_thread gr = t → plain t = true → mirror calls gr t
| mirror_back k c v : g_wait gr = Some k → calls !! k = Some c → c_pc c = Returned true v →
    after_call (g_thread gr) true v = Some t → mirror calls gr t.

(** The goroutines [gold] stay where they are, the others are where the threads of
    the model are. *)
Record follows gold s abs : Prop := Follows {
  fo_servers : Raft.s_servers abs = rafts s;
  fo_tickers : Raft.s_tickers abs = s_tickers s;
  fo_now : Raft.s_now abs = clock s;
  fo_ends : s_ends s = ends;
  fo_net : friendly (s_net s);
  fo_typed : RaftTyping.system_ok N abs;
  fo_gors : ∃ gnew, s_gors s ≡ₚ gold ++ gnew ∧ Forall2 (mirror (st_calls (s_net s))) gnew (Raft.s_threads abs);
}.

Lemma friendly_world w n : friendly n → friendly (with_world w n).
Proof using Type. intros []. by split. Qed.

Lemma mirror_keeps calls calls' gr t : (∀ k, is_Some (calls !! k) → calls' !! k = calls !! k) → mirror calls gr t → mirror calls' gr t.
Proof using Type.
  intros Hk [|k c v Hw Hc Hpc Ha]; [by apply mirror_plain|]. eapply mirror_back; [done| |done|done]. by rewrite Hk.
Qed.

Lemma mirror_begun calls ts : Forall (λ t, plain t = true) ts → Forall2 (mirror calls) (begun ts) ts.
Proof using Type. induction 1; constructor; [by apply mirror_plain|done]. Qed.

(** Time passes, or a ticker wakes up. *)
Lemma follows_local gold s abs a abs' : follows gold s abs → (∃ d, a = Raft.Advance d) ∨ (∃ i rnd, a = Raft.Wake i rnd) →
  Raft.step abs a = Some abs' → ∃ s', reaches s s' ∧ follows gold s' abs'.
Proof using Type.
  intros [H1 H2 H3 H4 H5 H6 (gnew & Hp & HF)] Ha Hs. pose proof (RaftTyping.step_typed _ _ _ _ H6 Hs) as H6'.
  destruct abs as [sv tk ts now vs]. simpl in *. subst sv tk now.
  assert (Hr : ∃ r, Raft.step (servers_of s) a = Some r ∧ abs' = Raft.System (Raft.s_servers r) (Raft.s_tickers r) (ts ++ Raft.s_threads r) (Raft.s_now r) vs ∧
    Forall (λ t, plain t = true) (Raft.s_threads r)).
  { destruct Ha as [[d ->]|(i & rnd & ->)]; simpl in Hs |- *.
    - destruct (_ <=? _); [|done]. injection Hs as <-. eexists. split; [done|]. simpl. split; [by rewrite app_nil_r|by constructor].
    - destruct (rafts s !! i); [|done]. simpl in Hs |- *. destruct (s_tickers s !! i) as [[st|]|]; [|done..]. simpl in Hs |- *.
      destruct (_ && _); [|done]. injection Hs as <-. eexists. split; [done|]. split; [done|]. simpl.
      destruct (if Raft.lastTimeReceiveRPC r <? st then _ else false); by repeat constructor. }
  destruct Hr as (r & Hr & -> & Hpl).
  eexists. split; [apply (reaches_step s (match a with Raft.Advance d => Advance d | Raft.Wake i rnd => Wake i rnd | _ => Advance 0 end))|].
  - destruct Ha as [[d ->]|(i & rnd & ->)]; cbn [step]; unfold local; rewrite Hr; reflexivity.
  - by destruct Ha as [[d ->]|(i & rnd & ->)].
  - split; cbn [s_net s_ends s_tickers s_gors]; try done; [by apply friendly_world|].
    exists (gnew ++ begun (Raft.s_threads r)). split; [by rewrite Hp, app_assoc|]. apply Forall2_app; [done|by apply mirror_begun].
Qed.

Lemma gors_without gold gnew gors g k gr : gors ≡ₚ gold ++ gnew → gnew !! k = Some gr → gors !! g = Some gr →
  delete g gors ≡ₚ gold ++ delete k gnew.
Proof using Type.
  intros Hp Hk Hg. apply (Permutation_cons_inv (a:=gr)). etrans; [symmetry; exact (delete_Permutation _ _ _ Hg)|].
  etrans; [exact Hp|]. etrans; [apply Permutation_app_head, (delete_Permutation _ _ _ Hk)|]. by solve_Permutation.
Qed.

(** The code of a goroutine runs. *)
Lemma follows_run gold s abs k g gr t sv ts vs gnew : follows gold s abs → Raft.s_threads abs !! k = Some t →
  s_gors s ≡ₚ gold ++ gnew → Forall2 (mirror (st_calls (s_net s))) gnew (Raft.s_threads abs) → gnew !! k = Some gr → s_gors s !! g = Some gr →
  Raft.run_thread (length (Raft.s_servers abs)) (Raft.s_now abs) (Raft.s_servers abs) t = Some (sv, ts, vs) →
  Raft.calling t = false ∨ plain t = false →
  ∃ s', run g t s = Next s' ∧
    follows gold s' (Raft.System sv (Raft.s_tickers abs) (delete k (Raft.s_threads abs) ++ ts) (Raft.s_now abs) (Raft.s_votes abs ++ vs)).
Proof using Type.
  intros [H1 H2 H3 H4 H5 H6 _] Ht Hp HF Hgk Hg Hr Hpl.
  assert (HT : RaftTyping.system_ok N (Raft.System sv (Raft.s_tickers abs) (delete k (Raft.s_threads abs) ++ ts) (Raft.s_now abs) (Raft.s_votes abs ++ vs))).
  { apply (RaftTyping.step_typed N abs (Raft.Run k)); [done|]. simpl. rewrite Ht. cbn [mbind option_bind]. by rewrite Hr. }
  unfold run. rewrite <- H1, <- H3, Hr. eexists. split; [reflexivity|].
  split; cbn [s_net s_ends s_tickers s_gors Raft.s_servers Raft.s_tickers Raft.s_now Raft.s_threads]; try done; [by apply friendly_world|].
  exists (delete k gnew ++ begun ts). split.
  - rewrite app_assoc. f_equiv. by eapply gors_without.
  - apply Forall2_app; [by apply Forall2_delete|]. apply mirror_begun. by eapply run_thread_plain.
Qed.

(** A thread that asks has a request, and [after_call] makes of its reply what the
    model does. *)
Lemma plain_request t : plain t = true → Raft.calling t = true → RaftTyping.thread_ok N t →
  ∃ i j mth ty a rep, request_of t = Some (i, j, mth, ty, a, rep) ∧ (i < N)%nat ∧ (j < N)%nat.
Proof using Type. destruct t; simpl; try done; intros _ _ (Hi & Hj & _); by do 6 eexists. Qed.

Lemma after_arrived t v : plain t = true → Raft.calling t = true → after_call t true v = Some (arrived t v).
Proof using Type. by destruct t. Qed.

Lemma is_fresh_call calls : calls !! fresh (dom calls) = None.
Proof using Type. apply not_elem_of_dom, is_fresh. Qed.

(** A goroutine makes its call, of which nothing is lost. *)
Lemma follows_call gold s abs k g gr t sv ts vs gnew : follows gold s abs → Raft.s_threads abs !! k = Some t →
  s_gors s ≡ₚ gold ++ gnew → Forall2 (mirror (st_calls (s_net s))) gnew (Raft.s_threads abs) → gnew !! k = Some gr → s_gors s !! g = Some gr →
  Raft.run_thread (length (Raft.s_servers abs)) (Raft.s_now abs) (Raft.s_servers abs) t = Some (sv, ts, vs) →
  g_wait gr = None → g_thread gr = t → plain t = true → Raft.calling t = true →
  ∃ s', reaches s s' ∧
    follows gold s' (Raft.System sv (Raft.s_tickers abs) (delete k (Raft.s_threads abs) ++ ts) (Raft.s_now abs) (Raft.s_votes abs ++ vs)).
Proof using Hends H0.
  intros [H1 H2 H3 H4 H5 H6 _] Ht Hp HF Hgk Hg Hr Hw Et Hpl Hc.
  assert (HT : RaftTyping.system_ok N (Raft.System sv (Raft.s_tickers abs) (delete k (Raft.s_threads abs) ++ ts) (Raft.s_now abs) (Raft.s_votes abs ++ vs))).
  { apply (RaftTyping.step_typed N abs (Raft.Run k)); [done|]. simpl. rewrite Ht. cbn [mbind option_bind]. by rewrite Hr. }
  pose proof (Forall_lookup_1 _ _ _ _ (RaftTyping.sy_threads _ _ H6) Ht) as Hok.
  destruct (plain_request t Hpl Hc Hok) as (i & j & mth & ty & a & rep & Hreq & Hi & Hj).
  destruct (Hends i j Hi Hj) as (names & e & Hn & He). destruct (encodes a) as (b & Hb & _).
  assert (Hgo : goes ends e j) by (by exists i, names).
  destruct (fr_route _ H5 e j Hgo) as (o & rel & reord & Hinfo & rs & Hrs & Hsv).
  assert (Hex : is_Some (o_rafts (st_world (s_net s)) !! j)).
  { apply lookup_lt_is_Some_2. change (j < length (rafts s))%nat. rewrite <- H1. by rewrite (proj1 (RaftTyping.sy_servers _ _ H6)). }
  destruct (raft_dispatch_request (length (rafts s)) rs (st_world (s_net s)) t i j mth ty a rep b (EndName e) Hsv Hreq Hb Hex)
    as (rs' & sv' & v & b' & vs' & Hd & Hdec & Hrun).
  rewrite H1, H3 in Hr. unfold rafts, clock in Hr. unfold rafts in Hrun. rewrite Hr in Hrun. injection Hrun as <- -> <-.
  set (q := fresh (dom (st_calls (s_net s)))). pose proof (is_fresh_call (st_calls (s_net s))) as Hq. fold q in Hq.
  destruct (call_through raft_types (s_net s) q (EndName e) mth ty a rep b _ o rel reord rs rs' _ b' v Hq (fr_loop _ H5) Hb Hinfo Hrs Hd Hdec)
    as (n' & Hn' & (c & Hcq & Hpc) & Hwd & Hob & Hlp & Hinf & Hoth).
  cbn [LabRpc.exec] in Hn'. apply bind_Next in Hn' as (n1 & Hn1 & Hthr).
  set (s1 := System n1 (s_ends s) (s_tickers s) (<[g := Goroutine (g_thread gr) (Some q)]> (s_gors s))).
  assert (E1 : step s (Send g q) = Next s1).
  { cbn [step]. rewrite Hg. cbn [or_block mbind outcome_bind]. rewrite Hw, Et, Hreq, H4, Hn. cbn [or_block mbind outcome_bind].
    rewrite He. cbn [or_block mbind outcome_bind]. rewrite Hn1. unfold s1. by rewrite H4, Et. }
  eexists. split.
  { eapply reaches_trans; [by eapply reaches_step|]. by apply (reaches_net s1 (through q) n'). }
  split; cbn [s_net s_ends s_tickers s_gors s1 Raft.s_servers Raft.s_tickers Raft.s_now Raft.s_threads]; try done.
  - unfold rafts. cbn [s_net]. by rewrite Hwd.
  - rewrite H3. unfold clock. cbn [s_net]. by rewrite Hwd.
  - split; [done|]. intros e' j' Hg'. destruct (fr_route _ H5 e' j' Hg') as (o' & rel' & reord' & Hinfo' & rs0 & Hrs0 & Hsv0).
    exists o', rel', reord'. rewrite Hinf. split; [done|]. destruct (decide (o' = o)) as [->|Hne].
    + exists rs'. rewrite Hob, lookup_insert_eq. split; [done|]. simplify_eq.
      rewrite (dispatch_services _ _ _ _ _ _ _ Hd). done.
    + exists rs0. by rewrite Hob, lookup_insert_ne.
  - exists (delete k gnew ++ [Goroutine (g_thread gr) (Some q)]). split.
    + rewrite (gors_insert s g gr _ Hg), (gors_without _ _ _ _ _ _ Hp Hgk Hg). by solve_Permutation.
    + apply Forall2_app; [|constructor; [|constructor]].
      * apply Forall2_delete. eapply Forall2_impl; [exact HF|]. intros gr' t' Hm. eapply mirror_keeps; [|exact Hm].
        intros k' [c' Hc']. apply Hoth. congruence.
      * apply (mirror_back _ _ _ q c v); [done|done|done|]. simpl. rewrite Et. by apply after_arrived.
Qed.

(** The system can follow every step of the model in which no call fails. *)
Lemma follows_step gold s abs a abs' : follows gold s abs → RaftLiveness.quiet a = true → Raft.step abs a = Some abs' →
  ∃ s', reaches s s' ∧ follows gold s' abs'.
Proof using Hends H0.
  intros HFo Hq Hs. destruct a as [d|i rnd|k|k|i]; try done.
  1-2: eapply follows_local; [done| |done]; first [by left; eexists|by right; eexists _, _].
  pose proof (fo_gors _ _ _ HFo) as (gnew & Hp & HF). simpl in Hs. destruct (Raft.s_threads abs !! k) as [t|] eqn:Ht; [|done].
  cbn [mbind option_bind] in Hs. destruct (Raft.run_thread _ _ _ t) as [[[sv ts] vs]|] eqn:Hr; [|done]. injection Hs as <-.
  destruct (Forall2_lookup_r _ _ _ _ _ HF Ht) as (gr & Hgk & Hm).
  assert (Hin : gr ∈ s_gors s). { rewrite Hp, elem_of_app. right. by eapply list_elem_of_lookup_2. }
  apply list_elem_of_lookup in Hin as [g Hg]. pose proof Hm as [Hw Et Hpl|q c v Hw Hcq Hpc Ha].
  - destruct (Raft.calling t) eqn:Hc; [by eapply follows_call|].
    destruct (follows_run gold s abs k g gr t sv ts vs gnew) as (s' & Hs' & HFo'); [done..|by left|]. exists s'. split; [|done].
    apply (reaches_step s (Go g)); [|done]. cbn [step]. rewrite Hg. cbn [or_block mbind outcome_bind]. by rewrite Et, Hc.
  - destruct (follows_run gold s abs k g gr t sv ts vs gnew) as (s' & Hs' & HFo'); [done..| |].
    { right. by destruct (g_thread gr); simpl in Ha; try done; injection Ha as <-. }
    exists s'. split; [|done]. apply (reaches_step s (Receive g)); [|done]. cbn [step]. rewrite Hg. cbn [or_block mbind outcome_bind].
    rewrite Hw. cbn [or_block mbind outcome_bind]. rewrite Hcq. cbn [or_block mbind outcome_bind]. by rewrite Hpc, Ha.
Qed.

Lemma follows_gets gold s abs abs' : follows gold s abs → RaftLiveness.gets abs abs' → ∃ s', reaches s s' ∧ follows gold s' abs'.
Proof using Hends H0.
  intros HFo (acts & He & Hq). revert s abs HFo He Hq. induction acts as [|a acts IH]; intros s abs HFo; simpl.
  { intros [= <-] _. exists s. split; [apply reaches_refl|done]. }
  destruct (Raft.step abs a) as [abs1|] eqn:Hs; [|done]. cbn [mbind option_bind]. intros He [Hq Hqs]%andb_prop.
  destruct (follows_step gold s abs a abs1 HFo Hq Hs) as (s1 & R1 & HF1). destruct (IH s1 abs1 HF1 He Hqs) as (s2 & R2 & HF2).
  exists s2. split; [by eapply reaches_trans|done].
Qed.

End live.

(** ** From the tester *)

Section elections.
Context `{RaftCodec} {V : Type} `{!RaftConfig.SnapshotCodec V, !EqDecision V}.

Abbreviation make_config := (RaftConfig.make_config (V:=V) raft_types raft_methods).

(** Every end is enabled, and every server is there. *)
Definition all_open (m : nat) (names : nat → nat → string) (s : system) : Prop :=
  st_loop (s_net s) = true ∧
  ∀ i j, (i < m)%nat → (j < m)%nat →
    let inf := readEndnameInfo (EndName (names i j)) (st_net (s_net s)) in i_enabled inf = true ∧ is_Some (i_server inf).

Lemma open_friendly ends m names s abs :
  related ends m s abs → all_open m names s → (∀ e j, goes ends e j → ∃ i, (i < m)%nat ∧ (j < m)%nat ∧ e = names i j) → friendly ends (s_net s).
Proof using Type.
  intros HR [Hl Ho] Hg. split; [done|]. intros e j He. destruct (Hg e j He) as (i & Hi & Hj & ->).
  destruct (Ho i j Hi Hj) as [Hen [o Hs]]. unfold readEndnameInfo in *. cbn [i_enabled i_server] in *.
  destruct (read (connections _) _) as [sn|] eqn:Ec; [|done]. cbn [mbind option_bind] in Hs |- *.
  rewrite (no_connection _ _ (rl_net _ _ _ _ HR) _ j sn He Ec) in *. exists o. do 2 eexists. split; [by rewrite Hen, Hs|].
  by eapply (no_server _ _ (rl_net _ _ _ _ HR)).
Qed.

(** What is left of a run is a good state to go on from. *)
Lemma related_good ends m now s abs fr : related ends m s abs → moves fr (Raft.init m now) abs → RaftLiveness.good m (servers_of s).
Proof using Type.
  intros [E1 E2 _ _ _ _ [Hs Ht _] _] (acts & He & _). pose proof (RaftLiveness.ticking_exec _ _ _ (RaftLiveness.ticking_init m now) He) as Htk.
  rewrite E1 in Hs. rewrite E2 in Ht. split; [split; simpl; [done|done|constructor]|].
  intros i rf. simpl. rewrite <- E1, <- E2. apply Htk.
Qed.

(** What the model can do without a failed call, the system can. *)
Lemma open_follows now m unreliable names w acts s :
  make_config now m unreliable names = RaftConfig.Val w → RaftNet.exec (launched now w) acts = Next s → all_open m names s →
  RaftLiveness.good m (servers_of s) ∧
  ∀ abs', RaftLiveness.gets (servers_of s) abs' →
    ∃ acts' s', RaftNet.exec s acts' = Next s' ∧ forallb undisturbed acts' = true ∧ rafts s' = Raft.s_servers abs'.
Proof using Type*.
  intros Hw He Hopen. pose proof (make_config_made now m unreliable names w Hw) as HM.
  destruct (launched_runs now m unreliable names w acts [] s s Hw He eq_refl) as (abs & _ & M & _ & HR & _).
  set (ends := s_ends (launched now w)) in *. assert (Eends : ends = (λ i, names i <$> seq 0 m) <$> seq 0 m).
  { unfold ends. simpl. by rewrite (md_objects _ _ _ _ HM), <- (list_fmap_compose (made_raft m names) snd). }
  assert (Hat : ∀ i j, (i < m)%nat → (j < m)%nat → ends !! i = Some (names i <$> seq 0 m) ∧ (names i <$> seq 0 m) !! j = Some (names i j)).
  { intros i' j' ? ?. by rewrite Eends, !list_lookup_fmap, !lookup_seq_lt. }
  assert (Hgo : ∀ e j, goes ends e j → ∃ i, (i < m)%nat ∧ (j < m)%nat ∧ e = names i j).
  { intros e j (i' & ns & Hns & Hj). destruct (made_ends m names w i' ns j e HM Hns Hj) as (Hi' & Hj' & _). exists i'. split_and!; [done..|].
    destruct (Hat i' j Hi' Hj') as [E1 E2]. congruence. }
  pose proof (related_good _ _ _ _ _ _ HR M) as HG. split; [done|]. intros abs' Hgets.
  assert (HF : follows ends m (s_gors s) s (servers_of s)).
  { split; try done; [apply HR|by eapply open_friendly|apply HG|]. exists []. by rewrite app_nil_r. }
  destruct (follows_gets ends m (λ i j Hi Hj, ex_intro _ _ (ex_intro _ _ (Hat i j Hi Hj))) _ _ _ _ HF Hgets) as (s' & (acts' & He' & Hu) & HF').
  exists acts', s'. split_and!; [done..|]. symmetry. apply HF'.
Qed.

(** C5: over the simulated network, too, whatever has happened to the two or more servers
    and the network since [make_config], if now all ends are enabled and all servers are
    there, every server that was not killed and is not the leader can become the leader
    of a new term, by steps of the servers and of a network that loses nothing: it
    leads in a term later than all there were, and every other server follows in it. *)
Theorem raftnet_can_elect now m unreliable names w acts s i rf :
  make_config now m unreliable names = RaftConfig.Val w → (2 ≤ m)%nat → RaftNet.exec (launched now w) acts = Next s →
  all_open m names s → rafts s !! i = Some rf → Raft.killed rf = false → Raft.state rf ≠ Raft.Leader →
  ∃ acts' s' T, RaftNet.exec s acts' = Next s' ∧ forallb undisturbed acts' = true ∧
    (∀ j rfj, rafts s !! j = Some rfj → Raft.currentTerm rfj < T) ∧
    ∀ j rfj, rafts s' !! j = Some rfj → Raft.GetState rfj = (T, bool_decide (j = i)).
Proof using Type*.
  intros Hw Hm He Hopen Hi Hk Hst. destruct (open_follows _ _ _ _ _ _ _ Hw He Hopen) as [HG Hfol].
  destruct (RaftLiveness.can_lead m i (servers_of s) rf Hm HG Hi Hk Hst) as (abs' & T & Hgets & Hlow & Hall).
  destruct (Hfol abs' Hgets) as (acts' & s' & He' & Hu & Er). exists acts', s', T. split_and!; [done..|]. intros j rfj Hj. rewrite Er in Hj.
  destruct (Hall j rfj Hj) as [<- Hs]. unfold Raft.GetState. f_equal. apply bool_decide_ext. rewrite Hs. by destruct (decide (j = i)); split.
Qed.

(** C28: two leaders in one term, in every test. The goroutine that receives a vote does not
    compare the term it asked for with the current one, so the votes of an earlier
    election are counted. Whatever has happened to the three or more servers and the
    network since [make_config], if now all ends are enabled and all servers are
    there, any two servers that were not killed, and of which one does not lead, can both
    become the leader of the same, new term, by steps of the servers and of a network
    that loses nothing: some of its replies only have to be late. *)
Theorem raftnet_two_leaders now m unreliable names w acts s i j rfi rfj :
  make_config now m unreliable names = RaftConfig.Val w → (3 ≤ m)%nat → RaftNet.exec (launched now w) acts = Next s →
  all_open m names s → i ≠ j → rafts s !! i = Some rfi → Raft.killed rfi = false → Raft.state rfi ≠ Raft.Leader →
  rafts s !! j = Some rfj → Raft.killed rfj = false →
  ∃ acts' s' T rfi' rfj', RaftNet.exec s acts' = Next s' ∧ forallb undisturbed acts' = true ∧
    (∀ k rfk, rafts s !! k = Some rfk → Raft.currentTerm rfk < T) ∧
    rafts s' !! i = Some rfi' ∧ Raft.GetState rfi' = (T, true) ∧ rafts s' !! j = Some rfj' ∧ Raft.GetState rfj' = (T, true).
Proof using Type*.
  intros Hw Hm He Hopen Hij Hi Hki Hsi Hj Hkj. destruct (open_follows _ _ _ _ _ _ _ Hw He Hopen) as [HG Hfol].
  destruct (RaftLiveness.two_can_lead m i j (servers_of s) rfi rfj Hm HG Hij Hi Hki Hsi Hj Hkj) as (abs' & T & Hgets & Hlow & rfi' & rfj' & Hi' & Ti & Hj' & Tj).
  destruct (Hfol abs' Hgets) as (acts' & s' & He' & Hu & Er). exists acts', s', T, rfi', rfj'. rewrite Er. by split_and!.
Qed.

End elections.

#[local] Existing Instances demo_Codec demo_RaftCodec no_snapshots.

Lemma demo_open : all_open 3 letters (demo_end demo_ask).
Proof.
  split; [vm_compute; reflexivity|]. intros i j Hi Hj.
  do 3 (destruct i as [|i]; [do 3 (destruct j as [|j]; [split; [vm_compute; reflexivity|eexists; vm_compute; reflexivity]|]); lia|]). lia.
Qed.

(** In the middle of an election of server 0, whose request to server 2 was lost, server
    1 can be elected. *)
Lemma raftnet_can_elect_witness :
  states (demo_end demo_ask) = [(Raft.Candidate, 1); (Raft.Follower, 1); (Raft.Follower, 0)] ∧
  ∃ acts s T, RaftNet.exec (demo_end demo_ask) acts = Next s ∧ 1 < T ∧
    ∀ j rf, rafts s !! j = Some rf → Raft.GetState rf = (T, bool_decide (j = 1%nat)).
Proof.
  split; [vm_compute; reflexivity|].
  destruct (rafts (demo_end demo_ask) !! 1%nat) as [rf|] eqn:Hrf; [|vm_compute in Hrf; discriminate Hrf].
  destruct (raftnet_can_elect 0 3 true letters demo_world demo_ask (demo_end demo_ask) 1 rf) as (acts & s & T & He & _ & Hlow & Hall).
  - exact demo_world_ok.
  - lia.
  - apply demo_runs. vm_compute. reflexivity.
  - exact demo_open.
  - exact Hrf.
  - vm_compute in Hrf. injection Hrf as <-. reflexivity.
  - vm_compute in Hrf. injection Hrf as <-. discriminate.
  - exists acts, s, T. split; [exact He|]. split; [|exact Hall]. specialize (Hlow 1%nat rf Hrf). vm_compute in Hrf. injection Hrf as <-. exact Hlow.
Defined.

(** Servers 0 and 1 can both lead, although server 1 has just voted for server 0. *)
Lemma raftnet_two_leaders_witness :
  ∃ acts s T rf0 rf1, RaftNet.exec (demo_end demo_ask) acts = Next s ∧ 1 < T ∧
    rafts s !! 0%nat = Some rf0 ∧ Raft.GetState rf0 = (T, true) ∧ rafts s !! 1%nat = Some rf1 ∧ Raft.GetState rf1 = (T, true).
Proof.
  destruct (rafts (demo_end demo_ask) !! 0%nat) as [rf0|] eqn:H0; [|vm_compute in H0; discriminate H0].
  destruct (rafts (demo_end demo_ask) !! 1%nat) as [rf1|] eqn:H1; [|vm_compute in H1; discriminate H1].
  destruct (raftnet_two_leaders 0 3 true letters demo_world demo_ask (demo_end demo_ask) 0 1 rf0 rf1)
    as (acts & s & T & rf0' & rf1' & He & _ & Hlow & Hall).
  - exact demo_world_ok.
  - lia.
  - apply demo_runs. vm_compute. reflexivity.
  - exact demo_open.
  - discriminate.
  - exact H0.
  - vm_compute in H0. injection H0 as <-. reflexivity.
  - vm_compute in H0. injection H0 as <-. discriminate.
  - exact H1.
  - vm_compute in H1. injection H1 as <-. reflexivity.
  - exists acts, s, T, rf0', rf1'. split; [exact He|]. split; [|exact Hall].
    specialize (Hlow 1%nat rf1 H1). vm_compute in H1. injection H1 as <-. exact Hlow.
Defined.

End RaftNetLive.
