(* ===== verification/GroupConfig.v ===== *)
(** * The tester of a replicated service

    [src/6.5840/src/kvraft/config.go]: a group of servers on the simulated network,
    the clerks of the tests, partitions, shutdowns and restarts.
    [src/6.5840/src/shardctrler/config.go] is the same program for another type of
    server, so the type and what starts and kills a server are a parameter. The
    operations work on a [world] like those of [RaftConfig] and end the same way;
    random names, draws of [rand.Intn] and times are arguments. *)
From S2P Require Import Prelude LabGob LabRpc Persister Raft RaftConfig.
From S2P Require KvRaft.
Import LabGob LabRpc.
Import RaftConfig (result, NoFuel, Panic, LogFatal, TestFatal, Val, result_ret, result_bind, or_panic, for_each, write, TookTooLong).
Local Open Scope Z_scope.

Module GroupConfig.

Abbreviation result := (RaftConfig.result ()).

(** What the tester does with a server: start number [me] of [n] servers, kill it,
    and its Raft object. *)
Class GroupServer (Srv : Type) := {
  start_server : nat → Z → Z → Srv;
  kill_server : Srv → Srv;
  raft_of : Srv → Raft.Raft;
}.

Section config.
(** [W] and [X] are the objects and values of labrpc, [Srv] the servers. *)
Context {W X Srv : Type} `{Codec X, GroupServer Srv} (types : rtype → desc).
(** What reflection finds on the server with this number, and on its Raft object. *)
Context (svc_name : string) (server_methods raft_methods : nat → list (Method (W:=W) (V:=X))).

(** Pointers are numbers. *)
Record config := Config {
  net : Network (N:=name);
  n : nat;
  kvservers : list (option nat);
  saved : list (option nat);
  endnames : list (option (list string));
  clerks : gmap nat (list string);
  nextClientId : Z;
  maxraftstate : Z;
  start : Z;
  t0 : Z;
  rpcs0 : Z;
  ops : Z;
}.

(** The objects: a server with its ends, a persister, the arrays the persisters
    point to, the servers of labrpc, and the ends of a clerk. *)
Record world := World {
  w_cfg : config;
  w_kvservers : list (Srv * list string);
  w_persisters : list Persister.Persister;
  w_store : list (list Byte.byte);
  w_servers : list (Server (W:=W) (V:=X));
  w_clerks : list (list string);
}.

Definition set_net (x : Network) (c : config) : config :=
  Config x (n c) (kvservers c) (saved c) (endnames c) (clerks c) (nextClientId c) (maxraftstate c) (start c) (t0 c) (rpcs0 c) (ops c).
Definition set_kvservers (x : list (option nat)) (c : config) : config :=
  Config (net c) (n c) x (saved c) (endnames c) (clerks c) (nextClientId c) (maxraftstate c) (start c) (t0 c) (rpcs0 c) (ops c).
Definition set_saved (x : list (option nat)) (c : config) : config :=
  Config (net c) (n c) (kvservers c) x (endnames c) (clerks c) (nextClientId c) (maxraftstate c) (start c) (t0 c) (rpcs0 c) (ops c).
Definition set_endnames (x : list (option (list string))) (c : config) : config :=
  Config (net c) (n c) (kvservers c) (saved c) x (clerks c) (nextClientId c) (maxraftstate c) (start c) (t0 c) (rpcs0 c) (ops c).
Definition set_clerks (x : gmap nat (list string)) (id : Z) (c : config) : config :=
  Config (net c) (n c) (kvservers c) (saved c) (endnames c) x id (maxraftstate c) (start c) (t0 c) (rpcs0 c) (ops c).
Definition set_stats (now rpcs o : Z) (c : config) : config :=
  Config (net c) (n c) (kvservers c) (saved c) (endnames c) (clerks c) (nextClientId c) (maxraftstate c) (start c) now rpcs o.

Definition with_cfg (c : config) (w : world) : world :=
  World c (w_kvservers w) (w_persisters w) (w_store w) (w_servers w) (w_clerks w).

(** [sa[i], sa[j] = sa[j], sa[i]]. *)
Definition swap {A} (i j : nat) (sa : list A) : result (list A) :=
  x ← or_panic (sa !! j); y ← or_panic (sa !! i);
  sa ← write sa i x; write sa j y.

(** Randomize server handles; [draws i] is what [rand.Intn (i+1)] returns. *)
Definition random_handles {A} (draws : nat → nat) (kvh : list A) : result (list A) :=
  for_each (length kvh) (λ i sa, swap i (draws i) sa) kvh.

Definition second : Z := 10 ^ 9.

(** [failed] is [t.Failed()]. *)
Definition checkTimeout (failed : bool) (now : Z) (c : config) : result () :=
  if negb failed && (120 * second <? now - start c) then TestFatal TookTooLong else Val ().

Definition kill (s : nat) (w : world) : result world :=
  '(kv, peers) ← or_panic (w_kvservers w !! s);
  Val (World (w_cfg w) (<[s := (kill_server kv, peers)]> (w_kvservers w)) (w_persisters w) (w_store w) (w_servers w) (w_clerks w)).

Definition cleanup (failed : bool) (now : Z) (w : world) : result world :=
  w ← for_each (length (kvservers (w_cfg w))) (λ i w,
        kv ← or_panic (kvservers (w_cfg w) !! i);
        match kv with Some s => kill s w | None => Val w end) w;
  nt ← or_panic (Cleanup (net (w_cfg w)));
  let w := with_cfg (set_net nt (w_cfg w)) w in
  _ ← checkTimeout failed now (w_cfg w);
  Val w.

(** The largest of the sizes [size] of the saved persisters. *)
Definition largest (size : Persister.Persister → nat) (w : world) : result nat :=
  for_each (n (w_cfg w)) (λ i largest,
    p ← or_panic (mjoin (saved (w_cfg w) !! i));
    ps ← or_panic (w_persisters w !! p);
    Val (if decide (largest < size ps)%nat then size ps else largest)) 0%nat.

(** Maximum log size and maximum snapshot size across all servers. *)
Definition LogSize (w : world) : result nat := largest Persister.RaftStateSize w.
Definition SnapshotSize (w : world) : result nat := largest Persister.SnapshotSize w.

(** ** Connections *)

(** [cfg.net.Enable(cfg.endnames[a][b], yes)]. *)
Definition enable_end (yes : bool) (a b : nat) (c : config) : result config :=
  names ← or_panic (mjoin (endnames c !! a));
  endname ← or_panic (names !! b);
  Val (set_net (Enable (EndName endname) yes (net c)) c).

(** [for j := 0; j < len(to); j++]. *)
Definition for_all {A} (to : list nat) (body : nat → nat → A → result A) (a : A) : result A :=
  for_each (length to) (λ j a, t ← or_panic (to !! j); body j t a) a.

(** Attach server [i] to servers listed in [to]. *)
Definition connectUnlocked (i : nat) (to : list nat) (c : config) : result config :=
  c ← for_all to (λ _ t, enable_end true i t) c;
  for_all to (λ _ t, enable_end true t i) c.

Definition connect (i : nat) (to : list nat) (c : config) : result config := connectUnlocked i to c.

(** Detach server [i] from the servers listed in [from]. The second loop looks
    whether server number [j], the position in the list, has ends. *)
Definition disconnectUnlocked (i : nat) (from : list nat) (c : config) : result config :=
  c ← for_all from (λ _ t c,
        names ← or_panic (endnames c !! i);
        match names with Some _ => enable_end false i t c | None => Val c end) c;
  for_all from (λ j t c,
    names ← or_panic (endnames c !! j);
    match names with Some _ => enable_end false t i c | None => Val c end) c.

Definition disconnect (i : nat) (from : list nat) (c : config) : result config := disconnectUnlocked i from c.

Definition All (c : config) : list nat := seq 0 (n c).

Definition ConnectAll (c : config) : result config :=
  for_each (n c) (λ i c, connectUnlocked i (All c) c) c.

(** Sets up 2 partitions with connectivity between servers in each partition. *)
Definition partition (p1 p2 : list nat) (c : config) : result config :=
  c ← for_all p1 (λ _ i c, c ← disconnectUnlocked i p2 c; connectUnlocked i p1 c) c;
  for_all p2 (λ _ i c, c ← disconnectUnlocked i p1 c; connectUnlocked i p2 c) c.

(** ** Clerks *)

(** A new end; labrpc ends the program when the name is in use. *)
Definition make_end (endname : string) (server : nat) (c : config) : result config :=
  match MakeEnd (EndName endname) (net c) with
  | None => LogFatal None
  | Some nt => Val (set_net (Connect (EndName endname) (ServerName server) nt) c)
  end.

Definition enable_client (yes : bool) (ck : nat) (to : list nat) (c : config) : result config :=
  let endnames := default [] (clerks c !! ck) in
  for_all to (λ _ t c,
    s ← or_panic (endnames !! t);
    Val (set_net (Enable (EndName s) yes (net c)) c)) c.

Definition ConnectClientUnlocked (ck : nat) (to : list nat) (c : config) : result config := enable_client true ck to c.
Definition ConnectClient (ck : nat) (to : list nat) (c : config) : result config := ConnectClientUnlocked ck to c.
Definition DisconnectClientUnlocked (ck : nat) (from : list nat) (c : config) : result config := enable_client false ck from c.
Definition DisconnectClient (ck : nat) (from : list nat) (c : config) : result config := DisconnectClientUnlocked ck from c.

(** Create a clerk with clerk specific server names, and enable the connections
    to the servers in [to]. *)
Definition makeClient (names : nat → string) (draws : nat → nat) (to : list nat) (w : world) : result (nat * world) :=
  let c := w_cfg w in
  let endnames := names <$> seq 0 (n c) in
  c ← for_each (n c) (λ j, make_end (names j) j) c;
  handles ← random_handles draws endnames;
  let ck := length (w_clerks w) in
  let c := set_clerks (<[ck := endnames]> (clerks c)) (wrap_s 64 (nextClientId c + 1)) c in
  c ← ConnectClientUnlocked ck to c;
  Val (ck, World c (w_kvservers w) (w_persisters w) (w_store w) (w_servers w) (w_clerks w ++ [handles])).

(** It also removes files with the names of the ends, and there are none; the
    ends stay on the network. *)
Definition deleteClient (ck : nat) (c : config) : config := set_clerks (delete ck (clerks c)) (nextClientId c) c.

(** ** Servers *)

(** [saved[i].Copy()], when there is one. *)
Definition copy_saved (i : nat) (w : world) : result world :=
  let c := w_cfg w in
  sv ← or_panic (saved c !! i);
  match sv with
  | None => Val w
  | Some p =>
      ps ← or_panic (w_persisters w !! p);
      sv ← write (saved c) i (Some (length (w_persisters w)));
      Val (World (set_saved sv c) (w_kvservers w) (w_persisters w ++ [Persister.Copy ps]) (w_store w) (w_servers w) (w_clerks w))
  end.

(** Shutdown a server by isolating it. *)
Definition ShutdownServer (i : nat) (w : world) : result world :=
  c ← disconnectUnlocked i (All (w_cfg w)) (w_cfg w);
  let w := with_cfg (set_net (DeleteServer (ServerName i) (net c)) c) w in
  w ← copy_saved i w;
  kv ← or_panic (kvservers (w_cfg w) !! i);
  match kv with
  | None => Val w
  | Some s => w ← kill s w; kvs ← write (kvservers (w_cfg w)) i None; Val (with_cfg (set_kvservers kvs (w_cfg w)) w)
  end.

(** The persister the server is started with. *)
Definition load_saved (i : nat) (w : world) : result world :=
  sv ← or_panic (saved (w_cfg w) !! i);
  match sv with
  | Some _ => copy_saved i w
  | None =>
      sv ← write (saved (w_cfg w)) i (Some (length (w_persisters w)));
      Val (World (set_saved sv (w_cfg w)) (w_kvservers w) (w_persisters w ++ [Persister.MakePersister]) (w_store w) (w_servers w) (w_clerks w))
  end.

(** If restart servers, first call [ShutdownServer]; [names] are the random names of its ends. *)
Definition StartServer (names : nat → string) (i : nat) (w : world) : result world :=
  let c := w_cfg w in
  let es := names <$> seq 0 (n c) in
  ens ← write (endnames c) i (Some es);
  c ← for_each (n c) (λ j, make_end (names j) j) (set_endnames ens c);
  w ← load_saved i (with_cfg c w);
  let c := w_cfg w in
  let kv := start_server (length es) (Z.of_nat i) (maxraftstate c) in
  kvs ← write (kvservers c) i (Some (length (w_kvservers w)));
  let c := set_kvservers kvs c in
  let kvsvc := MakeService types svc_name (server_methods (length (w_kvservers w))) in
  let rfsvc := MakeService types "Raft" (raft_methods (length (w_kvservers w))) in
  let srv := AddService rfsvc (AddService kvsvc MakeServer) in
  let c := set_net (AddServer (ServerName i) (length (w_servers w)) (net c)) c in
  Val (World c (w_kvservers w ++ [(kv, es)]) (w_persisters w) (w_store w) (w_servers w ++ [srv]) (w_clerks w)).

(** [GetState] of server [i], which must not be nil. *)
Definition get_state (i : nat) (w : world) : result (Z * bool) :=
  s ← or_panic (mjoin (kvservers (w_cfg w) !! i));
  '(kv, _) ← or_panic (w_kvservers w !! s);
  Val (Raft.GetState (raft_of kv)).

(** The loop of [Leader] over the servers [ss]; [at_ i] is the world when server [i]
    is asked. *)
Fixpoint Leader_loop (at_ : nat → world) (ss : list nat) : result (bool * nat) :=
  match ss with
  | [] => Val (false, 0%nat)
  | i :: ss =>
      '(_, is_leader) ← get_state i (at_ i);
      if is_leader : bool then Val (true, i) else Leader_loop at_ ss
  end.

Definition Leader (at_ : nat → world) : result (bool * nat) := Leader_loop at_ (seq 0 (n (w_cfg (at_ 0%nat)))).

(** The loop of [make_partition]: server [i] goes to place [j]. *)
Definition place (l i : nat) (s : list nat * list nat * nat) : result (list nat * list nat * nat) :=
  let '(p1, p2, j) := s in
  if decide (i ≠ l) then
    if decide (j < length p1)%nat then p1 ← write p1 j i; Val (p1, p2, S j)
    else p2 ← write p2 (j - length p1) i; Val (p1, p2, S j)
  else Val s.

(** The two lists of servers when the leader is [l]; an empty second list panics. *)
Definition split_around (m l : nat) : result (list nat * list nat) :=
  let p1 := replicate (m / 2 + 1) 0%nat in
  let p2 := replicate (m / 2) 0%nat in
  '(p1, p2, _) ← for_each m (place l) (p1, p2, 0%nat);
  if decide (length p2 = 0)%nat then Panic
  else p2 ← write p2 (length p2 - 1) l; Val (p1, p2).

(** Partition servers into 2 groups and put current leader in minority. *)
Definition make_partition (at_ : nat → world) : result (list nat * list nat) :=
  '(_, l) ← Leader at_;
  split_around (n (w_cfg (at_ 0%nat))) l.

(** [names i j] is the name of the end of server [i] that sends to [j]. *)
Definition make_config (now : Z) (m : nat) (unreliable : bool) (maxraftstate : Z) (names : nat → nat → string) : result world :=
  let c := Config MakeNetwork m (replicate m None) (replicate m None) (replicate m None) ∅
             (wrap_s 64 (Z.of_nat m + 1000)) maxraftstate now 0 0 0 in
  w ← for_each m (λ i w, StartServer (names i) i w) (World c [] [] [] [] []);
  c ← ConnectAll (w_cfg w);
  Val (with_cfg (set_net (Reliable (negb unreliable) (net c)) c) w).

(** ** The end of a test *)

Definition rpcTotal (c : config) : Z := GetTotalCount (net c).
Definition begin (now : Z) (c : config) : config := set_stats now (rpcTotal c) 0 c.
Definition op (c : config) : config := set_stats (t0 c) (rpcs0 c) (wrap_s 32 (ops c + 1)) c.

(** What [end] prints: the time, the number of servers, the calls and the operations. *)
Definition end_ (failed : bool) (now : Z) (c : config) : result (option (Z * nat * Z * Z)) :=
  _ ← checkTimeout failed now c;
  Val (if Bool.eqb failed false then Some (now - t0 c, n c, wrap_s 64 (rpcTotal c - rpcs0 c), ops c) else None).

End config.

(** The servers of [kvraft]. *)
#[global] Instance kvraft_server : GroupServer KvRaft.KvRaft.KVServer := {|
  start_server := KvRaft.KvRaft.StartKVServer;
  kill_server := KvRaft.KvRaft.Kill;
  raft_of := KvRaft.KvRaft.rf;
|}.

End GroupConfig.
