(* ===== verification/GroupLinks.v ===== *)
(** * Who can reach whom in the tests of a replicated service

    Connections, partitions, clerks, shutdowns and restarts of
    [src/6.5840/src/kvraft/config.go] change ends of the simulated network by their
    random names. Seen from outside they are operations on links: from server to
    server and from clerk to server. *)
From S2P Require Import Prelude LabGob LabRpc Persister Raft RaftConfig RaftWiring GroupConfig.
Import LabGob LabRpc.
Import RaftConfig (NoFuel, Panic, LogFatal, TestFatal, Val, result_ret, result_bind, or_panic, for_each, write).
Import RaftWiring (enable_all, enable_all_enabled, enable_all_others, enable_all_app, new_ends, new_ends_S, write_ok).
Import GroupConfig.
Local Open Scope Z_scope.

Module GroupLinks.

(** ** Links *)

(** From server [a], or from clerk [ck], to server [b]. *)
Inductive slot := Peer (a b : nat) | Client (ck b : nat).

#[global] Instance slot_eq_dec : EqDecision slot.
Proof. solve_decision. Defined.

Definition slot_to (s : slot) : nat := match s with Peer _ b | Client _ b => b end.

Definition links := slot → bool.

Definition set_links (yes : bool) (ss : list slot) (lk : links) : links := λ s, if decide (s ∈ ss) then yes else lk s.

(** The links between a server and some servers, in both directions. *)
Definition around (i : nat) (to : list nat) : list slot := (Peer i <$> to) ++ ((λ t, Peer t i) <$> to).

Lemma around_Peer i to a b : Peer a b ∈ around i to ↔ (a = i ∧ b ∈ to) ∨ (b = i ∧ a ∈ to).
Proof.
  unfold around. rewrite elem_of_app, !list_elem_of_fmap. split.
  - intros [(x & [= -> ->] & ?)|(x & [= -> ->] & ?)]; auto.
  - intros [[-> ?]|[-> ?]]; [left|right]; eauto.
Qed.

Lemma around_Client i to ck b : Client ck b ∉ around i to.
Proof. unfold around. rewrite elem_of_app, !list_elem_of_fmap. by intros [(? & [=] & _)|(? & [=] & _)]. Qed.

(** The servers of the list [ps] leave those of [q] and join those of [p]. *)
Definition join_part (p q ps : list nat) (lk : links) : links :=
  foldl (λ lk i, set_links true (around i p) (set_links false (around i q) lk)) lk ps.

Definition split_links (p1 p2 : list nat) (lk : links) : links := join_part p2 p1 p2 (join_part p1 p2 p1 lk).

(** What the tester does, seen as operations on links, on the servers that run and
    on the number of clerks made. *)
Record spec := Spec { sp_links : links; sp_up : nat → bool; sp_next : nat }.

Inductive op :=
| OConnect (i : nat) (to : list nat)
| ODisconnect (i : nat) (from : list nat)
| OConnectAll
| OPartition (p1 p2 : list nat)
| OMakeClient (names : nat → string) (draws : nat → nat) (to : list nat)
| ODeleteClient (ck : nat)
| OConnectClient (ck : nat) (to : list nat)
| ODisconnectClient (ck : nat) (from : list nat)
| OShutdown (i : nat)
| OStart (names : nat → string) (i : nat).

Definition up (i : nat) (b : bool) (sp : spec) : nat → bool := λ j, if decide (j = i) then b else sp_up sp j.

Definition only (lk : links) (sp : spec) : spec := Spec lk (sp_up sp) (sp_next sp).

(** [m] servers. *)
Definition spec_step (m : nat) (sp : spec) (o : op) : spec :=
  let lk := sp_links sp in
  match o with
  | OConnect i to => only (set_links true (around i to) lk) sp
  | ODisconnect i from => only (set_links false (around i from) lk) sp
  | OConnectAll => only (foldl (λ lk i, set_links true (around i (seq 0 m)) lk) lk (seq 0 m)) sp
  | OPartition p1 p2 => only (split_links p1 p2 lk) sp
  | OMakeClient _ _ to =>
      let ck := sp_next sp in
      Spec (set_links true (Client ck <$> to) (set_links false (Client ck <$> seq 0 m) lk)) (sp_up sp) (S ck)
  | ODeleteClient _ => sp
  | OConnectClient ck to => only (set_links true (Client ck <$> to) lk) sp
  | ODisconnectClient ck from => only (set_links false (Client ck <$> from) lk) sp
  | OShutdown i => Spec (set_links false (around i (seq 0 m)) lk) (up i false sp) (sp_next sp)
  | OStart _ i => Spec (set_links false (Peer i <$> seq 0 m) lk) (up i true sp) (sp_next sp)
  end.

Definition spec_run (m : nat) (sp : spec) (os : list op) : spec := foldl (spec_step m) sp os.

(** All servers run and reach each other; there is no clerk. *)
Definition spec_init (m : nat) : spec :=
  Spec (λ s, match s with Peer a b => bool_decide (a < m ∧ b < m)%nat | Client _ _ => false end) (λ i, bool_decide (i < m)%nat) 0.

Section group.
Context {W X Srv : Type} `{Codec X, GroupServer Srv} (types : rtype → desc).
Context (svc_name : string) (server_methods raft_methods : nat → list (Method (W:=W) (V:=X))).
Abbreviation world := (world (W:=W) (X:=X) (Srv:=Srv)).
Abbreviation StartServer := (StartServer types svc_name server_methods raft_methods).
Abbreviation make_config := (make_config types svc_name server_methods raft_methods).
Implicit Types (c : config) (w : world) (i j : nat) (lk : links).

Definition run_op w (o : op) : result world :=
  match o with
  | OConnect i to => c ← connect i to (w_cfg w); Val (with_cfg c w)
  | ODisconnect i from => c ← disconnect i from (w_cfg w); Val (with_cfg c w)
  | OConnectAll => c ← ConnectAll (w_cfg w); Val (with_cfg c w)
  | OPartition p1 p2 => c ← partition p1 p2 (w_cfg w); Val (with_cfg c w)
  | OMakeClient names draws to => '(_, w) ← makeClient names draws to w; Val w
  | ODeleteClient ck => Val (with_cfg (deleteClient ck (w_cfg w)) w)
  | OConnectClient ck to => c ← ConnectClient ck to (w_cfg w); Val (with_cfg c w)
  | ODisconnectClient ck from => c ← DisconnectClient ck from (w_cfg w); Val (with_cfg c w)
  | OShutdown i => ShutdownServer i w
  | OStart names i => StartServer names i w
  end.

Fixpoint run_ops w (os : list op) : result world :=
  match os with
  | [] => Val w
  | o :: os => w ← run_op w o; run_ops w os
  end.

(** ** The ends of the links *)

Definition slot_name c (s : slot) : option string :=
  match s with
  | Peer a b => names ← mjoin (endnames c !! a); names !! b
  | Client ck b => names ← clerks c !! ck; names !! b
  end.

Record wired c (next : nat) lk : Prop := Wired {
  wi_names a names : endnames c !! a = Some (Some names) → length names = n c;
  wi_clerks ck names : clerks c !! ck = Some names → length names = n c ∧ (ck < next)%nat;
  wi_inj s s' e : slot_name c s = Some e → slot_name c s' = Some e → s = s';
  wi_ends s e : slot_name c s = Some e →
    EndName e ∈ ends (net c) ∧ read (connections (net c)) (EndName e) = Some (ServerName (slot_to s)) ∧
    enabled (net c) !! EndName e = Some (lk s);
  wi_length : length (endnames c) = n c;
}.

(** Every server has been started. *)
Definition started c : Prop := ∀ a, (a < n c)%nat → ∃ names, endnames c !! a = Some (Some names).

Definition slot_ends c (ss : list slot) : list name := omap (λ s, EndName <$> slot_name c s) ss.

Lemma slot_ends_elem c next lk s e ss :
  wired c next lk → slot_name c s = Some e → EndName e ∈ slot_ends c ss ↔ s ∈ ss.
Proof.
  intros HW He. unfold slot_ends. rewrite list_elem_of_omap. split.
  - intros (s' & Hs & Hn). destruct (slot_name c s') as [e'|] eqn:E; [|done]. injection Hn as ->.
    by rewrite (wi_inj _ _ _ HW s s' e He E).
  - intros Hs. exists s. by rewrite He.
Qed.

Lemma group_wired_enable c next lk b ss :
  wired c next lk → wired (set_net (enable_all b (slot_ends c ss) (net c)) c) next (set_links b ss lk).
Proof.
  intros HW. destruct (enable_all_others b (slot_ends c ss) (net c)) as (E1 & E2 & _).
  pose proof HW as [H1 H2 H3 H4 H5]. split; try done.
  intros s e He. change (slot_name c s = Some e) in He. destruct (H4 s e He) as (G1 & G2 & G3). simpl. rewrite E1, E2.
  split_and!; [done..|]. rewrite enable_all_enabled, G3. unfold set_links.
  destruct (decide (EndName e ∈ _)) as [Hin|Hin]; [rewrite decide_True|rewrite decide_False]; try done;
    by rewrite <- (slot_ends_elem c next lk s e ss HW He).
Qed.

Lemma group_set_net_twice c nt nt' : set_net nt' (set_net nt c) = set_net nt' c.
Proof. done. Qed.

Lemma group_set_net_same c : set_net (net c) c = c.
Proof. by destruct c. Qed.

Lemma group_for_each_S {A} m (body : nat → A → result A) a : for_each (S m) body a = x ← for_each m body a; body m x.
Proof. unfold for_each. by rewrite seq_S, foldl_app. Qed.

Lemma for_each_ext {A} m (body body' : nat → A → result A) a :
  (∀ j a, (j < m)%nat → body j a = body' j a) → for_each m body a = for_each m body' a.
Proof.
  induction m as [|m IH]; intros Hb; [done|]. rewrite !group_for_each_S, IH by (intros; apply Hb; lia).
  destruct (for_each m body' a); try done. simpl. apply Hb. lia.
Qed.

Lemma for_all_snoc {A} (to : list nat) t (body : nat → nat → A → result A) a :
  for_all (to ++ [t]) body a = x ← for_all to body a; body (length to) t x.
Proof.
  unfold for_all. rewrite length_app, Nat.add_1_r, group_for_each_S.
  rewrite (for_each_ext (length to) _ (λ j a, t ← or_panic (to !! j); body j t a)).
  - destruct (for_each _ _ _); try done. simpl. by rewrite lookup_app_r, Nat.sub_diag by lia.
  - intros j x Hj. by rewrite lookup_app_l.
Qed.

(** A loop over servers that enables or disables the ends of the links [es t]. *)
Lemma for_all_enable c b (to : list nat) (body : nat → nat → config → result config) (es : nat → slot) nt :
  (∀ j t nt, to !! j = Some t → body j t (set_net nt c) = Val (set_net (enable_all b (slot_ends c [es t]) nt) c)) →
  for_all to body (set_net nt c) = Val (set_net (enable_all b (slot_ends c (es <$> to)) nt) c).
Proof.
  induction to as [|t to IH] using rev_ind; intros Hb; [done|].
  rewrite for_all_snoc, IH by (intros; apply Hb; by apply lookup_app_l_Some). cbn [mbind result_bind].
  rewrite Hb by (by apply list_lookup_middle). rewrite enable_all_app. unfold slot_ends.
  by rewrite fmap_app, omap_app.
Qed.

Lemma enable_end_eq c b a t names e nt :
  endnames c !! a = Some (Some names) → names !! t = Some e →
  enable_end b a t (set_net nt c) = Val (set_net (enable_all b (slot_ends c [Peer a t]) nt) c).
Proof.
  intros Ha He. unfold enable_end, slot_ends. cbn [endnames set_net omap list_omap slot_name]. rewrite Ha.
  cbn [mjoin option_join or_panic mbind result_bind option_bind]. by rewrite He.
Qed.

Lemma started_end c next lk a b :
  wired c next lk → started c → (a < n c)%nat → (b < n c)%nat →
  ∃ names e, endnames c !! a = Some (Some names) ∧ names !! b = Some e.
Proof.
  intros HW HS Ha Hb. destruct (HS a Ha) as [names Hn]. exists names.
  destruct (lookup_lt_is_Some_2 names b) as [e He]; [by rewrite (wi_names _ _ _ HW a names Hn)|]. by exists e.
Qed.

(** Numbers of servers, each at most once. *)
Definition servers_of c (l : list nat) : Prop := NoDup l ∧ Forall (λ t, (t < n c)%nat) l.

Lemma servers_lt c l t : servers_of c l → t ∈ l → (t < n c)%nat.
Proof. intros [_ Hf] Ht. by rewrite Forall_forall in Hf; apply Hf. Qed.

Lemma servers_length c l : servers_of c l → (length l ≤ n c)%nat.
Proof.
  intros [Hnd Hf]. rewrite <- (length_seq (n c) 0). apply submseteq_length, NoDup_submseteq; [done|].
  intros t Ht. rewrite Forall_forall in Hf. specialize (Hf t Ht). apply elem_of_seq. lia.
Qed.

Lemma group_connect_eq c next lk i to :
  wired c next lk → started c → (i < n c)%nat → servers_of c to →
  connectUnlocked i to c = Val (set_net (enable_all true (slot_ends c (around i to)) (net c)) c).
Proof.
  intros HW HS Hi Hto. unfold connectUnlocked, around. rewrite <- (group_set_net_same c) at 1.
  rewrite (for_all_enable c true to _ (Peer i)).
  - cbn [mbind result_bind]. rewrite (for_all_enable c true to _ (λ t, Peer t i)).
    + rewrite enable_all_app. unfold slot_ends. by rewrite omap_app.
    + intros j t nt Ht%list_elem_of_lookup_2. destruct (started_end c next lk t i HW HS) as (names & e & H1 & H2);
        [by apply (servers_lt c to)|done|]. by apply (enable_end_eq c true t i names e).
  - intros j t nt Ht%list_elem_of_lookup_2. destruct (started_end c next lk i t HW HS) as (names & e & H1 & H2);
      [done|by apply (servers_lt c to)|]. by apply (enable_end_eq c true i t names e).
Qed.

Lemma group_disconnect_eq c next lk i from :
  wired c next lk → started c → (i < n c)%nat → servers_of c from →
  disconnectUnlocked i from c = Val (set_net (enable_all false (slot_ends c (around i from)) (net c)) c).
Proof.
  intros HW HS Hi Hto. unfold disconnectUnlocked, around. rewrite <- (group_set_net_same c) at 1.
  rewrite (for_all_enable c false from _ (Peer i)).
  - cbn [mbind result_bind]. rewrite (for_all_enable c false from _ (λ t, Peer t i)).
    + rewrite enable_all_app. unfold slot_ends. by rewrite omap_app.
    + intros j t nt Ht. assert (Hj : (j < n c)%nat) by (apply lookup_lt_Some in Ht; pose proof (servers_length c from Hto); lia).
      apply list_elem_of_lookup_2 in Ht. cbn [endnames set_net]. destruct (HS j Hj) as [nj ->].
      cbn [or_panic mbind result_bind]. destruct (started_end c next lk t i HW HS) as (names & e & H1 & H2);
        [by apply (servers_lt c from)|done|]. by apply (enable_end_eq c false t i names e).
  - intros j t nt Ht%list_elem_of_lookup_2. cbn [endnames set_net]. destruct (HS i Hi) as [ni Hni]. rewrite Hni.
    cbn [or_panic mbind result_bind]. destruct (started_end c next lk i t HW HS) as (names & e & H1 & H2);
      [done|by apply (servers_lt c from)|]. by apply (enable_end_eq c false i t names e).
Qed.

(** ** Operations on connections *)

(** Only the network changed, and not its servers. *)
Definition rewired c c' : Prop := ∃ nt, c' = set_net nt c ∧ servers nt = servers (net c).

Lemma rewired_refl c : rewired c c.
Proof. exists (net c). split; [by rewrite group_set_net_same|done]. Qed.

Lemma rewired_trans c1 c2 c3 : rewired c1 c2 → rewired c2 c3 → rewired c1 c3.
Proof. intros (nt & -> & E) (nt' & -> & E'). exists nt'. split; [done|]. simpl in E'. congruence. Qed.

Lemma rewired_started c c' : rewired c c' → started c → started c'.
Proof. by intros (nt & -> & _). Qed.

Lemma rewired_servers_of c c' l : rewired c c' → servers_of c l → servers_of c' l.
Proof. by intros (nt & -> & _). Qed.

Lemma rewired_enable c b ss : rewired c (set_net (enable_all b ss (net c)) c).
Proof. exists (enable_all b ss (net c)). split; [done|]. apply enable_all_others. Qed.

Lemma wired_ext c next lk lk' : (∀ s, lk s = lk' s) → wired c next lk → wired c next lk'.
Proof.
  intros E [H1 H2 H3 H4 H5]. split; try done. intros s e He. rewrite <- E. by apply H4.
Qed.

Lemma group_wired_connect c next lk i to : wired c next lk → started c → (i < n c)%nat → servers_of c to →
  ∃ c', connectUnlocked i to c = Val c' ∧ wired c' next (set_links true (around i to) lk) ∧ rewired c c'.
Proof.
  intros HW HS Hi Hto. eexists. split; [by eapply group_connect_eq|]. split; [by apply group_wired_enable|apply rewired_enable].
Qed.

Lemma group_wired_disconnect c next lk i from : wired c next lk → started c → (i < n c)%nat → servers_of c from →
  ∃ c', disconnectUnlocked i from c = Val c' ∧ wired c' next (set_links false (around i from) lk) ∧ rewired c c'.
Proof.
  intros HW HS Hi Hto. eexists. split; [by eapply group_disconnect_eq|]. split; [by apply group_wired_enable|apply rewired_enable].
Qed.

(** A loop whose turns change links. *)
Lemma for_all_wired (ps : list nat) (body : nat → nat → config → result config) (f : nat → links → links) c next lk :
  (∀ j t c' lk', ps !! j = Some t → rewired c c' → wired c' next lk' →
     ∃ c'', body j t c' = Val c'' ∧ wired c'' next (f t lk') ∧ rewired c' c'') →
  wired c next lk →
  ∃ c', for_all ps body c = Val c' ∧ wired c' next (foldl (λ lk t, f t lk) lk ps) ∧ rewired c c'.
Proof.
  induction ps as [|t ps IH] using rev_ind; intros Hb HW; [exists c; split; [done|]; split; [done|apply rewired_refl]|].
  destruct IH as (c1 & E1 & HW1 & R1); [intros; eapply Hb; [by apply lookup_app_l_Some|done..]|done|].
  destruct (Hb (length ps) t c1 _ (list_lookup_middle _ _ _ _ eq_refl) R1 HW1) as (c2 & E2 & HW2 & R2).
  exists c2. rewrite for_all_snoc, E1, foldl_app. split; [done|]. split; [done|by eapply rewired_trans].
Qed.

Lemma for_each_for_all {A} m (body : nat → A → result A) a : for_each m body a = for_all (seq 0 m) (λ _ t, body t) a.
Proof.
  unfold for_all. rewrite length_seq. apply for_each_ext. intros j x Hj. by rewrite lookup_seq_lt.
Qed.

Lemma all_servers c : servers_of c (seq 0 (n c)).
Proof. split; [apply NoDup_seq|]. apply Forall_forall. intros t Ht%elem_of_seq. lia. Qed.

Lemma wired_ConnectAll c next lk : wired c next lk → started c →
  ∃ c', ConnectAll c = Val c' ∧
    wired c' next (foldl (λ lk i, set_links true (around i (seq 0 (n c))) lk) lk (seq 0 (n c))) ∧ rewired c c'.
Proof.
  intros HW HS. unfold ConnectAll. rewrite for_each_for_all.
  apply (for_all_wired _ _ (λ i lk, set_links true (around i (seq 0 (n c))) lk)); [|done].
  intros j t c' lk' Ht Hr HW'. apply list_elem_of_lookup_2, elem_of_seq in Ht. destruct Hr as (nt & -> & Hs).
  apply (group_wired_connect (set_net nt c) next lk' t (seq 0 (n c)) HW' HS); [simpl; lia|apply (all_servers c)].
Qed.

Lemma wired_partition c next lk p1 p2 : wired c next lk → started c → servers_of c p1 → servers_of c p2 →
  ∃ c', partition p1 p2 c = Val c' ∧ wired c' next (split_links p1 p2 lk) ∧ rewired c c'.
Proof.
  intros HW HS H1 H2. unfold partition, split_links.
  assert (Hpart : ∀ p q c lk, wired c next lk → started c → servers_of c p → servers_of c q →
    ∃ c', for_all p (λ _ i c, c ← disconnectUnlocked i q c; connectUnlocked i p c) c = Val c' ∧
      wired c' next (join_part p q p lk) ∧ rewired c c').
  { clear. intros p q c lk HW HS Hp Hq. unfold join_part.
    apply (for_all_wired p _ (λ i lk, set_links true (around i p) (set_links false (around i q) lk))); [|done].
    intros j t c' lk' Ht%list_elem_of_lookup_2 Hr HW'.
    assert (Hlt : (t < n c')%nat) by (by apply (servers_lt c' p); [eapply rewired_servers_of|]).
    pose proof (rewired_started c c' Hr HS) as HS'.
    destruct (group_wired_disconnect c' next lk' t q HW' HS' Hlt (rewired_servers_of c c' q Hr Hq)) as (c1 & E1 & HW1 & R1).
    destruct (group_wired_connect c1 next _ t p HW1 (rewired_started c' c1 R1 HS')) as (c2 & E2 & HW2 & R2).
    - by destruct R1 as (nt & -> & _).
    - apply (rewired_servers_of c' c1 p R1), (rewired_servers_of c c' p Hr Hp).
    - exists c2. rewrite E1. split; [done|]. split; [done|by eapply rewired_trans]. }
  destruct (Hpart p1 p2 c lk HW HS H1 H2) as (c1 & E1 & HW1 & R1). rewrite E1. cbn [mbind result_bind].
  destruct (Hpart p2 p1 c1 _ HW1 (rewired_started c c1 R1 HS) (rewired_servers_of c c1 p2 R1 H2) (rewired_servers_of c c1 p1 R1 H1))
    as (c2 & E2 & HW2 & R2).
  exists c2. split; [done|]. split; [done|by eapply rewired_trans].
Qed.

Lemma wired_enable_client c next lk b ck to names : wired c next lk → clerks c !! ck = Some names → servers_of c to →
  ∃ c', enable_client b ck to c = Val c' ∧ wired c' next (set_links b (Client ck <$> to) lk) ∧ rewired c c'.
Proof.
  intros HW Hck Hto. unfold enable_client. replace (default [] (clerks c !! ck)) with names by by rewrite Hck.
  eexists. split; [|split; [by apply (group_wired_enable c next lk b (Client ck <$> to))|apply rewired_enable]].
  rewrite <- (group_set_net_same c) at 1. apply (for_all_enable c b to _ (Client ck)).
  intros j t nt Ht%list_elem_of_lookup_2. pose proof (servers_lt c to t Hto Ht) as Hlt.
  destruct (wi_clerks _ _ _ HW ck names Hck) as [Hlen _].
  destruct (lookup_lt_is_Some_2 names t) as [e He]; [lia|]. rewrite He. cbn [or_panic mbind result_bind].
  unfold slot_ends. cbn [omap list_omap slot_name]. rewrite Hck. cbn [mbind option_bind]. by rewrite He.
Qed.

(** ** New ends *)

Lemma group_make_ends_ok (names : nat → string) m c :
  (∃ nt, for_each m (λ j, make_end (names j) j) c = Val (set_net nt c) ∧ new_ends m names (net c) nt) ∨
  for_each m (λ j, make_end (names j) j) c = LogFatal None.
Proof.
  induction m as [|m IH].
  { left. exists (net c). split; [by rewrite group_set_net_same|]. split; try done; try lia. intros e. split; [by left|]. intros [?|(j & ? & _)]; [done|lia]. }
  rewrite group_for_each_S. destruct IH as [(nt & -> & Hne)| ->]; [|by right]. cbn [mbind result_bind].
  unfold make_end. cbn [set_net net]. destruct (MakeEnd (EndName (names m)) nt) as [nt'|] eqn:E; [left|by right].
  eexists. split; [done|]. by eapply new_ends_S.
Qed.

(** The links [mk b] got the new names. *)
Lemma new_slots c c' next lk names nt (mk : nat → slot) :
  wired c next lk → new_ends (n c) names (net c) nt → net c' = nt → (∀ b, slot_to (mk b) = b) →
  (∀ s e, slot_name c' s = Some e →
     (∃ b, (b < n c)%nat ∧ s = mk b ∧ e = names b) ∨ ((∀ b, (b < n c)%nat → s ≠ mk b) ∧ slot_name c s = Some e)) →
  (∀ s s' e, slot_name c' s = Some e → slot_name c' s' = Some e → s = s') ∧
  (∀ s e, slot_name c' s = Some e →
    EndName e ∈ ends nt ∧ read (connections nt) (EndName e) = Some (ServerName (slot_to s)) ∧
    enabled nt !! EndName e = Some (set_links false (mk <$> seq 0 (n c)) lk s)).
Proof.
  intros HW HN Hnt Hto Hnew.
  assert (Hold : ∀ s e, slot_name c s = Some e → EndName e ∈ ends (net c)) by (intros s e He; by apply (wi_ends _ _ _ HW s e He)).
  split.
  - intros s s' e Hs Hs'. destruct (Hnew s e Hs) as [(b & Hb & -> & ->)|[_ H1]], (Hnew s' _ Hs') as [(b' & Hb' & -> & E)|[_ H2]].
    + by rewrite (RaftWiring.ne_inj _ _ _ _ HN b b' Hb Hb' E).
    + by destruct (RaftWiring.ne_fresh _ _ _ _ HN b Hb); eapply Hold.
    + subst. by destruct (RaftWiring.ne_fresh _ _ _ _ HN b' Hb'); eapply Hold.
    + by apply (wi_inj _ _ _ HW s s' e).
  - intros s e Hs. unfold set_links. destruct (Hnew s e Hs) as [(b & Hb & -> & ->)|[Hne H1]].
    + rewrite Hto, decide_True by (apply list_elem_of_fmap_2, elem_of_seq; lia). split_and!.
      * apply (RaftWiring.ne_ends _ _ _ _ HN). right. by exists b.
      * by apply (RaftWiring.ne_connections _ _ _ _ HN).
      * by apply (RaftWiring.ne_enabled _ _ _ _ HN).
    + destruct (wi_ends _ _ _ HW s e H1) as (G1 & G2 & G3).
      destruct (RaftWiring.ne_old _ _ _ _ HN (EndName e)) as [E1 E2].
      { intros j Hj [= ->]. by destruct (RaftWiring.ne_fresh _ _ _ _ HN j Hj). }
      rewrite decide_False; [rewrite E1, E2; split_and!; [|done|done]; apply (RaftWiring.ne_ends _ _ _ _ HN); by left|].
      intros (b & -> & Hb%elem_of_seq)%list_elem_of_fmap. by destruct (Hne b); [lia|].
Qed.

Lemma group_names_lookup (names : nat → string) m b e : (names <$> seq 0 m) !! b = Some e ↔ (b < m)%nat ∧ e = names b.
Proof.
  rewrite list_lookup_fmap. split.
  - intros (x & [-> Hj]%lookup_seq & ->)%fmap_Some. done.
  - intros [Hb ->]. by rewrite lookup_seq_lt.
Qed.

Definition restarted (names : nat → string) nt i c : config :=
  set_net nt (set_endnames (<[i := Some (names <$> seq 0 (n c))]> (endnames c)) c).

Lemma wired_restarted c next lk names nt i :
  wired c next lk → (i < n c)%nat → new_ends (n c) names (net c) nt →
  wired (restarted names nt i c) next (set_links false (Peer i <$> seq 0 (n c)) lk).
Proof.
  intros HW Hi HN. assert (Hlt : (i < length (endnames c))%nat) by by rewrite (wi_length _ _ _ HW).
  destruct (new_slots c (restarted names nt i c) next lk names nt (Peer i) HW HN eq_refl) as [H1 H2].
  - done.
  - intros s e. destruct s as [a b|ck b]; [|intros He; right; done]. simpl.
    destruct (decide (a = i)) as [->|Hne].
    + rewrite list_lookup_insert_eq by done. simpl. intros [Hb ->]%group_names_lookup. left. by exists b.
    + rewrite list_lookup_insert_ne by done. intros He. right. split; [congruence|done].
  - split; try done.
    + intros a ns. simpl. destruct (decide (a = i)) as [->|Hne].
      * rewrite list_lookup_insert_eq by done. intros [= <-]. by rewrite length_fmap, length_seq.
      * rewrite list_lookup_insert_ne by done. apply (wi_names _ _ _ HW).
    + apply (wi_clerks _ _ _ HW).
    + simpl. by rewrite length_insert, (wi_length _ _ _ HW).
Qed.

Definition with_client (names : nat → string) nt ck id c : config :=
  set_clerks (<[ck := names <$> seq 0 (n c)]> (clerks c)) id (set_net nt c).

Lemma wired_client c next lk names nt id :
  wired c next lk → new_ends (n c) names (net c) nt →
  wired (with_client names nt next id c) (S next) (set_links false (Client next <$> seq 0 (n c)) lk).
Proof.
  intros HW HN.
  destruct (new_slots c (with_client names nt next id c) next lk names nt (Client next) HW HN eq_refl) as [H1 H2].
  - done.
  - intros s e. destruct s as [a b|ck b]; [intros He; right; done|]. simpl. rewrite lookup_insert. case_decide as E.
    + subst ck. simpl. intros [Hb ->]%group_names_lookup. left. by exists b.
    + intros He. right. split; [congruence|done].
  - split; try done.
    + apply (wi_names _ _ _ HW).
    + intros ck ns. simpl. rewrite lookup_insert. case_decide as E.
      * intros [= <-]. rewrite length_fmap, length_seq. split; [done|lia].
      * intros Hns. destruct (wi_clerks _ _ _ HW ck ns Hns). split; [done|lia].
    + apply (wi_length _ _ _ HW).
Qed.

Lemma wired_forget c next lk ck id : wired c next lk → wired (set_clerks (delete ck (clerks c)) id c) next lk.
Proof.
  intros HW. assert (Hn : ∀ s e, slot_name (set_clerks (delete ck (clerks c)) id c) s = Some e → slot_name c s = Some e).
  { intros [a b|ck' b] e; [done|]. simpl. rewrite lookup_delete. by case_decide. }
  split; simpl.
  - apply (wi_names _ _ _ HW).
  - intros ck' ns [_ Hns]%lookup_delete_Some. by apply (wi_clerks _ _ _ HW).
  - intros s s' e Hs%Hn Hs'%Hn. by apply (wi_inj _ _ _ HW s s' e).
  - intros s e Hs%Hn. by apply (wi_ends _ _ _ HW).
  - apply (wi_length _ _ _ HW).
Qed.

End group.
End GroupLinks.
