(* ===== verification/GroupRuns.v ===== *)
(** * The tests of a replicated service, as operations on links

    Every operation of the tester of [src/6.5840/src/kvraft/config.go], on every
    world the tests can reach, does to the simulated network what the operations of
    [GroupLinks] do to links, and does not fail unless a random name is drawn
    twice. What a partition does, and which two lists [make_partition] makes. *)
From S2P Require Import Prelude LabGob LabRpc Persister Raft RaftConfig RaftWiring GroupConfig GroupLinks.
From S2P Require KvRaft.
Import LabGob LabRpc.
Import RaftConfig (NoFuel, Panic, LogFatal, TestFatal, Val, result_ret, result_bind, or_panic, for_each, write).
Import RaftWiring (new_ends, write_ok).
Import GroupConfig GroupLinks.
Local Open Scope Z_scope.

Module GroupRuns.

Section runs.
Context {W X Srv : Type} `{Codec X, GroupServer Srv} (types : rtype → desc).
Context (svc_name : string) (server_methods raft_methods : nat → list (Method (W:=W) (V:=X))).
Abbreviation world := (world (W:=W) (X:=X) (Srv:=Srv)).
Abbreviation StartServer := (StartServer types svc_name server_methods raft_methods).
Abbreviation make_config := (make_config types svc_name server_methods raft_methods).
Abbreviation run_op := (run_op types svc_name server_methods raft_methods).
Abbreviation run_ops := (run_ops types svc_name server_methods raft_methods).
Implicit Types (c : config) (w : world) (i j : nat) (sp : spec).

(** Tests name servers and clerks that exist, a server at most once in a list. *)
Definition allowed w (o : op) : Prop :=
  let c := w_cfg w in
  match o with
  | OConnect i to | ODisconnect i to => (i < n c)%nat ∧ servers_of c to
  | OConnectAll => True
  | OPartition p1 p2 => servers_of c p1 ∧ servers_of c p2
  | OMakeClient _ draws to => servers_of c to ∧ ∀ i, (draws i ≤ i)%nat
  | ODeleteClient ck => True
  | OConnectClient ck to | ODisconnectClient ck to => is_Some (clerks c !! ck) ∧ servers_of c to
  | OShutdown i | OStart _ i => (i < n c)%nat
  end.

Fixpoint all_allowed w (os : list op) : Prop :=
  match os with
  | [] => True
  | o :: os => allowed w o ∧ ∀ w', run_op w o = Val w' → all_allowed w' os
  end.

(** ** The invariant *)

(** The services of the labrpc server in front of server object [p]. *)
Definition group_services (p : nat) : gmap string (Service (W:=W) (V:=X)) :=
  services (AddService (MakeService types "Raft" (raft_methods p))
             (AddService (MakeService types svc_name (server_methods p)) MakeServer)).

Record grouped w sp : Prop := Grouped {
  gr_wired : wired (w_cfg w) (sp_next sp) (sp_links sp);
  gr_next : sp_next sp = length (w_clerks w);
  gr_kvservers : length (kvservers (w_cfg w)) = n (w_cfg w);
  gr_saveds : length (saved (w_cfg w)) = n (w_cfg w);
  gr_saved i p : saved (w_cfg w) !! i = Some (Some p) → (p < length (w_persisters w))%nat;
  gr_up i p : kvservers (w_cfg w) !! i = Some (Some p) →
    sp_up sp i = true ∧ (p < length (w_kvservers w))%nat ∧
    ∃ o srv, read (servers (net (w_cfg w))) (ServerName i) = Some o ∧ w_servers w !! o = Some srv ∧ services srv = group_services p;
  gr_down i : kvservers (w_cfg w) !! i = Some None → sp_up sp i = false ∧ read (servers (net (w_cfg w))) (ServerName i) = None;
}.

Lemma grouped_rewired w c' sp lk' :
  grouped w sp → rewired (w_cfg w) c' → wired c' (sp_next sp) lk' → grouped (with_cfg c' w) (only lk' sp).
Proof.
  intros [HW Hnx Hk Hs Hsv Hup Hdn] (nt & -> & E) HW'. split; try done; simpl.
  - intros i p. rewrite E. apply Hup.
  - intros i. rewrite E. apply Hdn.
Qed.

(** ** Servers *)

Lemma group_copy_saved_ok i w :
  (i < length (saved (w_cfg w)))%nat → (∀ i p, saved (w_cfg w) !! i = Some (Some p) → (p < length (w_persisters w))%nat) →
  ∃ sv ps, copy_saved i w = Val (World (set_saved sv (w_cfg w)) (w_kvservers w) (w_persisters w ++ ps) (w_store w) (w_servers w) (w_clerks w)) ∧
    length sv = length (saved (w_cfg w)) ∧ ∀ i p, sv !! i = Some (Some p) → (p < length (w_persisters w ++ ps))%nat.
Proof.
  intros Hi Hp. unfold copy_saved. destruct (lookup_lt_is_Some_2 _ _ Hi) as [[p|] E]; rewrite E; cbn [or_panic mbind result_bind].
  - destruct (lookup_lt_is_Some_2 _ _ (Hp i p E)) as [ps ->]. cbn [or_panic mbind result_bind].
    rewrite (write_ok (V:=())) by done. cbn [mbind result_bind]. eexists _, [_]. split; [done|].
    split; [by rewrite length_insert|]. intros j q. rewrite length_app. simpl. destruct (decide (j = i)) as [->|Hne].
    + rewrite list_lookup_insert_eq by done. intros [= <-]. lia.
    + rewrite list_lookup_insert_ne by done. intros Hq. specialize (Hp j q Hq). lia.
  - exists (saved (w_cfg w)), []. rewrite app_nil_r. split; [by destruct w as [[] ? ? ? ? ?]|]. done.
Qed.

Lemma group_load_saved_ok i w :
  (i < length (saved (w_cfg w)))%nat → (∀ i p, saved (w_cfg w) !! i = Some (Some p) → (p < length (w_persisters w))%nat) →
  ∃ sv ps, load_saved i w = Val (World (set_saved sv (w_cfg w)) (w_kvservers w) (w_persisters w ++ ps) (w_store w) (w_servers w) (w_clerks w)) ∧
    length sv = length (saved (w_cfg w)) ∧ ∀ i p, sv !! i = Some (Some p) → (p < length (w_persisters w ++ ps))%nat.
Proof.
  intros Hi Hp. unfold load_saved. destruct (lookup_lt_is_Some_2 _ _ Hi) as [[p|] E]; rewrite E; cbn [or_panic mbind result_bind].
  { by apply group_copy_saved_ok. }
  rewrite (write_ok (V:=())) by done. cbn [mbind result_bind]. eexists _, [_]. split; [done|].
  split; [by rewrite length_insert|]. intros j q. rewrite length_app. simpl. destruct (decide (j = i)) as [->|Hne].
  - rewrite list_lookup_insert_eq by done. intros [= <-]. lia.
  - rewrite list_lookup_insert_ne by done. intros Hq. specialize (Hp j q Hq). lia.
Qed.

Lemma wired_saved c next lk sv : wired c next lk → wired (set_saved sv c) next lk.
Proof. by intros []. Qed.

Lemma wired_kvservers c next lk kvs : wired c next lk → wired (set_kvservers kvs c) next lk.
Proof. by intros []. Qed.

Lemma wired_servers c next lk nt :
  wired c next lk → ends nt = ends (net c) → connections nt = connections (net c) → enabled nt = enabled (net c) →
  wired (set_net nt c) next lk.
Proof. intros [H1 H2 H3 H4 H5] E1 E2 E3. split; try done. intros s e He. simpl. rewrite E1, E2, E3. by apply H4. Qed.

Lemma shutdown_ok w sp i : grouped w sp → started (w_cfg w) → (i < n (w_cfg w))%nat →
  ∃ w', ShutdownServer i w = Val w' ∧ started (w_cfg w') ∧ n (w_cfg w') = n (w_cfg w) ∧
    grouped w' (spec_step (n (w_cfg w)) sp (OShutdown i)).
Proof.
  intros HG HS Hi. pose proof HG as [HW Hnx Hk Hs Hsv Hup Hdn]. unfold ShutdownServer.
  destruct (group_wired_disconnect (w_cfg w) _ _ i (All (w_cfg w)) HW HS Hi (all_servers _)) as (c1 & -> & HW1 & (nt & -> & E)).
  cbn [mbind result_bind]. set (w1 := with_cfg _ w).
  destruct (group_copy_saved_ok i w1) as (sv & ps & -> & Hlen & Hsv'); [simpl; by rewrite Hs|exact Hsv|]. simpl in Hlen, Hsv'.
  cbn [mbind result_bind w_cfg]. simpl kvservers.
  destruct (lookup_lt_is_Some_2 (kvservers (w_cfg w)) i) as [[p|] Hp]; [lia|..]; rewrite Hp; cbn [or_panic mbind result_bind].
  - destruct (Hup i p Hp) as (_ & Hlt & _). unfold kill. simpl w_kvservers.
    destruct (lookup_lt_is_Some_2 _ _ Hlt) as [[kv es] Hkv]. rewrite Hkv. cbn [or_panic mbind result_bind w_cfg]. simpl kvservers.
    rewrite (write_ok (V:=())) by lia. cbn [mbind result_bind]. eexists. split; [done|]. split; [done|]. split; [done|].
    split; simpl; try done.
    + apply wired_kvservers, wired_saved. by apply wired_servers.
    + by rewrite length_insert.
    + by rewrite Hlen.
    + intros j q. destruct (decide (j = i)) as [->|Hne]; [by rewrite list_lookup_insert_eq by lia|].
      rewrite list_lookup_insert_ne by done. intros Hq. destruct (Hup j q Hq) as (H1 & H2 & o & srv & H3 & H4).
      unfold up. rewrite decide_False, length_insert by done. split_and!; [done..|]. exists o, srv. split; [|done].
      unfold read in *. simpl. rewrite lookup_insert_ne by congruence. by rewrite E.
    + intros j. unfold up, read in *. destruct (decide (j = i)) as [->|Hne]; [by simpl; rewrite lookup_insert_eq|].
      rewrite list_lookup_insert_ne by done. intros Hq. simpl. rewrite lookup_insert_ne by congruence. rewrite E. by apply Hdn.
  - eexists. split; [done|]. split; [done|]. split; [done|]. destruct (Hdn i Hp) as [Hd1 Hd2].
    assert (Hup' : ∀ j, up i false sp j = sp_up sp j) by (intros j; unfold up; case_decide; [by subst|done]).
    split; simpl; try done.
    + apply wired_saved. by apply wired_servers.
    + by rewrite Hlen.
    + intros j q Hq. rewrite Hup'. destruct (Hup j q Hq) as (H1 & H2 & o & srv & H3 & H4). split_and!; [done..|]. exists o, srv.
      split; [|done]. unfold read in *. simpl. rewrite lookup_insert_ne by congruence. by rewrite E.
    + intros j Hq. rewrite Hup'. destruct (Hdn j Hq) as [H1 H2]. split; [done|]. unfold read in *. simpl.
      rewrite lookup_insert. case_decide; [done|]. by rewrite E.
Qed.

Lemma start_ok w sp i names : grouped w sp → (i < n (w_cfg w))%nat →
  (∃ w', StartServer names i w = Val w' ∧ n (w_cfg w') = n (w_cfg w) ∧
     (∀ a, (∃ ns, endnames (w_cfg w') !! a = Some (Some ns)) ↔ a = i ∨ ∃ ns, endnames (w_cfg w) !! a = Some (Some ns)) ∧
     grouped w' (spec_step (n (w_cfg w)) sp (OStart names i))) ∨
  StartServer names i w = LogFatal None.
Proof.
  intros HG Hi. pose proof HG as [HW Hnx Hk Hs Hsv Hup Hdn]. unfold GroupConfig.StartServer.
  assert (Hlt : (i < length (endnames (w_cfg w)))%nat) by by rewrite (wi_length _ _ _ HW).
  rewrite (write_ok (V:=())) by done. cbn [mbind result_bind].
  set (c1 := set_endnames _ (w_cfg w)).
  destruct (group_make_ends_ok names (n (w_cfg w)) c1) as [(nt & -> & HN)| ->]; [left|by right]. cbn [mbind result_bind].
  pose proof (wired_restarted _ _ _ names nt i HW Hi HN) as HW1.
  change (set_net nt c1) with (restarted names nt i (w_cfg w)). set (w1 := with_cfg _ w).
  destruct (group_load_saved_ok i w1) as (sv & ps & -> & Hlen & Hsv'); [simpl; by rewrite Hs|exact Hsv|]. simpl in Hlen, Hsv'.
  cbn [mbind result_bind w_cfg w_kvservers]. simpl kvservers. simpl w_kvservers.
  rewrite (write_ok (V:=())) by lia. cbn [mbind result_bind]. eexists. split; [done|]. split; [done|]. split.
  { intros a. simpl. destruct (decide (a = i)) as [->|Hne]; [rewrite list_lookup_insert_eq by done; naive_solver|].
    rewrite list_lookup_insert_ne by done. naive_solver. }
  assert (E : servers nt = servers (net (w_cfg w))) by apply HN.
  split; simpl; try done.
  - apply wired_servers; [|done..]. by apply wired_kvservers, wired_saved.
  - by rewrite length_insert.
  - by rewrite Hlen.
  - intros j q. unfold up, read. simpl. destruct (decide (j = i)) as [->|Hne].
    + rewrite list_lookup_insert_eq by lia. intros [= <-]. rewrite length_app. simpl. split; [done|]. split; [lia|].
      rewrite lookup_insert_eq. eexists _, _. split; [done|]. split; [by apply list_lookup_middle|done].
    + rewrite list_lookup_insert_ne by done. intros Hq. destruct (Hup j q Hq) as (H1 & H2 & o & srv & H3 & H4 & H5).
      rewrite length_app. split_and!; [done|lia|]. exists o, srv. rewrite lookup_insert_ne by congruence. rewrite E.
      split_and!; [done|by apply lookup_app_l_Some|done].
  - intros j. unfold up, read. simpl. destruct (decide (j = i)) as [->|Hne]; [by rewrite list_lookup_insert_eq by lia|].
    rewrite list_lookup_insert_ne by done. intros Hq. rewrite lookup_insert_ne by congruence. rewrite E. by apply Hdn.
Qed.

(** ** Clerks *)

Lemma swap_ok {A} (i j : nat) (l : list A) : (i < length l)%nat → (j < length l)%nat →
  ∃ l', swap i j l = Val l' ∧ l' ≡ₚ l.
Proof.
  intros Hi Hj. unfold swap. destruct (lookup_lt_is_Some_2 _ _ Hi) as [x Hx], (lookup_lt_is_Some_2 _ _ Hj) as [y Hy].
  rewrite Hx, Hy. cbn [or_panic mbind result_bind]. rewrite (write_ok (V:=())) by done. cbn [mbind result_bind].
  rewrite (write_ok (V:=())) by by rewrite length_insert. eexists. split; [done|]. by apply Permutation_insert_swap.
Qed.

Lemma random_handles_perm {A} (draws : nat → nat) (l : list A) :
  (∀ i, (draws i ≤ i)%nat) → ∃ l', random_handles draws l = Val l' ∧ l' ≡ₚ l.
Proof.
  intros Hd. unfold random_handles.
  assert (Hm : ∀ m, (m ≤ length l)%nat → ∃ l', for_each m (λ i sa, swap i (draws i) sa) l = (Val l' : result (list A)) ∧ l' ≡ₚ l).
  { induction m as [|m IH]; intros Hm; [by exists l|]. destruct IH as (l1 & E & Hp); [lia|]. rewrite group_for_each_S, E.
    cbn [mbind result_bind]. assert (Hlen : length l1 = length l) by by rewrite Hp.
    specialize (Hd m). destruct (swap_ok m (draws m) l1) as (l2 & E2 & Hp2); [lia..|].
    exists l2. split; [done|]. by rewrite Hp2. }
  by apply Hm.
Qed.

Lemma client_ok w sp names draws to :
  grouped w sp → servers_of (w_cfg w) to → (∀ i, (draws i ≤ i)%nat) →
  (∃ w', makeClient names draws to w = Val (length (w_clerks w), w') ∧ n (w_cfg w') = n (w_cfg w) ∧
     endnames (w_cfg w') = endnames (w_cfg w) ∧
     grouped w' (spec_step (n (w_cfg w)) sp (OMakeClient names draws to)) ∧
     ∃ ends, w_clerks w' = w_clerks w ++ [ends] ∧ ends ≡ₚ names <$> seq 0 (n (w_cfg w))) ∨
  makeClient names draws to w = LogFatal None.
Proof.
  intros [HW Hnx Hk Hs Hsv Hup Hdn] Hto Hd. unfold makeClient.
  destruct (group_make_ends_ok names (n (w_cfg w)) (w_cfg w)) as [(nt & -> & HN)| ->]; [left|by right]. cbn [mbind result_bind].
  destruct (random_handles_perm draws (names <$> seq 0 (n (w_cfg w))) Hd) as (handles & -> & Hperm). cbn [mbind result_bind].
  set (id := wrap_s 64 _).
  change (set_clerks _ id (set_net nt (w_cfg w))) with (with_client names nt (length (w_clerks w)) id (w_cfg w)).
  rewrite <- Hnx. pose proof (wired_client _ _ _ names nt id HW HN) as HW1.
  destruct (wired_enable_client _ _ _ true (sp_next sp) to (names <$> seq 0 (n (w_cfg w))) HW1) as (c2 & E2 & HW2 & (nt2 & -> & Es)).
  { simpl. by rewrite lookup_insert_eq. }
  { done. }
  unfold ConnectClientUnlocked. rewrite E2. cbn [mbind result_bind]. eexists. split; [done|]. split; [done|]. split; [done|].
  split; [|by exists handles].
  assert (E : servers nt2 = servers (net (w_cfg w))) by (rewrite Es; apply HN).
  split; simpl; try done.
  - by rewrite length_app, Hnx, Nat.add_1_r.
  - intros i p. rewrite E. apply Hup.
  - intros i. rewrite E. apply Hdn.
Qed.

(** ** Runs *)

(** [r] is a world with this property, unless a name was drawn twice. *)
Definition lands {A} (r : result A) (P : A → Prop) : Prop :=
  match r with Val a => P a | LogFatal None => True | _ => False end.

(** All servers have been started, and the world is as [sp] says. *)
Definition good (m : nat) w sp : Prop := n (w_cfg w) = m ∧ started (w_cfg w) ∧ grouped w sp.

Lemma good_rewired m w sp c' lk' :
  good m w sp → rewired (w_cfg w) c' → wired c' (sp_next sp) lk' → good m (with_cfg c' w) (only lk' sp).
Proof.
  intros (Hn & HS & HG) HR HW. split; [|split]; [by destruct HR as (nt & -> & _)|by eapply rewired_started|].
  by eapply grouped_rewired.
Qed.

Lemma run_op_good m w sp o : good m w sp → allowed w o → lands (run_op w o) (λ w', good m w' (spec_step m sp o)).
Proof.
  intros HGD Ha. pose proof HGD as (Hn & HS & HG). pose proof (gr_wired _ _ HG) as HW. destruct o; simpl in Ha |- *.
  - destruct Ha as [Hi Ht]. destruct (group_wired_connect _ _ _ i to HW HS Hi Ht) as (c' & E & HW' & HR).
    unfold connect. rewrite E. by apply good_rewired.
  - destruct Ha as [Hi Ht]. destruct (group_wired_disconnect _ _ _ i from HW HS Hi Ht) as (c' & E & HW' & HR).
    unfold disconnect. rewrite E. by apply good_rewired.
  - destruct (wired_ConnectAll _ _ _ HW HS) as (c' & E & HW' & HR). rewrite E. rewrite Hn in HW'. by apply good_rewired.
  - destruct Ha as [H1 H2]. destruct (wired_partition _ _ _ p1 p2 HW HS H1 H2) as (c' & E & HW' & HR).
    rewrite E. by apply good_rewired.
  - destruct Ha as [Ht Hd]. destruct (client_ok w sp names draws to HG Ht Hd) as [(w' & E & Hn' & He & HG' & _)|E]; rewrite E; [|done].
    simpl. rewrite Hn in HG'. split; [congruence|]. split; [|done]. unfold started in *. by rewrite Hn', He.
  - split; [done|]. split; [done|]. destruct HG as [_ Hnx Hk Hs Hsv Hup Hdn]. split; try done. by apply wired_forget.
  - destruct Ha as [[names Hck] Ht]. destruct (wired_enable_client _ _ _ true ck to names HW Hck Ht) as (c' & E & HW' & HR).
    unfold ConnectClient, ConnectClientUnlocked. rewrite E. by apply good_rewired.
  - destruct Ha as [[names Hck] Ht]. destruct (wired_enable_client _ _ _ false ck from names HW Hck Ht) as (c' & E & HW' & HR).
    unfold DisconnectClient, DisconnectClientUnlocked. rewrite E. by apply good_rewired.
  - destruct (shutdown_ok w sp i HG HS Ha) as (w' & E & HS' & Hn' & HG'). rewrite E. simpl. rewrite Hn in HG'.
    split; [congruence|done].
  - destruct (start_ok w sp i names HG Ha) as [(w' & E & Hn' & He & HG')|E]; rewrite E; [|done]. simpl. rewrite Hn in HG'.
    split; [congruence|]. split; [|done]. intros a Hlt. apply He. right. apply HS. congruence.
Qed.

Lemma lands_bind {A B} (r : result A) (f : A → result B) P Q :
  lands r P → (∀ a, r = Val a → P a → lands (f a) Q) → lands (r ≫= f) Q.
Proof. unfold lands. intros H1 H2. destruct r as [| |[]| |a]; try done. by apply H2. Qed.

Lemma run_ops_good m w sp os : good m w sp → all_allowed w os → lands (run_ops w os) (λ w', good m w' (spec_run m sp os)).
Proof.
  revert w sp. induction os as [|o os IH]; intros w sp HG Ha; [done|]. destruct Ha as [Ha Hr]. cbn [GroupLinks.run_ops].
  eapply lands_bind; [by apply run_op_good|]. intros w' E HG'. by apply IH; [|apply Hr].
Qed.

(** ** The beginning *)

Lemma grouped_ext w sp sp' :
  (∀ s, sp_links sp s = sp_links sp' s) → (∀ i, sp_up sp i = sp_up sp' i) → sp_next sp = sp_next sp' →
  grouped w sp → grouped w sp'.
Proof.
  intros E1 E2 E3 [HW Hnx Hk Hs Hsv Hup Hdn]. split; try done.
  - rewrite <- E3. by eapply wired_ext.
  - congruence.
  - intros i p Hp. rewrite <- E2. by apply Hup.
  - intros i Hp. rewrite <- E2. by apply Hdn.
Qed.

(** The first [k] of [m] servers have been started, and nobody is connected. *)
Definition starting (m k : nat) w : Prop :=
  n (w_cfg w) = m ∧ (∀ a, (∃ ns, endnames (w_cfg w) !! a = Some (Some ns)) ↔ (a < k)%nat) ∧
  grouped w (Spec (λ _, false) (λ i, bool_decide (i < k)%nat) 0).

Lemma starting_ok m names w k :
  (k ≤ m)%nat → starting m 0 w → lands (for_each k (λ i w, StartServer (names i) i w) w) (starting m k).
Proof.
  intros Hk H0w. induction k as [|k IH]; [done|]. rewrite group_for_each_S.
  eapply lands_bind; [apply IH; lia|]. intros w1 _ (Hn & He & HG).
  destruct (start_ok w1 _ k (names k) HG) as [(w2 & E & Hn' & He' & HG')|E]; [lia|..]; rewrite E; [|done].
  split; [congruence|]. split.
  - intros a. rewrite He', He. lia.
  - eapply grouped_ext, HG'; [..|done].
    + intros s. simpl. unfold set_links. by case_decide.
    + intros i. simpl. unfold up. simpl. case_decide; symmetry; [apply bool_decide_eq_true_2; lia|].
      apply bool_decide_ext. lia.
Qed.

(** The links of [ps] with [to] are set. *)
Lemma connect_all_links (ps to : list nat) lk s :
  foldl (λ lk i, set_links true (around i to) lk) lk ps s = bool_decide (Exists (λ i, s ∈ around i to) ps) || lk s.
Proof.
  induction ps as [|i ps IH] using rev_ind; [done|]. rewrite foldl_app. cbn [foldl]. unfold set_links at 1. rewrite IH.
  destruct (decide (s ∈ around i to)) as [Hin|Hin].
  - symmetry. apply orb_true_iff. left. apply bool_decide_eq_true, Exists_app. right. by left.
  - f_equal. apply bool_decide_ext. rewrite Exists_app. split; [auto|]. intros [?|Hx]; [done|].
    inversion Hx as [? ? Hy|? ? Hy]; subst; [done|by inversion Hy].
Qed.

Lemma make_config_good now m unreliable maxraftstate names :
  lands (make_config now m unreliable maxraftstate names) (λ w, good m w (spec_init m)).
Proof.
  unfold GroupConfig.make_config. set (w0 := World _ _ _ _ _ _).
  assert (H0w : starting m 0 w0).
  { split; [done|]. split.
    - intros a. simpl. split; [|lia]. intros [ns Hns]. by apply lookup_replicate in Hns as [? _].
    - assert (Hno : ∀ s e, slot_name (w_cfg w0) s = Some e → False).
      { intros [a b|ck b] e; simpl; [|done]. destruct (replicate m None !! a) as [x|] eqn:E; [|done].
        apply lookup_replicate in E as [-> _]. done. }
      split; simpl; try done.
      + split; simpl; try done.
        * intros a ns Hns. by apply lookup_replicate in Hns as [? _].
        * intros s s' e Hs. by destruct (Hno s e).
        * intros s e Hs. by destruct (Hno s e).
        * by rewrite length_replicate.
      + by rewrite length_replicate.
      + by rewrite length_replicate.
      + intros i p Hp. by apply lookup_replicate in Hp as [? _].
      + intros i p Hp. by apply lookup_replicate in Hp as [? _]. }
  eapply lands_bind; [by apply (starting_ok m names w0 m)|]. intros w _ (Hn & He & HG).
  assert (HS : started (w_cfg w)) by (intros a Ha; apply He; lia).
  destruct (wired_ConnectAll _ _ _ (gr_wired _ _ HG) HS) as (c' & E & HW' & (nt & -> & Es)). rewrite E. simpl. rewrite Hn in HW'.
  split; [done|]. split; [done|]. destruct HG as [HW Hnx Hk Hs Hsv Hup Hdn].
  split; simpl; try done.
  - eapply wired_ext; [|by apply wired_servers; [exact HW'|..]]. intros s. rewrite connect_all_links. simpl. rewrite orb_false_r.
    destruct s as [a b|ck b].
    + apply bool_decide_ext. rewrite Exists_exists. setoid_rewrite around_Peer. setoid_rewrite elem_of_seq. split.
      * intros (i & Hi & [[-> Hb]|[-> Ha]]); lia.
      * intros [Ha Hb]. exists a. split; [lia|]. left. split; [done|lia].
    + apply bool_decide_eq_false_2. rewrite Exists_exists. intros (i & _ & Hc). by apply around_Client in Hc.
  - intros i p. rewrite Es. apply Hup.
  - intros i. rewrite Es. apply Hdn.
Qed.

(** ** Partitions *)

Lemma join_part_Peer (p q ps : list nat) lk a b :
  (∀ x, x ∈ p → x ∈ q → False) → (∀ x, x ∈ ps → x ∈ p) →
  join_part p q ps lk (Peer a b) =
    if decide (a ∈ ps ∧ b ∈ p ∨ b ∈ ps ∧ a ∈ p) then true
    else if decide (a ∈ ps ∧ b ∈ q ∨ b ∈ ps ∧ a ∈ q) then false else lk (Peer a b).
Proof.
  intros Hpq. unfold join_part. induction ps as [|i ps IH] using rev_ind; intros Hps.
  { cbn [foldl]. by rewrite !decide_False by (intros [[?%elem_of_nil _]|[?%elem_of_nil _]]; done). }
  rewrite foldl_app. cbn [foldl]. unfold set_links at 1 2.
  assert (Hi : i ∈ p) by (apply Hps; set_solver). assert (Hps' : ∀ x, x ∈ ps → x ∈ p) by (intros; apply Hps; set_solver).
  assert (E1 : ∀ to, Peer a b ∈ around i to ↔ (a = i ∧ b ∈ to) ∨ (b = i ∧ a ∈ to)) by (intros; apply around_Peer).
  assert (E2 : ∀ x, x ∈ ps ++ [i] ↔ x ∈ ps ∨ x = i) by set_solver.
  rewrite (IH Hps').
  assert (Ha1 : a = i → a ∈ p) by by intros ->. assert (Hb1 : b = i → b ∈ p) by by intros ->.
  pose proof (Hps' a) as Ha2. pose proof (Hps' b) as Hb2. pose proof (Hpq a) as Ha3. pose proof (Hpq b) as Hb3.
  clear Hpq Hps Hps' IH Hi. repeat case_decide; rewrite ?E1, ?E2 in *; clear E1 E2; first [done|exfalso; tauto].
Qed.

Lemma split_links_Peer m (p1 p2 : list nat) lk a b :
  p1 ++ p2 ≡ₚ seq 0 m → (a < m)%nat → (b < m)%nat →
  split_links p1 p2 lk (Peer a b) = bool_decide (a ∈ p1 ∧ b ∈ p1 ∨ a ∈ p2 ∧ b ∈ p2).
Proof.
  intros Hp Ha Hb. assert (Hnd : NoDup (p1 ++ p2)) by (rewrite Hp; apply NoDup_seq).
  apply NoDup_app in Hnd as (_ & Hpq & _).
  assert (Hin : ∀ x, (x < m)%nat → x ∈ p1 ∨ x ∈ p2).
  { intros x Hx. apply elem_of_app. rewrite Hp. apply elem_of_seq. lia. }
  unfold split_links. rewrite !join_part_Peer by naive_solver.
  pose proof (Hin a Ha) as Ha1. pose proof (Hin b Hb) as Hb1. pose proof (Hpq a) as Ha2. pose proof (Hpq b) as Hb2.
  clear Hp Hpq Hin. symmetry. repeat case_decide;
    first [apply bool_decide_eq_true_2; tauto|apply bool_decide_eq_false_2; tauto|exfalso; tauto].
Qed.

Lemma perm_servers_of c m (p1 p2 : list nat) : n c = m → p1 ++ p2 ≡ₚ seq 0 m → servers_of c p1 ∧ servers_of c p2.
Proof.
  intros <- Hp. assert (Hnd : NoDup (p1 ++ p2)) by (rewrite Hp; apply NoDup_seq).
  apply NoDup_app in Hnd as (H1 & _ & H2).
  assert (Hlt : ∀ x, x ∈ p1 ++ p2 → (x < n c)%nat) by (intros x; rewrite Hp, elem_of_seq; lia).
  split; (split; [done|]); apply Forall_forall; intros x Hx; apply Hlt, elem_of_app; auto.
Qed.

(** ** The claims *)

(** Where a request on the end [e] of the link [s] goes. *)
Definition routed w sp (s : slot) (e : string) : Prop :=
  let i := readEndnameInfo (EndName e) (net (w_cfg w)) in
  i_enabled i = sp_links sp s ∧ i_servername i = Some (ServerName (slot_to s)) ∧
  match kvservers (w_cfg w) !! slot_to s with
  | Some (Some p) => sp_up sp (slot_to s) = true ∧
      ∃ o srv, i_server i = Some o ∧ w_servers w !! o = Some srv ∧ services srv = group_services p
  | Some None => sp_up sp (slot_to s) = false ∧ i_server i = None
  | None => False
  end.

Lemma slot_to_lt c next lk s e : wired c next lk → slot_name c s = Some e → (slot_to s < n c)%nat.
Proof.
  intros HW. destruct s as [a b|ck b]; simpl; intros Hs; apply bind_Some in Hs as (names & Hn & He%lookup_lt_Some).
  - destruct (endnames c !! a) as [[]|] eqn:E; try done. simpl in Hn. simplify_eq. by rewrite (wi_names _ _ _ HW _ _ E) in He.
  - by destruct (wi_clerks _ _ _ HW _ _ Hn) as [<- _].
Qed.

Lemma good_routed m w sp s e : good m w sp → slot_name (w_cfg w) s = Some e → routed w sp s e.
Proof.
  intros (_ & _ & HG) He. pose proof (gr_wired _ _ HG) as HW. destruct (wi_ends _ _ _ HW s e He) as (_ & H2 & H3).
  unfold routed, readEndnameInfo. cbn [i_enabled i_servername i_server]. rewrite H2, H3. split; [done|]. split; [done|].
  cbn [mbind option_bind]. pose proof (slot_to_lt _ _ _ _ _ HW He) as Hlt. rewrite <- (gr_kvservers _ _ HG) in Hlt.
  destruct (lookup_lt_is_Some_2 _ _ Hlt) as [[p|] Hp]; rewrite Hp.
  - destruct (gr_up _ _ HG _ p Hp) as (G1 & _ & o & srv & G2 & G3). split; [done|]. by exists o, srv.
  - by apply (gr_down _ _ HG).
Qed.

(** C20: Whatever a test does with the group, unless a random name is drawn twice,
    no operation fails, and afterwards the network does to a request, from a server
    or from a clerk, what the links say: its end is enabled exactly when the link is
    set, it leads to the server it is for, to the current object of that server,
    and to nobody when the server is shut down. *)
Theorem group_links now m unreliable maxraftstate names :
  lands (make_config now m unreliable maxraftstate names) (λ w,
    ∀ os, all_allowed w os →
      lands (run_ops w os) (λ w', ∀ s e, slot_name (w_cfg w') s = Some e → routed w' (spec_run m (spec_init m) os) s e)).
Proof.
  pose proof (make_config_good now m unreliable maxraftstate names) as Hm. unfold lands in Hm |- *.
  destruct (make_config _ _ _ _ _) as [| |[]| |w]; try done. intros os Ha.
  pose proof (run_ops_good m w _ os Hm Ha) as Hr. unfold lands in Hr. destruct (run_ops w os) as [| |[]| |w']; try done.
  intros s e He. by eapply good_routed.
Qed.

(** C21: After [partition p1 p2] of all the servers, whatever was connected before,
    two servers reach each other exactly when they are on the same side. *)
Theorem partition_splits now m unreliable maxraftstate names w os w1 p1 p2 :
  make_config now m unreliable maxraftstate names = Val w → all_allowed w os → run_ops w os = Val w1 →
  p1 ++ p2 ≡ₚ seq 0 m →
  ∃ c', partition p1 p2 (w_cfg w1) = Val c' ∧
    ∀ a b, (a < m)%nat → (b < m)%nat → ∃ e, slot_name c' (Peer a b) = Some e ∧
      read (connections (net c')) (EndName e) = Some (ServerName b) ∧
      enabled (net c') !! EndName e = Some (bool_decide (a ∈ p1 ∧ b ∈ p1 ∨ a ∈ p2 ∧ b ∈ p2)).
Proof.
  intros Hw Ha Hr Hp. pose proof (make_config_good now m unreliable maxraftstate names) as Hm. rewrite Hw in Hm.
  pose proof (run_ops_good m w _ os Hm Ha) as Hg. rewrite Hr in Hg. destruct Hg as (Hn & HS & HG).
  pose proof (gr_wired _ _ HG) as HW. destruct (perm_servers_of _ _ _ _ Hn Hp) as [H1 H2].
  destruct (wired_partition _ _ _ p1 p2 HW HS H1 H2) as (c' & E & HW' & (nt & -> & Es)). eexists. split; [exact E|].
  intros a b Hlta Hltb. destruct (started_end _ _ _ a b HW' HS) as (ns & e & Hns & He); [by simpl; rewrite Hn..|].
  assert (Hs : slot_name (set_net nt (w_cfg w1)) (Peer a b) = Some e) by (simpl in *; by rewrite Hns).
  exists e. split; [done|]. destruct (wi_ends _ _ _ HW' _ _ Hs) as (_ & G2 & G3). split; [done|]. rewrite G3.
  by rewrite (split_links_Peer m).
Qed.

End runs.

(** ** The two lists of [make_partition] *)

(** The servers before [i] other than the leader. *)
Definition others (l i : nat) : list nat := filter (λ x, x ≠ l) (seq 0 i).

Lemma others_S l i : others l (S i) = others l i ++ (if decide (i ≠ l) then [i] else []).
Proof. unfold others. rewrite seq_S, filter_app. change (0 + i)%nat with i. rewrite filter_cons. by repeat case_decide. Qed.

Lemma others_length l m : (l < m)%nat → S (length (others l m)) = m.
Proof.
  intros Hl. assert (Hp : l :: others l m ≡ₚ seq 0 m).
  { apply NoDup_Permutation; [|apply NoDup_seq|].
    - constructor; [by intros [? _]%list_elem_of_filter|]. apply NoDup_filter, NoDup_seq.
    - intros x. unfold others. rewrite elem_of_cons, list_elem_of_filter, elem_of_seq. destruct (decide (x = l)); naive_solver lia. }
  apply Permutation_length in Hp. by rewrite length_seq in Hp.
Qed.

(** Both lists, one after the other, are filled from the left. *)
Lemma place_ok l m1 m2 i :
  (length (others l i) ≤ m1 + m2)%nat →
  ∃ p1 p2, for_each i (place l) (replicate m1 0%nat, replicate m2 0%nat, 0%nat) = (Val (p1, p2, length (others l i)) : result _) ∧
    length p1 = m1 ∧ length p2 = m2 ∧
    p1 ++ p2 = others l i ++ replicate (m1 + m2 - length (others l i)) 0%nat.
Proof.
  induction i as [|i IH]; intros Hlen.
  { eexists _, _. split; [done|]. rewrite !length_replicate. split_and!; [done..|]. simpl. by rewrite Nat.sub_0_r, replicate_add. }
  rewrite others_S, length_app in Hlen. rewrite group_for_each_S. destruct IH as (p1 & p2 & -> & H1 & H2 & Hp); [lia|].
  cbn [mbind result_bind]. unfold place. rewrite others_S. case_decide as Hi; [|exists p1, p2; by rewrite app_nil_r].
  simpl in Hlen. rewrite length_app, Nat.add_1_r. set (j := length (others l i)) in *.
  assert (Hins : <[j := i]> (others l i ++ replicate (m1 + m2 - j) 0%nat) = (others l i ++ [i]) ++ replicate (m1 + m2 - S j) 0%nat).
  { replace (m1 + m2 - j)%nat with (S (m1 + m2 - S j)) by lia. rewrite <- app_assoc. simpl. rewrite insert_app_r_alt by done.
    unfold j. by rewrite Nat.sub_diag. }
  rewrite <- Hp in Hins. case_decide as Hj.
  - rewrite (write_ok (V:=())) by done. cbn [mbind result_bind]. eexists _, _. split; [done|].
    rewrite length_insert. split_and!; [done..|]. by rewrite <- Hins, insert_app_l.
  - rewrite (write_ok (V:=())) by lia. cbn [mbind result_bind]. eexists _, _. split; [done|].
    rewrite length_insert. split_and!; [done..|]. by rewrite <- Hins, insert_app_r_alt by lia.
Qed.

Lemma split_around_eq m l : (l < m)%nat → (2 ≤ m)%nat →
  ∃ p1 p2, split_around m l = (Val (p1, p2) : result _) ∧ length p1 = (m / 2 + 1)%nat ∧ length p2 = (m / 2)%nat ∧
    (Nat.Odd m → p1 ++ p2 = others l m ++ [l]).
Proof.
  intros Hl Hm. pose proof (others_length l m Hl) as Hlen. pose proof (Nat.div_mod_eq m 2) as Hdm.
  pose proof (Nat.mod_upper_bound m 2 ltac:(lia)) as Hmod.
  destruct (place_ok l (m / 2 + 1) (m / 2) m) as (p1 & p2 & E & H1 & H2 & Hp); [lia|].
  unfold split_around. rewrite E. cbn [mbind result_bind]. rewrite decide_False by lia.
  rewrite (write_ok (V:=())) by lia. cbn [mbind result_bind]. eexists p1, _. split; [done|]. split; [done|].
  rewrite length_insert. split; [done|]. intros [k Hk].
  assert (Hj : (m / 2 + 1 + m / 2 - length (others l m) = 1)%nat) by lia.
  rewrite Hj in Hp. simpl in Hp.
  rewrite <- insert_app_r, Hp, H1.
  replace (m / 2 + 1 + (length p2 - 1))%nat with (length (others l m)) by lia. by rewrite insert_app_r_alt, Nat.sub_diag.
Qed.

(** [make_partition] splits an odd number of servers, three or more, into a
    majority and a minority in which the leader is the last. An even number it does
    not split: the lists have one place too many, which keeps the number 0 it was made
    with. *)
Theorem make_partition_splits m l : (l < m)%nat → (2 ≤ m)%nat →
  ∃ p1 p2, split_around m l = (Val (p1, p2) : result _) ∧ length p1 = (m / 2 + 1)%nat ∧ length p2 = (m / 2)%nat ∧
    (Nat.Odd m → p1 ++ p2 ≡ₚ seq 0 m ∧ last p2 = Some l) ∧
    (Nat.Even m → ¬ p1 ++ p2 ≡ₚ seq 0 m).
Proof.
  intros Hl Hm. destruct (split_around_eq m l Hl Hm) as (p1 & p2 & E & H1 & H2 & Hodd). exists p1, p2.
  pose proof (Nat.div_mod_eq m 2) as Hdm. pose proof (Nat.mod_upper_bound m 2 ltac:(lia)) as Hmod. split_and!; [done..| |].
  - intros Ho. specialize (Hodd Ho). rewrite Hodd. split.
    + rewrite (comm app). apply NoDup_Permutation; [|apply NoDup_seq|].
      * apply NoDup_cons. split; [by intros [? _]%list_elem_of_filter|]. apply NoDup_filter, NoDup_seq.
      * intros x. unfold others. rewrite elem_of_app, list_elem_of_singleton, list_elem_of_filter, elem_of_seq.
        destruct (decide (x = l)); naive_solver lia.
    + assert (Hlast : last (p1 ++ p2) = Some l) by (by rewrite Hodd, last_snoc).
      rewrite last_app in Hlast. destruct (last p2) eqn:E2; [done|]. apply last_None in E2. subst p2. cbn [length] in H2. lia.
  - intros [k Hk] Hp. apply Permutation_length in Hp. rewrite length_app, length_seq in Hp.
    assert (m / 2 = k)%nat by (subst m; rewrite Nat.mul_comm; by apply Nat.div_mul). lia.
Qed.


(** ** Three servers of kvraft *)

Section demo.

#[local] Instance unit_Codec : Codec () := {| New _ := (); EncodeV _ := Some []; DecodeV _ _ := ((), true) |}.

Abbreviation demo_world := (world (W:=()) (X:=()) (Srv:=KvRaft.KvRaft.KVServer)).

Definition demo_names (i j : nat) : string := RaftWiring.letters i j.

Definition demo_start : result demo_world :=
  make_config (λ _, DOther "") "KVServer" (λ _, []) (λ _, []) 0 3 false (-1) demo_names.

Definition demo_value {A} (d : A) (r : result A) : A := match r with Val a => a | _ => d end.
Definition is_val {A} (r : result A) : bool := match r with Val _ => true | _ => false end.

Lemma demo_val_eq {A} (d : A) (r : result A) : is_val r = true → r = Val (demo_value d r).
Proof. by destruct r. Qed.

Definition demo_w : demo_world := demo_value (World (Config MakeNetwork 0 [] [] [] ∅ 0 0 0 0 0 0) [] [] [] [] []) demo_start.

Lemma demo_start_ok : demo_start = Val demo_w.
Proof. apply demo_val_eq. vm_compute. reflexivity. Qed.

Definition demo_run (os : list op) : result demo_world :=
  run_ops (λ _, DOther "") "KVServer" (λ _, []) (λ _, []) demo_w os.

(** The server that was shut down gets no request. *)
Lemma group_links_witness :
  ∃ w e, demo_run [OShutdown 1] = Val w ∧ slot_name (w_cfg w) (Peer 0 1) = Some e ∧
    i_enabled (readEndnameInfo (EndName e) (net (w_cfg w))) = false ∧ i_server (readEndnameInfo (EndName e) (net (w_cfg w))) = None.
Proof.
  pose proof (group_links (W:=()) (X:=()) (Srv:=KvRaft.KvRaft.KVServer) (λ _, DOther "") "KVServer" (λ _, []) (λ _, []) 0 3 false (-1) demo_names) as Hall.
  fold demo_start in Hall.
  rewrite demo_start_ok in Hall. simpl in Hall. specialize (Hall [OShutdown 1]).
  assert (Hw : demo_run [OShutdown 1] = Val (demo_value demo_w (demo_run [OShutdown 1]))) by (apply demo_val_eq; vm_compute; reflexivity).
  unfold demo_run in Hw. rewrite Hw in Hall. set (w := demo_value _ _) in *.
  assert (He : slot_name (w_cfg w) (Peer 0 1) = Some (demo_names 0 1)) by (vm_compute; reflexivity).
  destruct (Hall ltac:(split; [vm_compute; lia|intros w' _; exact I]) (Peer 0 1) (demo_names 0 1) He) as (H1 & _ & H3).
  exists w, (demo_names 0 1). split; [exact Hw|]. split; [exact He|]. split; [rewrite H1; vm_compute; reflexivity|].
  assert (Hk : kvservers (w_cfg w) !! 1%nat = Some None) by (vm_compute; reflexivity).
  cbn [slot_to] in H3. rewrite Hk in H3. apply H3.
Defined.

Lemma partition_splits_witness :
  ∃ w c', demo_run [OShutdown 1; OStart (demo_names 7) 1] = Val w ∧ partition [2; 0]%nat [1]%nat (w_cfg w) = Val c' ∧
    ∃ e, slot_name c' (Peer 0 2) = Some e ∧ enabled (net c') !! EndName e = Some true.
Proof.
  set (os := [OShutdown 1; OStart (demo_names 7) 1]).
  assert (Hw : demo_run os = Val (demo_value demo_w (demo_run os))) by (apply demo_val_eq; vm_compute; reflexivity).
  set (w := demo_value _ _) in Hw.
  assert (Hall : all_allowed (λ _, DOther "") "KVServer" (λ _, []) (λ _, []) demo_w os).
  { split; [vm_compute; lia|]. intros w1 E. split; [|intros w' _; exact I].
    assert (Hn : n (w_cfg w1) = 3%nat).
    { change w1 with (demo_value demo_w (Val w1 : result demo_world)). rewrite <- E. vm_compute. reflexivity. }
    simpl. rewrite Hn. lia. }
  destruct (partition_splits (W:=()) (X:=()) (Srv:=KvRaft.KvRaft.KVServer) (λ _, DOther "") "KVServer" (λ _, []) (λ _, []) 0 3 false (-1) demo_names demo_w os w [2; 0]%nat [1]%nat)
    as (c' & E & Hc').
  - exact demo_start_ok.
  - exact Hall.
  - exact Hw.
  - apply (bool_decide_unpack _). vm_compute. exact I.
  - destruct (Hc' 0%nat 2%nat ltac:(lia) ltac:(lia)) as (e & H1 & _ & H2). exists w, c'. split; [exact Hw|]. split; [exact E|].
    exists e. split; [exact H1|]. rewrite H2. vm_compute. reflexivity.
Defined.

Lemma make_partition_splits_witness :
  ∃ p1 p2, split_around 5 2 = (Val (p1, p2) : result _) ∧ p1 ++ p2 ≡ₚ seq 0 5 ∧ last p2 = Some 2%nat.
Proof.
  destruct (make_partition_splits 5 2) as (p1 & p2 & E & _ & _ & H & _); [lia..|].
  exists p1, p2. split; [exact E|]. apply H. exists 2%nat. reflexivity.
Defined.

End demo.
End GroupRuns.
