(* ===== verification/CtrlerConfig.v ===== *)
(** * The tester of the shard controller

    [src/6.5840/src/shardctrler/config.go] is the program of [GroupConfig] for
    controllers instead of key/value servers, without the statistics and without a
    limit for the log. Only [Leader] differs, and [make_partition] that calls it:
    here a server that is shut down is passed over. *)
From S2P Require Import Prelude LabGob LabRpc Persister Raft RaftConfig RaftWiring GroupConfig GroupLinks GroupRuns.
From S2P Require ShardCtrler KvRaft.
Import LabGob LabRpc.
Import RaftConfig (NoFuel, Panic, LogFatal, TestFatal, Val, result_ret, result_bind, or_panic, for_each, write).
Import (notations) GroupConfig.
Local Open Scope Z_scope.

Module CtrlerConfig.

Abbreviation ShardCtrler := ShardCtrler.ShardCtrler.ShardCtrler.

(** The controllers have no limit for the log. *)
#[global] Instance ctrler_server : GroupConfig.GroupServer ShardCtrler := {|
  GroupConfig.start_server servers me _ := ShardCtrler.ShardCtrler.StartServer servers me;
  GroupConfig.kill_server := ShardCtrler.ShardCtrler.Kill;
  GroupConfig.raft_of := ShardCtrler.ShardCtrler.Raft_of;
|}.

Section config.
Context {W X : Type} `{Codec X} (types : rtype → desc).
Context (ctrler_methods raft_methods : nat → list (Method (W:=W) (V:=X))).

(** The fields of [GroupConfig.config] that are not in this one stay 0. *)
Definition config : Type := GroupConfig.config.
Definition world : Type := GroupConfig.world (W:=W) (X:=X) (Srv:=ShardCtrler).
Abbreviation result := GroupConfig.result.
Implicit Types (c : config) (w : world).

Definition random_handles {A} : (nat → nat) → list A → result (list A) := GroupConfig.random_handles.
Definition checkTimeout : bool → Z → config → result () := GroupConfig.checkTimeout.
Definition cleanup : bool → Z → world → result world := GroupConfig.cleanup.
Definition LogSize : world → result nat := GroupConfig.LogSize.
Definition connectUnlocked : nat → list nat → config → result config := GroupConfig.connectUnlocked.
Definition connect : nat → list nat → config → result config := GroupConfig.connect.
Definition disconnectUnlocked : nat → list nat → config → result config := GroupConfig.disconnectUnlocked.
Definition disconnect : nat → list nat → config → result config := GroupConfig.disconnect.
Definition All : config → list nat := GroupConfig.All.
Definition ConnectAll : config → result config := GroupConfig.ConnectAll.
Definition partition : list nat → list nat → config → result config := GroupConfig.partition.
Definition makeClient : (nat → string) → (nat → nat) → list nat → world → result (nat * world) := GroupConfig.makeClient.
Definition deleteClient : nat → config → config := GroupConfig.deleteClient.
Definition ConnectClientUnlocked : nat → list nat → config → result config := GroupConfig.ConnectClientUnlocked.
Definition ConnectClient : nat → list nat → config → result config := GroupConfig.ConnectClient.
Definition DisconnectClientUnlocked : nat → list nat → config → result config := GroupConfig.DisconnectClientUnlocked.
Definition DisconnectClient : nat → list nat → config → result config := GroupConfig.DisconnectClient.
Definition ShutdownServer : nat → world → result world := GroupConfig.ShutdownServer.
Definition StartServer : (nat → string) → nat → world → result world :=
  GroupConfig.StartServer types "ShardCtrler" ctrler_methods raft_methods.

(** [GetState] of server [i], when there is one. *)
Definition leads (i : nat) w : result bool :=
  s ← or_panic (GroupConfig.kvservers (GroupConfig.w_cfg w) !! i);
  match s with
  | Some _ => '(_, is_leader) ← GroupConfig.get_state i w; Val is_leader
  | None => Val false
  end.

(** [at_ i] is the world when server [i] is asked. *)
Fixpoint Leader_loop (at_ : nat → world) (ss : list nat) : result (bool * nat) :=
  match ss with
  | [] => Val (false, 0%nat)
  | i :: ss =>
      is_leader ← leads i (at_ i);
      if is_leader : bool then Val (true, i) else Leader_loop at_ ss
  end.

Definition Leader (at_ : nat → world) : result (bool * nat) :=
  Leader_loop at_ (seq 0 (GroupConfig.n (GroupConfig.w_cfg (at_ 0%nat)))).

Definition make_partition (at_ : nat → world) : result (list nat * list nat) :=
  '(_, l) ← Leader at_;
  GroupConfig.split_around (GroupConfig.n (GroupConfig.w_cfg (at_ 0%nat))) l.

Definition make_config (now : Z) (m : nat) (unreliable : bool) (names : nat → nat → string) : result world :=
  GroupConfig.make_config types "ShardCtrler" ctrler_methods raft_methods now m unreliable 0 names.

End config.

(** ** Who is the leader *)

Section leader.
Context {W X Srv : Type} `{!Codec X, !GroupConfig.GroupServer Srv}.
Abbreviation gworld := (GroupConfig.world (W:=W) (X:=X) (Srv:=Srv)).

(** Server [i] runs in [w] and is a leader. *)
Definition leading (w : gworld) (i : nat) : Prop :=
  ∃ s kv ends, GroupConfig.kvservers (GroupConfig.w_cfg w) !! i = Some (Some s) ∧
    GroupConfig.w_kvservers w !! s = Some (kv, ends) ∧ (Raft.GetState (GroupConfig.raft_of kv)).2 = true.

(** The world has a slot for every server, and an object for every server that runs. *)
Definition sound (m : nat) (w : gworld) : Prop :=
  ∀ i, (i < m)%nat → ∃ o, GroupConfig.kvservers (GroupConfig.w_cfg w) !! i = Some o ∧
    ∀ s, o = Some s → (s < length (GroupConfig.w_kvservers w))%nat.

Lemma get_state_ok m (w : gworld) i s :
  sound m w → (i < m)%nat → GroupConfig.kvservers (GroupConfig.w_cfg w) !! i = Some (Some s) →
  ∃ t b, GroupConfig.get_state i w = Val (t, b) ∧ (b = true ↔ leading w i).
Proof.
  intros Hs Hi E. destruct (Hs i Hi) as (o & E' & Hlt). rewrite E in E'. injection E' as <-.
  destruct (lookup_lt_is_Some_2 _ _ (Hlt s eq_refl)) as [[kv ends] Hkv].
  unfold GroupConfig.get_state. rewrite E. cbn [mjoin option_join or_panic mbind result_bind]. rewrite Hkv.
  cbn [or_panic mbind result_bind]. destruct (Raft.GetState (GroupConfig.raft_of kv)) as [t b] eqn:Eg.
  exists t, b. split; [done|]. split.
  - intros ->. exists s, kv, ends. by rewrite Eg.
  - intros (s' & kv' & ends' & H1 & H2 & H3). rewrite E in H1. injection H1 as <-. rewrite Hkv in H2. injection H2 as <- <-.
    by rewrite Eg in H3.
Qed.

End leader.

Lemma leads_ok {W X : Type} m (w : world (W:=W) (X:=X)) i :
  sound m w → (i < m)%nat → ∃ b, leads i w = Val b ∧ (b = true ↔ leading w i).
Proof.
  intros Hs Hi. unfold leads. destruct (Hs i Hi) as ([s|] & E & _); rewrite E; cbn [or_panic mbind result_bind].
  - destruct (get_state_ok m w i s Hs Hi E) as (t & b & -> & Hb). by exists b.
  - exists false. split; [done|]. split; [done|]. intros (s & _ & _ & H & _). congruence.
Qed.

(** The controllers' [Leader] finds the first server that runs and is a leader,
    and never panics; the one of kvraft panics when a server that is shut down comes
    before it. *)
Theorem Leader_skips_dead {W X : Type} (at_ : nat → world (W:=W) (X:=X))
    (kvat : nat → GroupConfig.world (W:=W) (X:=X) (Srv:=KvRaft.KvRaft.KVServer)) m :
  (∀ i, sound m (at_ i)) → (∀ i, sound m (kvat i)) →
  GroupConfig.n (GroupConfig.w_cfg (at_ 0%nat)) = m → GroupConfig.n (GroupConfig.w_cfg (kvat 0%nat)) = m →
  ((∃ i, Leader at_ = Val (true, i) ∧ (i < m)%nat ∧ leading (at_ i) i ∧ ∀ j, (j < i)%nat → ¬ leading (at_ j) j) ∨
   (Leader at_ = Val (false, 0%nat) ∧ ∀ j, (j < m)%nat → ¬ leading (at_ j) j)) ∧
  (∀ i, (i < m)%nat → GroupConfig.kvservers (GroupConfig.w_cfg (kvat i)) !! i = Some None →
     (∀ j, (j < i)%nat → ¬ leading (kvat j) j) → GroupConfig.Leader kvat = Panic).
Proof.
  intros Hs Hk Hn Hnk. split.
  - unfold Leader. rewrite Hn.
    assert (Hloop : ∀ k a, (a + k = m)%nat → (∀ j, (j < a)%nat → ¬ leading (at_ j) j) →
      (∃ i, Leader_loop at_ (seq a k) = Val (true, i) ∧ (i < m)%nat ∧ leading (at_ i) i ∧ ∀ j, (j < i)%nat → ¬ leading (at_ j) j) ∨
      (Leader_loop at_ (seq a k) = Val (false, 0%nat) ∧ ∀ j, (j < m)%nat → ¬ leading (at_ j) j)).
    { induction k as [|k IH]; intros a Ha Hno; [right; split; [done|]; intros j Hj; apply Hno; lia|]. simpl.
      destruct (leads_ok m (at_ a) a (Hs a)) as (b & -> & Hb); [lia|]. cbn [mbind result_bind]. destruct b.
      - left. exists a. split; [done|]. split; [lia|]. split; [by apply Hb|done].
      - apply IH; [lia|]. intros j Hj. destruct (decide (j = a)) as [->|]; [|apply Hno; lia]. intros Hl. by apply Hb in Hl. }
    apply (Hloop m 0%nat); [lia|]. intros j Hj. lia.
  - intros i Hi Hnil Hno. unfold GroupConfig.Leader. rewrite Hnk.
    assert (Hloop : ∀ k a, (a + k = m)%nat → (a ≤ i)%nat → GroupConfig.Leader_loop kvat (seq a k) = Panic).
    { induction k as [|k IH]; intros a Ha Hai; [lia|]. simpl.
      destruct (Hk a a) as ([s|] & E & _); [lia|..].
      - destruct (get_state_ok m (kvat a) a s (Hk a)) as (t & b & -> & Hb); [lia|done|]. cbn [mbind result_bind].
        destruct (decide (a = i)) as [->|Hne]; [congruence|].
        destruct b; [by destruct (Hno a); [lia|apply Hb]|]. apply IH; lia.
      - unfold GroupConfig.get_state. by rewrite E. }
    apply (Hloop m 0%nat); lia.
Qed.

(** Three controllers and three servers, the first of each shut down. *)
Definition demo_ctrlers : world (W:=()) (X:=()) :=
  GroupRuns.demo_value (GroupConfig.World (GroupConfig.Config MakeNetwork 0 [] [] [] ∅ 0 0 0 0 0 0) [] [] [] [] [])
    (w ← make_config (λ _, DOther "") (λ _, []) (λ _, []) 0 3 false RaftWiring.letters; ShutdownServer 0 w).

Definition demo_kvs : GroupConfig.world (W:=()) (X:=()) (Srv:=KvRaft.KvRaft.KVServer) :=
  GroupRuns.demo_value GroupRuns.demo_w (GroupRuns.demo_run [GroupLinks.OShutdown 0]).

Lemma Leader_skips_dead_witness :
  GroupConfig.Leader (λ _, demo_kvs) = Panic ∧ Leader (λ _, demo_ctrlers) = Val (false, 0%nat).
Proof.
  destruct (Leader_skips_dead (λ _, demo_ctrlers) (λ _, demo_kvs) 3) as [H1 H2].
  - intros _ i Hi. destruct i as [|[|[|i]]]; [..|lia]; eexists; (split; [vm_compute; reflexivity|]); intros s Hs;
      [discriminate Hs|injection Hs as <-; vm_compute; lia..].
  - intros _ i Hi. destruct i as [|[|[|i]]]; [..|lia]; eexists; (split; [vm_compute; reflexivity|]); intros s Hs;
      [discriminate Hs|injection Hs as <-; vm_compute; lia..].
  - vm_compute. reflexivity.
  - vm_compute. reflexivity.
  - split; [apply (H2 0%nat); [lia|vm_compute; reflexivity|intros j Hj; lia]|]. vm_compute. reflexivity.
Defined.

End CtrlerConfig.
