(* ===== verification/ShardKvConfig.v ===== *)
(** * The tester of the sharded key/value service

    [src/6.5840/src/shardkv/config.go]: groups of servers and a replicated controller
    on the simulated network, where servers have names of their own, the clerks of
    the tests, shutdowns and restarts of servers and groups, and what the tester
    asks of the controller. The operations end like those of [RaftConfig]. What
    [randstring] draws is a sequence of strings that the world carries; times are
    arguments. *)
From stdpp Require Import pretty.
From S2P Require Import Prelude LabGob LabRpc Persister Raft RaftConfig GroupConfig.
From S2P Require ShardCtrler ShardKv.
Import LabGob LabRpc.
Import RaftConfig (result, NoFuel, Panic, LogFatal, TestFatal, Val, result_ret, result_bind, or_panic, for_each, write, TookTooLong,
  LogTooBig, SnapshotNotEmpty).
Local Open Scope Z_scope.

Module ShardKvConfig.

Abbreviation result := (RaftConfig.result ()).
Abbreviation ShardKV := ShardKv.ShardKv.ShardKV.
Abbreviation ShardCtrler := ShardCtrler.ShardCtrler.ShardCtrler.
Abbreviation CtrlerClerk := (ShardCtrler.ShardCtrler.Clerk (srv:=string)).

(** Randomize server handles; nobody in the package calls it. *)
Definition random_handles {A} : (nat → nat) → list A → result (list A) := GroupConfig.random_handles.

(** Pointers to servers and persisters are numbers. *)
Record group := Group {
  gid : Z;
  servers : list (option nat);
  saved : list (option nat);
  endnames : list (option (list string));
  mendnames : list (option (list string));
}.

(** A replicated shardctrler service. *)
Record ctrler := Ctrler {
  ctl_n : nat;
  ctl_servers : list (option nat);
  names : list string;
  ck : option CtrlerClerk;
}.

Record config := Config {
  net : Network (N:=string);
  start : Z;
  ctl : option ctrler;
  ngroups : nat;
  n : nat;
  groups : list (option group);
  clerks : gmap nat (list string);
  nextClientId : Z;
  maxraftstate : Z;
}.

Definition set_net (x : Network (N:=string)) (c : config) : config :=
  Config x (start c) (ctl c) (ngroups c) (n c) (groups c) (clerks c) (nextClientId c) (maxraftstate c).
Definition set_ctl (x : option ctrler) (c : config) : config :=
  Config (net c) (start c) x (ngroups c) (n c) (groups c) (clerks c) (nextClientId c) (maxraftstate c).
Definition set_groups (x : list (option group)) (c : config) : config :=
  Config (net c) (start c) (ctl c) (ngroups c) (n c) x (clerks c) (nextClientId c) (maxraftstate c).
Definition set_shape (ng m : nat) (gs : list (option group)) (c : config) : config :=
  Config (net c) (start c) (ctl c) ng m gs (clerks c) (nextClientId c) (maxraftstate c).
Definition set_clerks (x : gmap nat (list string)) (id : Z) (c : config) : config :=
  Config (net c) (start c) (ctl c) (ngroups c) (n c) (groups c) x id (maxraftstate c).

Definition set_servers (x : list (option nat)) (gg : group) : group := Group (gid gg) x (saved gg) (endnames gg) (mendnames gg).
Definition set_saved (x : list (option nat)) (gg : group) : group := Group (gid gg) (servers gg) x (endnames gg) (mendnames gg).
Definition set_endnames (x : list (option (list string))) (gg : group) : group := Group (gid gg) (servers gg) (saved gg) x (mendnames gg).
Definition set_mendnames (x : list (option (list string))) (gg : group) : group := Group (gid gg) (servers gg) (saved gg) (endnames gg) x.

(** The [i]'th server of group [gid], for labrpc. *)
Definition servername (gid : Z) (i : nat) : string := "server-" +:+ pretty gid +:+ "-" +:+ pretty (Z.of_nat i).

Definition ctrlername (ct : ctrler) (i : nat) : result string := or_panic (names ct !! i).

Section config.
(** [W] and [X] are the objects and values of labrpc. *)
Context {W X : Type} `{Codec X} (types : rtype → desc).
(** What reflection finds on the server, or the controller, with this number, and
    on its Raft object. *)
Context (kv_methods kv_raft_methods ctl_methods ctl_raft_methods : nat → list (Method (W:=W) (V:=X))).

(** The objects: a server with its ends to the group and to the controller, a
    controller with its ends, the persisters and their arrays, the servers of
    labrpc, the ends of a clerk, and the random strings with how many were drawn. *)
Record world := World {
  w_cfg : config;
  w_kvs : list (ShardKV * list string * list string);
  w_ctls : list (ShardCtrler * list string);
  w_persisters : list Persister.Persister;
  w_store : list (list Byte.byte);
  w_servers : list (Server (W:=W) (V:=X));
  w_clerks : list (list string);
  w_random : nat → string;
  w_drawn : nat;
}.

Definition with_cfg (c : config) (w : world) : world :=
  World c (w_kvs w) (w_ctls w) (w_persisters w) (w_store w) (w_servers w) (w_clerks w) (w_random w) (w_drawn w).
Definition with_kvs (x : list (ShardKV * list string * list string)) (w : world) : world :=
  World (w_cfg w) x (w_ctls w) (w_persisters w) (w_store w) (w_servers w) (w_clerks w) (w_random w) (w_drawn w).
Definition with_ctls (x : list (ShardCtrler * list string)) (w : world) : world :=
  World (w_cfg w) (w_kvs w) x (w_persisters w) (w_store w) (w_servers w) (w_clerks w) (w_random w) (w_drawn w).
Definition with_persisters (x : list Persister.Persister) (w : world) : world :=
  World (w_cfg w) (w_kvs w) (w_ctls w) x (w_store w) (w_servers w) (w_clerks w) (w_random w) (w_drawn w).
Definition with_servers (x : list (Server (W:=W) (V:=X))) (w : world) : world :=
  World (w_cfg w) (w_kvs w) (w_ctls w) (w_persisters w) (w_store w) x (w_clerks w) (w_random w) (w_drawn w).
Definition with_clerks (x : list (list string)) (w : world) : world :=
  World (w_cfg w) (w_kvs w) (w_ctls w) (w_persisters w) (w_store w) (w_servers w) x (w_random w) (w_drawn w).
Definition with_drawn (x : nat) (w : world) : world :=
  World (w_cfg w) (w_kvs w) (w_ctls w) (w_persisters w) (w_store w) (w_servers w) (w_clerks w) (w_random w) x.

Definition on_net (f : Network (N:=string) → Network (N:=string)) (w : world) : world :=
  with_cfg (set_net (f (net (w_cfg w))) (w_cfg w)) w.

Definition randstring (w : world) : string * world := (w_random w (w_drawn w), with_drawn (S (w_drawn w)) w).

(** [failed] is [t.Failed()]. *)
Definition checkTimeout (failed : bool) (now : Z) (c : config) : result () :=
  if negb failed && (120 * GroupConfig.second <? now - start c) then TestFatal TookTooLong else Val ().

(** ** Ends *)

(** An end that is made, connected and enabled; labrpc ends the program when the
    name is in use. *)
Definition new_end (endname server : string) (w : world) : result world :=
  match MakeEnd endname (net (w_cfg w)) with
  | None => LogFatal None
  | Some nt => Val (on_net (λ _, Enable endname true (Connect endname server nt)) w)
  end.

(** The function that servers and clerks are given to make an end by themselves. *)
Definition make_end (server : string) (w : world) : result (string * world) :=
  let '(name, w) := randstring w in
  w ← new_end name server w;
  Val (name, w).

(** An end to server [j] of the controller; [store_name] is where its name goes. *)
Definition ctrler_end {A} (ct : ctrler) (store_name : nat → string → A → result A) (j : nat) (s : A * list string * world)
  : result (A * list string * world) :=
  let '(a, ends, w) := s in
  let '(name, w) := randstring w in
  a ← store_name j name a;
  server ← ctrlername ct j;
  w ← new_end name server w;
  Val (a, ends ++ [name], w).

(** An end for every server of the controller. *)
Definition ctrler_ends {A} (ct : ctrler) (store_name : nat → string → A → result A) (a : A) (w : world)
  : result (A * list string * world) :=
  for_each (ctl_n ct) (ctrler_end ct store_name) (a, [], w).

(** [endnames[j] = name]. *)
Definition store_at (j : nat) (name : string) (endnames : list string) : result (list string) := write endnames j name.

(** A clerk with an end for every server of the controller; the slice for their
    names has the size of a group. *)
Definition makeClient (ct : ctrler) (w : world) : result (nat * world) :=
  '(endnames, ends, w) ← ctrler_ends ct store_at (replicate (n (w_cfg w)) "") w;
  let ck := length (w_clerks w) in
  let c := w_cfg w in
  let c := set_clerks (<[ck := endnames]> (clerks c)) (wrap_s 64 (nextClientId c + 1)) c in
  Val (ck, with_clerks (w_clerks w ++ [ends]) (with_cfg c w)).

(** It also removes files with the names of the ends, and there are none; the
    ends stay on the network. *)
Definition deleteClient (ck : nat) (c : config) : config := set_clerks (delete ck (clerks c)) (nextClientId c) c.

(** ** Servers *)

Definition get_group (gi : nat) (w : world) : result group := or_panic (mjoin (groups (w_cfg w) !! gi)).

(** The fields of the group that [cfg.groups[gi]] points to. *)
Definition put_group (gi : nat) (gg : group) (w : world) : world :=
  with_cfg (set_groups (<[gi := Some gg]> (groups (w_cfg w))) (w_cfg w)) w.

(** [gg.saved[i] = gg.saved[i].Copy()], when there is one. *)
Definition copy_saved (i : nat) (gg : group) (w : world) : result (group * world) :=
  sv ← or_panic (saved gg !! i);
  match sv with
  | None => Val (gg, w)
  | Some p =>
      ps ← or_panic (w_persisters w !! p);
      sv ← write (saved gg) i (Some (length (w_persisters w)));
      Val (set_saved sv gg, with_persisters (w_persisters w ++ [Persister.Copy ps]) w)
  end.

(** Shutdown [i]'th server of [gi]'th group, by isolating it. *)
Definition ShutdownServer (gi i : nat) (w : world) : result world :=
  gg ← get_group gi w;
  w ← for_each (length (servers gg)) (λ j w,
        ens ← or_panic (mjoin (endnames gg !! i));
        name ← or_panic (ens !! j);
        Val (on_net (Enable name false) w)) w;
  mens ← or_panic (mendnames gg !! i);
  w ← for_each (length (default [] mens)) (λ j w,
        name ← or_panic (default [] mens !! j);
        Val (on_net (Enable name false) w)) w;
  let w := on_net (DeleteServer (servername (gid gg) i)) w in
  '(gg, w) ← copy_saved i gg w;
  kv ← or_panic (servers gg !! i);
  match kv with
  | None => Val (put_group gi gg w)
  | Some s =>
      '(kv, es, ms) ← or_panic (w_kvs w !! s);
      let w := with_kvs (<[s := (ShardKv.ShardKv.Kill kv, es, ms)]> (w_kvs w)) w in
      svs ← write (servers gg) i None;
      Val (put_group gi (set_servers svs gg) w)
  end.

Definition ShutdownGroup (gi : nat) (w : world) : result world :=
  for_each (n (w_cfg w)) (λ i, ShutdownServer gi i) w.

(** [m] random strings. *)
Definition draw_names (m : nat) (w : world) : list string * world :=
  (w_random w <$> seq (w_drawn w) m, with_drawn (w_drawn w + m) w).

(** [gg.mendnames[i][j] = name]. *)
Definition store_mendname (i : nat) (j : nat) (name : string) (gg : group) : result group :=
  mens ← or_panic (mjoin (mendnames gg !! i));
  mens ← write mens j name;
  ms ← write (mendnames gg) i (Some mens);
  Val (set_mendnames ms gg).

(** The persister a server is started with. *)
Definition load_saved (i : nat) (gg : group) (w : world) : result (group * world) :=
  sv ← or_panic (saved gg !! i);
  match sv with
  | Some _ => copy_saved i gg w
  | None =>
      sv ← write (saved gg) i (Some (length (w_persisters w)));
      Val (set_saved sv gg, with_persisters (w_persisters w ++ [Persister.MakePersister]) w)
  end.

(** The server of labrpc in front of a service and its Raft object. *)
Definition front (svc_name : string) (methods raft_methods : nat → list (Method (W:=W) (V:=X))) (s : nat) : Server :=
  AddService (MakeService types "Raft" (raft_methods s)) (AddService (MakeService types svc_name (methods s)) MakeServer).

(** Start [i]'th server in [gi]'th group. *)
Definition StartServer (gi i : nat) (w : world) : result world :=
  gg ← get_group gi w;
  let '(es, w) := draw_names (n (w_cfg w)) w in
  ens ← write (endnames gg) i (Some es);
  let gg := set_endnames ens gg in
  w ← for_each (n (w_cfg w)) (λ j w, e ← or_panic (es !! j); new_end e (servername (gid gg) j) w) w;
  ct ← or_panic (ctl (w_cfg w));
  ms ← write (mendnames gg) i (Some (replicate (ctl_n ct) ""));
  '(gg, mends, w) ← ctrler_ends ct (store_mendname i) (set_mendnames ms gg) w;
  '(gg, w) ← load_saved i gg w;
  let kv := ShardKv.ShardKv.StartServer (length es) (Z.of_nat i) (maxraftstate (w_cfg w)) (gid gg) in
  svs ← write (servers gg) i (Some (length (w_kvs w)));
  let srv := front "ShardKV" kv_methods kv_raft_methods (length (w_kvs w)) in
  let w := with_kvs (w_kvs w ++ [(kv, es, mends)]) (put_group gi (set_servers svs gg) w) in
  let w := on_net (AddServer (servername (gid gg) i) (length (w_servers w))) w in
  Val (with_servers (w_servers w ++ [srv]) w).

Definition StartGroup (gi : nat) (w : world) : result world := for_each (n (w_cfg w)) (λ i, StartServer gi i) w.

(** ** The controller *)

(** Nothing is stored but the ends. *)
Definition store_none (j : nat) (name : string) (_ : ()) : result () := Val ().

Definition StartCtrlerServer (ct : ctrler) (i : nat) (w : world) : result (ctrler * world) :=
  '(_, ends, w) ← ctrler_ends ct store_none () w;
  let p := length (w_persisters w) in
  let w := with_persisters (w_persisters w ++ [Persister.MakePersister]) w in
  let sc := ShardCtrler.ShardCtrler.StartServer (length ends) (Z.of_nat i) in
  svs ← write (ctl_servers ct) i (Some (length (w_ctls w)));
  let srv := front "ShardCtrler" ctl_methods ctl_raft_methods (length (w_ctls w)) in
  let w := with_ctls (w_ctls w ++ [(sc, ends)]) w in
  let ct := Ctrler (ctl_n ct) svs (names ct) (ck ct) in
  name ← ctrlername ct i;
  let w := on_net (AddServer name (length (w_servers w))) w in
  Val (ct, with_servers (w_servers w ++ [srv]) w).

Definition ctrlerclerk (ct : ctrler) (w : world) : result (CtrlerClerk * world) :=
  '(_, ends, w) ← ctrler_ends ct store_none () w;
  Val (ShardCtrler.ShardCtrler.MakeClerk ends, w).

(** Three controllers, with random names. *)
Definition StartCtrlerService (w : world) : result (ctrler * world) :=
  let m := 3%nat in
  let '(rs, w) := draw_names m w in
  let ct := Ctrler m (replicate m None) (String.append "ctlr-" <$> rs) None in
  '(ct, w) ← for_each m (λ i '(ct, w), StartCtrlerServer ct i w) (ct, w);
  '(k, w) ← ctrlerclerk ct w;
  Val (Ctrler (ctl_n ct) (ctl_servers ct) (names ct) (Some k), w).

(** ** Joining and leaving *)

Section calls.
(** What [Call] does, as for the clerks of the controller. *)
Context {T : Type}.
Context (Call_Join : T → string → ShardCtrler.ShardCtrler.JoinArgs → T * option ShardCtrler.ShardCtrler.JoinReply).
Context (Call_Leave : T → string → ShardCtrler.ShardCtrler.LeaveArgs → T * option ShardCtrler.ShardCtrler.LeaveReply).

Definition done_or_no_fuel (r : T * option ()) : result T := match r with (t, Some _) => Val t | (_, None) => NoFuel end.

(** The groups [gis] with the names of their servers. *)
Definition join_map (gis : list nat) (w : world) : result (gmap Z (list string)) :=
  foldl (λ acc g,
    m ← acc;
    gg ← get_group g w;
    Val (<[gid gg := servername (gid gg) <$> seq 0 (n (w_cfg w))]> m)) (Val ∅) gis.

(** Tell the shardctrler that groups are joining. *)
Definition joinm (fuel : nat) (gis : list nat) (ct : ctrler) (w : world) (t : T) : result T :=
  m ← join_map gis w;
  k ← or_panic (ck ct);
  done_or_no_fuel (ShardCtrler.ShardCtrler.Join Call_Join fuel k m t).

Definition ctljoin (fuel gi : nat) (ct : ctrler) (w : world) (t : T) : result T := joinm fuel [gi] ct w t.

Definition join (fuel gi : nat) (w : world) (t : T) : result T :=
  ct ← or_panic (ctl (w_cfg w));
  joinm fuel [gi] ct w t.

(** The numbers of the groups [gis]. *)
Definition leave_gids (gis : list nat) (w : world) : result (list Z) :=
  foldl (λ acc g, gids ← acc; gg ← get_group g w; Val (gids ++ [gid gg])) (Val []) gis.

(** Tell the shardctrler that groups are leaving. *)
Definition leavem (fuel : nat) (gis : list nat) (w : world) (t : T) : result T :=
  gids ← leave_gids gis w;
  ct ← or_panic (ctl (w_cfg w));
  k ← or_panic (ck ct);
  done_or_no_fuel (ShardCtrler.ShardCtrler.Leave Call_Leave fuel k gids t).

Definition leave (fuel gi : nat) (w : world) (t : T) : result T := leavem fuel [gi] w t.

End calls.

(** ** Set-up and checks *)

(** Group [gi] without servers; the slice for the ends to the controller has the
    size of the controller. *)
Definition empty_group (gi m ctln : nat) : group :=
  Group (100 + Z.of_nat gi) (replicate m None) (replicate m None) (replicate m None) (replicate ctln None).

Definition make_group (gi : nat) (w : world) : result world :=
  ct ← or_panic (ctl (w_cfg w));
  gs ← write (groups (w_cfg w)) gi (Some (empty_group gi (n (w_cfg w)) (ctl_n ct)));
  StartGroup gi (with_cfg (set_groups gs (w_cfg w)) w).

Definition make_config (now : Z) (m : nat) (unreliable : bool) (maxraftstate : Z) (random : nat → string) : result world :=
  let c := Config MakeNetwork now None 0 0 [] ∅ 0 maxraftstate in
  '(ct, w) ← StartCtrlerService (World c [] [] [] [] [] [] random 0);
  let c := set_shape 3 m (replicate 3 None) (set_ctl (Some ct) (w_cfg w)) in
  w ← for_each 3 make_group (with_cfg c w);
  let w := with_cfg (set_clerks ∅ (wrap_s 64 (Z.of_nat m + 1000)) (w_cfg w)) w in
  Val (on_net (Reliable (negb unreliable)) w).

Definition cleanup (failed : bool) (now : Z) (w : world) : result world :=
  w ← for_each (ngroups (w_cfg w)) ShutdownGroup w;
  ct ← or_panic (ctl (w_cfg w));
  w ← for_each (ctl_n ct) (λ i w,
        s ← or_panic (mjoin (ctl_servers ct !! i));
        '(sc, es) ← or_panic (w_ctls w !! s);
        Val (with_ctls (<[s := (ShardCtrler.ShardCtrler.Kill sc, es)]> (w_ctls w)) w)) w;
  nt ← or_panic (Cleanup (net (w_cfg w)));
  let w := on_net (λ _, nt) w in
  _ ← checkTimeout failed now (w_cfg w);
  Val w.

(** What [checklogs] says about one persister. *)
Definition checklog (limit : Z) (raft snap : nat) : result () :=
  if bool_decide (0 <= limit) && (wrap_s 64 (8 * limit) <? Z.of_nat raft) then TestFatal (LogTooBig raft limit)
  else if (limit <? 0) && (0 <? Z.of_nat snap) then TestFatal SnapshotNotEmpty
  else Val ().

(** Check that no server's log is too big. *)
Definition checklogs (w : world) : result () :=
  for_each (ngroups (w_cfg w)) (λ gi _,
    for_each (n (w_cfg w)) (λ i _,
      gg ← get_group gi w;
      p ← or_panic (mjoin (saved gg !! i));
      ps ← or_panic (w_persisters w !! p);
      checklog (maxraftstate (w_cfg w)) (Persister.RaftStateSize ps)
        (Persister.slice_len (Persister.ReadSnapshot (w_store w) ps).2)) ()) ().

End config.
End ShardKvConfig.
