(* ===== verification/ShardKvLinks.v ===== *)
(** * Whose ends lead where in the tests of the sharded service

    The servers, controllers and clerks that [src/6.5840/src/shardkv/config.go] starts
    own ends of the simulated network with random names. This file says which, where
    they lead and when they are enabled, and that making ends and switching off the
    ends of one owner keep that for all the others. *)
From S2P Require Import Prelude LabGob LabRpc Persister Raft RaftConfig ShardKvConfig.
From S2P Require ShardCtrler ShardKv.
Import LabGob LabRpc.
Import RaftConfig (NoFuel, Panic, LogFatal, TestFatal, Val, result_ret, result_bind, or_panic, for_each, write).
Import ShardKvConfig.
Local Open Scope Z_scope.

Module ShardKvLinks.

(** ** Operations that end well *)

(** The operation ends with a value that has the property. *)
Definition post {A} (r : result A) (Q : A → Prop) : Prop := match r with Val a => Q a | _ => False end.

Lemma post_mono {A} (r : result A) (Q Q' : A → Prop) : post r Q → (∀ a, Q a → Q' a) → post r Q'.
Proof. destruct r; simpl; auto. Qed.

Lemma post_bind {A B} (r : result A) (k : A → result B) (R : A → Prop) (Q : B → Prop) :
  post r R → (∀ a, R a → post (k a) Q) → post (a ← r; k a) Q.
Proof. destruct r; simpl; try done. intros HR Hk. by apply Hk. Qed.

Lemma post_Val {A} (r : result A) Q : post r Q ↔ ∃ a, r = Val a ∧ Q a.
Proof. destruct r; simpl; split; try done; try (by intros (? & ? & _)); [by eauto|by intros (? & [= <-] & ?)]. Qed.

Lemma post_or_panic {A} (o : option A) a (Q : A → Prop) : o = Some a → Q a → post (or_panic o) Q.
Proof. by intros ->. Qed.

Lemma post_write {A} (l : list A) i x (Q : list A → Prop) : (i < length l)%nat → Q (<[i := x]> l) → post (write l i x) Q.
Proof. intros Hi HQ. unfold write. by rewrite decide_True. Qed.

Lemma write_panics {A} (l : list A) i x : (length l ≤ i)%nat → (write l i x : result _) = Panic.
Proof. intros Hi. unfold write. by rewrite decide_False by lia. Qed.

Lemma for_each_snoc {A} m (body : nat → A → result A) a : for_each (S m) body a = (x ← for_each m body a; body m x).
Proof. unfold for_each. by rewrite seq_S, foldl_app. Qed.

(** A loop whose turns keep [I]. *)
Lemma post_for_each {A} m (body : nat → A → result A) (I : nat → A → Prop) a :
  I 0%nat a → (∀ j x, (j < m)%nat → I j x → post (body j x) (I (S j))) → post (for_each m body a) (I m).
Proof.
  intros H0 Hb. induction m as [|m IH]; [done|]. rewrite for_each_snoc.
  apply (post_bind _ _ (I m)); [apply IH; intros; apply Hb; [lia|done]|]. intros x Hx. by apply Hb; [lia|].
Qed.

(** A loop that panics in turn [m]. *)
Lemma for_each_panics {A} m k (body : nat → A → result A) (I : A → Prop) a :
  (m < k)%nat → post (for_each m body a) I → (∀ x, I x → body m x = Panic) → for_each k body a = Panic.
Proof.
  intros Hk Hm Hb. apply post_Val in Hm as (x & Hx & HI). induction k as [|k IH]; [lia|]. rewrite for_each_snoc.
  destruct (decide (m = k)) as [->|]; [|rewrite IH by lia; done]. rewrite Hx. cbn [mbind result_bind]. by apply Hb.
Qed.

Lemma zip_snoc {A B} (l : list A) (k : list B) x y : k !! length l = Some y → zip (l ++ [x]) k = zip l k ++ [(x, y)].
Proof. revert k. induction l as [|a l IH]; intros [|b k] H; simpl in *; try done; [congruence|]. f_equal. by apply IH. Qed.

(** ** Ends that are made *)

Section grows.
Implicit Types (rn : Network (N:=string)) (new : list (string * string)).

(** Ends that lead somewhere, and are enabled, were added. *)
Record grows rn rn' new : Prop := Grows {
  gw_servers : LabRpc.servers rn' = LabRpc.servers rn;
  gw_closed : closed rn' = closed rn;
  gw_ends e : e ∈ ends rn' ↔ e ∈ ends rn ∨ e ∈ new.*1;
  gw_new e t : (e, t) ∈ new → read (connections rn') e = Some t ∧ enabled rn' !! e = Some true;
  gw_old e : e ∉ new.*1 → connections rn' !! e = connections rn !! e ∧ enabled rn' !! e = enabled rn !! e;
}.

Lemma shard_grows_refl rn : grows rn rn [].
Proof. split; try done; [|by intros ? ? ?%elem_of_nil]. intros e. simpl. split; [by left|by intros [?|?%elem_of_nil]]. Qed.

Lemma shard_grows_trans rn rn1 rn2 a b :
  grows rn rn1 a → grows rn1 rn2 b → (∀ e, e ∈ b.*1 → e ∉ ends rn1) → grows rn rn2 (a ++ b).
Proof.
  intros [S1 C1 E1 N1 O1] [S2 C2 E2 N2 O2] Hb. split; [congruence|congruence|..].
  - intros e. rewrite E2, E1, fmap_app, elem_of_app. tauto.
  - intros e t [Ha|H2]%elem_of_app; [|by apply N2].
    assert (He : e ∈ a.*1) by (by apply (list_elem_of_fmap_2 fst a (e, t))).
    unfold read. destruct (O2 e) as [-> ->]; [|by apply N1]. intros Hin. apply (Hb e Hin), E1. by right.
  - intros e. rewrite fmap_app, not_elem_of_app. intros [Ha H2]. destruct (O2 e H2) as [-> ->]. by apply O1.
Qed.

Lemma grows_one rn nt e t : MakeEnd e rn = Some nt → grows rn (Enable e true (Connect e t nt)) [(e, t)].
Proof.
  unfold MakeEnd. case_decide as Hin; [done|]. intros [= <-]. split; try done; simpl.
  - intros x. rewrite elem_of_union, elem_of_singleton, list_elem_of_singleton. tauto.
  - intros x y [= -> ->]%list_elem_of_singleton. unfold read. simpl. by rewrite !lookup_insert_eq.
  - intros x Hx. rewrite list_elem_of_singleton in Hx. by rewrite !lookup_insert_ne by done.
Qed.

(** ** Owners of ends *)

(** A server object, a controller object, a clerk, the clerk of the tester at the
    controller, and what servers and clerks made with [make_end]. *)
Inductive owner := Serv (s : nat) | Ctl (s : nat) | Clk (ck : nat) | Tester | Made.

#[global] Instance owner_eq_dec : EqDecision owner.
Proof. solve_decision. Defined.

(** Every owner has ends [own o] of its own, which lead to the servers they are
    listed with and are enabled exactly when the owner is [live]. *)
Record wired rn (own : owner → list (string * string)) (live : owner → Prop) : Prop := Wired {
  wi_disjoint o o' e : e ∈ (own o).*1 → e ∈ (own o').*1 → o = o';
  wi_on o e t : (e, t) ∈ own o → e ∈ ends rn ∧ read (connections rn) e = Some t ∧ (default false (enabled rn !! e) = true ↔ live o);
}.

Lemma shard_wired_ext rn rn' own own' live live' :
  wired rn own live → ends rn' = ends rn → connections rn' = connections rn → enabled rn' = enabled rn →
  (∀ o, own' o = own o) → (∀ o, live' o ↔ live o) → wired rn' own' live'.
Proof.
  intros [H1 H2] E1 E2 E3 Ho Hl. split.
  - intros o o' e. rewrite !Ho. apply H1.
  - intros o e t. rewrite Ho, Hl, E1, E2, E3. apply H2.
Qed.

(** The owner [o] gets new ends. *)
Lemma wired_grows rn rn' own own' live live' new o :
  wired rn own live → grows rn rn' new → (∀ e, e ∈ new.*1 → e ∉ ends rn) →
  own' o = own o ++ new → (∀ o', o' ≠ o → own' o' = own o') →
  live' o → (∀ o', o' ≠ o → live' o' ↔ live o') → (own o = [] ∨ live o) → wired rn' own' live'.
Proof.
  intros [H1 H2] HG Hf Eo Eo' Lo Lo' Hold.
  assert (Hold1 : ∀ o' e, e ∈ (own o').*1 → e ∈ ends rn).
  { intros o' e ([e' t] & -> & He)%list_elem_of_fmap. by apply (H2 o' e' t). }
  assert (Hin : ∀ o' e, e ∈ (own' o').*1 → (o' = o ∧ e ∈ new.*1) ∨ e ∈ (own o').*1).
  { intros o' e. destruct (decide (o' = o)) as [->|Hne]; [rewrite Eo, fmap_app, elem_of_app; tauto|]. rewrite Eo' by done. by right. }
  split.
  - intros o1 o2 e [[-> F1]|F1]%Hin [[-> F2]|F2]%Hin; [done|..]; [|..|by apply (H1 o1 o2 e)].
    + by destruct (Hf e F1 (Hold1 _ _ F2)).
    + by destruct (Hf e F2 (Hold1 _ _ F1)).
  - assert (Hkeep : ∀ o' e t, (e, t) ∈ own o' → (live' o' ↔ live o') →
      e ∈ ends rn' ∧ read (connections rn') e = Some t ∧ (default false (enabled rn' !! e) = true ↔ live' o')).
    { intros o' e t He Hl. destruct (H2 o' e t He) as (G1 & G2 & G3). unfold read.
      destruct (gw_old _ _ _ HG e) as [-> ->]; [intros Hn; by destruct (Hf e Hn)|].
      split_and!; [apply (gw_ends _ _ _ HG); by left|done|by rewrite Hl]. }
    intros o' e t. destruct (decide (o' = o)) as [->|Hne]; [|rewrite Eo' by done; intros He; apply Hkeep; [done|by apply Lo']].
    rewrite Eo, elem_of_app. intros [He|He].
    + apply Hkeep; [done|]. destruct Hold as [E|Hl]; [rewrite E in He; by apply elem_of_nil in He|tauto].
    + destruct (gw_new _ _ _ HG e t He) as [G1 G2]. split_and!; [|done|by rewrite G2].
      apply (gw_ends _ _ _ HG). right. by apply (list_elem_of_fmap_2 fst new (e, t)).
Qed.

(** [Enable(name, false)] for all these names. *)
Definition switch_off (l : list string) rn : Network := foldl (λ rn e, Enable e false rn) rn l.

Lemma switch_off_others l rn :
  LabRpc.servers (switch_off l rn) = LabRpc.servers rn ∧ closed (switch_off l rn) = closed rn ∧
  ends (switch_off l rn) = ends rn ∧ connections (switch_off l rn) = connections rn.
Proof. unfold switch_off. revert rn. induction l as [|e l IH]; intros rn; [done|]. simpl. by destruct (IH (Enable e false rn)) as (-> & -> & -> & ->). Qed.

Lemma switch_off_enabled l rn e : enabled (switch_off l rn) !! e = if decide (e ∈ l) then Some false else enabled rn !! e.
Proof.
  unfold switch_off. revert rn. induction l as [|x l IH]; intros rn; cbn [foldl]; [by rewrite decide_False by apply not_elem_of_nil|].
  rewrite IH. destruct (decide (e ∈ l)) as [Hin|Hni]; [by rewrite decide_True by by right|]. simpl.
  destruct (decide (x = e)) as [->|Hne]; [rewrite lookup_insert_eq, decide_True by left; done|].
  rewrite lookup_insert_ne, decide_False by (done || (intros [?|?]%elem_of_cons; congruence)). done.
Qed.

(** The ends of the owner [o] are switched off. *)
Lemma shard_wired_off rn own own' live live' l o :
  wired rn own live → (∀ e, e ∈ l ↔ e ∈ (own o).*1) → (∀ o', own' o' = own o') →
  ¬ live' o → (∀ o', o' ≠ o → live' o' ↔ live o') → wired (switch_off l rn) own' live'.
Proof.
  intros [H1 H2] Hl Eo Lo Lo'. destruct (switch_off_others l rn) as (_ & _ & E1 & E2). split.
  - intros o1 o2 e. rewrite !Eo. apply H1.
  - intros o' e t. rewrite Eo, E1, E2, switch_off_enabled. intros He. destruct (H2 o' e t He) as (G1 & G2 & G3).
    split_and!; [done..|]. assert (Hf : e ∈ (own o').*1) by (by apply (list_elem_of_fmap_2 fst _ (e, t))).
    destruct (decide (o' = o)) as [->|Hne]; [rewrite decide_True by (by apply Hl); simpl; split; [done|tauto]|].
    rewrite decide_False; [by rewrite Lo'|]. intros Hin%Hl. by apply Hne, (H1 o' o e).
Qed.

End grows.

(** ** Drawing names *)

Section worlds.
Context {W X : Type} `{Codec X} (types : rtype → desc).
Abbreviation world := (world (W:=W) (X:=X)).
Implicit Types (w : world) (ct : ctrler) (new : list (string * string)).

(** Random strings are never drawn twice, and only they name ends. *)
Record random_ok w : Prop := RandomOk {
  ra_inj : Inj (=) (=) (w_random w);
  ra_ends e : e ∈ ends (net (w_cfg w)) → ∃ k, (k < w_drawn w)%nat ∧ e = w_random w k;
}.

(** Strings were drawn, and ends were made with names drawn since. *)
Record drew w w' new : Prop := Drew {
  dr_world : w' = with_drawn (w_drawn w') (on_net (λ _, net (w_cfg w')) w);
  dr_drawn : (w_drawn w ≤ w_drawn w')%nat;
  dr_grows : grows (net (w_cfg w)) (net (w_cfg w')) new;
  dr_new e : e ∈ new.*1 → ∃ k, (w_drawn w ≤ k < w_drawn w')%nat ∧ e = w_random w k;
}.

Lemma drew_random w w' new : drew w w' new → w_random w' = w_random w.
Proof. by intros [-> _ _ _]. Qed.

Lemma drew_refl w : drew w w [].
Proof.
  split; [by destruct w as [[]]|done|apply shard_grows_refl|by intros ? ?%elem_of_nil].
Qed.

Lemma drew_fresh w w' new e : random_ok w → drew w w' new → e ∈ new.*1 → e ∉ ends (net (w_cfg w)).
Proof. intros [Hi He] Hd (k & Hk & ->)%(dr_new _ _ _ Hd) (k' & Hk' & E)%He. apply (inj _) in E. lia. Qed.

Lemma drew_ok w w' new : random_ok w → drew w w' new → random_ok w'.
Proof.
  intros [Hi He] Hd. pose proof (drew_random _ _ _ Hd) as E. split; rewrite E; [done|].
  intros e [(k & Hk & ->)%He|(k & Hk & ->)%(dr_new _ _ _ Hd)]%(gw_ends _ _ _ (dr_grows _ _ _ Hd)).
  - exists k. pose proof (dr_drawn _ _ _ Hd). split; [lia|done].
  - exists k. split; [lia|done].
Qed.

Lemma drew_trans w w1 w2 a b : random_ok w → drew w w1 a → drew w1 w2 b → drew w w2 (a ++ b).
Proof.
  intros Hr H1 H2. pose proof (drew_ok _ _ _ Hr H1) as Hr1. pose proof (drew_random _ _ _ H1) as Er. split.
  - rewrite (dr_world _ _ _ H2) at 1. by rewrite (dr_world _ _ _ H1) at 1.
  - etrans; [apply (dr_drawn _ _ _ H1)|apply (dr_drawn _ _ _ H2)].
  - eapply shard_grows_trans; [apply (dr_grows _ _ _ H1)|apply (dr_grows _ _ _ H2)|]. intros e He. by eapply drew_fresh.
  - pose proof (dr_drawn _ _ _ H1). pose proof (dr_drawn _ _ _ H2). intros e.
    rewrite fmap_app, elem_of_app. intros [(k & Hk & ->)%(dr_new _ _ _ H1)|(k & Hk & ->)%(dr_new _ _ _ H2)]; exists k; rewrite ?Er; (split; [lia|done]).
Qed.

Lemma drew_names m w : drew w (draw_names m w).2 [].
Proof. split; [by destruct w as [[]]|simpl; lia|apply shard_grows_refl|by intros ? ?%elem_of_nil]. Qed.

(** An end with a name that was drawn and not used; later strings may have been drawn too. *)
Lemma new_end_ok k t w w0 :
  random_ok w → w0 = with_drawn (w_drawn w0) w → (w_drawn w ≤ k < w_drawn w0)%nat →
  post (new_end (w_random w k) t w0) (λ w', w_drawn w' = w_drawn w0 ∧ ∀ d, (k < d)%nat → drew w (with_drawn d w') [(w_random w k, t)]).
Proof.
  intros [Hi He] E Hk. unfold new_end. assert (En : net (w_cfg w0) = net (w_cfg w)) by by rewrite E.
  rewrite En. destruct (MakeEnd _ _) as [nt|] eqn:Em.
  - simpl. split; [done|]. intros d Hd. split; simpl; [by rewrite E|lia|by apply grows_one|].
    intros e ->%list_elem_of_singleton. exists k. split; [lia|done].
  - unfold MakeEnd in Em. case_decide as Hin; [|done]. apply He in Hin as (k' & Hk' & E'). apply (inj _) in E'. lia.
Qed.

Lemma with_drawn_same w : with_drawn (w_drawn w) w = w.
Proof. by destruct w. Qed.

Lemma draw_end_ok t w (Q : world → Prop) :
  random_ok w → (∀ w', drew w w' [(w_random w (w_drawn w), t)] → Q w') →
  post (new_end (w_random w (w_drawn w)) t (with_drawn (S (w_drawn w)) w)) Q.
Proof.
  intros Hr HQ. eapply post_mono; [apply new_end_ok; [done|by destruct w|simpl; lia]|]. intros w' [E Hd]. apply HQ.
  rewrite <- (with_drawn_same w'). apply Hd. rewrite E. simpl. lia.
Qed.

(** Ends with names that were all drawn before; end [j] leads to [t j]. *)
Lemma draw_ends_ok m (t : nat → string) w :
  random_ok w → let '(es, w0) := draw_names m w in
  post (for_each m (λ j w, e ← or_panic (es !! j); new_end e (t j) w) w0) (λ w', drew w w' (zip es (t <$> seq 0 m))).
Proof.
  intros Hr. simpl. set (es := w_random w <$> seq (w_drawn w) m). set (d := (w_drawn w + m)%nat).
  eapply post_mono; [apply (post_for_each _ _ (λ j x, w_drawn x = d ∧
    drew w (with_drawn (w_drawn w + j)%nat x) (zip (w_random w <$> seq (w_drawn w) j) (t <$> seq 0 j))))|].
  - rewrite Nat.add_0_r. split; [done|]. replace (with_drawn _ _) with w by by destruct w. apply drew_refl.
  - intros j x Hj [Hx Hd]. unfold es. rewrite list_lookup_fmap, lookup_seq_lt by done. cbn [fmap option_fmap option_map or_panic mbind result_bind].
    pose proof (drew_ok _ _ _ Hr Hd) as Hr'. pose proof (drew_random _ _ _ Hd) as Er. simpl in Er. rewrite <- Er.
    eapply post_mono; [apply (new_end_ok (w_drawn w + j) (t j) (with_drawn (w_drawn w + j)%nat x)); [done|by destruct x|simpl; rewrite Hx; unfold d; lia]|].
    intros x' [Hx' Hd']. rewrite Hx', Hx. split; [done|]. rewrite !seq_S, !fmap_app. simpl.
    rewrite zip_with_app by by rewrite !length_fmap, !length_seq. simpl. eapply drew_trans; [done|rewrite Er; exact Hd|].
    apply Hd'. lia.
  - intros x [Hx Hd]. replace (with_drawn _ x) with x in Hd; [done|]. unfold d in Hx. by rewrite <- Hx, with_drawn_same.
Qed.

Lemma make_end_ok t w : random_ok w → post (make_end t w) (λ '(e, w'), drew w w' [(e, t)]).
Proof. intros Hr. unfold make_end. simpl. eapply post_bind; [apply draw_end_ok; [done|intros w' Hd; exact Hd]|]. by intros. Qed.

(** The first [k] ends to the controller; the store keeps [P]. *)
Lemma ctrler_loop_ok {A} ct k (store : nat → string → A → result A) (P : list string → A → Prop) a w :
  random_ok w → (k ≤ length (names ct))%nat → P [] a →
  (∀ l x e, (length l < k)%nat → P l x → post (store (length l) e x) (P (l ++ [e]))) →
  post (for_each k (ctrler_end ct store) (a, [], w)) (λ '(a', l, w'), drew w w' (zip l (names ct)) ∧ length l = k ∧ P l a').
Proof.
  intros Hr Hlen HP Hs.
  apply (post_for_each _ _ (λ j '(a', l, w'), drew w w' (zip l (names ct)) ∧ length l = j ∧ P l a')).
  { simpl. split; [apply drew_refl|done]. }
  intros j [[x l] wj] Hj (Hd & <- & Hx). simpl. pose proof (drew_ok _ _ _ Hr Hd) as Hrj.
  eapply post_bind; [by apply Hs|]. intros x' Hx'. cbn beta in Hx'.
  destruct (lookup_lt_is_Some_2 (names ct) (length l)) as [nm Hnm]; [lia|].
  eapply post_bind; [by eapply (post_or_panic _ nm (λ n, n = nm)); [exact Hnm|]|]. intros ? ->.
  eapply post_bind; [apply draw_end_ok; [done|intros w' Hd'; exact Hd']|]. intros w' Hd'. simpl.
  rewrite (zip_snoc _ _ _ nm) by done. rewrite length_app. simpl. split; [by eapply drew_trans|]. split; [lia|done].
Qed.

Lemma ctrler_ends_ok {A} ct (store : nat → string → A → result A) (P : list string → A → Prop) a w :
  random_ok w → length (names ct) = ctl_n ct → P [] a →
  (∀ l x e, (length l < ctl_n ct)%nat → P l x → post (store (length l) e x) (P (l ++ [e]))) →
  post (ctrler_ends ct store a w) (λ '(a', l, w'), drew w w' (zip l (names ct)) ∧ length l = ctl_n ct ∧ P l a').
Proof. intros Hr Hlen. apply ctrler_loop_ok; [done|lia]. Qed.

End worlds.
End ShardKvLinks.
