(* ===== verification/ShardKvRuns.v ===== *)
(** * The tests of the sharded service keep the ends in order

    Every operation of the tester of [src/6.5840/src/shardkv/config.go] on every
    world the tests can reach: it does not fail, and the ends of the servers, the
    controllers and the clerks lead where they should, enabled exactly while their
    owner runs. *)
From stdpp Require Import pretty.
From S2P Require Import Prelude LabGob LabRpc Persister Raft RaftConfig RaftWiring ShardKvConfig ShardKvLinks.
From S2P Require ShardCtrler ShardKv.
Import LabGob LabRpc.
Import RaftConfig (NoFuel, Panic, LogFatal, TestFatal, Val, result_ret, result_bind, or_panic, for_each, write).
Import ShardKvConfig ShardKvLinks.
Local Open Scope Z_scope.

Module ShardKvRuns.

(** ** Names of servers *)

Lemma servername_inj g g' i i' :
  (g < 3)%nat → (g' < 3)%nat → servername (100 + Z.of_nat g) i = servername (100 + Z.of_nat g') i' → g = g' ∧ i = i'.
Proof.
  intros Hg Hg'. unfold servername.
  assert (Hp : ∀ g : nat, (g < 3)%nat → pretty (100 + Z.of_nat g) = nth g ["100"; "101"; "102"]%string "")
    by (intros [|[|[|?]]] ?; [..|lia]; done).
  rewrite !Hp by done. destruct g as [|[|[|?]]], g' as [|[|[|?]]]; try lia; cbn [nth]; intros E; try discriminate E;
    injection E as E; apply pretty_Z_inj, Nat2Z.inj in E; by subst.
Qed.

Lemma servername_ctlr g i x : servername g i ≠ ("ctlr-" +:+ x)%string.
Proof. done. Qed.

Lemma join_Some {A} (o : option (option A)) x : mjoin o = Some x ↔ o = Some (Some x).
Proof. destruct o as [[?|]|]; simpl; split; congruence. Qed.

Section runs.
Context {W X : Type} `{Codec X} (types : rtype → desc).
Context (kv_methods kv_raft_methods ctl_methods ctl_raft_methods : nat → list (Method (W:=W) (V:=X))).
Abbreviation world := (world (W:=W) (X:=X)).
Abbreviation StartServer := (StartServer types kv_methods kv_raft_methods).
Abbreviation StartGroup := (StartGroup types kv_methods kv_raft_methods).
Abbreviation make_config := (make_config types kv_methods kv_raft_methods ctl_methods ctl_raft_methods).
Implicit Types (w : world) (ct : ctrler) (gg : group) (c : config).

(** ** What a world means *)

(** What is known of a server object: its group, its number and its ends. *)
Definition object_of (kvs : list (ShardKV * list string * list string)) (s : nat) : option (Z * Z * list string * list string) :=
  (λ x, (ShardKv.ShardKv.gid x.1.1, ShardKv.ShardKv.me x.1.1, x.1.2, x.2)) <$> kvs !! s.

Lemma object_of_lt kvs s x : object_of kvs s = Some x → (s < length kvs)%nat.
Proof. unfold object_of. intros (? & ? & _)%fmap_Some. by eapply lookup_lt_Some. Qed.

(** The object that runs as server [i] of group [gi]. *)
Definition current w (gi i : nat) : option nat := gg ← mjoin (groups (w_cfg w) !! gi); mjoin (servers gg !! i).

Definition running w (s : nat) : Prop := ∃ gi i, current w gi i = Some s.

Definition live w (o : owner) : Prop := match o with Serv s => running w s | _ => True end.

(** The ends of an owner, with the names of the servers they are for. *)
Definition ends_of w ct (made : list (string * string)) (o : owner) : list (string * string) :=
  match o with
  | Serv s =>
      match object_of (w_kvs w) s with
      | Some (g, _, es, ms) => zip es (servername g <$> seq 0 (n (w_cfg w))) ++ zip ms (names ct)
      | None => []
      end
  | Ctl s => match w_ctls w !! s with Some (_, es) => zip es (names ct) | None => [] end
  | Clk ck => zip (default [] (w_clerks w !! ck)) (names ct)
  | Tester => match ck ct with Some k => zip (ShardCtrler.ShardCtrler.servers k) (names ct) | None => [] end
  | Made => made
  end.

(** A server of labrpc with this name is in front of these services. *)
Definition serves w (name : string) (srv : Server (W:=W) (V:=X)) : Prop :=
  ∃ o, read (LabRpc.servers (net (w_cfg w))) name = Some o ∧ w_servers w !! o = Some srv.

(** ** The invariant *)

(** Server [i] was never started, or its names are those of the last object that
    was started for it. *)
Definition slot_ok w gg (i : nat) : Prop :=
  (endnames gg !! i = Some None ∧ servers gg !! i = Some None) ∨
  ∃ es ms s, endnames gg !! i = Some (Some es) ∧ mendnames gg !! i = Some (Some ms) ∧
    object_of (w_kvs w) s = Some (gid gg, Z.of_nat i, es, ms) ∧ (servers gg !! i = Some None ∨ servers gg !! i = Some (Some s)).

Record group_ok w (gi : nat) gg : Prop := GroupOk {
  ok_gid : gid gg = 100 + Z.of_nat gi;
  ok_servers : length (servers gg) = n (w_cfg w);
  ok_saveds : length (saved gg) = n (w_cfg w);
  ok_endnames : length (endnames gg) = n (w_cfg w);
  ok_mendnames : length (mendnames gg) = 3%nat;
  ok_slot i : (i < n (w_cfg w))%nat → slot_ok w gg i;
  ok_saved i p : saved gg !! i = Some (Some p) → (p < length (w_persisters w))%nat;
}.

(** Three controllers, with names of their own, that run. *)
Record ctrler_ok w ct : Prop := CtrlerOk {
  co_n : ctl_n ct = 3%nat;
  co_names : length (names ct) = 3%nat;
  co_name i nm : names ct !! i = Some nm → ∃ x, nm = ("ctlr-" +:+ x)%string;
  co_ck : is_Some (ck ct);
  co_served i nm : names ct !! i = Some nm → ∃ s,
    ctl_servers ct !! i = Some (Some s) ∧ (s < length (w_ctls w))%nat ∧ serves w nm (front types "ShardCtrler" ctl_methods ctl_raft_methods s);
}.

Record good w ct (made : list (string * string)) : Prop := Good {
  gd_random : random_ok w;
  gd_wired : wired (net (w_cfg w)) (ends_of w ct made) (live w);
  gd_ctl : ctl (w_cfg w) = Some ct;
  gd_ctrler : ctrler_ok w ct;
  gd_ngroups : ngroups (w_cfg w) = 3%nat;
  gd_groups : length (groups (w_cfg w)) = 3%nat;
  gd_group gi gg : groups (w_cfg w) !! gi = Some (Some gg) → group_ok w gi gg;
  gd_objs s g m es ms : object_of (w_kvs w) s = Some (g, m, es, ms) → length es = n (w_cfg w) ∧ length ms = 3%nat;
  gd_up gi i s : current w gi i = Some s → serves w (servername (100 + Z.of_nat gi) i) (front types "ShardKV" kv_methods kv_raft_methods s);
  gd_down gi i : (gi < 3)%nat → current w gi i = None → read (LabRpc.servers (net (w_cfg w))) (servername (100 + Z.of_nat gi) i) = None;
}.

(** The group was made, and the server was started at least once. *)
Definition made_group w (gi : nat) : Prop := is_Some (mjoin (groups (w_cfg w) !! gi)).
Definition born w (gi i : nat) : Prop := ∃ gg es, groups (w_cfg w) !! gi = Some (Some gg) ∧ endnames gg !! i = Some (Some es).

(** What no operation of a test changes. *)
Record kept w w' : Prop := Kept {
  kp_n : n (w_cfg w') = n (w_cfg w);
  kp_made gi : made_group w gi → made_group w' gi;
  kp_born gi i : born w gi i → born w' gi i;
  kp_none gi : groups (w_cfg w) !! gi = Some None → groups (w_cfg w') !! gi = Some None;
}.

Lemma kept_refl w : kept w w.
Proof. by split. Qed.

Lemma kept_trans w1 w2 w3 : kept w1 w2 → kept w2 w3 → kept w1 w3.
Proof. intros [E1 M1 B1 N1] [E2 M2 B2 N2]. split; [congruence|auto..]. Qed.

Lemma group_exists w gi : made_group w gi → ∃ gg, groups (w_cfg w) !! gi = Some (Some gg).
Proof. intros [gg Hg]. exists gg. by apply join_Some. Qed.

Lemma get_group_ok w gi gg : groups (w_cfg w) !! gi = Some (Some gg) → get_group gi w = Val gg.
Proof. unfold get_group. by intros ->. Qed.

Lemma group_lt w gi gg : length (groups (w_cfg w)) = 3%nat → groups (w_cfg w) !! gi = Some (Some gg) → (gi < 3)%nat.
Proof. intros <- Hg. by eapply lookup_lt_Some. Qed.

Lemma current_group w gi gg i : groups (w_cfg w) !! gi = Some (Some gg) → current w gi i = mjoin (servers gg !! i).
Proof. unfold current. by intros ->. Qed.

(** Group [gi] is now [gg]. *)
Lemma current_put w w' gi gg gi' i' :
  groups (w_cfg w') = <[gi := Some gg]> (groups (w_cfg w)) → (gi < length (groups (w_cfg w)))%nat →
  current w' gi' i' = if decide (gi' = gi) then mjoin (servers gg !! i') else current w gi' i'.
Proof.
  intros E Hlt. unfold current. rewrite E. case_decide as Hd; [subst; by rewrite list_lookup_insert_eq|].
  by rewrite list_lookup_insert_ne.
Qed.

(** An object runs at one place only, the one that it says. *)
Lemma current_object w ct made gi i s : good w ct made → current w gi i = Some s →
  ∃ es ms, object_of (w_kvs w) s = Some (100 + Z.of_nat gi, Z.of_nat i, es, ms).
Proof.
  intros HG. unfold current. destruct (groups (w_cfg w) !! gi) as [[gg|]|] eqn:Eg; simpl; [|done..].
  intros Hs%join_Some. pose proof (gd_group _ _ _ HG gi gg Eg) as Hok.
  destruct (ok_slot _ _ _ Hok i) as [[_ E]|(es & ms & s' & _ & _ & Hkv & [E|E])]; try congruence.
  - rewrite <- (ok_servers _ _ _ Hok). by eapply lookup_lt_Some.
  - rewrite Hs in E. injection E as <-. exists es, ms. by rewrite <- (ok_gid _ _ _ Hok).
Qed.

Lemma object_place w ct made gi i gi' i' s es ms : good w ct made → current w gi i = Some s →
  object_of (w_kvs w) s = Some (100 + Z.of_nat gi', Z.of_nat i', es, ms) → gi = gi' ∧ i = i'.
Proof. intros HG (es' & ms' & E)%(current_object _ _ _ _ _ _ HG) E'. rewrite E in E'. injection E' as ? ? _ _. lia. Qed.

Lemma fst_ends_of w ct made s g m es ms : good w ct made → object_of (w_kvs w) s = Some (g, m, es, ms) →
  (ends_of w ct made (Serv s)).*1 = es ++ ms.
Proof.
  intros HG E. destruct (gd_objs _ _ _ HG s g m es ms E) as [H1 H2]. simpl. rewrite E, fmap_app, !fst_zip; [done|..].
  - by rewrite H2, (co_names _ _ (gd_ctrler _ _ _ HG)).
  - by rewrite length_fmap, length_seq, H1.
Qed.

(** ** Shutting down *)

Lemma on_net_on_net f g w : on_net f (on_net g w) = on_net (λ rn, f (g rn)) w.
Proof. by destruct w as [[]]. Qed.

Lemma on_net_id w : on_net (λ rn, rn) w = w.
Proof. by destruct w as [[]]. Qed.

Lemma off_loop (l : list string) (body : nat → world → result world) w :
  (∀ j e w, l !! j = Some e → body j w = Val (on_net (Enable e false) w)) →
  for_each (length l) body w = Val (on_net (switch_off l) w).
Proof.
  intros Hb. induction l as [|e l IH] using rev_ind; [simpl; by rewrite on_net_id|].
  rewrite length_app, Nat.add_1_r, for_each_snoc, IH by (intros; apply Hb; by apply lookup_app_l_Some).
  cbn [mbind result_bind]. rewrite (Hb _ e) by by rewrite list_lookup_middle. rewrite on_net_on_net.
  unfold on_net. f_equal. unfold switch_off. by rewrite foldl_app.
Qed.

(** The object that runs as server [i] of the group is killed. *)
Definition kill_at gg (i : nat) (kvs : list (ShardKV * list string * list string)) : list (ShardKV * list string * list string) :=
  match mjoin (servers gg !! i) with
  | Some s => match kvs !! s with Some (kv, es, ms) => <[s := (ShardKv.ShardKv.Kill kv, es, ms)]> kvs | None => kvs end
  | None => kvs
  end.

Lemma object_of_kill gg i kvs s : object_of (kill_at gg i kvs) s = object_of kvs s.
Proof.
  unfold kill_at. destruct (mjoin (servers gg !! i)) as [s'|]; [|done]. destruct (kvs !! s') as [[[kv es] ms]|] eqn:E; [|done].
  unfold object_of. destruct (decide (s = s')) as [->|Hne]; [|by rewrite list_lookup_insert_ne].
  rewrite list_lookup_insert_eq by by eapply lookup_lt_Some. by rewrite E.
Qed.

Definition stopped (gi i : nat) gg (l : list string) sv ps w : world :=
  put_group gi (set_servers (<[i := None]> (servers gg)) (set_saved sv gg))
    (with_kvs (kill_at gg i (w_kvs w)) (with_persisters (w_persisters w ++ ps)
      (on_net (λ rn, DeleteServer (servername (gid gg) i) (switch_off l rn)) w))).

Lemma shard_copy_saved_ok i gg w : (i < length (saved gg))%nat →
  (∀ i p, saved gg !! i = Some (Some p) → (p < length (w_persisters w))%nat) →
  ∃ sv ps, copy_saved i gg w = Val (set_saved sv gg, with_persisters (w_persisters w ++ ps) w) ∧
    length sv = length (saved gg) ∧ ∀ i p, sv !! i = Some (Some p) → (p < length (w_persisters w ++ ps))%nat.
Proof.
  intros Hi Hp. unfold copy_saved. destruct (lookup_lt_is_Some_2 _ _ Hi) as [[p|] E]; rewrite E; cbn [or_panic mbind result_bind].
  - destruct (lookup_lt_is_Some_2 _ _ (Hp i p E)) as [ps ->]. cbn [or_panic mbind result_bind].
    rewrite (RaftWiring.write_ok (V:=())) by done. cbn [mbind result_bind]. eexists _, [_]. split; [done|].
    split; [by rewrite length_insert|]. intros j q. rewrite length_app. simpl. rewrite list_lookup_insert_Some.
    intros [(-> & [= <-] & _)|[_ Hq]]; [lia|]. specialize (Hp j q Hq). lia.
  - exists (saved gg), []. rewrite app_nil_r. split; [|done]. by destruct gg, w as [[]].
Qed.

Lemma stop_eq gi i gg es ms w :
  groups (w_cfg w) !! gi = Some (Some gg) → group_ok w gi gg → (i < n (w_cfg w))%nat →
  endnames gg !! i = Some (Some es) → mendnames gg !! i = Some (Some ms) → length es = n (w_cfg w) →
  (∀ s, servers gg !! i = Some (Some s) → is_Some (w_kvs w !! s)) →
  ∃ sv ps, ShutdownServer gi i w = Val (stopped gi i gg (es ++ ms) sv ps w) ∧
    length sv = length (saved gg) ∧ ∀ i p, sv !! i = Some (Some p) → (p < length (w_persisters w ++ ps))%nat.
Proof.
  intros Hg Hok Hi He Hm Hlen Hs. unfold ShutdownServer. rewrite (get_group_ok _ _ _ Hg). cbn [mbind result_bind].
  rewrite (ok_servers _ _ _ Hok), <- Hlen, (off_loop es).
  2: { intros j e w' Hj. rewrite He. cbn [mjoin option_join or_panic mbind result_bind]. by rewrite Hj. }
  cbn [mbind result_bind]. rewrite Hm. cbn [or_panic mbind result_bind default from_option]. unfold id.
  rewrite (off_loop ms) by (intros j e w' Hj; by rewrite Hj). cbn [mbind result_bind]. rewrite !on_net_on_net.
  destruct (shard_copy_saved_ok i gg (on_net (λ rn, DeleteServer (servername (gid gg) i) (switch_off ms (switch_off es rn))) w))
    as (sv & ps & -> & Hsv & Hps); [by rewrite (ok_saveds _ _ _ Hok)|apply (ok_saved _ _ _ Hok)|].
  cbn [mbind result_bind]. exists sv, ps. split; [|done]. unfold stopped, kill_at.
  assert (Eoff : ∀ rn, switch_off (es ++ ms) rn = switch_off ms (switch_off es rn)) by (intros rn; apply foldl_app).
  destruct (lookup_lt_is_Some_2 (servers gg) i) as [[s|] Es]; [by rewrite (ok_servers _ _ _ Hok)|..]; simpl; rewrite Es; simpl.
  - destruct (Hs s Es) as [[[kv es'] ms'] Ek]. rewrite Ek. cbn [or_panic mbind result_bind].
    rewrite (RaftWiring.write_ok (V:=())) by by rewrite (ok_servers _ _ _ Hok). cbn [mbind result_bind].
    f_equal. unfold on_net. simpl. by rewrite Eoff.
  - f_equal. rewrite list_insert_id by done. unfold on_net. simpl. rewrite Eoff. by destruct gg.
Qed.

(** What a test does to one server leaves the other servers of the group alone. *)
Lemma slot_ok_ext w w' gg gg' i :
  endnames gg' !! i = endnames gg !! i → mendnames gg' !! i = mendnames gg !! i → servers gg' !! i = servers gg !! i → gid gg' = gid gg →
  (∀ s x, object_of (w_kvs w) s = Some x → object_of (w_kvs w') s = Some x) → slot_ok w gg i → slot_ok w' gg' i.
Proof.
  intros E1 E2 E3 E4 Ho. unfold slot_ok. rewrite E1, E2, E3, E4. intros [?|(es & ms & s & ? & ? & Hs & ?)]; [by left|right].
  exists es, ms, s. auto.
Qed.

Lemma group_ok_ext w w' gi gg :
  n (w_cfg w') = n (w_cfg w) → (length (w_persisters w) ≤ length (w_persisters w'))%nat →
  (∀ s x, object_of (w_kvs w) s = Some x → object_of (w_kvs w') s = Some x) → group_ok w gi gg → group_ok w' gi gg.
Proof.
  intros En Hp Ho [H1 H2 H3 H4 H5 H6 H7]. split; rewrite ?En; try done.
  - intros i Hi. by eapply slot_ok_ext; [..|apply H6].
  - intros i p Hs. specialize (H7 i p Hs). lia.
Qed.

Lemma stopped_current gi i gg l sv ps w gi' i' :
  groups (w_cfg w) !! gi = Some (Some gg) →
  current (stopped gi i gg l sv ps w) gi' i' = if decide (gi' = gi ∧ i' = i) then None else current w gi' i'.
Proof.
  intros Hg. rewrite (current_put w (stopped gi i gg l sv ps w) gi _ gi' i' eq_refl) by by eapply lookup_lt_Some. simpl.
  destruct (decide (gi' = gi)) as [->|Hne]; [|by rewrite decide_False by tauto].
  rewrite (current_group w gi gg i' Hg). destruct (decide (i = i')) as [->|Hne].
  - rewrite (decide_True (P:=(gi = gi ∧ i' = i'))) by done. rewrite list_lookup_insert. case_decide as Hd; [done|].
    by rewrite lookup_ge_None_2 by (apply Nat.nlt_ge; tauto).
  - rewrite list_lookup_insert_ne by done. by rewrite decide_False by (intros [_ ->]; done).
Qed.

Lemma good_stopped w ct made gi i gg es ms s sv ps :
  good w ct made → groups (w_cfg w) !! gi = Some (Some gg) → (i < n (w_cfg w))%nat →
  object_of (w_kvs w) s = Some (gid gg, Z.of_nat i, es, ms) → (servers gg !! i = Some None ∨ servers gg !! i = Some (Some s)) →
  length sv = length (saved gg) → (∀ i p, sv !! i = Some (Some p) → (p < length (w_persisters w ++ ps))%nat) →
  good (stopped gi i gg (es ++ ms) sv ps w) ct made.
Proof.
  intros HG Hg Hi Hs Hcur Hsv Hps. pose proof (gd_group _ _ _ HG gi gg Hg) as Hok.
  pose proof (group_lt w gi gg (gd_groups _ _ _ HG) Hg) as Hgi. set (w' := stopped _ _ _ _ _ _ _).
  assert (Hc : ∀ gi' i', current w' gi' i' = if decide (gi' = gi ∧ i' = i) then None else current w gi' i') by (intros; by apply stopped_current).
  assert (Ho : ∀ s, object_of (w_kvs w') s = object_of (w_kvs w) s) by (intros; apply object_of_kill).
  assert (Hrun : ∀ s', s' ≠ s → running w' s' ↔ running w s').
  { intros s' Hne. unfold running. split; intros (gi' & i' & E); exists gi', i'; rewrite Hc in *; case_decide as Hd; try done.
    destruct Hd as [-> ->]. rewrite (current_group w gi gg i Hg) in E. apply join_Some in E. destruct Hcur; congruence. }
  destruct (switch_off_others (es ++ ms) (net (w_cfg w))) as (Es & Ec & Ee & Ect).
  pose proof (gd_random _ _ _ HG) as [Hri Hre]. pose proof (gd_ctrler _ _ _ HG) as [C1 C2 C3 C4 C5].
  split; [| |by apply (gd_ctl _ _ _ HG)| |by apply (gd_ngroups _ _ _ HG)|..].
  - split; [done|]. simpl. rewrite Ee. apply Hre.
  - apply (shard_wired_ext (switch_off (es ++ ms) (net (w_cfg w))) _ (ends_of w ct made) _ (live w')); try done.
    + apply (shard_wired_off _ (ends_of w ct made) _ (live w) _ _ (Serv s)); try done; [by apply (gd_wired _ _ _ HG)|..].
      * intros e. by rewrite (fst_ends_of w ct made s _ _ es ms HG Hs).
      * intros (gi' & i' & E). rewrite Hc in E. case_decide as Hd; [done|]. rewrite (ok_gid _ _ _ Hok) in Hs.
        by destruct (object_place w ct made gi' i' gi i s es ms HG E Hs) as [-> ->]; destruct Hd.
      * intros [s'| | | |] Hne; try done. apply Hrun. congruence.
    + intros [s'| | | |]; try done. simpl. by rewrite Ho.
  - split; try done. intros j nm Hj. destruct (C5 j nm Hj) as (s' & G1 & G2 & o & G3 & G4). exists s'. split; [done|]. split; [done|].
    exists o. split; [|done]. unfold read. simpl. destruct (C3 j nm Hj) as [x ->]. rewrite lookup_insert_ne by apply servername_ctlr. by rewrite Es.
  - simpl. rewrite length_insert. by apply (gd_groups _ _ _ HG).
  - intros gi' gg'. simpl. rewrite list_lookup_insert_Some. intros [(<- & [= <-] & _)|[Hne Hg']].
    + destruct Hok as [H1 H2 H3 H4 H5 H6 H7]. split; simpl; rewrite ?length_insert; try done; [congruence|].
      intros j Hj. unfold slot_ok. setoid_rewrite Ho. simpl. rewrite list_lookup_insert.
      destruct (H6 j Hj) as [[G1 G2]|(es' & ms' & s' & G1 & G2 & G3 & G4)]; [left|right]; (case_decide as Hd; [destruct Hd as [<- _]|]); eauto 10.
    + apply (group_ok_ext w); [done|simpl; rewrite length_app; lia|intros; by rewrite Ho|by apply (gd_group _ _ _ HG)].
  - intros s' g m es' ms'. rewrite Ho. by apply (gd_objs _ _ _ HG).
  - intros gi' i' s'. rewrite Hc. case_decide as Hd; [done|]. intros E. destruct (gd_up _ _ _ HG gi' i' s' E) as (o & G1 & G2).
    exists o. split; [|done]. unfold read. simpl. rewrite lookup_insert_ne; [by rewrite Es|].
    rewrite (ok_gid _ _ _ Hok). intros [-> ->]%servername_inj; [tauto|done|].
    unfold current in E. destruct (groups (w_cfg w) !! gi') as [[gg'|]|] eqn:Eg; try done. by eapply group_lt; [apply (gd_groups _ _ _ HG)|].
  - intros gi' i' Hgi'. rewrite Hc. unfold read. simpl. rewrite (ok_gid _ _ _ Hok). case_decide as Hd.
    + destruct Hd as [-> ->]. intros _. by rewrite lookup_insert_eq.
    + intros E. rewrite lookup_insert_ne, Es; [by apply (gd_down _ _ _ HG)|].
      intros [-> ->]%servername_inj; [tauto|done|done].
Qed.

Lemma shard_shutdown_ok w ct made gi i :
  good w ct made → (i < n (w_cfg w))%nat → born w gi i →
  post (ShutdownServer gi i w) (λ w', good w' ct made ∧ kept w w' ∧
    ∀ gi' i', current w' gi' i' = if decide (gi' = gi ∧ i' = i) then None else current w gi' i').
Proof.
  intros HG Hi (gg & es' & Hg & He). pose proof (gd_group _ _ _ HG gi gg Hg) as Hok.
  destruct (ok_slot _ _ _ Hok i Hi) as [[E _]|(es & ms & s & E1 & E2 & Hs & Hcur)]; [congruence|].
  destruct (gd_objs _ _ _ HG _ _ _ _ _ Hs) as [Hes _].
  destruct (stop_eq gi i gg es ms w Hg Hok Hi E1 E2 Hes) as (sv & ps & -> & Hsv & Hps).
  { intros s' Es'. assert (s' = s) as -> by (destruct Hcur; congruence). apply lookup_lt_is_Some. by eapply object_of_lt. }
  simpl. split; [by eapply good_stopped|]. split; [|intros; by apply stopped_current]. split; [done|..].
  - intros gi' [gg' Hgg']. unfold made_group. simpl. rewrite list_lookup_insert. case_decide; [done|by exists gg'].
  - intros gi' i' (gg' & es0 & G1 & G2). unfold born. simpl. destruct (decide (gi' = gi)) as [->|Hne].
    + rewrite list_lookup_insert_eq by by eapply lookup_lt_Some. eexists _, es0. split; [done|]. simpl. congruence.
    + exists gg', es0. by rewrite list_lookup_insert_ne.
  - intros gi' Hnone. simpl. rewrite list_lookup_insert_ne by congruence. done.
Qed.

(** ** Starting *)

Lemma shard_load_saved_ok i gg w : (i < length (saved gg))%nat →
  (∀ i p, saved gg !! i = Some (Some p) → (p < length (w_persisters w))%nat) →
  ∃ sv ps, load_saved i gg w = Val (set_saved sv gg, with_persisters (w_persisters w ++ ps) w) ∧
    length sv = length (saved gg) ∧ ∀ i p, sv !! i = Some (Some p) → (p < length (w_persisters w ++ ps))%nat.
Proof.
  intros Hi Hp. unfold load_saved. destruct (lookup_lt_is_Some_2 _ _ Hi) as [[p|] E]; rewrite E; cbn [or_panic mbind result_bind].
  { by apply shard_copy_saved_ok. }
  rewrite (RaftWiring.write_ok (V:=())) by done. cbn [mbind result_bind]. eexists _, [_]. split; [done|].
  split; [by rewrite length_insert|]. intros j q. rewrite length_app. simpl. rewrite list_lookup_insert_Some.
  intros [(-> & [= <-] & _)|[_ Hq]]; [lia|]. specialize (Hp j q Hq). lia.
Qed.

Lemma drew_eq w w' new : drew w w' new → ∃ d nt, w' = with_drawn d (on_net (λ _, nt) w) ∧ grows (net (w_cfg w)) nt new.
Proof. intros Hd. exists (w_drawn w'), (net (w_cfg w')). split; [apply (dr_world _ _ _ Hd)|apply (dr_grows _ _ _ Hd)]. Qed.

(** The ends of a server to the controller, which are also noted in the group. *)
Lemma mends_ok w ct i gg : random_ok w → length (names ct) = 3%nat → ctl_n ct = 3%nat → (i < length (mendnames gg))%nat →
  post (ctrler_ends ct (store_mendname i) (set_mendnames (<[i := Some (replicate 3 "")]> (mendnames gg)) gg) w)
    (λ '(gg', ms, w'), drew w w' (zip ms (names ct)) ∧ length ms = 3%nat ∧ gg' = set_mendnames (<[i := Some ms]> (mendnames gg)) gg).
Proof.
  intros Hr Hnm Hn Hi.
  eapply post_mono; [apply (ctrler_ends_ok _ _ (λ l gg', gg' = set_mendnames (<[i := Some (l ++ replicate (3 - length l) "")]> (mendnames gg)) gg))|].
  - done.
  - congruence.
  - done.
  - rewrite Hn. intros l x e Hl ->. unfold store_mendname. cbn [mendnames set_mendnames]. rewrite list_lookup_insert_eq by done.
    cbn [mjoin option_join or_panic mbind result_bind]. rewrite (RaftWiring.write_ok (V:=())) by (rewrite length_app, length_replicate; lia).
    cbn [mbind result_bind]. rewrite (RaftWiring.write_ok (V:=())) by by rewrite length_insert. simpl. unfold set_mendnames. simpl. f_equal.
    rewrite list_insert_insert_eq. f_equal. f_equal. rewrite insert_app_r_alt, Nat.sub_diag, length_app by lia. simpl.
    replace (3 - length l)%nat with (S (3 - (length l + 1)))%nat by lia. simpl. by rewrite <- app_assoc.
  - intros [[gg' ms] w'] (Hd & Hl & ->). split; [done|]. rewrite Hn in Hl. split; [done|]. by rewrite Hl, app_nil_r.
Qed.

Definition begun (gi i : nat) gg (es ms : list string) sv ps w : world :=
  let w' := with_kvs (w_kvs w ++ [(ShardKv.ShardKv.StartServer (length es) (Z.of_nat i) (maxraftstate (w_cfg w)) (gid gg), es, ms)])
    (put_group gi (Group (gid gg) (<[i := Some (length (w_kvs w))]> (servers gg)) sv
                     (<[i := Some es]> (endnames gg)) (<[i := Some ms]> (mendnames gg)))
      (with_persisters (w_persisters w ++ ps) w)) in
  with_servers (w_servers w ++ [front types "ShardKV" kv_methods kv_raft_methods (length (w_kvs w))])
    (on_net (AddServer (servername (gid gg) i) (length (w_servers w))) w').

(** What [StartServer] does to a server that does not run. *)
Lemma begin_eq w ct made gi i gg :
  good w ct made → groups (w_cfg w) !! gi = Some (Some gg) → (i < n (w_cfg w))%nat → (i < 3)%nat →
  post (StartServer gi i w) (λ w', ∃ es ms sv ps w2, w' = begun gi i gg es ms sv ps w2 ∧
    drew w w2 (zip es (servername (gid gg) <$> seq 0 (n (w_cfg w))) ++ zip ms (names ct)) ∧
    length es = n (w_cfg w) ∧ length ms = 3%nat ∧ length sv = length (saved gg) ∧
    ∀ i p, sv !! i = Some (Some p) → (p < length (w_persisters w2 ++ ps))%nat).
Proof.
  intros HG Hg Hi Hi3. pose proof (gd_group _ _ _ HG gi gg Hg) as Hok. pose proof (gd_random _ _ _ HG) as Hr.
  pose proof (gd_ctrler _ _ _ HG) as Hct.
  unfold ShardKvConfig.StartServer. rewrite (get_group_ok _ _ _ Hg). cbn [mbind result_bind draw_names].
  rewrite (RaftWiring.write_ok (V:=())) by by rewrite (ok_endnames _ _ _ Hok). cbn [mbind result_bind].
  set (es := w_random w <$> seq (w_drawn w) (n (w_cfg w))). cbn [set_endnames gid w_cfg with_drawn].
  eapply post_bind; [apply (draw_ends_ok _ (servername (gid gg)) w Hr)|]. fold es. intros w1 Hd1.
  destruct (drew_eq _ _ _ Hd1) as (d1 & nt1 & E1 & _). pose proof (drew_ok _ _ _ Hr Hd1) as Hr1.
  assert (Ec1 : ctl (w_cfg w1) = Some ct) by (rewrite E1; apply (gd_ctl _ _ _ HG)). rewrite Ec1. cbn [or_panic mbind result_bind].
  rewrite (RaftWiring.write_ok (V:=())) by (simpl; rewrite (ok_mendnames _ _ _ Hok); lia). cbn [mbind result_bind].
  rewrite (co_n _ _ Hct). eapply post_bind.
  { apply (mends_ok w1 ct i (set_endnames (<[i := Some es]> (endnames gg)) gg)); [done|apply Hct|apply Hct|]. simpl. rewrite (ok_mendnames _ _ _ Hok). lia. }
  intros [[gg' ms] w2] (Hd2 & Hms & Egg). destruct (drew_eq _ _ _ Hd2) as (d2 & nt2 & E2 & _).
  assert (Ew : w_persisters w2 = w_persisters w ∧ maxraftstate (w_cfg w2) = maxraftstate (w_cfg w)) by by rewrite E2, E1.
  destruct (shard_load_saved_ok i gg' w2)
    as (sv & ps & -> & Hsv & Hps); [rewrite Egg; simpl; by rewrite (ok_saveds _ _ _ Hok)|rewrite Egg; simpl; rewrite (proj1 Ew); apply (ok_saved _ _ _ Hok)|].
  rewrite Egg in Hsv |- *. cbn [mbind result_bind]. rewrite (RaftWiring.write_ok (V:=())) by (simpl; by rewrite (ok_servers _ _ _ Hok)). simpl.
  exists es, ms, sv, ps, w2. split; [done|]. split; [by apply (drew_trans w w1 w2)|]. unfold es. by rewrite length_fmap, length_seq.
Qed.

Lemma begun_current gi i gg es ms sv ps w gi' i' :
  groups (w_cfg w) !! gi = Some (Some gg) → (i < length (servers gg))%nat →
  current (begun gi i gg es ms sv ps w) gi' i' = if decide (gi' = gi ∧ i' = i) then Some (length (w_kvs w)) else current w gi' i'.
Proof.
  intros Hg Hi. rewrite (current_put w (begun gi i gg es ms sv ps w) gi _ gi' i' eq_refl) by by eapply lookup_lt_Some. simpl.
  destruct (decide (gi' = gi)) as [->|Hne]; [|by rewrite decide_False by tauto].
  rewrite (current_group w gi gg i' Hg). destruct (decide (i = i')) as [->|Hne].
  - rewrite decide_True by done. by rewrite list_lookup_insert_eq.
  - rewrite list_lookup_insert_ne by done. by rewrite decide_False by (intros [_ ->]; done).
Qed.

Lemma object_of_app kvs x s : object_of (kvs ++ [x]) s =
  if decide (s = length kvs) then Some (ShardKv.ShardKv.gid x.1.1, ShardKv.ShardKv.me x.1.1, x.1.2, x.2) else object_of kvs s.
Proof.
  unfold object_of. case_decide as Hd; [subst; by rewrite list_lookup_middle|].
  destruct (decide (s < length kvs)%nat) as [Hlt|]; [by rewrite lookup_app_l|].
  rewrite !lookup_ge_None_2; [done|lia|]. rewrite length_app. simpl. lia.
Qed.

Lemma serves_more w w' nm srv x :
  serves w nm srv → read (LabRpc.servers (net (w_cfg w'))) nm = read (LabRpc.servers (net (w_cfg w))) nm →
  w_servers w' = w_servers w ++ x → serves w' nm srv.
Proof. intros (o & G1 & G2) E1 E2. exists o. rewrite E1, E2. split; [done|by apply lookup_app_l_Some]. Qed.

Lemma read_insert {A} (m : gmap string (option A)) k k' x : read (<[k := x]> m) k' = if decide (k = k') then x else read m k'.
Proof. unfold read. rewrite lookup_insert. by case_decide. Qed.

Lemma good_begun w ct made gi i gg es ms sv ps w2 :
  good w ct made → groups (w_cfg w) !! gi = Some (Some gg) → (i < n (w_cfg w))%nat → (i < 3)%nat → current w gi i = None →
  drew w w2 (zip es (servername (gid gg) <$> seq 0 (n (w_cfg w))) ++ zip ms (names ct)) →
  length es = n (w_cfg w) → length ms = 3%nat → length sv = length (saved gg) →
  (∀ i p, sv !! i = Some (Some p) → (p < length (w_persisters w2 ++ ps))%nat) →
  good (begun gi i gg es ms sv ps w2) ct made ∧
  ∀ gi' i', current (begun gi i gg es ms sv ps w2) gi' i' = if decide (gi' = gi ∧ i' = i) then Some (length (w_kvs w)) else current w gi' i'.
Proof.
  intros HG Hg Hi Hi3 Hnone Hd Hes Hms Hsv Hps. pose proof (gd_group _ _ _ HG gi gg Hg) as Hok.
  pose proof (group_lt w gi gg (gd_groups _ _ _ HG) Hg) as Hgi.
  pose proof (gd_random _ _ _ HG) as Hr. pose proof (drew_ok _ _ _ Hr Hd) as Hr2.
  assert (Hfresh : ∀ e, e ∈ (zip es (servername (gid gg) <$> seq 0 (n (w_cfg w))) ++ zip ms (names ct)).*1 → e ∉ ends (net (w_cfg w)))
    by (intros e; by apply (drew_fresh w w2)).
  destruct (drew_eq _ _ _ Hd) as (d & nt & -> & HGr). pose proof (gw_servers _ _ _ HGr) as Es. set (w' := begun _ _ _ _ _ _ _ _).
  assert (Hc : ∀ gi' i', current w' gi' i' = if decide (gi' = gi ∧ i' = i) then Some (length (w_kvs w)) else current w gi' i').
  { intros gi' i'. apply (begun_current gi i gg es ms sv ps (with_drawn d (on_net (λ _, nt) w)) gi' i' Hg). by rewrite (ok_servers _ _ _ Hok). }
  assert (Ho : ∀ s, object_of (w_kvs w') s = if decide (s = length (w_kvs w)) then Some (gid gg, Z.of_nat i, es, ms) else object_of (w_kvs w) s).
  { intros s. unfold w'. simpl. by rewrite object_of_app. }
  assert (Hkeep : ∀ s x, object_of (w_kvs w) s = Some x → object_of (w_kvs w') s = Some x).
  { intros s x Hs. rewrite Ho, decide_False; [done|]. apply object_of_lt in Hs. lia. }
  assert (Hrun : ∀ s', s' ≠ length (w_kvs w) → running w' s' ↔ running w s').
  { intros s' Hne. unfold running. split; intros (gi' & i' & E); exists gi', i'; rewrite Hc in *; case_decide as Hd'; try done; [congruence|].
    destruct Hd' as [-> ->]. congruence. }
  pose proof (gd_ctrler _ _ _ HG) as [C1 C2 C3 C4 C5].
  split; [|done]. split; [| |by apply (gd_ctl _ _ _ HG)| |by apply (gd_ngroups _ _ _ HG)|..].
  - split; [apply Hr2|apply (ra_ends _ Hr2)].
  - apply (shard_wired_ext nt _ (ends_of w' ct made) _ (live w')); try done.
    apply (wired_grows _ nt (ends_of w ct made) _ (live w) _ _ (Serv (length (w_kvs w))) (gd_wired _ _ _ HG) HGr Hfresh).
    + simpl. rewrite Ho, decide_True by done. unfold object_of at 1. by rewrite lookup_ge_None_2 by lia.
    + intros [s'| | | |] Hne; try done. simpl. rewrite Ho, decide_False by congruence. done.
    + exists gi, i. rewrite Hc. by rewrite decide_True.
    + intros [s'| | | |] Hne; try done. apply Hrun. congruence.
    + left. simpl. unfold object_of. by rewrite lookup_ge_None_2 by lia.
  - split; try done. intros j nm Hj. destruct (C5 j nm Hj) as (s' & G1 & G2 & G3). exists s'. split; [done|]. split; [done|].
    apply (serves_more w _ nm _ [front types "ShardKV" kv_methods kv_raft_methods (length (w_kvs w))] G3); [|done].
    simpl. rewrite read_insert, decide_False, Es; [done|]. destruct (C3 j nm Hj) as [x ->]. apply servername_ctlr.
  - simpl. rewrite length_insert. by apply (gd_groups _ _ _ HG).
  - intros gi' gg'. simpl. rewrite list_lookup_insert_Some. intros [(<- & [= <-] & _)|[Hne Hg']].
    + destruct Hok as [H1 H2 H3 H4 H5 H6 H7]. split; simpl; rewrite ?length_insert; try done; [congruence|].
      intros j Hj. destruct (decide (j = i)) as [->|Hne].
      * right. exists es, ms, (length (w_kvs w)). simpl. rewrite Ho, decide_True by done.
        split_and!; [by rewrite list_lookup_insert_eq by lia..|done|right; by rewrite list_lookup_insert_eq by lia].
      * apply (slot_ok_ext w w' gg); simpl; rewrite ?list_lookup_insert_ne by done; try done. by apply H6.
    + apply (group_ok_ext w); [done|simpl; rewrite length_app; lia|done|by apply (gd_group _ _ _ HG)].
  - intros s' g m es' ms'. rewrite Ho. case_decide; [by intros [= <- <- <- <-]|]. by apply (gd_objs _ _ _ HG).
  - intros gi' i' s'. rewrite Hc. case_decide as Hd'.
    + destruct Hd' as [-> ->]. intros [= <-]. exists (length (w_servers w)). simpl. rewrite read_insert, (ok_gid _ _ _ Hok), decide_True by done.
      split; [done|by rewrite list_lookup_middle].
    + intros E. apply (serves_more w _ _ _ [front types "ShardKV" kv_methods kv_raft_methods (length (w_kvs w))] (gd_up _ _ _ HG gi' i' s' E)); [|done].
      simpl. rewrite read_insert, (ok_gid _ _ _ Hok), decide_False, Es; [done|]. intros [-> ->]%servername_inj; [tauto|done|].
      unfold current in E. destruct (groups (w_cfg w) !! gi') as [[gg'|]|] eqn:Eg; try done. by eapply group_lt; [apply (gd_groups _ _ _ HG)|].
  - intros gi' i' Hgi'. rewrite Hc. case_decide as Hd'; [done|]. intros E. simpl. rewrite read_insert, (ok_gid _ _ _ Hok), decide_False, Es.
    + by apply (gd_down _ _ _ HG).
    + intros [-> ->]%servername_inj; [tauto|done|done].
Qed.

Lemma start_server_ok w ct made gi i :
  good w ct made → made_group w gi → (i < n (w_cfg w))%nat → (i < 3)%nat → current w gi i = None →
  post (StartServer gi i w) (λ w', good w' ct made ∧ kept w w' ∧ born w' gi i ∧
    ∀ gi' i', is_Some (current w' gi' i') ↔ (gi' = gi ∧ i' = i) ∨ is_Some (current w gi' i')).
Proof.
  intros HG (gg & Hg)%group_exists Hi Hi3 Hnone. pose proof (gd_group _ _ _ HG gi gg Hg) as Hok.
  eapply post_mono; [by apply (begin_eq w ct made)|]. intros w' (es & ms & sv & ps & w2 & -> & Hd & Hes & Hms & Hsv & Hps).
  destruct (good_begun w ct made gi i gg es ms sv ps w2) as [HG' Hc]; try done.
  destruct (drew_eq _ _ _ Hd) as (d & nt & -> & _). pose proof (lookup_lt_Some _ _ _ Hg) as Hlt.
  split; [done|]. split; [split; [done|..]|split].
  - intros gi' [gg' Hgg']. unfold made_group. simpl. rewrite list_lookup_insert. case_decide; [done|by exists gg'].
  - intros gi' i' (gg' & es0 & G1 & G2). unfold born. simpl. destruct (decide (gi' = gi)) as [->|Hne].
    + rewrite list_lookup_insert_eq by done. rewrite Hg in G1. injection G1 as <-. destruct (decide (i' = i)) as [->|Hi'].
      * eexists _, es. split; [done|]. simpl. apply list_lookup_insert_eq. by eapply lookup_lt_Some.
      * eexists _, es0. split; [done|]. simpl. by rewrite list_lookup_insert_ne.
    + exists gg', es0. by rewrite list_lookup_insert_ne.
  - intros gi' Hgi'. simpl. rewrite list_lookup_insert_ne by congruence. done.
  - eexists _, es. simpl. rewrite list_lookup_insert_eq by done. split; [done|]. simpl. apply list_lookup_insert_eq. by rewrite (ok_endnames _ _ _ Hok).
  - intros gi' i'. rewrite Hc. case_decide as Hd'; [by split; [left|eexists]|]. tauto.
Qed.

(** The slice for the ends to the controller has three places. *)
Lemma start_server_panics w ct made gi : good w ct made → made_group w gi → (3 < n (w_cfg w))%nat → StartServer gi 3 w = Panic.
Proof.
  intros HG (gg & Hg)%group_exists Hn. pose proof (gd_group _ _ _ HG gi gg Hg) as Hok. pose proof (gd_random _ _ _ HG) as Hr.
  unfold ShardKvConfig.StartServer. rewrite (get_group_ok _ _ _ Hg). cbn [mbind result_bind draw_names].
  rewrite (RaftWiring.write_ok (V:=())) by by rewrite (ok_endnames _ _ _ Hok). cbn [mbind result_bind set_endnames gid w_cfg with_drawn].
  pose proof (draw_ends_ok (n (w_cfg w)) (servername (gid gg)) w Hr) as Hd. simpl in Hd. apply post_Val in Hd as (w1 & -> & Hd).
  destruct (drew_eq _ _ _ Hd) as (d & nt & -> & _). cbn [mbind result_bind]. cbn [on_net w_cfg with_cfg with_drawn set_net ctl]. rewrite (gd_ctl _ _ _ HG). cbn [or_panic mbind result_bind].
  rewrite write_panics; [done|]. simpl. by rewrite (ok_mendnames _ _ _ Hok).
Qed.

End runs.
End ShardKvRuns.
