(* ===== verification/ShardKvTests.v ===== *)
(** * The tests of the sharded service

    Groups, clerks and the controller of [src/6.5840/src/shardkv/config.go] on top of
    what [ShardKvRuns] says about one server: the set-up and every sequence of
    operations of a test keep the invariant, the set-up needs groups of at most
    three servers and the clerks groups of at least three, and the names the tester
    gives to the controller lead to the servers. *)
From S2P Require Import Prelude LabGob LabRpc Persister Raft RaftConfig RaftWiring ShardKvConfig ShardKvLinks ShardKvRuns.
From S2P Require ShardCtrler ShardKv.
Import LabGob LabRpc.
Import RaftConfig (NoFuel, Panic, LogFatal, TestFatal, Val, result_ret, result_bind, or_panic, for_each, write).
Import ShardKvConfig ShardKvLinks ShardKvRuns.
Local Open Scope Z_scope.

Module ShardKvTests.

Section tests.
Context {W X : Type} `{Codec X} (types : rtype → desc).
Context (kv_methods kv_raft_methods ctl_methods ctl_raft_methods : nat → list (Method (W:=W) (V:=X))).
Abbreviation world := (world (W:=W) (X:=X)).
Abbreviation StartServer := (StartServer types kv_methods kv_raft_methods).
Abbreviation StartGroup := (StartGroup types kv_methods kv_raft_methods).
Abbreviation StartCtrlerServer := (StartCtrlerServer types ctl_methods ctl_raft_methods).
Abbreviation StartCtrlerService := (StartCtrlerService types ctl_methods ctl_raft_methods).
Abbreviation make_group := (make_group types kv_methods kv_raft_methods).
Abbreviation make_config := (make_config types kv_methods kv_raft_methods ctl_methods ctl_raft_methods).
Abbreviation good := (good types kv_methods kv_raft_methods ctl_methods ctl_raft_methods).
Abbreviation kv_front := (front types "ShardKV" kv_methods kv_raft_methods).
Abbreviation ctl_front := (front types "ShardCtrler" ctl_methods ctl_raft_methods).
Implicit Types (w : world) (ct : ctrler) (gg : group) (c : config).

(** ** Groups *)

Lemma shutdown_group_ok w ct made gi :
  good w ct made → (∀ i, (i < n (w_cfg w))%nat → born w gi i) →
  post (ShutdownGroup gi w) (λ w', good w' ct made ∧ kept w w' ∧
    ∀ gi' i', current w' gi' i' = if decide (gi' = gi ∧ (i' < n (w_cfg w))%nat) then None else current w gi' i').
Proof.
  intros HG Hb. unfold ShutdownGroup.
  set (I := λ j w', good w' ct made ∧ kept w w' ∧
    ∀ gi' i', current w' gi' i' = if decide (gi' = gi ∧ (i' < j)%nat) then None else current w gi' i').
  eapply post_mono; [apply (post_for_each _ _ I)|by intros w' HI].
  - split; [done|]. split; [apply kept_refl|]. intros gi' i'. rewrite decide_False by lia. done.
  - intros j w1 Hj (HG1 & Hk1 & Hc1). eapply post_mono.
    { apply (shard_shutdown_ok _ _ _ _ _ w1 ct made gi j HG1); [by rewrite (kp_n _ _ Hk1)|by apply (kp_born _ _ Hk1), Hb]. }
    intros w2 (HG2 & Hk2 & Hc2). split; [done|]. split; [by eapply kept_trans|]. intros gi' i'. rewrite Hc2, Hc1.
    repeat case_decide; try done; lia.
Qed.

(** The first [k] servers of a group; there is room for three. *)
Lemma start_servers_ok w ct made gi k :
  good w ct made → made_group w gi → (k ≤ n (w_cfg w))%nat → (k ≤ 3)%nat → (∀ i, (i < n (w_cfg w))%nat → current w gi i = None) →
  post (for_each k (λ i, StartServer gi i) w) (λ w', good w' ct made ∧ kept w w' ∧ (∀ i, (i < k)%nat → born w' gi i) ∧
    ∀ gi' i', is_Some (current w' gi' i') ↔ (gi' = gi ∧ (i' < k)%nat) ∨ is_Some (current w gi' i')).
Proof.
  intros HG Hm Hkn Hk3 Hnone.
  apply (post_for_each _ _ (λ j w', good w' ct made ∧ kept w w' ∧ (∀ i, (i < j)%nat → born w' gi i) ∧
    ∀ gi' i', is_Some (current w' gi' i') ↔ (gi' = gi ∧ (i' < j)%nat) ∨ is_Some (current w gi' i'))).
  - split; [done|]. split; [apply kept_refl|]. split; [lia|]. intros gi' i'. split; [by right|]. intros [?|?]; [lia|done].
  - intros j w1 Hj (HG1 & Hk1 & Hb1 & Hc1). eapply post_mono.
    { apply (start_server_ok _ _ _ _ _ w1 ct made gi j HG1); [by apply (kp_made _ _ Hk1)|rewrite (kp_n _ _ Hk1); lia|lia|].
      apply eq_None_not_Some. rewrite Hc1, (Hnone j) by lia. intros [[_ ?]|[? [=]]]; lia. }
    intros w2 (HG2 & Hk2 & Hb2 & Hc2). split; [done|]. split; [by eapply kept_trans|]. split.
    + intros i Hi. destruct (decide (i = j)) as [->|]; [done|]. apply (kp_born _ _ Hk2), Hb1. lia.
    + intros gi' i'. rewrite Hc2, Hc1. split; [intros [[-> ->]|[[-> ?]|?]]|intros [[-> ?]|?]]; auto with lia.
Qed.

Lemma start_group_ok w ct made gi :
  good w ct made → made_group w gi → (n (w_cfg w) ≤ 3)%nat → (∀ i, (i < n (w_cfg w))%nat → current w gi i = None) →
  post (StartGroup gi w) (λ w', good w' ct made ∧ kept w w' ∧ (∀ i, (i < n (w_cfg w))%nat → born w' gi i) ∧
    ∀ gi' i', is_Some (current w' gi' i') ↔ (gi' = gi ∧ (i' < n (w_cfg w))%nat) ∨ is_Some (current w gi' i')).
Proof. intros HG Hm Hn3 Hnone. by apply start_servers_ok. Qed.

Lemma start_group_panics w ct made gi :
  good w ct made → made_group w gi → (3 < n (w_cfg w))%nat → (∀ i, (i < n (w_cfg w))%nat → current w gi i = None) → StartGroup gi w = Panic.
Proof.
  intros HG Hm Hn3 Hnone. eapply (for_each_panics 3); [done|apply (start_servers_ok w ct made gi 3); [done|done|lia|done|done]|].
  intros w' (HG' & Hk & _). apply (start_server_panics _ _ _ _ _ w' ct made gi HG'); [by apply (kp_made _ _ Hk)|by rewrite (kp_n _ _ Hk)].
Qed.

(** ** Operations that only make ends *)

(** The servers and what they are made of did not change. *)
Record same w w' : Prop := Same {
  sm_groups : groups (w_cfg w') = groups (w_cfg w);
  sm_ctl : ctl (w_cfg w') = ctl (w_cfg w);
  sm_ngroups : ngroups (w_cfg w') = ngroups (w_cfg w);
  sm_n : n (w_cfg w') = n (w_cfg w);
  sm_kvs : w_kvs w' = w_kvs w;
  sm_ctls : w_ctls w' = w_ctls w;
  sm_persisters : w_persisters w' = w_persisters w;
  sm_servers : w_servers w' = w_servers w;
}.

Lemma same_current w w' gi i : same w w' → current w' gi i = current w gi i.
Proof. intros Hs. unfold current. by rewrite (sm_groups _ _ Hs). Qed.

Lemma same_live w w' o : same w w' → live w' o ↔ live w o.
Proof. intros Hs. destruct o as [s| | | |]; try done. unfold live, running. by setoid_rewrite (same_current w w' _ _ Hs). Qed.

Lemma same_kept w w' : same w w' → kept w w'.
Proof. intros Hs. split; unfold made_group, born; by rewrite ?(sm_groups _ _ Hs), ?(sm_n _ _ Hs). Qed.

Lemma good_grown w ct made w' made' new o :
  good w ct made → same w w' → random_ok w' → grows (net (w_cfg w)) (net (w_cfg w')) new →
  (∀ e, e ∈ new.*1 → e ∉ ends (net (w_cfg w))) → (∀ s, o ≠ Serv s) →
  ends_of w' ct made' o = ends_of w ct made o ++ new → (∀ o', o' ≠ o → ends_of w' ct made' o' = ends_of w ct made o') →
  good w' ct made'.
Proof.
  intros HG Hs Hr HGr Hf Ho E1 E2. pose proof Hs as [S1 S2 S3 S4 S5 S6 S7 S8]. pose proof (gd_ctrler _ _ _ _ _ _ _ _ HG) as [C1 C2 C3 C4 C5].
  assert (Hserves : ∀ nm srv, serves w nm srv → serves w' nm srv).
  { intros nm srv (p & G1 & G2). exists p. by rewrite (gw_servers _ _ _ HGr), S8. }
  split; rewrite ?S1, ?S2, ?S3, ?S4, ?S5; try done.
  - eapply (wired_grows _ _ _ _ _ _ _ o (gd_wired _ _ _ _ _ _ _ _ HG) HGr Hf E1 E2).
    + by destruct o as [s| | | |]; [destruct (Ho s)|..].
    + intros o' _. by apply same_live.
    + right. by destruct o as [s| | | |]; [destruct (Ho s)|..].
  - by eapply gd_ctl.
  - split; try done. intros i nm Hi. destruct (C5 i nm Hi) as (s & G1 & G2 & G3). exists s. rewrite S6. eauto.
  - by eapply gd_ngroups.
  - by eapply gd_groups.
  - intros gi gg Hg. apply (group_ok_ext w); [done|by rewrite S7|by rewrite S5|]. by eapply gd_group.
  - intros s g m es ms. by eapply gd_objs.
  - intros gi i s. rewrite (same_current w w' _ _ Hs). intros E. by apply Hserves; eapply gd_up.
  - intros gi i Hgi. rewrite (same_current w w' _ _ Hs), (gw_servers _ _ _ HGr). by eapply gd_down.
Qed.

Lemma good_more_clerks w ct made w1 l c : good w ct made → drew w w1 (zip l (names ct)) →
  (groups c, ctl c, ngroups c, n c, net c) = (groups (w_cfg w), ctl (w_cfg w), ngroups (w_cfg w), n (w_cfg w), net (w_cfg w1)) →
  let w' := with_clerks (w_clerks w ++ [l]) (with_cfg c w1) in good w' ct made ∧ same w w'.
Proof.
  intros HG Hd [= E1 E2 E3 E4 E5]. pose proof (gd_random _ _ _ _ _ _ _ _ HG) as Hr. pose proof (drew_ok _ _ _ Hr Hd) as [Hi He].
  pose proof (λ e, drew_fresh w w1 _ e Hr Hd) as Hf. destruct (drew_eq _ _ _ Hd) as (d & nt & -> & HGr). simpl in *.
  split; [|by split]. eapply (good_grown w ct made _ made _ (Clk (length (w_clerks w)))); [done|by split|..|done| |].
  - split; simpl; [done|]. by rewrite E5.
  - simpl. by rewrite E5.
  - exact Hf.
  - simpl. rewrite list_lookup_middle by done. by rewrite lookup_ge_None_2 by lia.
  - intros [s|s|k| |] Hne; simpl; rewrite ?E4; try done. destruct (decide (k < length (w_clerks w))%nat) as [Hlt|Hge]; [by rewrite lookup_app_l|].
    rewrite !lookup_ge_None_2; [done|lia|]. rewrite length_app. simpl. enough (k ≠ length (w_clerks w)) by lia. congruence.
Qed.

(** A clerk needs groups of three servers: the slice for the names of its ends to the
    controller has one place for every server of a group. *)
Lemma make_client_ok w ct made : good w ct made → (3 ≤ n (w_cfg w))%nat →
  post (makeClient ct w) (λ '(k, w'), good w' ct made ∧ same w w').
Proof.
  intros HG Hn. pose proof (gd_random _ _ _ _ _ _ _ _ HG) as Hr. pose proof (gd_ctrler _ _ _ _ _ _ _ _ HG) as [C1 C2 _ _ _].
  unfold makeClient. eapply post_bind.
  { apply (ctrler_ends_ok ct store_at (λ _ a, length a = n (w_cfg w)) _ w Hr); [congruence|by rewrite length_replicate|].
    intros l x e Hl Hx. unfold store_at. apply post_write; [lia|]. by rewrite length_insert. }
  intros [[a l] w1] (Hd & _ & _). cbn beta. simpl.
  destruct (drew_eq _ _ _ Hd) as (d & nt & E & _). assert (w_clerks w1 = w_clerks w) as -> by by rewrite E.
  apply good_more_clerks; [done|done|]. by rewrite E.
Qed.

Lemma make_client_panics w ct made : good w ct made → (n (w_cfg w) < 3)%nat → makeClient ct w = Panic.
Proof.
  intros HG Hn. pose proof (gd_random _ _ _ _ _ _ _ _ HG) as Hr. pose proof (gd_ctrler _ _ _ _ _ _ _ _ HG) as [C1 C2 _ _ _].
  unfold makeClient, ctrler_ends. rewrite C1.
  rewrite (for_each_panics (n (w_cfg w)) 3 _ (λ '(a, l, w'), drew w w' (zip l (names ct)) ∧ length l = n (w_cfg w) ∧ length a = n (w_cfg w))); [done|lia|..].
  - apply (ctrler_loop_ok ct _ store_at (λ _ a, length a = n (w_cfg w))); [done|lia|by rewrite length_replicate|].
    intros l x e Hl Hx. unfold store_at. apply post_write; [lia|]. by rewrite length_insert.
  - intros [[a l] w'] (_ & _ & Ha). simpl. unfold store_at. by rewrite write_panics by lia.
Qed.

Lemma good_make_end w ct made server : good w ct made →
  post (make_end server w) (λ '(e, w'), good w' ct (made ++ [(e, server)]) ∧ same w w').
Proof.
  intros HG. pose proof (gd_random _ _ _ _ _ _ _ _ HG) as Hr. eapply post_mono; [by apply make_end_ok|].
  intros [e w'] Hd. pose proof (λ e', drew_fresh w w' _ e' Hr Hd) as Hf. pose proof (drew_ok _ _ _ Hr Hd) as Hr'.
  destruct (drew_eq _ _ _ Hd) as (d & nt & -> & HGr). split; [|by split].
  eapply (good_grown w ct made _ _ _ Made HG); [by split|done|exact HGr|exact Hf|done|done|]. by intros [].
Qed.

(** Changes of the clerks that the tester remembers, and of the reliability. *)
Lemma good_recfg w ct made c : good w ct made →
  (groups c, ctl c, ngroups c, n c) = (groups (w_cfg w), ctl (w_cfg w), ngroups (w_cfg w), n (w_cfg w)) →
  grows (net (w_cfg w)) (net c) [] → good (with_cfg c w) ct made ∧ same w (with_cfg c w).
Proof.
  intros HG [= E1 E2 E3 E4] HGr. split; [|by split].
  eapply (good_grown w ct made _ made [] Made HG); [by split|..|exact HGr|by intros ? ?%elem_of_nil|done|simpl; by rewrite app_nil_r|].
  - pose proof (gd_random _ _ _ _ _ _ _ _ HG) as [Hi He]. split; [done|]. intros e [He'|He']%(gw_ends _ _ _ HGr); [by apply He|by apply elem_of_nil in He'].
  - intros [] ?; simpl; by rewrite ?E4.
Qed.

(** ** The controller *)

(** The first [i] controllers run; nothing else is there. *)
Record setting (c0 : config) w ct (i : nat) : Prop := Setting {
  su_random : random_ok w;
  su_wired : wired (net (w_cfg w)) (ends_of w ct []) (live w);
  su_cfg : w_cfg w = set_net (net (w_cfg w)) c0;
  su_kvs : w_kvs w = [];
  su_clerks : w_clerks w = [];
  su_n : ctl_n ct = 3%nat;
  su_names : length (names ct) = 3%nat;
  su_name j nm : names ct !! j = Some nm → ∃ x, nm = ("ctlr-" +:+ x)%string;
  su_distinct : NoDup (names ct);
  su_servers : length (ctl_servers ct) = 3%nat;
  su_ctls : length (w_ctls w) = i;
  su_served j nm : (j < i)%nat → names ct !! j = Some nm → ∃ s,
    ctl_servers ct !! j = Some (Some s) ∧ (s < length (w_ctls w))%nat ∧ serves w nm (ctl_front s);
  su_none x : x ∉ names ct → read (LabRpc.servers (net (w_cfg w))) x = None;
}.

Lemma live_ext w w' o : groups (w_cfg w') = groups (w_cfg w) → live w' o ↔ live w o.
Proof. intros E. destruct o as [s| | | |]; try done. unfold live, running, current. by rewrite E. Qed.

Lemma controller_ok c0 w ct i : setting c0 w ct i → ck ct = None → (i < 3)%nat →
  post (StartCtrlerServer ct i w) (λ '(ct', w'), setting c0 w' ct' (S i) ∧ names ct' = names ct ∧ ck ct' = None).
Proof.
  intros HS Hck Hi. pose proof HS as [Hr HW Ec Ek El C1 C2 C3 C4 C5 C6 C7 C8]. unfold ShardKvConfig.StartCtrlerServer.
  eapply post_bind; [apply (ctrler_ends_ok ct store_none (λ _ _, True) () w Hr); [congruence|done|done]|].
  intros [[[] l] w1] (Hd & _ & _). cbn beta. pose proof (λ e, drew_fresh w w1 _ e Hr Hd) as Hf. pose proof (drew_ok _ _ _ Hr Hd) as Hr1.
  destruct (drew_eq _ _ _ Hd) as (d & nt & -> & HGr). pose proof (gw_servers _ _ _ HGr) as Es. cbn [fst snd].
  rewrite (RaftWiring.write_ok (V:=())) by lia. cbn [mbind result_bind]. unfold ctrlername. cbn [names].
  destruct (lookup_lt_is_Some_2 (names ct) i) as [nm Hnm]; [lia|]. rewrite Hnm. simpl. split; [|done]. split; simpl; try done.
  - split; [apply Hr1|apply (ra_ends _ Hr1)].
  - set (w' := with_servers _ _). set (ct' := Ctrler _ _ _ _).
    apply (shard_wired_ext nt _ (ends_of w' ct' []) _ (live w')); try done.
    apply (wired_grows _ nt (ends_of w ct []) _ (live w) _ (zip l (names ct)) (Ctl i) HW HGr Hf).
    + simpl. rewrite list_lookup_middle by done. by rewrite lookup_ge_None_2 by lia.
    + intros [s|s|k| |] Hne; simpl; try done. destruct (decide (s < i)%nat) as [Hlt|Hge]; [by rewrite lookup_app_l by lia|].
      rewrite !lookup_ge_None_2; [done|lia|]. rewrite length_app. simpl. enough (s ≠ i) by lia. congruence.
    + done.
    + intros o _. by apply live_ext.
    + by right.
  - by rewrite Ec.
  - by rewrite length_insert.
  - rewrite length_app. simpl. lia.
  - intros j nm' Hj Hnm'. destruct (decide (j = i)) as [->|Hne].
    + exists i. rewrite list_lookup_insert_eq, C6, length_app by lia. split; [done|]. simpl. split; [lia|].
      exists (length (w_servers w)). simpl. rewrite read_insert, decide_True by congruence. split; [done|by rewrite list_lookup_middle].
    + destruct (C7 j nm') as (s & G1 & G2 & G3); [lia|done|]. exists s. rewrite list_lookup_insert_ne, length_app by done.
      split; [done|]. split; [lia|]. eapply serves_more; [exact G3|simpl|done]. rewrite read_insert, decide_False, Es; [done|].
      intros ->. apply Hne. by eapply NoDup_lookup.
  - intros x Hx. rewrite read_insert, decide_False, Es; [by apply C8|]. intros ->. by apply Hx, list_elem_of_lookup_2 with i.
Qed.

Lemma ctrlerclerk_ok c0 w ct i : setting c0 w ct i → ck ct = None →
  post (ctrlerclerk ct w) (λ '(k, w'), setting c0 w' (Ctrler (ctl_n ct) (ctl_servers ct) (names ct) (Some k)) i).
Proof.
  intros [Hr HW Ec Ek El C1 C2 C3 C4 C5 C6 C7 C8] Hck. unfold ctrlerclerk.
  eapply post_bind; [apply (ctrler_ends_ok ct store_none (λ _ _, True) () w Hr); [congruence|done|done]|].
  intros [[[] l] w1] (Hd & _ & _). cbn beta. pose proof (λ e, drew_fresh w w1 _ e Hr Hd) as Hf. pose proof (drew_ok _ _ _ Hr Hd) as Hr1.
  destruct (drew_eq _ _ _ Hd) as (d & nt & -> & HGr). pose proof (gw_servers _ _ _ HGr) as Es. simpl. split; simpl; try done.
  - set (w' := with_drawn _ _). set (ct' := Ctrler _ _ _ _).
    apply (wired_grows _ nt (ends_of w ct []) _ (live w) _ (zip l (names ct)) Tester HW HGr Hf).
    + simpl. by rewrite Hck.
    + by intros [s|s|k| |] Hne.
    + done.
    + intros o _. by apply live_ext.
    + by right.
  - by rewrite Ec.
  - intros j nm Hj Hnm. destruct (C7 j nm Hj Hnm) as (s & G1 & G2 & p & G3). exists s. split; [done|]. split; [done|]. exists p. simpl. by rewrite Es.
  - intros x Hx. rewrite Es. by apply C8.
Qed.

Lemma service_ok now maxraftstate random : Inj (=) (=) random →
  let c0 := Config MakeNetwork now None 0 0 [] ∅ 0 maxraftstate in
  post (StartCtrlerService (World c0 [] [] [] [] [] [] random 0)) (λ '(ct, w), setting c0 w ct 3 ∧ is_Some (ck ct)).
Proof.
  intros Hinj c0. unfold ShardKvConfig.StartCtrlerService. simpl draw_names. cbn beta iota.
  set (nms := String.append "ctlr-" <$> [random 0%nat; random 1%nat; random 2%nat]).
  eapply post_bind; [apply (post_for_each 3 _ (λ i '(ct, w), setting c0 w ct i ∧ ck ct = None))|].
  - split; [|done]. split; try done.
    + split; [by intros [] o' e ?%elem_of_nil|by intros [] e t ?%elem_of_nil].
    + intros j nm Hj%list_elem_of_lookup_2. change (nm ∈ nms) in Hj. apply list_elem_of_fmap in Hj as (x & -> & _). by exists x.
    + change (NoDup nms). apply NoDup_fmap; [intros x y; apply (inj (String.append "ctlr-"))|]. apply (NoDup_fmap_2 random (seq 0 3)), NoDup_seq.
    + lia.
  - intros i [ct w] Hi (HS & Hck). eapply post_mono; [by apply controller_ok|]. by intros [ct' w'] (HS' & _ & Hck').
  - intros [ct w] (HS & Hck). eapply post_bind; [by apply (ctrlerclerk_ok c0 w ct 3)|]. intros [k w'] HS'. split; [done|by exists k].
Qed.

(** ** The set-up *)

Lemma good_setting c0 w ct m : setting c0 w ct 3 → groups c0 = [] → is_Some (ck ct) →
  good (with_cfg (set_shape 3 m (replicate 3 None) (set_ctl (Some ct) (w_cfg w))) w) ct [].
Proof.
  intros [Hr HW Ec Ek El C1 C2 C3 C4 C5 C6 C7 C8] Hg0 Hck. set (w' := with_cfg _ w).
  assert (Hnone : ∀ gi i, current w' gi i = None) by (by intros [|[|[|gi]]] i).
  split; try done.
  - by destruct Hr.
  - apply (shard_wired_ext _ _ _ (ends_of w' ct []) _ (live w') HW); try done.
    + intros [s|s|k| |]; simpl; rewrite ?Ek, ?El; done.
    + intros [s| | | |]; try done. unfold live, running. setoid_rewrite Hnone.
      split; [by intros (? & ? & ?)|]. intros (gi & i & E). unfold current in E. rewrite Ec in E. cbn [groups set_net] in E. by rewrite Hg0 in E.
  - split; try done. intros i nm Hi. apply C7; [|done]. rewrite <- C2. by eapply lookup_lt_Some.
  - intros gi gg Hg. by apply lookup_replicate in Hg as [? _].
  - intros s g k es ms. simpl. by rewrite Ek.
  - intros gi i s. by rewrite Hnone.
  - intros gi i _ _. apply C8. intros Hin. apply list_elem_of_lookup in Hin as [j Hj]. destruct (C3 j _ Hj) as [x E]. by apply servername_ctlr in E.
Qed.

Lemma good_empty_group w ct made gi : good w ct made → (gi < 3)%nat → groups (w_cfg w) !! gi = Some None →
  let w' := with_cfg (set_groups (<[gi := Some (empty_group gi (n (w_cfg w)) 3)]> (groups (w_cfg w))) (w_cfg w)) w in
  good w' ct made ∧ made_group w' gi ∧ ∀ gi' i', current w' gi' i' = current w gi' i'.
Proof.
  intros HG Hgi Hnone w'. pose proof (gd_groups _ _ _ _ _ _ _ _ HG) as Hlen.
  assert (Hc : ∀ gi' i', current w' gi' i' = current w gi' i').
  { intros gi' i'. rewrite (current_put w w' gi _ gi' i' eq_refl) by lia. case_decide as Hd; [subst|done]. unfold current. rewrite Hnone. simpl.
    destruct (decide (i' < n (w_cfg w))%nat) as [Hlt|Hge]; [by rewrite lookup_replicate_2|by rewrite lookup_ge_None_2 by by rewrite length_replicate; lia]. }
  split; [|split; [|done]].
  - pose proof (gd_ctrler _ _ _ _ _ _ _ _ HG) as [D1 D2 D3 D4 D5]. split.
    + by split; apply (gd_random _ _ _ _ _ _ _ _ HG).
    + eapply (shard_wired_ext _ _ _ _ _ _ (gd_wired _ _ _ _ _ _ _ _ HG)); try done.
      intros [s| | | |]; try done. unfold live, running. by setoid_rewrite Hc.
    + exact (gd_ctl _ _ _ _ _ _ _ _ HG).
    + by split.
    + exact (gd_ngroups _ _ _ _ _ _ _ _ HG).
    + simpl. rewrite length_insert. by eapply gd_groups.
    + intros gi' gg. simpl. rewrite list_lookup_insert_Some. intros [(<- & [= <-] & _)|[Hne Hg]].
      * split; simpl; try done; rewrite ?length_replicate; try done; [|by intros i p [? _]%lookup_replicate].
        intros i Hi. left. cbn [endnames servers empty_group]. by rewrite !lookup_replicate_2.
      * apply (group_ok_ext w); try done. by apply (gd_group _ _ _ _ _ _ _ _ HG).
    + intros s g k es ms. apply (gd_objs _ _ _ _ _ _ _ _ HG).
    + intros gi' i s. rewrite Hc. apply (gd_up _ _ _ _ _ _ _ _ HG).
    + intros gi' i. rewrite Hc. apply (gd_down _ _ _ _ _ _ _ _ HG).
  - unfold made_group. simpl. by rewrite list_lookup_insert_eq by lia.
Qed.

End tests.
End ShardKvTests.
