(* ===== verification/ShardKvService.v ===== *)
(** * What a test of the sharded service can rely on

    The set-up of [src/6.5840/src/shardkv/config.go] and every sequence of operations
    of a test: all ends lead to the server they are for, and are enabled exactly
    while their owner runs; how many servers a group must have; and where the names
    lead that the tester gives to the controller. *)
From S2P Require Import Prelude LabGob LabRpc Persister Raft RaftConfig RaftWiring ShardKvConfig ShardKvLinks ShardKvRuns ShardKvTests.
From S2P Require ShardCtrler ShardKv.
Import LabGob LabRpc.
Import RaftConfig (NoFuel, Panic, LogFatal, TestFatal, Val, result_ret, result_bind, or_panic, for_each, write).
Import ShardKvConfig ShardKvLinks ShardKvRuns ShardKvTests.
Local Open Scope Z_scope.

Module ShardKvService.

(** ** What a test does *)

(** [OMakeEnd] is what a server or a clerk does with its [make_end]. *)
Inductive op :=
| OShutdown (gi i : nat)
| OStart (gi i : nat)
| OShutdownGroup (gi : nat)
| OStartGroup (gi : nat)
| OMakeClient
| ODeleteClient (ck : nat)
| OMakeEnd (server : string).

(** Which servers run, from outside. *)
Definition ups := nat → nat → bool.

Definition up_step (m : nat) (o : op) (up : ups) : ups := λ g j,
  match o with
  | OShutdown gi i => if decide (g = gi ∧ j = i) then false else up g j
  | OStart gi i => if decide (g = gi ∧ j = i) then true else up g j
  | OShutdownGroup gi => if decide (g = gi ∧ (j < m)%nat) then false else up g j
  | OStartGroup gi => if decide (g = gi ∧ (j < m)%nat) then true else up g j
  | _ => up g j
  end.

Definition up_run (m : nat) (os : list op) (up : ups) : ups := foldl (λ up o, up_step m o up) up os.

Definition all_up (m : nat) : ups := λ g j, bool_decide ((g < 3)%nat ∧ (j < m)%nat).

(** A server that is started does not run; clerks need groups of three servers. *)
Definition allowed (m : nat) (up : ups) (o : op) : Prop :=
  match o with
  | OShutdown gi i => (gi < 3)%nat ∧ (i < m)%nat
  | OStart gi i => (gi < 3)%nat ∧ (i < m)%nat ∧ up gi i = false
  | OShutdownGroup gi => (gi < 3)%nat
  | OStartGroup gi => (gi < 3)%nat ∧ Forall (λ i, up gi i = false) (seq 0 m)
  | OMakeClient => m = 3%nat
  | ODeleteClient _ | OMakeEnd _ => True
  end.

Fixpoint all_allowed (m : nat) (up : ups) (os : list op) : Prop :=
  match os with
  | [] => True
  | o :: os => allowed m up o ∧ all_allowed m (up_step m o up) os
  end.

#[global] Instance allowed_dec m up o : Decision (allowed m up o).
Proof. destruct o; simpl; apply _. Defined.

#[global] Instance all_allowed_dec m os : ∀ up, Decision (all_allowed m up os).
Proof. induction os as [|o os IH]; intros up; simpl; apply _. Defined.

Section service.
Context {W X : Type} `{Codec X} (types : rtype → desc).
Context (kv_methods kv_raft_methods ctl_methods ctl_raft_methods : nat → list (Method (W:=W) (V:=X))).
Abbreviation world := (world (W:=W) (X:=X)).
Abbreviation StartServer := (StartServer types kv_methods kv_raft_methods).
Abbreviation StartGroup := (StartGroup types kv_methods kv_raft_methods).
Abbreviation make_group := (make_group types kv_methods kv_raft_methods).
Abbreviation make_config := (make_config types kv_methods kv_raft_methods ctl_methods ctl_raft_methods).
Abbreviation good := (good types kv_methods kv_raft_methods ctl_methods ctl_raft_methods).
Abbreviation kv_front := (front types "ShardKV" kv_methods kv_raft_methods).
Abbreviation ctl_front := (front types "ShardCtrler" ctl_methods ctl_raft_methods).
Implicit Types (w : world) (ct : ctrler) (up : ups).

(** The world, and the ends that were made with [make_end] with where they lead. *)
Definition run_op (s : world * list (string * string)) (o : op) : result (world * list (string * string)) :=
  let '(w, made) := s in
  match o with
  | OShutdown gi i => w ← ShutdownServer gi i w; Val (w, made)
  | OStart gi i => w ← StartServer gi i w; Val (w, made)
  | OShutdownGroup gi => w ← ShutdownGroup gi w; Val (w, made)
  | OStartGroup gi => w ← StartGroup gi w; Val (w, made)
  | OMakeClient => ct ← or_panic (ctl (w_cfg w)); '(_, w) ← makeClient ct w; Val (w, made)
  | ODeleteClient ck => Val (with_cfg (deleteClient ck (w_cfg w)) w, made)
  | OMakeEnd server => '(e, w) ← make_end server w; Val (w, made ++ [(e, server)])
  end.

Definition run_ops (s : world * list (string * string)) (os : list op) : result (world * list (string * string)) :=
  foldl (λ acc o, s ← acc; run_op s o) (Val s) os.

(** ** The set-up *)

Lemma make_group_ok w ct made gi : good w ct made → (gi < 3)%nat → groups (w_cfg w) !! gi = Some None →
  let w1 := with_cfg (set_groups (<[gi := Some (empty_group gi (n (w_cfg w)) 3)]> (groups (w_cfg w))) (w_cfg w)) w in
  make_group gi w = StartGroup gi w1 ∧ good w1 ct made ∧ made_group w1 gi ∧
  (∀ gi' i', current w1 gi' i' = current w gi' i') ∧ (∀ i, current w gi i = None).
Proof.
  intros HG Hgi Hnone w1. destruct (good_empty_group _ _ _ _ _ w ct made gi HG Hgi Hnone) as (HG1 & Hm & Hc).
  split; [|split; [done|split; [done|split; [done|]]]].
  - unfold ShardKvConfig.make_group. rewrite (gd_ctl _ _ _ _ _ _ _ _ HG). cbn [or_panic mbind result_bind].
    rewrite (co_n _ _ _ _ _ (gd_ctrler _ _ _ _ _ _ _ _ HG)), (RaftWiring.write_ok (V:=())); [done|]. by rewrite (gd_groups _ _ _ _ _ _ _ _ HG).
  - intros i. unfold current. by rewrite Hnone.
Qed.

(** The first [k] groups. *)
Record grouped w ct m (k : nat) : Prop := Grouped {
  gp_good : good w ct [];
  gp_n : n (w_cfg w) = m;
  gp_born gi i : (gi < k)%nat → (i < m)%nat → born w gi i;
  gp_made gi : (gi < k)%nat → made_group w gi;
  gp_none gi : (k ≤ gi < 3)%nat → groups (w_cfg w) !! gi = Some None;
  gp_current gi i : is_Some (current w gi i) ↔ (gi < k)%nat ∧ (i < m)%nat;
}.

Lemma make_groups_ok w ct m k : grouped w ct m 0 → (m ≤ 3)%nat → (k ≤ 3)%nat →
  post (for_each k make_group w) (λ w', grouped w' ct m k).
Proof.
  intros H0 Hm Hk. apply (post_for_each k make_group (λ j w', grouped w' ct m j) w H0).
  intros j w1 Hj [HG Hn Hb Hmd Hno Hc]. destruct (make_group_ok w1 ct [] j HG) as (-> & HG1 & Hm1 & Hc1 & Hnone); [lia|apply Hno; lia|].
  eapply post_mono; [apply (start_group_ok _ _ _ _ _ _ ct [] j HG1 Hm1); [simpl; lia|intros i _; by rewrite Hc1]|].
  intros w2 (HG2 & Hk2 & Hb2 & Hc2).
  assert (Hlt : (j < length (groups (w_cfg w1)))%nat) by (rewrite (gd_groups _ _ _ _ _ _ _ _ HG); lia). split.
  - done.
  - by rewrite (kp_n _ _ Hk2).
  - intros gi i Hgi Hi. destruct (decide (gi = j)) as [->|Hne]; [by apply Hb2; simpl; lia|].
    apply (kp_born _ _ Hk2). destruct (Hb gi i) as (gg & es & G1 & G2); [lia|done|]. exists gg, es. simpl. by rewrite list_lookup_insert_ne.
  - intros gi Hgi. apply (kp_made _ _ Hk2). destruct (decide (gi = j)) as [->|Hne]; [done|].
    unfold made_group. simpl. rewrite list_lookup_insert_ne by done. apply Hmd. lia.
  - intros gi Hgi. apply (kp_none _ _ Hk2). simpl. rewrite list_lookup_insert_ne by lia. apply Hno. lia.
  - intros gi i. rewrite Hc2, Hc1, Hc. simpl. destruct (decide (gi = j)); lia.
Qed.

(** After the controller is set up. *)
Lemma set_up_ok now m maxraftstate random : Inj (=) (=) random →
  post ('(ct, w) ← StartCtrlerService types ctl_methods ctl_raft_methods (World (Config MakeNetwork now None 0 0 [] ∅ 0 maxraftstate) [] [] [] [] [] [] random 0);
        Val (ct, with_cfg (set_shape 3 m (replicate 3 None) (set_ctl (Some ct) (w_cfg w))) w)) (λ '(ct, w), grouped w ct m 0).
Proof.
  intros Hinj. eapply post_bind; [by apply service_ok|]. intros [ct w] [HS Hck].
  pose proof (good_setting types kv_methods kv_raft_methods ctl_methods ctl_raft_methods _ w ct m HS eq_refl Hck) as HG.
  split; simpl; try lia; try done.
  - intros gi [_ Hgi]. by apply (lookup_replicate_2 3).
  - intros gi i. split; [|lia]. intros [s Hs]. unfold current in Hs. simpl in Hs. by destruct gi as [|[|[|gi]]].
Qed.

Lemma make_config_eq now m unreliable maxraftstate random : Inj (=) (=) random → ∃ ct w, grouped w ct m 0 ∧
  make_config now m unreliable maxraftstate random = (w ← for_each 3 make_group w;
    Val (on_net (Reliable (negb unreliable)) (with_cfg (set_clerks ∅ (wrap_s 64 (Z.of_nat m + 1000)) (w_cfg w)) w))).
Proof.
  intros Hinj. pose proof (set_up_ok now m maxraftstate random Hinj) as Hs. unfold ShardKvConfig.make_config.
  destruct (StartCtrlerService _ _ _ _) as [| | | |[ct w]]; try done. simpl in Hs. by exists ct, (with_cfg (set_shape 3 m (replicate 3 None) (set_ctl (Some ct) (w_cfg w))) w).
Qed.

Lemma grows_Reliable (rn : Network (N:=string)) b : grows rn (Reliable b rn) [].
Proof. split; try done; [|by intros ? ? ?%elem_of_nil]. intros e. simpl. split; [by left|by intros [?|?%elem_of_nil]]. Qed.

Lemma shard_make_config_ok now m unreliable maxraftstate random : Inj (=) (=) random → (m ≤ 3)%nat →
  ∃ ct, post (make_config now m unreliable maxraftstate random) (λ w, grouped w ct m 3).
Proof.
  intros Hinj Hm. destruct (make_config_eq now m unreliable maxraftstate random Hinj) as (ct & w & Hg & ->). exists ct.
  eapply post_bind; [by apply make_groups_ok|]. intros w1 [HG Hn Hb Hmd Hno Hc]. simpl.
  destruct (good_recfg _ _ _ _ _ w1 ct [] (set_net (Reliable (negb unreliable) (net (w_cfg w1))) (set_clerks ∅ (wrap_s 64 (Z.of_nat m + 1000)) (w_cfg w1))) HG eq_refl)
    as [HG' Hs]; [apply grows_Reliable|]. by split.
Qed.

Lemma make_config_panics now m unreliable maxraftstate random : Inj (=) (=) random → (3 < m)%nat →
  make_config now m unreliable maxraftstate random = Panic.
Proof.
  intros Hinj Hm. destruct (make_config_eq now m unreliable maxraftstate random Hinj) as (ct & w & [HG Hn Hb Hmd Hno Hc] & ->).
  destruct (make_group_ok w ct [] 0 HG) as (E & HG1 & Hm1 & Hc1 & Hnone); [lia|apply Hno; lia|].
  rewrite (for_each_panics 0 3 _ (eq w)); [done|lia|done|]. intros ? <-. rewrite E.
  apply (start_group_panics _ _ _ _ _ _ ct [] 0 HG1 Hm1); [simpl; lia|]. intros i _. by rewrite Hc1.
Qed.

(** ** Every operation of a test *)

Record tested w ct made (m : nat) up : Prop := Tested {
  te_good : good w ct made;
  te_n : n (w_cfg w) = m;
  te_small : (m ≤ 3)%nat;
  te_born gi i : (gi < 3)%nat → (i < m)%nat → born w gi i;
  te_made gi : (gi < 3)%nat → made_group w gi;
  te_up gi i : is_Some (current w gi i) ↔ up gi i = true;
}.

Lemma tested_kept w ct made w' made' m up up' : tested w ct made m up → good w' ct made' → kept w w' →
  (∀ gi i, is_Some (current w' gi i) ↔ up' gi i = true) → tested w' ct made' m up'.
Proof.
  intros [HG Hn Hm3 Hb Hmd Hu] HG' Hk Hu'. split; try done.
  - by rewrite (kp_n _ _ Hk).
  - intros gi i Hgi Hi. by apply (kp_born _ _ Hk), Hb.
  - intros gi Hgi. by apply (kp_made _ _ Hk), Hmd.
Qed.

Lemma tested_same w ct made w' made' m up : tested w ct made m up → good w' ct made' → same w w' → tested w' ct made' m up.
Proof.
  intros HT HG' Hs. apply (tested_kept w ct made w' made' m up up HT HG'); [by apply same_kept|].
  intros gi i. rewrite (same_current w w' gi i Hs). apply HT.
Qed.

Lemma not_up w ct made m up gi i : tested w ct made m up → up gi i = false → current w gi i = None.
Proof. intros HT E. apply eq_None_not_Some. rewrite (te_up _ _ _ _ _ HT), E. done. Qed.

Lemma shard_run_op_ok w ct made m up o : tested w ct made m up → allowed m up o →
  post (run_op (w, made) o) (λ '(w', made'), tested w' ct made' m (up_step m o up)).
Proof.
  intros HT Ha. pose proof HT as [HG Hn Hm3 Hb Hmd Hu]. destruct o as [gi i|gi i|gi|gi| |ck|server]; simpl in Ha |- *.
  - destruct Ha as [Hgi Hi]. eapply post_bind; [apply (shard_shutdown_ok _ _ _ _ _ w ct made gi i HG); [by rewrite Hn|by apply Hb]|].
    intros w' (HG' & Hk & Hc). apply (tested_kept _ _ _ _ _ _ _ _ HT HG' Hk). intros g j. rewrite Hc. simpl. case_decide; [|apply Hu].
    split; [by intros [? ?]|done].
  - destruct Ha as (Hgi & Hi & Hno). eapply post_bind.
    { apply (start_server_ok _ _ _ _ _ w ct made gi i HG); [by apply Hmd|by rewrite Hn|lia|by eapply not_up]. }
    intros w' (HG' & Hk & _ & Hc). apply (tested_kept _ _ _ _ _ _ _ _ HT HG' Hk). intros g j. rewrite Hc, Hu. simpl. case_decide; tauto.
  - eapply post_bind; [apply (shutdown_group_ok _ _ _ _ _ w ct made gi HG); intros i Hi; apply Hb; [done|by rewrite <- Hn]|].
    intros w' (HG' & Hk & Hc). apply (tested_kept _ _ _ _ _ _ _ _ HT HG' Hk). intros g j. rewrite Hc, Hn. simpl. case_decide; [|apply Hu].
    split; [by intros [? ?]|done].
  - destruct Ha as [Hgi Hno]. rewrite Forall_forall in Hno. eapply post_bind.
    { apply (start_group_ok _ _ _ _ _ w ct made gi HG); [by apply Hmd|lia|]. intros i Hi. apply (not_up w ct made m up gi i HT), Hno, elem_of_seq. lia. }
    intros w' (HG' & Hk & _ & Hc). apply (tested_kept _ _ _ _ _ _ _ _ HT HG' Hk). intros g j. rewrite Hc, Hu, Hn. simpl. case_decide; tauto.
  - rewrite (gd_ctl _ _ _ _ _ _ _ _ HG). cbn [or_panic mbind result_bind]. eapply post_bind; [apply (make_client_ok _ _ _ _ _ w ct made HG); lia|].
    intros [k w'] [HG' Hs]. by apply (tested_same w ct made).
  - destruct (good_recfg _ _ _ _ _ w ct made (deleteClient ck (w_cfg w)) HG eq_refl) as [HG' Hs]; [apply shard_grows_refl|]. by apply (tested_same w ct made).
  - eapply post_bind; [by apply (good_make_end _ _ _ _ _ w ct made server HG)|]. intros [e w'] [HG' Hs]. by apply (tested_same w ct made).
Qed.

Lemma shard_run_ops_ok w ct made m up os : tested w ct made m up → all_allowed m up os →
  post (run_ops (w, made) os) (λ '(w', made'), tested w' ct made' m (up_run m os up)).
Proof.
  revert w made up. induction os as [|o os IH]; intros w made up HT Ha; [done|]. destruct Ha as [Ha Has].
  pose proof (shard_run_op_ok w ct made m up o HT Ha) as Ho. unfold run_ops. cbn [foldl].
  destruct (run_op (w, made) o) as [| | | |[w1 made1]] eqn:E; try done. cbn [mbind result_bind]. simpl in Ho. rewrite E. by apply IH.
Qed.

Lemma tested_start w ct m : grouped w ct m 3 → (m ≤ 3)%nat → tested w ct [] m (all_up m).
Proof. intros [HG Hn Hb Hmd Hno Hc] Hm. split; try done. intros gi i. unfold all_up. by rewrite Hc, bool_decide_eq_true. Qed.

(** Who answers to the name [t]: the object that runs as the server, nobody when it
    does not run, and one of the controllers. *)
Definition answers w ct (t : string) (p : option nat) : Prop :=
  (∀ gi i, (gi < 3)%nat → t = servername (100 + Z.of_nat gi) i →
     match current w gi i with
     | Some s => ∃ q, p = Some q ∧ w_servers w !! q = Some (kv_front s)
     | None => p = None
     end) ∧
  (∀ i, names ct !! i = Some t → ∃ s q, ctl_servers ct !! i = Some (Some s) ∧ p = Some q ∧ w_servers w !! q = Some (ctl_front s)).

Lemma good_answers w ct made t : good w ct made → answers w ct t (read (LabRpc.servers (net (w_cfg w))) t).
Proof.
  intros HG. split.
  - intros gi i Hgi ->. destruct (current w gi i) as [s|] eqn:E; [|by apply (gd_down _ _ _ _ _ _ _ _ HG)].
    destruct (gd_up _ _ _ _ _ _ _ _ HG gi i s E) as (q & G1 & G2). by exists q.
  - intros i Hi. destruct (co_served _ _ _ _ _ (gd_ctrler _ _ _ _ _ _ _ _ HG) i t Hi) as (s & G1 & _ & q & G2 & G3). by exists s, q.
Qed.

Lemma ends_lead w ct made o e t : good w ct made → (e, t) ∈ ends_of w ct made o →
  let inf := readEndnameInfo e (net (w_cfg w)) in
  (i_enabled inf = true ↔ live w o) ∧ i_servername inf = Some t ∧ answers w ct t (i_server inf).
Proof.
  intros HG He. destruct (wi_on _ _ _ (gd_wired _ _ _ _ _ _ _ _ HG) o e t He) as (_ & G1 & G2).
  unfold readEndnameInfo. rewrite G1. simpl. split; [done|]. split; [done|]. by apply (good_answers w ct made).
Qed.

Lemma length_ends_of w ct made gi i s : good w ct made → current w gi i = Some s → length (ends_of w ct made (Serv s)) = (n (w_cfg w) + 3)%nat.
Proof.
  intros HG Hc. destruct (current_object _ _ _ _ _ w ct made gi i s HG Hc) as (es & ms & Ho).
  destruct (gd_objs _ _ _ _ _ _ _ _ HG s _ _ es ms Ho) as [H1 H2].
  by rewrite <- (length_fmap fst), (fst_ends_of _ _ _ _ _ w ct made s _ _ es ms HG Ho), length_app, H1, H2.
Qed.

Lemma test_ok now m unreliable maxraftstate random os : Inj (=) (=) random → (m ≤ 3)%nat → all_allowed m (all_up m) os →
  ∃ w ct w' made, make_config now m unreliable maxraftstate random = Val w ∧ run_ops (w, []) os = Val (w', made) ∧
    tested w' ct made m (up_run m os (all_up m)).
Proof.
  intros Hinj Hm Ha. destruct (shard_make_config_ok now m unreliable maxraftstate random Hinj Hm) as (ct & (w & Ew & Hg)%post_Val).
  pose proof (shard_run_ops_ok w ct [] m _ os (tested_start w ct m Hg Hm) Ha) as ([w' made] & Er & HT)%post_Val. by exists w, ct, w', made.
Qed.

(** C19: When random strings are never drawn twice, the set-up with groups of up to
    three servers and every sequence of operations of a test end without a panic,
    exactly the servers that should run do, and every end leads to the server it is
    for: the ends of a server are enabled exactly while that server object runs,
    those of controllers and clerks always, and the ends that servers and clerks made
    by themselves always too, also after the server that made them is shut down. *)
Theorem shardkv_links now m unreliable maxraftstate random os :
  Inj (=) (=) random → (m ≤ 3)%nat → all_allowed m (all_up m) os →
  ∃ w ct w' made, make_config now m unreliable maxraftstate random = Val w ∧ run_ops (w, []) os = Val (w', made) ∧
    ctl (w_cfg w') = Some ct ∧
    (∀ gi i, is_Some (current w' gi i) ↔ up_run m os (all_up m) gi i = true) ∧
    (∀ gi i s, current w' gi i = Some s → length (ends_of w' ct made (Serv s)) = (m + 3)%nat) ∧
    (∀ o e t, (e, t) ∈ ends_of w' ct made o →
       let inf := readEndnameInfo e (net (w_cfg w')) in
       (i_enabled inf = true ↔ live w' o) ∧ i_servername inf = Some t ∧ answers w' ct t (i_server inf)).
Proof.
  intros Hinj Hm Ha. destruct (test_ok now m unreliable maxraftstate random os Hinj Hm Ha) as (w & ct & w' & made & E1 & E2 & HT).
  pose proof (te_good _ _ _ _ _ HT) as HG. exists w, ct, w', made. split; [done|]. split; [done|]. split; [by eapply gd_ctl|].
  split; [apply HT|]. split; [|by intros; apply (ends_lead w' ct made)].
  intros gi i s Hc. by rewrite (length_ends_of w' ct made gi i s HG Hc), (te_n _ _ _ _ _ HT).
Qed.

(** C22: When random strings are never drawn twice, only groups of three servers work: with more the set-up panics, because the
    slice for a group's ends to the controller has the size of the controller, and
    with fewer the first clerk panics, because the slice for its ends to the
    controller has the size of a group. *)
Theorem groups_of_three now m unreliable maxraftstate random :
  Inj (=) (=) random →
  ((3 < m)%nat → make_config now m unreliable maxraftstate random = Panic) ∧
  ((m ≤ 3)%nat → ∃ w ct, make_config now m unreliable maxraftstate random = Val w ∧ ctl (w_cfg w) = Some ct ∧
     ((m < 3)%nat → makeClient ct w = Panic) ∧
     (m = 3%nat → ∃ ck w', makeClient ct w = Val (ck, w'))).
Proof.
  intros Hinj. split; [by apply make_config_panics|]. intros Hm.
  destruct (shard_make_config_ok now m unreliable maxraftstate random Hinj Hm) as (ct & (w & -> & [HG Hn _ _ _ _])%post_Val).
  exists w, ct. split; [done|]. split; [by eapply gd_ctl|]. split.
  - intros Hlt. apply (make_client_panics _ _ _ _ _ w ct [] HG). lia.
  - intros ->. pose proof (make_client_ok _ _ _ _ _ w ct [] HG) as Hc. rewrite Hn in Hc.
    destruct (proj1 (post_Val _ _) (Hc (le_n 3))) as ([ck w'] & E & _). by exists ck, w'.
Qed.

(** ** The names the controller is told *)

Lemma leave_gids_ok w ct made m up gis : tested w ct made m up → Forall (λ g, (g < 3)%nat) gis →
  leave_gids gis w = Val ((λ g : nat, 100 + Z.of_nat g) <$> gis).
Proof.
  intros HT. induction gis as [|g gis IH] using rev_ind; [done|]. rewrite Forall_app, Forall_singleton. intros [Hs Hg].
  unfold leave_gids. rewrite foldl_app. cbn [foldl]. change (foldl _ _ gis) with (leave_gids gis w). rewrite IH by done. cbn [mbind result_bind].
  destruct (group_exists w g (te_made _ _ _ _ _ HT g Hg)) as [gg Hgg]. rewrite (get_group_ok w g gg Hgg). cbn [mbind result_bind].
  by rewrite fmap_app, (ok_gid _ _ _ (gd_group _ _ _ _ _ _ _ _ (te_good _ _ _ _ _ HT) g gg Hgg)).
Qed.

Lemma join_map_ok w ct made m up gis : tested w ct made m up → Forall (λ g, (g < 3)%nat) gis →
  post (join_map gis w) (λ mp, ∀ g x, mp !! g = Some x ↔ ∃ gi : nat, gi ∈ gis ∧ g = 100 + Z.of_nat gi ∧ x = servername g <$> seq 0 m).
Proof.
  intros HT. induction gis as [|g gis IH] using rev_ind; [intros _ g x; rewrite lookup_empty; split; [done|by intros (? & ?%elem_of_nil & _)]|].
  rewrite Forall_app, Forall_singleton. intros [Hs Hg].
  unfold join_map. rewrite foldl_app. cbn [foldl]. change (foldl _ _ gis) with (join_map gis w). eapply post_bind; [by apply IH|]. intros mp Hmp. cbn beta in Hmp.
  destruct (group_exists w g (te_made _ _ _ _ _ HT g Hg)) as [gg Hgg]. rewrite (get_group_ok w g gg Hgg). cbn [mbind result_bind]. simpl post.
  rewrite (ok_gid _ _ _ (gd_group _ _ _ _ _ _ _ _ (te_good _ _ _ _ _ HT) g gg Hgg)), (te_n _ _ _ _ _ HT).
  intros g' x. rewrite lookup_insert_Some, Hmp. split.
  - intros [[<- <-]|(Hne & gi & Hin & -> & ->)]; [exists g|exists gi]; rewrite elem_of_app, list_elem_of_singleton; auto.
  - intros (gi & Hin & -> & ->). rewrite elem_of_app, list_elem_of_singleton in Hin.
    destruct (decide (gi = g)) as [->|Hne]; [by left|right]. split; [lia|]. exists gi. by destruct Hin.
Qed.

(** In a test [joinm] tells the controller, for every group that joins, the names
    of its servers under the number of the group, and [leavem] the same numbers; and
    an end that anybody makes for one of these names leads to the object that runs
    as that server, or to nobody while it does not run. *)
Theorem joined_names_lead now m unreliable maxraftstate random os gis :
  Inj (=) (=) random → (m ≤ 3)%nat → all_allowed m (all_up m) os → Forall (λ g, (g < 3)%nat) gis →
  ∃ w ct w' made mp, make_config now m unreliable maxraftstate random = Val w ∧ run_ops (w, []) os = Val (w', made) ∧
    join_map gis w' = Val mp ∧ leave_gids gis w' = Val ((λ g : nat, 100 + Z.of_nat g) <$> gis) ∧
    (∀ g x, mp !! g = Some x ↔ ∃ gi : nat, gi ∈ gis ∧ g = 100 + Z.of_nat gi ∧ x = servername g <$> seq 0 m) ∧
    (∀ gi x i t, gi ∈ gis → mp !! (100 + Z.of_nat gi) = Some x → x !! i = Some t →
       ∃ e w'', make_end t w' = Val (e, w'') ∧
         let inf := readEndnameInfo e (net (w_cfg w'')) in
         i_enabled inf = true ∧ i_servername inf = Some t ∧ answers w' ct t (i_server inf)).
Proof.
  intros Hinj Hm Ha Hgis. destruct (test_ok now m unreliable maxraftstate random os Hinj Hm Ha) as (w & ct & w' & made & E1 & E2 & HT).
  pose proof (te_good _ _ _ _ _ HT) as HG.
  destruct (proj1 (post_Val _ _) (join_map_ok w' ct made m _ gis HT Hgis)) as (mp & E3 & Hmp).
  exists w, ct, w', made, mp. split_and!; [done|done|done|by eapply leave_gids_ok|done|]. intros gi x i t _ _ _.
  destruct (proj1 (post_Val _ _) (good_make_end _ _ _ _ _ w' ct made t HG)) as ([e w''] & E4 & HG' & Hs). exists e, w''. split; [done|].
  destruct (ends_lead w'' ct _ Made e t HG') as (G1 & G2 & G3 & G4); [simpl; apply elem_of_app; right; by left|]. simpl.
  split; [by apply G1|]. split; [done|]. split.
  - intros gj j Hgj Ht. specialize (G3 gj j Hgj Ht). rewrite (same_current w' w'' _ _ Hs), (sm_servers _ _ Hs) in G3. done.
  - intros j Hj. specialize (G4 j Hj). by rewrite (sm_servers _ _ Hs) in G4.
Qed.

End service.

(** ** A test *)

Fixpoint demo_random (k : nat) : string := match k with O => "r" | S k => "r" +:+ demo_random k end.

Lemma demo_random_inj : Inj (=) (=) demo_random.
Proof.
  assert (Hl : ∀ k, String.length (demo_random k) = S k) by (intros k; induction k as [|k IH]; [done|]; by apply (f_equal S) in IH).
  intros a b E. apply (f_equal String.length) in E. rewrite !Hl in E. lia.
Qed.

Definition demo_methods : nat → list (Method (W:=()) (V:=())) := λ _, [].
Definition demo_os : list op := [OMakeClient; OShutdown 0 1; OMakeEnd "server-100-1"; OShutdownGroup 2; OStart 0 1; OStartGroup 2; OShutdown 1 0].

Lemma shardkv_links_witness : ∃ w ct w' made,
  ShardKvConfig.make_config (λ _, DOther "") demo_methods demo_methods demo_methods demo_methods 0 3 false (-1) demo_random = Val w ∧
  run_ops (λ _, DOther "") demo_methods demo_methods (w, []) demo_os = Val (w', made) ∧ ctl (w_cfg w') = Some ct ∧
  is_Some (current w' 0 1) ∧ current w' 1 0 = None.
Proof.
  destruct (shardkv_links (λ _, DOther "") demo_methods demo_methods demo_methods demo_methods 0 3 false (-1) demo_random demo_os)
    as (w & ct & w' & made & H1 & H2 & H3 & H4 & _); [apply demo_random_inj|lia|by apply (bool_decide_unpack _)|].
  exists w, ct, w', made. split; [done|]. split; [done|]. split; [done|]. split; [by apply H4|].
  apply eq_None_not_Some. intros Hs%H4. vm_compute in Hs. discriminate Hs.
Defined.

Lemma groups_of_three_witness :
  ShardKvConfig.make_config (λ _, DOther "") demo_methods demo_methods demo_methods demo_methods 0 4 false (-1) demo_random = Panic.
Proof.
  apply (groups_of_three (λ _, DOther "") demo_methods demo_methods demo_methods demo_methods 0 4 false (-1) demo_random demo_random_inj). lia.
Defined.

Lemma joined_names_lead_witness : ∃ w w' mp made,
  ShardKvConfig.make_config (λ _, DOther "") demo_methods demo_methods demo_methods demo_methods 0 3 false (-1) demo_random = Val w ∧
  run_ops (λ _, DOther "") demo_methods demo_methods (w, []) demo_os = Val (w', made) ∧
  join_map [0; 2]%nat w' = Val mp ∧ is_Some (mp !! 102%Z).
Proof.
  destruct (joined_names_lead (λ _, DOther "") demo_methods demo_methods demo_methods demo_methods 0 3 false (-1) demo_random demo_os [0; 2]%nat)
    as (w & ct & w' & made & mp & H1 & H2 & H3 & _ & H5 & _); [apply demo_random_inj|lia|by apply (bool_decide_unpack _)|repeat constructor|].
  exists w, w', mp, made. split; [done|]. split; [done|]. split; [done|]. eexists. apply H5. exists 2%nat. split; [right; left|exact (conj eq_refl eq_refl)].
Defined.

End ShardKvService.
